(* ===== verification/_CoqProject ===== *)
-Q . S2P
Prelude.v
CapabilityGrammar.v
Profile.v
Groups.v
Policy.v
Kv.v
PairToken.v
ProfileStore.v
Pairing.v
Budgets.v
Route.v
Toposort.v
Bytes.v
Cbor.v
Crypto.v
KeyRegistry.v
AuditEntry.v
AuditChain.v
AuditLog.v
AuditStorage.v
CrashLogic.v
AuditDurability.v
AuditHistory.v
AuditBatch.v
StorageExamples.v
AuditPrune.v
AuditPruning.v
AuditRetention.v
AuditKeeping.v
AuditRemoval.v
AuditAnchoring.v
AuditVerify.v
AuditVerification.v
PruneExamples.v
VerifyExamples.v
CapTokens.v
CapStore.v
Allowances.v
Consent.v
