(* ===== verification/Prelude.v ===== *)
(** * Astrid: a verification development

    Astrid is a runtime for sandboxed agents ("capsules").  This development
    models the parts of it that decide who may do what, keep the records those
    decisions rest on, bound what a principal may consume, and deliver its
    messages.  Paths below are relative to [src/crates].

    ** Parts and how they interact

    A principal has a profile (groups, grants, revokes, paired devices,
    quotas) stored as a file and read through a cache.  A request names its
    principal and possibly a device; the kernel resolves the profile, finds
    the device, and runs a capability check of the profile against the group
    configuration, attenuated by the device's scope.  Capabilities are
    colon-separated strings matched against patterns.  Devices are added by
    pairing: an authorized device issues a short-lived token, kept in the
    key-value store; a new device redeems it, and is registered with the scope
    recorded in the token.  A tool call is authorized by a signed capability
    token, minted by an administrator and kept in the key-value store.  A
    command, or a connection to a local endpoint, needs its user's consent: a
    saved grant of the profile, an allowance of the session, or an answer to a
    prompt.  What happens is recorded in hash-linked audit chains whose entries are signed
    by keys listed in a registry that only grows.  Running capsules draw on per-principal fuel,
    memory and throughput budgets, publish events that are routed to
    subscriptions, and are loaded in the order of their imports.

    ** Files

    - [Prelude] (this file): [Result] and its [?] operator as [result] and
      [let?], stateful fallible code as [eff] and [do?], machine-width
      arithmetic, byte strings with their UTF-8 reading, generic lemmas and
      tactics.
    - [CapabilityGrammar]: [astrid-core/src/capability_grammar.rs].
    - [Profile]: [astrid-core/src/principal.rs] and [profile/{mod, field,
      device, validation}.rs].
    - [Groups]: [astrid-core/src/groups/mod.rs].
    - [Policy]: [astrid-capabilities/src/policy.rs].
    - [Kv]: [astrid-storage/src/kv/{mod, batch, memory}.rs].
    - [PairToken]: [astrid-kernel/src/pair_token/*.rs].
    - [ProfileStore]: [astrid-core/src/profile/io_impl.rs] and
      [astrid-capsule/src/profile_cache/{mod, load}.rs].
    - [Pairing]: [astrid-kernel/src/kernel_router/device_scope.rs], the
      decision point of [kernel_router/mod.rs] and
      [kernel_router/admin/pair_device_handlers.rs].
    - [Budgets]: [astrid-capsule-types/src/{fuel_ledger, memory_ledger}.rs] and
      [astrid-events/src/rate_limiter.rs].
    - [Route]: [astrid-events/src/route/{matcher, gate, state, entry}.rs],
      [bus/dispatch.rs] and the receipt rule of
      [astrid-types/src/ipc/delivery_failure.rs].
    - [Toposort]: [astrid-capsule/src/toposort.rs].
    - [Bytes]: byte strings, fixed-size arrays and little-endian encodings, as
      the cryptographic files use them.
    - [Cbor]: [astrid-audit/src/entry_v2/cbor.rs].
    - [Crypto]: the primitives behind [astrid-crypto] as an interface, with the
      content-hash type of [astrid-crypto/src/hash.rs].
    - [KeyRegistry]: [astrid-audit/src/entry_v2/registry.rs].
    - [AuditEntry]: [astrid-audit/src/entry.rs], [error.rs] and
      [entry_v2/{json, fields, body, decode}.rs].
    - [AuditChain]: [astrid-audit/src/entry_v2/verify.rs] and [log_types.rs].
    - [AuditLog]: the appending, upgrading and key-rotating operations of
      [astrid-audit/src/log.rs] and [log/v2.rs] over the storage contract of
      [storage.rs] and [storage/key_registry.rs].
    - [AuditStorage]: the key-value layout behind that contract:
      [astrid-audit/src/storage.rs] and [storage/{append, append_batch,
      key_types, helpers, metadata, global, key_registry,
      retention_hold}.rs].
    - [CrashLogic]: Hoare triples for code on a backend whose writes may fail.
    - [AuditDurability]: appends under an intent and their recovery are atomic.
    - [AuditHistory]: the log a store keeps, its reads, and what an append
      does to it.
    - [AuditBatch]: the same for batched appends.
    - [StorageExamples]: a codec for evaluation and runs of the storage.
    - [AuditPrune]: removing the front of a chain:
      [astrid-audit/src/storage/{prune_chain, prune_finish, receipt_history,
      anchor_marks, paging_session}.rs] and the prune accounting of
      [storage/metadata.rs].
    - [AuditPruning]: what such a removal can touch, and its counters.
    - [AuditRetention]: deciding what to remove, with its signed receipts,
      archive and watermarks: [astrid-audit/src/prune.rs],
      [log/{retention_guard, prune_oldest, archive, anchor}.rs], the archive
      anchor of [log/verify_chain.rs] and [storage/{paging_principal,
      sealed_segments}.rs].
    - [AuditKeeping]: what the retention scan, a receipt and the archive hold.
    - [AuditRemoval]: a finished prune removed what its receipt omits.
    - [AuditAnchoring]: anchored positions and the choice of a segment.
    - [AuditVerify]: verifying what is stored: [log/verify_chain.rs],
      [log/verify_legacy_chain.rs], [storage/paging_chains.rs] and the registry
      of [log/v2.rs] and [storage/key_registry.rs].
    - [AuditVerification]: what verification reports, also after a prune.
    - [PruneExamples]: codecs, an archive and a store that dies, and runs of
      prunes on them.
    - [VerifyExamples]: verification on such stores.
    - [CapTokens]: [astrid-capabilities/src/{error, pattern, token}.rs].
    - [CapStore]: [astrid-capabilities/src/{store, validator}.rs], the
      authorization decision of [astrid-mcp/src/secure.rs] and the handlers of
      [astrid-kernel/src/kernel_router/admin/caps_tokens.rs].
    - [Allowances]: [astrid-approval/src/{action, error}.rs] and
      [allowance/{mod, pattern, store}.rs].
    - [Consent]: [astrid-capsule/src/engine/wasm/host/{approval,
      consent_egress, approval_audit}.rs] over the allowance store and the
      profile cache.

    Definitions keep the names of the source; a method of a type whose name
    alone would be ambiguous carries the type as a prefix
    ([KvMutationBatch_new]) or a short one ([mem_get]).  A Rust struct is a
    Record, an enum an Inductive; a hash map is a [gmap], and where the code's
    result can depend on iteration order the order is an argument constrained
    only to list the map's entries.

    ** Interfaces

    Code outside the sources is a type class of operations with a second class
    of the laws the proofs use: [Hashing] and [HashingLaws] (BLAKE3 and hex),
    [PairCodec] and [PairCodecLaws] (JSON of stored tokens),
    [ProfileCodec] and [ProfileCodecLaws] (TOML of profiles), [Uuids],
    [Crypto] and [CryptoLaws] (SHA-256, BLAKE3, Ed25519), [AuditSerde] (the
    derived JSON of actions and authorizations), [Globset] (glob compilation
    and matching), [TokenCodec] and [TokenCodecLaws] (JSON of capability
    tokens), [UuidText] and [UuidTextLaws], [Chrono] (the range of dates),
    [HashIteration] and [HashIterationLaws], [AllowanceIteration] and
    [AllowanceIterationLaws], [BatchIteration] and [BatchIterationLaws] (the
    order in which hash maps are iterated), [StorageCodec] and
    [StorageCodecLaws] (JSON of the audit storage), [PruneCodec] and
    [ReceiptCodec] with their laws (JSON of prune plans, anchor marks and
    receipts), [AuditArchiver] (where pruned entries are archived),
    [RegistryCodec] (JSON of registry records), [ChainIteration] (the order
    of a hash map of chains).  No law says that a hash has no collisions: the
    theorems that need it name the inputs that must not collide.  The
    key-value trait is the class [KvStore]; [KvStoreLaws] relates a backend to
    a map of namespaced keys and allows writes to fail or end in doubt.  The
    token stores and the handlers are proved against these classes;
    [Kv.memory_store_refines_map] discharges the key-value laws for the
    in-memory backend.  Hex decoding of keys, the token hash, semver matching
    and every clock reading are arguments.

    ** What the theorems show

    - Capabilities: the validator accepts exactly the grammar, the matcher
      decides the documented rules and is transitive ([CapabilityGrammar]).
    - Profiles and groups: validation is exact, device keys are canonical and
      round-trip, every reachable group configuration is valid and keeps the
      built-ins, each mutation changes exactly one group ([Profile],
      [Groups]).
    - Decisions: [Policy.has_decision] states the check outright;
      [Pairing.authorize_request_exact] does so for the whole decision point.
    - Pairing: no escalation by one pairing or a chain of them, from issue
      through redemption to use; tokens work once; revocation takes effect at
      once; a failed redemption leaves profiles unchanged ([Pairing]).
    - Tokens: conservation over every sequence of operations, exclusive
      reservations, exact pruning, the full life cycle ([PairToken]).
    - Cache: in every interleaving a resolved profile was read since the last
      invalidation ([ProfileStore], a step relation with rule induction).
    - Storage: range bounds select exactly a prefix, batches are built exactly
      when within bounds, the memory backend refines the abstract map ([Kv]).
    - Budgets: settled and in-flight fuel stay within budget, admission is
      exact and live, publish quotas are exact and isolated, the memory ledger
      is bounded and keeps the biggest users ([Budgets]).
    - Delivery: access-list patterns are sound for sub-patterns, a route only
      holds and delivers what its policy admits with exact byte accounting,
      and its queues lose nothing but evicted heads ([Route]).
    - Load order: the sort decides acyclicity and orders providers first
      ([Toposort]).
    - Encoding: the CBOR decoder accepts exactly the deterministic encodings
      and inverts the encoder ([Cbor]).
    - Audit keys: a registry built by accepted records has one active key per
      role at every state, and a rotation hands it over for good
      ([KeyRegistry]).
    - Audit entries: the content hash binds every signed field and every
      committed value; an assembled entry verifies and its disclosures open
      ([AuditEntry]).  An accepted run is signed with authority and two runs
      that end in one hash are the same run ([AuditChain]).
    - Audit log: however handles interleave, the stored chains always verify,
      they are only appended to, and appending makes progress ([AuditLog], a
      step relation over handles that share a store).
    - Audit storage: wherever the backend fails or the process dies, an append
      has happened or not once recovered, and recovery itself can be
      interrupted ([AuditDurability]); the store refines the chains of
      [AuditLog] and its reads return them ([AuditHistory]); a batch appends
      all its entries or none ([AuditBatch]).
    - Retention: the scan keeps the longest suffix within the policy, its
      receipt anchors that suffix, and the archive was given exactly the rest
      ([AuditKeeping]); a prune that succeeds removed exactly the rest, from
      the store and from what a session lists ([AuditRemoval]); interrupted or
      not, a prune call touches only its own records and its chain's entries
      up to the cutoff, and counts each generation once ([AuditPruning]);
      nothing past an anchored position is removed, and an accepted mark names
      the entry at its position ([AuditAnchoring]).
    - Verification: the paged loops report exactly the issues of each chain
      they read, and a session that verified before a prune verifies after it
      ([AuditVerification], which composes the scan, the receipt, the removal
      and the check of the receipt's key).
    - Capability tokens: the signed bytes determine the grant ([CapTokens]); an
      authorized call is covered by a valid token of the caller, single-use
      tokens are consumed once and revocation is final across restarts,
      purging is complete, and a minted token takes effect ([CapStore]).
    - Allowances: the lookup is exact, uses are conserved over every history,
      patterns are confined to paths, plain commands and their capsule, and
      retirement ends them ([Allowances]).
    - Consent: commands and local connections pass only on the caller's own
      consent, consent for one endpoint grants nothing else, consent for
      always survives a restart, and the audit trail has one decision for
      every answer ([Consent]).

    Some theorems record where code and documentation or code and intent
    disagree: [PairToken.legacy_receipt_blocks_issuance],
    [ProfileStore.persist_on_removed_principal], [Policy.require_classifies],
    [Groups.group_mutations_exact], [AuditEntry.disclosures_open],
    [Allowances.retirement_fence] and [Consent.consent_audited];
    [Toposort.toposort_decides] states what a cycle report contains.  The
    examples of [CapStore], [Allowances] and [Consent] exhibit more:
    [readded_token_granted], [lapsed_token_masks],
    [stored_exact_pattern_widens], [mint_ttl_panics],
    [import_crosses_retirement], [expansion_is_allowed] and
    [escaped_command_asked_again]; those of [StorageExamples] are
    [caps_after_crash_block_appends] and [mixed_appends_reordered]; those of
    [PruneExamples] are [interrupted_prune_stuck] and
    [resumed_prune_counts_twice].  [AuditKeeping.empty_prune_loses_anchor] and
    [AuditVerification.late_chain_unverified] are general statements.

    ** Bounds and fuel

    Integers are [N] with saturating and checked operations at their Rust
    width.  Three loops run on fuel: the eviction and drain loops of a route,
    with one round more than the queued messages, and the queue loop of the
    load-order sort, with one round more than the capsules.  The lemmas
    [evict_loop_effect], [drain_loop_effect] and [kahn_effect] show that each
    leaves by its own exit condition.  [resolve_loop] of the profile cache
    retries only under interference; [ProfileStore.resolve_terminates] shows
    one round suffices without it.  The CBOR decoder runs on the nesting levels
    left, which is the source's own limit.  The append loop of the audit log
    runs [MAX_HEAD_CAS_ATTEMPTS] rounds as the source does;
    [AuditLog.append_live] shows two are enough without interference.  The
    loops over pages of an index ([find_pages], [principal_pages],
    [scan_pages], [archive_pages], [walk_pages], [select_pages],
    [verify_pages], [chain_pages]) run one round
    more than there are keys, or two where a last empty page is read; every
    page but the last moves the cursor, and the theorems about them are
    equations with a single pass over the index, so none stops early.  The
    resume loop of a prune runs the source's own [MAX_RESUME_PAGES] rounds.  Route theorems assume budgets below the
    maximum [usize], where saturation cannot hide an overrun.

    ** Not modelled

    Logging and metrics; the calls by which handlers record their actions in
    the audit log; of the audit log the listings over all chains (anchor
    status, exported heads, census) and the legacy import; the locks that make
    each append and each prune call one step; of the MCP client everything but
    the authorization decision; the approval manager with its
    deferred queue and floating-point budgets, which the kernel does not use;
    operating-system errors other than a
    missing file, file permissions and the rename behind an atomic save;
    wakeups of waiting tasks; the message loop of the router and its other
    handlers; the WebAssembly host, the storage engine below the key-value
    trait, the network front ends and the command line.  A handler that runs
    under the admin write lock is one step. *)

From stdpp Require Export base tactics option list numbers gmap fin_maps strings.
From Stdlib Require Import Ascii String.
From Stdlib Require Export Lia.

#[export] Set Default Goal Selector "!".

(** ** Results

    Rust's [Result<T, E>].  [rbind] is the [?] operator. *)

Inductive result (A E : Type) : Type :=
| Ok (a : A)
| Err (e : E).

Arguments Ok {A E} a.
Arguments Err {A E} e.

Definition rbind {A B E} (c : result A E) (k : A -> result B E) : result B E :=
  match c with
  | Ok a => k a
  | Err e => Err e
  end.

Definition map_err {A E F} (f : E -> F) (c : result A E) : result A F :=
  match c with
  | Ok a => Ok a
  | Err e => Err (f e)
  end.

Definition rmap {A B E} (f : A -> B) (c : result A E) : result B E :=
  match c with
  | Ok a => Ok (f a)
  | Err e => Err e
  end.

(** [Option::ok_or_else] and [Result::ok]. *)
Definition ok_or {A E} (o : option A) (e : E) : result A E :=
  match o with
  | Some a => Ok a
  | None => Err e
  end.

Definition res_ok {A E} (c : result A E) : option A :=
  match c with
  | Ok a => Some a
  | Err _ => None
  end.

Definition is_ok {A E} (c : result A E) : bool :=
  match c with
  | Ok _ => true
  | Err _ => false
  end.

(** [Option<Result<T, E>>::transpose]. *)
Definition transpose {A E} (o : option (result A E)) : result (option A) E :=
  match o with
  | None => Ok None
  | Some (Ok a) => Ok (Some a)
  | Some (Err e) => Err e
  end.

Declare Scope rust_scope.
Delimit Scope rust_scope with rust.
Notation "'let?' x ':=' c 'in' k" := (rbind c (fun x => k))
  (at level 10, x pattern, c at level 100, k at level 200,
   format "'let?'  x  ':='  c  'in' '//' k") : rust_scope.
Global Open Scope rust_scope.

(** [iter().map(f).collect::<Result<_, _>>()?]: stops at the first error. *)
Fixpoint try_map {A B E} (f : A -> result B E) (l : list A) : result (list B) E :=
  match l with
  | [] => Ok []
  | x :: r => let? y := f x in let? ys := try_map f r in Ok (y :: ys)
  end.

(** A [for] loop whose body only uses [?]. *)
Fixpoint try_for {A E} (f : A -> result unit E) (l : list A) : result unit E :=
  match l with
  | [] => Ok tt
  | x :: r => let? _ := f x in try_for f r
  end.

(** ** Stateful fallible code

    A method on shared mutable state that returns a [Result]: the state
    survives an error.  [do?] sequences such calls with [?]. *)
Definition eff (S E A : Type) : Type := S -> S * result A E.

Definition eff_lift {S E A} (r : result A E) : eff S E A := fun s => (s, r).
Definition eff_read {S E A} (f : S -> result A E) : eff S E A := fun s => (s, f s).
Definition eff_bind {S E A B} (c : eff S E A) (k : A -> eff S E B) : eff S E B :=
  fun s => match c s with
           | (s', Ok a) => k a s'
           | (s', Err e) => (s', Err e)
           end.

Notation "'do?' x ':=' c 'in' k" := (eff_bind c (fun x => k))
  (at level 10, x pattern, c at level 100, k at level 200,
   format "'do?'  x  ':='  c  'in' '//' k") : rust_scope.

(** ** Unsigned machine integers

    An unsigned integer is an [N] together with the bound of its width;
    [usize] is 64 bits wide on every target the runtime ships for. *)

Definition U64_MAX : N := 18446744073709551615.
Definition U32_MAX : N := 4294967295.
Definition USIZE_MAX : N := U64_MAX.
Definition I64_MAX : N := 9223372036854775807.

Definition sat_add (max a b : N) : N := N.min (a + b) max.
Definition sat_sub (a b : N) : N := a - b.
Definition checked_add (max a b : N) : option N :=
  if (a + b <=? max)%N then Some (a + b)%N else None.

(** [Duration] and [Instant] are nanosecond counts;
    [Instant::saturating_duration_since] is truncated subtraction. *)
Definition duration_since (later earlier : N) : N := (later - earlier)%N.
Definition NANOS_PER_SEC : N := 1000000000.
Definition as_secs (d : N) : N := (d / NANOS_PER_SEC)%N.

(** ** Strings

    A Rust [str] is its UTF-8 byte sequence, a [string] of bytes;
    [str::len] is the byte count. *)

Definition str_len (s : string) : N := N.of_nat (String.length s).
Definition is_empty (s : string) : bool := bool_decide (s = EmptyString).

(** [str::split(c)] for an ASCII separator: one segment more than
    separators, so never the empty list. *)
Fixpoint split_on (c : ascii) (s : string) : list string :=
  match s with
  | EmptyString => [EmptyString]
  | String a r =>
      if Ascii.eqb a c then EmptyString :: split_on c r
      else match split_on c r with
           | h :: t => String a h :: t
           | [] => [String a EmptyString]
           end
  end.

Fixpoint contains_char (c : ascii) (s : string) : bool :=
  match s with
  | EmptyString => false
  | String a r => Ascii.eqb a c || contains_char c r
  end.

Fixpoint contains_str (pat s : string) : bool :=
  String.prefix pat s ||
  match s with
  | EmptyString => false
  | String _ r => contains_str pat r
  end.

(** [str::rsplit_once]. *)
Fixpoint rsplit_once (c : ascii) (s : string) : option (string * string) :=
  match s with
  | EmptyString => None
  | String a r =>
      match rsplit_once c r with
      | Some (x, y) => Some (String a x, y)
      | None => if Ascii.eqb a c then Some (EmptyString, r) else None
      end
  end.

Fixpoint strip_prefix (pat s : string) : option string :=
  match pat, s with
  | EmptyString, _ => Some s
  | String a p, String b r => if Ascii.eqb a b then strip_prefix p r else None
  | String _ _, EmptyString => None
  end.

Fixpoint strip_suffix (pat s : string) : option string :=
  if bool_decide (s = pat) then Some EmptyString
  else match s with
       | EmptyString => None
       | String a r => String a <$> strip_suffix pat r
       end.

Fixpoint str_all (f : ascii -> bool) (s : string) : bool :=
  match s with
  | EmptyString => true
  | String a r => f a && str_all f r
  end.

Fixpoint str_map (f : ascii -> ascii) (s : string) : string :=
  match s with
  | EmptyString => EmptyString
  | String a r => String (f a) (str_map f r)
  end.

(** Scalar values of a UTF-8 string ([str::chars]).  A [str] is valid
    UTF-8; on bytes that are not, the decoder yields U+FFFD for a byte it
    cannot decode, as [String::from_utf8_lossy] does. *)
Definition is_cont (a : ascii) : bool :=
  let x := N_of_ascii a in ((128 <=? x) && (x <? 192))%N.
Definition cont (a : ascii) : N := N.land (N_of_ascii a) 63.
Definition REPLACEMENT_CHARACTER : N := 65533.

Fixpoint chars (s : string) : list N :=
  match s with
  | EmptyString => []
  | String a r =>
      let x := N_of_ascii a in
      if (x <? 128)%N then x :: chars r
      else match r with
      | EmptyString => [REPLACEMENT_CHARACTER]
      | String b r2 =>
          let v2 := (N.land x 31 * 64 + cont b)%N in
          if ((192 <=? x) && (x <? 224) && (128 <=? v2))%N && is_cont b
          then v2 :: chars r2
          else match r2 with
          | EmptyString => REPLACEMENT_CHARACTER :: chars r
          | String c r3 =>
              let v3 := (N.land x 15 * 4096 + cont b * 64 + cont c)%N in
              if ((224 <=? x) && (x <? 240) && (2048 <=? v3))%N && is_cont b && is_cont c
              then v3 :: chars r3
              else match r3 with
              | EmptyString => REPLACEMENT_CHARACTER :: chars r
              | String d r4 =>
                  let v4 := (N.land x 7 * 262144 + cont b * 4096 + cont c * 64 + cont d)%N in
                  if ((240 <=? x) && (x <? 248) && (65536 <=? v4))%N
                     && is_cont b && is_cont c && is_cont d
                  then v4 :: chars r4
                  else REPLACEMENT_CHARACTER :: chars r
              end
          end
      end
  end.

(** [std::str::from_utf8(..).is_ok()]: no overlong forms, no surrogates,
    nothing above U+10FFFF. *)
Fixpoint utf8_valid (s : string) : bool :=
  match s with
  | EmptyString => true
  | String a r =>
      let x := N_of_ascii a in
      if (x <? 128)%N then utf8_valid r
      else match r with
      | EmptyString => false
      | String b r2 =>
          if ((194 <=? x) && (x <? 224))%N then is_cont b && utf8_valid r2
          else match r2 with
          | EmptyString => false
          | String c r3 =>
              let v3 := (N.land x 15 * 4096 + cont b * 64 + cont c)%N in
              if ((224 <=? x) && (x <? 240))%N
              then is_cont b && is_cont c && (2048 <=? v3)%N
                   && negb ((55296 <=? v3) && (v3 <=? 57343))%N && utf8_valid r3
              else match r3 with
              | EmptyString => false
              | String d r4 =>
                  let v4 := (N.land x 7 * 262144 + cont b * 4096 + cont c * 64 + cont d)%N in
                  ((240 <=? x) && (x <? 248))%N && is_cont b && is_cont c && is_cont d
                  && ((65536 <=? v4) && (v4 <=? 1114111))%N && utf8_valid r4
              end
          end
      end
  end.

Fixpoint bytes (s : string) : list N :=
  match s with
  | EmptyString => []
  | String a r => N_of_ascii a :: bytes r
  end.

Definition encode_char (c : N) : string :=
  let byte n := ascii_of_N n in
  if (c <? 128)%N then String (byte c) EmptyString
  else if (c <? 2048)%N then
    String (byte (192 + c / 64)%N) (String (byte (128 + c mod 64)%N) EmptyString)
  else if (c <? 65536)%N then
    String (byte (224 + c / 4096)%N)
      (String (byte (128 + (c / 64) mod 64)%N)
         (String (byte (128 + c mod 64)%N) EmptyString))
  else
    String (byte (240 + c / 262144)%N)
      (String (byte (128 + (c / 4096) mod 64)%N)
         (String (byte (128 + (c / 64) mod 64)%N)
            (String (byte (128 + c mod 64)%N) EmptyString))).

Definition of_chars (cs : list N) : string :=
  List.fold_right (fun c s => String.append (encode_char c) s) EmptyString cs.

(** [char::is_whitespace]: Unicode White_Space. *)
Definition is_whitespace (c : N) : bool :=
  ((9 <=? c) && (c <=? 13))%N || (c =? 32)%N || (c =? 133)%N || (c =? 160)%N
  || (c =? 5760)%N || ((8192 <=? c) && (c <=? 8202))%N || (c =? 8232)%N
  || (c =? 8233)%N || (c =? 8239)%N || (c =? 8287)%N || (c =? 12288)%N.

Fixpoint skip_while (f : N -> bool) (l : list N) : list N :=
  match l with
  | [] => []
  | c :: r => if f c then skip_while f r else l
  end.

(** [str::trim]. *)
Definition trim (s : string) : string :=
  of_chars (reverse (skip_while is_whitespace
    (reverse (skip_while is_whitespace (chars s))))).

(** ASCII classes of [char]. *)
Definition is_ascii_lowercase (c : N) : bool := ((97 <=? c) && (c <=? 122))%N.
Definition is_ascii_uppercase (c : N) : bool := ((65 <=? c) && (c <=? 90))%N.
Definition is_ascii_digit (c : N) : bool := ((48 <=? c) && (c <=? 57))%N.
Definition is_ascii_alphanumeric (c : N) : bool :=
  is_ascii_lowercase c || is_ascii_uppercase c || is_ascii_digit c.
Definition is_ascii_hexdigit (c : N) : bool :=
  is_ascii_digit c || ((97 <=? c) && (c <=? 102))%N || ((65 <=? c) && (c <=? 70))%N.
Definition char_dash : N := 45.
Definition char_underscore : N := 95.

(** [str::to_ascii_lowercase]. *)
Definition to_ascii_lowercase (s : string) : string :=
  str_map (fun a =>
    let x := N_of_ascii a in
    if is_ascii_uppercase x then ascii_of_N (x + 32)%N else a) s.

(** ** Lemmas on results *)

Lemma rbind_Ok {A B E} (c : result A E) (k : A -> result B E) b :
  rbind c k = Ok b <-> exists a, c = Ok a /\ k a = Ok b.
Proof. destruct c; naive_solver. Qed.

Lemma map_err_Ok {A E F} (f : E -> F) (c : result A E) a :
  map_err f c = Ok a <-> c = Ok a.
Proof. destruct c; naive_solver. Qed.

Lemma rmap_Ok {A B E} (f : A -> B) (c : result A E) b :
  rmap f c = Ok b <-> exists a, c = Ok a /\ b = f a.
Proof. destruct c; naive_solver. Qed.

Lemma is_ok_true {A E} (c : result A E) : is_ok c = true <-> exists a, c = Ok a.
Proof. destruct c; naive_solver. Qed.

Lemma ok_or_Ok {A E} (o : option A) (e : E) a : ok_or o e = Ok a <-> o = Some a.
Proof. destruct o; naive_solver. Qed.

Lemma try_map_Ok {A B E} (f : A -> result B E) l r :
  try_map f l = Ok r <-> Forall2 (fun x y => f x = Ok y) l r.
Proof.
  revert r; induction l as [|x l IH]; intros r; simpl.
  - split; intros H.
    + by simplify_eq.
    + inversion H; by subst.
  - rewrite rbind_Ok. split.
    + intros (y & Hy & (ys & Hys & [= <-])%rbind_Ok). constructor; [done|]. by apply IH.
    + inversion 1; simplify_eq. eexists; split; [done|].
      apply rbind_Ok. eexists; split; [by apply IH|done].
Qed.

Lemma try_for_Ok {A E} (f : A -> result unit E) l :
  try_for f l = Ok tt <-> Forall (fun x => f x = Ok tt) l.
Proof.
  induction l as [|x l IH]; simpl.
  - naive_solver.
  - rewrite rbind_Ok, Forall_cons, <- IH. split.
    + intros ([] & ? & ?); done.
    + intros [? ?]; by exists tt.
Qed.

Lemma try_for_iff {A E} (f : A -> result unit E) (P : A -> Prop) l :
  (forall x, f x = Ok tt <-> P x) -> try_for f l = Ok tt <-> Forall P l.
Proof. intros H. rewrite try_for_Ok. by apply Forall_iff. Qed.

Lemma try_map_iff {A B E} (f : A -> result B E) (P : A -> Prop) l :
  (forall x, (exists y, f x = Ok y) <-> P x) ->
  (exists r, try_map f l = Ok r) <-> Forall P l.
Proof.
  intros H. induction l as [|x l IH]; simpl; [split; eauto|].
  rewrite Forall_cons, <- H, <- IH. split.
  - intros (r & (y & Hy & (ys & Hys & _)%rbind_Ok)%rbind_Ok). eauto.
  - intros [[y Hy] [ys Hys]]. rewrite Hy. simpl. rewrite Hys. simpl. eauto.
Qed.

Lemma eff_bind_run {S E A B} (c : eff S E A) (k : A -> eff S E B) s s' a :
  c s = (s', Ok a) -> eff_bind c k s = k a s'.
Proof. unfold eff_bind. by intros ->. Qed.

Lemma eff_bind_Ok {S E A B} (c : eff S E A) (k : A -> eff S E B) s s' b :
  eff_bind c k s = (s', Ok b) <-> exists s1 a, c s = (s1, Ok a) /\ k a s1 = (s', Ok b).
Proof. unfold eff_bind. destruct (c s) as [s1 [a|e]]; naive_solver. Qed.

Lemma eff_bind_Err {S E A B} (c : eff S E A) (k : A -> eff S E B) s s' e :
  eff_bind c k s = (s', Err e) <->
  c s = (s', Err e) \/ exists s1 a, c s = (s1, Ok a) /\ k a s1 = (s', Err e).
Proof. unfold eff_bind. destruct (c s) as [s1 [a|e1]]; naive_solver. Qed.

(** [inv_ok] takes an [... = Ok _] hypothesis apart along the [?]s and
    the early returns of the code it comes from. *)
Ltac inv_ok_step :=
  match goal with
  | H : rbind _ _ = Ok _ |- _ => apply rbind_Ok in H; destruct H as (? & ? & H)
  | H : map_err _ _ = Ok _ |- _ => apply map_err_Ok in H
  | H : ok_or _ _ = Ok _ |- _ => apply ok_or_Ok in H
  | H : rmap _ _ = Ok _ |- _ => apply rmap_Ok in H; destruct H as (? & ? & ?)
  | H : (if ?b then Err _ else _) = Ok _ |- _ => destruct b eqn:?; [discriminate H|]
  | H : (if ?b then _ else Err _) = Ok _ |- _ => destruct b eqn:?; [|discriminate H]
  | H : Ok _ = Ok _ |- _ => injection H; clear H; intros; subst
  | H : Err _ = Ok _ |- _ => discriminate H
  | x : unit |- _ => destruct x
  end.
Ltac inv_ok := repeat inv_ok_step.

(** [bool_prop] turns boolean guards of the code into propositions. *)
Ltac bool_prop :=
  repeat match goal with
  | H : _ && _ = true |- _ => apply andb_true_iff in H; destruct H
  | H : _ || _ = false |- _ => apply orb_false_iff in H; destruct H
  | H : negb _ = true |- _ => apply negb_true_iff in H
  | H : negb _ = false |- _ => apply negb_false_iff in H
  | H : bool_decide _ = true |- _ => apply bool_decide_eq_true in H
  | H : bool_decide _ = false |- _ => apply bool_decide_eq_false in H
  | H : (_ <? _)%N = true |- _ => apply N.ltb_lt in H
  | H : (_ <? _)%N = false |- _ => apply N.ltb_ge in H
  | H : (_ <=? _)%N = true |- _ => apply N.leb_le in H
  | H : (_ <=? _)%N = false |- _ => apply N.leb_gt in H
  | H : (_ =? _)%N = true |- _ => apply N.eqb_eq in H
  | H : (_ =? _)%N = false |- _ => apply N.eqb_neq in H
  end.

(** ** Lemmas on saturating arithmetic *)

Create HintDb astrid.

Lemma sat_add_le_max max a b : (sat_add max a b <= max)%N.
Proof. unfold sat_add; lia. Qed.

Lemma sat_add_exact max a b : (a + b <= max)%N -> sat_add max a b = (a + b)%N.
Proof. unfold sat_add; lia. Qed.

Lemma sat_add_ge_l max a b : (a <= max)%N -> (a <= sat_add max a b)%N.
Proof. unfold sat_add; lia. Qed.

Lemma checked_add_Some max a b c :
  checked_add max a b = Some c <-> c = (a + b)%N /\ (a + b <= max)%N.
Proof.
  unfold checked_add. destruct (N.leb_spec (a + b) max); split.
  - naive_solver.
  - intros [-> _]; done.
  - done.
  - lia.
Qed.

Lemma checked_add_None max a b : checked_add max a b = None <-> (max < a + b)%N.
Proof. unfold checked_add. destruct (N.leb_spec (a + b) max); naive_solver lia. Qed.

#[export] Hint Resolve sat_add_le_max sat_add_ge_l : astrid.

(** ** Lemmas on strings *)

Lemma split_on_not_nil c s : split_on c s <> [].
Proof.
  destruct s; simpl; [done|]. destruct (Ascii.eqb _ _); [done|]. by destruct (split_on c s).
Qed.

Lemma is_empty_true s : is_empty s = true <-> s = EmptyString.
Proof. unfold is_empty. by rewrite bool_decide_eq_true. Qed.

Lemma is_empty_false s : is_empty s = false <-> s <> EmptyString.
Proof. unfold is_empty. by rewrite bool_decide_eq_false. Qed.

Lemma length_string_app s t :
  String.length (String.append s t) = String.length s + String.length t.
Proof. induction s as [|a s IH]; simpl; [done|]. by rewrite IH. Qed.

Lemma strip_suffix_Some pat s r :
  strip_suffix pat s = Some r <-> s = String.append r pat.
Proof.
  revert r; induction s as [|a s IH]; intros r; simpl; case_bool_decide as Heq; subst.
  - split; [by intros [= <-]|]. destruct r; [done|]; discriminate.
  - split; [done|]. destruct r; simpl; [naive_solver|discriminate].
  - split; [by intros [= <-]|]. intros Hr. f_equal. apply (f_equal String.length) in Hr.
    revert Hr. rewrite length_string_app. simpl. destruct r; simpl; [done|lia].
  - rewrite fmap_Some. setoid_rewrite IH. split.
    + intros (x & -> & ->); done.
    + destruct r as [|b r]; simpl; [naive_solver|]. intros [= -> ->]; eauto.
Qed.

(** A string whose scalar values are all ASCII is its own decoding. *)
Lemma chars_ascii s : Forall (fun c => (c < 128)%N) (chars s) -> chars s = bytes s.
Proof.
  induction s as [|a r IH]; [done|]. cbn -[N.land N.mul].
  destruct (N.ltb_spec (N_of_ascii a) 128) as [Hlt|Hge].
  - rewrite Forall_cons. intros [_ H]. by rewrite IH.
  - intros H. exfalso. revert H. unfold REPLACEMENT_CHARACTER.
    repeat case_match; rewrite Forall_cons; intros [Hc _]; bool_prop; lia.
Qed.

Lemma str_all_avoids (f : ascii -> bool) c s :
  str_all f s = true -> f c = false -> contains_char c s = false.
Proof.
  intros Hs Hc. induction s as [|a s IH]; [done|]. simpl in *. apply andb_true_iff in Hs as [Ha Hs].
  rewrite IH by done. rewrite orb_false_r. destruct (Ascii.eqb_spec a c); congruence.
Qed.

Lemma contains_char_app c a b :
  contains_char c (String.append a b) = contains_char c a || contains_char c b.
Proof. induction a as [|x a IH]; simpl; [done|]. by rewrite IH, orb_assoc. Qed.

Lemma rsplit_once_None c s : contains_char c s = false -> rsplit_once c s = None.
Proof. induction s as [|a s IH]; [done|]. simpl. intros [-> Hs]%orb_false_iff. by rewrite IH. Qed.

Lemma rsplit_once_app c x y : contains_char c y = false -> rsplit_once c (String.append x (String c y)) = Some (x, y).
Proof.
  intros Hy. induction x as [|a x IH]; simpl; [|by rewrite IH].
  rewrite rsplit_once_None by done. by rewrite Ascii.eqb_refl.
Qed.

Lemma contains_char_bytes c s : contains_char c s = true <-> N_of_ascii c ∈ bytes s.
Proof.
  induction s as [|a r IH]; simpl; [set_solver|].
  rewrite orb_true_iff, IH, elem_of_cons, Ascii.eqb_eq. split.
  - intros [->|?]; auto.
  - intros [Heq|?]; [left|by right].
    by rewrite <- (ascii_N_embedding a), <- Heq, ascii_N_embedding.
Qed.

(** [Vec::contains] and [slice::contains]. *)
Definition contains {A} `{EqDecision A} (x : A) (l : list A) : bool := bool_decide (x ∈ l).

Lemma contains_spec {A} `{EqDecision A} (x : A) l : contains x l = true <-> x ∈ l.
Proof. unfold contains. by rewrite bool_decide_eq_true. Qed.

(** ** [Iterator::any] *)

Lemma existsb_false {A} (f : A -> bool) l :
  existsb f l = false <-> Forall (fun x => f x = false) l.
Proof.
  induction l as [|x l IH]; simpl; [by split|].
  by rewrite orb_false_iff, IH, Forall_cons.
Qed.

Lemma existsb_true {A} (f : A -> bool) l : existsb f l = true <-> exists x, x ∈ l /\ f x = true.
Proof.
  rewrite existsb_exists. by setoid_rewrite list_elem_of_In.
Qed.
