(* ===== verification/CapabilityGrammar.v ===== *)
(** * Capability strings

    The colon-delimited capability namespace of
    [crates/astrid-core/src/capability_grammar.rs]: the validator
    [validate_capability] and the matcher [capability_matches], with the
    grammar and the matching rules the module documents as declarative
    specifications.  Matching is shown to be a preorder, which is what
    makes a pattern usable as a stand-in for the capabilities it covers. *)

From S2P Require Import Prelude.
From Stdlib Require Import Ascii.
Local Open Scope string_scope.
Local Open Scope list_scope.

Definition MAX_CAPABILITY_LEN : N := 256.

Definition CAP_RESOURCES_UNBOUNDED : string := "system:resources:unbounded".
Definition CAP_NET_BIND : string := "net_bind".
Definition CAP_UPLINK : string := "uplink".
Definition EXEMPT_CAPABILITIES : list string :=
  [CAP_RESOURCES_UNBOUNDED; CAP_NET_BIND; CAP_UPLINK].

Inductive CapabilityGrammarError : Type :=
| GrammarEmpty
| GrammarTooLong
| GrammarDoubleStar
| GrammarEmptySegment
| GrammarInvalidCharacter (segment : string) (bad : N)
| GrammarPartialStar (segment : string).

#[export] Instance CapabilityGrammarError_eq_dec : EqDecision CapabilityGrammarError.
Proof. solve_decision. Defined.

(** The character class of a literal segment, negated in the code:
    [!c.is_ascii_alphanumeric() && *c != '-' && *c != '_']. *)
Definition bad_identifier_char (c : N) : bool :=
  negb (is_ascii_alphanumeric c) && negb (c =? char_dash)%N && negb (c =? char_underscore)%N.

(** Body of the [for segment in cap.split(':')] loop. *)
Definition validate_segment (segment : string) : result unit CapabilityGrammarError :=
  if is_empty segment then Err GrammarEmptySegment
  else if bool_decide (segment = "*") then Ok tt
  else if contains_char "*" segment then Err (GrammarPartialStar segment)
  else match List.find bad_identifier_char (chars segment) with
       | Some bad => Err (GrammarInvalidCharacter segment bad)
       | None => Ok tt
       end.

Definition validate_capability (cap : string) : result unit CapabilityGrammarError :=
  if is_empty cap then Err GrammarEmpty
  else if (MAX_CAPABILITY_LEN <? str_len cap)%N then Err GrammarTooLong
  else if contains_str "**" cap then Err GrammarDoubleStar
  else try_for validate_segment (split_on ":" cap).

(** The [loop] of [capability_matches] over the two segment iterators;
    [pat_iter.peek().is_none()] is the inner match. *)
Fixpoint match_segments (pat cap : list string) : bool :=
  match pat, cap with
  | p :: pat', c :: cap' =>
      if bool_decide (p = "*") then
        match pat' with
        | [] => true
        | _ :: _ => match_segments pat' cap'
        end
      else if bool_decide (p = c) then match_segments pat' cap' else false
  | [], [] => true
  | _ :: _, [] | [], _ :: _ => false
  end.

Definition capability_matches (pattern cap : string) : bool :=
  if bool_decide (pattern = "*") then true
  else match_segments (split_on ":" pattern) (split_on ":" cap).

(** ** Specifications *)

(** [segment := '*' | [a-zA-Z0-9_-]+]. *)
Definition identifier_char (c : N) : Prop :=
  is_ascii_alphanumeric c = true \/ c = char_dash \/ c = char_underscore.

Definition grammar_segment (s : string) : Prop :=
  s = "*" \/ (s <> "" /\ Forall identifier_char (chars s)).

(** [capability := segment (':' segment)*], at most 256 bytes. *)
Definition grammar (cap : string) : Prop :=
  (str_len cap <= MAX_CAPABILITY_LEN)%N /\ Forall grammar_segment (split_on ":" cap).

(** The documented matching rules on segment lists: a [*] that is not the
    last segment stands for exactly one segment, a last [*] for one or
    more, and any other segment for itself. *)
Definition segment_covers (p c : string) : Prop := p = "*" \/ p = c.

Definition matching_rules (pat cap : list string) : Prop :=
  Forall2 segment_covers pat cap \/
  exists init head rest,
    pat = init ++ ["*"] /\ cap = head ++ rest /\ rest <> [] /\
    Forall2 segment_covers init head.

(** ** Lemmas *)

Lemma bad_identifier_char_false c : bad_identifier_char c = false <-> identifier_char c.
Proof.
  unfold bad_identifier_char, identifier_char.
  rewrite !andb_false_iff, !negb_false_iff, !N.eqb_eq. tauto.
Qed.

Lemma identifier_char_ascii c : identifier_char c -> (c < 128)%N.
Proof.
  unfold identifier_char, is_ascii_alphanumeric, is_ascii_lowercase, is_ascii_uppercase,
    is_ascii_digit, char_dash, char_underscore.
  rewrite !orb_true_iff, !andb_true_iff, !N.leb_le. lia.
Qed.

Lemma find_None_Forall {A} (f : A -> bool) l :
  List.find f l = None <-> Forall (fun x => f x = false) l.
Proof.
  induction l as [|x l IH]; simpl; [by split|].
  rewrite Forall_cons. destruct (f x); naive_solver.
Qed.

Lemma find_bad_None s :
  List.find bad_identifier_char (chars s) = None <-> Forall identifier_char (chars s).
Proof.
  rewrite find_None_Forall. apply Forall_iff, bad_identifier_char_false.
Qed.

Lemma identifier_no_star s : Forall identifier_char (chars s) -> contains_char "*" s = false.
Proof.
  intros H. apply not_true_iff_false. rewrite contains_char_bytes.
  rewrite <- chars_ascii by (eapply Forall_impl; [done|]; apply identifier_char_ascii).
  intros Hin. rewrite Forall_forall in H. specialize (H _ Hin). vm_compute in H.
  naive_solver.
Qed.

Lemma validate_segment_Ok s : validate_segment s = Ok tt <-> grammar_segment s.
Proof.
  unfold validate_segment, grammar_segment. split.
  - intros H. inv_ok. case_bool_decide; [by left|]. right. inv_ok.
    split; [by apply is_empty_false|].
    apply find_bad_None. by destruct (List.find _ _).
  - intros [->|[Hne H]]; [done|].
    rewrite (proj2 (is_empty_false s) Hne). case_bool_decide; [done|].
    rewrite identifier_no_star by done. by rewrite (proj2 (find_bad_None s) H).
Qed.

(** A pattern without the separator that occurs in a string occurs in one
    of its segments. *)
Lemma prefix_split c pat s :
  contains_char c pat = false -> String.prefix pat s = true ->
  exists h t, split_on c s = h :: t /\ String.prefix pat h = true.
Proof.
  revert s; induction pat as [|p pat IH]; intros s Hc Hpre.
  - destruct (split_on c s) as [|h t] eqn:Hs; [by apply split_on_not_nil in Hs|].
    exists h, t. by destruct h.
  - destruct s as [|a r]; [done|]. simpl in Hc, Hpre |- *.
    destruct (ascii_dec p a) as [<-|]; [|done]. apply orb_false_iff in Hc as [-> Hc].
    destruct (IH r Hc Hpre) as (h & t & -> & Hp). do 2 eexists; split; [done|].
    simpl. by destruct (ascii_dec p p).
Qed.

Lemma contains_str_prefix pat s : String.prefix pat s = true -> contains_str pat s = true.
Proof. intros H. destruct s; cbn [contains_str]; by rewrite H. Qed.

Lemma contains_str_split c pat s :
  contains_char c pat = false -> contains_str pat s = true ->
  Exists (fun seg => contains_str pat seg = true) (split_on c s).
Proof.
  intros Hc. induction s as [|a r IH].
  - intros H. by constructor.
  - cbn [contains_str]. rewrite orb_true_iff. intros [Hpre|Hr].
    + destruct (prefix_split c pat _ Hc Hpre) as (h & t & -> & Hp).
      constructor. by apply contains_str_prefix.
    + specialize (IH Hr). simpl. destruct (Ascii.eqb a c); [by constructor 2|].
      inversion IH; subst; [constructor|by constructor 2].
      simpl. by apply orb_true_iff; right.
Qed.

Lemma contains_double_star_char s : contains_str "**" s = true -> contains_char "*" s = true.
Proof.
  induction s as [|a r IH]; [done|]. cbn [contains_str contains_char String.prefix].
  destruct (ascii_dec "*" a) as [<-|]; [done|]. intros H. by rewrite IH, orb_true_r.
Qed.

Lemma grammar_no_double_star cap :
  Forall grammar_segment (split_on ":" cap) -> contains_str "**" cap = false.
Proof.
  intros H. apply not_true_iff_false. intros Hc.
  apply (contains_str_split ":") in Hc; [|done].
  apply Exists_exists in Hc as (seg & Hin & Hseg).
  rewrite Forall_forall in H. destruct (H seg Hin) as [->|[_ Hid]]; [done|].
  apply contains_double_star_char in Hseg. by rewrite identifier_no_star in Hseg.
Qed.

Lemma grammar_not_empty cap : Forall grammar_segment (split_on ":" cap) -> is_empty cap = false.
Proof.
  intros H. apply is_empty_false. intros ->. inversion H as [|? ? [?|[? _]] _]; done.
Qed.

Lemma match_segments_spec pat cap :
  match_segments pat cap = true <-> matching_rules pat cap.
Proof.
  unfold matching_rules. revert cap; induction pat as [|p pat IH]; intros [|c cap]; simpl.
  - split; [by left|done].
  - split; [done|]. intros [H|(init & ? & ? & H & _)]; [inversion H|by destruct init].
  - split; [done|]. intros [H|(init & h & r & _ & H & Hr & _)]; [inversion H|].
    by destruct h, r.
  - assert (Hrest : segment_covers p c ->
      match_segments pat cap = true <->
      Forall2 segment_covers (p :: pat) (c :: cap) \/
      exists init h r, p :: pat = init ++ ["*"] /\ c :: cap = h ++ r /\ r <> [] /\
        init <> [] /\ Forall2 segment_covers init h).
    { intros Hpc. rewrite IH. split.
      - intros [H|(init & h & r & -> & -> & Hr & H)]; [left; by constructor|].
        right. exists (p :: init), (c :: h), r. split_and!; try done. by constructor.
      - intros [H|(init & h & r & Hp & Hc & Hr & Hi & H)]; [left; by inversion H|].
        right. destruct init as [|? init]; [done|]. inversion H; subst.
        injection Hp as ->; injection Hc as ->; subst. naive_solver. }
    case_bool_decide as Hp; subst.
    + destruct pat as [|p' pat'].
      * split; [intros _|done]. right. exists [], [], (c :: cap). naive_solver.
      * rewrite Hrest by (by left). split; [naive_solver|].
        intros [H|(init & h & r & Hi & ? & ? & ?)]; [by left|].
        right. exists init, h, r. split_and!; try done. by destruct init.
    + case_bool_decide as Hc; subst.
      * rewrite Hrest by (by right). split; [naive_solver|].
        intros [H|(init & h & r & Hi & ? & ? & ?)]; [by left|].
        right. exists init, h, r. split_and!; try done. destruct init; naive_solver.
      * split; [done|]. intros [H|(init & h & r & Hi & Hh & Hr & H)].
        -- inversion H as [|? ? ? ? [?|?]]; done.
        -- destruct init; [naive_solver|]. inversion H as [|? ? ? ? [?|?]]; naive_solver.
Qed.

Lemma match_segments_star cap : cap <> [] -> match_segments ["*"] cap = true.
Proof. by destruct cap. Qed.

Lemma capability_matches_segments pattern cap :
  capability_matches pattern cap = match_segments (split_on ":" pattern) (split_on ":" cap).
Proof.
  unfold capability_matches. case_bool_decide; [|done]. subst. symmetry.
  apply match_segments_star, split_on_not_nil.
Qed.

Lemma match_segments_refl l : match_segments l l = true.
Proof.
  induction l as [|s l IH]; simpl; [done|]. repeat case_bool_decide; [by destruct l|done..].
Qed.

Lemma match_segments_trans p q c :
  match_segments p q = true -> match_segments q c = true -> match_segments p c = true.
Proof.
  revert q c; induction p as [|s p IH]; intros [|t q] [|u c]; simpl; try done.
  case_bool_decide as Hs.
  - destruct p as [|s' p]; [done|]. intros Hp. case_bool_decide.
    + destruct q; [done|]. eauto.
    + case_bool_decide; [eauto|done].
  - case_bool_decide as Ht; [subst t|done]. intros Hp. case_bool_decide; [done|].
    case_bool_decide; [eauto|done].
Qed.

#[export] Instance capability_matches_preorder :
  PreOrder (fun p c => capability_matches p c = true).
Proof.
  split.
  - intros p. rewrite capability_matches_segments. apply match_segments_refl.
  - intros p q c. rewrite !capability_matches_segments. apply match_segments_trans.
Qed.

Lemma capability_matches_trans p q c :
  capability_matches p q = true -> capability_matches q c = true ->
  capability_matches p c = true.
Proof. apply (transitivity (R := fun p c => capability_matches p c = true)). Qed.

Lemma try_for_segments segs :
  try_for validate_segment segs = Ok tt <-> Forall grammar_segment segs.
Proof. rewrite try_for_Ok. apply Forall_iff, validate_segment_Ok. Qed.

Lemma validate_capability_Ok cap : validate_capability cap = Ok tt <-> grammar cap.
Proof.
  unfold validate_capability, grammar. split.
  - intros H. inv_ok. bool_prop. split; [lia|].
    by apply try_for_segments.
  - intros [Hlen H]. rewrite (grammar_not_empty cap) by done.
    destruct (N.ltb_spec MAX_CAPABILITY_LEN (str_len cap)); [lia|].
    rewrite grammar_no_double_star by done.
    by apply try_for_segments.
Qed.

#[export] Instance grammar_dec cap : Decision (grammar cap).
Proof.
  refine (cast_if (decide (is_ok (validate_capability cap) = true)));
    rewrite <- validate_capability_Ok; destruct (validate_capability cap) as [[]|] ; naive_solver.
Defined.

(** ** Properties *)

(** [validate_capability] accepts exactly the documented grammar: at
    most 256 bytes, and every [:]-separated segment is either the literal
    [*] or a non-empty run of [a-zA-Z0-9_-]; the explicit checks for the
    empty string and for [**] reject nothing the grammar admits. *)
Theorem validate_capability_grammar : forall cap,
  validate_capability cap = Ok tt <-> grammar cap.
Proof. exact validate_capability_Ok. Qed.

(** C33: [capability_matches] implements the documented matching rules: a
    trailing [*] segment absorbs one or more remaining segments, a [*]
    elsewhere exactly one, and otherwise the segments agree one by one. *)
Theorem capability_matches_rules : forall pattern cap,
  capability_matches pattern cap = true <->
  matching_rules (split_on ":" pattern) (split_on ":" cap).
Proof. intros. by rewrite capability_matches_segments, match_segments_spec. Qed.

(** matching a pattern against another pattern decides subsumption: [q]
    matches the string [p] exactly when [q] matches every capability that
    [p] matches.  This is what lets the issuer check treat a requested
    pattern as if it were a capability. *)
Theorem pattern_subsumption : forall q p,
  capability_matches q p = true <->
  (forall c, capability_matches p c = true -> capability_matches q c = true).
Proof.
  intros q p. split.
  - intros H c. by apply capability_matches_trans.
  - intros H. apply H. apply (reflexivity (R := fun p c => capability_matches p c = true)).
Qed.
