(* ===== verification/Profile.v ===== *)
(** * Principal profiles

    [crates/astrid-core/src/principal.rs] and
    [crates/astrid-core/src/profile/]: principal identifiers, the per-principal
    policy record, its newtype-validated view ([field.rs]), device keys and
    device scopes ([device.rs]) and semantic validation ([validation.rs]).

    BLAKE3 and hex encoding are third-party crates: they are the operations
    of the class [Hashing], and the two facts the code relies on are the
    class [HashingLaws]. *)

From S2P Require Import Prelude CapabilityGrammar.
From Stdlib Require Import Ascii.
Local Open Scope string_scope.
Local Open Scope list_scope.

(** ** Principal identifiers ([principal.rs]) *)

Record PrincipalId : Type := MkPrincipalId { pid_str : string }.

#[export] Instance PrincipalId_eq_dec : EqDecision PrincipalId.
Proof. solve_decision. Defined.
#[export] Program Instance PrincipalId_countable : Countable PrincipalId :=
  inj_countable' pid_str MkPrincipalId _.
Next Obligation. by intros []. Qed.

Inductive PrincipalIdError : Type :=
| PidEmpty
| PidTooLong
| PidInvalidChar (ch : N).

Definition PrincipalId_new (id : string) : result PrincipalId PrincipalIdError :=
  if is_empty id then Err PidEmpty
  else if (64 <? str_len id)%N then Err PidTooLong
  else match List.find bad_identifier_char (chars id) with
       | Some ch => Err (PidInvalidChar ch)
       | None => Ok (MkPrincipalId id)
       end.

Definition PrincipalId_default : PrincipalId := MkPrincipalId "default".
Definition PrincipalId_anonymous : PrincipalId := MkPrincipalId "anonymous".

Definition reserved_reason (p : PrincipalId) : option string :=
  if bool_decide (pid_str p = "default") then Some "reserved for single-tenant bootstrap"
  else if bool_decide (pid_str p = "anonymous")
  then Some "reserved (the unauthenticated no-capability identity)"
  else None.

(** ** Limits ([profile/mod.rs]) *)

Definition CURRENT_PROFILE_VERSION : N := 1.
Definition DEFAULT_MAX_MEMORY_BYTES : N := 64 * 1024 * 1024.
Definition DEFAULT_MAX_TIMEOUT_SECS : N := 300.
Definition DEFAULT_MAX_IPC_THROUGHPUT_BYTES : N := 10 * 1024 * 1024.
Definition DEFAULT_MAX_BACKGROUND_PROCESSES : N := 8.
Definition DEFAULT_MAX_IN_FLIGHT_CALLS : N := 4.
Definition DEFAULT_MAX_STORAGE_BYTES : N := I64_MAX.
Definition DEFAULT_MAX_CPU_FUEL_PER_SEC : N := 2000000000.
Definition TIMEOUT_SECS_UPPER_BOUND : N := 86400.
Definition BACKGROUND_PROCESSES_UPPER_BOUND : N := 256.
Definition IN_FLIGHT_CALLS_UPPER_BOUND : N := 64.
Definition MAX_GROUP_NAME_LEN : N := 64.
Definition MAX_CAPSULE_GRANT_LEN : N := 128.

(** ** Device scopes and keys ([profile/device.rs]) *)

Inductive DeviceScope : Type :=
| ScopeFull
| ScopeScoped (allow deny : list string).

#[export] Instance DeviceScope_eq_dec : EqDecision DeviceScope.
Proof. solve_decision. Defined.

Definition DeviceScope_preset (name : string) : option DeviceScope :=
  if bool_decide (name = "full") then Some ScopeFull
  else if bool_decide (name = "use-only") then
    Some (ScopeScoped ["self:*"] ["self:auth:pair"; "self:auth:pair:admin"; "delegate:self:*"])
  else None.

Record DeviceKey : Type := MkDeviceKey {
  dk_key_id : string;
  dk_pubkey : string;
  dk_scope : DeviceScope;
  dk_label : option string;
  dk_created_at : Z;
}.

#[export] Instance DeviceKey_eq_dec : EqDecision DeviceKey.
Proof. solve_decision. Defined.

Definition DEVICE_KEY_ID_HEX_LEN : N := 16.
Definition ED25519_PUBKEY_HEX_LEN : N := 64.

(** Reasons of the [Result<_, String>] shape checks. *)
Inductive HexShapeError : Type :=
| HexWrongLength (got : N)
| HexNonHex
| HexNotLowercase.

#[export] Instance HexShapeError_eq_dec : EqDecision HexShapeError.
Proof. solve_decision. Defined.

Definition validate_pubkey_hex (candidate : string) : result unit HexShapeError :=
  if negb (str_len candidate =? ED25519_PUBKEY_HEX_LEN)%N then Err (HexWrongLength (str_len candidate))
  else if negb (forallb is_ascii_hexdigit (chars candidate)) then Err HexNonHex
  else if existsb is_ascii_uppercase (chars candidate) then Err HexNotLowercase
  else Ok tt.

Definition validate_device_key_id (id : string) : result unit HexShapeError :=
  if negb (str_len id =? DEVICE_KEY_ID_HEX_LEN)%N then Err (HexWrongLength (str_len id))
  else if negb (forallb is_ascii_hexdigit (chars id)) then Err HexNonHex
  else if existsb is_ascii_uppercase (chars id) then Err HexNotLowercase
  else Ok tt.

Record DeviceKeyId : Type := MkDeviceKeyId { dkid_str : string }.
Record DevicePubkey : Type := MkDevicePubkey { dpk_str : string }.

Definition DeviceKeyId_new (id : string) : result DeviceKeyId HexShapeError :=
  let? _ := validate_device_key_id id in Ok (MkDeviceKeyId id).

Definition DevicePubkey_from_canonical (pubkey : string) : result DevicePubkey HexShapeError :=
  let? _ := validate_pubkey_hex pubkey in Ok (MkDevicePubkey pubkey).

Definition DevicePubkey_normalize (raw : string) : result DevicePubkey HexShapeError :=
  let trimmed := trim raw in
  let candidate := to_ascii_lowercase (default trimmed (strip_prefix "ed25519:" trimmed)) in
  let? _ := validate_pubkey_hex candidate in
  Ok (MkDevicePubkey candidate).

(** BLAKE3 digests and the [hex] crate. *)
Class Hashing : Type := {
  blake3_hash : string -> list N;
  hex_encode : list N -> string;
}.

Definition hex_lower_char (c : N) : Prop :=
  is_ascii_hexdigit c = true /\ is_ascii_uppercase c = false.

Class HashingLaws `{Hashing} : Prop := {
  blake3_hash_length s : length (blake3_hash s) = 32%nat;
  hex_encode_length l : str_len (hex_encode l) = (2 * N.of_nat (length l))%N;
  hex_encode_lower l : Forall hex_lower_char (chars (hex_encode l));
}.

Section DeviceKeys.
Context `{Hashing}.

Definition device_key_id_for_pubkey_hex (pubkey_hex : string) : DeviceKeyId :=
  MkDeviceKeyId
    (hex_encode (take (N.to_nat (DEVICE_KEY_ID_HEX_LEN / 2)) (blake3_hash pubkey_hex))).

Definition device_key_id_fingerprint (pubkey_hex : string) : string :=
  dkid_str (device_key_id_for_pubkey_hex pubkey_hex).

Definition DeviceKeyId_for_pubkey (pubkey : DevicePubkey) : DeviceKeyId :=
  MkDeviceKeyId (device_key_id_fingerprint (dpk_str pubkey)).

Definition DeviceKey_new (pubkey_hex : string) (scope : DeviceScope)
    (label : option string) (created_at : Z) : DeviceKey :=
  let pubkey := MkDevicePubkey pubkey_hex in
  let key_id := dkid_str (DeviceKeyId_for_pubkey pubkey) in
  MkDeviceKey key_id (dpk_str pubkey) scope label created_at.

(** The two on-disk shapes of a device key, after serde has read them. *)
Record DeviceKeyData : Type := MkDeviceKeyData {
  dkd_key_id : string;
  dkd_pubkey : string;
  dkd_scope : DeviceScope;
  dkd_label : option string;
  dkd_created_at : Z;
}.

Inductive DeviceKeyRepr : Type :=
| ReprBare (s : string)
| ReprFull (d : DeviceKeyData).

Definition DeviceKey_deserialize (repr : DeviceKeyRepr) : result DeviceKey HexShapeError :=
  match repr with
  | ReprBare s =>
      let? hex := rmap dpk_str (DevicePubkey_normalize s) in
      Ok (DeviceKey_new hex ScopeFull None 0)
  | ReprFull d =>
      let? hex := rmap dpk_str (DevicePubkey_normalize (dkd_pubkey d)) in
      Ok (MkDeviceKey (device_key_id_fingerprint hex) hex
            (dkd_scope d) (dkd_label d) (dkd_created_at d))
  end.

(** The derived [Serialize] of [DeviceKey] always writes the struct form. *)
Definition DeviceKey_serialize (k : DeviceKey) : DeviceKeyRepr :=
  ReprFull (MkDeviceKeyData (dk_key_id k) (dk_pubkey k) (dk_scope k) (dk_label k) (dk_created_at k)).

End DeviceKeys.

Definition typed_key_id (k : DeviceKey) : result DeviceKeyId HexShapeError :=
  DeviceKeyId_new (dk_key_id k).
Definition typed_pubkey (k : DeviceKey) : result DevicePubkey HexShapeError :=
  DevicePubkey_from_canonical (dk_pubkey k).
Definition matches_pubkey (k : DeviceKey) (hex_lower : string) : bool :=
  bool_decide (dk_pubkey k = hex_lower).

(** ** The profile record ([profile/mod.rs]) *)

Inductive AuthMethod : Type := Keypair | Passkey | AuthSystem.

#[export] Instance AuthMethod_eq_dec : EqDecision AuthMethod.
Proof. solve_decision. Defined.

Record AuthConfig : Type := MkAuthConfig {
  auth_methods : list AuthMethod;
  auth_public_keys : list DeviceKey;
}.

Definition device_by_typed_key_id (auth : AuthConfig) (key_id : DeviceKeyId) : option DeviceKey :=
  List.find (fun k => bool_decide (dk_key_id k = dkid_str key_id)) (auth_public_keys auth).

Definition device_by_key_id (auth : AuthConfig) (key_id : string) : option DeviceKey :=
  match res_ok (DeviceKeyId_new key_id) with
  | Some id => device_by_typed_key_id auth id
  | None => None
  end.

Definition device_by_typed_pubkey (auth : AuthConfig) (pubkey : DevicePubkey) : option DeviceKey :=
  List.find (fun k => matches_pubkey k (dpk_str pubkey)) (auth_public_keys auth).

Definition device_by_pubkey (auth : AuthConfig) (hex_lower : string) : option DeviceKey :=
  match res_ok (DevicePubkey_from_canonical hex_lower) with
  | Some pk => device_by_typed_pubkey auth pk
  | None => None
  end.

Record NetworkConfig : Type := MkNetworkConfig {
  net_egress : list string;
  net_capsule_egress : gmap string (list string);
}.

Inductive CommandApprovalLocation : Type := Hosted | AstridWorkspace.

#[export] Instance CommandApprovalLocation_eq_dec : EqDecision CommandApprovalLocation.
Proof. solve_decision. Defined.

Record CommandAlwaysGrant : Type := MkCommandAlwaysGrant {
  cag_command : string;
  cag_location : CommandApprovalLocation;
  cag_workspace_root : option string;
}.

Record ApprovalsConfig : Type := MkApprovalsConfig { command_always : list CommandAlwaysGrant }.
Record ProcessConfig : Type := MkProcessConfig { proc_allow : list string }.

Record Quotas : Type := MkQuotas {
  max_memory_bytes : N;
  max_timeout_secs : N;
  max_ipc_throughput_bytes : N;
  max_background_processes : N;
  max_storage_bytes : N;
  max_cpu_fuel_per_sec : N;
  max_in_flight_calls : N;
}.

Record PrincipalProfile : Type := MkPrincipalProfile {
  profile_version : N;
  enabled : bool;
  pp_groups : list string;
  pp_grants : list string;
  pp_revokes : list string;
  pp_capsules : list string;
  pp_auth : AuthConfig;
  pp_network : NetworkConfig;
  pp_approvals : ApprovalsConfig;
  pp_process : ProcessConfig;
  pp_quotas : Quotas;
}.

#[export] Instance AuthConfig_eq_dec : EqDecision AuthConfig.
Proof. solve_decision. Defined.
#[export] Instance NetworkConfig_eq_dec : EqDecision NetworkConfig.
Proof. solve_decision. Defined.
#[export] Instance CommandAlwaysGrant_eq_dec : EqDecision CommandAlwaysGrant.
Proof. solve_decision. Defined.
#[export] Instance ApprovalsConfig_eq_dec : EqDecision ApprovalsConfig.
Proof. solve_decision. Defined.
#[export] Instance ProcessConfig_eq_dec : EqDecision ProcessConfig.
Proof. solve_decision. Defined.
#[export] Instance Quotas_eq_dec : EqDecision Quotas.
Proof. solve_decision. Defined.
#[export] Instance PrincipalProfile_eq_dec : EqDecision PrincipalProfile.
Proof. solve_decision. Defined.

Definition Quotas_default : Quotas :=
  MkQuotas DEFAULT_MAX_MEMORY_BYTES DEFAULT_MAX_TIMEOUT_SECS DEFAULT_MAX_IPC_THROUGHPUT_BYTES
    DEFAULT_MAX_BACKGROUND_PROCESSES DEFAULT_MAX_STORAGE_BYTES DEFAULT_MAX_CPU_FUEL_PER_SEC
    DEFAULT_MAX_IN_FLIGHT_CALLS.

Definition PrincipalProfile_default : PrincipalProfile :=
  MkPrincipalProfile CURRENT_PROFILE_VERSION true [] [] [] []
    (MkAuthConfig [] []) (MkNetworkConfig [] ∅) (MkApprovalsConfig []) (MkProcessConfig [])
    Quotas_default.

(** ** Field newtypes ([profile/field.rs]) *)

Inductive GroupNameError : Type :=
| GroupNameEmpty
| GroupNameTooLong (name : string)
| GroupNameInvalidChar (name : string) (bad : N).

Inductive CapsuleGrantError : Type :=
| CapsuleGrantEmpty
| CapsuleGrantTooLong (id : string)
| CapsuleGrantInvalidChar (id : string) (bad : N).

Inductive ProfileFieldError : Type :=
| InvalidGroupName (reason : GroupNameError)
| InvalidCapabilityPattern (reason : CapabilityGrammarError)
| InvalidCapsuleGrant (reason : CapsuleGrantError).

Definition validate_group_name_str (name : string) : result unit ProfileFieldError :=
  if is_empty name then Err (InvalidGroupName GroupNameEmpty)
  else if (MAX_GROUP_NAME_LEN <? str_len name)%N then Err (InvalidGroupName (GroupNameTooLong name))
  else match List.find bad_identifier_char (chars name) with
       | Some bad => Err (InvalidGroupName (GroupNameInvalidChar name bad))
       | None => Ok tt
       end.

Definition bad_capsule_char (c : N) : bool :=
  negb (is_ascii_lowercase c) && negb (is_ascii_digit c) && negb (c =? char_dash)%N.

Definition validate_capsule_grant_str (id : string) : result unit ProfileFieldError :=
  if is_empty id then Err (InvalidCapsuleGrant CapsuleGrantEmpty)
  else if (MAX_CAPSULE_GRANT_LEN <? str_len id)%N
  then Err (InvalidCapsuleGrant (CapsuleGrantTooLong id))
  else match List.find bad_capsule_char (chars id) with
       | Some bad => Err (InvalidCapsuleGrant (CapsuleGrantInvalidChar id bad))
       | None => Ok tt
       end.

Record GroupName : Type := MkGroupName { gn_str : string }.
Record CapabilityPattern : Type := MkCapabilityPattern { cp_str : string }.
Record CapsuleGrant : Type := MkCapsuleGrant { cg_str : string }.

#[export] Instance GroupName_eq_dec : EqDecision GroupName.
Proof. solve_decision. Defined.
#[export] Program Instance GroupName_countable : Countable GroupName :=
  inj_countable' gn_str MkGroupName _.
Next Obligation. by intros []. Qed.

Definition GroupName_new (name : string) : result GroupName ProfileFieldError :=
  let? _ := validate_group_name_str name in Ok (MkGroupName name).

Definition CapabilityPattern_new (pattern : string) : result CapabilityPattern ProfileFieldError :=
  let? _ := map_err InvalidCapabilityPattern (validate_capability pattern) in
  Ok (MkCapabilityPattern pattern).

Definition CapsuleGrant_new (id : string) : result CapsuleGrant ProfileFieldError :=
  let? _ := validate_capsule_grant_str id in Ok (MkCapsuleGrant id).

Record ValidatedProfileFields : Type := MkValidatedProfileFields {
  vf_groups : list GroupName;
  vf_grants : list CapabilityPattern;
  vf_revokes : list CapabilityPattern;
  vf_capsules : list CapsuleGrant;
}.

(** Reasons carried by [ProfileError::Invalid], one per message. *)
Inductive InvalidReason : Type :=
| VersionTooNew (version : N)
| MemoryZero
| TimeoutOutOfRange
| IpcThroughputZero
| BackgroundProcessesTooMany
| StorageZero
| CpuFuelZero
| InFlightCallsOutOfRange
| DevicePubkeyShape (e : HexShapeError)
| DeviceKeyIdShape (e : HexShapeError)
| DeviceScopePattern (pattern : string) (e : CapabilityGrammarError)
| FieldRejected (field value : string) (e : ProfileFieldError)
| EgressEmpty
| CapsuleEgressKeyEmpty
| CapsuleEgressEndpointEmpty
| NativeApprovalHostPath
| ApprovalCommandEmpty
| ApprovalWorkspaceRootEmpty
| ProcessAllowEmpty
| DisabledPrincipal.

Inductive ProfileError : Type :=
| ProfileIoNotFound
| ProfileParse
| ProfileSerialize
| ProfileInvalid (reason : InvalidReason).

Definition profile_field_error (field value : string) (e : ProfileFieldError) : ProfileError :=
  ProfileInvalid (FieldRejected field value e).

Definition typed_fields (p : PrincipalProfile) : result ValidatedProfileFields ProfileError :=
  let? groups := try_map (fun v => map_err (profile_field_error "groups" v) (GroupName_new v))
                   (pp_groups p) in
  let? grants := try_map (fun v => map_err (profile_field_error "grants" v) (CapabilityPattern_new v))
                   (pp_grants p) in
  let? revokes := try_map (fun v => map_err (profile_field_error "revokes" v) (CapabilityPattern_new v))
                    (pp_revokes p) in
  let? capsules := try_map (fun v => map_err (profile_field_error "capsules" v) (CapsuleGrant_new v))
                     (pp_capsules p) in
  Ok (MkValidatedProfileFields groups grants revokes capsules).

(** ** Semantic validation ([profile/validation.rs]) *)

Definition invalid {A} (r : InvalidReason) : result A ProfileError := Err (ProfileInvalid r).

Definition coerce_legacy_zero_cpu_fuel (q : Quotas) : Quotas :=
  if (max_cpu_fuel_per_sec q =? 0)%N then
    MkQuotas (max_memory_bytes q) (max_timeout_secs q) (max_ipc_throughput_bytes q)
      (max_background_processes q) (max_storage_bytes q) DEFAULT_MAX_CPU_FUEL_PER_SEC
      (max_in_flight_calls q)
  else q.

Definition Quotas_validate (q : Quotas) : result unit ProfileError :=
  if (max_memory_bytes q =? 0)%N then invalid MemoryZero
  else if ((max_timeout_secs q =? 0) || (TIMEOUT_SECS_UPPER_BOUND <? max_timeout_secs q))%N
  then invalid TimeoutOutOfRange
  else if (max_ipc_throughput_bytes q =? 0)%N then invalid IpcThroughputZero
  else if (BACKGROUND_PROCESSES_UPPER_BOUND <? max_background_processes q)%N
  then invalid BackgroundProcessesTooMany
  else if (max_storage_bytes q =? 0)%N then invalid StorageZero
  else if (max_cpu_fuel_per_sec q =? 0)%N then invalid CpuFuelZero
  else if ((max_in_flight_calls q =? 0) || (IN_FLIGHT_CALLS_UPPER_BOUND <? max_in_flight_calls q))%N
  then invalid InFlightCallsOutOfRange
  else Ok tt.

Definition validate_device_key (key : DeviceKey) : result unit ProfileError :=
  let? _ := map_err (fun e => ProfileInvalid (DevicePubkeyShape e)) (typed_pubkey key) in
  let? _ := map_err (fun e => ProfileInvalid (DeviceKeyIdShape e)) (typed_key_id key) in
  match dk_scope key with
  | ScopeFull => Ok tt
  | ScopeScoped allow deny =>
      try_for (fun pattern =>
        map_err (fun e => ProfileInvalid (DeviceScopePattern pattern e)) (validate_capability pattern))
        (allow ++ deny)
  end.

Definition AuthConfig_validate (auth : AuthConfig) : result unit ProfileError :=
  try_for validate_device_key (auth_public_keys auth).

Definition NetworkConfig_validate (n : NetworkConfig) : result unit ProfileError :=
  let? _ := try_for (fun pattern => if is_empty (trim pattern) then invalid EgressEmpty else Ok tt)
              (net_egress n) in
  try_for (fun '(capsule_id, endpoints) =>
    if is_empty (trim capsule_id) then invalid CapsuleEgressKeyEmpty
    else try_for (fun endpoint =>
           if is_empty (trim endpoint) then invalid CapsuleEgressEndpointEmpty else Ok tt) endpoints)
    (map_to_list (net_capsule_egress n)).

Definition ApprovalsConfig_validate (a : ApprovalsConfig) : result unit ProfileError :=
  try_for (fun grant =>
    if bool_decide (cag_location grant = AstridWorkspace)
       && bool_decide (is_Some (cag_workspace_root grant))
    then invalid NativeApprovalHostPath
    else if is_empty (trim (cag_command grant)) then invalid ApprovalCommandEmpty
    else match cag_workspace_root grant with
         | Some workspace =>
             if is_empty (trim workspace) then invalid ApprovalWorkspaceRootEmpty else Ok tt
         | None => Ok tt
         end) (command_always a).

Definition ProcessConfig_validate (p : ProcessConfig) : result unit ProfileError :=
  try_for (fun entry => if is_empty (trim entry) then invalid ProcessAllowEmpty else Ok tt)
    (proc_allow p).

Definition PrincipalProfile_validate (p : PrincipalProfile) : result unit ProfileError :=
  if (CURRENT_PROFILE_VERSION <? profile_version p)%N
  then invalid (VersionTooNew (profile_version p))
  else
    let? _ := Quotas_validate (pp_quotas p) in
    let? _ := AuthConfig_validate (pp_auth p) in
    let? _ := typed_fields p in
    let? _ := NetworkConfig_validate (pp_network p) in
    let? _ := ApprovalsConfig_validate (pp_approvals p) in
    let? _ := ProcessConfig_validate (pp_process p) in
    Ok tt.

(** ** Lemmas on hex shapes *)

Lemma hex_shape_chars (cs : list N) :
  forallb is_ascii_hexdigit cs = true -> existsb is_ascii_uppercase cs = false ->
  Forall hex_lower_char cs.
Proof.
  unfold hex_lower_char. induction cs as [|c cs IH]; simpl; [done|].
  intros [? ?]%andb_true_iff [? ?]%orb_false_iff. auto.
Qed.

Lemma hex_shape_chars_inv (cs : list N) :
  Forall hex_lower_char cs ->
  forallb is_ascii_hexdigit cs = true /\ existsb is_ascii_uppercase cs = false.
Proof. unfold hex_lower_char. induction 1 as [|c cs [Hh Hu] _ [? ?]]; simpl; [done|]. by rewrite Hh, Hu. Qed.

Lemma validate_pubkey_hex_Ok s :
  validate_pubkey_hex s = Ok tt <->
  str_len s = ED25519_PUBKEY_HEX_LEN /\ Forall hex_lower_char (chars s).
Proof.
  unfold validate_pubkey_hex. split.
  - intros H. inv_ok. bool_prop. split; [done|]. by apply hex_shape_chars.
  - intros [Hlen [Hh Hu]%hex_shape_chars_inv]. by rewrite Hlen, Hh, Hu.
Qed.

Lemma validate_device_key_id_Ok s :
  validate_device_key_id s = Ok tt <->
  str_len s = DEVICE_KEY_ID_HEX_LEN /\ Forall hex_lower_char (chars s).
Proof.
  unfold validate_device_key_id. split.
  - intros H. inv_ok. bool_prop. split; [done|]. by apply hex_shape_chars.
  - intros [Hlen [Hh Hu]%hex_shape_chars_inv]. by rewrite Hlen, Hh, Hu.
Qed.

Lemma hex_lower_char_range c :
  hex_lower_char c -> (48 <= c <= 57 \/ 97 <= c <= 102)%N.
Proof.
  unfold hex_lower_char, is_ascii_hexdigit, is_ascii_digit, is_ascii_uppercase.
  rewrite !orb_true_iff, !andb_true_iff, andb_false_iff, !N.leb_le, !N.leb_gt. lia.
Qed.

Lemma hex_chars_bytes s : Forall hex_lower_char (chars s) -> chars s = bytes s.
Proof.
  intros H. apply chars_ascii. eapply Forall_impl; [exact H|].
  intros c ?%hex_lower_char_range. lia.
Qed.

Lemma of_chars_ascii s : Forall (fun c => (c < 128)%N) (bytes s) -> of_chars (bytes s) = s.
Proof.
  induction s as [|a s IH]; [done|]. cbn [bytes]. rewrite Forall_cons. intros [Ha Hs].
  unfold of_chars in *. cbn [List.fold_right]. rewrite IH by done.
  unfold encode_char. rewrite (proj2 (N.ltb_lt _ _) Ha). simpl. by rewrite ascii_N_embedding.
Qed.

Lemma skip_while_none f l : Forall (fun c => f c = false) l -> skip_while f l = l.
Proof. destruct 1 as [|c l Hc _]; simpl; [done|]. by rewrite Hc. Qed.

Lemma trim_hex s : Forall hex_lower_char (chars s) -> trim s = s.
Proof.
  intros H. assert (Hws : Forall (fun c => is_whitespace c = false) (chars s)).
  { eapply Forall_impl; [exact H|]. intros c Hc%hex_lower_char_range.
    unfold is_whitespace. rewrite !orb_false_iff, !andb_false_iff, !N.leb_gt, !N.eqb_neq. lia. }
  unfold trim. rewrite (skip_while_none _ (chars s)) by done.
  rewrite skip_while_none by (by apply Forall_reverse).
  rewrite reverse_involutive, hex_chars_bytes by done. apply of_chars_ascii.
  rewrite <- hex_chars_bytes by done. eapply Forall_impl; [exact H|].
  intros c ?%hex_lower_char_range. lia.
Qed.

Lemma strip_prefix_Some pat s r : strip_prefix pat s = Some r -> s = String.append pat r.
Proof.
  revert s; induction pat as [|a pat IH]; intros s; simpl; [by intros [= ->]|].
  destruct s as [|b s]; [done|]. destruct (Ascii.eqb_spec a b) as [<-|]; [|done].
  intros ->%IH. done.
Qed.

Lemma bytes_app s t : bytes (String.append s t) = bytes s ++ bytes t.
Proof. induction s as [|a s IH]; simpl; [done|]. by rewrite IH. Qed.

Lemma strip_ed25519_hex s : Forall hex_lower_char (chars s) -> strip_prefix "ed25519:" s = None.
Proof.
  intros H. destruct (strip_prefix "ed25519:" s) as [r|] eqn:Hs; [|done].
  apply strip_prefix_Some in Hs. rewrite hex_chars_bytes in H by done.
  rewrite Hs, bytes_app, Forall_forall in H.
  specialize (H 58%N ltac:(apply elem_of_app; left; vm_compute; set_solver)).
  apply hex_lower_char_range in H. lia.
Qed.

Lemma to_ascii_lowercase_hex s : Forall hex_lower_char (chars s) -> to_ascii_lowercase s = s.
Proof.
  intros H. rewrite hex_chars_bytes in H by done. revert H. unfold to_ascii_lowercase.
  induction s as [|a s IH]; [done|]. cbn [bytes str_map]. rewrite Forall_cons.
  intros [[_ Hu] Hs]. rewrite Hu, IH; done.
Qed.

Lemma normalize_canonical s :
  validate_pubkey_hex s = Ok tt -> DevicePubkey_normalize s = Ok (MkDevicePubkey s).
Proof.
  intros Hv. destruct (proj1 (validate_pubkey_hex_Ok s) Hv) as [_ H].
  unfold DevicePubkey_normalize. rewrite trim_hex, strip_ed25519_hex by done. simpl.
  rewrite to_ascii_lowercase_hex by done. by rewrite Hv.
Qed.

Lemma normalize_Ok raw pk :
  DevicePubkey_normalize raw = Ok pk -> validate_pubkey_hex (dpk_str pk) = Ok tt.
Proof. unfold DevicePubkey_normalize. intros H. by inv_ok. Qed.

Section DeviceKeyLemmas.
Context `{HashingLaws}.

Lemma fingerprint_valid pubkey :
  validate_device_key_id (device_key_id_fingerprint pubkey) = Ok tt.
Proof.
  apply validate_device_key_id_Ok. unfold device_key_id_fingerprint. simpl. split.
  - rewrite hex_encode_length, length_take, blake3_hash_length. done.
  - apply hex_encode_lower.
Qed.

End DeviceKeyLemmas.

(** ** What a valid profile guarantees *)

Definition quotas_wf (q : Quotas) : Prop :=
  (0 < max_memory_bytes q /\
   1 <= max_timeout_secs q <= TIMEOUT_SECS_UPPER_BOUND /\
   0 < max_ipc_throughput_bytes q /\
   max_background_processes q <= BACKGROUND_PROCESSES_UPPER_BOUND /\
   0 < max_storage_bytes q /\
   0 < max_cpu_fuel_per_sec q /\
   1 <= max_in_flight_calls q <= IN_FLIGHT_CALLS_UPPER_BOUND)%N.

Definition scope_wf (s : DeviceScope) : Prop :=
  match s with
  | ScopeFull => True
  | ScopeScoped allow deny => Forall grammar allow /\ Forall grammar deny
  end.

Definition device_key_wf (k : DeviceKey) : Prop :=
  (str_len (dk_pubkey k) = ED25519_PUBKEY_HEX_LEN /\ Forall hex_lower_char (chars (dk_pubkey k))) /\
  (str_len (dk_key_id k) = DEVICE_KEY_ID_HEX_LEN /\ Forall hex_lower_char (chars (dk_key_id k))) /\
  scope_wf (dk_scope k).

Definition group_name_wf (name : string) : Prop :=
  name <> "" /\ (str_len name <= MAX_GROUP_NAME_LEN)%N /\ Forall identifier_char (chars name).

Definition capsule_grant_wf (id : string) : Prop :=
  id <> "" /\ (str_len id <= MAX_CAPSULE_GRANT_LEN)%N /\
  Forall (fun c => is_ascii_lowercase c = true \/ is_ascii_digit c = true \/ c = char_dash) (chars id).

Definition not_blank (s : string) : Prop := trim s <> "".

Definition approval_wf (g : CommandAlwaysGrant) : Prop :=
  not_blank (cag_command g) /\
  match cag_location g, cag_workspace_root g with
  | AstridWorkspace, Some _ => False
  | Hosted, Some root => not_blank root
  | _, None => True
  end.

Definition profile_wf (p : PrincipalProfile) : Prop :=
  (profile_version p <= CURRENT_PROFILE_VERSION)%N /\
  quotas_wf (pp_quotas p) /\
  Forall device_key_wf (auth_public_keys (pp_auth p)) /\
  (Forall group_name_wf (pp_groups p) /\ Forall grammar (pp_grants p) /\
   Forall grammar (pp_revokes p) /\ Forall capsule_grant_wf (pp_capsules p)) /\
  (Forall not_blank (net_egress (pp_network p)) /\
   map_Forall (fun id eps => not_blank id /\ Forall not_blank eps)
     (net_capsule_egress (pp_network p))) /\
  Forall approval_wf (command_always (pp_approvals p)) /\
  Forall not_blank (proc_allow (pp_process p)).

Lemma Quotas_validate_Ok q : Quotas_validate q = Ok tt <-> quotas_wf q.
Proof.
  unfold Quotas_validate, quotas_wf, invalid. split.
  - intros H. inv_ok. bool_prop. lia.
  - intros H. repeat case_match; try done; exfalso;
      repeat match goal with Ho : _ || _ = true |- _ => apply orb_true_iff in Ho as [?|?] end;
      bool_prop; lia.
Qed.

Lemma scope_patterns_Ok (err : string -> CapabilityGrammarError -> ProfileError) l :
  try_for (fun p => map_err (err p) (validate_capability p)) l = Ok tt <-> Forall grammar l.
Proof. apply try_for_iff. intros p. by rewrite map_err_Ok, validate_capability_Ok. Qed.

Lemma validate_device_key_Ok k : validate_device_key k = Ok tt <-> device_key_wf k.
Proof.
  unfold validate_device_key, device_key_wf, typed_pubkey, typed_key_id,
    DevicePubkey_from_canonical, DeviceKeyId_new, scope_wf.
  rewrite <- validate_pubkey_hex_Ok, <- validate_device_key_id_Ok. split.
  - intros H. inv_ok. split_and!; [done..|]. destruct (dk_scope k); [done|].
    by apply Forall_app, (scope_patterns_Ok (fun p e => ProfileInvalid (DeviceScopePattern p e))).
  - intros (-> & -> & Hs). simpl. destruct (dk_scope k); [done|].
    by apply scope_patterns_Ok, Forall_app.
Qed.

Lemma validate_group_name_str_Ok name :
  validate_group_name_str name = Ok tt <-> group_name_wf name.
Proof.
  unfold validate_group_name_str, group_name_wf. rewrite <- find_bad_None. split.
  - intros H. inv_ok. bool_prop. split; [by apply is_empty_false|]. split; [done|].
    by destruct (List.find _ _).
  - intros (He & Hl & Hf). rewrite (proj2 (is_empty_false _) He), Hf.
    by destruct (N.ltb_spec MAX_GROUP_NAME_LEN (str_len name)); [lia|].
Qed.

Lemma validate_capsule_grant_str_Ok id :
  validate_capsule_grant_str id = Ok tt <-> capsule_grant_wf id.
Proof.
  unfold validate_capsule_grant_str, capsule_grant_wf.
  assert (Hf : List.find bad_capsule_char (chars id) = None <->
    Forall (fun c => is_ascii_lowercase c = true \/ is_ascii_digit c = true \/ c = char_dash)
      (chars id)).
  { rewrite find_None_Forall. apply Forall_iff. intros c. unfold bad_capsule_char.
    rewrite !andb_false_iff, !negb_false_iff, N.eqb_eq. tauto. }
  rewrite <- Hf. split.
  - intros H. inv_ok. bool_prop. split; [by apply is_empty_false|]. split; [done|].
    by destruct (List.find _ _).
  - intros (He & Hl & ->). rewrite (proj2 (is_empty_false _) He).
    by destruct (N.ltb_spec MAX_CAPSULE_GRANT_LEN (str_len id)); [lia|].
Qed.

Lemma GroupName_new_Ok name gn :
  GroupName_new name = Ok gn <-> group_name_wf name /\ gn = MkGroupName name.
Proof.
  unfold GroupName_new. rewrite <- validate_group_name_str_Ok. split.
  - intros H. by inv_ok.
  - intros [-> ->]. done.
Qed.

Lemma CapabilityPattern_new_Ok p cp :
  CapabilityPattern_new p = Ok cp <-> grammar p /\ cp = MkCapabilityPattern p.
Proof.
  unfold CapabilityPattern_new. rewrite <- validate_capability_Ok. split.
  - intros H. by inv_ok.
  - intros [-> ->]. done.
Qed.

Lemma CapsuleGrant_new_Ok id cg :
  CapsuleGrant_new id = Ok cg <-> capsule_grant_wf id /\ cg = MkCapsuleGrant id.
Proof.
  unfold CapsuleGrant_new. rewrite <- validate_capsule_grant_str_Ok. split.
  - intros H. by inv_ok.
  - intros [-> ->]. done.
Qed.

Lemma try_map_newtype {B E F} (new : string -> result B F) (mk : string -> B)
    (wf : string -> Prop) (err : string -> F -> E) l r :
  (forall s b, new s = Ok b <-> wf s /\ b = mk s) ->
  try_map (fun v => map_err (err v) (new v)) l = Ok r <-> Forall wf l /\ r = mk <$> l.
Proof.
  intros Hnew. rewrite try_map_Ok. split.
  - induction 1 as [|x y l r [Hx ->]%map_err_Ok%Hnew _ [? ->]]; [done|]. by split; [constructor|].
  - intros [H ->]. induction H; simpl; constructor; [|done]. by apply map_err_Ok, Hnew.
Qed.

(** The typed view exists exactly when every field string is well formed,
    and then it is those strings under their newtypes. *)
Lemma typed_fields_Ok p vf :
  typed_fields p = Ok vf <->
  (Forall group_name_wf (pp_groups p) /\ Forall grammar (pp_grants p) /\
   Forall grammar (pp_revokes p) /\ Forall capsule_grant_wf (pp_capsules p)) /\
  vf = MkValidatedProfileFields (MkGroupName <$> pp_groups p)
         (MkCapabilityPattern <$> pp_grants p) (MkCapabilityPattern <$> pp_revokes p)
         (MkCapsuleGrant <$> pp_capsules p).
Proof.
  unfold typed_fields. split.
  - intros H. inv_ok.
    repeat match goal with
    | Hm : try_map _ _ = Ok _ |- _ =>
        first [ apply (try_map_newtype _ _ _ _ _ _ GroupName_new_Ok) in Hm
              | apply (try_map_newtype _ _ _ _ _ _ CapabilityPattern_new_Ok) in Hm
              | apply (try_map_newtype _ _ _ _ _ _ CapsuleGrant_new_Ok) in Hm ];
        destruct Hm as [? ->]
    end. done.
  - intros [(? & ? & ? & ?) ->].
    rewrite (proj2 (try_map_newtype _ _ _ _ _ _ GroupName_new_Ok)) by done. simpl.
    rewrite (proj2 (try_map_newtype _ _ _ _ (pp_grants p) _ CapabilityPattern_new_Ok)) by done. simpl.
    rewrite (proj2 (try_map_newtype _ _ _ _ (pp_revokes p) _ CapabilityPattern_new_Ok)) by done. simpl.
    by rewrite (proj2 (try_map_newtype _ _ _ _ _ _ CapsuleGrant_new_Ok)) by done.
Qed.

Lemma not_blank_Ok (r : InvalidReason) s :
  (if is_empty (trim s) then invalid r else Ok tt) = Ok tt <-> not_blank s.
Proof.
  unfold not_blank. destruct (is_empty (trim s)) eqn:He.
  - apply is_empty_true in He. by rewrite He.
  - by apply is_empty_false in He.
Qed.

Lemma NetworkConfig_validate_Ok n :
  NetworkConfig_validate n = Ok tt <->
  Forall not_blank (net_egress n) /\
  map_Forall (fun id eps => not_blank id /\ Forall not_blank eps) (net_capsule_egress n).
Proof.
  unfold NetworkConfig_validate.
  rewrite rbind_Ok, map_Forall_to_list.
  setoid_rewrite (try_for_iff _ (fun kv => not_blank kv.1 /\ Forall not_blank kv.2)).
  2: { intros [id eps]. simpl.
       rewrite <- (try_for_iff _ not_blank eps (not_blank_Ok CapsuleEgressEndpointEmpty)).
       rewrite <- (not_blank_Ok CapsuleEgressKeyEmpty id). by destruct (is_empty (trim id)); naive_solver. }
  rewrite <- (try_for_iff _ not_blank _ (not_blank_Ok EgressEmpty)). split.
  - intros ([] & ? & H). split; [done|]. eapply Forall_impl; [exact H|]. by intros [].
  - intros [? H]. exists tt. split; [done|]. eapply Forall_impl; [exact H|]. by intros [].
Qed.

Lemma ApprovalsConfig_validate_Ok a :
  ApprovalsConfig_validate a = Ok tt <-> Forall approval_wf (command_always a).
Proof.
  apply try_for_iff. intros [cmd loc root]. unfold approval_wf. simpl.
  rewrite <- (not_blank_Ok ApprovalCommandEmpty cmd).
  destruct loc, root as [root|]; simpl;
    try rewrite <- (not_blank_Ok ApprovalWorkspaceRootEmpty root);
    destruct (is_empty (trim cmd)); naive_solver.
Qed.

Lemma PrincipalProfile_validate_Ok p : PrincipalProfile_validate p = Ok tt <-> profile_wf p.
Proof.
  unfold PrincipalProfile_validate, profile_wf.
  rewrite <- Quotas_validate_Ok, <- NetworkConfig_validate_Ok, <- ApprovalsConfig_validate_Ok.
  rewrite <- (try_for_iff _ _ _ validate_device_key_Ok).
  rewrite <- (try_for_iff _ not_blank _ (not_blank_Ok ProcessAllowEmpty)).
  destruct (N.ltb_spec CURRENT_PROFILE_VERSION (profile_version p)).
  { split; [done|lia]. }
  split.
  - intros H'. inv_ok. split_and!; try done; by apply (typed_fields_Ok p x1).
  - intros (_ & -> & Ha & Hf & -> & -> & Hp). unfold AuthConfig_validate, ProcessConfig_validate.
    rewrite Ha. simpl. rewrite (proj2 (typed_fields_Ok p _) (conj Hf eq_refl)). simpl.
    by rewrite Hp.
Qed.

(** A hashing instance to evaluate the model at: a constant digest and the
    usual lowercase hex encoding of bytes. *)
Definition hex_digit (n : N) : ascii :=
  ascii_of_N (if (n <? 10)%N then 48 + n else 87 + n)%N.

Definition constant_hashing : Hashing := {|
  blake3_hash _ := replicate 32 7%N;
  hex_encode l :=
    List.fold_right (fun b s => String (hex_digit ((b / 16) mod 16)%N) (String (hex_digit (b mod 16)%N) s))
      EmptyString l;
|}.

Lemma hex_digit_lower n :
  (n < 16)%N -> hex_lower_char (N_of_ascii (hex_digit n)) /\ (N_of_ascii (hex_digit n) < 128)%N.
Proof.
  intros H. rewrite <- (N2Nat.id n). assert (Hk : (N.to_nat n < 16)%nat) by lia.
  generalize dependent (N.to_nat n). intros k Hk.
  do 16 (destruct k as [|k]; [by vm_compute|]). lia.
Qed.

#[export] Instance constant_hashing_laws : @HashingLaws constant_hashing.
Proof.
  split.
  - intros s. apply length_replicate.
  - intros l. unfold str_len. simpl. induction l as [|b l IH]; [done|]. simpl. lia.
  - intros l. simpl. induction l as [|b l IH]; [by constructor|]. cbn [List.fold_right].
    destruct (hex_digit_lower ((b / 16) mod 16)) as [H1 L1]; [by apply N.mod_lt|].
    destruct (hex_digit_lower (b mod 16)) as [H2 L2]; [by apply N.mod_lt|].
    cbn [chars]. rewrite (proj2 (N.ltb_lt _ _) L1), (proj2 (N.ltb_lt _ _) L2).
    repeat constructor; try apply H1; try apply H2. exact IH.
Qed.

(** ** Properties *)

(** [PrincipalProfile::validate] accepts exactly the well-formed
    profiles: supported schema version, every quota within its documented
    bounds, every device key with a canonical public key and key id and
    grammar-valid scope patterns, every group name, grant, revoke and capsule
    grant inside its grammar, no blank egress, process or approval entry, and
    no host path on a native-workspace approval. *)
Theorem profile_validate_exact : forall p,
  PrincipalProfile_validate p = Ok tt <-> profile_wf p.
Proof. exact PrincipalProfile_validate_Ok. Qed.

(** C37: whatever is on disk, a device key that deserializes has a canonical
    64-character lowercase public key and a key id that is the fingerprint
    of that public key and passes the key-id shape check, so a stale or
    hand-edited key id never survives loading. *)
Theorem device_key_deserialize_canonical `{HashingLaws} : forall repr k,
  DeviceKey_deserialize repr = Ok k ->
  validate_pubkey_hex (dk_pubkey k) = Ok tt /\
  dk_key_id k = device_key_id_fingerprint (dk_pubkey k) /\
  typed_key_id k = Ok (MkDeviceKeyId (dk_key_id k)).
Proof.
  intros repr k Hk. destruct repr; simpl in Hk; inv_ok; simpl;
    (split; [by eapply normalize_Ok|]); (split; [done|]);
    unfold typed_key_id, DeviceKeyId_new; simpl; by rewrite fingerprint_valid.
Qed.

Lemma device_key_deserialize_canonical_witness :
  exists repr k,
    @DeviceKey_deserialize constant_hashing repr = Ok k /\
    validate_pubkey_hex (dk_pubkey k) = Ok tt.
Proof.
  exists (ReprBare "ed25519:ABCDEF0123456789abcdef0123456789abcdef0123456789abcdef0123456789").
  eexists. assert (@DeviceKey_deserialize constant_hashing
    (ReprBare "ed25519:ABCDEF0123456789abcdef0123456789abcdef0123456789abcdef0123456789")
    = Ok (@DeviceKey_new constant_hashing
        "abcdef0123456789abcdef0123456789abcdef0123456789abcdef0123456789" ScopeFull None 0)) as E
    by (vm_compute; reflexivity).
  split; [exact E|].
  exact (proj1 (@device_key_deserialize_canonical constant_hashing constant_hashing_laws _ _ E)).
Defined.

(** serializing a device key and reading it back returns the same key
    exactly when its public key is canonical and its key id is the
    fingerprint of that public key. *)
Theorem device_key_roundtrip `{Hashing} : forall k,
  DeviceKey_deserialize (DeviceKey_serialize k) = Ok k <->
  validate_pubkey_hex (dk_pubkey k) = Ok tt /\
  dk_key_id k = device_key_id_fingerprint (dk_pubkey k).
Proof.
  intros k. destruct k as [kid pk sc lb ct]. simpl. split.
  - intros Hk. inv_ok. by split; [eapply normalize_Ok|].
  - intros [Hv ->]. by rewrite (normalize_canonical pk Hv).
Qed.
