(* ===== verification/Groups.v ===== *)
(** * Group configuration

    [crates/astrid-core/src/groups/mod.rs]: the built-in groups, the loader's
    merge of operator-defined groups with them, the copy-on-write mutations of
    the admin surface (insert, modify, remove), and the typed view the
    capability check consumes.  [HashMap<String, Group>] is a [gmap]; loops
    over it follow [map_to_list], so which of several offending entries an
    error names is not claimed. *)

From S2P Require Import Prelude CapabilityGrammar Profile.
From Stdlib Require Import Ascii.
Local Open Scope string_scope.
Local Open Scope list_scope.

Definition BUILTIN_ADMIN : string := "admin".
Definition BUILTIN_AGENT : string := "agent".
Definition BUILTIN_RESTRICTED : string := "restricted".
Definition BUILTIN_NAMES : list string := [BUILTIN_ADMIN; BUILTIN_AGENT; BUILTIN_RESTRICTED].

Inductive GroupConfigError : Type :=
| RedefinedBuiltin (name : string)
| DuplicateName (name : string)
| InvalidName (name : string) (reason : ProfileFieldError)
| InvalidCapability (group cap : string) (reason : CapabilityGrammarError)
| UnsafeUniversalGrant (group : string)
| UnknownGroup (name : string).

Record Group : Type := MkGroup {
  capabilities : list string;
  description : option string;
  unsafe_admin : bool;
}.

#[export] Instance Group_eq_dec : EqDecision Group.
Proof. solve_decision. Defined.

Record GroupConfig : Type := MkGroupConfig { groups : gmap string Group }.
Record ValidatedGroup : Type := MkValidatedGroup { vg_capabilities : list CapabilityPattern }.
Record ValidatedGroupConfig : Type := MkValidatedGroupConfig {
  vgc_groups : gmap GroupName ValidatedGroup;
}.

Definition is_builtin (name : string) : bool := contains name BUILTIN_NAMES.

Definition validate_group_name (name : string) : result GroupName GroupConfigError :=
  map_err (InvalidName name) (GroupName_new name).

Definition builtin_entries : list (string * Group) :=
  [(BUILTIN_ADMIN,
    MkGroup ["*"] (Some "Built-in administrator — universal capability grant") false);
   (BUILTIN_AGENT,
    MkGroup ["self:*"; "self:quota:get"; "self:agent:list"; "delegate:self:*"]
      (Some "Built-in agent — self-scoped capability grants for routine agent workflows") false);
   (BUILTIN_RESTRICTED,
    MkGroup [] (Some "Built-in restricted — no implicit capabilities; grants must be explicit") false)].

(** [CapabilityPattern::new] only fails with a grammar error
    ([CapabilityPattern_new_Err]), so the last arm, [unreachable!] in the
    code, is never taken and its value is arbitrary. *)
Definition validate_group_capability (group cap : string)
    : result CapabilityPattern GroupConfigError :=
  match CapabilityPattern_new cap with
  | Ok pattern => Ok pattern
  | Err (InvalidCapabilityPattern reason) => Err (InvalidCapability group cap reason)
  | Err (InvalidGroupName _ | InvalidCapsuleGrant _) =>
      Err (InvalidCapability group cap GrammarEmpty)
  end.

Definition validate_custom_group (name : string) (group : Group) : result unit GroupConfigError :=
  let? _ := validate_group_name name in
  try_for (fun cap =>
    let? _ := validate_group_capability name cap in
    if bool_decide (cap = "*") && negb (unsafe_admin group)
    then Err (UnsafeUniversalGrant name) else Ok tt) (capabilities group).

Definition validate_group_view (name : string) (group : Group)
    : result ValidatedGroup GroupConfigError :=
  let? caps := try_map (fun cap =>
    let? pattern := validate_group_capability name cap in
    if bool_decide (cp_str pattern = "*") && negb (unsafe_admin group)
       && negb (bool_decide (name = BUILTIN_ADMIN))
    then Err (UnsafeUniversalGrant name)
    else Ok pattern) (capabilities group) in
  Ok (MkValidatedGroup caps).

(** The loop of [ValidatedGroupConfig::try_from], with the map built so far. *)
Fixpoint typed_loop (acc : gmap GroupName ValidatedGroup) (entries : list (string * Group))
    : result ValidatedGroupConfig GroupConfigError :=
  match entries with
  | [] => Ok (MkValidatedGroupConfig acc)
  | (raw, group) :: rest =>
      let? name := map_err (InvalidName raw) (GroupName_new raw) in
      let? view := validate_group_view (gn_str name) group in
      match acc !! name with
      | Some _ => Err (DuplicateName (gn_str name))
      | None => typed_loop (<[name := view]> acc) rest
      end
  end.

Definition typed (config : GroupConfig) : result ValidatedGroupConfig GroupConfigError :=
  typed_loop ∅ (map_to_list (groups config)).

Definition ValidatedGroupConfig_get (c : ValidatedGroupConfig) (name : GroupName)
    : option ValidatedGroup := vgc_groups c !! name.

Definition GroupConfig_get (c : GroupConfig) (name : string) : option Group := groups c !! name.
Definition GroupConfig_len (c : GroupConfig) : nat := size (groups c).

(** [for (name, group) in entries { groups.insert(name, group); }] *)
Definition insert_all (acc : gmap string Group) (entries : list (string * Group))
    : gmap string Group :=
  List.fold_left (fun m '(name, group) => <[name := group]> m) entries acc.

Definition builtin_only : GroupConfig := MkGroupConfig (insert_all ∅ builtin_entries).

(** The second loop of [from_custom_groups], with its [seen] set. *)
Fixpoint validate_custom_loop (seen : gset string) (entries : list (string * Group))
    : result unit GroupConfigError :=
  match entries with
  | [] => Ok tt
  | (name, group) :: rest =>
      if bool_decide (name ∈ seen) then Err (DuplicateName name)
      else let? _ := validate_custom_group name group in
           validate_custom_loop ({[name]} ∪ seen) rest
  end.

Definition from_custom_groups (custom : gmap string Group) : result GroupConfig GroupConfigError :=
  let? _ := try_for (fun name =>
    if is_builtin name then Err (RedefinedBuiltin name)
    else let? _ := validate_group_name name in Ok tt) (map_to_list custom).*1 in
  let? _ := validate_custom_loop ∅ (map_to_list custom) in
  let config := MkGroupConfig
    (insert_all (insert_all ∅ builtin_entries) (map_to_list custom)) in
  let? _ := typed config in
  Ok config.

Definition insert_custom_group (self : GroupConfig) (name : string) (group : Group)
    : result GroupConfig GroupConfigError :=
  if is_builtin name then Err (RedefinedBuiltin name)
  else
    let? _ := validate_group_name name in
    if bool_decide (is_Some (groups self !! name)) then Err (DuplicateName name)
    else
      let? _ := validate_custom_group name group in
      let config := MkGroupConfig (<[name := group]> (groups self)) in
      let? _ := typed config in
      Ok config.

(** The partial update: a field left as [None] is preserved. *)
Definition apply_group_patch (existing : Group) (caps : option (list string))
    (desc : option (option string)) (flag : option bool) : Group :=
  MkGroup (default (capabilities existing) caps)
          (default (description existing) desc)
          (default (unsafe_admin existing) flag).

Definition modify_custom_group (self : GroupConfig) (name : string)
    (caps : option (list string)) (desc : option (option string)) (flag : option bool)
    : result GroupConfig GroupConfigError :=
  if is_builtin name then Err (RedefinedBuiltin name)
  else
    let? _ := validate_group_name name in
    let? existing := ok_or (groups self !! name) (UnknownGroup name) in
    let updated := apply_group_patch existing caps desc flag in
    let? _ := validate_custom_group name updated in
    let config := MkGroupConfig (<[name := updated]> (groups self)) in
    let? _ := typed config in
    Ok config.

Definition remove_group (self : GroupConfig) (name : string)
    : result GroupConfig GroupConfigError :=
  if is_builtin name then Err (RedefinedBuiltin name)
  else
    let? _ := validate_group_name name in
    if negb (bool_decide (is_Some (groups self !! name))) then Err (UnknownGroup name)
    else Ok (MkGroupConfig (delete name (groups self))).

(** ** What a valid configuration is *)

Definition custom_group_wf (group : Group) : Prop :=
  Forall grammar (capabilities group) /\ ("*" ∈ capabilities group -> unsafe_admin group = true).

Definition group_view_wf (name : string) (group : Group) : Prop :=
  Forall grammar (capabilities group) /\
  ("*" ∈ capabilities group -> unsafe_admin group = true \/ name = BUILTIN_ADMIN).

(** The three built-in groups are present and unmodified, and every other
    group has a valid name, valid capabilities, and carries the universal
    pattern only with the explicit opt-in. *)
Record config_wf (c : GroupConfig) : Prop := {
  wf_builtins : Forall (fun e => groups c !! e.1 = Some e.2) builtin_entries;
  wf_custom : forall name group,
    groups c !! name = Some group -> is_builtin name = false ->
    group_name_wf name /\ custom_group_wf group;
}.

(** The typed view of a group. *)
Definition group_view (group : Group) : ValidatedGroup :=
  MkValidatedGroup (MkCapabilityPattern <$> capabilities group).

(** ** Lemmas *)

Lemma CapabilityPattern_new_Err p e :
  CapabilityPattern_new p = Err e -> exists reason, e = InvalidCapabilityPattern reason.
Proof.
  unfold CapabilityPattern_new. destruct (validate_capability p); simpl; naive_solver.
Qed.

Lemma validate_group_capability_Ok group cap cp :
  validate_group_capability group cap = Ok cp <-> grammar cap /\ cp = MkCapabilityPattern cap.
Proof.
  unfold validate_group_capability. rewrite <- CapabilityPattern_new_Ok.
  destruct (CapabilityPattern_new cap) as [|[]]; naive_solver.
Qed.

Lemma validate_group_name_Ok name gn :
  validate_group_name name = Ok gn <-> group_name_wf name /\ gn = MkGroupName name.
Proof. unfold validate_group_name. by rewrite map_err_Ok, GroupName_new_Ok. Qed.

(** A list of capabilities passes a check of the form "grammar, and [*]
    only if [b]" exactly when both hold of the whole list. *)
Lemma caps_checked (b : Prop) caps :
  Forall (fun cap => grammar cap /\ (cap = "*" -> b)) caps <->
  Forall grammar caps /\ ("*" ∈ caps -> b).
Proof.
  rewrite !Forall_forall. split.
  - intros H. split; [intros x Hx; by apply H|]. intros Hs. by apply (H _ Hs).
  - intros [Hg Hs] x Hx. split; [by apply Hg|]. intros ->. auto.
Qed.

Lemma validate_custom_group_Ok name group :
  validate_custom_group name group = Ok tt <-> group_name_wf name /\ custom_group_wf group.
Proof.
  unfold validate_custom_group, custom_group_wf. rewrite <- caps_checked, rbind_Ok.
  setoid_rewrite (try_for_iff _ (fun cap => grammar cap /\ (cap = "*" -> unsafe_admin group = true))).
  2: { intros cap. rewrite rbind_Ok. setoid_rewrite validate_group_capability_Ok.
       case_bool_decide; destruct (unsafe_admin group); simpl; naive_solver. }
  setoid_rewrite validate_group_name_Ok. naive_solver.
Qed.

Lemma validate_group_view_Ok name group v :
  validate_group_view name group = Ok v <-> group_view_wf name group /\ v = group_view group.
Proof.
  unfold validate_group_view, group_view_wf, group_view. rewrite <- caps_checked.
  set (f := fun cap => _).
  assert (Hf : forall cap cp, f cap = Ok cp <->
    (grammar cap /\ (cap = "*" -> unsafe_admin group = true \/ name = BUILTIN_ADMIN)) /\
    cp = MkCapabilityPattern cap).
  { intros cap cp. unfold f. rewrite rbind_Ok. setoid_rewrite validate_group_capability_Ok.
    split.
    - intros (cp' & [Hg ->] & H). simpl in H. inv_ok. split; [|done]. split; [done|].
      intros ->. rewrite bool_decide_true in Heqb by done.
      destruct (unsafe_admin group); [by left|]. case_bool_decide; [by right|done].
    - intros [[Hg Hs] ->]. eexists. split; [by split|]. simpl.
      case_bool_decide; [|done]. destruct (Hs ltac:(done)) as [-> | ->]; [done|].
      by rewrite (bool_decide_true (BUILTIN_ADMIN = _)), andb_false_r. }
  assert (Hmap : forall l r, try_map f l = Ok r <->
    Forall (fun cap => grammar cap /\ (cap = "*" -> unsafe_admin group = true \/ name = BUILTIN_ADMIN)) l
    /\ r = MkCapabilityPattern <$> l).
  { intros l r. rewrite try_map_Ok. split.
    - induction 1 as [|x y l' r' [Hx ->]%Hf _ [? ->]]; [done|]. by split; [constructor|].
    - intros [H ->]. induction H; simpl; constructor; [|done]. by apply Hf. }
  rewrite rbind_Ok. setoid_rewrite Hmap. naive_solver.
Qed.

Definition typed_entry (e : string * Group) : GroupName * ValidatedGroup :=
  (MkGroupName e.1, group_view e.2).

Lemma typed_loop_Ok acc entries t :
  NoDup entries.*1 -> (forall n, n ∈ entries.*1 -> acc !! MkGroupName n = None) ->
  typed_loop acc entries = Ok t <->
  Forall (fun e => group_name_wf e.1 /\ group_view_wf e.1 e.2) entries /\
  t = MkValidatedGroupConfig (list_to_map (typed_entry <$> entries) ∪ acc).
Proof.
  revert acc; induction entries as [|[raw g] rest IH]; intros acc Hnd Hacc; simpl.
  { rewrite map_empty_union. naive_solver. }
  rewrite fmap_cons in Hnd, Hacc. apply NoDup_cons in Hnd as [Hraw Hnd].
  rewrite Forall_cons, rbind_Ok. setoid_rewrite map_err_Ok. setoid_rewrite GroupName_new_Ok.
  assert (Hacc' : acc !! MkGroupName raw = None) by (apply Hacc; by left).
  assert (Hrest : typed_loop (<[MkGroupName raw := group_view g]> acc) rest = Ok t <->
    Forall (fun e => group_name_wf e.1 /\ group_view_wf e.1 e.2) rest /\
    t = MkValidatedGroupConfig
      (<[MkGroupName raw := group_view g]> (list_to_map (typed_entry <$> rest)) ∪ acc)).
  { rewrite IH; [|done|].
    - rewrite <- insert_union_r, insert_union_l; [done|]. apply not_elem_of_list_to_map_1.
      rewrite <- list_fmap_compose. intros (e & [= ->] & He)%list_elem_of_fmap.
      apply Hraw, list_elem_of_fmap. by exists e.
    - intros n Hn. rewrite lookup_insert_ne by (intros [= ->]; done). apply Hacc. by right. }
  split.
  - intros (name & [Hn ->] & (v & [Hv ->]%validate_group_view_Ok & H)%rbind_Ok).
    simpl in H. rewrite Hacc' in H. apply Hrest in H as [? ->]. naive_solver.
  - intros [[[Hn Hv] Hf] ->]. eexists. split; [done|]. simpl.
    rewrite (proj2 (validate_group_view_Ok _ _ _)) by done. simpl. rewrite Hacc'. by apply Hrest.
Qed.

(** The typed view of a whole configuration: defined exactly when every
    group is valid, never failing on a duplicate, and then a pointwise
    image of the string-shaped map. *)
Definition typed_view (c : GroupConfig) : ValidatedGroupConfig :=
  MkValidatedGroupConfig (kmap MkGroupName (group_view <$> groups c)).

Definition config_view_wf (c : GroupConfig) : Prop :=
  map_Forall (fun name group => group_name_wf name /\ group_view_wf name group) (groups c).

#[export] Instance MkGroupName_inj : Inj (=) (=) MkGroupName.
Proof. by intros ? ? [= ->]. Qed.

Lemma typed_entries_kmap (m : gmap string Group) :
  list_to_map (typed_entry <$> map_to_list m) =@{gmap GroupName ValidatedGroup}
  kmap MkGroupName (group_view <$> m).
Proof.
  unfold kmap. apply list_to_map_proper.
  - rewrite <- list_fmap_compose. apply NoDup_fmap_2_strong; [|apply NoDup_map_to_list].
    intros [n g] [n' g'] Hn Hn' [= ->]. apply elem_of_map_to_list in Hn, Hn'. simplify_eq. done.
  - rewrite map_to_list_fmap, <- list_fmap_compose. by apply Permutation_map', Permutation_refl.
Qed.

Lemma typed_Ok c t : typed c = Ok t <-> config_view_wf c /\ t = typed_view c.
Proof.
  unfold typed, config_view_wf, typed_view. rewrite typed_loop_Ok.
  - rewrite map_Forall_to_list, map_union_empty, typed_entries_kmap.
    assert (Hiff : forall l : list (string * Group),
      Forall (fun e => group_name_wf e.1 /\ group_view_wf e.1 e.2) l <->
      Forall (uncurry (fun name group => group_name_wf name /\ group_view_wf name group)) l)
      by (intros l; apply Forall_iff; by intros []).
    by rewrite Hiff.
  - apply NoDup_fst_map_to_list.
  - intros n _. apply lookup_empty.
Qed.

Lemma typed_view_get c name :
  ValidatedGroupConfig_get (typed_view c) (MkGroupName name) = group_view <$> groups c !! name.
Proof.
  unfold ValidatedGroupConfig_get, typed_view. simpl.
  by rewrite lookup_kmap, lookup_fmap by apply _.
Qed.

Lemma is_builtin_true name : is_builtin name = true <-> name ∈ builtin_entries.*1.
Proof. unfold is_builtin. by rewrite contains_spec. Qed.

Lemma builtin_entries_valid :
  Forall (fun e => group_name_wf e.1 /\ group_view_wf e.1 e.2) builtin_entries.
Proof.
  apply (typed_loop_Ok ∅ builtin_entries
           (MkValidatedGroupConfig (list_to_map (typed_entry <$> builtin_entries) ∪ ∅))).
  - by apply (bool_decide_unpack _); vm_compute.
  - intros. apply lookup_empty.
  - vm_compute. reflexivity.
Qed.

Lemma config_wf_view c : config_wf c -> config_view_wf c.
Proof.
  intros [Hb Hc] name group Hl. destruct (is_builtin name) eqn:Hn.
  - apply is_builtin_true, list_elem_of_fmap in Hn as ([n g] & -> & Hin).
    rewrite Forall_forall in Hb. specialize (Hb _ Hin). simpl in *.
    rewrite Hl in Hb. injection Hb as ->.
    by apply (proj1 (Forall_forall _ _) builtin_entries_valid (n, g)).
  - destruct (Hc _ _ Hl Hn) as (? & ? & ?). split; [done|]. split; [done|]. auto.
Qed.

Lemma config_wf_typed c : config_wf c -> typed c = Ok (typed_view c).
Proof. intros H%config_wf_view. by apply typed_Ok. Qed.

(** Operations on names other than the built-ins leave the built-ins alone. *)
Lemma wf_builtins_ne (m m' : gmap string Group) name :
  is_builtin name = false -> (forall n, n <> name -> m' !! n = m !! n) ->
  Forall (fun e => m !! e.1 = Some e.2) builtin_entries ->
  Forall (fun e => m' !! e.1 = Some e.2) builtin_entries.
Proof.
  intros Hn Hm H. rewrite Forall_forall in *. intros e He. rewrite Hm; [by apply H|].
  intros <-. apply not_true_iff_false in Hn. apply Hn, is_builtin_true.
  apply list_elem_of_fmap. eauto.
Qed.

Lemma config_wf_insert c name group :
  config_wf c -> is_builtin name = false -> group_name_wf name -> custom_group_wf group ->
  config_wf (MkGroupConfig (<[name := group]> (groups c))).
Proof.
  intros [Hb Hc] Hn Hw Hg. split; simpl.
  - apply (wf_builtins_ne (groups c) _ name); [done| |done].
    intros n Hne. by apply lookup_insert_ne.
  - intros n g [[-> ->]|[Hne Hl]]%lookup_insert_Some; [done|]. by apply Hc.
Qed.

Lemma config_wf_delete c name :
  config_wf c -> is_builtin name = false ->
  config_wf (MkGroupConfig (delete name (groups c))).
Proof.
  intros [Hb Hc] Hn. split; simpl.
  - apply (wf_builtins_ne (groups c) _ name); [done| |done].
    intros n Hne. by apply lookup_delete_ne.
  - intros n g [Hne Hl]%lookup_delete_Some. by apply Hc.
Qed.

(** Inserting a list of entries with distinct names. *)
Lemma insert_all_lookup m entries name :
  NoDup entries.*1 ->
  insert_all m entries !! name =
  match (list_to_map entries : gmap string Group) !! name with Some g => Some g | None => m !! name end.
Proof.
  unfold insert_all. revert m; induction entries as [|[n g] rest IH]; intros m; simpl.
  { by rewrite lookup_empty. }
  intros [Hn Hnd]%NoDup_cons. rewrite IH by done.
  destruct (decide (n = name)) as [->|Hne].
  - rewrite lookup_insert_eq, (not_elem_of_list_to_map_1 _ name) by done. by rewrite lookup_insert_eq.
  - by rewrite !(lookup_insert_ne _ n name) by done.
Qed.

Lemma builtin_only_wf : config_wf builtin_only.
Proof.
  split.
  - apply (bool_decide_unpack _). vm_compute. exact I.
  - intros name group Hl Hn. exfalso.
    change (groups builtin_only) with (insert_all ∅ builtin_entries) in Hl.
    rewrite insert_all_lookup in Hl by (apply (bool_decide_unpack _); vm_compute; exact I).
    rewrite lookup_empty in Hl. destruct (list_to_map _ !! name) eqn:Hm; [|done].
    apply elem_of_list_to_map_2 in Hm. apply not_true_iff_false in Hn. apply Hn.
    apply is_builtin_true, list_elem_of_fmap. by exists (name, g).
Qed.

Lemma validate_custom_loop_Ok seen entries :
  NoDup entries.*1 -> (forall n, n ∈ entries.*1 -> n ∉ seen) ->
  validate_custom_loop seen entries = Ok tt <->
  Forall (fun e => group_name_wf e.1 /\ custom_group_wf e.2) entries.
Proof.
  revert seen; induction entries as [|[n g] rest IH]; intros seen Hnd Hseen; simpl; [done|].
  rewrite fmap_cons in Hnd, Hseen. apply NoDup_cons in Hnd as [Hn Hnd].
  rewrite bool_decide_false by (apply Hseen; by left).
  rewrite rbind_Ok, Forall_cons. simpl. rewrite <- validate_custom_group_Ok, <- (IH ({[n]} ∪ seen)).
  - split; [intros ([] & ? & ?); done|]. intros [? ?]. by exists tt.
  - done.
  - intros x Hx. apply not_elem_of_union. split.
    + intros ->%elem_of_singleton. done.
    + apply Hseen. by right.
Qed.

(** The loader succeeds exactly when no custom group takes a built-in
    name and each is valid, and then the result is the custom groups on top
    of the built-ins. *)
Lemma from_custom_groups_Ok custom c :
  from_custom_groups custom = Ok c <->
  map_Forall (fun name group =>
    is_builtin name = false /\ group_name_wf name /\ custom_group_wf group) custom /\
  c = MkGroupConfig (insert_all (insert_all ∅ builtin_entries) (map_to_list custom)).
Proof.
  unfold from_custom_groups. rewrite rbind_Ok.
  assert (Hkeys : forall l : list (string * Group),
    try_for (fun name => if is_builtin name then Err (RedefinedBuiltin name)
      else let? _ := validate_group_name name in Ok tt) l.*1 = Ok tt <->
    Forall (fun e => is_builtin e.1 = false /\ group_name_wf e.1) l).
  { intros l. rewrite try_for_Ok, Forall_fmap. apply Forall_iff. intros [n g]. simpl.
    destruct (is_builtin n); [naive_solver|]. rewrite rbind_Ok.
    setoid_rewrite validate_group_name_Ok. naive_solver. }
  set (config := MkGroupConfig (insert_all _ _)).
  assert (Hwf : map_Forall (fun name group =>
      is_builtin name = false /\ group_name_wf name /\ custom_group_wf group) custom <->
    Forall (fun e => is_builtin e.1 = false /\ group_name_wf e.1) (map_to_list custom) /\
    Forall (fun e => group_name_wf e.1 /\ custom_group_wf e.2) (map_to_list custom)).
  { rewrite map_Forall_to_list, <- Forall_and. apply Forall_iff. intros []; simpl; naive_solver. }
  rewrite Hwf, <- Hkeys, <- (validate_custom_loop_Ok ∅);
    [|apply NoDup_fst_map_to_list|intros; apply not_elem_of_empty].
  split.
  - intros ([] & Hk & ([] & Hv & (t & Ht & Hc)%rbind_Ok)%rbind_Ok). by simplify_eq.
  - intros [[Hk Hv] ->]. exists tt. split; [done|]. rewrite Hv. simpl.
    assert (Hcfg : config_view_wf config); [|by rewrite (proj2 (typed_Ok config _) (conj Hcfg eq_refl))].
    intros name group Hl. subst config. cbn [groups] in Hl.
    rewrite insert_all_lookup in Hl by apply NoDup_fst_map_to_list. rewrite list_to_map_to_list in Hl.
    destruct (custom !! name) as [g|] eqn:Hcu.
    + simplify_eq. apply validate_custom_loop_Ok in Hv;
        [|apply NoDup_fst_map_to_list|intros; apply not_elem_of_empty].
      rewrite Forall_forall in Hv. apply elem_of_map_to_list in Hcu.
      destruct (Hv _ Hcu) as (? & ? & ?). split; [done|]. split; [done|]. auto.
    + by apply (config_wf_view _ builtin_only_wf).
Qed.

Lemma from_custom_groups_wf custom c : from_custom_groups custom = Ok c -> config_wf c.
Proof.
  intros [Hc ->]%from_custom_groups_Ok. split.
  - destruct builtin_only_wf as [Hb _]. rewrite Forall_forall in *. intros e He. cbn [groups].
    rewrite insert_all_lookup by apply NoDup_fst_map_to_list. rewrite list_to_map_to_list.
    destruct (custom !! e.1) as [g|] eqn:Hcu; [|by apply (Hb e He)].
    destruct (Hc _ _ Hcu) as [Hbf _]. apply not_true_iff_false in Hbf. destruct Hbf.
    apply is_builtin_true, list_elem_of_fmap. eauto.
  - intros name group Hl Hn. cbn [groups] in Hl.
    rewrite insert_all_lookup in Hl by apply NoDup_fst_map_to_list. rewrite list_to_map_to_list in Hl.
    destruct (custom !! name) as [g|] eqn:Hcu.
    + simplify_eq. by apply (Hc _ _ Hcu).
    + by apply (wf_custom _ builtin_only_wf).
Qed.

Lemma insert_custom_group_Ok c name group c' :
  config_wf c ->
  insert_custom_group c name group = Ok c' <->
  (is_builtin name = false /\ group_name_wf name /\ groups c !! name = None /\
   custom_group_wf group) /\
  c' = MkGroupConfig (<[name := group]> (groups c)).
Proof.
  intros Hwf. unfold insert_custom_group. destruct (is_builtin name) eqn:Hb; [naive_solver|].
  rewrite rbind_Ok. setoid_rewrite validate_group_name_Ok. split.
  - intros (gn & [Hn ->] & H). inv_ok. bool_prop.
    apply validate_custom_group_Ok in H0 as [_ Hg]. by rewrite eq_None_not_Some.
  - intros [(_ & Hn & Hl & Hg) ->]. exists (MkGroupName name). split; [done|].
    rewrite bool_decide_false by (by apply eq_None_not_Some).
    rewrite (proj2 (validate_custom_group_Ok _ _)) by done. simpl.
    by rewrite (config_wf_typed _ (config_wf_insert c name group Hwf Hb Hn Hg)).
Qed.

Lemma modify_custom_group_Ok c name caps desc flag c' :
  config_wf c ->
  modify_custom_group c name caps desc flag = Ok c' <->
  exists existing,
    is_builtin name = false /\ groups c !! name = Some existing /\
    custom_group_wf (apply_group_patch existing caps desc flag) /\
    c' = MkGroupConfig (<[name := apply_group_patch existing caps desc flag]> (groups c)).
Proof.
  intros Hwf. unfold modify_custom_group. destruct (is_builtin name) eqn:Hb; [naive_solver|].
  rewrite rbind_Ok. setoid_rewrite validate_group_name_Ok. split.
  - intros (gn & [Hn ->] & H). inv_ok.
    apply validate_custom_group_Ok in H1 as [_ Hg]. naive_solver.
  - intros (existing & _ & Hl & Hg & ->). destruct (wf_custom _ Hwf _ _ Hl Hb) as [Hn _].
    exists (MkGroupName name). split; [done|]. rewrite Hl. simpl.
    rewrite (proj2 (validate_custom_group_Ok _ _)) by done. simpl.
    by rewrite (config_wf_typed _ (config_wf_insert c name _ Hwf Hb Hn Hg)).
Qed.

Lemma remove_group_Ok c name c' :
  config_wf c ->
  remove_group c name = Ok c' <->
  is_builtin name = false /\ is_Some (groups c !! name) /\
  c' = MkGroupConfig (delete name (groups c)).
Proof.
  intros Hwf. unfold remove_group. destruct (is_builtin name) eqn:Hb; [naive_solver|].
  rewrite rbind_Ok. setoid_rewrite validate_group_name_Ok. split.
  - intros (gn & _ & H). inv_ok. by bool_prop.
  - intros (_ & [g Hg] & ->). destruct (wf_custom _ Hwf _ _ Hg Hb) as [Hn _].
    exists (MkGroupName name). split; [done|]. by rewrite bool_decide_true by eauto.
Qed.

(** Configurations the daemon can hold: the built-ins, a loaded
    [groups.toml], and any sequence of admin mutations from there. *)
Inductive reachable_config : GroupConfig -> Prop :=
| reach_builtin : reachable_config builtin_only
| reach_loaded custom c : from_custom_groups custom = Ok c -> reachable_config c
| reach_insert c name group c' :
    reachable_config c -> insert_custom_group c name group = Ok c' -> reachable_config c'
| reach_modify c name caps desc flag c' :
    reachable_config c -> modify_custom_group c name caps desc flag = Ok c' -> reachable_config c'
| reach_remove c name c' :
    reachable_config c -> remove_group c name = Ok c' -> reachable_config c'.

Lemma reachable_wf c : reachable_config c -> config_wf c.
Proof.
  induction 1 as [|custom c H|c name g c' _ IH H|c name caps desc flag c' _ IH H|c name c' _ IH H].
  - apply builtin_only_wf.
  - by eapply from_custom_groups_wf.
  - apply insert_custom_group_Ok in H as [(? & ? & ? & ?) ->]; [|done].
    by apply config_wf_insert.
  - apply modify_custom_group_Ok in H as (g & Hb & Hl & ? & ->); [|done].
    apply config_wf_insert; try done. by apply (wf_custom _ IH _ _ Hl Hb).
  - apply remove_group_Ok in H as (? & ? & ->); [|done]. by apply config_wf_delete.
Qed.

(** ** Properties *)

(** every group configuration the daemon can reach, from the built-ins
    or from any loaded file by any sequence of insertions, modifications and
    removals, still holds the three built-in groups unmodified, contains only
    valid custom groups, never grants [*] to a custom group without
    [unsafe_admin], and always has a typed view. *)
Theorem reachable_config_invariant : forall c,
  reachable_config c -> config_wf c /\ typed c = Ok (typed_view c).
Proof. intros c H%reachable_wf. split; [done|]. by apply config_wf_typed. Qed.

Definition ops_group : Group := MkGroup ["capsule:reload"; "audit:*"] None false.

Lemma reachable_config_invariant_witness :
  exists c, insert_custom_group builtin_only "ops" ops_group = Ok c /\
    config_wf c /\ groups c !! "ops" = Some ops_group.
Proof.
  eexists. assert (insert_custom_group builtin_only "ops" ops_group =
    Ok (MkGroupConfig (<["ops" := ops_group]> (groups builtin_only)))) as E
    by (vm_compute; reflexivity).
  split; [exact E|]. split; [|reflexivity].
  exact (proj1 (reachable_config_invariant _ (reach_insert _ _ _ _ reach_builtin E))).
Defined.

(** A validly named group that does not exist is unknown to both updates. *)
Lemma unknown_group c name caps desc flag :
  is_builtin name = false -> group_name_wf name -> groups c !! name = None ->
  modify_custom_group c name caps desc flag = Err (UnknownGroup name) /\
  remove_group c name = Err (UnknownGroup name).
Proof.
  intros Hb Hn Hl. unfold modify_custom_group, remove_group.
  rewrite Hb, (proj2 (validate_group_name_Ok name _) (conj Hn eq_refl)). cbn [rbind].
  by rewrite Hl.
Qed.

(** from a valid configuration the admin mutations succeed exactly when
    they should and then change exactly the named group: insertion of a
    fresh, validly named, valid custom group; modification of an existing
    custom group into a valid one, fields left out being preserved; removal
    of an existing custom group.  No built-in is ever touched, and updating or
    removing a validly named group that does not exist is refused as unknown. *)
Theorem group_mutations_exact : forall c,
  config_wf c ->
  (forall name group c',
    insert_custom_group c name group = Ok c' <->
    (is_builtin name = false /\ group_name_wf name /\ groups c !! name = None /\
     custom_group_wf group) /\
    c' = MkGroupConfig (<[name := group]> (groups c))) /\
  (forall name caps desc flag c',
    modify_custom_group c name caps desc flag = Ok c' <->
    exists existing,
      is_builtin name = false /\ groups c !! name = Some existing /\
      custom_group_wf (apply_group_patch existing caps desc flag) /\
      c' = MkGroupConfig (<[name := apply_group_patch existing caps desc flag]> (groups c))) /\
  (forall name c',
    remove_group c name = Ok c' <->
    is_builtin name = false /\ is_Some (groups c !! name) /\
    c' = MkGroupConfig (delete name (groups c))) /\
  (forall name caps desc flag,
    is_builtin name = false -> group_name_wf name -> groups c !! name = None ->
    modify_custom_group c name caps desc flag = Err (UnknownGroup name) /\
    remove_group c name = Err (UnknownGroup name)).
Proof.
  intros c Hwf. split_and!; intros.
  - by apply insert_custom_group_Ok.
  - by apply modify_custom_group_Ok.
  - by apply remove_group_Ok.
  - by apply unknown_group.
Qed.

Lemma group_mutations_exact_witness :
  config_wf builtin_only /\
  forall c', remove_group builtin_only "admin" <> Ok c'.
Proof.
  split; [exact builtin_only_wf|]. intros c' H.
  destruct (proj1 (proj1 (proj2 (proj2 (group_mutations_exact _ builtin_only_wf))) _ _) H) as [E _].
  vm_compute in E. discriminate E.
Defined.
