(* ===== verification/Policy.v ===== *)
(** * The capability check

    [crates/astrid-capabilities/src/policy.rs]: [CapabilityCheck] evaluates a
    principal's profile against the group configuration, under an optional
    device-scope floor, and [device_scope_within] is the issuer check of
    device pairing.  The declarative side is [holds], [revoked] and
    [scope_admits], stated on the untyped records. *)

From S2P Require Import Prelude CapabilityGrammar Profile Groups.
From Stdlib Require Import Ascii.
Local Open Scope string_scope.
Local Open Scope list_scope.

Inductive PermissionError : Type :=
| MissingCapability (principal : PrincipalId) (required : string)
| RevokedCapability (principal : PrincipalId) (required revoke_pattern : string)
| PrincipalDisabled (principal : PrincipalId)
| DeviceScopeDenied (principal : PrincipalId) (required : string).

#[export] Instance PermissionError_eq_dec : EqDecision PermissionError.
Proof. solve_decision. Defined.

Record CapabilityCheck : Type := MkCapabilityCheck {
  cc_profile : result ValidatedProfileFields ProfileError;
  cc_groups : result ValidatedGroupConfig GroupConfigError;
  cc_principal : PrincipalId;
  cc_device_scope : option DeviceScope;
}.

Definition CapabilityCheck_new (profile : PrincipalProfile) (config : GroupConfig)
    (principal : PrincipalId) : CapabilityCheck :=
  MkCapabilityCheck (typed_fields profile) (typed config) principal None.

Definition with_device_scope (self : CapabilityCheck) (scope : DeviceScope) : CapabilityCheck :=
  MkCapabilityCheck (cc_profile self) (cc_groups self) (cc_principal self) (Some scope).

Definition matches_any (patterns : list string) (cap : string) : bool :=
  existsb (fun p => capability_matches p cap) patterns.

Definition first_matching_revoke (profile : ValidatedProfileFields) (cap : string)
    : option string :=
  List.find (fun p => capability_matches p cap) (cp_str <$> vf_revokes profile).

(** The [for name in &profile.groups] loop. *)
Fixpoint groups_loop (config : ValidatedGroupConfig) (names : list GroupName) (cap : string)
    : bool :=
  match names with
  | [] => false
  | name :: rest =>
      match ValidatedGroupConfig_get config name with
      | None => groups_loop config rest cap
      | Some group =>
          if matches_any (cp_str <$> vg_capabilities group) cap then true
          else groups_loop config rest cap
      end
  end.

Definition holds_via_groups (self : CapabilityCheck) (profile : ValidatedProfileFields)
    (cap : string) : bool :=
  match cc_groups self with
  | Err _ => false
  | Ok config => groups_loop config (vf_groups profile) cap
  end.

Definition principal_has (self : CapabilityCheck) (profile : ValidatedProfileFields)
    (cap : string) : bool :=
  if matches_any (cp_str <$> vf_revokes profile) cap then false
  else if matches_any (cp_str <$> vf_grants profile) cap then true
  else holds_via_groups self profile cap.

Definition device_scope_admits (self : CapabilityCheck) (cap : string) : bool :=
  match cc_device_scope self with
  | None | Some ScopeFull => true
  | Some (ScopeScoped allow deny) => matches_any allow cap && negb (matches_any deny cap)
  end.

Definition has (self : CapabilityCheck) (cap : string) : bool :=
  match cc_profile self with
  | Err _ => false
  | Ok profile =>
      if negb (principal_has self profile cap) then false
      else device_scope_admits self cap
  end.

Definition require (self : CapabilityCheck) (cap : string) : result unit PermissionError :=
  match cc_profile self with
  | Err _ => Err (MissingCapability (cc_principal self) cap)
  | Ok profile =>
      match first_matching_revoke profile cap with
      | Some revoke => Err (RevokedCapability (cc_principal self) cap revoke)
      | None =>
          let principal_holds :=
            matches_any (cp_str <$> vf_grants profile) cap || holds_via_groups self profile cap in
          if negb principal_holds then Err (MissingCapability (cc_principal self) cap)
          else if negb (device_scope_admits self cap)
          then Err (DeviceScopeDenied (cc_principal self) cap)
          else Ok tt
      end
  end.

Definition device_scope_within (issuer_check : CapabilityCheck) (requested : DeviceScope)
    : result unit PermissionError :=
  match requested with
  | ScopeFull => Ok tt
  | ScopeScoped allow _ =>
      try_for (fun pattern =>
        if negb (has issuer_check pattern)
        then Err (MissingCapability (cc_principal issuer_check) pattern)
        else Ok tt) allow
  end.

(** ** Specification *)

Definition matches_some (patterns : list string) (cap : string) : Prop :=
  exists p, p ∈ patterns /\ capability_matches p cap = true.

Definition fields_wf (p : PrincipalProfile) : Prop :=
  Forall group_name_wf (pp_groups p) /\ Forall grammar (pp_grants p) /\
  Forall grammar (pp_revokes p) /\ Forall capsule_grant_wf (pp_capsules p).

Definition revoked (p : PrincipalProfile) (cap : string) : Prop :=
  matches_some (pp_revokes p) cap.

(** Held through a direct grant or through a group that exists. *)
Definition group_holds (p : PrincipalProfile) (g : GroupConfig) (cap : string) : Prop :=
  config_view_wf g /\
  exists name group,
    name ∈ pp_groups p /\ groups g !! name = Some group /\ matches_some (capabilities group) cap.

Definition holds (p : PrincipalProfile) (g : GroupConfig) (cap : string) : Prop :=
  matches_some (pp_grants p) cap \/ group_holds p g cap.

Definition scope_admits (s : DeviceScope) (cap : string) : Prop :=
  match s with
  | ScopeFull => True
  | ScopeScoped allow deny => matches_some allow cap /\ ~ matches_some deny cap
  end.

Definition floor_admits (s : option DeviceScope) (cap : string) : Prop :=
  match s with
  | None => True
  | Some s => scope_admits s cap
  end.

(** A check under an optional device floor, as the request router builds it. *)
Definition check_under (p : PrincipalProfile) (g : GroupConfig) (pr : PrincipalId)
    (s : option DeviceScope) : CapabilityCheck :=
  match s with
  | None => CapabilityCheck_new p g pr
  | Some scope => with_device_scope (CapabilityCheck_new p g pr) scope
  end.

(** ** Lemmas *)

Lemma matches_any_true patterns cap : matches_any patterns cap = true <-> matches_some patterns cap.
Proof.
  unfold matches_any, matches_some. rewrite existsb_exists.
  by setoid_rewrite list_elem_of_In.
Qed.

Lemma matches_any_false patterns cap :
  matches_any patterns cap = false <-> ~ matches_some patterns cap.
Proof. by rewrite <- matches_any_true, not_true_iff_false. Qed.

#[export] Instance matches_some_dec patterns cap : Decision (matches_some patterns cap).
Proof.
  refine (cast_if (decide (matches_any patterns cap = true))); by rewrite <- matches_any_true.
Defined.

(** Patterns are upward closed: what a pattern of the list covers as a
    string, it covers as a set of capabilities. *)
Lemma matches_some_trans patterns p cap :
  matches_some patterns p -> capability_matches p cap = true -> matches_some patterns cap.
Proof. intros (q & Hq & Hm) Hp. exists q. split; [done|]. by eapply capability_matches_trans. Qed.

Lemma cp_str_fmap (l : list string) : cp_str <$> (MkCapabilityPattern <$> l) = l.
Proof. rewrite <- list_fmap_compose. apply list_fmap_id. Qed.

Lemma groups_loop_true g names cap :
  groups_loop (typed_view g) (MkGroupName <$> names) cap = true <->
  exists name group,
    name ∈ names /\ groups g !! name = Some group /\ matches_some (capabilities group) cap.
Proof.
  induction names as [|n names IH]; [simpl; set_solver|].
  rewrite fmap_cons. cbn [groups_loop]. rewrite typed_view_get.
  destruct (groups g !! n) as [grp|] eqn:Hn; cbn [fmap option_fmap option_map].
  - unfold group_view at 1. cbn [vg_capabilities]. rewrite cp_str_fmap.
    destruct (matches_any (capabilities grp) cap) eqn:Hm.
    + apply matches_any_true in Hm. split; [intros _|done]. exists n, grp. set_solver.
    + apply matches_any_false in Hm. rewrite IH. split.
      * intros (name & group & ? & ? & ?). exists name, group. set_solver.
      * intros (name & group & [->|?]%elem_of_cons & ? & ?); [by simplify_eq|]. eauto.
  - rewrite IH. split.
    + intros (name & group & ? & ? & ?). exists name, group. set_solver.
    + intros (name & group & [->|?]%elem_of_cons & ? & ?); [by simplify_eq|]. eauto.
Qed.

Lemma typed_Err c e : typed c = Err e -> ~ config_view_wf c.
Proof. intros H Hwf. by rewrite (proj2 (typed_Ok c _) (conj Hwf eq_refl)) in H. Qed.

Lemma typed_fields_Err p e : typed_fields p = Err e -> ~ fields_wf p.
Proof.
  intros H Hwf. by rewrite (proj2 (typed_fields_Ok p _) (conj Hwf eq_refl)) in H.
Qed.

Section Check.
Context (p : PrincipalProfile) (g : GroupConfig) (pr : PrincipalId) (s : option DeviceScope).
Abbreviation cc := (check_under p g pr s).

Lemma check_profile : cc_profile cc = typed_fields p.
Proof. by destruct s. Qed.
Lemma check_groups : cc_groups cc = typed g.
Proof. by destruct s. Qed.
Lemma check_principal : cc_principal cc = pr.
Proof. by destruct s. Qed.

Lemma holds_via_groups_true vf cap :
  typed_fields p = Ok vf -> holds_via_groups cc vf cap = true <-> group_holds p g cap.
Proof.
  intros [_ ->]%typed_fields_Ok. unfold holds_via_groups, group_holds. rewrite check_groups.
  destruct (typed g) as [t|e] eqn:Ht.
  - apply typed_Ok in Ht as [Hwf ->]. cbn [vf_groups]. rewrite groups_loop_true. naive_solver.
  - apply typed_Err in Ht. naive_solver.
Qed.

Lemma device_scope_admits_true cap : device_scope_admits cc cap = true <-> floor_admits s cap.
Proof.
  unfold device_scope_admits, floor_admits, scope_admits.
  destruct s as [[|allow deny]|]; simpl; [done| |done].
  by rewrite andb_true_iff, negb_true_iff, matches_any_true, matches_any_false.
Qed.

Lemma first_matching_revoke_None vf cap :
  typed_fields p = Ok vf -> first_matching_revoke vf cap = None <-> ~ revoked p cap.
Proof.
  intros [_ ->]%typed_fields_Ok. unfold first_matching_revoke, revoked. simpl.
  rewrite cp_str_fmap, find_None_Forall, Forall_forall. unfold matches_some.
  setoid_rewrite <- not_true_iff_false. naive_solver.
Qed.

Lemma first_matching_revoke_Some vf cap r :
  typed_fields p = Ok vf -> first_matching_revoke vf cap = Some r ->
  r ∈ pp_revokes p /\ capability_matches r cap = true.
Proof.
  intros [_ ->]%typed_fields_Ok. unfold first_matching_revoke. simpl. rewrite cp_str_fmap.
  intros [Hin Hm]%List.find_some. by rewrite list_elem_of_In.
Qed.

Lemma grants_any vf cap :
  typed_fields p = Ok vf ->
  matches_any (cp_str <$> vf_grants vf) cap = true <-> matches_some (pp_grants p) cap.
Proof. intros [_ ->]%typed_fields_Ok. simpl. by rewrite cp_str_fmap, matches_any_true. Qed.

Lemma revokes_any vf cap :
  typed_fields p = Ok vf ->
  matches_any (cp_str <$> vf_revokes vf) cap = true <-> revoked p cap.
Proof. intros [_ ->]%typed_fields_Ok. simpl. by rewrite cp_str_fmap, matches_any_true. Qed.

Lemma has_true cap :
  has cc cap = true <-> fields_wf p /\ ~ revoked p cap /\ holds p g cap /\ floor_admits s cap.
Proof.
  unfold has, principal_has, holds. rewrite check_profile.
  destruct (typed_fields p) as [vf|e] eqn:Hf; [|apply typed_fields_Err in Hf; naive_solver].
  assert (Hwf : fields_wf p) by (by apply typed_fields_Ok in Hf as [? _]).
  rewrite <- device_scope_admits_true, <- (holds_via_groups_true vf cap Hf), <- (grants_any vf cap Hf),
    <- (revokes_any vf cap Hf).
  destruct (matches_any (cp_str <$> vf_revokes vf) cap); [naive_solver|].
  destruct (matches_any (cp_str <$> vf_grants vf) cap), (holds_via_groups cc vf cap); naive_solver.
Qed.

End Check.

Lemma holds_trans p g q cap :
  holds p g q -> capability_matches q cap = true -> holds p g cap.
Proof.
  intros [H|(Hwf & name & group & Hn & Hl & H)] Hm.
  - left. by eapply matches_some_trans.
  - right. split; [done|]. exists name, group. split_and!; try done. by eapply matches_some_trans.
Qed.

Lemma device_scope_within_Ok cc requested :
  device_scope_within cc requested = Ok tt <->
  match requested with
  | ScopeFull => True
  | ScopeScoped allow _ => Forall (fun q => has cc q = true) allow
  end.
Proof.
  destruct requested as [|allow deny]; simpl; [done|]. rewrite try_for_Ok. apply Forall_iff.
  intros q. destruct (has cc q); naive_solver.
Qed.

(** Every outcome of [require], by cause. *)
Lemma require_outcomes : forall p g pr s cap,
  let c := check_under p g pr s in
  (require c cap = Ok tt <-> has c cap = true) /\
  (require c cap = Err (MissingCapability pr cap) <->
     ~ fields_wf p \/ (~ revoked p cap /\ ~ holds p g cap)) /\
  ((exists r, require c cap = Err (RevokedCapability pr cap r) /\
              r ∈ pp_revokes p /\ capability_matches r cap = true) <->
     fields_wf p /\ revoked p cap) /\
  (require c cap = Err (DeviceScopeDenied pr cap) <->
     fields_wf p /\ ~ revoked p cap /\ holds p g cap /\ ~ floor_admits s cap).
Proof.
  intros p g pr s cap c. unfold c. rewrite has_true.
  unfold require. rewrite check_profile, check_principal.
  destruct (typed_fields p) as [vf|e] eqn:Hf; [|apply typed_fields_Err in Hf; naive_solver].
  assert (Hwf : fields_wf p) by (by apply typed_fields_Ok in Hf as [? _]).
  unfold holds. rewrite <- (device_scope_admits_true p g pr s).
  rewrite <- (holds_via_groups_true p g pr s vf cap Hf), <- (grants_any p vf cap Hf).
  destruct (first_matching_revoke vf cap) as [r|] eqn:Hr.
  - pose proof (first_matching_revoke_Some p vf cap r Hf Hr) as [Hin Hm].
    assert (Hrev : revoked p cap) by (exists r; done). naive_solver.
  - apply (first_matching_revoke_None p vf cap Hf) in Hr.
    destruct (matches_any (cp_str <$> vf_grants vf) cap),
      (holds_via_groups (check_under p g pr s) vf cap),
      (device_scope_admits (check_under p g pr s) cap); naive_solver.
Qed.

(** ** Properties *)

(** C10: the check allows a capability exactly when the profile's typed
    fields are valid, no revoke pattern covers the capability, a grant or a
    capability of an existing group the principal belongs to covers it, and
    the authenticating device's scope admits it.  In particular revokes beat
    grants and groups, unknown groups confer nothing, and an invalid profile
    or an invalid group configuration fails closed. *)
Theorem has_decision : forall p g pr s cap,
  has (check_under p g pr s) cap = true <->
  fields_wf p /\ ~ revoked p cap /\ holds p g cap /\ floor_admits s cap.
Proof. exact has_true. Qed.

(** [require] agrees with [has], and each refusal is reported as
    exactly one of its causes: a revoke pattern that covers the capability,
    the capability not being held (or an invalid profile), or the device
    scope not admitting a capability the principal does hold. *)
Theorem require_classifies : forall p g pr s cap,
  let c := check_under p g pr s in
  (require c cap = Ok tt <-> has c cap = true) /\
  (require c cap = Err (MissingCapability pr cap) <->
     ~ fields_wf p \/ (~ revoked p cap /\ ~ holds p g cap)) /\
  ((exists r, require c cap = Err (RevokedCapability pr cap r) /\
              r ∈ pp_revokes p /\ capability_matches r cap = true) <->
     fields_wf p /\ revoked p cap) /\
  (require c cap = Err (DeviceScopeDenied pr cap) <->
     fields_wf p /\ ~ revoked p cap /\ holds p g cap /\ ~ floor_admits s cap).
Proof. exact require_outcomes. Qed.

(** The device floor only narrows.  Under any scope the check allows no
    more than without one, a full scope changes nothing, and what it allows
    is the unattenuated decision intersected with the scope. *)
Lemma device_floor_narrows : forall p g pr s cap,
  has (with_device_scope (CapabilityCheck_new p g pr) s) cap =
  has (CapabilityCheck_new p g pr) cap &&
  match s with
  | ScopeFull => true
  | ScopeScoped allow deny => matches_any allow cap && negb (matches_any deny cap)
  end.
Proof.
  intros p g pr s cap. apply eq_true_iff_eq. rewrite andb_true_iff.
  change (with_device_scope (CapabilityCheck_new p g pr) s) with (check_under p g pr (Some s)).
  change (CapabilityCheck_new p g pr) with (check_under p g pr None).
  rewrite !has_true. destruct s as [|allow deny]; simpl; [naive_solver|].
  rewrite andb_true_iff, negb_true_iff, matches_any_true, matches_any_false. naive_solver.
Qed.

(** under every configuration the daemon can reach, a member of the
    built-in [admin] group with a well-formed profile holds every capability
    that no revoke covers, and a member of [restricted] alone, with no direct
    grants, holds none. *)
Theorem builtin_group_authority : forall p g pr cap,
  reachable_config g -> fields_wf p ->
  (BUILTIN_ADMIN ∈ pp_groups p ->
     has (CapabilityCheck_new p g pr) cap = true <-> ~ revoked p cap) /\
  (pp_groups p = [BUILTIN_RESTRICTED] -> pp_grants p = [] ->
     has (CapabilityCheck_new p g pr) cap = false).
Proof.
  intros p g pr cap Hg Hf. change (CapabilityCheck_new p g pr) with (check_under p g pr None).
  apply reachable_wf in Hg as Hwf. pose proof (wf_builtins _ Hwf) as Hb.
  rewrite Forall_forall in Hb. split.
  - intros Ha. rewrite has_true. split; [naive_solver|]. intros Hr. split_and!; try done.
    right. split; [by apply config_wf_view|]. exists BUILTIN_ADMIN. eexists.
    split; [done|]. split; [eapply (Hb (BUILTIN_ADMIN, _)); by left|].
    exists "*". split; [by left|done].
  - intros Hgr Hgs. apply not_true_iff_false. rewrite has_true. intros (_ & _ & H & _).
    unfold holds, matches_some in H. rewrite Hgs in H.
    destruct H as [(? & []%elem_of_nil & _)|(_ & name & group & Hn & Hl & q & Hq & _)].
    rewrite Hgr in Hn. apply list_elem_of_singleton in Hn as ->.
    assert (groups g !! BUILTIN_RESTRICTED = Some (MkGroup [] (Some
      "Built-in restricted — no implicit capabilities; grants must be explicit") false)) as E
      by (apply (Hb (BUILTIN_RESTRICTED, _)); right; right; by left).
    rewrite E in Hl. injection Hl as <-. by apply elem_of_nil in Hq.
Qed.

Definition admin_profile : PrincipalProfile :=
  MkPrincipalProfile 1 true [BUILTIN_ADMIN] [] ["system:shutdown"] []
    (MkAuthConfig [] []) (MkNetworkConfig [] ∅) (MkApprovalsConfig []) (MkProcessConfig [])
    Quotas_default.

Lemma builtin_group_authority_witness :
  has (CapabilityCheck_new admin_profile builtin_only PrincipalId_default) "agent:create" = true.
Proof.
  refine (proj2 (proj1 (builtin_group_authority admin_profile builtin_only PrincipalId_default
    "agent:create" reach_builtin _) _) _).
  - apply (typed_fields_Ok admin_profile (MkValidatedProfileFields [MkGroupName "admin"] []
      [MkCapabilityPattern "system:shutdown"] [])). vm_compute. reflexivity.
  - left.
  - apply (proj1 (matches_any_false _ _)). vm_compute. reflexivity.
Defined.
