(* ===== verification/Kv.v ===== *)
(** * Key-value storage

    [crates/astrid-storage/src/kv/mod.rs] (name validation, composite keys,
    range bounds and the [KvStore] trait), [kv/batch.rs] (bounded, canonical
    conditional batches) and [kv/memory.rs] (the in-memory backend).

    The trait is the class [KvStore]; what a backend promises is the class
    [KvStoreLaws], stated against an abstract map from (namespace, key) to
    value.  [MemoryKvStore] is an instance.  Stored bytes are byte strings.
    The lock-poisoning errors of the in-memory backend need a panicking
    writer and are not represented. *)

From stdpp Require Import sorting.
From S2P Require Import Prelude.
From Stdlib Require Import Ascii.
Local Open Scope string_scope.
Local Open Scope list_scope.
#[local] Arguments String.append !_ _ /.

Inductive StorageError : Type :=
| NotFound (msg : string)
| Internal (msg : string)
| Connection (msg : string)
| Serialization (msg : string)
| InvalidKey (msg : string).

#[export] Instance StorageError_eq_dec : EqDecision StorageError.
Proof. solve_decision. Defined.

Definition NUL : ascii := "000".
Definition SOH : ascii := "001".

(** ** Names, composite keys and range bounds ([kv/mod.rs]) *)

Definition validate_namespace (namespace : string) : result unit StorageError :=
  if is_empty namespace then Err (InvalidKey "namespace must not be empty")
  else if contains_char NUL namespace
  then Err (InvalidKey "namespace must not contain null bytes")
  else Ok tt.

Definition validate_prefix (prefix : string) : result unit StorageError :=
  if contains_char NUL prefix then Err (InvalidKey "prefix must not contain null bytes")
  else Ok tt.

Definition validate_key (key : string) : result unit StorageError :=
  if is_empty key then Err (InvalidKey "key must not be empty")
  else if contains_char NUL key then Err (InvalidKey "key must not contain null bytes")
  else Ok tt.

Definition composite_key (namespace key : string) : string :=
  String.append namespace (String NUL key).

Definition namespace_range_start (namespace : string) : string :=
  String.append namespace (String NUL EmptyString).

Definition namespace_range_end (namespace : string) : string :=
  String.append namespace (String SOH EmptyString).

(** The [while let Some(&last) = buf.last()] loop: increment the last byte
    that is not [0xFF], dropping the [0xFF]s after it; [None] when every byte
    was [0xFF].  Stated from the front: the tail is handled first. *)
Fixpoint increment_last (buf : string) : option string :=
  match buf with
  | EmptyString => None
  | String b r =>
      match increment_last r with
      | Some r' => Some (String b r')
      | None => if (N_of_ascii b <? 255)%N
                then Some (String (ascii_of_N (N_of_ascii b + 1)) EmptyString)
                else None
      end
  end.

Definition prefix_range_end (namespace prefix : string) : string :=
  if is_empty prefix then namespace_range_end namespace
  else match increment_last (composite_key namespace prefix) with
       | Some buf => buf
       | None => namespace_range_end namespace
       end.

(** ** Conditional batches ([kv/batch.rs]) *)

Definition MAX_KV_BATCH_OPERATIONS : N := 1024.
Definition MAX_KV_BATCH_PAYLOAD_BYTES : N := 64 * 1024 * 1024.

Record KvEntryKey : Type := MkKvEntryKey { ek_namespace : string; ek_key : string }.

#[export] Instance KvEntryKey_eq_dec : EqDecision KvEntryKey.
Proof. solve_decision. Defined.

Definition KvEntryKey_new (namespace key : string) : result KvEntryKey StorageError :=
  let? _ := validate_namespace namespace in
  let? _ := validate_key key in
  Ok (MkKvEntryKey namespace key).

Definition composite (k : KvEntryKey) : string := composite_key (ek_namespace k) (ek_key k).

Inductive KvBatchCondition : Type := ValueEquals (key : KvEntryKey) (expected : option string).

Definition condition_key (c : KvBatchCondition) : KvEntryKey :=
  match c with ValueEquals key _ => key end.
Definition condition_expected (c : KvBatchCondition) : option string :=
  match c with ValueEquals _ expected => expected end.

Inductive KvBatchMutation : Type :=
| MutSet (key : KvEntryKey) (value : string)
| MutDelete (key : KvEntryKey).

Definition mutation_key (m : KvBatchMutation) : KvEntryKey :=
  match m with MutSet key _ | MutDelete key => key end.
Definition mutation_value (m : KvBatchMutation) : option string :=
  match m with MutSet _ value => Some value | MutDelete _ => None end.

Record KvMutationBatch : Type := MkKvMutationBatch {
  batch_conditions : list KvBatchCondition;
  batch_mutations : list KvBatchMutation;
}.

Definition payload_overflow : StorageError := Internal "KV mutation batch payload length overflow".
Definition operation_bound_error : StorageError :=
  Serialization "KV mutation batch exceeds 1024 conditions and mutations".
Definition payload_bound_error : StorageError :=
  Serialization "KV mutation batch payload exceeds 67108864 bytes".

Definition add_payload (current : N) (key : KvEntryKey) : result N StorageError :=
  let? key_bytes := ok_or
    (match checked_add USIZE_MAX (str_len (ek_namespace key)) 1 with
     | Some length => checked_add USIZE_MAX length (str_len (ek_key key))
     | None => None
     end) payload_overflow in
  ok_or (checked_add USIZE_MAX current key_bytes) payload_overflow.

Definition add_declared_payload (current : N) (key : KvEntryKey) (value_bytes : N)
    : result N StorageError :=
  let? payload := add_payload current key in
  ok_or (checked_add USIZE_MAX payload value_bytes) payload_overflow.

Definition opt_len (o : option string) : N := from_option str_len 0%N o.

(** The two collecting loops of [KvMutationBatch::new]: [count] is the number
    of operations accepted so far, [payload] their declared size. *)
Fixpoint collect_bounded (count payload : N) (ops : list (KvEntryKey * N)) : result N StorageError :=
  match ops with
  | [] => Ok payload
  | (key, len) :: rest =>
      if (MAX_KV_BATCH_OPERATIONS <=? count)%N then Err operation_bound_error
      else
        let? payload' := add_declared_payload payload key len in
        if (MAX_KV_BATCH_PAYLOAD_BYTES <? payload')%N then Err payload_bound_error
        else collect_bounded (count + 1) payload' rest
  end.

Definition condition_op (c : KvBatchCondition) : KvEntryKey * N :=
  (condition_key c, opt_len (condition_expected c)).
Definition mutation_op (m : KvBatchMutation) : KvEntryKey * N :=
  (mutation_key m, opt_len (mutation_value m)).

(** [windows(2).any(|pair| pair[0].key() == pair[1].key())] *)
Fixpoint adjacent_dup (keys : list KvEntryKey) : bool :=
  match keys with
  | a :: ((b :: _) as rest) => bool_decide (a = b) || adjacent_dup rest
  | _ => false
  end.

Fixpoint sum_payload (payload : N) (ops : list (KvEntryKey * N)) : result N StorageError :=
  match ops with
  | [] => Ok payload
  | (key, len) :: rest =>
      let? payload' := add_declared_payload payload key len in sum_payload payload' rest
  end.

(** Canonical order: byte order of the composite keys. *)
Definition canonical_key_le (l r : KvEntryKey) : Prop := String.le (composite l) (composite r).

Definition condition_le (a b : KvBatchCondition) : Prop :=
  canonical_key_le (condition_key a) (condition_key b).
Definition mutation_le (a b : KvBatchMutation) : Prop :=
  canonical_key_le (mutation_key a) (mutation_key b).

#[export] Instance condition_le_dec : RelDecision condition_le.
Proof. intros a b. unfold condition_le, canonical_key_le. apply _. Defined.
#[export] Instance mutation_le_dec : RelDecision mutation_le.
Proof. intros a b. unfold mutation_le, canonical_key_le. apply _. Defined.

Definition try_from_parts (conditions : list KvBatchCondition) (mutations : list KvBatchMutation)
    : result KvMutationBatch StorageError :=
  if bool_decide (mutations = [])
  then Err (Serialization "KV mutation batch must contain at least one mutation")
  else if (MAX_KV_BATCH_OPERATIONS
           <? sat_add USIZE_MAX (N.of_nat (length conditions)) (N.of_nat (length mutations)))%N
  then Err operation_bound_error
  else
    let? payload := sum_payload 0 (condition_op <$> conditions) in
    let? payload := sum_payload payload (mutation_op <$> mutations) in
    if (MAX_KV_BATCH_PAYLOAD_BYTES <? payload)%N then Err payload_bound_error
    else
      let conditions := merge_sort condition_le conditions in
      if adjacent_dup (condition_key <$> conditions)
      then Err (Serialization "KV mutation batch contains duplicate conditions")
      else
        let mutations := merge_sort mutation_le mutations in
        if adjacent_dup (mutation_key <$> mutations)
        then Err (Serialization "KV mutation batch contains duplicate or conflicting mutations")
        else Ok (MkKvMutationBatch conditions mutations).

Definition KvMutationBatch_new (conditions : list KvBatchCondition)
    (mutations : list KvBatchMutation) : result KvMutationBatch StorageError :=
  let? payload := collect_bounded 0 0 (condition_op <$> conditions) in
  let? _ := collect_bounded (N.of_nat (length conditions)) payload (mutation_op <$> mutations) in
  try_from_parts conditions mutations.

Record KvConditionResult : Type := MkKvConditionResult { cr_key : KvEntryKey; cr_matched : bool }.
Record KvBatchOutcome : Type := MkKvBatchOutcome {
  bo_applied : bool;
  bo_conditions : list KvConditionResult;
}.

(** ** The [KvStore] trait *)

Class KvStore (S : Type) : Type := {
  supports_atomic_batch : S -> bool;
  kv_get : S -> string -> string -> result (option string) StorageError;
  kv_set : S -> string -> string -> string -> S * result unit StorageError;
  kv_delete : S -> string -> string -> S * result bool StorageError;
  kv_exists : S -> string -> string -> result bool StorageError;
  kv_list_keys : S -> string -> result (list string) StorageError;
  kv_list_keys_with_prefix : S -> string -> string -> result (list string) StorageError;
  kv_compare_and_swap :
    S -> string -> string -> option string -> string -> S * result bool StorageError;
  kv_apply_batch : S -> KvMutationBatch -> S * result KvBatchOutcome StorageError;
  kv_clear_namespace : S -> string -> S * result N StorageError;
  kv_clear_prefix : S -> string -> string -> S * result N StorageError;
}.

(** [str::starts_with]. *)
Definition starts_with (p s : string) : bool := String.prefix p s.

(** The trait's default of [list_keys_with_prefix_page], over the listing
    it pages through. *)
Definition page_of (keys : list string) (after : option string) (limit : nat) : list string :=
  take limit (List.filter (fun key => match after with
                                      | None => true
                                      | Some cursor => String.ltb cursor key
                                      end) (merge_sort String.le keys)).

Definition kv_list_keys_with_prefix_page {S} `{KvStore S} (s : S) (namespace prefix : string)
    (after : option string) (limit : nat) : result (list string) StorageError :=
  let? keys := kv_list_keys_with_prefix s namespace prefix in
  Ok (page_of keys after limit).

(** What a store promises, against an abstract map. *)
Abbreviation KvMap := (gmap (string * string) string).

Definition entry (k : KvEntryKey) : string * string := (ek_namespace k, ek_key k).

Definition map_condition (m : KvMap) (c : KvBatchCondition) : bool :=
  bool_decide (m !! entry (condition_key c) = condition_expected c).

Definition map_conditions (m : KvMap) (cs : list KvBatchCondition) : bool :=
  forallb (map_condition m) cs.

Definition map_mutate (m : KvMap) (mu : KvBatchMutation) : KvMap :=
  match mu with
  | MutSet key value => <[entry key := value]> m
  | MutDelete key => delete (entry key) m
  end.

Definition map_mutations (m : KvMap) (mus : list KvBatchMutation) : KvMap :=
  List.fold_left map_mutate mus m.

Definition valid_namespace (ns : string) : Prop := validate_namespace ns = Ok tt.
Definition valid_key (k : string) : Prop := validate_key k = Ok tt.
Definition valid_entry (k : KvEntryKey) : Prop :=
  valid_namespace (ek_namespace k) /\ valid_key (ek_key k).
Definition valid_batch (b : KvMutationBatch) : Prop :=
  Forall (fun c => valid_entry (condition_key c)) (batch_conditions b) /\
  Forall (fun m => valid_entry (mutation_key m)) (batch_mutations b).

(** A batch that reports an error may or may not have been committed, but
    never partially and never against a failed condition. *)
Class KvStoreLaws (S : Type) `{KvStore S} (view : S -> KvMap) : Prop := {
  law_get s ns k v : kv_get s ns k = Ok v -> view s !! (ns, k) = v;
  law_list s ns p l :
    kv_list_keys_with_prefix s ns p = Ok l ->
    NoDup l /\ forall k, k ∈ l <-> is_Some (view s !! (ns, k)) /\ starts_with p k = true;
  law_apply s b s' o :
    valid_batch b -> kv_apply_batch s b = (s', Ok o) ->
    bo_applied o = map_conditions (view s) (batch_conditions b) /\
    view s' = if bo_applied o then map_mutations (view s) (batch_mutations b) else view s;
  law_apply_err s b s' e :
    valid_batch b -> kv_apply_batch s b = (s', Err e) ->
    view s' = view s \/
    (map_conditions (view s) (batch_conditions b) = true /\
     view s' = map_mutations (view s) (batch_mutations b));
  law_set s ns k v s' :
    kv_set s ns k v = (s', Ok tt) -> view s' = <[(ns, k) := v]> (view s);
  law_delete s ns k s' b :
    kv_delete s ns k = (s', Ok b) ->
    b = bool_decide (is_Some (view s !! (ns, k))) /\ view s' = delete (ns, k) (view s);
  law_cas s ns k expected new s' b :
    kv_compare_and_swap s ns k expected new = (s', Ok b) ->
    b = bool_decide (view s !! (ns, k) = expected) /\
    view s' = if b then <[(ns, k) := new]> (view s) else view s;
  law_set_err s ns k v s' e :
    kv_set s ns k v = (s', Err e) -> view s' = view s \/ view s' = <[(ns, k) := v]> (view s);
  law_delete_err s ns k s' e :
    kv_delete s ns k = (s', Err e) -> view s' = view s \/ view s' = delete (ns, k) (view s);
  law_cas_err s ns k expected new s' e :
    kv_compare_and_swap s ns k expected new = (s', Err e) ->
    view s' = view s \/
    (view s !! (ns, k) = expected /\ view s' = <[(ns, k) := new]> (view s));
  law_exists s ns k b : kv_exists s ns k = Ok b -> b = bool_decide (is_Some (view s !! (ns, k)));
  law_list_keys s ns l :
    kv_list_keys s ns = Ok l -> NoDup l /\ forall k, k ∈ l <-> is_Some (view s !! (ns, k));
}.

(** ** The in-memory backend ([kv/memory.rs]) *)

Record MemoryKvStore : Type := MkMemoryKvStore { mem_data : gmap string string }.

Definition MemoryKvStore_new : MemoryKvStore := MkMemoryKvStore ∅.
Definition full_key (namespace key : string) : string :=
  String.append namespace (String NUL key).

(** Run a validation before a state change; on error the state is kept. *)
Definition guarded {S A E} (s : S) (v : result unit E) (k : S * result A E) : S * result A E :=
  match v with
  | Ok _ => k
  | Err e => (s, Err e)
  end.

Fixpoint str_drop (n : nat) (s : string) : string :=
  match n, s with
  | S n', String _ r => str_drop n' r
  | _, _ => s
  end.

Definition mem_get (s : MemoryKvStore) (namespace key : string)
    : result (option string) StorageError :=
  let? _ := validate_namespace namespace in
  let? _ := validate_key key in
  Ok (mem_data s !! full_key namespace key).

Definition mem_set (s : MemoryKvStore) (namespace key value : string)
    : MemoryKvStore * result unit StorageError :=
  guarded s (validate_namespace namespace) (guarded s (validate_key key)
    (MkMemoryKvStore (<[full_key namespace key := value]> (mem_data s)), Ok tt)).

Definition mem_delete (s : MemoryKvStore) (namespace key : string)
    : MemoryKvStore * result bool StorageError :=
  guarded s (validate_namespace namespace) (guarded s (validate_key key)
    (MkMemoryKvStore (delete (full_key namespace key) (mem_data s)),
     Ok (bool_decide (is_Some (mem_data s !! full_key namespace key))))).

Definition mem_exists (s : MemoryKvStore) (namespace key : string) : result bool StorageError :=
  let? _ := validate_namespace namespace in
  let? _ := validate_key key in
  Ok (bool_decide (is_Some (mem_data s !! full_key namespace key))).

Definition data_keys (s : MemoryKvStore) : list string := (map_to_list (mem_data s)).*1.

Definition mem_list_keys (s : MemoryKvStore) (namespace : string)
    : result (list string) StorageError :=
  let? _ := validate_namespace namespace in
  let ns_prefix := String.append namespace (String NUL EmptyString) in
  Ok (omap (strip_prefix ns_prefix) (data_keys s)).

Definition mem_list_keys_with_prefix (s : MemoryKvStore) (namespace prefix : string)
    : result (list string) StorageError :=
  let? _ := validate_namespace namespace in
  let? _ := validate_prefix prefix in
  let full_prefix := full_key namespace prefix in
  let ns_prefix_len := (String.length namespace + 1)%nat in
  Ok (str_drop ns_prefix_len <$> List.filter (starts_with full_prefix) (data_keys s)).

Definition mem_compare_and_swap (s : MemoryKvStore) (namespace key : string)
    (expected : option string) (new : string) : MemoryKvStore * result bool StorageError :=
  guarded s (validate_namespace namespace) (guarded s (validate_key key)
    (let full := full_key namespace key in
     if bool_decide (mem_data s !! full = expected)
     then (MkMemoryKvStore (<[full := new]> (mem_data s)), Ok true)
     else (s, Ok false))).

Definition mem_condition (data : gmap string string) (c : KvBatchCondition) : KvConditionResult :=
  let key := condition_key c in
  MkKvConditionResult key
    (bool_decide (data !! full_key (ek_namespace key) (ek_key key) = condition_expected c)).

Definition mem_mutate (data : gmap string string) (m : KvBatchMutation) : gmap string string :=
  match m with
  | MutSet key value => <[full_key (ek_namespace key) (ek_key key) := value]> data
  | MutDelete key => delete (full_key (ek_namespace key) (ek_key key)) data
  end.

Definition mem_apply_batch (s : MemoryKvStore) (batch : KvMutationBatch)
    : MemoryKvStore * result KvBatchOutcome StorageError :=
  let conditions := mem_condition (mem_data s) <$> batch_conditions batch in
  if negb (forallb cr_matched conditions)
  then (s, Ok (MkKvBatchOutcome false conditions))
  else (MkMemoryKvStore (List.fold_left mem_mutate (batch_mutations batch) (mem_data s)),
        Ok (MkKvBatchOutcome true conditions)).

(** Delete every key with a full-key prefix, counting them. *)
Definition mem_clear (s : MemoryKvStore) (full_prefix : string)
    : MemoryKvStore * result N StorageError :=
  let keys := List.filter (starts_with full_prefix) (data_keys s) in
  (MkMemoryKvStore (List.fold_left (fun d k => delete k d) keys (mem_data s)),
   Ok (N.of_nat (length keys))).

Definition mem_clear_namespace (s : MemoryKvStore) (namespace : string)
    : MemoryKvStore * result N StorageError :=
  guarded s (validate_namespace namespace)
    (mem_clear s (String.append namespace (String NUL EmptyString))).

Definition mem_clear_prefix (s : MemoryKvStore) (namespace prefix : string)
    : MemoryKvStore * result N StorageError :=
  guarded s (validate_namespace namespace) (guarded s (validate_prefix prefix)
    (mem_clear s (full_key namespace prefix))).

#[export] Instance MemoryKvStore_KvStore : KvStore MemoryKvStore := {|
  supports_atomic_batch _ := true;
  kv_get := mem_get;
  kv_set := mem_set;
  kv_delete := mem_delete;
  kv_exists := mem_exists;
  kv_list_keys := mem_list_keys;
  kv_list_keys_with_prefix := mem_list_keys_with_prefix;
  kv_compare_and_swap := mem_compare_and_swap;
  kv_apply_batch := mem_apply_batch;
  kv_clear_namespace := mem_clear_namespace;
  kv_clear_prefix := mem_clear_prefix;
|}.

(** ** Lemmas on composite keys *)

Lemma string_app_assoc a b c : String.append a (String.append b c) = String.append (String.append a b) c.
Proof. induction a as [|x a IH]; [done|]. by apply (f_equal (String x)). Qed.

Lemma strip_prefix_spec p s r : strip_prefix p s = Some r <-> s = String.append p r.
Proof.
  revert s; induction p as [|a p IH]; intros s; simpl; [naive_solver|].
  destruct s as [|b s]; [naive_solver|]. destruct (Ascii.eqb_spec a b) as [<-|Hne].
  - rewrite IH. naive_solver.
  - naive_solver.
Qed.

Lemma starts_with_spec p s : starts_with p s = true <-> exists r, s = String.append p r.
Proof.
  unfold starts_with. revert s; induction p as [|a p IH]; intros [|b s];
    cbn [String.prefix String.append]; [naive_solver..|].
  destruct (ascii_dec a b) as [<-|Hne].
  - rewrite IH. naive_solver.
  - naive_solver.
Qed.

(** Split a full key at its first NUL. *)
Fixpoint split_nul (s : string) : option (string * string) :=
  match s with
  | EmptyString => None
  | String a r =>
      if Ascii.eqb a NUL then Some (EmptyString, r)
      else (fun '(ns, k) => (String a ns, k)) <$> split_nul r
  end.

Lemma split_nul_Some s ns k :
  split_nul s = Some (ns, k) <-> s = full_key ns k /\ contains_char NUL ns = false.
Proof.
  revert ns k; induction s as [|a s IH]; intros ns k; cbn [split_nul].
  - split; [done|]. intros [H _]. by destruct ns.
  - destruct (Ascii.eqb_spec a NUL) as [->|Hne].
    + split.
      * by intros [= <- <-].
      * intros [H Hn]. destruct ns as [|b ns]; [by injection H as ->|].
        injection H as <- _. done.
    + rewrite fmap_Some. split.
      * intros ([ns' k'] & [-> Hn]%IH & [= -> ->]). split; [done|]. cbn [contains_char].
        by rewrite (proj2 (Ascii.eqb_neq _ _) Hne).
      * intros [H Hn]. destruct ns as [|b ns]; [by injection H as -> ->|].
        injection H as <- ->. cbn [contains_char] in Hn. apply orb_false_iff in Hn as [_ Hn].
        exists (ns, k). split; [by apply IH|done].
Qed.

Lemma full_key_inj ns k ns' k' :
  contains_char NUL ns = false -> contains_char NUL ns' = false ->
  full_key ns k = full_key ns' k' -> ns = ns' /\ k = k'.
Proof.
  intros Hn Hn' H. assert (E : split_nul (full_key ns k) = Some (ns, k)) by (by apply split_nul_Some).
  rewrite H in E. assert (split_nul (full_key ns' k') = Some (ns', k')) by (by apply split_nul_Some).
  by simplify_eq.
Qed.

Lemma valid_namespace_nul ns : valid_namespace ns -> contains_char NUL ns = false.
Proof. unfold valid_namespace, validate_namespace. intros H. by inv_ok. Qed.

(** ** The in-memory backend implements the abstract map *)

Definition view_entry (e : string * string) : option (string * string * string) :=
  (fun nk => (nk, e.2)) <$> split_nul e.1.

Definition mem_view (s : MemoryKvStore) : KvMap :=
  list_to_map (omap view_entry (map_to_list (mem_data s))).

Lemma mem_view_elem s ns k v :
  (ns, k, v) ∈ omap view_entry (map_to_list (mem_data s)) <->
  contains_char NUL ns = false /\ mem_data s !! full_key ns k = Some v.
Proof.
  rewrite list_elem_of_omap. split.
  - intros ([fk v'] & Hin & ([ns' k'] & [Hfk Hn]%split_nul_Some & [= -> -> ->])%fmap_Some).
    simpl in *. subst fk. by apply elem_of_map_to_list in Hin.
  - intros [Hn Hl]. exists (full_key ns k, v). split; [by apply elem_of_map_to_list|].
    unfold view_entry. simpl. by rewrite (proj2 (split_nul_Some _ ns k)).
Qed.

Lemma mem_view_lookup s ns k :
  mem_view s !! (ns, k) =
  if contains_char NUL ns then None else mem_data s !! full_key ns k.
Proof.
  apply option_eq. intros v. unfold mem_view. transitivity
    ((ns, k, v) ∈ omap view_entry (map_to_list (mem_data s))).
  - split; [apply elem_of_list_to_map_2|]. intros Hin. apply elem_of_list_to_map_1'; [|done].
    intros v' Hin'. apply mem_view_elem in Hin, Hin'. naive_solver.
  - rewrite mem_view_elem. destruct (contains_char NUL ns); naive_solver.
Qed.

Lemma mem_view_get s ns k :
  valid_namespace ns -> mem_view s !! (ns, k) = mem_data s !! full_key ns k.
Proof. intros H%valid_namespace_nul. by rewrite mem_view_lookup, H. Qed.

Lemma mem_get_total s ns k :
  valid_namespace ns -> valid_key k -> mem_get s ns k = Ok (mem_view s !! (ns, k)).
Proof. intros Hns Hk. unfold mem_get. rewrite Hns, Hk. simpl. by rewrite mem_view_get. Qed.

Lemma mem_view_insert s ns k v :
  valid_namespace ns ->
  mem_view (MkMemoryKvStore (<[full_key ns k := v]> (mem_data s))) = <[(ns, k) := v]> (mem_view s).
Proof.
  intros Hns%valid_namespace_nul. apply map_eq. intros [ns' k']. rewrite mem_view_lookup. cbn [mem_data].
  destruct (decide ((ns, k) = (ns', k'))) as [[= <- <-]|Hne].
  - rewrite Hns, !lookup_insert_eq. done.
  - rewrite (lookup_insert_ne (mem_view s)), mem_view_lookup by done.
    destruct (contains_char NUL ns') eqn:Hn; [done|]. rewrite lookup_insert_ne; [done|].
    intros [-> ->]%full_key_inj; done.
Qed.

Lemma mem_view_delete s ns k :
  valid_namespace ns ->
  mem_view (MkMemoryKvStore (delete (full_key ns k) (mem_data s))) = delete (ns, k) (mem_view s).
Proof.
  intros Hns%valid_namespace_nul. apply map_eq. intros [ns' k']. rewrite mem_view_lookup. cbn [mem_data].
  destruct (decide ((ns, k) = (ns', k'))) as [[= <- <-]|Hne].
  - by rewrite Hns, !lookup_delete_eq.
  - rewrite (lookup_delete_ne (mem_view s)), mem_view_lookup by done.
    destruct (contains_char NUL ns') eqn:Hn; [done|]. rewrite lookup_delete_ne; [done|].
    intros [-> ->]%full_key_inj; done.
Qed.

Lemma mem_view_mutations data mus :
  Forall (fun m => valid_entry (mutation_key m)) mus ->
  mem_view (MkMemoryKvStore (List.fold_left mem_mutate mus data)) =
  map_mutations (mem_view (MkMemoryKvStore data)) mus.
Proof.
  unfold map_mutations. intros H. revert data. induction H as [|m mus [Hns _] _ IH]; intros data; [done|].
  simpl. rewrite IH. f_equal. destruct m as [[ns k] v|[ns k]]; simpl in *.
  - by apply (mem_view_insert (MkMemoryKvStore data)).
  - by apply (mem_view_delete (MkMemoryKvStore data)).
Qed.

Lemma mem_conditions_view s cs :
  Forall (fun c => valid_entry (condition_key c)) cs ->
  forallb cr_matched (mem_condition (mem_data s) <$> cs) = map_conditions (mem_view s) cs.
Proof.
  unfold map_conditions. induction 1 as [|[[ns k] e] cs [Hns _] _ IH]; [done|].
  rewrite fmap_cons. cbn [forallb]. rewrite IH. f_equal.
  unfold map_condition, mem_condition, entry.
  cbn [cr_matched condition_key condition_expected ek_namespace ek_key] in *.
  by rewrite mem_view_get.
Qed.

Lemma full_key_app ns p r : String.append (full_key ns p) r = full_key ns (String.append p r).
Proof. unfold full_key. by rewrite <- string_app_assoc. Qed.

Lemma drop_full_key ns r : str_drop (String.length ns + 1) (full_key ns r) = r.
Proof. induction ns as [|a ns IH]; [by destruct r|done]. Qed.

(** The keys with a full-key prefix are full keys of the namespace. *)
Lemma filter_full_key s ns p fk :
  fk ∈ List.filter (starts_with (full_key ns p)) (data_keys s) <->
  exists k, fk = full_key ns k /\ starts_with p k = true /\ is_Some (mem_data s !! full_key ns k).
Proof.
  rewrite list_elem_of_In, List.filter_In, <- list_elem_of_In.
  assert (Hk : fk ∈ data_keys s <-> is_Some (mem_data s !! fk)).
  { unfold data_keys. rewrite list_elem_of_fmap. split.
    - intros ([fk' v] & -> & Hin%elem_of_map_to_list). eauto.
    - intros [v Hv]. exists (fk, v). split; [done|]. by apply elem_of_map_to_list. }
  rewrite Hk, starts_with_spec. setoid_rewrite starts_with_spec. split.
  - intros [Hs [r ->]]. rewrite full_key_app in Hs |- *. eauto 6.
  - intros (k & -> & [r ->] & Hs). split; [done|]. exists r. by rewrite full_key_app.
Qed.

Lemma mem_list_elem s ns p k :
  k ∈ (str_drop (String.length ns + 1) <$> List.filter (starts_with (full_key ns p)) (data_keys s)) <->
  is_Some (mem_data s !! full_key ns k) /\ starts_with p k = true.
Proof.
  rewrite list_elem_of_fmap. setoid_rewrite filter_full_key. split.
  - intros (fk & -> & k' & -> & Hp & Hs). by rewrite drop_full_key.
  - intros [Hs Hp]. exists (full_key ns k). rewrite drop_full_key. eauto.
Qed.

Lemma mem_list_NoDup s ns p :
  NoDup (str_drop (String.length ns + 1) <$> List.filter (starts_with (full_key ns p)) (data_keys s)).
Proof.
  apply NoDup_fmap_2_strong.
  - intros x y (k & -> & _)%filter_full_key (k' & -> & _)%filter_full_key.
    rewrite !drop_full_key. by intros ->.
  - apply NoDup_ListNoDup, List.NoDup_filter, NoDup_ListNoDup, NoDup_fst_map_to_list.
Qed.

Lemma strip_namespace ns fk k :
  strip_prefix (String.append ns (String NUL EmptyString)) fk = Some k <-> fk = full_key ns k.
Proof. rewrite strip_prefix_spec, <- string_app_assoc. done. Qed.

Lemma mem_list_keys_elem s ns k :
  k ∈ omap (strip_prefix (String.append ns (String NUL EmptyString))) (data_keys s) <->
  is_Some (mem_data s !! full_key ns k).
Proof.
  rewrite list_elem_of_omap. setoid_rewrite strip_namespace. unfold data_keys.
  setoid_rewrite list_elem_of_fmap. split.
  - intros (fk & ([fk' v] & Hfk & Hin%elem_of_map_to_list) & Hk). simpl in Hfk. subst. eauto.
  - intros [v Hv%elem_of_map_to_list]. by exists (full_key ns k); split; [eexists (_, _)|].
Qed.

Lemma mem_list_keys_NoDup s ns :
  NoDup (omap (strip_prefix (String.append ns (String NUL EmptyString))) (data_keys s)).
Proof.
  assert (NoDup (data_keys s)) as Hnd by apply NoDup_fst_map_to_list.
  induction Hnd as [|fk l Hfk Hnd IH]; [constructor|]. simpl. destruct (strip_prefix _ fk) as [k|] eqn:Hk; [|done].
  constructor; [|done]. intros (fk' & Hin & Hk')%list_elem_of_omap.
  apply strip_namespace in Hk as ->. by apply strip_namespace in Hk' as ->.
Qed.

Lemma guarded_Ok {S A E} (s : S) (v : result unit E) k s' (a : A) :
  guarded s v k = (s', Ok a) -> v = Ok tt /\ k = (s', Ok a).
Proof. destruct v as [[]|]; naive_solver. Qed.

Lemma guarded_Err {S A E} (s : S) (v : result unit E) k s' e :
  guarded s v k = (s', @Err A E e) -> s' = s \/ k = (s', Err e).
Proof. destruct v as [[]|]; naive_solver. Qed.

Lemma mem_apply_view s b s' o :
  valid_batch b -> mem_apply_batch s b = (s', Ok o) ->
  bo_applied o = map_conditions (mem_view s) (batch_conditions b) /\
  mem_view s' = if bo_applied o then map_mutations (mem_view s) (batch_mutations b) else mem_view s.
Proof.
  intros [Hc Hm]. unfold mem_apply_batch. rewrite mem_conditions_view by done.
  destruct (map_conditions (mem_view s) (batch_conditions b)); simpl.
  - intros [= <- <-]. simpl. split; [done|]. rewrite mem_view_mutations by done. by destruct s.
  - intros [= <- <-]. done.
Qed.

Lemma mem_laws : KvStoreLaws MemoryKvStore mem_view.
Proof.
  split; simpl.
  - intros s ns k v H. unfold mem_get in H. inv_ok. by apply mem_view_get.
  - intros s ns p l H. unfold mem_list_keys_with_prefix in H. inv_ok.
    split; [apply mem_list_NoDup|]. intros k. rewrite mem_view_get by done.
    apply mem_list_elem.
  - apply mem_apply_view.
  - intros s b s' e _ H. unfold mem_apply_batch in H. by case_match.
  - intros s ns k v s' [Hns [_ [= <-]]%guarded_Ok]%guarded_Ok. by apply mem_view_insert.
  - intros s ns k s' b [Hns [_ [= <- <-]]%guarded_Ok]%guarded_Ok.
    rewrite mem_view_get by done. split; [done|]. by apply mem_view_delete.
  - intros s ns k e new s' b [Hns [_ H]%guarded_Ok]%guarded_Ok. cbv zeta in H.
    rewrite mem_view_get by done. case_bool_decide; injection H as <- <-.
    + split; [done|]. by apply mem_view_insert.
    + done.
  - intros s ns k v s' e [->|[->|[=]]%guarded_Err]%guarded_Err; by left.
  - intros s ns k s' e [->|[->|[=]]%guarded_Err]%guarded_Err; by left.
  - intros s ns k ex new s' e [->|[->|H]%guarded_Err]%guarded_Err; [by left..|].
    cbv zeta in H. by case_bool_decide.
  - intros s ns k b H. unfold mem_exists in H. inv_ok. by rewrite mem_view_get.
  - intros s ns l H. unfold mem_list_keys in H. inv_ok.
    split; [apply mem_list_keys_NoDup|]. intros k. rewrite mem_view_get by done.
    apply mem_list_keys_elem.
Qed.

#[export] Instance mem_laws_instance : KvStoreLaws MemoryKvStore mem_view := mem_laws.

(** ** The ideal store

    The abstract map is itself a store: one that validates nothing and never
    fails.  What code does on a backend that answers is what it does here. *)

Definition map_keys (m : KvMap) (ns : string) : list string :=
  omap (fun e => if bool_decide (e.1.1 = ns) then Some e.1.2 else None) (map_to_list m).

Definition map_clear (m : KvMap) (ns : string) (keys : list string) : KvMap * result N StorageError :=
  (List.fold_left (fun m k => delete (ns, k) m) keys m, Ok (N.of_nat (length keys))).

Definition ideal_store : KvStore KvMap := {|
  supports_atomic_batch _ := true;
  kv_get m ns k := Ok (m !! (ns, k));
  kv_set m ns k v := (<[(ns, k) := v]> m, Ok tt);
  kv_delete m ns k := (delete (ns, k) m, Ok (bool_decide (is_Some (m !! (ns, k)))));
  kv_exists m ns k := Ok (bool_decide (is_Some (m !! (ns, k))));
  kv_list_keys m ns := Ok (map_keys m ns);
  kv_list_keys_with_prefix m ns p := Ok (List.filter (starts_with p) (map_keys m ns));
  kv_compare_and_swap m ns k expected new :=
    if bool_decide (m !! (ns, k) = expected) then (<[(ns, k) := new]> m, Ok true) else (m, Ok false);
  kv_apply_batch m b :=
    let applied := map_conditions m (batch_conditions b) in
    (if applied then map_mutations m (batch_mutations b) else m,
     Ok (MkKvBatchOutcome applied
           ((fun c => MkKvConditionResult (condition_key c) (map_condition m c)) <$> batch_conditions b)));
  kv_clear_namespace m ns := map_clear m ns (map_keys m ns);
  kv_clear_prefix m ns p := map_clear m ns (List.filter (starts_with p) (map_keys m ns));
|}.

Lemma map_keys_elem m ns k : k ∈ map_keys m ns <-> is_Some (m !! (ns, k)).
Proof.
  unfold map_keys. rewrite list_elem_of_omap. split.
  - intros ([[ns' k'] v] & Hin%elem_of_map_to_list & Hk). simpl in Hk. case_bool_decide; naive_solver.
  - intros [v Hv%elem_of_map_to_list]. eexists (_, _). split; [done|]. simpl. by rewrite bool_decide_eq_true_2.
Qed.

Lemma map_keys_NoDup m ns : NoDup (map_keys m ns).
Proof.
  assert (NoDup (map_to_list m).*1) as Hnd by apply NoDup_fst_map_to_list.
  unfold map_keys. induction (map_to_list m) as [|[[ns' k] v] l IH]; [constructor|].
  apply NoDup_cons in Hnd as [Hfk Hnd]. simpl in *. case_bool_decide; [subst|by apply IH].
  constructor; [|by apply IH]. intros ([[ns'' k'] v'] & Hin & Hk)%list_elem_of_omap. simpl in Hk.
  case_bool_decide; simplify_eq. apply Hfk. by apply (list_elem_of_fmap_2 fst _ _ Hin).
Qed.

Lemma ideal_laws : @KvStoreLaws KvMap ideal_store id.
Proof.
  split; simpl; try (intros; naive_solver).
  - intros m ns p l Hl. injection Hl as <-. split.
    + apply NoDup_ListNoDup, List.NoDup_filter, NoDup_ListNoDup, map_keys_NoDup.
    + intros k. by rewrite list_elem_of_In, List.filter_In, <- list_elem_of_In, map_keys_elem.
  - intros m ns k e new m' b. case_bool_decide; intros [= <- <-]; done.
  - intros m ns k e new m' err Hc. by case_bool_decide.
  - intros m ns l [= <-]. split; [apply map_keys_NoDup|]. intros k. apply map_keys_elem.
Qed.

(** ** Lemmas on batches *)

Lemma composite_inj k k' : valid_entry k -> valid_entry k' -> composite k = composite k' -> k = k'.
Proof.
  destruct k as [ns k], k' as [ns' k']. intros [Hn _] [Hn' _] H.
  by destruct (full_key_inj ns k ns' k' (valid_namespace_nul _ Hn) (valid_namespace_nul _ Hn') H)
    as [-> ->].
Qed.

Definition op_bytes (op : KvEntryKey * N) : N :=
  (str_len (ek_namespace op.1) + 1 + str_len (ek_key op.1) + op.2)%N.

Definition total_bytes (ops : list (KvEntryKey * N)) : N :=
  List.fold_right (fun op acc => op_bytes op + acc)%N 0%N ops.

Lemma add_declared_payload_Ok current key len r :
  add_declared_payload current key len = Ok r <->
  r = (current + op_bytes (key, len))%N /\ (r <= USIZE_MAX)%N.
Proof.
  unfold add_declared_payload, add_payload, op_bytes. simpl. split.
  - intros H. inv_ok. destruct (checked_add USIZE_MAX (str_len _) 1) eqn:Hc; [|done].
    rewrite checked_add_Some in *. lia.
  - intros [-> Hr]. rewrite (proj2 (checked_add_Some _ (str_len _) 1 _)) by (split; [done|lia]).
    rewrite (proj2 (checked_add_Some _ _ (str_len (ek_key key)) _)) by (split; [done|lia]). simpl.
    rewrite (proj2 (checked_add_Some _ current _ _)) by (split; [done|lia]). simpl.
    apply ok_or_Ok, checked_add_Some. lia.
Qed.

Lemma sum_payload_Ok payload ops r :
  (r <= MAX_KV_BATCH_PAYLOAD_BYTES)%N ->
  sum_payload payload ops = Ok r <-> r = (payload + total_bytes ops)%N.
Proof.
  intros Hr. revert payload; induction ops as [|[k n] ops IH]; intros payload; simpl.
  { split; [intros [= ->]|intros ->]; [lia|]. f_equal; lia. }
  rewrite rbind_Ok. setoid_rewrite add_declared_payload_Ok. setoid_rewrite IH.
  unfold MAX_KV_BATCH_PAYLOAD_BYTES, USIZE_MAX, U64_MAX in *. split.
  - intros (x & [-> ?] & ->). lia.
  - intros ->. eexists. split; [split; [done|lia]|]. lia.
Qed.

Lemma sum_payload_total payload ops :
  (payload + total_bytes ops <= MAX_KV_BATCH_PAYLOAD_BYTES)%N ->
  sum_payload payload ops = Ok (payload + total_bytes ops)%N.
Proof. intros H. by apply sum_payload_Ok. Qed.

Lemma collect_bounded_Ok count payload ops r :
  (count + N.of_nat (length ops) <= MAX_KV_BATCH_OPERATIONS \/ ops = [])%N ->
  (payload <= MAX_KV_BATCH_PAYLOAD_BYTES)%N ->
  collect_bounded count payload ops = Ok r <->
  r = (payload + total_bytes ops)%N /\ (r <= MAX_KV_BATCH_PAYLOAD_BYTES)%N.
Proof.
  revert count payload; induction ops as [|[k n] ops IH]; intros count payload Hc Hp; simpl.
  { split; [intros [= ->]; lia|intros [-> _]; f_equal; lia]. }
  assert (Hc' : (count + 1 + N.of_nat (length ops) <= MAX_KV_BATCH_OPERATIONS)%N)
    by (destruct Hc as [Hc|Hc]; [simpl in Hc; lia|done]).
  rewrite (proj2 (N.leb_gt _ _)) by lia. rewrite rbind_Ok. setoid_rewrite add_declared_payload_Ok.
  split.
  - intros (x & [-> Hx] & Hcol). inv_ok. bool_prop. apply IH in Hcol; [lia|by left|done].
  - intros [-> Hr]. exists (payload + op_bytes (k, n))%N. split.
    + split; [done|]. unfold MAX_KV_BATCH_PAYLOAD_BYTES, USIZE_MAX, U64_MAX in *. lia.
    + rewrite (proj2 (N.ltb_ge _ _)) by lia. apply IH; [by left|lia|lia].
Qed.

Lemma collect_bounded_total count payload ops :
  (count + N.of_nat (length ops) <= MAX_KV_BATCH_OPERATIONS)%N ->
  (payload + total_bytes ops <= MAX_KV_BATCH_PAYLOAD_BYTES)%N ->
  collect_bounded count payload ops = Ok (payload + total_bytes ops)%N.
Proof. intros Hc Hp. apply collect_bounded_Ok; [by left|lia|done]. Qed.

Lemma collect_bounded_count count payload ops r :
  collect_bounded count payload ops = Ok r ->
  (count + N.of_nat (length ops) <= MAX_KV_BATCH_OPERATIONS)%N \/ ops = [].
Proof.
  revert count payload; induction ops as [|[k n] ops IH]; intros count payload; [by right|].
  cbn [collect_bounded length]. intros H. inv_ok. bool_prop. left.
  destruct (IH _ _ H) as [?| ->]; cbn [length]; lia.
Qed.

(** In a list sorted by composite key, equal keys are adjacent. *)
Lemma adjacent_dup_false keys :
  Forall valid_entry keys -> Sorted canonical_key_le keys ->
  adjacent_dup keys = false <-> NoDup keys.
Proof.
  intros Hv Hs. assert (Hss : StronglySorted canonical_key_le keys).
  { apply Sorted_StronglySorted; [|done]. intros a b c. unfold canonical_key_le. apply transitivity. }
  clear Hs. induction Hss as [|a keys Hss IH Ha]; [simpl; split; [by constructor|done]|].
  apply Forall_cons in Hv as [Hva Hv]. rewrite NoDup_cons, <- (IH Hv).
  destruct keys as [|b keys]; [simpl; set_solver|]. cbn [adjacent_dup].
  rewrite orb_false_iff, bool_decide_eq_false.
  split; [|intros [Hna ?]; split; [intros ->; apply Hna; by left|done]].
  intros [Hab Hd]. split; [|done]. intros Hin. apply Hab.
  apply (composite_inj _ _ Hva (Forall_inv Hv)).
  apply (anti_symm String.le); [by apply (Forall_inv Ha)|].
  apply elem_of_cons in Hin as [->|Hin]; [done|].
  apply StronglySorted_inv in Hss as [_ Hb]. rewrite Forall_forall in Hb. by apply Hb.
Qed.

Lemma Sorted_fmap_key {A} (f : A -> KvEntryKey) (l : list A) :
  Sorted (fun a b => canonical_key_le (f a) (f b)) l -> Sorted canonical_key_le (f <$> l).
Proof.
  induction 1 as [|a l Hs IH Hd]; rewrite ?fmap_nil, ?fmap_cons; constructor; [done|].
  by destruct Hd; rewrite ?fmap_nil, ?fmap_cons; constructor.
Qed.

Lemma canonical_key_le_total a b : canonical_key_le a b \/ canonical_key_le b a.
Proof. apply (total String.le). Qed.

#[export] Instance condition_le_total : Total condition_le.
Proof. intros a b. apply canonical_key_le_total. Qed.
#[export] Instance mutation_le_total : Total mutation_le.
Proof. intros a b. apply canonical_key_le_total. Qed.

(** Sorting by composite key and then checking neighbours decides whether
    the keys are distinct. *)
Lemma sorted_dup_check {A} (f : A -> KvEntryKey) (R : A -> A -> Prop)
    `{!RelDecision R} `{!Total R} (l : list A) :
  (forall a b, R a b -> canonical_key_le (f a) (f b)) ->
  Forall (fun a => valid_entry (f a)) l ->
  adjacent_dup (f <$> merge_sort R l) = false <-> NoDup (f <$> l).
Proof.
  intros HR Hv. rewrite adjacent_dup_false.
  - by rewrite (merge_sort_Permutation R l).
  - rewrite (merge_sort_Permutation R l). by apply Forall_fmap.
  - apply Sorted_fmap_key. pose proof (Sorted_merge_sort R l) as Hs.
    clear -HR Hs. induction Hs as [|a l' Hs IH Hd]; constructor; [done|].
    destruct Hd; constructor. auto.
Qed.

Lemma try_from_parts_Ok conditions mutations b :
  Forall (fun c => valid_entry (condition_key c)) conditions ->
  Forall (fun m => valid_entry (mutation_key m)) mutations ->
  (total_bytes (condition_op <$> conditions) + total_bytes (mutation_op <$> mutations)
     <= MAX_KV_BATCH_PAYLOAD_BYTES)%N ->
  (N.of_nat (length conditions + length mutations) <= MAX_KV_BATCH_OPERATIONS)%N ->
  try_from_parts conditions mutations = Ok b <->
  mutations <> [] /\ NoDup (condition_key <$> conditions) /\ NoDup (mutation_key <$> mutations) /\
  b = MkKvMutationBatch (merge_sort condition_le conditions) (merge_sort mutation_le mutations).
Proof.
  intros Hc Hm Hp Hn. unfold try_from_parts.
  case_bool_decide as He; [naive_solver|].
  rewrite sat_add_exact by (unfold MAX_KV_BATCH_OPERATIONS, USIZE_MAX, U64_MAX in *; lia).
  rewrite (proj2 (N.ltb_ge MAX_KV_BATCH_OPERATIONS _)) by lia.
  rewrite (sum_payload_total 0) by lia. cbn [rbind]. rewrite sum_payload_total by lia. cbn [rbind].
  rewrite (proj2 (N.ltb_ge MAX_KV_BATCH_PAYLOAD_BYTES _)) by lia.
  pose proof (sorted_dup_check condition_key condition_le conditions ltac:(auto) Hc) as Hdc.
  pose proof (sorted_dup_check mutation_key mutation_le mutations ltac:(auto) Hm) as Hdm.
  rewrite <- Hdc, <- Hdm.
  destruct (adjacent_dup (condition_key <$> _)); [naive_solver|].
  destruct (adjacent_dup (mutation_key <$> _)); naive_solver.
Qed.

Lemma KvMutationBatch_new_Ok conditions mutations b :
  Forall (fun c => valid_entry (condition_key c)) conditions ->
  Forall (fun m => valid_entry (mutation_key m)) mutations ->
  KvMutationBatch_new conditions mutations = Ok b <->
  mutations <> [] /\
  (N.of_nat (length conditions + length mutations) <= MAX_KV_BATCH_OPERATIONS)%N /\
  (total_bytes (condition_op <$> conditions) + total_bytes (mutation_op <$> mutations)
     <= MAX_KV_BATCH_PAYLOAD_BYTES)%N /\
  NoDup (condition_key <$> conditions) /\ NoDup (mutation_key <$> mutations) /\
  b = MkKvMutationBatch (merge_sort condition_le conditions) (merge_sort mutation_le mutations).
Proof.
  intros Hc Hm. unfold KvMutationBatch_new. split.
  - intros H. inv_ok.
    pose proof (collect_bounded_count _ _ _ _ H0) as Hn1.
    pose proof (collect_bounded_count _ _ _ _ H1) as Hn2.
    rewrite length_fmap in Hn1. rewrite length_fmap in Hn2.
    apply collect_bounded_Ok in H0 as [-> Hp1]; [|by rewrite length_fmap|apply N.le_0_l].
    apply collect_bounded_Ok in H1 as [-> Hp2]; [|by rewrite length_fmap|done].
    assert (Hmn : mutations <> []).
    { intros ->. by unfold try_from_parts in H. }
    destruct Hn2 as [Hn2|Hn2]; [|by apply fmap_nil_inv in Hn2].
    apply try_from_parts_Ok in H; [naive_solver lia|done|done|lia|lia].
  - intros (Hmn & Hn & Hp & Hdc & Hdm & ->).
    rewrite (collect_bounded_total 0 0) by (rewrite ?length_fmap; lia). cbn [rbind].
    rewrite collect_bounded_total by (rewrite ?length_fmap; lia). cbn [rbind].
    by apply try_from_parts_Ok.
Qed.

(** A batch acts on the abstract map independently of the order its parts
    were declared in. *)
Lemma map_conditions_perm m cs cs' :
  cs ≡ₚ cs' -> map_conditions m cs = map_conditions m cs'.
Proof.
  unfold map_conditions. induction 1 as [|c cs cs' _ IH|c d cs|cs1 cs2 cs3 _ IH1 _ IH2]; simpl.
  - done.
  - by rewrite IH.
  - destruct (map_condition m c), (map_condition m d); done.
  - by rewrite IH1.
Qed.

Lemma entry_inj k k' : entry k = entry k' -> k = k'.
Proof. destruct k, k'. by intros [= -> ->]. Qed.

Lemma map_mutate_comm m a b :
  mutation_key a <> mutation_key b ->
  map_mutate (map_mutate m a) b = map_mutate (map_mutate m b) a.
Proof.
  intros Hne. assert (Hk : entry (mutation_key a) <> entry (mutation_key b))
    by (by intros ?%entry_inj).
  destruct a, b; simpl in *.
  - by rewrite insert_insert_ne.
  - by rewrite delete_insert_ne.
  - by rewrite delete_insert_ne.
  - by rewrite delete_delete.
Qed.

Lemma map_mutations_perm m mus mus' :
  NoDup (mutation_key <$> mus) -> mus ≡ₚ mus' -> map_mutations m mus = map_mutations m mus'.
Proof.
  unfold map_mutations. intros Hnd Hp. revert m.
  induction Hp as [|a l l' Hp IH|a b l|l1 l2 l3 Hp1 IH1 Hp2 IH2]; intros m; simpl.
  - done.
  - apply IH. rewrite fmap_cons in Hnd. by apply NoDup_cons in Hnd as [_ ?].
  - f_equal. apply map_mutate_comm. rewrite !fmap_cons in Hnd.
    apply NoDup_cons in Hnd as [Hn _]. intros E. apply Hn. rewrite E. by left.
  - rewrite IH1 by done. apply IH2. by rewrite <- Hp1.
Qed.

(** ** Lemmas on byte order and range bounds *)

Lemma le_cons a s b t :
  String.le (String a s) (String b t) <->
  (N_of_ascii a < N_of_ascii b)%N \/ (a = b /\ String.le s t).
Proof.
  unfold String.le, String.leb. cbn [String.compare]. unfold Ascii.compare.
  destruct (N.compare_spec (N_of_ascii a) (N_of_ascii b)) as [E|L|G]; simpl.
  - assert (a = b) as -> by (by rewrite <- (ascii_N_embedding a), E, ascii_N_embedding).
    split; [by right|]. intros [?|[_ ?]]; [lia|done].
  - split; [by left|done].
  - split; [done|]. intros [?|[-> _]]; lia.
Qed.

Lemma ltb_cons a s b t :
  String.ltb (String a s) (String b t) = true <->
  (N_of_ascii a < N_of_ascii b)%N \/ (a = b /\ String.ltb s t = true).
Proof.
  unfold String.ltb. cbn [String.compare]. unfold Ascii.compare.
  destruct (N.compare_spec (N_of_ascii a) (N_of_ascii b)) as [E|L|G]; simpl.
  - assert (a = b) as -> by (by rewrite <- (ascii_N_embedding a), E, ascii_N_embedding).
    split; [by right|]. intros [?|[_ ?]]; [lia|done].
  - split; [by left|done].
  - split; [done|]. intros [?|[-> _]]; lia.
Qed.

Lemma starts_with_cons a p b s :
  starts_with (String a p) (String b s) = true <-> a = b /\ starts_with p s = true.
Proof.
  unfold starts_with. cbn [String.prefix]. destruct (ascii_dec a b); naive_solver.
Qed.

(** A string of [0xFF] bytes is below exactly its extensions. *)
Lemma increment_last_None buf c :
  increment_last buf = None -> String.le buf c <-> starts_with buf c = true.
Proof.
  revert c; induction buf as [|b r IH]; intros c; [by destruct c|]. cbn [increment_last].
  destruct (increment_last r) as [r'|]; [done|]. case_match eqn:Hb; [done|]. intros _. bool_prop.
  destruct c as [|x c]; [done|]. rewrite le_cons, starts_with_cons, IH by done.
  pose proof (N_ascii_bounded x). split; [|by right]. intros [?|?]; [lia|done].
Qed.

Lemma increment_last_Some buf e c :
  increment_last buf = Some e ->
  (String.le buf c /\ String.ltb c e = true) <-> starts_with buf c = true.
Proof.
  revert e c; induction buf as [|b r IH]; intros e c; [done|]. cbn [increment_last].
  destruct (increment_last r) as [r'|] eqn:Hr.
  - intros [= <-]. destruct c as [|x c]; [naive_solver|].
    rewrite le_cons, ltb_cons, starts_with_cons, <- (IH r' c) by done. split.
    + intros [[?|[-> ?]] [?|[? ?]]]; subst; try lia; done.
    + intros [-> [? ?]]. split; by right.
  - case_match eqn:Hb; [|done]. intros [= <-]. bool_prop. destruct c as [|x c]; [naive_solver|].
    rewrite le_cons, ltb_cons, starts_with_cons, <- increment_last_None by done.
    rewrite N_ascii_embedding by lia. split.
    + intros [[?|[-> ?]] [?|[-> Hc]]]; try lia; try done. by destruct c.
    + intros [-> ?]. split; [by right|left; lia].
Qed.

Lemma increment_composite ns k : increment_last (composite_key ns k) <> None.
Proof.
  unfold composite_key. induction ns as [|a ns IH].
  - cbn. destruct (increment_last k); done.
  - cbn [String.append increment_last]. by destruct (increment_last _).
Qed.

Lemma prefix_range_end_increment ns p :
  increment_last (composite_key ns p) = Some (prefix_range_end ns p).
Proof.
  unfold prefix_range_end. destruct (is_empty p) eqn:He.
  - apply is_empty_true in He as ->. unfold composite_key, namespace_range_end.
    induction ns as [|a ns IH]; [done|]. cbn [String.append increment_last]. by rewrite IH.
  - pose proof (increment_composite ns p). by destruct (increment_last _).
Qed.

(** ** Properties *)

(** the half-open byte range that ordered backends scan for a prefix,
    from the composite key of the prefix to [prefix_range_end], contains
    exactly the keys that start with that prefix, including the empty prefix
    and prefixes ending in [0xFF]. *)
Theorem prefix_range_exact : forall ns prefix c,
  (String.le (composite_key ns prefix) c /\ String.ltb c (prefix_range_end ns prefix) = true) <->
  starts_with (composite_key ns prefix) c = true.
Proof. intros. apply increment_last_Some, prefix_range_end_increment. Qed.

(** A batch over validated keys is accepted exactly when it has a
    mutation, at most 1024 operations, at most 64 MiB of declared payload, no
    two conditions on one key and no two mutations of one key, and it is then
    canonical: both lists sorted by composite key.  Size arithmetic never
    overflows into acceptance. *)
Theorem batch_new_exact : forall conditions mutations b,
  Forall (fun c => valid_entry (condition_key c)) conditions ->
  Forall (fun m => valid_entry (mutation_key m)) mutations ->
  KvMutationBatch_new conditions mutations = Ok b <->
  mutations <> [] /\
  (N.of_nat (length conditions + length mutations) <= MAX_KV_BATCH_OPERATIONS)%N /\
  (total_bytes (condition_op <$> conditions) + total_bytes (mutation_op <$> mutations)
     <= MAX_KV_BATCH_PAYLOAD_BYTES)%N /\
  NoDup (condition_key <$> conditions) /\ NoDup (mutation_key <$> mutations) /\
  b = MkKvMutationBatch (merge_sort condition_le conditions) (merge_sort mutation_le mutations).
Proof. exact KvMutationBatch_new_Ok. Qed.

Lemma batch_new_exact_witness :
  exists b, KvMutationBatch_new [ValueEquals (MkKvEntryKey "ns" "b") None]
    [MutSet (MkKvEntryKey "ns" "b") "v"; MutDelete (MkKvEntryKey "ns" "a")] = Ok b /\
    batch_mutations b = [MutDelete (MkKvEntryKey "ns" "a"); MutSet (MkKvEntryKey "ns" "b") "v"].
Proof.
  eexists. split.
  - refine (proj2 (batch_new_exact _ _ _ _ _) _).
    + repeat constructor.
    + repeat constructor.
    + split_and!; try done; try (vm_compute; discriminate).
      * apply (bool_decide_unpack _). vm_compute. exact I.
      * apply (bool_decide_unpack _). vm_compute. exact I.
  - vm_compute. reflexivity.
Defined.

(** C29: the in-memory backend implements the abstract store on namespaced
    keys, although it concatenates the namespace and key into one string:
    reads, listings, writes, compare-and-swap and atomic batches act on the
    abstract map as the trait documents, and on valid names every read and
    every batch succeeds. *)
Theorem memory_store_refines_map :
  KvStoreLaws MemoryKvStore mem_view /\
  (forall s ns k, valid_namespace ns -> valid_key k -> mem_get s ns k = Ok (mem_view s !! (ns, k))) /\
  (forall s b, valid_batch b -> exists s' o,
     mem_apply_batch s b = (s', Ok o) /\
     mem_view s' = if map_conditions (mem_view s) (batch_conditions b)
                   then map_mutations (mem_view s) (batch_mutations b) else mem_view s).
Proof.
  split; [exact mem_laws|]. split.
  - exact mem_get_total.
  - intros s b Hb. destruct (mem_apply_batch s b) as [s' [o|e]] eqn:H.
    + destruct (mem_apply_view s b s' o Hb H) as [Ho Hv]. exists s', o. by rewrite <- Ho.
    + unfold mem_apply_batch in H. by case_match.
Qed.
