(* ===== verification/PairToken.v ===== *)
(** * The durable pair-token store

    [crates/astrid-kernel/src/pair_token/]: token identifiers
    ([token_hash.rs]), the bounded record codec and the conditional
    operations of [DurablePairTokenStore] ([mod.rs]), the two-step
    reserve/commit protocol ([durable_reservation.rs]) and the one-time
    import of the legacy file ([mod.rs], [storage_migration.rs]).

    The store is any backend that satisfies [KvStoreLaws].  JSON and TOML
    (the [serde_json] and [toml] crates) are the operations of the class
    [PairCodec]; the only fact used is that reading back what was written
    returns it ([PairCodecLaws]).  [now_epoch] is an argument of the
    operations that read the clock. *)

From stdpp Require Import sorting.
From S2P Require Import Prelude CapabilityGrammar Profile Kv.
From Stdlib Require Import Ascii.
Local Open Scope string_scope.
Local Open Scope list_scope.
#[local] Arguments String.append !_ _ /.

Definition MAX_EXPIRY_SECS : N := 60 * 60.
Definition SYSTEM_KV_NAMESPACE : string := "system:control:pair-tokens".
Definition LEGACY_RECEIPT_KEY : string := "migration:legacy-v1".
Definition RECORD_PREFIX : string := "record:".
Definition RESERVATION_PREFIX : string := "reservation:".
Definition MAX_RECORDS : N := 4096.
Definition MAX_RECORD_BYTES : N := 16 * 1024.
Definition MAX_LEGACY_BYTES : N := 4 * 1024 * 1024.
Definition STORE_SCHEMA_VERSION : N := 1.

(** A principal's immutable 32-byte identity. *)
Record PrincipalUid : Type := MkPrincipalUid { uid_bytes : string }.

#[export] Instance PrincipalUid_eq_dec : EqDecision PrincipalUid.
Proof. solve_decision. Defined.

Record PairToken : Type := MkPairToken {
  pt_token_hash : string;
  pt_principal : PrincipalId;
  pt_expires_at_epoch : N;
  pt_issued_at_epoch : N;
  pt_label : option string;
  pt_scope : DeviceScope;
}.

Record DurablePairToken : Type := MkDurablePairToken {
  token_hash : string;
  principal_uid : PrincipalUid;
  expires_at_epoch : N;
  issued_at_epoch : N;
  label : option string;
  scope : DeviceScope;
}.

#[export] Instance DurablePairToken_eq_dec : EqDecision DurablePairToken.
Proof. solve_decision. Defined.

Record LegacyImportReceipt : Type := MkLegacyImportReceipt {
  receipt_schema : N;
  source_digest : string;
  record_count : N;
}.

(** ** Token identifiers *)

(** [str::split_once(':')]. *)
Fixpoint split_once (c : ascii) (s : string) : option (string * string) :=
  match s with
  | EmptyString => None
  | String a r =>
      if Ascii.eqb a c then Some (EmptyString, r)
      else (fun '(x, y) => (String a x, y)) <$> split_once c r
  end.

Definition canonical_fingerprint (value : string) : option string :=
  match split_once ":" value with
  | None => None
  | Some (algorithm, digest) =>
      if bool_decide (algorithm = "blake3") && (str_len digest =? 64)%N
         && forallb is_ascii_hexdigit (bytes digest)
         && bool_decide (digest = to_ascii_lowercase digest)
      then Some value else None
  end.

Record TokenHash : Type := MkTokenHash { th_str : string }.

Definition TokenHash_parse (value : string) : result TokenHash StorageError :=
  match canonical_fingerprint value with
  | None => Err (Serialization "pair-token record has a non-canonical token identifier")
  | Some _ => Ok (MkTokenHash value)
  end.

Inductive ReservationState : Type := Redeemable | Reserved.

#[export] Instance ReservationState_eq_dec : EqDecision ReservationState.
Proof. solve_decision. Defined.

Definition state_key (st : ReservationState) (hash : TokenHash) : string :=
  match st with
  | Redeemable => String.append RECORD_PREFIX (th_str hash)
  | Reserved => String.append RESERVATION_PREFIX (th_str hash)
  end.

Definition record_key (hash : TokenHash) : string := String.append RECORD_PREFIX (th_str hash).
Definition reservation_key (hash : TokenHash) : string := state_key Reserved hash.

(** ** Codec *)

Class PairCodec : Type := {
  token_to_json : DurablePairToken -> option string;
  token_from_json : string -> option DurablePairToken;
  receipt_to_json : LegacyImportReceipt -> option string;
  receipt_from_json : string -> option LegacyImportReceipt;
  (** [toml::from_str] of a legacy file, as the schema probe and as the
      full record list. *)
  legacy_probe : string -> option N;
  legacy_records : string -> option (list PairToken);
}.

Class PairCodecLaws `{PairCodec} : Prop := {
  token_roundtrip t v : token_to_json t = Some v -> token_from_json v = Some t;
  receipt_roundtrip r v : receipt_to_json r = Some v -> receipt_from_json v = Some r;
}.

Section Store.
Context {S : Type} `{KvStore S} `{PairCodec}.

Definition outside_schema : StorageError :=
  Serialization "pair-token record is outside its bounded schema".
Definition oversize_record : StorageError :=
  Serialization "pair-token record exceeds its bounded size".

Definition validate_record (token : DurablePairToken) : result unit StorageError :=
  let? _ := TokenHash_parse (token_hash token) in
  if (expires_at_epoch token <=? issued_at_epoch token)%N
     || (MAX_EXPIRY_SECS <? sat_sub (expires_at_epoch token) (issued_at_epoch token))%N
     || match label token with Some l => (4096 <? str_len l)%N | None => false end
  then Err outside_schema else Ok tt.

Definition encode (token : DurablePairToken) : result string StorageError :=
  let? _ := validate_record token in
  let? value := ok_or (token_to_json token) (Serialization "serde_json") in
  if (MAX_RECORD_BYTES <? str_len value)%N then Err oversize_record else Ok value.

Definition decode (value : string) : result DurablePairToken StorageError :=
  if (MAX_RECORD_BYTES <? str_len value)%N then Err oversize_record
  else
    let? token := ok_or (token_from_json value) (Serialization "invalid pair-token record") in
    let? _ := validate_record token in
    Ok token.

Definition apply (conditions : list KvBatchCondition) (mutations : list KvBatchMutation)
    : eff S StorageError bool :=
  fun s =>
  if negb (supports_atomic_batch s)
  then (s, Err (Internal "pair-token storage requires an atomic KV backend"))
  else
    match KvMutationBatch_new conditions mutations with
    | Err e => (s, Err e)
    | Ok batch =>
        match kv_apply_batch s batch with
        | (s', Ok outcome) => (s', Ok (bo_applied outcome))
        | (s', Err e) => (s', Err e)
        end
    end.

Definition issue (token : DurablePairToken) : eff S StorageError bool :=
  do? value := eff_lift (encode token) in
  do? hash := eff_lift (TokenHash_parse (token_hash token)) in
  let key := record_key hash in
  do? k := eff_lift (KvEntryKey_new SYSTEM_KV_NAMESPACE key) in
  apply [ValueEquals k None] [MutSet k value].

(** The conditional delete shared by redeem, revoke and prune: remove [key]
    if it still holds the value that was read. *)
Definition delete_if_unchanged (key value : string) : eff S StorageError bool :=
  do? k := eff_lift (KvEntryKey_new SYSTEM_KV_NAMESPACE key) in
  apply [ValueEquals k (Some value)] [MutDelete k].

Definition redeem (now : N) (hash_str : string) : eff S StorageError (option DurablePairToken) :=
  do? hash := eff_lift (TokenHash_parse hash_str) in
  let key := record_key hash in
  do? found := eff_read (fun s => kv_get s SYSTEM_KV_NAMESPACE key) in
  match found with
  | None => eff_lift (Ok None)
  | Some value =>
      do? token := eff_lift (decode value) in
      if (expires_at_epoch token <=? now)%N then
        do? _ := delete_if_unchanged key value in eff_lift (Ok None)
      else
        do? won := delete_if_unchanged key value in
        eff_lift (Ok (if won : bool then Some token else None))
  end.

Definition redeemable (now : N) (hash_str : string) : eff S StorageError (option DurablePairToken) :=
  do? hash := eff_lift (TokenHash_parse hash_str) in
  let key := state_key Redeemable hash in
  do? found := eff_read (fun s => kv_get s SYSTEM_KV_NAMESPACE key) in
  match found with
  | None => eff_lift (Ok None)
  | Some value =>
      do? token := eff_lift (decode value) in
      if (expires_at_epoch token <=? now)%N then eff_lift (Ok None)
      else eff_lift (Ok (Some token))
  end.

Definition reserve_if_unchanged (now : N) (expected : DurablePairToken) : eff S StorageError bool :=
  if (expires_at_epoch expected <=? now)%N then eff_lift (Ok false)
  else
    do? expected_value := eff_lift (encode expected) in
    do? hash := eff_lift (TokenHash_parse (token_hash expected)) in
    do? k := eff_lift (KvEntryKey_new SYSTEM_KV_NAMESPACE (state_key Redeemable hash)) in
    do? rk := eff_lift (KvEntryKey_new SYSTEM_KV_NAMESPACE (reservation_key hash)) in
    apply [ValueEquals k (Some expected_value); ValueEquals rk None]
          [MutDelete k; MutSet rk expected_value].

Definition reservation (hash_str : string) : eff S StorageError (option string) :=
  do? hash := eff_lift (TokenHash_parse hash_str) in
  eff_read (fun s => kv_get s SYSTEM_KV_NAMESPACE (reservation_key hash)).

Definition release_reservation (now : N) (expected : DurablePairToken) : eff S StorageError bool :=
  if (expires_at_epoch expected <=? now)%N then eff_lift (Ok false)
  else
    do? expected_value := eff_lift (encode expected) in
    do? hash := eff_lift (TokenHash_parse (token_hash expected)) in
    do? k := eff_lift (KvEntryKey_new SYSTEM_KV_NAMESPACE (state_key Redeemable hash)) in
    do? rk := eff_lift (KvEntryKey_new SYSTEM_KV_NAMESPACE (reservation_key hash)) in
    apply [ValueEquals rk (Some expected_value); ValueEquals k None]
          [MutSet k expected_value; MutDelete rk].

Definition consume_reservation (now : N) (expected : DurablePairToken) : eff S StorageError bool :=
  if (expires_at_epoch expected <=? now)%N then eff_lift (Ok false)
  else
    do? expected_value := eff_lift (encode expected) in
    do? hash := eff_lift (TokenHash_parse (token_hash expected)) in
    delete_if_unchanged (reservation_key hash) expected_value.

Definition revoke (hash_str : string) : eff S StorageError bool :=
  do? hash := eff_lift (TokenHash_parse hash_str) in
  let key := state_key Redeemable hash in
  do? found := eff_read (fun s => kv_get s SYSTEM_KV_NAMESPACE key) in
  match found with
  | Some value =>
      do? _ := eff_lift (decode value) in
      delete_if_unchanged key value
  | None =>
      let rk := reservation_key hash in
      do? found := reservation hash_str in
      match found with
      | None => eff_lift (Ok false)
      | Some value =>
          do? _ := eff_lift (decode value) in
          delete_if_unchanged rk value
      end
  end.

(** Read and decode every listed key; a key that vanished is an error. *)
Fixpoint read_records (missing : StorageError) (keys : list string)
    : eff S StorageError (list DurablePairToken) :=
  match keys with
  | [] => eff_lift (Ok [])
  | key :: rest =>
      do? found := eff_read (fun s => kv_get s SYSTEM_KV_NAMESPACE key) in
      match found with
      | None => eff_lift (Err missing)
      | Some value =>
          do? token := eff_lift (decode value) in
          do? tokens := read_records missing rest in
          eff_lift (Ok (token :: tokens))
      end
  end.

Definition token_le (l r : DurablePairToken) : Prop := String.le (token_hash l) (token_hash r).

#[export] Instance token_le_dec : RelDecision token_le.
Proof. intros l r. unfold token_le. apply _. Defined.

Definition list_tokens : eff S StorageError (list DurablePairToken) :=
  do? keys := eff_read (fun s => kv_list_keys_with_prefix s SYSTEM_KV_NAMESPACE RECORD_PREFIX) in
  if (MAX_RECORDS <? N.of_nat (length keys))%N
  then eff_lift (Err (Internal "pair-token storage exceeds its bounded record limit"))
  else
    do? records := read_records (Internal "pair-token record disappeared during read")
                     (merge_sort String.le keys) in
    eff_lift (Ok (merge_sort token_le records)).

Fixpoint prune_reservations (now removed : N) (keys : list string) : eff S StorageError N :=
  match keys with
  | [] => eff_lift (Ok removed)
  | key :: rest =>
      do? found := eff_read (fun s => kv_get s SYSTEM_KV_NAMESPACE key) in
      match found with
      | None => prune_reservations now removed rest
      | Some value =>
          do? token := eff_lift (decode value) in
          if (now <? expires_at_epoch token)%N then prune_reservations now removed rest
          else
            do? gone := delete_if_unchanged key value in
            prune_reservations now (if gone : bool then sat_add USIZE_MAX removed 1 else removed) rest
      end
  end.

Fixpoint prune_records (now removed : N) (tokens : list DurablePairToken) : eff S StorageError N :=
  match tokens with
  | [] => eff_lift (Ok removed)
  | token :: rest =>
      if (now <? expires_at_epoch token)%N then prune_records now removed rest
      else
        do? hash := eff_lift (TokenHash_parse (token_hash token)) in
        let key := state_key Redeemable hash in
        do? found := eff_read (fun s => kv_get s SYSTEM_KV_NAMESPACE key) in
        match found with
        | None => prune_records now removed rest
        | Some value =>
            do? gone := delete_if_unchanged key value in
            prune_records now (if gone : bool then sat_add USIZE_MAX removed 1 else removed) rest
        end
  end.

Definition prune (now : N) : eff S StorageError N :=
  do? reservation_keys :=
    eff_read (fun s => kv_list_keys_with_prefix s SYSTEM_KV_NAMESPACE RESERVATION_PREFIX) in
  do? removed := prune_reservations now 0 reservation_keys in
  do? records := list_tokens in
  prune_records now removed records.

(** ** Legacy import *)

Definition verify_count (expected : N) : eff S StorageError unit :=
  do? keys := eff_read (fun s => kv_list_keys_with_prefix s SYSTEM_KV_NAMESPACE RECORD_PREFIX) in
  if negb (N.of_nat (length keys) =? expected)%N || (MAX_RECORDS <? N.of_nat (length keys))%N
  then eff_lift (Err (Internal "durable pair-token migration read-back count mismatch"))
  else
    do? _ := read_records (Internal "durable pair-token migration read-back was incomplete") keys in
    eff_lift (Ok tt).

(** The legacy file as the filesystem shows it: whether it is a regular
    file (not a symlink), whether it passes the privacy checks of
    [platform_fs], and its bytes. *)
Record LegacyFile : Type := MkLegacyFile {
  lf_regular : bool;
  lf_private : bool;
  lf_bytes : string;
}.

Context `{Hashing} (uid_for : PrincipalId -> option PrincipalUid).

Definition digest_of (source : string) : string :=
  String.append "blake3:" (hex_encode (blake3_hash source)).

Definition legacy_token_ok (t : PairToken) : bool :=
  negb (bool_decide (canonical_fingerprint (pt_token_hash t) = None)
        || (pt_expires_at_epoch t <=? pt_issued_at_epoch t)%N
        || (MAX_EXPIRY_SECS <? sat_sub (pt_expires_at_epoch t) (pt_issued_at_epoch t))%N
        || match pt_label t with Some l => (4096 <? str_len l)%N | None => false end
        || bool_decide (uid_for (pt_principal t) = None)).

Definition read_legacy_source (file : option LegacyFile)
    : result (option (string * list PairToken)) StorageError :=
  match file with
  | None => Ok None
  | Some f =>
      if negb (lf_regular f) then Err (InvalidKey "legacy pair-token source is not a regular file")
      else if negb (lf_private f) then Err (InvalidKey "legacy pair-token source is not private")
      else if (MAX_LEGACY_BYTES <? str_len (lf_bytes f))%N
      then Err (Serialization "legacy pair-token source exceeds its bounded size")
      else
        let? _ := if utf8_valid (lf_bytes f) then Ok tt
                  else Err (Serialization "legacy pair-token source is not UTF-8") in
        let? version := ok_or (legacy_probe (lf_bytes f))
                          (Serialization "legacy pair-token source is malformed") in
        if negb (version =? STORE_SCHEMA_VERSION)%N
        then Err (Serialization "legacy pair-token source schema is unsupported")
        else
          let? tokens := ok_or (legacy_records (lf_bytes f))
                           (Serialization "legacy pair-token source is malformed") in
          if (MAX_RECORDS <? N.of_nat (length tokens))%N
          then Err (Serialization "legacy pair-token source exceeds its bounded record limit")
          else if negb (forallb legacy_token_ok tokens)
          then Err (Serialization "legacy pair-token source contains an invalid or unadmitted record")
          else Ok (Some (lf_bytes f, tokens))
  end.

Definition changed_during_retirement (m : string -> StorageError) : StorageError :=
  m "legacy pair-token source changed during retirement".

Definition retire_legacy_file (file : option LegacyFile) (expected_digest : string)
    : option LegacyFile * result unit StorageError :=
  match file with
  | None => (None, Ok tt)
  | Some f =>
      if negb (lf_regular f) || negb (lf_private f)
      then (Some f, Err (changed_during_retirement InvalidKey))
      else if negb (bool_decide (digest_of (lf_bytes f) = expected_digest))
      then (Some f, Err (changed_during_retirement Internal))
      else (None, Ok tt)
  end.

(** One legacy record as a durable record with its key. *)
Definition durable_of (t : PairToken) (uid : PrincipalUid) : DurablePairToken :=
  MkDurablePairToken (pt_token_hash t) uid (pt_expires_at_epoch t) (pt_issued_at_epoch t)
    (pt_label t) (pt_scope t).

Definition import_entry (t : PairToken) : result (KvEntryKey * string) StorageError :=
  let? uid := ok_or (uid_for (pt_principal t))
    (Internal "legacy pair-token principal is not an admitted immutable identity") in
  let durable := durable_of t uid in
  let? value := encode durable in
  let? hash := TokenHash_parse (token_hash durable) in
  let? k := KvEntryKey_new SYSTEM_KV_NAMESPACE (record_key hash) in
  Ok (k, value).

(** Kernel state the import touches: the backend and the legacy file. *)
Definition World : Type := S * option LegacyFile.

Definition on_store {A} (c : eff S StorageError A) : eff World StorageError A :=
  fun w => let '(s', r) := c w.1 in ((s', w.2), r).
Definition on_file {A} (c : option LegacyFile -> option LegacyFile * result A StorageError)
    : eff World StorageError A :=
  fun w => let '(f', r) := c w.2 in ((w.1, f'), r).

Definition import_with_receipt (source : option (string * list PairToken)) (bytes : string)
    : eff World StorageError unit :=
  do? receipt := eff_lift (ok_or (receipt_from_json bytes)
    (Internal "pair-token migration receipt is invalid")) in
  if negb (receipt_schema receipt =? 1)%N
  then eff_lift (Err (Internal "pair-token migration receipt schema is unsupported"))
  else if match source with
          | Some (source_bytes, _) => negb (bool_decide (digest_of source_bytes = source_digest receipt))
          | None => false
          end
  then eff_lift (Err (Internal "legacy pair-token source conflicts with durable migration state"))
  else
    do? _ := on_store (verify_count (record_count receipt)) in
    if bool_decide (is_Some source)
    then on_file (fun f => retire_legacy_file f (source_digest receipt))
    else eff_lift (Ok tt).

Definition import_source (source_bytes : string) (tokens : list PairToken)
    : eff World StorageError unit :=
  if (MAX_RECORDS <? N.of_nat (length tokens))%N || (500 <? N.of_nat (length tokens))%N
  then eff_lift (Err (Serialization "legacy pair-token store exceeds the bounded migration limit"))
  else
    do? existing := on_store (eff_read (fun s =>
      kv_list_keys_with_prefix s SYSTEM_KV_NAMESPACE RECORD_PREFIX)) in
    if negb (bool_decide (existing = []))
    then eff_lift (Err (Internal "legacy pair-token source conflicts with existing durable state"))
    else
      let digest := digest_of source_bytes in
      let receipt := MkLegacyImportReceipt 1 digest (N.of_nat (length tokens)) in
      do? receipt_bytes := eff_lift (ok_or (receipt_to_json receipt) (Serialization "serde_json")) in
      do? rk := eff_lift (KvEntryKey_new SYSTEM_KV_NAMESPACE LEGACY_RECEIPT_KEY) in
      do? entries := eff_lift (try_map import_entry tokens) in
      do? applied := on_store (apply
        (ValueEquals rk None :: ((fun e => ValueEquals e.1 None) <$> entries))
        (MutSet rk receipt_bytes :: ((fun e => MutSet e.1 e.2) <$> entries))) in
      if negb applied
      then eff_lift (Err (Internal "legacy pair-token migration raced with another durable writer"))
      else
        do? _ := on_store (verify_count (N.of_nat (length tokens))) in
        on_file (fun f => retire_legacy_file f digest).

Definition ensure_legacy_import : eff World StorageError unit :=
  do? source := eff_read (fun w => read_legacy_source w.2) in
  do? receipt := on_store (eff_read (fun s => kv_get s SYSTEM_KV_NAMESPACE LEGACY_RECEIPT_KEY)) in
  match receipt with
  | Some bytes => import_with_receipt source bytes
  | None =>
      match source with
      | None => eff_lift (Ok tt)
      | Some (source_bytes, tokens) => import_source source_bytes tokens
      end
  end.

End Store.

(** ** Lemmas on keys *)

Lemma split_once_Some c s x y :
  split_once c s = Some (x, y) -> s = String.append x (String c y).
Proof.
  revert x y; induction s as [|a s IH]; intros x y; cbn [split_once]; [done|].
  destruct (Ascii.eqb_spec a c) as [->|Hne]; [by intros [= <- <-]|].
  intros ([x' y'] & Hs%IH & [= -> ->])%fmap_Some. by subst s.
Qed.

Lemma hex_no_nul s : forallb is_ascii_hexdigit (bytes s) = true -> contains_char NUL s = false.
Proof.
  intros Hh. apply not_true_iff_false. rewrite contains_char_bytes. intros Hin.
  rewrite forallb_forall in Hh. apply list_elem_of_In, Hh in Hin. done.
Qed.

Lemma canonical_no_nul s : canonical_fingerprint s <> None -> contains_char NUL s = false.
Proof.
  unfold canonical_fingerprint. destruct (split_once ":" s) as [[alg dig]|] eqn:Hs; [|done].
  apply split_once_Some in Hs as ->. case_match eqn:Hc; [|done]. intros _. bool_prop. subst.
  rewrite contains_char_app. simpl. by apply hex_no_nul.
Qed.

Lemma TokenHash_parse_Ok s h :
  TokenHash_parse s = Ok h -> h = MkTokenHash s /\ canonical_fingerprint s <> None.
Proof. unfold TokenHash_parse. destruct (canonical_fingerprint s); naive_solver. Qed.

Lemma state_key_entry s h st :
  TokenHash_parse s = Ok h ->
  KvEntryKey_new SYSTEM_KV_NAMESPACE (state_key st h) =
  Ok (MkKvEntryKey SYSTEM_KV_NAMESPACE (state_key st h)).
Proof.
  intros [-> Hn%canonical_no_nul]%TokenHash_parse_Ok. unfold KvEntryKey_new, validate_key.
  destruct st; unfold state_key, th_str; rewrite contains_char_app, Hn; done.
Qed.

(** Where a token lives: its record key or its reservation key. *)
Definition slot (st : ReservationState) (hs : string) : string * string :=
  (SYSTEM_KV_NAMESPACE, state_key st (MkTokenHash hs)).

Lemma slot_inj st hs st' hs' : slot st hs = slot st' hs' -> st = st' /\ hs = hs'.
Proof.
  unfold slot, state_key, th_str. intros [= Hk].
  destruct st, st'; try discriminate; injection Hk as ->; done.
Qed.

Lemma valid_slot st hs :
  canonical_fingerprint hs <> None ->
  valid_entry (MkKvEntryKey SYSTEM_KV_NAMESPACE (state_key st (MkTokenHash hs))).
Proof.
  intros Hc. assert (Hp : TokenHash_parse hs = Ok (MkTokenHash hs))
    by (unfold TokenHash_parse; by destruct (canonical_fingerprint hs)).
  pose proof (state_key_entry hs _ st Hp) as E. unfold KvEntryKey_new in E. inv_ok. done.
Qed.

(** ** The store operations against the abstract map *)

Ltac valid_entries := repeat (apply Forall_nil_2 || (apply Forall_cons_2; [done|])).

Section StoreLemmas.
Context {S : Type} `{KvStoreLaws S view} `{PairCodec}.

Lemma apply_Ok conditions mutations (s s' : S) b :
  Forall (fun c => valid_entry (condition_key c)) conditions ->
  Forall (fun m => valid_entry (mutation_key m)) mutations ->
  apply conditions mutations s = (s', Ok b) ->
  b = map_conditions (view s) conditions /\
  view s' = if b then map_mutations (view s) mutations else view s.
Proof.
  intros Hc Hm. unfold apply. case_match; [done|].
  destruct (KvMutationBatch_new conditions mutations) as [batch|] eqn:Hb; [|done].
  apply KvMutationBatch_new_Ok in Hb as (_ & _ & _ & _ & Hnd & ->); [|done..].
  destruct (kv_apply_batch s _) as [s1 [o|]] eqn:Ha; [|done]. intros [= <- <-].
  apply law_apply in Ha as [Ho Hv].
  - simpl in *. rewrite Hv, Ho.
    rewrite (map_conditions_perm _ (merge_sort condition_le conditions) conditions)
      by apply merge_sort_Permutation.
    split; [done|]. by rewrite (map_mutations_perm _ mutations (merge_sort mutation_le mutations))
      by (done || (symmetry; apply merge_sort_Permutation)).
  - split; simpl; by rewrite merge_sort_Permutation.
Qed.

Lemma apply_Err conditions mutations (s s' : S) e :
  Forall (fun c => valid_entry (condition_key c)) conditions ->
  Forall (fun m => valid_entry (mutation_key m)) mutations ->
  apply conditions mutations s = (s', Err e) ->
  view s' = view s \/
  (map_conditions (view s) conditions = true /\ view s' = map_mutations (view s) mutations).
Proof.
  intros Hc Hm. unfold apply. case_match; [intros [= <- _]; by left|].
  destruct (KvMutationBatch_new conditions mutations) as [batch|] eqn:Hb; [|intros [= <- _]; by left].
  apply KvMutationBatch_new_Ok in Hb as (_ & _ & _ & _ & Hnd & ->); [|done..].
  destruct (kv_apply_batch s _) as [s1 [o|]] eqn:Ha; [done|]. intros [= <- _].
  apply law_apply_err in Ha as [Hv|[Hcs Hv]]; [by left| |].
  - right. simpl in *.
    rewrite (map_conditions_perm _ (merge_sort condition_le conditions) conditions) in Hcs
      by apply merge_sort_Permutation.
    split; [done|]. rewrite Hv. symmetry. apply map_mutations_perm; [done|].
    symmetry; apply merge_sort_Permutation.
  - split; simpl; by rewrite merge_sort_Permutation.
Qed.

(** Either nothing changed, or the conditions held and everything did; a
    definite answer says which. *)
Lemma apply_cases conditions mutations (s s' : S) r :
  Forall (fun c => valid_entry (condition_key c)) conditions ->
  Forall (fun m => valid_entry (mutation_key m)) mutations ->
  apply conditions mutations s = (s', r) ->
  (view s' = view s /\ r <> Ok true /\
     (r = Ok false -> map_conditions (view s) conditions = false)) \/
  (map_conditions (view s) conditions = true /\ view s' = map_mutations (view s) mutations /\
     r <> Ok false).
Proof.
  intros Hc Hm Ha. destruct r as [b|e].
  - apply apply_Ok in Ha as [-> Hv]; [|done..]. destruct (map_conditions _ _); naive_solver.
  - apply apply_Err in Ha as [Hv|[? Hv]]; [|naive_solver|done..]. left. naive_solver.
Qed.

(** The atomic backend calls of the protocol, one event each.  Any
    interleaving of handlers, in one daemon or several, is a sequence of
    these: redeem, revoke and prune read first and then issue [EvDrop] with
    whatever value they happened to read. *)
Inductive pair_event : Type :=
| EvIssue (token : DurablePairToken)
| EvReserve (now : N) (expected : DurablePairToken)
| EvRelease (now : N) (expected : DurablePairToken)
| EvConsume (now : N) (expected : DurablePairToken)
| EvDrop (st : ReservationState) (hash_str value : string).

Definition run_event (ev : pair_event) : eff S StorageError bool :=
  match ev with
  | EvIssue token => issue token
  | EvReserve now expected => reserve_if_unchanged now expected
  | EvRelease now expected => release_reservation now expected
  | EvConsume now expected => consume_reservation now expected
  | EvDrop st hash_str value =>
      do? hash := eff_lift (TokenHash_parse hash_str) in
      delete_if_unchanged (state_key st hash) value
  end.

(** What an event does to the map when it takes effect, and when it may. *)
Definition event_guard (m : KvMap) (ev : pair_event) : Prop :=
  match ev with
  | EvIssue t => m !! slot Redeemable (token_hash t) = None
  | EvReserve now t =>
      exists v, encode t = Ok v /\ (now < expires_at_epoch t)%N /\
        m !! slot Redeemable (token_hash t) = Some v /\ m !! slot Reserved (token_hash t) = None
  | EvRelease now t =>
      exists v, encode t = Ok v /\ (now < expires_at_epoch t)%N /\
        m !! slot Reserved (token_hash t) = Some v /\ m !! slot Redeemable (token_hash t) = None
  | EvConsume now t =>
      exists v, encode t = Ok v /\ (now < expires_at_epoch t)%N /\
        m !! slot Reserved (token_hash t) = Some v
  | EvDrop st hs v => m !! slot st hs = Some v
  end.

Definition event_effect (m : KvMap) (ev : pair_event) (m' : KvMap) : Prop :=
  match ev with
  | EvIssue t => exists v, encode t = Ok v /\ m' = <[slot Redeemable (token_hash t) := v]> m
  | EvReserve _ t =>
      exists v, encode t = Ok v /\
        m' = <[slot Reserved (token_hash t) := v]> (delete (slot Redeemable (token_hash t)) m)
  | EvRelease _ t =>
      exists v, encode t = Ok v /\
        m' = delete (slot Reserved (token_hash t)) (<[slot Redeemable (token_hash t) := v]> m)
  | EvConsume _ t => m' = delete (slot Reserved (token_hash t)) m
  | EvDrop st hs _ => m' = delete (slot st hs) m
  end.

Lemma eff_bind_lift {T E A B} (r : result A E) (k : A -> eff T E B) (s : T) :
  eff_bind (eff_lift r) k s = match r with Ok a => k a s | Err e => (s, Err e) end.
Proof. by destruct r. Qed.

(** Unfold what an [apply] over concrete conditions says of the map. *)
Ltac apply_outcome Ha :=
  apply apply_cases in Ha; [|valid_entries..];
  unfold map_conditions, map_mutations, map_condition, entry in Ha;
  cbn [forallb condition_key condition_expected ek_namespace ek_key List.fold_left map_mutate] in Ha;
  rewrite ?andb_true_r, <- ?not_true_iff_false, ?andb_true_iff, ?bool_decide_eq_true in Ha.

(** Open the encoding and the identifier of the token an event names. *)
Ltac open_token t :=
  rewrite eff_bind_lift; destruct (encode t) as [v|] eqn:He; [|naive_solver];
  rewrite eff_bind_lift;
  let Hp := fresh "Hp" in
  destruct (TokenHash_parse (token_hash t)) as [h|] eqn:Hp; [|naive_solver];
  pose proof (TokenHash_parse_Ok _ _ Hp) as [-> Hc];
  pose proof (valid_slot Redeemable _ Hc); pose proof (valid_slot Reserved _ Hc);
  pose proof (state_key_entry _ _ Redeemable Hp) as Hrec;
  pose proof (state_key_entry _ _ Reserved Hp) as Hres.

Lemma delete_if_unchanged_cases st hs v (s s' : S) r :
  canonical_fingerprint hs <> None ->
  delete_if_unchanged (state_key st (MkTokenHash hs)) v s = (s', r) ->
  (view s' = view s /\ r <> Ok true /\ (r = Ok false -> view s !! slot st hs <> Some v)) \/
  (view s !! slot st hs = Some v /\ view s' = delete (slot st hs) (view s) /\ r <> Ok false).
Proof.
  intros Hc. pose proof (valid_slot st hs Hc) as Hv. unfold delete_if_unchanged.
  assert (Hp : TokenHash_parse hs = Ok (MkTokenHash hs))
    by (unfold TokenHash_parse; by destruct (canonical_fingerprint hs)).
  rewrite eff_bind_lift, (state_key_entry hs _ st Hp). intros Ha.
  apply_outcome Ha. exact Ha.
Qed.

Lemma run_event_cases ev (s s' : S) r :
  run_event ev s = (s', r) ->
  (view s' = view s /\ r <> Ok true /\ (r = Ok false -> ~ event_guard (view s) ev)) \/
  (event_guard (view s) ev /\ event_effect (view s) ev (view s') /\ r <> Ok false).
Proof.
  destruct ev as [t|now t|now t|now t|st hs v]; simpl.
  - unfold issue. open_token t. rewrite eff_bind_lift. unfold record_key.
    change (String.append RECORD_PREFIX (th_str (MkTokenHash (token_hash t))))
      with (state_key Redeemable (MkTokenHash (token_hash t))).
    rewrite Hrec. intros Ha. apply_outcome Ha. unfold slot. naive_solver.
  - unfold reserve_if_unchanged. case_match eqn:Hx; bool_prop;
      [intros [= <- <-]; left; split_and!; [done|done|]; intros _ (? & _ & ? & _); lia|]. open_token t.
    unfold reservation_key. rewrite eff_bind_lift, Hrec, eff_bind_lift, Hres.
    intros Ha. apply_outcome Ha. unfold slot. naive_solver.
  - unfold release_reservation. case_match eqn:Hx; bool_prop;
      [intros [= <- <-]; left; split_and!; [done|done|]; intros _ (? & _ & ? & _); lia|]. open_token t.
    unfold reservation_key. rewrite eff_bind_lift, Hrec, eff_bind_lift, Hres.
    intros Ha. apply_outcome Ha. unfold slot. naive_solver.
  - unfold consume_reservation. case_match eqn:Hx; bool_prop;
      [intros [= <- <-]; left; split_and!; [done|done|]; intros _ (? & _ & ? & _); lia|]. open_token t.
    unfold reservation_key. intros Ha. apply delete_if_unchanged_cases in Ha; [|done]. naive_solver.
  - rewrite eff_bind_lift. destruct (TokenHash_parse hs) as [h|] eqn:Hp; [|naive_solver].
    pose proof (TokenHash_parse_Ok _ _ Hp) as [-> Hc]. intros Ha.
    apply delete_if_unchanged_cases in Ha; [|done]. naive_solver.
Qed.

(** ** Conservation of tokens over arbitrary interleavings *)

Fixpoint run_trace (evs : list pair_event) (s : S)
    : S * list (pair_event * result bool StorageError) :=
  match evs with
  | [] => (s, [])
  | ev :: rest =>
      let '(s1, r) := run_event ev s in
      let '(s2, outs) := run_trace rest s1 in
      (s2, (ev, r) :: outs)
  end.

End StoreLemmas.

Definition occupied (m : KvMap) (st : ReservationState) (hs : string) : nat :=
  match m !! slot st hs with Some _ => 1 | None => 0 end.

(** How many copies of a token identifier are live in the store. *)
Definition present (m : KvMap) (hs : string) : nat :=
  occupied m Redeemable hs + occupied m Reserved hs.

Definition one_if (b : bool) : nat := if b then 1 else 0.

Definition event_hash (ev : pair_event) : string :=
  match ev with
  | EvIssue t | EvReserve _ t | EvRelease _ t | EvConsume _ t => token_hash t
  | EvDrop _ hs _ => hs
  end.

Definition is_insert (ev : pair_event) : bool :=
  match ev with EvIssue _ => true | _ => false end.
Definition is_removal (ev : pair_event) : bool :=
  match ev with EvConsume _ _ | EvDrop _ _ _ => true | _ => false end.

(** Events on an identifier that definitely succeeded, and those that may
    have (an error leaves the outcome open). *)
Definition count_events (p : pair_event -> bool) (ok : result bool StorageError -> bool)
    (hs : string) (outs : list (pair_event * result bool StorageError)) : nat :=
  length (List.filter (fun '(ev, r) => p ev && ok r && bool_decide (event_hash ev = hs)) outs).

Definition definite (r : result bool StorageError) : bool :=
  match r with Ok b => b | Err _ => false end.
Definition possible (r : result bool StorageError) : bool :=
  match r with Ok b => b | Err _ => true end.

Lemma occupied_insert_eq m st hs v : occupied (<[slot st hs := v]> m) st hs = 1.
Proof. unfold occupied. by rewrite lookup_insert_eq. Qed.

Lemma occupied_insert_ne m st hs v st' hs' :
  st <> st' \/ hs <> hs' -> occupied (<[slot st hs := v]> m) st' hs' = occupied m st' hs'.
Proof. unfold occupied. intros Hne. rewrite lookup_insert_ne; [done|]. intros ?%slot_inj. naive_solver. Qed.

Lemma occupied_delete_eq m st hs : occupied (delete (slot st hs) m) st hs = 0.
Proof. unfold occupied. by rewrite lookup_delete_eq. Qed.

Lemma occupied_delete_ne m st hs st' hs' :
  st <> st' \/ hs <> hs' -> occupied (delete (slot st hs) m) st' hs' = occupied m st' hs'.
Proof. unfold occupied. intros Hne. rewrite lookup_delete_ne; [done|]. intros ?%slot_inj. naive_solver. Qed.

Lemma slot_ne hs : slot Redeemable hs <> slot Reserved hs.
Proof. intros [[=] _]%slot_inj. Qed.

(** Evaluate lookups at the two slots of one identifier. *)
Ltac slot_simpl hs :=
  pose proof (slot_ne hs); pose proof (not_eq_sym (slot_ne hs));
  unfold occupied;
  repeat first [ rewrite lookup_insert_eq | rewrite lookup_delete_eq
               | rewrite lookup_insert_ne by done | rewrite lookup_delete_ne by done ].

Section Conservation.
Context {S : Type} `{KvStoreLaws S view} `{PairCodec}.

(** One effective event moves the number of live copies by its own
    insertion or removal and leaves other identifiers alone. *)
Lemma event_present m ev m' hs :
  event_guard m ev -> event_effect m ev m' ->
  present m' hs + one_if (is_removal ev && bool_decide (event_hash ev = hs)) =
  present m hs + one_if (is_insert ev && bool_decide (event_hash ev = hs)).
Proof.
  intros Hg He. unfold present.
  destruct (decide (event_hash ev = hs)) as [Heq|Hne].
  - rewrite bool_decide_true by done. subst hs.
    destruct ev as [t|now t|now t|now t|st h v]; simpl in *.
    + destruct He as (v & _ & ->). slot_simpl (token_hash t). rewrite Hg. lia.
    + destruct Hg as (v' & _ & _ & G1 & G2), He as (v & _ & ->). slot_simpl (token_hash t).
      by rewrite G1, G2.
    + destruct Hg as (v' & _ & _ & G1 & G2), He as (v & _ & ->). slot_simpl (token_hash t).
      by rewrite G1, G2.
    + destruct Hg as (v' & _ & _ & G1). subst m'. slot_simpl (token_hash t). rewrite G1.
      destruct (m !! slot Redeemable _); simpl; lia.
    + subst m'. destruct st; slot_simpl h; rewrite Hg; destruct (m !! slot _ h); simpl; lia.
  - rewrite bool_decide_false, !andb_false_r by done. simpl. do 2 (rewrite Nat.add_0_r).
    destruct ev as [t|now t|now t|now t|st h v]; simpl in *;
      try (destruct He as (v & _ & ->)); try subst m';
      rewrite ?occupied_delete_ne, ?occupied_insert_ne, ?occupied_delete_ne by (by right); done.
Qed.

Lemma trace_conservation evs (s s' : S) outs hs :
  run_trace evs s = (s', outs) ->
  present (view s') hs + count_events is_removal definite hs outs <=
  present (view s) hs + count_events is_insert possible hs outs.
Proof.
  revert s s' outs; induction evs as [|ev evs IH]; intros s s' outs; simpl.
  { intros [= <- <-]. unfold count_events. simpl. lia. }
  destruct (run_event ev s) as [s1 r] eqn:Hr. destruct (run_trace evs s1) as [s2 outs'] eqn:Ht.
  intros [= <- <-]. specialize (IH _ _ _ Ht). unfold count_events in *. simpl.
  apply run_event_cases in Hr as [(Hv & Hn & _)|(Hg & He & Hn)].
  - rewrite Hv in IH. assert (definite r = false) as ->
      by (destruct r as [[]|]; naive_solver). rewrite andb_false_r. simpl.
    destruct (is_insert ev && possible r && _); simpl; lia.
  - pose proof (event_present _ _ _ hs Hg He) as Hp.
    assert (possible r = true) as -> by (destruct r as [[]|]; naive_solver).
    rewrite andb_true_r.
    assert (one_if (is_removal ev && definite r && bool_decide (event_hash ev = hs)) <=
            one_if (is_removal ev && bool_decide (event_hash ev = hs)))
      by (destruct (is_removal ev), (definite r), (bool_decide _); simpl; lia).
    destruct (is_removal ev && definite r && _), (is_insert ev && _); simpl in *; lia.
Qed.

End Conservation.

(** ** Well-formed stores *)

Section WellFormed.
Context {S : Type} `{KvStoreLaws S view} `{PairCodecLaws}.

(** Every record and every reservation is stored under the identifier of
    the token it encodes. *)
Definition store_wf (m : KvMap) : Prop :=
  forall st hs v, m !! slot st hs = Some v -> exists t, decode v = Ok t /\ token_hash t = hs.

Lemma validate_record_hash t : validate_record t = Ok tt -> canonical_fingerprint (token_hash t) <> None.
Proof.
  unfold validate_record. intros (h & Hp & _)%rbind_Ok. by apply TokenHash_parse_Ok in Hp as [_ ?].
Qed.

Lemma decode_encode t v : encode t = Ok v -> decode v = Ok t.
Proof.
  unfold encode, decode. intros He. inv_ok. bool_prop.
  rewrite (proj2 (N.ltb_ge _ _)) by done. erewrite token_roundtrip by done. simpl.
  by match goal with Hr : validate_record t = _ |- _ => rewrite Hr end.
Qed.

Lemma decode_hash v t : decode v = Ok t -> canonical_fingerprint (token_hash t) <> None.
Proof. unfold decode. intros Hd. inv_ok. by apply validate_record_hash. Qed.

Lemma event_store_wf m ev m' :
  store_wf m -> event_effect m ev m' -> store_wf m'.
Proof.
  intros Hwf He st hs v Hl.
  destruct ev as [t|now t|now t|now t|st' hs' v']; simpl in He.
  - destruct He as (w & He & ->). apply lookup_insert_Some in Hl as [[[<- <-]%slot_inj <-]|[_ Hl]].
    + exists t. split; [by apply decode_encode|done].
    + by eapply Hwf.
  - destruct He as (w & He & ->). apply lookup_insert_Some in Hl as [[[<- <-]%slot_inj <-]|[_ Hl]].
    + exists t. split; [by apply decode_encode|done].
    + apply lookup_delete_Some in Hl as [_ Hl]. by eapply Hwf.
  - destruct He as (w & He & ->). apply lookup_delete_Some in Hl as [_ Hl].
    apply lookup_insert_Some in Hl as [[[<- <-]%slot_inj <-]|[_ Hl]].
    + exists t. split; [by apply decode_encode|done].
    + by eapply Hwf.
  - subst m'. apply lookup_delete_Some in Hl as [_ Hl]. by eapply Hwf.
  - subst m'. apply lookup_delete_Some in Hl as [_ Hl]. by eapply Hwf.
Qed.

Lemma trace_store_wf evs (s s' : S) outs :
  store_wf (view s) -> run_trace evs s = (s', outs) -> store_wf (view s').
Proof.
  revert s outs; induction evs as [|ev evs IH]; intros s outs Hwf; simpl.
  { by intros [= <- <-]. }
  destruct (run_event ev s) as [s1 r] eqn:Hr. destruct (run_trace evs s1) as [s2 outs'] eqn:Ht.
  intros [= <- <-]. eapply IH; [|done].
  apply run_event_cases in Hr as [(-> & _)|(_ & He & _)]; [done|]. by eapply event_store_wf.
Qed.

(** A slot after pruning at [now]: an expired token is gone. *)
Definition filter_live (now : N) (o : option string) : option string :=
  match o with
  | Some v => match decode v with
              | Ok t => if (expires_at_epoch t <=? now)%N then None else Some v
              | Err _ => Some v
              end
  | None => None
  end.

Lemma filter_live_idemp now o : filter_live now (filter_live now o) = filter_live now o.
Proof.
  destruct o as [v|]; simpl; [|done]. destruct (decode v) as [t|] eqn:Hd; simpl; [|by rewrite Hd].
  destruct (_ <=? _)%N eqn:Hx; simpl; [done|]. by rewrite Hd, Hx.
Qed.

Lemma prune_reservations_view now removed keys (s s' : S) n :
  (forall key, key ∈ keys -> exists hs,
     key = state_key Reserved (MkTokenHash hs) /\ canonical_fingerprint hs <> None) ->
  prune_reservations now removed keys s = (s', Ok n) ->
  forall k, view s' !! k =
    if bool_decide (k.1 = SYSTEM_KV_NAMESPACE /\ k.2 ∈ keys)
    then filter_live now (view s !! k) else view s !! k.
Proof.
  revert removed s; induction keys as [|key keys IH]; intros removed s Hkeys; cbn [prune_reservations].
  { intros [= -> _] k. rewrite bool_decide_false; [done|set_solver]. }
  destruct (Hkeys key ltac:(by left)) as (hs & Hk & Hc).
  specialize (fun removed s => IH removed s (fun key' Hin => Hkeys key' (list_elem_of_further _ _ _ Hin))).
  assert (Hstep : forall s1 removed1,
    (forall k, k <> slot Reserved hs -> view s1 !! k = view s !! k) ->
    view s1 !! slot Reserved hs = filter_live now (view s !! slot Reserved hs) ->
    prune_reservations now removed1 keys s1 = (s', Ok n) ->
    forall k, view s' !! k =
      if bool_decide (k.1 = SYSTEM_KV_NAMESPACE /\ k.2 ∈ key :: keys)
      then filter_live now (view s !! k) else view s !! k).
  { intros s1 removed1 Hother Hat Hrun k. rewrite (IH _ _ Hrun k).
    destruct (decide (k = slot Reserved hs)) as [->|Hne].
    - rewrite Hat. rewrite (bool_decide_true (_ /\ _ ∈ key :: keys)) by (split; [done|rewrite Hk; by left]).
      case_bool_decide; [apply filter_live_idemp|done].
    - rewrite Hother by done.
      assert (Hiff : (k.1 = SYSTEM_KV_NAMESPACE /\ k.2 ∈ keys) <->
                     (k.1 = SYSTEM_KV_NAMESPACE /\ k.2 ∈ key :: keys)).
      { rewrite elem_of_cons. destruct k as [ns k2]. simpl. split; [naive_solver|].
        intros [-> [->|?]]; [|done]. destruct Hne. by rewrite Hk. }
      by rewrite (bool_decide_ext _ _ Hiff). }
  intros (s0 & found & [= <- Hget] & Hrun)%eff_bind_Ok. apply law_get in Hget.
  rewrite Hk in Hget. change (view s !! slot Reserved hs = found) in Hget.
  destruct found as [v|]; [|eapply Hstep; [done|by rewrite Hget|exact Hrun]].
  rewrite eff_bind_lift in Hrun. destruct (decode v) as [t|] eqn:Hd; [|done].
  destruct (now <? expires_at_epoch t)%N eqn:Hx; bool_prop.
  - eapply Hstep; [done| |exact Hrun]. rewrite Hget. simpl. rewrite Hd.
    by rewrite (proj2 (N.leb_gt _ _)).
  - apply eff_bind_Ok in Hrun as (s1 & gone & Hdel & Hrun). rewrite Hk in Hdel.
    apply delete_if_unchanged_cases in Hdel as [(_ & Hn & Hf)|(_ & Hv & _)]; [| |done].
    { destruct gone; [done|]. by destruct (Hf eq_refl). }
    eapply Hstep; [| |exact Hrun].
    + intros k Hne. rewrite Hv. by rewrite lookup_delete_ne.
    + rewrite Hv, lookup_delete_eq, Hget. simpl. rewrite Hd. by rewrite (proj2 (N.leb_le _ _)).
Qed.

(** Reading records leaves the store alone and returns the decoded values
    of the keys, in order. *)
Lemma read_records_Ok missing keys (s s' : S) ts :
  read_records missing keys s = (s', Ok ts) ->
  s' = s /\
  Forall2 (fun key t => exists v, view s !! (SYSTEM_KV_NAMESPACE, key) = Some v /\ decode v = Ok t)
    keys ts.
Proof.
  revert s' ts; induction keys as [|key keys IH]; intros s' ts; cbn [read_records].
  { intros [= <- <-]. by split. }
  intros (s0 & found & [= <- Hget] & Hrun)%eff_bind_Ok. apply law_get in Hget.
  destruct found as [v|]; [|done]. rewrite eff_bind_lift in Hrun.
  destruct (decode v) as [t|] eqn:Hd; [|done].
  apply eff_bind_Ok in Hrun as (s1 & ts' & [-> Hf]%IH & [= <- <-]).
  split; [done|]. constructor; eauto.
Qed.

Lemma list_tokens_Ok (s s' : S) ts :
  list_tokens s = (s', Ok ts) ->
  s' = s /\
  forall t, t ∈ ts <-> exists key v,
    starts_with RECORD_PREFIX key = true /\ view s !! (SYSTEM_KV_NAMESPACE, key) = Some v /\
    decode v = Ok t.
Proof.
  unfold list_tokens. intros (s0 & keys & [= <- Hl] & Hrun)%eff_bind_Ok.
  apply law_list in Hl as [_ Hkeys]. case_match; [done|].
  apply eff_bind_Ok in Hrun as (s1 & records & [-> Hf]%read_records_Ok & [= <- <-]).
  split; [done|]. intros t. rewrite (merge_sort_Permutation token_le records). split.
  - intros Ht. apply list_elem_of_lookup in Ht as [i Ht].
    destruct (Forall2_lookup_r _ _ _ _ _ Hf Ht) as (key & Hk & v & Hv & Hd).
    assert (Hin : key ∈ keys) by (rewrite <- (merge_sort_Permutation String.le keys);
      apply list_elem_of_lookup; eauto).
    apply Hkeys in Hin as [_ Hp]. eauto.
  - intros (key & v & Hp & Hv & Hd).
    assert (Hin : key ∈ merge_sort String.le keys)
      by (rewrite (merge_sort_Permutation String.le keys); apply Hkeys; eauto).
    apply list_elem_of_lookup in Hin as [i Hi].
    destruct (Forall2_lookup_l _ _ _ _ _ Hf Hi) as (t' & Ht' & v' & Hv' & Hd').
    assert (t' = t) as -> by congruence. apply list_elem_of_lookup. eauto.
Qed.

Definition expired_at (now : N) (k : string * string) (ts : list DurablePairToken) : bool :=
  existsb (fun t => (expires_at_epoch t <=? now)%N
                    && bool_decide (k = slot Redeemable (token_hash t))) ts.

Lemma prune_records_view now removed ts (s s' : S) n :
  prune_records now removed ts s = (s', Ok n) ->
  forall k, view s' !! k = if expired_at now k ts then None else view s !! k.
Proof.
  revert removed s; induction ts as [|t ts IH]; intros removed s; cbn [prune_records].
  { by intros [= -> _]. }
  destruct (now <? expires_at_epoch t)%N eqn:Hx; bool_prop.
  { intros Hrun k. rewrite (IH _ _ Hrun k). unfold expired_at. cbn [existsb].
    by rewrite (proj2 (N.leb_gt _ _) Hx). }
  rewrite eff_bind_lift. destruct (TokenHash_parse (token_hash t)) as [h|] eqn:Hp; [|done].
  apply TokenHash_parse_Ok in Hp as [-> Hc].
  intros (s0 & found & [= <- Hget] & Hrun)%eff_bind_Ok. apply law_get in Hget.
  change (view s !! slot Redeemable (token_hash t) = found) in Hget.
  assert (Hstep : forall s1 removed1,
    view s1 = delete (slot Redeemable (token_hash t)) (view s) ->
    prune_records now removed1 ts s1 = (s', Ok n) ->
    forall k, view s' !! k = if expired_at now k (t :: ts) then None else view s !! k).
  { intros s1 removed1 Hv Hr k. rewrite (IH _ _ Hr k), Hv. unfold expired_at. cbn [existsb].
    rewrite (proj2 (N.leb_le _ _) Hx). simpl. case_bool_decide as Hk; simpl.
    - subst k. rewrite lookup_delete_eq. by destruct (existsb _ _).
    - by rewrite lookup_delete_ne. }
  destruct found as [v|].
  - apply eff_bind_Ok in Hrun as (s1 & gone & Hdel & Hrun).
    apply delete_if_unchanged_cases in Hdel as [(_ & Hn & Hf)|(_ & Hv & _)]; [| |done].
    { destruct gone; [done|]. by destruct (Hf eq_refl). }
    by eapply Hstep.
  - eapply (Hstep s); [|exact Hrun]. by rewrite delete_id.
Qed.

Lemma slot_starts_with hs : starts_with RECORD_PREFIX (state_key Redeemable (MkTokenHash hs)) = true.
Proof. apply starts_with_spec. by exists hs. Qed.

Lemma record_key_slot key :
  starts_with RECORD_PREFIX key = true -> exists hs, key = state_key Redeemable (MkTokenHash hs).
Proof. intros [r ->]%starts_with_spec. by exists r. Qed.

(** The listing names an expired token at a record slot exactly when the
    slot holds one. *)
Lemma expired_at_record (now : N) (m : KvMap) ts hs :
  store_wf m ->
  (forall t, t ∈ ts <-> exists key v,
    starts_with RECORD_PREFIX key = true /\ m !! (SYSTEM_KV_NAMESPACE, key) = Some v /\
    decode v = Ok t) ->
  (if expired_at now (slot Redeemable hs) ts then None else m !! slot Redeemable hs) =
  filter_live now (m !! slot Redeemable hs).
Proof.
  intros Hwf Hts. destruct (m !! slot Redeemable hs) as [v|] eqn:Hv; [|by destruct (expired_at _ _ _)].
  destruct (Hwf _ _ _ Hv) as (t & Hd & Ht). simpl. rewrite Hd.
  destruct (expires_at_epoch t <=? now)%N eqn:Hx.
  - assert (expired_at now (slot Redeemable hs) ts = true) as ->; [|done].
    apply existsb_exists. exists t. rewrite <- list_elem_of_In. split.
    + apply Hts. exists (state_key Redeemable (MkTokenHash hs)), v.
      split_and!; [apply slot_starts_with|done|done].
    + by rewrite Hx, bool_decide_true by (by rewrite Ht).
  - assert (expired_at now (slot Redeemable hs) ts = false) as ->; [|done].
    apply not_true_iff_false. intros (t' & Hin & [Hx' Hk%bool_decide_eq_true]%andb_true_iff)%existsb_exists.
    apply list_elem_of_In, Hts in Hin as (key & v' & Hp & Hv' & Hd').
    destruct (record_key_slot key Hp) as [hs' ->].
    destruct (Hwf Redeemable hs' v' Hv') as (t'' & Hd'' & Ht'').
    apply slot_inj in Hk as [_ Hk]. rewrite Hd'' in Hd'. injection Hd' as ->.
    assert (hs' = hs) as -> by congruence. unfold slot in Hv. simplify_eq. congruence.
Qed.

Lemma expired_at_reserved now ts hs : expired_at now (slot Reserved hs) ts = false.
Proof.
  apply not_true_iff_false. intros (t & _ & [_ Ht%bool_decide_eq_true]%andb_true_iff)%existsb_exists.
  by apply slot_inj in Ht as [? _].
Qed.

Lemma prune_view now (s s' : S) n :
  store_wf (view s) -> prune now s = (s', Ok n) ->
  forall st hs, view s' !! slot st hs = filter_live now (view s !! slot st hs).
Proof.
  intros Hwf. unfold prune. intros (s0 & rkeys & [= <- Hl] & Hrun)%eff_bind_Ok.
  apply law_list in Hl as [_ Hkeys].
  apply eff_bind_Ok in Hrun as (s1 & removed & Hres & Hrun).
  apply eff_bind_Ok in Hrun as (s2 & ts & [-> Hts]%list_tokens_Ok & Hrec).
  pose proof (prune_records_view _ _ _ _ _ _ Hrec) as Hv2.
  assert (Hv1 := fun Hk => prune_reservations_view now 0 rkeys s s1 removed Hk Hres).
  ospecialize (Hv1 _).
  { intros key [[v Hv] [hs ->]%starts_with_spec]%Hkeys. exists hs. split; [done|].
    destruct (Hwf Reserved hs v Hv) as (t & Hd & <-). by eapply decode_hash. }
  assert (Hrecs : forall hs, view s1 !! slot Redeemable hs = view s !! slot Redeemable hs).
  { intros hs. rewrite Hv1, bool_decide_false; [done|]. intros [_ Hin].
    apply Hkeys in Hin as [_ Hp]. by apply starts_with_spec in Hp as [r Hr]. }
  assert (Hress : forall hs, view s1 !! slot Reserved hs = filter_live now (view s !! slot Reserved hs)).
  { intros hs. rewrite Hv1. case_bool_decide as Hk; [done|].
    destruct (view s !! slot Reserved hs) as [v|] eqn:Hv; [|done]. destruct Hk. split; [done|].
    apply Hkeys. split; [by exists v|]. apply starts_with_spec. by exists hs. }
  assert (Hwf1 : store_wf (view s1)).
  { intros [] hs v Hv; [rewrite Hrecs in Hv; by eapply Hwf|]. rewrite Hress in Hv.
    destruct (view s !! slot Reserved hs) as [w|] eqn:Hw; [|done].
    destruct (Hwf _ _ _ Hw) as (t & Hd & Ht). simpl in Hv. rewrite Hd in Hv.
    case_match; [done|]. simplify_eq. eauto. }
  intros [] hs; rewrite Hv2.
  - by rewrite expired_at_record, Hrecs.
  - by rewrite expired_at_reserved.
Qed.

End WellFormed.

(** ** The protocol step by step *)

Section Protocol.
Context {S : Type} `{KvStoreLaws S view} `{PairCodecLaws}.

(** A definite answer decides the guard. *)
Lemma run_event_true ev (s s' : S) :
  run_event ev s = (s', Ok true) ->
  event_guard (view s) ev /\ event_effect (view s) ev (view s').
Proof. intros [(_ & Hn & _)|(? & ? & _)]%run_event_cases; done. Qed.

Lemma run_event_false ev (s s' : S) :
  run_event ev s = (s', Ok false) -> view s' = view s /\ ~ event_guard (view s) ev.
Proof. intros [(? & _ & Hg)|(_ & _ & Hn)]%run_event_cases; [auto|done]. Qed.

Lemma run_event_bool ev (s s' : S) b :
  event_guard (view s) ev -> run_event ev s = (s', Ok b) ->
  b = true /\ event_effect (view s) ev (view s').
Proof.
  intros Hg Hr. destruct b.
  - by apply run_event_true in Hr as [_ ?].
  - by apply run_event_false in Hr as [_ ?].
Qed.

Lemma redeemable_Ok now hs (s s' : S) r :
  redeemable now hs s = (s', Ok r) ->
  s' = s /\
  (forall t, r = Some t <-> exists v,
     view s !! slot Redeemable hs = Some v /\ decode v = Ok t /\ (now < expires_at_epoch t)%N).
Proof.
  unfold redeemable. rewrite eff_bind_lift.
  destruct (TokenHash_parse hs) as [h|] eqn:Hp; [|done]. apply TokenHash_parse_Ok in Hp as [-> _].
  intros (s0 & found & [= <- Hget] & Hrun)%eff_bind_Ok. apply law_get in Hget.
  change (view s !! slot Redeemable hs = found) in Hget. rewrite Hget.
  destruct found as [v|]; [|by injection Hrun as <- <-; naive_solver].
  rewrite eff_bind_lift in Hrun. destruct (decode v) as [t|] eqn:Hd; [|done].
  case_match eqn:Hx; bool_prop; injection Hrun as <- <-; (split; [done|]); intros t'.
  - split; [done|]. intros (v' & [= <-] & Hd' & ?). rewrite Hd in Hd'. injection Hd' as ->. lia.
  - split; [intros [= <-]; eauto|]. intros (v' & [= <-] & Hd' & ?). congruence.
Qed.

(** Moving a record to its reservation and back is the identity. *)
Lemma reserve_release_map (m : KvMap) hs v :
  m !! slot Redeemable hs = Some v -> m !! slot Reserved hs = None ->
  delete (slot Reserved hs) (<[slot Redeemable hs := v]>
    (<[slot Reserved hs := v]> (delete (slot Redeemable hs) m))) = m.
Proof.
  intros H1' H2'. apply map_eq. intros k. pose proof (slot_ne hs).
  destruct (decide (k = slot Reserved hs)) as [->|Hk1]; [by rewrite lookup_delete_eq|].
  rewrite lookup_delete_ne by done.
  destruct (decide (k = slot Redeemable hs)) as [->|Hk2]; [by rewrite lookup_insert_eq|].
  by rewrite !lookup_insert_ne, lookup_delete_ne by done.
Qed.

Lemma reserve_consume_map (m : KvMap) hs v :
  m !! slot Reserved hs = None ->
  delete (slot Reserved hs) (<[slot Reserved hs := v]> (delete (slot Redeemable hs) m)) =
  delete (slot Redeemable hs) m.
Proof.
  intros H2'. rewrite delete_insert_eq, delete_id; [done|].
  by rewrite lookup_delete_ne by apply slot_ne.
Qed.

Lemma redeem_Ok now hs (s s' : S) r :
  redeem now hs s = (s', Ok r) ->
  match r with
  | Some t => exists v, view s !! slot Redeemable hs = Some v /\ decode v = Ok t /\
      (now < expires_at_epoch t)%N /\ view s' = delete (slot Redeemable hs) (view s)
  | None => view s' = delete (slot Redeemable hs) (view s) /\
      (forall v t, view s !! slot Redeemable hs = Some v -> decode v = Ok t ->
         (expires_at_epoch t <= now)%N)
  end.
Proof.
  unfold redeem. rewrite eff_bind_lift.
  destruct (TokenHash_parse hs) as [h|] eqn:Hp; [|done]. apply TokenHash_parse_Ok in Hp as [-> Hc].
  intros (s0 & found & [= <- Hget] & Hrun)%eff_bind_Ok. apply law_get in Hget.
  change (view s !! slot Redeemable hs = found) in Hget.
  destruct found as [v|]; [|injection Hrun as <- <-; rewrite delete_id by done; naive_solver].
  rewrite eff_bind_lift in Hrun. destruct (decode v) as [t|] eqn:Hd; [|done].
  assert (Hdel : forall s1 b,
    delete_if_unchanged (record_key (MkTokenHash hs)) v s = (s1, Ok b) ->
    b = true /\ view s1 = delete (slot Redeemable hs) (view s)).
  { intros s1 b Hb. apply (delete_if_unchanged_cases Redeemable) in Hb
      as [(_ & Hn & Hf)|(_ & Hv & Hn)]; [| |done].
    - destruct b; [done|]. by destruct (Hf eq_refl).
    - by destruct b. }
  case_match eqn:Hx; bool_prop.
  - apply eff_bind_Ok in Hrun as (s1 & b & [-> Hv]%Hdel & [= <- <-]). split; [done|].
    intros v' t' Hv' Hd'. rewrite Hget in Hv'. injection Hv' as ->. rewrite Hd in Hd'.
    by injection Hd' as ->.
  - apply eff_bind_Ok in Hrun as (s1 & b & [-> Hv]%Hdel & [= <- <-]). eauto 6.
Qed.

End Protocol.

(** ** Progress on the in-memory backend *)

Section MemoryProgress.
Context `{PairCodecLaws}.

Lemma canonical_len hs : canonical_fingerprint hs <> None -> str_len hs = 71%N.
Proof.
  unfold canonical_fingerprint. destruct (split_once ":" hs) as [[alg dig]|] eqn:Hs; [|done].
  apply split_once_Some in Hs as ->. case_match eqn:Hc; [|done]. intros _. bool_prop. subst.
  unfold str_len in *. rewrite length_string_app. cbn [String.length]. lia.
Qed.

Lemma encode_bounds t v :
  encode t = Ok v ->
  canonical_fingerprint (token_hash t) <> None /\ (str_len v <= MAX_RECORD_BYTES)%N.
Proof.
  unfold encode. intros He. inv_ok. bool_prop. split; [by apply validate_record_hash|done].
Qed.

Lemma slot_bytes st hs len :
  canonical_fingerprint hs <> None ->
  (op_bytes (MkKvEntryKey SYSTEM_KV_NAMESPACE (state_key st (MkTokenHash hs)), len) <= 200 + len)%N.
Proof.
  intros Hc%canonical_len. unfold op_bytes, str_len in *. cbn [fst snd ek_namespace ek_key].
  change (String.length SYSTEM_KV_NAMESPACE) with 26.
  destruct st; cbn [state_key th_str]; rewrite length_string_app;
    [change (String.length RECORD_PREFIX) with 7|change (String.length RESERVATION_PREFIX) with 12];
    lia.
Qed.

(** A batch over at most two slots of one identifier is always accepted. *)
Lemma mem_apply_slots conditions mutations (s : MemoryKvStore) :
  Forall (fun c => valid_entry (condition_key c)) conditions ->
  Forall (fun m => valid_entry (mutation_key m)) mutations ->
  NoDup (condition_key <$> conditions) -> NoDup (mutation_key <$> mutations) ->
  mutations <> [] -> length conditions <= 2 -> length mutations <= 2 ->
  Forall (fun op => op_bytes op <= 200 + MAX_RECORD_BYTES)%N
    ((condition_op <$> conditions) ++ (mutation_op <$> mutations)) ->
  exists s', apply conditions mutations s = (s', Ok (map_conditions (mem_view s) conditions)).
Proof.
  intros Hc Hm Hdc Hdm Hne Hl1 Hl2 Hb.
  assert (Hsum : forall ops, Forall (fun op => op_bytes op <= 200 + MAX_RECORD_BYTES)%N ops ->
    (total_bytes ops <= N.of_nat (length ops) * (200 + MAX_RECORD_BYTES))%N).
  { induction 1 as [|op ops Ho _ IH]; cbn [total_bytes List.fold_right length]; [lia|].
    unfold total_bytes in IH. lia. }
  apply Forall_app in Hb as [Hb1%Hsum Hb2%Hsum]. rewrite length_fmap in Hb1. rewrite length_fmap in Hb2.
  assert (Hnew : KvMutationBatch_new conditions mutations = Ok (MkKvMutationBatch
    (merge_sort condition_le conditions) (merge_sort mutation_le mutations))).
  { apply KvMutationBatch_new_Ok; [done..|].
    unfold MAX_KV_BATCH_OPERATIONS, MAX_KV_BATCH_PAYLOAD_BYTES, MAX_RECORD_BYTES in *.
    split_and!; try done; lia. }
  unfold apply. simpl. rewrite Hnew.
  assert (Hvb : valid_batch (MkKvMutationBatch (merge_sort condition_le conditions)
                               (merge_sort mutation_le mutations)))
    by (split; simpl; by rewrite merge_sort_Permutation).
  destruct (mem_apply_batch s _) as [s' [o|e]] eqn:Ha.
  - apply mem_apply_view in Ha as [-> _]; [|done]. simpl. exists s'. do 2 f_equal.
    apply map_conditions_perm, merge_sort_Permutation.
  - unfold mem_apply_batch in Ha. by case_match.
Qed.

Lemma slot_keys_ne hs :
  MkKvEntryKey SYSTEM_KV_NAMESPACE (state_key Redeemable (MkTokenHash hs)) <>
  MkKvEntryKey SYSTEM_KV_NAMESPACE (state_key Reserved (MkTokenHash hs)).
Proof. intros [= Hk]. Qed.

(** Side conditions of [Happly] below, from the facts on the two slots. *)
Ltac slot_side :=
  match goal with
  | |- Forall _ ((_ <$> _) ++ _) =>
      repeat (apply Forall_cons_2; [match goal with Hb : _ |- _ => apply Hb end|]); apply Forall_nil_2
  | |- Forall _ _ => valid_entries
  | _ => simpl; solve [auto]
  end.

Definition event_token (ev : pair_event) : option DurablePairToken :=
  match ev with
  | EvIssue t | EvReserve _ t | EvRelease _ t | EvConsume _ t => Some t
  | EvDrop _ _ _ => None
  end.

(** An event about an encodable token always gets a definite answer. *)
Lemma mem_event_total ev t v (s : MemoryKvStore) :
  event_token ev = Some t -> encode t = Ok v -> exists s' b, run_event ev s = (s', Ok b).
Proof.
  intros Ht He. destruct (encode_bounds t v He) as [Hc Hlen].
  assert (Hp : TokenHash_parse (token_hash t) = Ok (MkTokenHash (token_hash t)))
    by (unfold TokenHash_parse; by destruct (canonical_fingerprint _)).
  pose proof (valid_slot Redeemable _ Hc). pose proof (valid_slot Reserved _ Hc).
  pose proof (slot_keys_ne (token_hash t)) as Hne.
  pose proof (state_key_entry _ _ Redeemable Hp) as Hrec.
  pose proof (state_key_entry _ _ Reserved Hp) as Hres.
  assert (Hb : forall st o, (opt_len o <= MAX_RECORD_BYTES)%N ->
    (op_bytes (MkKvEntryKey SYSTEM_KV_NAMESPACE (state_key st (MkTokenHash (token_hash t))), opt_len o)
       <= 200 + MAX_RECORD_BYTES)%N).
  { intros st o Ho. etransitivity; [by apply slot_bytes|]. lia. }
  assert (Hb0 := fun st => Hb st None ltac:(simpl; lia)).
  assert (Hb1 := fun st => Hb st (Some v) Hlen).
  assert (Happly : forall cs ms,
    Forall (fun c => valid_entry (condition_key c)) cs ->
    Forall (fun m => valid_entry (mutation_key m)) ms ->
    NoDup (condition_key <$> cs) -> NoDup (mutation_key <$> ms) ->
    ms <> [] -> length cs <= 2 -> length ms <= 2 ->
    Forall (fun op => op_bytes op <= 200 + MAX_RECORD_BYTES)%N
      ((condition_op <$> cs) ++ (mutation_op <$> ms)) ->
    exists s' b, apply cs ms s = (s', Ok b)).
  { intros. edestruct mem_apply_slots as [s' Hs]; [done..|]. eauto. }
  assert (Hnd1 : forall k : KvEntryKey, NoDup [k]) by (intros; apply NoDup_singleton).
  assert (Hnd2 : forall k k' : KvEntryKey, k <> k' -> NoDup [k; k'])
    by (intros; apply NoDup_cons; split; [by rewrite list_elem_of_singleton|done]).
  pose proof (not_eq_sym Hne) as Hne'.
  destruct ev as [t'|now t'|now t'|now t'|]; simpl in Ht; [injection Ht as ->..|discriminate]; cbn [run_event].
  - unfold issue. rewrite eff_bind_lift, He, eff_bind_lift, Hp, eff_bind_lift. unfold record_key.
    change (String.append RECORD_PREFIX (th_str (MkTokenHash (token_hash t))))
      with (state_key Redeemable (MkTokenHash (token_hash t))). rewrite Hrec.
    apply Happly; slot_side.
  - unfold reserve_if_unchanged. case_match; [by eexists _, _|].
    rewrite eff_bind_lift, He, eff_bind_lift, Hp. unfold reservation_key.
    rewrite eff_bind_lift, Hrec, eff_bind_lift, Hres. apply Happly; slot_side.
  - unfold release_reservation. case_match; [by eexists _, _|].
    rewrite eff_bind_lift, He, eff_bind_lift, Hp. unfold reservation_key.
    rewrite eff_bind_lift, Hrec, eff_bind_lift, Hres. apply Happly; slot_side.
  - unfold consume_reservation. case_match; [by eexists _, _|].
    rewrite eff_bind_lift, He, eff_bind_lift, Hp. unfold delete_if_unchanged, reservation_key.
    rewrite eff_bind_lift, Hres. apply Happly; slot_side.
Qed.

(** A definite answer to an event whose guard holds is yes. *)
Lemma mem_event_true ev t v (s : MemoryKvStore) :
  event_token ev = Some t -> encode t = Ok v -> event_guard (mem_view s) ev ->
  exists s', run_event ev s = (s', Ok true) /\ event_effect (mem_view s) ev (mem_view s').
Proof.
  intros Ht He Hg. destruct (mem_event_total ev t v s Ht He) as (s' & b & Hr).
  exists s'. by destruct (run_event_bool (view := mem_view) ev s s' b Hg Hr) as [-> ?].
Qed.

Lemma mem_redeemable now t v (s : MemoryKvStore) :
  encode t = Ok v -> (now < expires_at_epoch t)%N ->
  mem_view s !! slot Redeemable (token_hash t) = Some v ->
  redeemable now (token_hash t) s = (s, Ok (Some t)).
Proof.
  intros He Hx Hv. destruct (encode_bounds t v He) as [Hc _]. unfold redeemable. rewrite eff_bind_lift.
  assert (TokenHash_parse (token_hash t) = Ok (MkTokenHash (token_hash t))) as ->
    by (unfold TokenHash_parse; by destruct (canonical_fingerprint _)).
  destruct (valid_slot Redeemable _ Hc) as [Hns Hk].
  assert (Hget : kv_get s SYSTEM_KV_NAMESPACE (state_key Redeemable (MkTokenHash (token_hash t))) =
    Ok (Some v)) by (rewrite <- Hv; by apply mem_get_total).
  unfold eff_bind at 1, eff_read. rewrite Hget. cbv beta iota. rewrite eff_bind_lift.
  rewrite (decode_encode t v He). by rewrite (proj2 (N.leb_gt _ _) Hx).
Qed.

End MemoryProgress.

(** ** Properties *)

(** C17: a pairing token is single-use under every interleaving.  Whatever
    sequence of issue, reserve, release, consume and conditional-delete calls
    any number of handlers make, with whatever values they read earlier, and
    even if calls fail with an ambiguous outcome, the number of definite
    removals of an identifier plus the copies still live never exceeds the
    copies live at the start plus the issues that may have succeeded. *)
Theorem pair_token_conserved {S : Type} `{KvStoreLaws S view} `{PairCodec} :
  forall (evs : list pair_event) (s : S) hs,
  let '(s', outs) := run_trace evs s in
  present (view s') hs + count_events is_removal definite hs outs <=
  present (view s) hs + count_events is_insert possible hs outs.
Proof.
  intros evs s hs. destruct (run_trace evs s) as [s' outs] eqn:Ht. by eapply trace_conservation.
Qed.

(** a successful reservation owns its token exactly: the record is
    moved out of sight of other redeemers, a second reservation fails, and
    from there a release restores the store to what it was before the
    reservation while a consume leaves it with the token gone. *)
Theorem reservation_owns_token {S : Type} `{KvStoreLaws S view} `{PairCodecLaws} :
  forall now t (s s1 : S),
  reserve_if_unchanged now t s = (s1, Ok true) ->
  (forall s2 r, redeemable now (token_hash t) s1 = (s2, Ok r) -> r = None) /\
  (forall s2 b, reserve_if_unchanged now t s1 = (s2, Ok b) -> b = false) /\
  (forall s2 b, release_reservation now t s1 = (s2, Ok b) -> b = true /\ view s2 = view s) /\
  (forall s2 b, consume_reservation now t s1 = (s2, Ok b) ->
     b = true /\ view s2 = delete (slot Redeemable (token_hash t)) (view s)).
Proof.
  intros now t s s1 Hr. apply (run_event_true (EvReserve now t)) in Hr as [Hg He].
  simpl in Hg, He. destruct Hg as (v & Hv & Hx & G1 & G2), He as (v' & Hv' & E).
  rewrite Hv in Hv'. injection Hv' as <-.
  assert (Hrec : view s1 !! slot Redeemable (token_hash t) = None).
  { rewrite E, lookup_insert_ne, lookup_delete_eq; [done|]. apply not_eq_sym, slot_ne. }
  assert (Hres : view s1 !! slot Reserved (token_hash t) = Some v) by (by rewrite E, lookup_insert_eq).
  split_and!; intros s2 b Hb.
  - apply redeemable_Ok in Hb as [_ Hb]. destruct b as [t'|]; [|done].
    destruct (proj1 (Hb t') eq_refl) as (w & Hw & _). congruence.
  - destruct b; [|done]. apply (run_event_true (EvReserve now t)) in Hb as [(w & _ & _ & Hw & _) _].
    congruence.
  - apply (run_event_bool (EvRelease now t)) in Hb as [-> (w & Hw & ->)]; [|simpl; eauto].
    rewrite Hv in Hw. injection Hw as <-. split; [done|]. rewrite E. by apply reserve_release_map.
  - apply (run_event_bool (EvConsume now t)) in Hb as [-> ->]; [|simpl; eauto].
    split; [done|]. rewrite E. by apply reserve_consume_map.
Qed.

(** the store stays well formed under every interleaving: each record
    and each reservation decodes to a token within its bounds whose own
    identifier is the key it is stored under. *)
Theorem store_wf_preserved {S : Type} `{KvStoreLaws S view} `{PairCodecLaws} :
  forall evs (s : S), store_wf (view s) -> store_wf (view (run_trace evs s).1).
Proof.
  intros evs s Hwf. destruct (run_trace evs s) as [s' outs] eqn:Ht. by eapply trace_store_wf.
Qed.

(** on a well-formed store, a successful [prune] removes exactly the
    records and the abandoned reservations that have expired, and keeps every
    other one unchanged. *)
Theorem prune_exact {S : Type} `{KvStoreLaws S view} `{PairCodecLaws} :
  forall now (s s' : S) n,
  store_wf (view s) -> prune now s = (s', Ok n) ->
  forall st hs, view s' !! slot st hs = filter_live now (view s !! slot st hs).
Proof. intros. by eapply prune_view. Qed.

(** [redeem] returns a token only if it was stored under that
    identifier and unexpired, and in every successful outcome the identifier
    is no longer redeemable afterwards. *)
Theorem redeem_consumes {S : Type} `{KvStoreLaws S view} `{PairCodec} :
  forall now hs (s s' : S) r,
  redeem now hs s = (s', Ok r) ->
  view s' = delete (slot Redeemable hs) (view s) /\
  (forall t, r = Some t <->
     exists v, view s !! slot Redeemable hs = Some v /\ decode v = Ok t /\
       (now < expires_at_epoch t)%N).
Proof.
  intros now hs s s' r Hr. apply redeem_Ok in Hr. destruct r as [t|].
  - destruct Hr as (v & Hv & Hd & Hx & E). split; [done|]. intros t'. split.
    + intros [= <-]. eauto.
    + intros (v' & Hv' & Hd' & _). congruence.
  - destruct Hr as [E Hx]. split; [done|]. intros t. split; [done|].
    intros (v & Hv & Hd & Hlt). specialize (Hx _ _ Hv Hd). lia.
Qed.

Section LegacyImport.
Context {S : Type} `{KvStoreLaws S view} `{PairCodecLaws} `{Hashing}.
Context (uid_for : PrincipalId -> option PrincipalUid).

Lemma verify_count_Ok expected (s s' : S) :
  verify_count expected s = (s', Ok tt) ->
  exists keys, kv_list_keys_with_prefix s SYSTEM_KV_NAMESPACE RECORD_PREFIX = Ok keys /\
    N.of_nat (length keys) = expected.
Proof.
  unfold verify_count. intros (s0 & keys & [= <- Hl] & Hrun)%eff_bind_Ok. exists keys.
  split; [done|]. case_match eqn:Hc; [done|]. bool_prop. done.
Qed.

Lemma import_with_receipt_Ok bytes (s : S) w :
  import_with_receipt None bytes (s, None) = (w, Ok tt) ->
  exists receipt keys, receipt_from_json bytes = Some receipt /\
    kv_list_keys_with_prefix s SYSTEM_KV_NAMESPACE RECORD_PREFIX = Ok keys /\
    N.of_nat (length keys) = record_count receipt.
Proof.
  unfold import_with_receipt. rewrite eff_bind_lift.
  destruct (receipt_from_json bytes) as [receipt|] eqn:Hr; [|done]. simpl.
  case_match; [done|]. intros (w1 & [] & Hv & _)%eff_bind_Ok. unfold on_store in Hv.
  destruct (verify_count (record_count receipt) (s, None).1) as [s1 r] eqn:Hvc.
  injection Hv as <- ->. apply verify_count_Ok in Hvc as (keys & ? & ?). eauto.
Qed.

Lemma ensure_with_receipt (s : S) bytes :
  kv_get s SYSTEM_KV_NAMESPACE LEGACY_RECEIPT_KEY = Ok (Some bytes) ->
  ensure_legacy_import uid_for (s, None) = import_with_receipt None bytes (s, None).
Proof. intros Hg. unfold ensure_legacy_import, eff_bind, eff_read, on_store. simpl. by rewrite Hg. Qed.

(** Issuing adds exactly one key to the record listing. *)
Lemma issue_grows_listing t (s s' : S) keys keys' :
  issue t s = (s', Ok true) ->
  kv_list_keys_with_prefix s SYSTEM_KV_NAMESPACE RECORD_PREFIX = Ok keys ->
  kv_list_keys_with_prefix s' SYSTEM_KV_NAMESPACE RECORD_PREFIX = Ok keys' ->
  length keys' = Datatypes.S (length keys).
Proof.
  intros Hi Hk Hk'. apply (run_event_true (EvIssue t)) in Hi as [Hg (v & _ & E)]. simpl in Hg.
  apply law_list in Hk as [Hnd Hk], Hk' as [Hnd' Hk'].
  set (new := state_key Redeemable (MkTokenHash (token_hash t))).
  rewrite (Permutation_length (l := keys') (l' := new :: keys)); [done|].
  apply NoDup_Permutation; [done| |].
  - constructor; [|done]. intros [[w Hw] _]%Hk.
    change (view s !! slot Redeemable (token_hash t) = Some w) in Hw. congruence.
  - intros k. rewrite elem_of_cons, Hk, Hk', E. destruct (decide (k = new)) as [->|Hne].
    + split; [by left|]. intros _. split; [|apply slot_starts_with]. exists v. apply lookup_insert_eq.
    + rewrite lookup_insert_ne; [naive_solver|]. intros [= Heq]. by destruct Hne.
Qed.

Lemma import_blocks (s s' : S) w bytes t :
  kv_get s SYSTEM_KV_NAMESPACE LEGACY_RECEIPT_KEY = Ok (Some bytes) ->
  ensure_legacy_import uid_for (s, None) = (w, Ok tt) ->
  issue t s = (s', Ok true) ->
  exists e, (ensure_legacy_import uid_for (s', None)).2 = Err e.
Proof.
  intros Hg Hok Hi. destruct (ensure_legacy_import uid_for (s', None)) as [w' [[]|e]] eqn:He; [|by exists e].
  exfalso. rewrite (ensure_with_receipt s bytes Hg) in Hok.
  apply import_with_receipt_Ok in Hok as (receipt & keys & Hr & Hk & Hn).
  assert (Hg' : kv_get s' SYSTEM_KV_NAMESPACE LEGACY_RECEIPT_KEY = Ok (Some bytes)).
  { unfold ensure_legacy_import in He. rewrite !eff_bind_Ok in He.
    destruct He as (w1 & src & [= <- <-] & He). apply eff_bind_Ok in He as (w2 & rc & Hrc & _).
    unfold on_store, eff_read in Hrc. simpl in Hrc. injection Hrc as _ Hrc. rewrite Hrc. f_equal.
    apply law_get in Hg, Hrc. rewrite <- Hrc, <- Hg.
    apply (run_event_true (EvIssue t)) in Hi as [_ (v & _ & ->)].
    apply lookup_insert_ne. intros [= Hkey]. }
  rewrite (ensure_with_receipt s' bytes Hg') in He.
  apply import_with_receipt_Ok in He as (receipt' & keys' & Hr' & Hk' & Hn').
  rewrite Hr in Hr'. injection Hr' as <-.
  pose proof (issue_grows_listing t s s' keys keys' Hi Hk Hk'). lia.
Qed.

End LegacyImport.

(** Once a legacy import has left its receipt, the startup check only
    accepts the store while it holds exactly the imported number of records:
    after the next successfully issued token the check fails, and with it
    every later issue and redeem request, which run it first. *)
Theorem legacy_receipt_blocks_issuance {S : Type} `{KvStoreLaws S view} `{PairCodecLaws} `{Hashing} :
  forall (uid_for : PrincipalId -> option PrincipalUid) (s s' : S) w bytes t,
  kv_get s SYSTEM_KV_NAMESPACE LEGACY_RECEIPT_KEY = Ok (Some bytes) ->
  ensure_legacy_import uid_for (s, None) = (w, Ok tt) ->
  issue t s = (s', Ok true) ->
  exists e, (ensure_legacy_import uid_for (s', None)).2 = Err e.
Proof. intros. by eapply import_blocks. Qed.

(** ** Concrete instances *)

Definition hash_a : string := "blake3:00000000000000000000000000000000000000000000000000000000000000aa".
Definition hash_b : string := "blake3:00000000000000000000000000000000000000000000000000000000000000bb".
Definition token_a : DurablePairToken :=
  MkDurablePairToken hash_a (MkPrincipalUid "uid") 400 100 (Some "phone") ScopeFull.
Definition token_b : DurablePairToken :=
  MkDurablePairToken hash_b (MkPrincipalUid "uid") 900 700 None ScopeFull.
Definition receipt_a : LegacyImportReceipt := MkLegacyImportReceipt 1 "blake3:legacy" 0.

(** A codec that knows two tokens and one receipt. *)
Definition table_codec : PairCodec := {|
  token_to_json t := if bool_decide (t = token_a) then Some "a"
                     else if bool_decide (t = token_b) then Some "b" else None;
  token_from_json v := if bool_decide (v = "a") then Some token_a
                       else if bool_decide (v = "b") then Some token_b else None;
  receipt_to_json _ := None;
  receipt_from_json v := if bool_decide (v = "r") then Some receipt_a else None;
  legacy_probe _ := None;
  legacy_records _ := None;
|}.

#[local] Existing Instance table_codec.

#[local] Instance table_codec_laws : PairCodecLaws.
Proof.
  split; simpl.
  - intros t v. repeat case_bool_decide; intros; by simplify_eq.
  - done.
Qed.

Definition demo_events : list pair_event :=
  [EvIssue token_a; EvReserve 200 token_a; EvConsume 200 token_a; EvConsume 200 token_a;
   EvDrop Redeemable hash_a "a"].

Lemma pair_token_conserved_witness :
  count_events is_removal definite hash_a (run_trace demo_events MemoryKvStore_new).2 = 1 /\
  let '(s', outs) := run_trace demo_events MemoryKvStore_new in
  present (mem_view s') hash_a + count_events is_removal definite hash_a outs <=
  present (mem_view MemoryKvStore_new) hash_a + count_events is_insert possible hash_a outs.
Proof.
  split; [vm_compute; reflexivity|].
  exact (pair_token_conserved (view := mem_view) demo_events MemoryKvStore_new hash_a).
Defined.

Definition with_a : MemoryKvStore := (issue token_a MemoryKvStore_new).1.

Lemma reservation_owns_token_witness :
  exists s1, reserve_if_unchanged 200 token_a with_a = (s1, Ok true) /\
    forall s2 b, release_reservation 200 token_a s1 = (s2, Ok b) -> mem_view s2 = mem_view with_a.
Proof.
  exists (reserve_if_unchanged 200 token_a with_a).1.
  assert (reserve_if_unchanged 200 token_a with_a =
    ((reserve_if_unchanged 200 token_a with_a).1, Ok true)) as E by (vm_compute; reflexivity).
  split; [exact E|]. intros s2 b Hb.
  exact (proj2 (proj1 (proj2 (proj2 (reservation_owns_token (view := mem_view) _ _ _ _ E))) _ _ Hb)).
Defined.

Lemma store_wf_empty : store_wf (mem_view MemoryKvStore_new).
Proof. intros st hs v. by vm_compute. Qed.

Lemma store_wf_preserved_witness :
  store_wf (mem_view (run_trace [EvIssue token_a] MemoryKvStore_new).1).
Proof.
  exact (store_wf_preserved (view := mem_view) [EvIssue token_a] MemoryKvStore_new store_wf_empty).
Defined.

Lemma with_a_wf : store_wf (mem_view with_a).
Proof.
  change with_a with (issue token_a MemoryKvStore_new).1.
  destruct (issue token_a MemoryKvStore_new) as [s r] eqn:E.
  apply (trace_store_wf (view := mem_view) [EvIssue token_a] MemoryKvStore_new s [(EvIssue token_a, r)]).
  - exact store_wf_empty.
  - cbn [run_trace run_event]. by rewrite E.
Qed.

Lemma prune_exact_witness :
  exists s', prune 500 with_a = (s', Ok 1%N) /\ mem_view s' !! slot Redeemable hash_a = None.
Proof.
  exists (prune 500 with_a).1.
  assert (prune 500 with_a = ((prune 500 with_a).1, Ok 1%N)) as E by (vm_compute; reflexivity).
  split; [exact E|].
  rewrite (prune_exact (view := mem_view) _ _ _ _ with_a_wf E Redeemable hash_a).
  vm_compute. reflexivity.
Defined.

Lemma redeem_consumes_witness :
  exists s', redeem 200 hash_a with_a = (s', Ok (Some token_a)) /\
    mem_view s' = delete (slot Redeemable hash_a) (mem_view with_a).
Proof.
  exists (redeem 200 hash_a with_a).1.
  assert (redeem 200 hash_a with_a = ((redeem 200 hash_a with_a).1, Ok (Some token_a))) as E
    by (vm_compute; reflexivity).
  split; [exact E|]. exact (proj1 (redeem_consumes (view := mem_view) _ _ _ _ _ E)).
Defined.

Definition imported : MemoryKvStore :=
  (mem_set MemoryKvStore_new SYSTEM_KV_NAMESPACE LEGACY_RECEIPT_KEY "r").1.

Lemma legacy_receipt_blocks_issuance_witness :
  exists s', issue token_a imported = (s', Ok true) /\
    exists e, (@ensure_legacy_import _ _ _ constant_hashing (fun _ => None) (s', None)).2 = Err e.
Proof.
  exists (issue token_a imported).1.
  assert (issue token_a imported = ((issue token_a imported).1, Ok true)) as E
    by (vm_compute; reflexivity).
  split; [exact E|].
  refine (legacy_receipt_blocks_issuance (view := mem_view) _ imported _ (imported, None) "r"
            token_a _ _ E).
  - vm_compute. reflexivity.
  - vm_compute. reflexivity.
Defined.

(** on the in-memory backend the whole life of a token goes through: a
    fresh, encodable, unexpired token can be issued, is then redeemable with
    exactly the contents it was issued with, can be reserved, and its
    consumption leaves the store as it was before the issue. *)
Theorem pair_token_lifecycle `{PairCodecLaws} :
  forall now t v (s : MemoryKvStore),
  encode t = Ok v -> (now < expires_at_epoch t)%N ->
  (forall st, mem_view s !! slot st (token_hash t) = None) ->
  exists s1 s2 s3,
    issue t s = (s1, Ok true) /\
    redeemable now (token_hash t) s1 = (s1, Ok (Some t)) /\
    reserve_if_unchanged now t s1 = (s2, Ok true) /\
    consume_reservation now t s2 = (s3, Ok true) /\
    mem_view s3 = mem_view s.
Proof.
  intros now t v s He Hx Hfresh.
  destruct (mem_event_true (EvIssue t) t v s eq_refl He (Hfresh Redeemable)) as (s1 & R1 & v1 & E1 & V1).
  rewrite He in E1. injection E1 as <-.
  assert (Hrec : mem_view s1 !! slot Redeemable (token_hash t) = Some v) by (by rewrite V1, lookup_insert_eq).
  assert (Hres : mem_view s1 !! slot Reserved (token_hash t) = None)
    by (rewrite V1, lookup_insert_ne by apply slot_ne; apply Hfresh).
  destruct (mem_event_true (EvReserve now t) t v s1 eq_refl He ltac:(simpl; eauto 6))
    as (s2 & R2 & v2 & E2 & V2). rewrite He in E2. injection E2 as <-.
  destruct (mem_event_true (EvConsume now t) t v s2 eq_refl He) as (s3 & R3 & V3).
  { simpl. exists v. split_and!; [done|done|]. by rewrite V2, lookup_insert_eq. }
  exists s1, s2, s3. split_and!; [exact R1|by eapply mem_redeemable|exact R2|exact R3|].
  simpl in V3. rewrite V3, V2, reserve_consume_map by done. rewrite V1.
  rewrite delete_insert_id; [done|]. apply (Hfresh Redeemable).
Qed.

Lemma pair_token_lifecycle_witness :
  exists s1 s2 s3,
    issue token_a MemoryKvStore_new = (s1, Ok true) /\
    redeemable 200 hash_a s1 = (s1, Ok (Some token_a)) /\
    reserve_if_unchanged 200 token_a s1 = (s2, Ok true) /\
    consume_reservation 200 token_a s2 = (s3, Ok true) /\
    mem_view s3 = mem_view MemoryKvStore_new.
Proof.
  refine (pair_token_lifecycle 200 token_a "a" MemoryKvStore_new _ _ _).
  - vm_compute. reflexivity.
  - vm_compute. reflexivity.
  - intros st. destruct st; vm_compute; reflexivity.
Defined.
