(* ===== verification/ProfileStore.v ===== *)
(** * Profile files and the profile cache

    [crates/astrid-core/src/profile/io_impl.rs]: loading and saving profile
    files, and [crates/astrid-capsule/src/profile_cache/] ([mod.rs],
    [load.rs]): the process-wide cache with its in-flight load tokens.

    A profile file is its contents; [toml] is the class [ProfileCodec].  Reads
    fail only because the file is missing (other I/O errors take the same
    [Err] path as a missing file under [load_required]).  The cache is
    verified as a concurrent machine: loaders, disk writers and invalidations
    interleave at the granularity of the code's lock regions and disk
    accesses. *)

From S2P Require Import Prelude CapabilityGrammar Profile.
From Stdlib Require Import Ascii.
Local Open Scope string_scope.
Local Open Scope list_scope.

Class ProfileCodec : Type := {
  profile_to_toml : PrincipalProfile -> option string;
  profile_from_toml : string -> option PrincipalProfile;
}.

Section Files.
Context `{Hashing} `{ProfileCodec}.

(** A device key that reading back does not change (see
    [DeviceKey_deserialize]). *)
Definition device_key_stable (k : DeviceKey) : Prop :=
  validate_pubkey_hex (dk_pubkey k) = Ok tt /\
  dk_key_id k = device_key_id_fingerprint (dk_pubkey k).

Definition set_quotas (p : PrincipalProfile) (q : Quotas) : PrincipalProfile :=
  MkPrincipalProfile (profile_version p) (enabled p) (pp_groups p) (pp_grants p) (pp_revokes p)
    (pp_capsules p) (pp_auth p) (pp_network p) (pp_approvals p) (pp_process p) q.

(** Parse, coerce and validate: the common tail of the two loaders. *)
Definition parse_profile (content : string) : result PrincipalProfile ProfileError :=
  let? profile := ok_or (profile_from_toml content) ProfileParse in
  let profile := set_quotas profile (coerce_legacy_zero_cpu_fuel (pp_quotas profile)) in
  let? _ := PrincipalProfile_validate profile in
  Ok profile.

Definition load_required (file : option string) : result PrincipalProfile ProfileError :=
  let? content := ok_or file ProfileIoNotFound in parse_profile content.

Definition load_from_path (file : option string) : result PrincipalProfile ProfileError :=
  match file with
  | None => Ok PrincipalProfile_default
  | Some content => parse_profile content
  end.

Definition save_to_path (p : PrincipalProfile) : result string ProfileError :=
  let? _ := PrincipalProfile_validate p in
  ok_or (profile_to_toml p) ProfileSerialize.

(** The loader [resolve] uses: only the [default] principal may be missing. *)
Definition load_for (principal : PrincipalId) (file : option string)
    : result PrincipalProfile ProfileError :=
  if bool_decide (principal = PrincipalId_default) then load_from_path file
  else load_required file.

End Files.

Class ProfileCodecLaws `{Hashing} `{ProfileCodec} : Prop := {
  profile_roundtrip p v :
    profile_to_toml p = Some v -> Forall device_key_stable (auth_public_keys (pp_auth p)) ->
    profile_from_toml v = Some p;
  (** Device keys are read through [DeviceKey_deserialize]. *)
  profile_keys_stable p v :
    profile_from_toml v = Some p -> Forall device_key_stable (auth_public_keys (pp_auth p));
}.

(** ** The cache *)

Record ProfileCacheState : Type := MkProfileCacheState {
  profiles : gmap PrincipalId PrincipalProfile;
  loads : gmap PrincipalId nat;
}.

Definition cache_invalidate (st : ProfileCacheState) (principal : PrincipalId) : ProfileCacheState :=
  MkProfileCacheState (delete principal (profiles st)) (delete principal (loads st)).

(** [begin_load]: join the load in flight, if its token is still held by
    some loader, or register a fresh token.  Tokens are allocation
    identities, numbered here. *)
Definition begin_load (st : ProfileCacheState) (alive : nat -> bool) (fresh : nat)
    (principal : PrincipalId) : ProfileCacheState * nat :=
  match loads st !! principal with
  | Some token => if alive token then (st, token)
                  else (MkProfileCacheState (profiles st) (<[principal := fresh]> (loads st)), fresh)
  | None => (MkProfileCacheState (profiles st) (<[principal := fresh]> (loads st)), fresh)
  end.

Definition is_current (st : ProfileCacheState) (principal : PrincipalId) (token : nat) : bool :=
  bool_decide (loads st !! principal = Some token).

Definition publish_loaded (st : ProfileCacheState) (principal : PrincipalId) (token : nat)
    (profile : PrincipalProfile) : ProfileCacheState * option PrincipalProfile :=
  if negb (is_current st principal token) then (st, None)
  else match profiles st !! principal with
       | Some entry => (st, Some entry)
       | None => (MkProfileCacheState (<[principal := profile]> (profiles st)) (loads st), Some profile)
       end.

(** [finish]: called as the loader drops its token; [others] tells whether
    another loader still holds it. *)
Definition finish (st : ProfileCacheState) (principal : PrincipalId) (token : nat) (others : bool)
    : ProfileCacheState :=
  if is_current st principal token && negb others
  then MkProfileCacheState (profiles st) (delete principal (loads st))
  else st.

(** ** Resolution and persistence *)

Record ProfileWorld : Type := MkProfileWorld {
  pw_cache : ProfileCacheState;
  pw_disk : gmap PrincipalId string;
}.

Definition eq_ignore_ascii_case (a b : string) : bool :=
  bool_decide (to_ascii_lowercase a = to_ascii_lowercase b).

Definition set_network (p : PrincipalProfile) (n : NetworkConfig) : PrincipalProfile :=
  MkPrincipalProfile (profile_version p) (enabled p) (pp_groups p) (pp_grants p) (pp_revokes p)
    (pp_capsules p) (pp_auth p) n (pp_approvals p) (pp_process p) (pp_quotas p).
Definition set_approvals (p : PrincipalProfile) (a : ApprovalsConfig) : PrincipalProfile :=
  MkPrincipalProfile (profile_version p) (enabled p) (pp_groups p) (pp_grants p) (pp_revokes p)
    (pp_capsules p) (pp_auth p) (pp_network p) a (pp_process p) (pp_quotas p).

Definition insert_cached (st : ProfileCacheState) (principal : PrincipalId) (p : PrincipalProfile)
    : ProfileCacheState :=
  MkProfileCacheState (<[principal := p]> (profiles st)) (loads st).

Section Persist.
Context `{Hashing} `{ProfileCodec}.

(** One thread's [resolve]: the loop goes round again only if the token it
    loaded under is no longer current when it publishes.  No other loader is
    running, so no registered token is alive. *)
Fixpoint resolve_loop (fuel : nat) (principal : PrincipalId) (w : ProfileWorld)
    : ProfileWorld * option (result PrincipalProfile ProfileError) :=
  match fuel with
  | O => (w, None)
  | S fuel' =>
      match profiles (pw_cache w) !! principal with
      | Some profile => (w, Some (Ok profile))
      | None =>
          let '(c, token) := begin_load (pw_cache w) (fun _ => false) 0 principal in
          match load_for principal (pw_disk w !! principal) with
          | Err e => (MkProfileWorld (finish c principal token false) (pw_disk w), Some (Err e))
          | Ok profile =>
              let '(c', published) := publish_loaded c principal token profile in
              let w' := MkProfileWorld (finish c' principal token false) (pw_disk w) in
              match published with
              | Some entry => (w', Some (Ok entry))
              | None => resolve_loop fuel' principal w'
              end
          end
      end
  end.

(** What [resolve] evaluates to when nothing interferes. *)
Definition resolve_value (w : ProfileWorld) (principal : PrincipalId)
    : result PrincipalProfile ProfileError :=
  match profiles (pw_cache w) !! principal with
  | Some profile => Ok profile
  | None => load_for principal (pw_disk w !! principal)
  end.

(** The cache entry that [resolve] leaves behind. *)
Definition resolve_world (w : ProfileWorld) (principal : PrincipalId) : ProfileWorld :=
  match profiles (pw_cache w) !! principal with
  | Some _ => w
  | None =>
      MkProfileWorld (MkProfileCacheState
        (match load_for principal (pw_disk w !! principal) with
         | Ok p => <[principal := p]> (profiles (pw_cache w))
         | Err _ => profiles (pw_cache w)
         end) (delete principal (loads (pw_cache w)))) (pw_disk w)
  end.

(** Write the file, then drop the cached entry. *)
Definition save_and_invalidate (principal : PrincipalId) (p : PrincipalProfile)
    : eff ProfileWorld ProfileError unit :=
  fun w => match save_to_path p with
           | Err e => (w, Err e)
           | Ok content =>
               (MkProfileWorld (cache_invalidate (pw_cache w) principal)
                  (<[principal := content]> (pw_disk w)), Ok tt)
           end.

Definition refresh_cached (principal : PrincipalId) (p : PrincipalProfile)
    : eff ProfileWorld ProfileError unit :=
  fun w => (MkProfileWorld (insert_cached (pw_cache w) principal p) (pw_disk w), Ok tt).

Definition persist_egress (principal : PrincipalId) (capsule_id endpoint : string)
    : eff ProfileWorld ProfileError unit :=
  do? profile := eff_read (fun w => load_from_path (pw_disk w !! principal)) in
  let egress := net_capsule_egress (pp_network profile) in
  let entries := default [] (egress !! capsule_id) in
  if existsb (fun e => eq_ignore_ascii_case e endpoint) entries
  then refresh_cached principal profile
  else
    let network := MkNetworkConfig (net_egress (pp_network profile))
                     (<[capsule_id := entries ++ [endpoint]]> egress) in
    save_and_invalidate principal (set_network profile network).

Definition persist_command_at (principal : PrincipalId) (raw : string)
    (workspace_root : option string) (location : CommandApprovalLocation)
    : eff ProfileWorld ProfileError unit :=
  let command := trim raw in
  if is_empty command then eff_lift (invalid ApprovalCommandEmpty)
  else if match workspace_root with Some ws => is_empty (trim ws) | None => false end
  then eff_lift (invalid ApprovalWorkspaceRootEmpty)
  else
    do? profile := eff_read (fun w => load_for principal (pw_disk w !! principal)) in
    if negb (enabled profile) then eff_lift (invalid DisabledPrincipal)
    else
      let grants := command_always (pp_approvals profile) in
      if existsb (fun g => bool_decide (cag_command g = command)
                           && bool_decide (cag_location g = location)
                           && bool_decide (cag_workspace_root g = workspace_root)) grants
      then refresh_cached principal profile
      else
        save_and_invalidate principal (set_approvals profile (MkApprovalsConfig
          (grants ++ [MkCommandAlwaysGrant command location workspace_root]))).

Definition persist_command_always (principal : PrincipalId) (command : string)
    (workspace_root : option string) : eff ProfileWorld ProfileError unit :=
  persist_command_at principal command workspace_root Hosted.

Definition persist_astrid_command_always (principal : PrincipalId) (command : string)
    : eff ProfileWorld ProfileError unit :=
  persist_command_at principal command None AstridWorkspace.

End Persist.

(** ** The concurrent machine *)

(** Where a loader inside [resolve] stands: it has registered its token, it
    has read the disk, or it has published (or given up) and is about to
    drop its token. *)
Inductive load_phase : Type :=
| PhaseBegun
| PhaseRead (profile : PrincipalProfile)
| PhaseDone.

Record loader : Type := MkLoader {
  ld_principal : PrincipalId;
  ld_token : nat;
  ld_phase : load_phase;
}.

Record machine : Type := MkMachine {
  mc_cache : ProfileCacheState;
  mc_disk : gmap PrincipalId string;
  mc_loaders : gmap nat loader;
  mc_next : nat;
  (** Ghost: the file contents (absence included) a principal has had since
      its last invalidation, oldest first. *)
  mc_since : PrincipalId -> list (option string);
}.

Definition with_cache (m : machine) (c : ProfileCacheState) : machine :=
  MkMachine c (mc_disk m) (mc_loaders m) (mc_next m) (mc_since m).
Definition with_loader (m : machine) (t : nat) (l : loader) : machine :=
  MkMachine (mc_cache m) (mc_disk m) (<[t := l]> (mc_loaders m)) (mc_next m) (mc_since m).

(** Does a loader, other than [t] if given, hold the token? *)
Definition held_by (m : machine) (except : option nat) (token : nat) : bool :=
  existsb (fun '(t, l) => (ld_token l =? token)%nat && negb (bool_decide (except = Some t)))
    (map_to_list (mc_loaders m)).

Definition set_since (m : machine) (principal : PrincipalId) (h : list (option string))
    : PrincipalId -> list (option string) :=
  fun q => if bool_decide (q = principal) then h else mc_since m q.

Definition begin_machine (m : machine) (t : nat) (principal : PrincipalId) : machine :=
  let '(c, token) := begin_load (mc_cache m) (held_by m None) (mc_next m) principal in
  MkMachine c (mc_disk m) (<[t := MkLoader principal token PhaseBegun]> (mc_loaders m))
    (S (mc_next m)) (mc_since m).

Definition finish_machine (m : machine) (t : nat) (l : loader) : machine :=
  MkMachine (finish (mc_cache m) (ld_principal l) (ld_token l) (held_by m (Some t) (ld_token l)))
    (mc_disk m) (delete t (mc_loaders m)) (mc_next m) (mc_since m).

Definition write_machine (m : machine) (principal : PrincipalId) (content : option string) : machine :=
  MkMachine (mc_cache m)
    (match content with
     | Some c => <[principal := c]> (mc_disk m)
     | None => delete principal (mc_disk m)
     end)
    (mc_loaders m) (mc_next m)
    (set_since m principal (mc_since m principal ++ [content])).

Definition invalidate_machine (m : machine) (principal : PrincipalId) : machine :=
  MkMachine (cache_invalidate (mc_cache m) principal) (mc_disk m) (mc_loaders m) (mc_next m)
    (set_since m principal [mc_disk m !! principal]).

Inductive mlabel : Type :=
| LReturned (principal : PrincipalId) (profile : PrincipalProfile)
| LInternal.

Section Machine.
Context `{Hashing} `{ProfileCodec}.

Inductive mstep : machine -> mlabel -> machine -> Prop :=
| ms_hit m principal profile :
    profiles (mc_cache m) !! principal = Some profile ->
    mstep m (LReturned principal profile) m
| ms_begin m t principal :
    mc_loaders m !! t = None ->
    mstep m LInternal (begin_machine m t principal)
| ms_read m t l profile :
    mc_loaders m !! t = Some l -> ld_phase l = PhaseBegun ->
    load_for (ld_principal l) (mc_disk m !! ld_principal l) = Ok profile ->
    mstep m LInternal
      (with_loader m t (MkLoader (ld_principal l) (ld_token l) (PhaseRead profile)))
| ms_read_error m t l e :
    mc_loaders m !! t = Some l -> ld_phase l = PhaseBegun ->
    load_for (ld_principal l) (mc_disk m !! ld_principal l) = Err e ->
    mstep m LInternal (with_loader m t (MkLoader (ld_principal l) (ld_token l) PhaseDone))
| ms_publish m t l profile c result :
    mc_loaders m !! t = Some l -> ld_phase l = PhaseRead profile ->
    publish_loaded (mc_cache m) (ld_principal l) (ld_token l) profile = (c, Some result) ->
    mstep m (LReturned (ld_principal l) result)
      (with_loader (with_cache m c) t (MkLoader (ld_principal l) (ld_token l) PhaseDone))
| ms_retry m t l profile c :
    mc_loaders m !! t = Some l -> ld_phase l = PhaseRead profile ->
    publish_loaded (mc_cache m) (ld_principal l) (ld_token l) profile = (c, None) ->
    mstep m LInternal
      (with_loader (with_cache m c) t (MkLoader (ld_principal l) (ld_token l) PhaseDone))
| ms_finish m t l :
    mc_loaders m !! t = Some l -> ld_phase l = PhaseDone ->
    mstep m LInternal (finish_machine m t l)
| ms_write m principal content :
    mstep m LInternal (write_machine m principal content)
| ms_invalidate m principal :
    mstep m LInternal (invalidate_machine m principal)
| ms_refresh m principal profile :
    load_for principal (mc_disk m !! principal) = Ok profile ->
    mstep m LInternal (with_cache m (insert_cached (mc_cache m) principal profile)).

Inductive reachable_machine : machine -> Prop :=
| rm_start disk :
    reachable_machine (MkMachine (MkProfileCacheState ∅ ∅) disk ∅ 0 (fun p => [disk !! p]))
| rm_step m lab m' : reachable_machine m -> mstep m lab m' -> reachable_machine m'.

(** A profile that was loaded from contents the file has had since the last
    invalidation. *)
Definition fresh_profile (m : machine) (principal : PrincipalId) (profile : PrincipalProfile) : Prop :=
  exists file, file ∈ mc_since m principal /\ load_for principal file = Ok profile.

Record machine_inv (m : machine) : Prop := {
  mi_disk principal : last (mc_since m principal) = Some (mc_disk m !! principal);
  mi_cached principal profile :
    profiles (mc_cache m) !! principal = Some profile -> fresh_profile m principal profile;
  mi_loads principal token : loads (mc_cache m) !! principal = Some token -> token < mc_next m;
  mi_tokens t l : mc_loaders m !! t = Some l -> ld_token l < mc_next m;
  mi_read t l profile :
    mc_loaders m !! t = Some l -> ld_phase l = PhaseRead profile ->
    is_current (mc_cache m) (ld_principal l) (ld_token l) = true ->
    fresh_profile m (ld_principal l) profile;
}.

Lemma is_current_true st principal token :
  is_current st principal token = true <-> loads st !! principal = Some token.
Proof. unfold is_current. by rewrite bool_decide_eq_true. Qed.

Lemma fresh_current m principal profile :
  machine_inv m -> load_for principal (mc_disk m !! principal) = Ok profile ->
  fresh_profile m principal profile.
Proof.
  intros Hi Hl. exists (mc_disk m !! principal). split; [|done].
  apply last_Some_elem_of, (mi_disk _ Hi).
Qed.

Lemma fresh_mono m m' principal profile :
  (forall file, file ∈ mc_since m principal -> file ∈ mc_since m' principal) ->
  fresh_profile m principal profile -> fresh_profile m' principal profile.
Proof. intros Hs (file & Hin & Hl). exists file. auto. Qed.

(** The current token of a principal only ever moves to a fresh one. *)
Lemma begin_load_loads st alive fresh principal c token :
  begin_load st alive fresh principal = (c, token) ->
  profiles c = profiles st /\
  ((loads c = loads st /\ loads st !! principal = Some token) \/
   (loads c = <[principal := fresh]> (loads st) /\ token = fresh)).
Proof. unfold begin_load. repeat case_match; intros [= <- <-]; simpl; auto. Qed.

Lemma inv_begin m t principal :
  machine_inv m -> mc_loaders m !! t = None -> machine_inv (begin_machine m t principal).
Proof.
  intros [Hd Hc Hl Ht Hr] Hnew. unfold begin_machine.
  destruct (begin_load (mc_cache m) _ _ principal) as [c token] eqn:Hb.
  apply begin_load_loads in Hb as [Hp Hb].
  assert (Htok : token < S (mc_next m))
    by (destruct Hb as [[_ Hk]|[_ ->]]; [specialize (Hl _ _ Hk)|]; lia).
  split; simpl.
  - exact Hd.
  - intros q profile. rewrite Hp. apply Hc.
  - intros q k. destruct Hb as [[-> _]|[-> _]].
    + intros Hk%Hl. lia.
    + intros [[_ <-]|[_ Hk%Hl]]%lookup_insert_Some; lia.
  - intros t' l [[_ <-]|[_ Hl'%Ht]]%lookup_insert_Some; simpl; lia.
  - intros t' l profile [[_ <-]|[_ Hl']]%lookup_insert_Some Hph; [done|].
    intros Hcur%is_current_true. apply (Hr t' l profile Hl' Hph), is_current_true.
    destruct Hb as [[Hloads _]|[Hloads _]]; rewrite Hloads in Hcur; [done|].
    apply lookup_insert_Some in Hcur as [[_ Heq]|[_ ?]]; [|done].
    specialize (Ht _ _ Hl'). lia.
Qed.

(** Replacing one loader by another with the same principal and token. *)
Lemma inv_with_loader m t l ph :
  machine_inv m -> mc_loaders m !! t = Some l ->
  (forall profile, ph = PhaseRead profile -> fresh_profile m (ld_principal l) profile) ->
  machine_inv (with_loader m t (MkLoader (ld_principal l) (ld_token l) ph)).
Proof.
  intros [Hd Hc Hl Ht Hr] Hlt Hph. split; simpl; try done.
  - intros t' l' [[_ <-]|[_ Hl'%Ht]]%lookup_insert_Some; [exact (Ht t l Hlt)|done].
  - intros t' l' profile [[_ <-]|[_ Hl']]%lookup_insert_Some; simpl.
    + intros -> _. by apply Hph.
    + by apply (Hr t').
Qed.

Lemma inv_publish m principal token profile c r :
  machine_inv m ->
  (is_current (mc_cache m) principal token = true -> fresh_profile m principal profile) ->
  publish_loaded (mc_cache m) principal token profile = (c, r) ->
  machine_inv (with_cache m c) /\ forall p, r = Some p -> fresh_profile m principal p.
Proof.
  intros [Hd Hc Hl Ht Hr] Hf. unfold publish_loaded.
  destruct (is_current (mc_cache m) principal token) eqn:Hcur; simpl.
  - destruct (profiles (mc_cache m) !! principal) as [entry|] eqn:He; intros [= <- <-].
    + split; [by destruct m|]. intros p [= <-]. by apply Hc.
    + split; [|intros p [= <-]; by apply Hf].
      split; simpl; try done. intros q p [[-> <-]|[_ Hq]]%lookup_insert_Some; [by apply Hf|by apply Hc].
  - intros [= <- <-]. split; [by destruct m|done].
Qed.

Lemma inv_finish m t l :
  machine_inv m -> mc_loaders m !! t = Some l -> machine_inv (finish_machine m t l).
Proof.
  intros [Hd Hc Hl Ht Hr] Hlt. unfold finish_machine, finish.
  assert (Hmono : forall c, c = mc_cache m \/
      c = MkProfileCacheState (profiles (mc_cache m)) (delete (ld_principal l) (loads (mc_cache m))) ->
    machine_inv (MkMachine c (mc_disk m) (delete t (mc_loaders m)) (mc_next m) (mc_since m))).
  { intros c Hcase. split; simpl.
    - exact Hd.
    - intros q p. by destruct Hcase as [->| ->]; apply Hc.
    - intros q k. destruct Hcase as [->| ->]; [apply Hl|]. simpl. intros [_ Hk]%lookup_delete_Some. eauto.
    - intros t' l' [_ Hl']%lookup_delete_Some. eauto.
    - intros t' l' p [_ Hl']%lookup_delete_Some Hph Hcur%is_current_true. eapply Hr; [done..|].
      apply is_current_true. destruct Hcase as [->| ->]; [done|]. simpl in Hcur.
      by apply lookup_delete_Some in Hcur as [_ ?]. }
  apply Hmono. case_match; auto.
Qed.

Lemma inv_write m principal content :
  machine_inv m -> machine_inv (write_machine m principal content).
Proof.
  intros [Hd Hc Hl Ht Hr].
  assert (Hmono : forall q p, fresh_profile m q p -> fresh_profile (write_machine m principal content) q p).
  { intros q p. apply fresh_mono. intros file Hin. simpl. unfold set_since. case_bool_decide; [|done].
    subst q. apply elem_of_app. by left. }
  split; simpl; try done; [|naive_solver|naive_solver].
  intros q. unfold set_since. case_bool_decide as Hq.
  - subst q. rewrite last_snoc. f_equal. destruct content; [by rewrite lookup_insert_eq|by rewrite lookup_delete_eq].
  - rewrite Hd. f_equal. destruct content; [by rewrite lookup_insert_ne|by rewrite lookup_delete_ne].
Qed.

Lemma inv_invalidate m principal : machine_inv m -> machine_inv (invalidate_machine m principal).
Proof.
  intros [Hd Hc Hl Ht Hr].
  assert (Hmono : forall q p, q <> principal ->
    fresh_profile m q p -> fresh_profile (invalidate_machine m principal) q p).
  { intros q p Hq. apply fresh_mono. simpl. unfold set_since. by rewrite bool_decide_false. }
  split; simpl.
  - intros q. unfold set_since. case_bool_decide; [by subst|apply Hd].
  - intros q p [Hne Hp]%lookup_delete_Some. apply Hmono; [done|]. by apply Hc.
  - intros q k [_ Hk]%lookup_delete_Some. eauto.
  - exact Ht.
  - intros t l p Hlt Hph Hcur%is_current_true. simpl in Hcur.
    apply lookup_delete_Some in Hcur as [Hne Hcur]. apply Hmono; [done|]. apply (Hr t); [done..|]. by apply is_current_true.
Qed.

Lemma inv_refresh m principal profile :
  machine_inv m -> load_for principal (mc_disk m !! principal) = Ok profile ->
  machine_inv (with_cache m (insert_cached (mc_cache m) principal profile)).
Proof.
  intros Hi Hl. pose proof (fresh_current m principal profile Hi Hl) as Hf.
  destruct Hi as [Hd Hc Hlo Ht Hr]. split; simpl; try done.
  intros q p [[-> <-]|[_ Hq]]%lookup_insert_Some; [done|by apply Hc].
Qed.

Lemma mstep_inv m lab m' :
  machine_inv m -> mstep m lab m' ->
  machine_inv m' /\ forall principal profile,
    lab = LReturned principal profile -> fresh_profile m principal profile.
Proof.
  intros Hi Hs. destruct Hs as [m principal profile Hc|m t principal Hn|m t l profile Hlt Hph Hld
    |m t l e Hlt Hph Hld|m t l profile c result Hlt Hph Hpub|m t l profile c Hlt Hph Hpub
    |m t l Hlt Hph|m principal content|m principal|m principal profile Hld].
  - split; [done|]. intros q p [= <- <-]. by apply (mi_cached _ Hi).
  - split; [by apply inv_begin|done].
  - split; [|done]. apply inv_with_loader; [done..|]. intros p [= <-]. by apply fresh_current.
  - split; [|done]. by apply inv_with_loader.
  - destruct (inv_publish m (ld_principal l) (ld_token l) profile c (Some result) Hi) as [Hi' Hret]; [|done|].
    { intros Hcur. by apply (mi_read _ Hi t l). }
    split; [|intros q p [= <- <-]; by apply Hret]. by apply inv_with_loader.
  - destruct (inv_publish m (ld_principal l) (ld_token l) profile c None Hi) as [Hi' _]; [|done|].
    { intros Hcur. by apply (mi_read _ Hi t l). }
    split; [|done]. by apply inv_with_loader.
  - split; [by apply inv_finish|done].
  - split; [by apply inv_write|done].
  - split; [by apply inv_invalidate|done].
  - split; [by apply inv_refresh|done].
Qed.

Lemma reachable_machine_inv m : reachable_machine m -> machine_inv m.
Proof.
  induction 1 as [disk|m lab m' _ IH Hs].
  - split; simpl; try done; intros; by rewrite lookup_empty in *.
  - by apply (mstep_inv m lab m').
Qed.

End Machine.

Section StoreLemmas.
Context `{Hashing} `{ProfileCodec}.

Lemma resolve_loop_value n principal w :
  resolve_loop (S n) principal w = (resolve_world w principal, Some (resolve_value w principal)).
Proof.
  cbn [resolve_loop]. unfold resolve_world, resolve_value.
  destruct (profiles (pw_cache w) !! principal) as [p|] eqn:Hp; [done|].
  assert (Hb : begin_load (pw_cache w) (fun _ => false) 0 principal =
    (MkProfileCacheState (profiles (pw_cache w)) (<[principal := 0]> (loads (pw_cache w))), 0)).
  { unfold begin_load. by destruct (loads (pw_cache w) !! principal). }
  rewrite Hb. assert (Hcur : forall pr, is_current (MkProfileCacheState pr
    (<[principal := 0]> (loads (pw_cache w)))) principal 0 = true)
    by (intros; apply is_current_true, lookup_insert_eq).
  destruct (load_for principal (pw_disk w !! principal)) as [profile|e].
  - unfold publish_loaded. rewrite Hcur. simpl. rewrite Hp. unfold finish. rewrite Hcur. simpl.
    by rewrite delete_insert_eq.
  - unfold finish. rewrite Hcur. simpl. by rewrite delete_insert_eq.
Qed.

Lemma coerce_positive q : quotas_wf q -> coerce_legacy_zero_cpu_fuel q = q.
Proof.
  intros (_ & _ & _ & _ & _ & Hf & _). unfold coerce_legacy_zero_cpu_fuel.
  by rewrite (proj2 (N.eqb_neq _ _)) by lia.
Qed.

Lemma set_quotas_id p : set_quotas p (pp_quotas p) = p.
Proof. by destruct p. Qed.

Lemma parse_profile_saved p v :
  profile_from_toml v = Some p -> PrincipalProfile_validate p = Ok tt -> parse_profile v = Ok p.
Proof.
  intros Hv Hp. unfold parse_profile. rewrite Hv. simpl.
  rewrite coerce_positive by (by apply PrincipalProfile_validate_Ok in Hp as (_ & ? & _)).
  rewrite set_quotas_id. by rewrite Hp.
Qed.

Lemma save_load `{!ProfileCodecLaws} p v file :
  save_to_path p = Ok v -> Forall device_key_stable (auth_public_keys (pp_auth p)) ->
  file = Some v -> load_from_path file = Ok p /\ load_required file = Ok p.
Proof.
  intros Hs Hk ->. unfold save_to_path in Hs. inv_ok.
  assert (parse_profile v = Ok p) by (apply parse_profile_saved; [by apply profile_roundtrip|done]).
  done.
Qed.

Lemma load_for_some `{!ProfileCodecLaws} p v principal :
  save_to_path p = Ok v -> Forall device_key_stable (auth_public_keys (pp_auth p)) ->
  load_for principal (Some v) = Ok p.
Proof.
  intros Hs Hk. destruct (save_load p v (Some v) Hs Hk eq_refl). unfold load_for. by case_bool_decide.
Qed.

(** The default profile with one capsule-egress entry. *)
Definition egress_only (capsule_id endpoint : string) : PrincipalProfile :=
  set_network PrincipalProfile_default (MkNetworkConfig [] {[capsule_id := [endpoint]]}).

Lemma persist_egress_missing principal capsule_id endpoint w v :
  pw_disk w !! principal = None -> save_to_path (egress_only capsule_id endpoint) = Ok v ->
  persist_egress principal capsule_id endpoint w =
  (MkProfileWorld (cache_invalidate (pw_cache w) principal) (<[principal := v]> (pw_disk w)), Ok tt).
Proof.
  intros Hd Hs. unfold persist_egress, eff_bind, eff_read. rewrite Hd. cbn [load_from_path].
  cbn [pp_network PrincipalProfile_default net_capsule_egress]. rewrite lookup_empty. simpl.
  unfold save_and_invalidate. unfold egress_only in Hs. rewrite insert_empty. by rewrite Hs.
Qed.

End StoreLemmas.

(** ** Properties *)

(** C15: [resolve] never returns revoked state.  In every interleaving of
    loaders, profile writers and invalidations, a profile that [resolve]
    returns, from the cache or from its own load, was read from contents the
    file has had since the last invalidation of that principal; once a writer
    has replaced the file and invalidated, only the new contents can be
    returned. *)
Theorem resolve_never_stale `{ProfileCodec} :
  forall m principal profile m',
  reachable_machine m -> mstep m (LReturned principal profile) m' ->
  fresh_profile m principal profile /\
  (mc_since m principal = [mc_disk m !! principal] ->
   load_for principal (mc_disk m !! principal) = Ok profile).
Proof.
  intros m principal profile m' Hr Hs. apply reachable_machine_inv in Hr.
  destruct (mstep_inv m _ m' Hr Hs) as [_ Hf]. specialize (Hf _ _ eq_refl).
  split; [done|]. intros Hsince. destruct Hf as (file & Hin & Hl). rewrite Hsince in Hin.
  by apply list_elem_of_singleton in Hin as ->.
Qed.

(** C38: without interference [resolve] needs one round: it returns the
    cached profile or loads the file, never loops, leaves no load token
    behind, and caches exactly what it loaded. *)
Theorem resolve_terminates `{ProfileCodec} : forall n principal w,
  resolve_loop (S n) principal w = (resolve_world w principal, Some (resolve_value w principal)).
Proof. intros. apply resolve_loop_value. Qed.

(** Remembering a local-egress endpoint re-creates the profile of a
    principal whose profile was removed: before the call the principal does
    not resolve, after it resolves to an enabled profile.  Remembering a
    command instead refuses and changes nothing. *)
Theorem persist_on_removed_principal `{ProfileCodecLaws} :
  forall principal capsule_id endpoint command w v,
  principal <> PrincipalId_default -> pw_disk w !! principal = None ->
  save_to_path (egress_only capsule_id endpoint) = Ok v -> not_blank command ->
  load_for principal (pw_disk w !! principal) = Err ProfileIoNotFound /\
  (exists w' p, persist_egress principal capsule_id endpoint w = (w', Ok tt) /\
     load_for principal (pw_disk w' !! principal) = Ok p /\ enabled p = true) /\
  persist_command_at principal command None Hosted w = (w, Err ProfileIoNotFound).
Proof.
  intros principal capsule_id endpoint command w v Hne Hd Hs Hc.
  assert (Hl : load_for principal (pw_disk w !! principal) = Err ProfileIoNotFound)
    by (unfold load_for; rewrite bool_decide_false by done; by rewrite Hd).
  split; [done|]. split.
  - rewrite (persist_egress_missing principal capsule_id endpoint w v Hd Hs).
    eexists _, _. split; [done|]. cbn [pw_disk]. rewrite lookup_insert_eq.
    split; [by apply load_for_some|done].
  - unfold persist_command_at. cbv zeta. rewrite (proj2 (is_empty_false _) Hc).
    unfold eff_bind, eff_read. by rewrite Hl.
Qed.

(** ** Concrete instances *)

Definition bare_machine : machine := MkMachine (MkProfileCacheState ∅ ∅) ∅ ∅ 0 (fun p => [(∅ : gmap PrincipalId string) !! p]).

Definition empty_codec : ProfileCodec := {|
  profile_to_toml _ := None;
  profile_from_toml _ := None;
|}.

Lemma resolve_never_stale_witness :
  exists m m', @mstep empty_codec m (LReturned PrincipalId_default PrincipalProfile_default) m' /\
    @fresh_profile empty_codec m PrincipalId_default PrincipalProfile_default.
Proof.
  pose (m1 := begin_machine bare_machine 7 PrincipalId_default).
  pose (l1 := MkLoader PrincipalId_default 0 PhaseBegun).
  pose (m2 := with_loader m1 7 (MkLoader PrincipalId_default 0 (PhaseRead PrincipalProfile_default))).
  assert (R1 : @reachable_machine empty_codec m1).
  { eapply rm_step; [apply (rm_start ∅)|]. apply (ms_begin _ 7). reflexivity. }
  assert (R2 : @reachable_machine empty_codec m2).
  { eapply rm_step; [exact R1|]. apply (ms_read m1 7 l1); reflexivity. }
  assert (Hstep : exists m', @mstep empty_codec m2
    (LReturned PrincipalId_default PrincipalProfile_default) m').
  { eexists. apply (ms_publish m2 7
      (MkLoader PrincipalId_default 0 (PhaseRead PrincipalProfile_default))
      PrincipalProfile_default); reflexivity. }
  destruct Hstep as [m' Hstep]. exists m2, m'. split; [exact Hstep|].
  exact (proj1 (@resolve_never_stale empty_codec _ _ _ _ R2 Hstep)).
Defined.

(** A codec that knows the two profiles the examples save. *)
Definition revived : PrincipalProfile := egress_only "capsule" "127.0.0.1:80".
Definition profile_table : ProfileCodec := {|
  profile_to_toml p := if bool_decide (p = PrincipalProfile_default) then Some "default"
                       else if bool_decide (p = revived) then Some "revived" else None;
  profile_from_toml v := if bool_decide (v = "default") then Some PrincipalProfile_default
                         else if bool_decide (v = "revived") then Some revived else None;
|}.

Lemma profile_table_laws : @ProfileCodecLaws constant_hashing profile_table.
Proof.
  split; intros p v; simpl.
  - repeat case_bool_decide; intros; by simplify_eq.
  - repeat case_bool_decide; intros; simplify_eq; apply Forall_nil_2.
Qed.

Lemma persist_on_removed_principal_witness :
  @load_for profile_table (MkPrincipalId "alice") None = Err ProfileIoNotFound /\
  exists w' p, @persist_egress profile_table (MkPrincipalId "alice") "capsule" "127.0.0.1:80"
      (MkProfileWorld (MkProfileCacheState ∅ ∅) ∅) = (w', Ok tt) /\
    @load_for profile_table (MkPrincipalId "alice") (pw_disk w' !! MkPrincipalId "alice") = Ok p /\
    enabled p = true.
Proof.
  split; [reflexivity|].
  refine (proj1 (proj2 (@persist_on_removed_principal constant_hashing profile_table
    profile_table_laws (MkPrincipalId "alice") "capsule" "127.0.0.1:80" "ls"
    (MkProfileWorld (MkProfileCacheState ∅ ∅) ∅) "revived" _ _ _ _))).
  - discriminate.
  - reflexivity.
  - vm_compute. reflexivity.
  - vm_compute. discriminate.
Defined.
