(* ===== verification/Pairing.v ===== *)
(** * Request authorization and device pairing

    [crates/astrid-kernel/src/kernel_router/device_scope.rs] (device
    resolution), the decision point of [kernel_router/mod.rs]
    ([AuthorizedRequest], [authorize_request]) and
    [kernel_router/admin/pair_device_handlers.rs]: issuing, redeeming, listing
    and revoking paired devices.

    The kernel state is the record [Kernel]: the durable token store, the
    legacy token file, profile files with their cache, the principal
    directory and the group configuration.  Token generation, the token hash
    ([astrid_crypto]) and hex decoding are arguments; each read of the clock
    is its own argument. *)

From stdpp Require Import sorting.
From S2P Require Import Prelude CapabilityGrammar Profile Groups Policy Kv PairToken ProfileStore.
From Stdlib Require Import Ascii.
Local Open Scope string_scope.
Local Open Scope list_scope.

(** ** Device resolution *)

Definition resolve_device (profile : PrincipalProfile) (caller : PrincipalId)
    (device_key_id : option string) (required_cap : string)
    : result (option DeviceKey) PermissionError :=
  match device_key_id with
  | None => Ok None
  | Some raw_key_id =>
      match DeviceKeyId_new raw_key_id with
      | Err _ => Err (DeviceScopeDenied caller required_cap)
      | Ok key_id =>
          match device_by_typed_key_id (pp_auth profile) key_id with
          | None => Err (DeviceScopeDenied caller required_cap)
          | Some device => Ok (Some device)
          end
      end
  end.

Definition resolve_device_scope (profile : PrincipalProfile) (caller : PrincipalId)
    (device_key_id : option string) (required_cap : string)
    : result (option DeviceScope) PermissionError :=
  rmap (fun device => dk_scope <$> device) (resolve_device profile caller device_key_id required_cap).

(** ** The decision point *)

Record AuthorizedRequest : Type := MkAuthorizedRequest {
  ar_principal : PrincipalId;
  ar_profile : PrincipalProfile;
  ar_groups : GroupConfig;
  ar_device_scope : option DeviceScope;
  ar_device_key_id : option DeviceKeyId;
  ar_public_key : option (list N);
}.

Definition capability_check (self : AuthorizedRequest) : CapabilityCheck :=
  let check := CapabilityCheck_new (ar_profile self) (ar_groups self) (ar_principal self) in
  match ar_device_scope self with
  | Some s => with_device_scope check s
  | None => check
  end.

Definition require_shared_env_write (self : AuthorizedRequest)
    : result AuthorizedRequest PermissionError :=
  let? _ := require (capability_check self) "env:write" in Ok self.

Section Authorize.
(** [PublicKey::from_hex]. *)
Context (public_key_from_hex : string -> option (list N)).

Definition authorize_request (resolved : result PrincipalProfile ProfileError)
    (config : GroupConfig) (caller : PrincipalId) (device_key_id : option string)
    (required_cap : string) : result AuthorizedRequest PermissionError :=
  match resolved with
  | Err _ => Err (MissingCapability caller required_cap)
  | Ok profile =>
      if negb (enabled profile) then Err (PrincipalDisabled caller)
      else
        let denied := DeviceScopeDenied caller required_cap in
        let? device := resolve_device profile caller device_key_id required_cap in
        let device_scope := dk_scope <$> device in
        let? authenticated_device_id :=
          map_err (fun _ => denied) (transpose ((fun d => DeviceKeyId_new (dk_key_id d)) <$> device)) in
        let? authenticated_public_key :=
          transpose ((fun d => ok_or (public_key_from_hex (dk_pubkey d)) denied) <$> device) in
        let check := CapabilityCheck_new profile config caller in
        let check := match device_scope with
                     | Some s => with_device_scope check s
                     | None => check
                     end in
        let? _ := require check required_cap in
        Ok (MkAuthorizedRequest caller profile config device_scope authenticated_device_id
              authenticated_public_key)
  end.

End Authorize.

(** ** Pairing policy *)

Definition DEFAULT_EXPIRY_SECS : N := 5 * 60.

Inductive PairScopeArg : Type :=
| PairFull
| PairPreset (name : string)
| PairExplicit (allow deny : list string).

(** Reasons of the pairing handlers' error responses. *)
Inductive PairError : Type :=
| ExpiryZero
| ExpiryTooLong (lifetime : N)
| BadScopePattern (pattern : string)
| UnknownPreset (name : string)
| BadPublicKey
| BadDeviceKeyId
| NoProfile (principal : PrincipalId)
| NoSuchDevice (key_id : string) (principal : PrincipalId)
| NeedsPair
| ScopedCannotMintFull
| NeedsPairAdmin
| UniversalNeedsPairAdmin
| ScopeExceedsAuthority (e : PermissionError)
| IssuerDenied (e : PermissionError)
| TokenInvalid
| StoreUnavailable
| StorePruneFailed
| StoreReadFailed
| StoreWriteFailed
| IdentifierCollision
| NoPrincipalIdentity
| PrincipalNotAdmitted
| PrincipalDisappeared
| ProfileResolutionFailed (e : ProfileError)
| ProfileLoadFailed (e : ProfileError)
| ProfileRejected (e : ProfileError)
| ProfileSaveFailed (e : ProfileError)
| ProfileRollbackFailed (e : ProfileError)
| ReservationRollbackFailed.

Definition resolve_pair_scope (arg : PairScopeArg) : result DeviceScope PairError :=
  match arg with
  | PairFull => Ok ScopeFull
  | PairPreset name => ok_or (DeviceScope_preset name) (UnknownPreset name)
  | PairExplicit allow deny => Ok (ScopeScoped allow deny)
  end.

Definition validate_pair_scope_patterns (s : DeviceScope) : result unit PairError :=
  match s with
  | ScopeFull => Ok tt
  | ScopeScoped allow deny =>
      try_for (fun pattern =>
        let? _ := map_err (fun _ => BadScopePattern pattern) (CapabilityPattern_new pattern) in
        Ok tt) (allow ++ deny)
  end.

Definition validate_pair_issue (expires_secs : option N) (requested : PairScopeArg)
    : result (N * DeviceScope) PairError :=
  let lifetime := default DEFAULT_EXPIRY_SECS expires_secs in
  if (lifetime =? 0)%N then Err ExpiryZero
  else if (MAX_EXPIRY_SECS <? lifetime)%N then Err (ExpiryTooLong lifetime)
  else
    let? s := resolve_pair_scope requested in
    let? _ := validate_pair_scope_patterns s in
    Ok (lifetime, s).

Definition pair_scope_requires_admin (arg : PairScopeArg) : bool :=
  match arg with
  | PairFull => true
  | PairPreset name => match DeviceScope_preset name with Some ScopeFull => true | _ => false end
  | PairExplicit allow _ => contains "*" allow
  end.

(** The loop pushes each issuer deny the child does not already have. *)
Definition merge_denies (deny issuer_deny : list string) : list string :=
  List.fold_left (fun merged pattern => if contains pattern merged then merged else merged ++ [pattern])
    issuer_deny deny.

Definition inherit_issuer_denies (child : DeviceScope) (issuer_scope : option DeviceScope)
    : DeviceScope :=
  match issuer_scope, child with
  | Some (ScopeScoped _ issuer_deny), ScopeScoped allow deny =>
      ScopeScoped allow (merge_denies deny issuer_deny)
  | _, _ => child
  end.

Definition is_scoped (s : option DeviceScope) : bool :=
  match s with Some (ScopeScoped _ _) => true | _ => false end.

Definition validate_pair_issue_authority (caller : PrincipalId) (profile : PrincipalProfile)
    (config : GroupConfig) (issuer_scope : option DeviceScope) (requested_scope : DeviceScope)
    : result DeviceScope PairError :=
  let issuer_check := CapabilityCheck_new profile config caller in
  let issuer_check := match issuer_scope with
                      | Some (ScopeScoped allow deny) =>
                          with_device_scope issuer_check (ScopeScoped allow deny)
                      | _ => issuer_check
                      end in
  if negb (has issuer_check "self:auth:pair") then Err NeedsPair
  else
    let? _ :=
      match requested_scope with
      | ScopeFull =>
          if is_scoped issuer_scope then Err ScopedCannotMintFull
          else if negb (has issuer_check "self:auth:pair:admin") then Err NeedsPairAdmin
          else Ok tt
      | ScopeScoped allow _ =>
          let requests_universal_scope := contains "*" allow in
          if requests_universal_scope && negb (has issuer_check "self:auth:pair:admin")
          then Err UniversalNeedsPairAdmin
          else map_err ScopeExceedsAuthority (device_scope_within issuer_check requested_scope)
      end in
    Ok (inherit_issuer_denies requested_scope issuer_scope).

Inductive PairIssuePreflightError : Type :=
| PreflightBadInput (e : PairError)
| PreflightUnauthorized (e : PairError).

Definition preflight_pair_device_issue (authorization : AuthorizedRequest)
    (expires_secs : option N) (requested : PairScopeArg) : result unit PairIssuePreflightError :=
  let? lr := map_err PreflightBadInput (validate_pair_issue expires_secs requested) in
  let? _ := map_err PreflightUnauthorized
    (validate_pair_issue_authority (ar_principal authorization) (ar_profile authorization)
       (ar_groups authorization) (ar_device_scope authorization) lr.2) in
  Ok tt.

(** ** Kernel state *)

#[export] Program Instance PrincipalUid_countable : Countable PrincipalUid :=
  inj_countable' uid_bytes MkPrincipalUid _.
Next Obligation. by intros []. Qed.

Record PrincipalDirectory : Type := MkPrincipalDirectory {
  dir_aliases : gmap PrincipalId PrincipalUid;
  dir_principals : gmap PrincipalUid PrincipalId;
}.

Definition uid_for (d : PrincipalDirectory) (alias : PrincipalId) : option PrincipalUid :=
  dir_aliases d !! alias.
Definition alias_for (d : PrincipalDirectory) (uid : PrincipalUid) : option PrincipalId :=
  dir_principals d !! uid.

Record Kernel (T : Type) : Type := MkKernel {
  k_store : option T;
  k_legacy : option LegacyFile;
  k_profiles : ProfileWorld;
  k_directory : PrincipalDirectory;
  k_groups : GroupConfig;
}.
Arguments MkKernel {T} _ _ _ _ _.
Arguments k_store {T} _.
Arguments k_legacy {T} _.
Arguments k_profiles {T} _.
Arguments k_directory {T} _.
Arguments k_groups {T} _.

Record DeviceKeyInfo : Type := MkDeviceKeyInfo {
  di_key_id : string;
  di_label : option string;
  di_scope : DeviceScope;
  di_created_at : Z;
}.

Inductive AdminResponseBody : Type :=
| RespPairToken (token : string) (principal : PrincipalId) (expires_at : N) (lbl : option string)
| RespPairTokenRedeemed (principal : PrincipalId) (fingerprint key_id : string)
| RespPairDeviceListed (devices : list DeviceKeyInfo)
| RespPairDeviceRevoked (key_id : string)
| RespError (e : PairError).

Definition set_auth (p : PrincipalProfile) (a : AuthConfig) : PrincipalProfile :=
  MkPrincipalProfile (profile_version p) (enabled p) (pp_groups p) (pp_grants p) (pp_revokes p)
    (pp_capsules p) a (pp_network p) (pp_approvals p) (pp_process p) (pp_quotas p).

Definition set_profiles {T} (k : Kernel T) (w : ProfileWorld) : Kernel T :=
  MkKernel (k_store k) (k_legacy k) w (k_directory k) (k_groups k).
Definition set_store {T} (k : Kernel T) (s : T) : Kernel T :=
  MkKernel (Some s) (k_legacy k) (k_profiles k) (k_directory k) (k_groups k).

Definition disk_of {T} (k : Kernel T) : gmap PrincipalId string := pw_disk (k_profiles k).
Definition write_disk {T} (k : Kernel T) (p : PrincipalId) (content : string) : Kernel T :=
  set_profiles k (MkProfileWorld (pw_cache (k_profiles k)) (<[p := content]> (disk_of k))).
Definition invalidate_cache {T} (k : Kernel T) (p : PrincipalId) : Kernel T :=
  set_profiles k (MkProfileWorld (cache_invalidate (pw_cache (k_profiles k)) p) (disk_of k)).

(** [i64::try_from(now).unwrap_or(0)]. *)
Definition epoch_i64 (now : N) : Z := if (now <=? I64_MAX)%N then Z.of_N now else 0%Z.

Section Handlers.
Context {T : Type} `{KvStore T} `{PairCodec} `{Hashing} `{ProfileCodec}.
Context (hash_token : string -> string) (fingerprint_public_key : string -> string).

(** Run a store operation on the kernel's backend. *)
Definition with_store {A} (store : T) (c : eff T StorageError A) (k : Kernel T)
    : T * Kernel T * result A StorageError :=
  let '(s', r) := c store in (s', set_store k s', r).

Definition ensure_import (store : T) (k : Kernel T) : T * Kernel T * result unit StorageError :=
  let '((s', f'), r) := ensure_legacy_import (uid_for (k_directory k)) (store, k_legacy k) in
  (s', MkKernel (Some s') f' (k_profiles k) (k_directory k) (k_groups k), r).

Definition resolve_pair_issuer_authority (k : Kernel T) (caller : PrincipalId)
    (authorization : option AuthorizedRequest) (issuer_device_key_id : option string)
    : Kernel T * result (PrincipalProfile * GroupConfig * option DeviceScope) PairError :=
  match authorization with
  | Some a => (k, Ok (ar_profile a, ar_groups a, ar_device_scope a))
  | None =>
      if negb (bool_decide (is_Some (disk_of k !! caller))) then (k, Err (NoProfile caller))
      else
        let k' := set_profiles k (resolve_world (k_profiles k) caller) in
        (k',
         let? profile := map_err ProfileResolutionFailed (resolve_value (k_profiles k) caller) in
         let? issuer_scope := map_err IssuerDenied
           (resolve_device_scope profile caller issuer_device_key_id "self:auth:pair") in
         Ok (profile, k_groups k, issuer_scope))
  end.

Definition pair_device_issue (k : Kernel T) (caller : PrincipalId)
    (authorization : option AuthorizedRequest) (issuer_device_key_id : option string)
    (expires_secs : option N) (lbl : option string) (requested : PairScopeArg)
    (prune_now now : N) (token : string) : Kernel T * AdminResponseBody :=
  match validate_pair_issue expires_secs requested with
  | Err e => (k, RespError e)
  | Ok (lifetime, requested_scope) =>
  let '(k, authority) := resolve_pair_issuer_authority k caller authorization issuer_device_key_id in
  match authority with
  | Err e => (k, RespError e)
  | Ok (profile, config, issuer_scope) =>
  match validate_pair_issue_authority caller profile config issuer_scope requested_scope with
  | Err e => (k, RespError e)
  | Ok stored_scope =>
  match k_store k with
  | None => (k, RespError StoreUnavailable)
  | Some store =>
  match ensure_import store k with
  | (_, k, Err _) => (k, RespError StoreUnavailable)
  | (store, k, Ok _) =>
  match with_store store (prune prune_now) k with
  | (_, k, Err _) => (k, RespError StorePruneFailed)
  | (store, k, Ok _) =>
  match uid_for (k_directory k) caller with
  | None => (k, RespError NoPrincipalIdentity)
  | Some uid =>
  let expires_at := sat_add U64_MAX now lifetime in
  let record := MkDurablePairToken (hash_token token) uid expires_at now lbl stored_scope in
  match with_store store (issue record) k with
  | (_, k, Ok true) => (k, RespPairToken token caller expires_at lbl)
  | (_, k, Ok false) => (k, RespError IdentifierCollision)
  | (_, k, Err _) => (k, RespError StoreWriteFailed)
  end end end end end end end end.

(** The clock reads of one redemption, in order. *)
Record RedeemClock : Type := MkRedeemClock {
  rc_redeemable : N;
  rc_reserve : N;
  rc_created : N;
  rc_consume : N;
  rc_release : N;
}.

(** The key registration on the loaded profile. *)
Definition register_device (profile : PrincipalProfile) (key : DevicePubkey)
    (chosen : DurablePairToken) (now : N) : PrincipalProfile :=
  let auth := pp_auth profile in
  let keys := match device_by_typed_pubkey auth key with
              | None => auth_public_keys auth ++
                          [DeviceKey_new (dpk_str key) (scope chosen) (label chosen) (epoch_i64 now)]
              | Some _ => auth_public_keys auth
              end in
  let methods := if contains Keypair (auth_methods auth) then auth_methods auth
                 else auth_methods auth ++ [Keypair] in
  set_auth profile (MkAuthConfig methods keys).

Definition pair_device_redeem_reserved (k : Kernel T) (store : T) (chosen : DurablePairToken)
    (key : DevicePubkey) (clock : RedeemClock)
    : T * Kernel T * result AdminResponseBody AdminResponseBody :=
  let fail e := (store, k, Err (RespError e)) in
  match alias_for (k_directory k) (principal_uid chosen) with
  | None => fail PrincipalNotAdmitted
  | Some principal =>
  if negb (bool_decide (is_Some (disk_of k !! principal))) then fail PrincipalDisappeared
  else
  match load_from_path (disk_of k !! principal) with
  | Err e => fail (ProfileLoadFailed e)
  | Ok original =>
  let profile := register_device original key chosen (rc_created clock) in
  match PrincipalProfile_validate profile with
  | Err e => fail (ProfileRejected e)
  | Ok _ =>
  match save_to_path profile with
  | Err e => fail (ProfileSaveFailed e)
  | Ok content =>
  let k := write_disk k principal content in
  let done k := Ok (RespPairTokenRedeemed principal
    (fingerprint_public_key (String.append "ed25519:" (dpk_str key)))
    (dkid_str (DeviceKeyId_for_pubkey key))) in
  match with_store store (consume_reservation (rc_consume clock) chosen) k with
  | (store, k, Ok true) => (store, invalidate_cache k principal, done k)
  | (store, k, Err _) => (store, invalidate_cache k principal, done k)
  | (store, k, Ok false) =>
      match load_from_path (disk_of k !! principal) with
      | Err e => (store, k, Ok (RespError (ProfileRollbackFailed e)))
      | Ok current =>
          if bool_decide (current = profile) then
            match save_to_path original with
            | Err e => (store, k, Ok (RespError (ProfileRollbackFailed e)))
            | Ok restored =>
                (store, invalidate_cache (write_disk k principal restored) principal,
                 Ok (RespError TokenInvalid))
            end
          else (store, k, Ok (RespError TokenInvalid))
      end
  end end end end end.

Definition pair_device_redeem (k : Kernel T) (token public_key : string) (clock : RedeemClock)
    : Kernel T * AdminResponseBody :=
  match DevicePubkey_normalize public_key with
  | Err _ => (k, RespError BadPublicKey)
  | Ok key =>
  match k_store k with
  | None => (k, RespError StoreUnavailable)
  | Some store =>
  match ensure_import store k with
  | (_, k, Err _) => (k, RespError StoreUnavailable)
  | (store, k, Ok _) =>
  match with_store store (redeemable (rc_redeemable clock) (hash_token token)) k with
  | (_, k, Err _) => (k, RespError StoreReadFailed)
  | (_, k, Ok None) => (k, RespError TokenInvalid)
  | (store, k, Ok (Some chosen)) =>
  match with_store store (reserve_if_unchanged (rc_reserve clock) chosen) k with
  | (_, k, Err _) => (k, RespError StoreWriteFailed)
  | (_, k, Ok false) => (k, RespError TokenInvalid)
  | (store, k, Ok true) =>
  match pair_device_redeem_reserved k store chosen key clock with
  | (_, k, Ok response) => (k, response)
  | (store, k, Err response) =>
      match with_store store (release_reservation (rc_release clock) chosen) k with
      | (_, k, Ok _) => (k, response)
      | (_, k, Err _) => (k, RespError ReservationRollbackFailed)
      end
  end end end end end end.

Definition pair_device_list (k : Kernel T) (principal : PrincipalId) : AdminResponseBody :=
  if negb (bool_decide (is_Some (disk_of k !! principal))) then RespError (NoProfile principal)
  else match load_from_path (disk_of k !! principal) with
       | Err e => RespError (ProfileLoadFailed e)
       | Ok profile =>
           RespPairDeviceListed ((fun d =>
             MkDeviceKeyInfo (dk_key_id d) (dk_label d) (dk_scope d) (dk_created_at d))
             <$> auth_public_keys (pp_auth profile))
       end.

(** The key removal on the loaded profile. *)
Definition remove_device (profile : PrincipalProfile) (key_id : string) : PrincipalProfile :=
  let auth := pp_auth profile in
  let keys := List.filter (fun d => negb (bool_decide (dk_key_id d = key_id)))
                (auth_public_keys auth) in
  let methods := if bool_decide (keys = [])
                 then List.filter (fun m => negb (bool_decide (m = Keypair))) (auth_methods auth)
                 else auth_methods auth in
  set_auth profile (MkAuthConfig methods keys).

Definition pair_device_revoke (k : Kernel T) (principal : PrincipalId) (raw_key_id : string)
    : Kernel T * AdminResponseBody :=
  match DeviceKeyId_new raw_key_id with
  | Err _ => (k, RespError BadDeviceKeyId)
  | Ok key_id =>
  if negb (bool_decide (is_Some (disk_of k !! principal))) then (k, RespError (NoProfile principal))
  else match load_from_path (disk_of k !! principal) with
  | Err e => (k, RespError (ProfileLoadFailed e))
  | Ok original =>
  let profile := remove_device original (dkid_str key_id) in
  if (length (auth_public_keys (pp_auth profile)) =? length (auth_public_keys (pp_auth original)))%nat
  then (k, RespError (NoSuchDevice (dkid_str key_id) principal))
  else match PrincipalProfile_validate profile with
  | Err e => (k, RespError (ProfileRejected e))
  | Ok _ =>
  match save_to_path profile with
  | Err e => (k, RespError (ProfileSaveFailed e))
  | Ok content =>
      (invalidate_cache (write_disk k principal content) principal,
       RespPairDeviceRevoked (dkid_str key_id))
  end end end end.

End Handlers.

(** ** Lemmas on scopes *)

Lemma merge_denies_elem deny issuer_deny pattern :
  pattern ∈ merge_denies deny issuer_deny <-> pattern ∈ deny \/ pattern ∈ issuer_deny.
Proof.
  unfold merge_denies. revert deny; induction issuer_deny as [|q qs IH]; intros deny; simpl; [set_solver|].
  rewrite IH. destruct (contains q deny) eqn:Hc.
  - apply contains_spec in Hc. set_solver.
  - set_solver.
Qed.

Lemma matches_some_subset l l' cap :
  (forall q, q ∈ l -> q ∈ l') -> matches_some l cap -> matches_some l' cap.
Proof. intros Hs (q & Hq & Hm). exists q. auto. Qed.

(** The floor the issuer check runs under: a full-scope device counts as
    none. *)
Definition issuer_floor (s : option DeviceScope) : option DeviceScope :=
  match s with Some (ScopeScoped _ _) => s | _ => None end.

Lemma issuer_floor_admits s cap : floor_admits (issuer_floor s) cap <-> floor_admits s cap.
Proof. by destruct s as [[]|]. Qed.

Lemma issuer_floor_has p g pr s cap :
  has (check_under p g pr (issuer_floor s)) cap = has (check_under p g pr s) cap.
Proof. apply eq_true_iff_eq. by rewrite !has_true, issuer_floor_admits. Qed.

(** What a granted pairing request guarantees. *)
Lemma validate_authority_Ok caller p g s requested child :
  validate_pair_issue_authority caller p g s requested = Ok child <->
  has (check_under p g caller s) "self:auth:pair" = true /\
  child = inherit_issuer_denies requested s /\
  match requested with
  | ScopeFull => is_scoped s = false /\ has (check_under p g caller s) "self:auth:pair:admin" = true
  | ScopeScoped allow _ =>
      ("*" ∈ allow -> has (check_under p g caller s) "self:auth:pair:admin" = true) /\
      Forall (fun q => has (check_under p g caller s) q = true) allow
  end.
Proof.
  unfold validate_pair_issue_authority.
  set (c := match s with Some (ScopeScoped _ _) => _ | _ => _ end).
  assert (Hc : c = check_under p g caller (issuer_floor s)) by (unfold c; by destruct s as [[]|]).
  rewrite Hc. rewrite !issuer_floor_has.
  destruct (has (check_under p g caller s) "self:auth:pair"); simpl; [|naive_solver].
  rewrite rbind_Ok. destruct requested as [|allow deny].
  - destruct (is_scoped s); [naive_solver|].
    destruct (has (check_under p g caller s) "self:auth:pair:admin"); simpl; naive_solver.
  - setoid_rewrite <- (contains_spec "*" allow).
    assert (Hw : map_err ScopeExceedsAuthority
        (device_scope_within (check_under p g caller (issuer_floor s)) (ScopeScoped allow deny)) = Ok tt <->
      Forall (fun q => has (check_under p g caller s) q = true) allow).
    { rewrite map_err_Ok, device_scope_within_Ok. apply Forall_iff. intros q. by rewrite issuer_floor_has. }
    rewrite <- Hw.
    destruct (contains "*" allow), (has (check_under p g caller s) "self:auth:pair:admin"); simpl;
      split; intros; repeat (match goal with
        | Hx : exists _, _ |- _ => destruct Hx as [[] ?] end); naive_solver.
Qed.

Lemma child_scope_within caller p g s requested child cap :
  validate_pair_issue_authority caller p g s requested = Ok child ->
  scope_admits child cap -> floor_admits s cap.
Proof.
  intros (_ & -> & Hreq)%validate_authority_Ok.
  destruct s as [[|ia id]|]; [done| |done]. destruct requested as [|allow deny]; [by destruct Hreq|].
  destruct Hreq as [_ Hw]. simpl. intros [(q & Hq & Hm) Hd]. rewrite Forall_forall in Hw.
  apply Hw, has_true in Hq as (_ & _ & _ & [Ha _]). split.
  - by eapply matches_some_trans.
  - intros Hid. apply Hd. eapply matches_some_subset; [|exact Hid].
    intros x Hx. apply merge_denies_elem. by right.
Qed.

(** Scopes a device can come to hold through successive pairings, each
    approved under whatever profile and groups were current then. *)
Inductive delegated : option DeviceScope -> DeviceScope -> Prop :=
| delegated_here caller p g s requested child :
    validate_pair_issue_authority caller p g s requested = Ok child -> delegated s child
| delegated_via caller p g s mid requested child :
    delegated s mid ->
    validate_pair_issue_authority caller p g (Some mid) requested = Ok child -> delegated s child.

Lemma delegated_within s child :
  delegated s child -> forall cap, scope_admits child cap -> floor_admits s cap.
Proof.
  induction 1 as [caller p g s requested child Hv|caller p g s mid requested child _ IH Hv];
    intros cap Hc.
  - by eapply child_scope_within.
  - apply IH. by apply (child_scope_within _ _ _ _ _ _ cap Hv).
Qed.

Lemma has_scope_mono p g pr s s' cap :
  (floor_admits s cap -> floor_admits s' cap) ->
  has (check_under p g pr s) cap = true -> has (check_under p g pr s') cap = true.
Proof. rewrite !has_true. naive_solver. Qed.

(** ** Lemmas on device resolution *)

Lemma find_device (auth : AuthConfig) id d :
  device_by_typed_key_id auth id = Some d -> d ∈ auth_public_keys auth /\ dk_key_id d = dkid_str id.
Proof.
  unfold device_by_typed_key_id. intros [Hin Hd]%List.find_some.
  rewrite list_elem_of_In. by bool_prop.
Qed.

Lemma resolve_device_Ok p caller dev cap r :
  resolve_device p caller dev cap = Ok r <->
  match dev with
  | None => r = None
  | Some raw => exists d, r = Some d /\ validate_device_key_id raw = Ok tt /\
      device_by_typed_key_id (pp_auth p) (MkDeviceKeyId raw) = Some d
  end.
Proof.
  unfold resolve_device. destruct dev as [raw|]; [|naive_solver]. unfold DeviceKeyId_new.
  destruct (validate_device_key_id raw) as [[]|]; simpl; [|naive_solver].
  destruct (device_by_typed_key_id _ _); naive_solver.
Qed.

Lemma authorize_request_Ok pk resolved g caller dev cap a :
  authorize_request pk resolved g caller dev cap = Ok a <->
  exists p, resolved = Ok p /\ enabled p = true /\
    match dev with
    | None => has (check_under p g caller None) cap = true /\
        a = MkAuthorizedRequest caller p g None None None
    | Some raw => exists d key,
        validate_device_key_id raw = Ok tt /\
        device_by_typed_key_id (pp_auth p) (MkDeviceKeyId raw) = Some d /\
        pk (dk_pubkey d) = Some key /\
        has (check_under p g caller (Some (dk_scope d))) cap = true /\
        a = MkAuthorizedRequest caller p g (Some (dk_scope d)) (Some (MkDeviceKeyId raw)) (Some key)
    end.
Proof.
  unfold authorize_request. destruct resolved as [p|]; [|naive_solver].
  destruct (enabled p) eqn:Hen; simpl; [|split; [done|]; intros (p' & [= <-] & ? & _); congruence].
  assert (Hreq : forall s, require (check_under p g caller s) cap = Ok tt <->
    has (check_under p g caller s) cap = true) by (intros s; apply require_outcomes).
  rewrite rbind_Ok. setoid_rewrite resolve_device_Ok. destruct dev as [raw|]; split.
  - intros (r & (d & -> & Hv & Hd) & Hrun). exists p. do 2 (split; [done|]). cbn in Hrun.
    pose proof (find_device _ _ _ Hd) as [_ Hid]. unfold DeviceKeyId_new in Hrun. cbn in Hid.
    rewrite Hid, Hv in Hrun. cbn in Hrun. destruct (pk (dk_pubkey d)) as [key|] eqn:Hk; [|done].
    cbn in Hrun. apply rbind_Ok in Hrun as ([] & Hr & [= <-]).
    exists d, key. split_and!; try done. by apply (Hreq (Some (dk_scope d))).
  - intros (p' & [= <-] & _ & d & key & Hv & Hd & Hk & Hh & ->).
    exists (Some d). split; [eauto|]. cbn. pose proof (find_device _ _ _ Hd) as [_ Hid]. cbn in Hid.
    unfold DeviceKeyId_new. rewrite Hid, Hv. cbn. rewrite Hk. cbn.
    apply (Hreq (Some (dk_scope d))) in Hh. cbn in Hh. by rewrite Hh.
  - intros (r & -> & Hrun). exists p. do 2 (split; [done|]). cbn in Hrun.
    apply rbind_Ok in Hrun as ([] & Hr & [= <-]). split; [|done]. by apply (Hreq None).
  - intros (p' & [= <-] & _ & Hh & ->). exists None. split; [done|]. cbn.
    apply (Hreq None) in Hh. cbn in Hh. by rewrite Hh.
Qed.

(** ** Lemmas on the handlers *)

Section HandlerLemmas.
Context {T : Type} `{KvStoreLaws T view} `{PairCodecLaws} `{Hashing} `{ProfileCodec} `{!ProfileCodecLaws}.
Context (hash_token fingerprint : string -> string).

Lemma read_records_state missing keys (s s' : T) r :
  read_records missing keys s = (s', r) -> s' = s.
Proof.
  revert s' r; induction keys as [|key keys IH]; intros s' r; cbn [read_records]; [by intros [= <- _]|].
  unfold eff_bind at 1, eff_read. destruct (kv_get s SYSTEM_KV_NAMESPACE key) as [[v|]|];
    [|by intros [= <- _]|by intros [= <- _]].
  rewrite eff_bind_lift. destruct (decode v) as [t|]; [|by intros [= <- _]].
  unfold eff_bind. destruct (read_records missing keys s) as [s1 [ts|]];
    rewrite (IH _ _ eq_refl); by intros [= <- _].
Qed.

Lemma verify_count_state n (s s' : T) r : verify_count n s = (s', r) -> s' = s.
Proof.
  unfold verify_count, eff_bind at 1, eff_read.
  destruct (kv_list_keys_with_prefix s SYSTEM_KV_NAMESPACE RECORD_PREFIX) as [keys|];
    [|by intros [= <- _]].
  case_match; [by intros [= <- _]|]. unfold eff_bind.
  destruct (read_records _ keys s) as [s1 [ts|]] eqn:Hr; apply read_records_state in Hr as ->;
    by intros [= <- _].
Qed.

(** Without a legacy file the import check only reads. *)
Lemma ensure_legacy_idle uids (s : T) w r :
  ensure_legacy_import uids (s, None) = (w, r) -> w = (s, None).
Proof.
  unfold ensure_legacy_import, eff_bind at 1, eff_read. cbn [snd read_legacy_source].
  unfold eff_bind, on_store. cbn [fst snd].
  destruct (kv_get s SYSTEM_KV_NAMESPACE LEGACY_RECEIPT_KEY) as [[bytes|]|];
    [|by intros [= <- _]|by intros [= <- _]].
  unfold import_with_receipt. rewrite eff_bind_lift.
  destruct (ok_or _ _) as [receipt|]; [|by intros [= <- _]].
  case_match; [by intros [= <- _]|]. unfold eff_bind, on_store. cbn [fst snd].
  destruct (verify_count (record_count receipt) s) as [s1 [[]|]] eqn:Hv;
    apply verify_count_state in Hv as ->; by intros [= <- _].
Qed.

Lemma ensure_import_idle (s s' : T) k k' r :
  k_legacy k = None -> k_store k = Some s -> ensure_import s k = (s', k', r) -> s' = s /\ k' = k.
Proof.
  intros Hl Hs. unfold ensure_import. rewrite Hl.
  destruct (ensure_legacy_import (uid_for (k_directory k)) (s, None)) as [[s1 f1] r1] eqn:He.
  apply ensure_legacy_idle in He as [= -> ->]. intros [= <- <- _]. split; [done|].
  destruct k. simpl in *. by subst.
Qed.

Lemma set_store_id (k : Kernel T) s : k_store k = Some s -> set_store k s = k.
Proof. destruct k. simpl. by intros ->. Qed.

Lemma stable_load p file :
  load_from_path file = Ok p -> Forall device_key_stable (auth_public_keys (pp_auth p)).
Proof.
  destruct file as [content|]; simpl; [|intros [= <-]; apply Forall_nil_2].
  unfold parse_profile. intros Hp. inv_ok.
  match goal with Hs : profile_from_toml content = Some _ |- _ => by apply profile_keys_stable in Hs end.
Qed.

Lemma stable_register p key chosen now :
  validate_pubkey_hex (dpk_str key) = Ok tt ->
  Forall device_key_stable (auth_public_keys (pp_auth p)) ->
  Forall device_key_stable (auth_public_keys (pp_auth (register_device p key chosen now))).
Proof.
  intros Hv Hp. unfold register_device. cbn. destruct (device_by_typed_pubkey _ _); [done|].
  apply Forall_app. split; [done|]. by apply Forall_singleton.
Qed.

Lemma stable_remove p id :
  Forall device_key_stable (auth_public_keys (pp_auth p)) ->
  Forall device_key_stable (auth_public_keys (pp_auth (remove_device p id))).
Proof.
  intros Hp. unfold remove_device. cbn. rewrite Forall_forall in *. intros d Hd. apply Hp.
  by apply list_elem_of_In, List.filter_In in Hd as [?%list_elem_of_In _].
Qed.

(** Revocation: what is on disk afterwards, and that the cache entry is gone. *)
Lemma revoke_Ok (k k' : Kernel T) principal raw id :
  pair_device_revoke k principal raw = (k', RespPairDeviceRevoked id) ->
  exists original content,
    id = raw /\ validate_device_key_id raw = Ok tt /\
    load_from_path (disk_of k !! principal) = Ok original /\
    (exists d, d ∈ auth_public_keys (pp_auth original) /\ dk_key_id d = raw) /\
    save_to_path (remove_device original raw) = Ok content /\
    k' = invalidate_cache (write_disk k principal content) principal.
Proof.
  unfold pair_device_revoke, DeviceKeyId_new.
  destruct (validate_device_key_id raw) as [[]|] eqn:Hv; simpl; [|done].
  case_bool_decide; simpl; [|done].
  destruct (load_from_path (disk_of k !! principal)) as [original|] eqn:Hl; [|done].
  case_match eqn:Hlen; [done|].
  destruct (PrincipalProfile_validate _) as [[]|]; [|done].
  destruct (save_to_path _) as [content|] eqn:Hs; [|done]. intros [= <- <-].
  exists original, content. split_and!; try done. apply Nat.eqb_neq in Hlen.
  destruct (decide (Exists (fun d => dk_key_id d = raw) (auth_public_keys (pp_auth original)))) as [He|Hn].
  { by apply Exists_exists in He. }
  exfalso. apply Hlen. f_equal. apply not_Exists_Forall in Hn; [|apply _].
  clear -Hn. induction Hn as [|d ds Hd _ IH]; [done|]. simpl.
  rewrite bool_decide_false by done. simpl. by f_equal.
Qed.

Lemma removed_device p raw : device_by_typed_key_id (pp_auth (remove_device p raw)) (MkDeviceKeyId raw) = None.
Proof.
  destruct (device_by_typed_key_id _ _) as [d|] eqn:Hd; [|done].
  apply find_device in Hd as [Hin Hid]. cbn in Hin, Hid.
  apply list_elem_of_In, List.filter_In in Hin as [_ Hin]. by rewrite bool_decide_true in Hin.
Qed.

Lemma resolve_after_invalidate (k : Kernel T) principal content p :
  save_to_path p = Ok content -> Forall device_key_stable (auth_public_keys (pp_auth p)) ->
  resolve_value (k_profiles (invalidate_cache (write_disk k principal content) principal)) principal = Ok p.
Proof.
  intros Hs Hk. unfold resolve_value. cbn. rewrite lookup_delete_eq, lookup_insert_eq.
  by apply load_for_some.
Qed.

(** A redeemed device was registered on the token's principal, and the
    token's reservation was deleted or its deletion left in doubt. *)
Lemma redeem_reserved_Ok (k k' : Kernel T) store store' chosen key clock principal fpr kid :
  pair_device_redeem_reserved fingerprint k store chosen key clock =
    (store', k', Ok (RespPairTokenRedeemed principal fpr kid)) ->
  exists original content r,
    alias_for (k_directory k) (principal_uid chosen) = Some principal /\
    load_from_path (disk_of k !! principal) = Ok original /\
    save_to_path (register_device original key chosen (rc_created clock)) = Ok content /\
    consume_reservation (rc_consume clock) chosen store = (store', r) /\ r <> Ok false /\
    k' = invalidate_cache (set_store (write_disk k principal content) store') principal /\
    kid = dkid_str (DeviceKeyId_for_pubkey key).
Proof.
  unfold pair_device_redeem_reserved. cbv zeta.
  destruct (alias_for _ _) as [pr|] eqn:Ha; [|done].
  destruct (bool_decide (is_Some (disk_of k !! pr))) eqn:Hex; cbn [negb]; [|done].
  destruct (load_from_path (disk_of k !! pr)) as [original|] eqn:Hl; [|done].
  destruct (PrincipalProfile_validate _) as [[]|]; [|done].
  destruct (save_to_path (register_device _ _ _ _)) as [content|] eqn:Hs; [|done].
  unfold with_store. destruct (consume_reservation _ _ store) as [s1 r] eqn:Hc.
  destruct r as [[]|e]; simpl.
  - intros [= <- <- <- <- <-]. exists original, content, (Ok true). split_and!; done.
  - repeat case_match; intros; simplify_eq.
  - intros [= <- <- <- <- <-]. exists original, content, (Err e). split_and!; done.
Qed.

Lemma redeem_Ok_cases (k k' : Kernel T) token pub clock principal fpr kid s :
  k_store k = Some s -> k_legacy k = None ->
  pair_device_redeem hash_token fingerprint k token pub clock =
    (k', RespPairTokenRedeemed principal fpr kid) ->
  exists key chosen v s1 s2 r original content,
    DevicePubkey_normalize pub = Ok key /\
    view s !! slot Redeemable (hash_token token) = Some v /\ decode v = Ok chosen /\
    (rc_redeemable clock < expires_at_epoch chosen)%N /\
    reserve_if_unchanged (rc_reserve clock) chosen s = (s1, Ok true) /\
    consume_reservation (rc_consume clock) chosen s1 = (s2, r) /\ r <> Ok false /\
    alias_for (k_directory k) (principal_uid chosen) = Some principal /\
    load_from_path (disk_of k !! principal) = Ok original /\
    save_to_path (register_device original key chosen (rc_created clock)) = Ok content /\
    k_store k' = Some s2 /\ k_legacy k' = None /\ k_groups k' = k_groups k /\
    k_profiles k' = MkProfileWorld (cache_invalidate (pw_cache (k_profiles k)) principal)
                      (<[principal := content]> (disk_of k)) /\
    kid = dkid_str (DeviceKeyId_for_pubkey key).
Proof.
  intros Hst Hleg. unfold pair_device_redeem.
  destruct (DevicePubkey_normalize pub) as [key|] eqn:Hkey; [|done]. rewrite Hst.
  destruct (ensure_import s k) as [[s0 k0] r0] eqn:Hi.
  apply (ensure_import_idle s s0 k k0 r0 Hleg Hst) in Hi as [-> ->]. destruct r0 as [[]|]; [|done].
  unfold with_store at 1. destruct (redeemable _ _ s) as [s0 [[chosen|]|]] eqn:Hr; [|done|done].
  apply redeemable_Ok in Hr as [-> Hr]. destruct (proj1 (Hr chosen) eq_refl) as (v & Hv & Hd & Hx).
  rewrite set_store_id by done.
  unfold with_store at 1. destruct (reserve_if_unchanged _ chosen s) as [s1 [[]|]] eqn:Hres; [|done|done].
  destruct (pair_device_redeem_reserved _ _ s1 chosen key clock) as [[s2 k2] [resp|resp]] eqn:Hred.
  - intros [= <- ->]. apply redeem_reserved_Ok in Hred
      as (original & content & r & Ha & Hl & Hs & Hc & Hrn & -> & ->).
    exists key, chosen, v, s1, s2, r, original, content. split_and!; done.
  - unfold with_store. destruct (release_reservation _ chosen s2) as [s3 [|]]; [|done].
    intros [= <- ->]. exfalso. clear -Hred.
    unfold pair_device_redeem_reserved in Hred. repeat case_match; simplify_eq.
Qed.

Lemma with_store_profiles {A} (s s' : T) (c : eff T StorageError A) k k' r :
  with_store s c k = (s', k', r) ->
  k_profiles k' = k_profiles k /\ k_directory k' = k_directory k /\ k_groups k' = k_groups k /\
  k_store k' = Some s' /\ c s = (s', r).
Proof. unfold with_store. destruct (c s) as [s1 r1]. by intros [= <- <- <-]. Qed.

Lemma ensure_import_profiles (s s' : T) k k' r :
  ensure_import s k = (s', k', r) ->
  k_profiles k' = k_profiles k /\ k_directory k' = k_directory k /\ k_groups k' = k_groups k.
Proof.
  unfold ensure_import. destruct (ensure_legacy_import _ _) as [[s1 f1] r1]. by intros [= <- <- <-].
Qed.

(** A registration that does not end in a redeemed device, and whose rollback
    did not fail, leaves every profile as it was. *)
Lemma redeem_reserved_error (k k' : Kernel T) store store' chosen key clock resp :
  validate_pubkey_hex (dpk_str key) = Ok tt ->
  pair_device_redeem_reserved fingerprint k store chosen key clock = (store', k', resp) ->
  (forall e, resp = Ok (RespError e) \/ resp = Err (RespError e) ->
     (forall pe, e <> ProfileRollbackFailed pe) ->
     forall q, load_from_path (disk_of k' !! q) = load_from_path (disk_of k !! q)).
Proof.
  intros Hkey. unfold pair_device_redeem_reserved. cbv zeta.
  destruct (alias_for _ _) as [pr|]; [|intros [= <- <- <-]; done].
  destruct (bool_decide (is_Some (disk_of k !! pr))); cbn [negb]; [|intros [= <- <- <-]; done].
  destruct (load_from_path (disk_of k !! pr)) as [original|] eqn:Hl; [|intros [= <- <- <-]; done].
  destruct (PrincipalProfile_validate _) as [[]|]; [|intros [= <- <- <-]; done].
  destruct (save_to_path (register_device _ _ _ _)) as [content|] eqn:Hs; [|intros [= <- <- <-]; done].
  destruct (with_store _ _ _) as [[s1 k1] r] eqn:Hw.
  apply with_store_profiles in Hw as (Hprof & _). 
  assert (Hdisk : disk_of k1 = <[pr := content]> (disk_of k)) by (unfold disk_of; by rewrite Hprof).
  destruct r as [[]|]; [intros [= <- <- <-]; naive_solver| |intros [= <- <- <-]; naive_solver].
  rewrite Hdisk, lookup_insert_eq.
  pose proof (stable_load _ _ Hl) as Hst.
  destruct (save_load _ content (Some content) Hs) as [-> _]; [by apply stable_register|done|].
  rewrite bool_decide_true by done.
  destruct (save_to_path original) as [restored|se] eqn:Hso;
    [|intros [= <- <- <-] e [[= <-]|[=]] Hne; by destruct (Hne se)].
  intros [= <- <- <-] e _ _ q. cbn. rewrite Hdisk.
  destruct (decide (q = pr)) as [->|Hq]; [|by rewrite !lookup_insert_ne].
  rewrite lookup_insert_eq, Hl. by destruct (save_load _ restored (Some restored) Hso Hst eq_refl).
Qed.

Lemma redeem_error (k k' : Kernel T) token pub clock e :
  pair_device_redeem hash_token fingerprint k token pub clock = (k', RespError e) ->
  (forall pe, e <> ProfileRollbackFailed pe) ->
  forall q, load_from_path (disk_of k' !! q) = load_from_path (disk_of k !! q).
Proof.
  unfold pair_device_redeem. intros Hrun Hne q.
  destruct (DevicePubkey_normalize pub) as [key|] eqn:Hkey; [|by injection Hrun as <-].
  apply normalize_Ok in Hkey. destruct (k_store k) as [s|]; [|by injection Hrun as <-].
  destruct (ensure_import s k) as [[s0 k0] r0] eqn:Hi. apply ensure_import_profiles in Hi as (Hp0 & _).
  unfold disk_of. rewrite <- Hp0. destruct r0 as [[]|]; [|by injection Hrun as <-].
  destruct (with_store s0 _ k0) as [[s1 k1] r1] eqn:Hw1. apply with_store_profiles in Hw1 as (Hp1 & _).
  rewrite <- Hp1. destruct r1 as [[chosen|]|]; [|by injection Hrun as <-|by injection Hrun as <-].
  destruct (with_store s1 _ k1) as [[s2 k2] r2] eqn:Hw2. apply with_store_profiles in Hw2 as (Hp2 & _).
  rewrite <- Hp2. destruct r2 as [[]|]; [|by injection Hrun as <-|by injection Hrun as <-].
  destruct (pair_device_redeem_reserved _ k2 s2 chosen key clock) as [[s3 k3] resp] eqn:Hred.
  pose proof (redeem_reserved_error _ _ _ _ _ _ _ _ Hkey Hred) as Herr.
  destruct resp as [resp|resp]; [injection Hrun as <- ->; by apply (Herr e); [left|]|].
  destruct (with_store s3 _ k3) as [[s4 k4] r4] eqn:Hw4. apply with_store_profiles in Hw4 as (Hp4 & _).
  assert (Hresp : exists e', resp = RespError e' /\ (forall pe, e' <> ProfileRollbackFailed pe)).
  { clear -Hred. unfold pair_device_redeem_reserved in Hred. repeat case_match; naive_solver. }
  destruct Hresp as (e' & -> & Hne').
  assert (k' = k4) as -> by (destruct r4; by injection Hrun).
  rewrite Hp4. by apply (Herr e'); [right|].
Qed.

(** Issuing stores one record, bound to the caller, with the validated scope. *)
Lemma issue_Ok (k k' : Kernel T) caller auth dev expires lbl requested prune_now now token tok pr exp lbl' s :
  k_store k = Some s -> k_legacy k = None ->
  pair_device_issue hash_token k caller (Some auth) dev expires lbl requested prune_now now token =
    (k', RespPairToken tok pr exp lbl') ->
  exists lifetime requested_scope stored uid s1 s2 n v,
    validate_pair_issue expires requested = Ok (lifetime, requested_scope) /\
    validate_pair_issue_authority caller (ar_profile auth) (ar_groups auth) (ar_device_scope auth)
      requested_scope = Ok stored /\
    uid_for (k_directory k) caller = Some uid /\
    prune prune_now s = (s1, Ok n) /\
    let record := MkDurablePairToken (hash_token token) uid exp now lbl stored in
    encode record = Ok v /\
    k_store k' = Some s2 /\ view s2 = <[slot Redeemable (hash_token token) := v]> (view s1) /\
    k_profiles k' = k_profiles k /\ k_directory k' = k_directory k /\ k_groups k' = k_groups k /\
    k_legacy k' = None /\
    tok = token /\ pr = caller /\ lbl' = lbl /\ exp = sat_add U64_MAX now lifetime.
Proof.
  intros Hst Hleg. unfold pair_device_issue.
  destruct (validate_pair_issue expires requested) as [[lifetime rscope]|] eqn:Hv; [|done].
  cbn [resolve_pair_issuer_authority].
  destruct (validate_pair_issue_authority _ _ _ _ _) as [stored|] eqn:Ha; [|done]. rewrite Hst.
  destruct (ensure_import s k) as [[s0 k0] r0] eqn:Hi.
  apply (ensure_import_idle s s0 k k0 r0 Hleg Hst) in Hi as [-> ->]. destruct r0 as [[]|]; [|done].
  unfold with_store at 1. destruct (prune prune_now s) as [s1 [n|]] eqn:Hpr; [|done].
  cbn [k_directory set_store]. destruct (uid_for (k_directory k) caller) as [uid|] eqn:Hu; [|done].
  unfold with_store. destruct (issue _ s1) as [s2 [[]|]] eqn:Hiss; [|done|done].
  intros [= <- <- <- <- <-].
  apply (run_event_true (EvIssue _)) in Hiss as [_ (v & He & Hview)]. cbn [token_hash] in Hview.
  exists lifetime, rscope, stored, uid, s1, s2, n, v. split_and!; done.
Qed.

(** A redemption takes the token's record out of the redeemable state. *)
Lemma redeem_unredeemable (s s1 s2 : T) chosen now now' r :
  reserve_if_unchanged now chosen s = (s1, Ok true) ->
  consume_reservation now' chosen s1 = (s2, r) ->
  view s2 !! slot Redeemable (token_hash chosen) = None.
Proof.
  intros Hres Hc. apply (run_event_true (EvReserve now chosen)) in Hres as [_ (v & _ & E)].
  assert (H0' : view s1 !! slot Redeemable (token_hash chosen) = None).
  { rewrite E, lookup_insert_ne by (symmetry; apply slot_ne). apply lookup_delete_eq. }
  apply (run_event_cases (EvConsume now' chosen)) in Hc as [(-> & _)|(_ & He & _)]; [done|].
  simpl in He. rewrite He. by rewrite lookup_delete_ne by (symmetry; apply slot_ne).
Qed.

(** The device registered for a key with a fresh key id is found under that id. *)
Lemma register_device_found p key chosen now :
  device_by_typed_key_id (pp_auth p) (DeviceKeyId_for_pubkey key) = None ->
  Forall device_key_stable (auth_public_keys (pp_auth p)) ->
  device_by_typed_key_id (pp_auth (register_device p key chosen now)) (DeviceKeyId_for_pubkey key) =
  Some (DeviceKey_new (dpk_str key) (scope chosen) (label chosen) (epoch_i64 now)).
Proof.
  intros Hid Hst. unfold register_device. cbv zeta. cbn [set_auth pp_auth].
  assert (device_by_typed_pubkey (pp_auth p) key = None) as Hnone.
  { destruct (device_by_typed_pubkey (pp_auth p) key) as [d|] eqn:Hd; [|done]. exfalso.
    unfold device_by_typed_pubkey in Hd. apply List.find_some in Hd as [Hin Hd].
    unfold device_by_typed_key_id in Hid.
    apply (List.find_none _ _ Hid) in Hin as Hno.
    rewrite Forall_forall in Hst. apply list_elem_of_In, Hst in Hin as [_ Hfp]. bool_prop.
    apply Hno. rewrite Hfp. unfold matches_pubkey in *. cbn. bool_prop. congruence. }
  rewrite Hnone. unfold device_by_typed_key_id in *. cbn [auth_public_keys].
  induction (auth_public_keys (pp_auth p)) as [|d ds IH]; simpl in *.
  - by rewrite bool_decide_true.
  - inversion Hst; subst. case_match; [done|]. by apply IH.
Qed.

End HandlerLemmas.

(** ** Properties *)

(** pairing never delegates more than the issuer has.  A pairing request
    is granted exactly when the issuing device may pair at all, a full child
    comes from an unscoped issuer with the administrative pairing capability,
    and every requested allow pattern is held by the issuer; under whatever
    profile and groups apply later, all the child device is then allowed to
    do, the issuing device is allowed to do. *)
Theorem pairing_no_escalation : forall caller p g s requested child,
  (validate_pair_issue_authority caller p g s requested = Ok child <->
   has (check_under p g caller s) "self:auth:pair" = true /\
   child = inherit_issuer_denies requested s /\
   match requested with
   | ScopeFull => is_scoped s = false /\ has (check_under p g caller s) "self:auth:pair:admin" = true
   | ScopeScoped allow _ =>
       ("*" ∈ allow -> has (check_under p g caller s) "self:auth:pair:admin" = true) /\
       Forall (fun q => has (check_under p g caller s) q = true) allow
   end) /\
  (validate_pair_issue_authority caller p g s requested = Ok child ->
   forall p' g' pr cap,
     has (check_under p' g' pr (Some child)) cap = true -> has (check_under p' g' pr s) cap = true).
Proof.
  intros caller p g s requested child. split; [apply validate_authority_Ok|].
  intros Hv p' g' pr cap. apply has_scope_mono. by apply (child_scope_within _ _ _ _ _ _ _ Hv).
Qed.

(** authority only shrinks along a chain of pairings: a device at the end
    of any number of successive pairings, each approved under its own profile
    and groups, is allowed nothing that the first issuing device is not. *)
Theorem delegation_chain_shrinks : forall s child,
  delegated s child -> forall p g pr cap,
  has (check_under p g pr (Some child)) cap = true -> has (check_under p g pr s) cap = true.
Proof. intros s child Hd p g pr cap. apply has_scope_mono. by apply (delegated_within _ _ Hd). Qed.

(** a device with the use-only preset cannot pair another device, whatever
    its principal's profile, groups and the requested scope are. *)
Theorem use_only_cannot_mint : forall s caller p g requested,
  DeviceScope_preset "use-only" = Some s ->
  validate_pair_issue_authority caller p g (Some s) requested = Err NeedsPair.
Proof.
  intros s caller p g requested [= <-]. unfold validate_pair_issue_authority. cbv zeta.
  set (c := with_device_scope _ _).
  assert (has c "self:auth:pair" = false) as ->; [|done].
  apply not_true_iff_false. change c with (check_under p g caller
    (Some (ScopeScoped ["self:*"] ["self:auth:pair"; "self:auth:pair:admin"; "delegate:self:*"]))).
  rewrite has_true. intros (_ & _ & _ & [_ Hd]). apply Hd. exists "self:auth:pair".
  split; [left|vm_compute; reflexivity].
Qed.

(** The decision point admits a request exactly when the caller's profile
    resolves and is enabled, the presented device id (if any) names one of
    the principal's devices with a decodable key, and the capability check
    under that device's scope succeeds; the request it returns carries that
    profile, scope, device id and key.  Every other request is refused. *)
Theorem authorize_request_exact : forall pk resolved g caller dev cap a,
  authorize_request pk resolved g caller dev cap = Ok a <->
  exists p, resolved = Ok p /\ enabled p = true /\
    match dev with
    | None => has (check_under p g caller None) cap = true /\
        a = MkAuthorizedRequest caller p g None None None
    | Some raw => exists d key,
        validate_device_key_id raw = Ok tt /\
        device_by_typed_key_id (pp_auth p) (MkDeviceKeyId raw) = Some d /\
        pk (dk_pubkey d) = Some key /\
        has (check_under p g caller (Some (dk_scope d))) cap = true /\
        a = MkAuthorizedRequest caller p g (Some (dk_scope d)) (Some (MkDeviceKeyId raw)) (Some key)
    end.
Proof. apply authorize_request_Ok. Qed.

(** C24: revoking a device takes effect at once: after the handler reports
    success, resolving the principal gives the profile without that key, every
    request presenting the revoked id is refused for every capability, and no
    other principal's file or cached profile has changed. *)
Theorem revoked_device_denied {T : Type} `{Hashing} `{ProfileCodec} `{!ProfileCodecLaws} :
  forall (k k' : Kernel T) principal raw id,
  pair_device_revoke k principal raw = (k', RespPairDeviceRevoked id) ->
  (exists original, load_from_path (disk_of k !! principal) = Ok original /\
     resolve_value (k_profiles k') principal = Ok (remove_device original raw)) /\
  (forall pk g cap, exists e,
     authorize_request pk (resolve_value (k_profiles k') principal) g principal (Some raw) cap = Err e) /\
  (forall q, q <> principal -> disk_of k' !! q = disk_of k !! q /\
     profiles (pw_cache (k_profiles k')) !! q = profiles (pw_cache (k_profiles k)) !! q).
Proof.
  intros k k' principal raw id Hrun.
  apply revoke_Ok in Hrun as (original & content & -> & Hv & Hl & _ & Hs & ->).
  pose proof (resolve_after_invalidate k principal content _ Hs
    (stable_remove _ raw (stable_load _ _ Hl))) as Hres.
  rewrite Hres. split_and!; [eauto| |].
  - intros pk g cap. destruct (authorize_request _ _ _ _ _ _) as [a|e] eqn:Ha; [|eauto].
    apply authorize_request_Ok in Ha as (p & [= <-] & _ & d & key & _ & Hd & _).
    by rewrite removed_device in Hd.
  - intros q Hq. cbn. by rewrite lookup_insert_ne, lookup_delete_ne.
Qed.

(** A pairing token works once: after a redemption that succeeded no
    second redemption of the same token succeeds, for any public key and any
    clock, and the profile that was written is the token principal's profile
    with that one key registered. *)
Theorem redeem_single_use {T : Type} `{KvStoreLaws T view} `{PairCodecLaws} `{Hashing}
    `{ProfileCodec} `{!ProfileCodecLaws} (hash_token fingerprint : string -> string) :
  forall (k k' : Kernel T) s token pub clock principal fpr kid,
  k_store k = Some s -> k_legacy k = None -> store_wf (view s) ->
  pair_device_redeem hash_token fingerprint k token pub clock =
    (k', RespPairTokenRedeemed principal fpr kid) ->
  (exists key chosen original,
     DevicePubkey_normalize pub = Ok key /\ kid = dkid_str (DeviceKeyId_for_pubkey key) /\
     token_hash chosen = hash_token token /\
     alias_for (k_directory k) (principal_uid chosen) = Some principal /\
     load_from_path (disk_of k !! principal) = Ok original /\
     resolve_value (k_profiles k') principal =
       Ok (register_device original key chosen (rc_created clock))) /\
  (forall k'' pub' clock' principal' fpr' kid',
     pair_device_redeem hash_token fingerprint k' token pub' clock' <>
       (k'', RespPairTokenRedeemed principal' fpr' kid')).
Proof.
  intros k k' s token pub clock principal fpr kid Hst Hleg Hwf Hrun.
  apply (redeem_Ok_cases _ _ _ _ _ _ _ _ _ _ s) in Hrun
    as (key & chosen & v & s1 & s2 & r & original & content & Hkey & Hv & Hd & _ & Hres & Hc & _ &
        Ha & Hl & Hs & Hst' & Hleg' & _ & Hprof & ->); [|done|done].
  assert (Hh : token_hash chosen = hash_token token).
  { apply Hwf in Hv as (t & Ht & Hh). rewrite Hd in Ht. by injection Ht as ->. }
  split.
  - exists key, chosen, original. split_and!; try done. unfold resolve_value. rewrite Hprof. cbn.
    rewrite lookup_delete_eq, lookup_insert_eq. apply load_for_some; [done|].
    apply stable_register; [by apply normalize_Ok in Hkey|by eapply stable_load].
  - intros k'' pub' clock' principal' fpr' kid' Hrun'.
    apply (redeem_Ok_cases _ _ _ _ _ _ _ _ _ _ s2) in Hrun'
      as (_ & chosen' & v' & _ & _ & _ & _ & _ & _ & Hv' & _); [|done|done].
    rewrite <- Hh in Hv'. by rewrite (redeem_unredeemable _ _ _ _ _ _ _ Hres Hc) in Hv'.
Qed.


(** a redemption that is refused leaves every principal's profile as it
    was, whichever step refused it; the one exception reports that restoring
    the profile failed. *)
Theorem failed_redeem_keeps_profiles {T : Type} `{KvStoreLaws T view} `{PairCodecLaws} `{Hashing}
    `{ProfileCodec} `{!ProfileCodecLaws} (hash_token fingerprint : string -> string) :
  forall (k k' : Kernel T) token pub clock e,
  pair_device_redeem hash_token fingerprint k token pub clock = (k', RespError e) ->
  (forall pe, e <> ProfileRollbackFailed pe) ->
  forall q, load_from_path (disk_of k' !! q) = load_from_path (disk_of k !! q).
Proof. intros k k' token pub clock e. apply redeem_error. Qed.

(** ** Concrete instances *)

Definition operator : PrincipalId := MkPrincipalId "operator".
Definition phone_hex : string := "abcdef0123456789abcdef0123456789abcdef0123456789abcdef0123456789".
Definition phone_scope : DeviceScope := ScopeScoped ["self:*"] [].
Definition phone_token : DurablePairToken :=
  MkDurablePairToken hash_a (MkPrincipalUid "uid") 400 100 (Some "phone") phone_scope.
Definition paired_profile : PrincipalProfile :=
  @register_device constant_hashing admin_profile (MkDevicePubkey phone_hex) phone_token 120.
Definition phone_id : string := @device_key_id_fingerprint constant_hashing phone_hex.

Definition phone_codec : PairCodec := {|
  token_to_json t := if bool_decide (t = phone_token) then Some "a" else None;
  token_from_json v := if bool_decide (v = "a") then Some phone_token else None;
  receipt_to_json _ := None;
  receipt_from_json _ := None;
  legacy_probe _ := None;
  legacy_records _ := None;
|}.
#[local] Existing Instance phone_codec.

#[local] Instance phone_codec_laws : PairCodecLaws.
Proof. split; simpl; [|done]. intros t v. repeat case_bool_decide; intros; by simplify_eq. Qed.

Definition operator_codec : ProfileCodec := {|
  profile_to_toml p := if bool_decide (p = admin_profile) then Some "owner"
                       else if bool_decide (p = paired_profile) then Some "paired" else None;
  profile_from_toml v := if bool_decide (v = "owner") then Some admin_profile
                         else if bool_decide (v = "paired") then Some paired_profile else None;
|}.
#[local] Existing Instance constant_hashing.
#[local] Existing Instance operator_codec.

#[local] Instance operator_codec_laws : ProfileCodecLaws.
Proof.
  split; intros p v; simpl.
  - repeat case_bool_decide; intros; by simplify_eq.
  - repeat case_bool_decide; intros; simplify_eq; [apply Forall_nil_2|].
    apply Forall_singleton. split; vm_compute; reflexivity.
Qed.

Definition world_of (content : string) : ProfileWorld :=
  MkProfileWorld (MkProfileCacheState ∅ ∅) {[operator := content]}.
Definition kernel_of (s : MemoryKvStore) (content : string) : Kernel MemoryKvStore :=
  MkKernel (Some s) None (world_of content)
    (MkPrincipalDirectory {[operator := MkPrincipalUid "uid"]} {[MkPrincipalUid "uid" := operator]})
    builtin_only.
Definition operator_request : AuthorizedRequest :=
  MkAuthorizedRequest operator admin_profile builtin_only None None None.
Definition demo_clock : RedeemClock := MkRedeemClock 110 110 120 130 140.
Definition hash_demo (token : string) : string := hash_a.
Definition issued_kernel : Kernel MemoryKvStore :=
  (pair_device_issue hash_demo (kernel_of MemoryKvStore_new "owner") operator (Some operator_request)
     None None (Some "phone") (PairExplicit ["self:*"] []) 100 100 "token").1.
Definition redeemed_kernel : Kernel MemoryKvStore :=
  (pair_device_redeem hash_demo (fun s => s) issued_kernel "token" phone_hex demo_clock).1.

Lemma issue_demo :
  pair_device_issue hash_demo (kernel_of MemoryKvStore_new "owner") operator (Some operator_request)
    None None (Some "phone") (PairExplicit ["self:*"] []) 100 100 "token" =
  (issued_kernel, RespPairToken "token" operator 400 (Some "phone")).
Proof. vm_compute. reflexivity. Qed.

Lemma redeem_demo :
  pair_device_redeem hash_demo (fun s => s) issued_kernel "token" phone_hex demo_clock =
  (redeemed_kernel, RespPairTokenRedeemed operator (String.append "ed25519:" phone_hex) phone_id).
Proof. vm_compute. reflexivity. Qed.

Lemma issued_store_wf : exists s, k_store issued_kernel = Some s /\ store_wf (mem_view s).
Proof.
  pose proof issue_demo as Hd.
  apply (issue_Ok (view := mem_view) _ _ _ _ _ _ _ _ _ _ _ _ _ _ _ _ MemoryKvStore_new) in Hd
    as (lifetime & rs & stored & uid & s1 & s2 & n & v & _ & _ & _ & Hpr & Henc & Hst & Hview & _);
    [|done|done].
  exists s2. split; [done|]. rewrite Hview.
  eapply (event_store_wf _ (EvIssue _)); [|simpl; eauto].
  assert (s1 = (prune 100 MemoryKvStore_new).1) as -> by (by rewrite Hpr).
  intros st hs w. by vm_compute.
Qed.

Lemma pairing_no_escalation_witness :
  validate_pair_issue_authority operator admin_profile builtin_only None phone_scope = Ok phone_scope /\
  (has (check_under admin_profile builtin_only operator (Some phone_scope)) "self:auth:pair" = true ->
   has (check_under admin_profile builtin_only operator None) "self:auth:pair" = true).
Proof.
  assert (validate_pair_issue_authority operator admin_profile builtin_only None phone_scope =
    Ok phone_scope) as E by (vm_compute; reflexivity).
  split; [exact E|].
  exact (proj2 (pairing_no_escalation operator admin_profile builtin_only None phone_scope phone_scope)
    E admin_profile builtin_only operator "self:auth:pair").
Defined.

(** A scoped issuer: the child of a device that may not create agents. *)
Definition limited_scope : DeviceScope := ScopeScoped ["self:*"] ["self:agent:create"].
Definition inherited_scope : DeviceScope := ScopeScoped ["self:capsule:*"] ["self:agent:create"].

Lemma delegation_chain_shrinks_witness :
  delegated None inherited_scope /\
  (has (check_under admin_profile builtin_only operator (Some inherited_scope)) "self:capsule:list" = true ->
   has (check_under admin_profile builtin_only operator None) "self:capsule:list" = true).
Proof.
  assert (delegated None inherited_scope) as D.
  { eapply (delegated_via operator admin_profile builtin_only None limited_scope
      (ScopeScoped ["self:capsule:*"] [])).
    - apply (delegated_here operator admin_profile builtin_only None limited_scope).
      vm_compute. reflexivity.
    - vm_compute. reflexivity. }
  split; [exact D|].
  exact (delegation_chain_shrinks None inherited_scope D admin_profile builtin_only operator
    "self:capsule:list").
Defined.

Lemma use_only_cannot_mint_witness :
  exists s, validate_pair_issue_authority operator admin_profile builtin_only (Some s) phone_scope =
    Err NeedsPair.
Proof. eexists. eapply use_only_cannot_mint. reflexivity. Defined.

Lemma revoked_device_denied_witness :
  exists k', pair_device_revoke (kernel_of MemoryKvStore_new "paired") operator phone_id =
      (k', RespPairDeviceRevoked phone_id) /\
    forall pk g cap, exists e,
      authorize_request pk (resolve_value (k_profiles k') operator) g operator (Some phone_id) cap = Err e.
Proof.
  exists (pair_device_revoke (kernel_of MemoryKvStore_new "paired") operator phone_id).1.
  assert (pair_device_revoke (kernel_of MemoryKvStore_new "paired") operator phone_id =
    ((pair_device_revoke (kernel_of MemoryKvStore_new "paired") operator phone_id).1,
     RespPairDeviceRevoked phone_id)) as E by (vm_compute; reflexivity).
  split; [exact E|]. exact (proj1 (proj2 (revoked_device_denied _ _ _ _ _ E))).
Defined.

Lemma redeem_single_use_witness :
  k_legacy issued_kernel = None /\
  forall k'' pub' clock' principal' fpr' kid',
  pair_device_redeem hash_demo (fun s => s) redeemed_kernel "token" pub' clock' <>
    (k'', RespPairTokenRedeemed principal' fpr' kid').
Proof.
  split; [reflexivity|]. destruct issued_store_wf as (s & Hs & Hwf).
  exact (proj2 (redeem_single_use (view := mem_view) hash_demo (fun s => s) _ _ s "token" phone_hex
    demo_clock _ _ _ Hs eq_refl Hwf redeem_demo)).
Defined.


Lemma failed_redeem_keeps_profiles_witness :
  load_from_path (disk_of (pair_device_redeem hash_demo (fun s => s) redeemed_kernel "token"
    phone_hex demo_clock).1 !! operator) = load_from_path (disk_of redeemed_kernel !! operator).
Proof.
  refine (failed_redeem_keeps_profiles (view := mem_view) hash_demo (fun s => s) redeemed_kernel
    _ "token" phone_hex demo_clock TokenInvalid _ _ operator).
  - vm_compute. reflexivity.
  - discriminate.
Defined.
