(* ===== verification/Budgets.v ===== *)
(** * Resource budgets

    [crates/astrid-capsule-types/src/fuel_ledger.rs]: the cumulative fuel
    ledger and the per-principal fuel-rate limiter with its reservations;
    [memory_ledger.rs]: the bounded peak-memory ledger;
    [crates/astrid-events/src/rate_limiter.rs]: the publish-throughput
    limiter.

    Instants are nanosecond counts and each operation takes the instant it
    reads.  Every operation runs under the lock of its principal's cell, so
    concurrent calls are sequences of operations.  A window's wakeup event is
    omitted: notifying a waiter only makes it try again.  What a prune pass observes
    of other threads (a cell it cannot lock, registered waiters, a concurrent
    prune) is the argument [PruneView]. *)

From S2P Require Import Prelude Profile.
Local Open Scope list_scope.
Local Open Scope N_scope.

(** ** Fuel share of one invocation *)

Definition invocation_fuel_share (rate_budget invocation_fuel_cap max_in_flight : N) : N :=
  if rate_budget =? 0 then invocation_fuel_cap
  else
    let allowance := N.max max_in_flight 1 in
    N.min (N.max (rate_budget / allowance) 1) invocation_fuel_cap.

(** ** The cumulative ledger *)

Abbreviation FuelLedger := (gmap PrincipalId N).

Definition saturating_add (counter fuel : N) : N := sat_add U64_MAX counter fuel.

Definition charge (ledger : FuelLedger) (principal : PrincipalId) (fuel : N) : FuelLedger :=
  if fuel =? 0 then ledger
  else match ledger !! principal with
       | Some counter => <[principal := saturating_add counter fuel]> ledger
       | None => <[principal := saturating_add 0 fuel]> ledger
       end.

Definition total (ledger : FuelLedger) (principal : PrincipalId) : N :=
  default 0 (ledger !! principal).

(** ** The fuel-rate limiter *)

Definition WINDOW : N := NANOS_PER_SEC.
Definition PRUNE_THRESHOLD : nat := 1000.
Definition PRUNE_INTERVAL : N := 60 * NANOS_PER_SEC.

Record FuelWindow : Type := MkFuelWindow {
  window_start : N;
  fuel_in_window : N;
}.

(** What one prune pass sees of the other threads. *)
Record PruneView (K : Type) : Type := MkPruneView {
  prune_busy : bool;
  cell_locked : K -> bool;
  has_listeners : K -> bool;
}.
Arguments MkPruneView {K} _ _ _.
Arguments prune_busy {K} _.
Arguments cell_locked {K} _ _.
Arguments has_listeners {K} _ _.

Section FuelRate.
Context {K : Type} `{Countable K}.

Record FuelRateLimiter : Type := MkFuelRateLimiter {
  rl_inner : gmap K FuelWindow;
  rl_reserved : gmap K N;
  rl_last_prune : N;
}.

Record FuelReservation : Type := MkFuelReservation {
  fr_principal : K;
  fr_amount : N;
  fr_settled : bool;
}.

Definition FuelRateLimiter_default (now : N) : FuelRateLimiter := MkFuelRateLimiter ∅ ∅ now.

(** [entry(principal).or_insert_with(...)]. *)
Definition cell_or_new (l : FuelRateLimiter) (principal : K) (now : N) : FuelWindow :=
  default (MkFuelWindow now 0) (rl_inner l !! principal).

Definition set_cell (l : FuelRateLimiter) (principal : K) (w : FuelWindow) : FuelRateLimiter :=
  MkFuelRateLimiter (<[principal := w]> (rl_inner l)) (rl_reserved l) (rl_last_prune l).

Definition set_reserved (l : FuelRateLimiter) (principal : K) (v : N) : FuelRateLimiter :=
  MkFuelRateLimiter (rl_inner l) (<[principal := v]> (rl_reserved l)) (rl_last_prune l).

Definition roll (window : FuelWindow) (now : N) : FuelWindow :=
  if WINDOW <=? duration_since now (window_start window) then MkFuelWindow now 0 else window.

Definition reserved_amount (l : FuelRateLimiter) (principal : K) : N :=
  default 0 (rl_reserved l !! principal).

Definition capacity_changed (l : FuelRateLimiter) (principal : K) (now : N) : FuelRateLimiter :=
  set_cell l principal (cell_or_new l principal now).

Definition replenishment_delay (l : FuelRateLimiter) (principal : K) (now : N) : N :=
  match rl_inner l !! principal with
  | None => 0
  | Some window => sat_sub WINDOW (duration_since now (window_start window))
  end.

Definition is_none_or {A} (o : option A) (f : A -> bool) : bool :=
  match o with Some a => f a | None => true end.

Definition over_budget (l : FuelRateLimiter) (principal : K) (max_fuel_per_sec now : N)
    : FuelRateLimiter * bool :=
  if max_fuel_per_sec =? 0 then (l, false)
  else match rl_inner l !! principal with
       | None => (l, max_fuel_per_sec <? reserved_amount l principal)
       | Some window =>
           let window := roll window now in
           (set_cell l principal window,
            is_none_or (checked_add U64_MAX (fuel_in_window window) (reserved_amount l principal))
              (fun total => max_fuel_per_sec <? total))
       end.

Definition try_reserve (l : FuelRateLimiter) (principal : K) (max_fuel_per_sec amount now : N)
    : FuelRateLimiter * option FuelReservation :=
  if max_fuel_per_sec =? 0 then (l, Some (MkFuelReservation principal 0 false))
  else
    let window := roll (cell_or_new l principal now) now in
    let l := set_cell l principal window in
    let reserved := reserved_amount l principal in
    let total := checked_add U64_MAX (fuel_in_window window) reserved
                   ≫= (fun total => checked_add U64_MAX total amount) in
    if is_none_or total (fun total => max_fuel_per_sec <? total) then (l, None)
    else (set_reserved l principal (sat_add U64_MAX reserved amount),
          Some (MkFuelReservation principal amount false)).

Definition maybe_prune (view : PruneView K) (l : FuelRateLimiter) (now : N) : FuelRateLimiter :=
  if (size (rl_inner l) <=? PRUNE_THRESHOLD)%nat then l
  else if prune_busy view then l
  else if duration_since now (rl_last_prune l) <? PRUNE_INTERVAL then l
  else
    let reserved := filter (fun kv => (0 <? kv.2) = true) (rl_reserved l) in
    let l := MkFuelRateLimiter (rl_inner l) reserved now in
    MkFuelRateLimiter
      (filter (fun kv =>
         (cell_locked view kv.1 || (duration_since now (window_start kv.2) <? WINDOW)
            || has_listeners view kv.1 || (0 <? reserved_amount l kv.1)) = true) (rl_inner l))
      reserved now.

Definition record (view : PruneView K) (l : FuelRateLimiter) (principal : K) (fuel now : N)
    : FuelRateLimiter :=
  if fuel =? 0 then l
  else
    let window := roll (cell_or_new l principal now) now in
    let window := MkFuelWindow (window_start window) (sat_add U64_MAX (fuel_in_window window) fuel) in
    maybe_prune view (set_cell l principal window) now.

Definition settle_reserved (view : PruneView K) (l : FuelRateLimiter) (principal : K)
    (amount actual_fuel now : N) : FuelRateLimiter :=
  let window := roll (cell_or_new l principal now) now in
  let l := match rl_reserved l !! principal with
           | Some value => if negb (amount =? 0) then set_reserved l principal (sat_sub value amount) else l
           | None => l
           end in
  let window := MkFuelWindow (window_start window) (sat_add U64_MAX (fuel_in_window window) actual_fuel) in
  maybe_prune view (set_cell l principal window) now.

Definition settle (view : PruneView K) (l : FuelRateLimiter) (r : FuelReservation)
    (actual_fuel now : N) : FuelRateLimiter * FuelReservation :=
  if fr_settled r then (l, r)
  else (settle_reserved view l (fr_principal r) (fr_amount r) actual_fuel now,
        MkFuelReservation (fr_principal r) (fr_amount r) true).

(** [Drop]: settle for the full amount. *)
Definition drop_reservation (view : PruneView K) (l : FuelRateLimiter) (r : FuelReservation) (now : N)
    : FuelRateLimiter :=
  (settle view l r (fr_amount r) now).1.

End FuelRate.
Arguments FuelRateLimiter K {_ _}.
Arguments FuelReservation K : clear implicits.

(** ** Publish throughput *)

Definition MAX_IPC_PAYLOAD_BYTES : N := 5 * 1024 * 1024.

Inductive QuotaError : Type := PayloadTooLarge | RateLimitExceeded.

Definition RateLimiterKey : Type := N * PrincipalId.

Record IpcRateLimiter : Type := MkIpcRateLimiter {
  ipc_state : gmap RateLimiterKey (N * N);
  ipc_last_prune : N;
}.

Definition IpcRateLimiter_new (now : N) : IpcRateLimiter := MkIpcRateLimiter ∅ now.

(** The lazy prune; [busy] when another thread holds [last_prune]. *)
Definition ipc_prune (busy : bool) (l : IpcRateLimiter) (now : N) : IpcRateLimiter :=
  if (1000 <? size (ipc_state l))%nat then
    if busy then l
    else if 60 <? as_secs (duration_since now (ipc_last_prune l)) then
      MkIpcRateLimiter
        (filter (fun kv => (as_secs (duration_since now (kv.2).1) <? 1) = true) (ipc_state l)) now
    else l
  else l.

Definition check_quota (busy : bool) (l : IpcRateLimiter) (capsule_uuid : N) (principal : PrincipalId)
    (size_bytes max_throughput_bytes_per_sec now : N) : IpcRateLimiter * result unit QuotaError :=
  if MAX_IPC_PAYLOAD_BYTES <? size_bytes then (l, Err PayloadTooLarge)
  else
    let l := ipc_prune busy l now in
    let key := (capsule_uuid, principal) in
    let entry := default (now, 0) (ipc_state l !! key) in
    let entry := if 1 <=? as_secs (duration_since now entry.1) then (now, 0) else entry in
    let put e := MkIpcRateLimiter (<[key := e]> (ipc_state l)) (ipc_last_prune l) in
    if max_throughput_bytes_per_sec <? sat_add USIZE_MAX entry.2 size_bytes
    then (put entry, Err RateLimitExceeded)
    else (put (entry.1, sat_add USIZE_MAX entry.2 size_bytes), Ok tt).

(** ** Peak memory *)

Definition MAX_PRINCIPALS : nat := 4096.

Abbreviation MemoryLedger := (gmap PrincipalId N).

Definition raise_to (counter bytes : N) : N := if counter <? bytes then bytes else counter.

(** The scan for the smallest peak, over the entries in iteration order. *)
Definition lowest_entry (entries : list (PrincipalId * N)) : option PrincipalId * N :=
  List.fold_left (fun acc e => if e.2 <=? acc.2 then (Some e.1, e.2) else acc) entries (None, U64_MAX).

(** [order] is the map's iteration order. *)
Definition evict_lowest_if_below (order : list (PrincipalId * N)) (l : MemoryLedger) (threshold : N)
    : MemoryLedger * bool :=
  match lowest_entry order with
  | (None, _) => (l, true)
  | (Some key, lowest) => if threshold <=? lowest then (l, false) else (delete key l, true)
  end.

Definition record_peak (order : list (PrincipalId * N)) (l : MemoryLedger) (principal : PrincipalId)
    (bytes : N) : MemoryLedger :=
  if bytes =? 0 then l
  else match l !! principal with
       | Some counter => <[principal := raise_to counter bytes]> l
       | None =>
           if (MAX_PRINCIPALS <=? size l)%nat then
             let '(l, room) := evict_lowest_if_below order l bytes in
             if room then <[principal := raise_to (default 0 (l !! principal)) bytes]> l else l
           else <[principal := raise_to (default 0 (l !! principal)) bytes]> l
       end.

Definition peak (l : MemoryLedger) (principal : PrincipalId) : N := default 0 (l !! principal).

(** ** A run of the fuel limiter

    The state of a run: the limiter, the reservations handed out, and for
    each principal the fuel charged beyond any reservation so far (direct
    [record]s, and what settlements reported above their reservation). *)

Section FuelRun.
Context {K : Type} `{Countable K}.

Record fuel_state : Type := MkFuelState {
  fs_limiter : FuelRateLimiter K;
  fs_live : list (FuelReservation K);
  fs_excess : K -> N;
}.

Inductive fuel_event : Type :=
| EvTryReserve (principal : K) (max_fuel_per_sec amount now : N)
| EvSettle (i : nat) (actual now : N) (view : PruneView K)
| EvDropReservation (i : nat) (now : N) (view : PruneView K)
| EvRecord (principal : K) (fuel now : N) (view : PruneView K)
| EvOverBudget (principal : K) (max_fuel_per_sec now : N)
| EvCapacityChanged (principal : K) (now : N).

Definition add_excess (f : K -> N) (p : K) (n : N) : K -> N :=
  fun q => if bool_decide (q = p) then f q + n else f q.

Definition fuel_step (st : fuel_state) (ev : fuel_event) : fuel_state :=
  let '(MkFuelState l live ex) := st in
  match ev with
  | EvTryReserve p max amount now =>
      match try_reserve l p max amount now with
      | (l', Some r) => MkFuelState l' (live ++ [r]) ex
      | (l', None) => MkFuelState l' live ex
      end
  | EvSettle i actual now view =>
      match live !! i with
      | Some r =>
          let '(l', r') := settle view l r actual now in
          MkFuelState l' (<[i := r']> live)
            (if fr_settled r then ex else add_excess ex (fr_principal r) (actual - fr_amount r))
      | None => st
      end
  | EvDropReservation i now view =>
      match live !! i with
      | Some r => MkFuelState (drop_reservation view l r now) (delete i live) ex
      | None => st
      end
  | EvRecord p fuel now view => MkFuelState (record view l p fuel now) live (add_excess ex p fuel)
  | EvOverBudget p max now => MkFuelState (over_budget l p max now).1 live ex
  | EvCapacityChanged p now => MkFuelState (capacity_changed l p now) live ex
  end.

Definition fuel_start (now : N) : fuel_state := MkFuelState (FuelRateLimiter_default now) [] (fun _ => 0).
Definition fuel_run (evs : list fuel_event) (now : N) : fuel_state :=
  List.fold_left fuel_step evs (fuel_start now).

(** Fuel reserved and not yet settled. *)
Definition due (p : K) (r : FuelReservation K) : N :=
  if bool_decide (fr_principal r = p) && negb (fr_settled r) then fr_amount r else 0.
Fixpoint outstanding (p : K) (rs : list (FuelReservation K)) : N :=
  match rs with
  | [] => 0
  | r :: rs => due p r + outstanding p rs
  end.

Definition window_fuel (l : FuelRateLimiter K) (p : K) : N :=
  from_option fuel_in_window 0 (rl_inner l !! p).

Record fuel_inv (B : N) (st : fuel_state) : Prop := {
  fi_reserved p : reserved_amount (fs_limiter st) p = outstanding p (fs_live st);
  fi_budget p :
    window_fuel (fs_limiter st) p + reserved_amount (fs_limiter st) p <= B + fs_excess st p;
}.

Definition event_within (B : N) (ev : fuel_event) : Prop :=
  match ev with EvTryReserve _ max _ _ => max <= B | _ => True end.

End FuelRun.
Arguments fuel_event K : clear implicits.
Arguments fuel_state K {_ _}.

(** ** Lemmas on the fuel limiter *)

Section FuelLemmas.
Context {K : Type} `{Countable K}.
Implicit Types (l : FuelRateLimiter K) (p q : K) (r : FuelReservation K).

Lemma window_set_cell l p w q :
  window_fuel (set_cell l p w) q = if bool_decide (q = p) then fuel_in_window w else window_fuel l q.
Proof.
  unfold window_fuel, set_cell. cbn [rl_inner]. case_bool_decide as Hq.
  - by rewrite Hq, lookup_insert_eq.
  - by rewrite lookup_insert_ne.
Qed.

Lemma reserved_set_reserved l p v q :
  reserved_amount (set_reserved l p v) q = if bool_decide (q = p) then v else reserved_amount l q.
Proof.
  unfold reserved_amount, set_reserved. cbn [rl_reserved]. case_bool_decide as Hq.
  - by rewrite Hq, lookup_insert_eq.
  - by rewrite lookup_insert_ne.
Qed.

Lemma roll_le w now : fuel_in_window (roll w now) <= fuel_in_window w.
Proof. unfold roll. case_match; simpl; lia. Qed.

Lemma cell_fuel l p now : fuel_in_window (cell_or_new l p now) = window_fuel l p.
Proof. unfold cell_or_new, window_fuel. by destruct (rl_inner l !! p). Qed.

Lemma rolled_le l p now : fuel_in_window (roll (cell_or_new l p now) now) <= window_fuel l p.
Proof. rewrite <- (cell_fuel l p now). apply roll_le. Qed.

Lemma prune_reserved view l now p :
  reserved_amount (maybe_prune view l now) p = reserved_amount l p.
Proof.
  unfold maybe_prune. do 3 (case_match; [done|]). unfold reserved_amount. cbn [rl_reserved].
  destruct (rl_reserved l !! p) as [v|] eqn:Hl; simpl.
  - destruct (0 <? v) eqn:Hv.
    + rewrite (map_lookup_filter_Some_2 _ _ _ v); [done|done|by simpl].
    + rewrite map_lookup_filter_None_2; [apply N.ltb_ge in Hv; simpl; lia|].
      right. intros v' Hv'. rewrite Hl in Hv'. injection Hv' as <-. simpl. congruence.
  - rewrite map_lookup_filter_None_2; [done|by left].
Qed.

Lemma prune_window view l now p :
  window_fuel (maybe_prune view l now) p <= window_fuel l p.
Proof.
  unfold maybe_prune. do 3 (case_match; [lia|]). cbv zeta. unfold window_fuel. cbn [rl_inner].
  match goal with |- context [filter ?P (rl_inner l) !! p] => 
    destruct (filter P (rl_inner l) !! p) as [w|] eqn:Hw end; simpl; [|lia].
  apply map_lookup_filter_Some in Hw as [-> _]. simpl. lia.
Qed.

(** Charging a principal's window, then pruning. *)
Lemma charge_window view l p fuel now q :
  let w := roll (cell_or_new l p now) now in
  let l' := maybe_prune view
    (set_cell l p (MkFuelWindow (window_start w) (sat_add U64_MAX (fuel_in_window w) fuel))) now in
  window_fuel l' q <= window_fuel l q + (if bool_decide (q = p) then fuel else 0).
Proof.
  cbv zeta. etransitivity; [apply prune_window|]. rewrite window_set_cell. cbn [fuel_in_window].
  case_bool_decide as Hq; [|lia]. subst q. pose proof (rolled_le l p now). unfold sat_add. lia.
Qed.

Lemma outstanding_app p rs rs' : outstanding p (rs ++ rs') = outstanding p rs + outstanding p rs'.
Proof. induction rs as [|r rs IH]; simpl; [done|]. lia. Qed.

Lemma outstanding_insert p rs i r r' :
  rs !! i = Some r -> outstanding p (<[i := r']> rs) + due p r = outstanding p rs + due p r'.
Proof.
  revert i; induction rs as [|x rs IH]; intros [|i]; simpl; try done.
  - intros [= ->]. lia.
  - intros Hi. specialize (IH i Hi). simpl in IH. lia.
Qed.

Lemma outstanding_delete p rs i r :
  rs !! i = Some r -> outstanding p (delete i rs) + due p r = outstanding p rs.
Proof.
  revert i; induction rs as [|x rs IH]; intros [|i]; simpl; try done.
  - intros [= ->]. lia.
  - intros Hi. specialize (IH i Hi). simpl in IH. lia.
Qed.

Lemma due_le_outstanding p rs i r : rs !! i = Some r -> due p r <= outstanding p rs.
Proof. intros Hi. pose proof (outstanding_delete p rs i r Hi). lia. Qed.

(** Settling takes the reserved amount off and charges the actual fuel. *)
Lemma settle_reserved_effect view l p amount actual now q :
  reserved_amount (settle_reserved view l p amount actual now) q =
    reserved_amount l q - (if bool_decide (q = p) then amount else 0) /\
  window_fuel (settle_reserved view l p amount actual now) q <=
    window_fuel l q + (if bool_decide (q = p) then actual else 0).
Proof.
  unfold settle_reserved. cbv zeta. set (l1 := match rl_reserved l !! p with Some _ => _ | None => _ end).
  assert (Hin : rl_inner l1 = rl_inner l) by (unfold l1; repeat case_match; done).
  assert (Hw : forall x, window_fuel l1 x = window_fuel l x) by (intros x; unfold window_fuel; by rewrite Hin).
  assert (Hc : cell_or_new l p now = cell_or_new l1 p now) by (unfold cell_or_new; by rewrite Hin).
  split.
  - rewrite prune_reserved. change (reserved_amount (set_cell l1 p _) q) with (reserved_amount l1 q).
    unfold l1. destruct (rl_reserved l !! p) as [v|] eqn:Hr.
    + destruct (amount =? 0) eqn:Ha; bool_prop; simpl.
      * subst. case_bool_decide; lia.
      * rewrite reserved_set_reserved. case_bool_decide as Hq; [|lia]. subst.
        unfold reserved_amount, sat_sub. rewrite Hr. done.
    + case_bool_decide as Hq; [|lia]. subst. unfold reserved_amount. rewrite Hr. simpl. lia.
  - rewrite Hc, <- Hw. apply charge_window.
Qed.

Lemma due_unsettled q r :
  fr_settled r = false -> due q r = if bool_decide (q = fr_principal r) then fr_amount r else 0.
Proof.
  intros Hs. unfold due. rewrite Hs, andb_true_r. do 2 case_bool_decide; congruence.
Qed.

Lemma settle_live_effect view l r actual now rs i q :
  (forall p, reserved_amount l p = outstanding p rs) -> rs !! i = Some r -> fr_settled r = false ->
  reserved_amount (settle_reserved view l (fr_principal r) (fr_amount r) actual now) q + due q r =
    outstanding q rs /\
  window_fuel (settle_reserved view l (fr_principal r) (fr_amount r) actual now) q +
    reserved_amount (settle_reserved view l (fr_principal r) (fr_amount r) actual now) q <=
    window_fuel l q + reserved_amount l q +
      (if bool_decide (q = fr_principal r) then actual - fr_amount r else 0).
Proof.
  intros Hres Hi Hs.
  destruct (settle_reserved_effect view l (fr_principal r) (fr_amount r) actual now q) as [-> Hw].
  pose proof (due_le_outstanding q rs i r Hi) as Hd. rewrite (due_unsettled q r Hs) in *. rewrite <- Hres in *.
  case_bool_decide; lia.
Qed.

Lemma try_reserve_cases l p max amount now :
  (max = 0 /\ try_reserve l p max amount now = (l, Some (MkFuelReservation p 0 false))) \/
  (max <> 0 /\
   let w := fuel_in_window (roll (cell_or_new l p now) now) in
   let l1 := set_cell l p (roll (cell_or_new l p now) now) in
   if (w + reserved_amount l p + amount <=? max) && (w + reserved_amount l p + amount <=? U64_MAX)
   then try_reserve l p max amount now =
     (set_reserved l1 p (reserved_amount l p + amount), Some (MkFuelReservation p amount false))
   else try_reserve l p max amount now = (l1, None)).
Proof.
  unfold try_reserve. destruct (max =? 0) eqn:Hm; bool_prop; [by left|right; split; [done|]].
  cbv zeta. set (l1 := set_cell _ _ _). change (reserved_amount l1 p) with (reserved_amount l p).
  set (w := fuel_in_window _). set (rv := reserved_amount l p).
  destruct (checked_add U64_MAX w rv) as [t|] eqn:H1; simpl.
  - apply checked_add_Some in H1 as [-> Ht].
    destruct (checked_add U64_MAX (w + rv) amount) as [t'|] eqn:H2; simpl.
    + apply checked_add_Some in H2 as [-> Ht'].
      rewrite (proj2 (N.leb_le (w + rv + amount) U64_MAX)) by done. rewrite andb_true_r.
      destruct (N.ltb_spec max (w + rv + amount)), (N.leb_spec (w + rv + amount) max); try lia; [done|].
      by rewrite sat_add_exact by lia.
    + apply checked_add_None in H2. rewrite (proj2 (N.leb_gt (w + rv + amount) U64_MAX)) by done.
      by rewrite andb_false_r.
  - apply checked_add_None in H1.
    rewrite (proj2 (N.leb_gt (w + rv + amount) U64_MAX)) by lia. by rewrite andb_false_r.
Qed.

Lemma over_budget_effect l p max now q :
  window_fuel (over_budget l p max now).1 q <= window_fuel l q /\
  reserved_amount (over_budget l p max now).1 q = reserved_amount l q.
Proof.
  unfold over_budget. case_match; [simpl; split; [lia|done]|].
  destruct (rl_inner l !! p) as [w|] eqn:Hw; cbn [fst]; [|split; [lia|done]].
  split; [|done]. rewrite window_set_cell. case_bool_decide as Hq; [|lia]. subst.
  unfold window_fuel. rewrite Hw. apply roll_le.
Qed.

Lemma capacity_changed_effect l p now q :
  window_fuel (capacity_changed l p now) q = window_fuel l q.
Proof.
  unfold capacity_changed. rewrite window_set_cell. case_bool_decide as Hq; [|done]. subst. apply cell_fuel.
Qed.

Lemma reserve_inv B l live ex p max amount now :
  max <= B -> fuel_inv B (MkFuelState l live ex) ->
  fuel_inv B (fuel_step (MkFuelState l live ex) (EvTryReserve p max amount now)).
Proof.
  intros HB [Hres Hbud]. cbn [fs_limiter fs_live fs_excess] in *. cbn [fuel_step].
  pose proof (rolled_le l p now) as Hroll.
  destruct (try_reserve_cases l p max amount now) as [[_ ->]|[_ Hc]].
  - split; simpl; [|done]. intros q. rewrite outstanding_app, Hres. simpl. unfold due. simpl.
    case_match; lia.
  - cbv zeta in Hc. case_match eqn:Hadm; rewrite Hc; clear Hc.
    + bool_prop. split; cbn [fs_limiter fs_live fs_excess]; intros q.
      * rewrite reserved_set_reserved, outstanding_app. simpl.
        rewrite due_unsettled by done. simpl. change (reserved_amount (set_cell l p _) q) with (reserved_amount l q).
        rewrite <- Hres. case_bool_decide; subst; lia.
      * rewrite reserved_set_reserved. change (window_fuel (set_reserved ?x _ _) q) with (window_fuel x q).
        rewrite window_set_cell. change (reserved_amount (set_cell l p _) q) with (reserved_amount l q).
        specialize (Hbud q). case_bool_decide; subst; lia.
    + split; cbn [fs_limiter fs_live fs_excess]; intros q; [apply Hres|].
      rewrite window_set_cell. change (reserved_amount (set_cell l p _) q) with (reserved_amount l q).
      specialize (Hbud q). case_bool_decide; subst; lia.
Qed.

Lemma fuel_step_inv B (st : fuel_state K) ev : event_within B ev -> fuel_inv B st -> fuel_inv B (fuel_step st ev).
Proof.
  destruct st as [l live ex]. intros HB Hinv. pose proof Hinv as [Hres Hbud].
  destruct ev as [p max amount now|i actual now view|i now view|p fuel now view|p max now|p now];
    cbn [fs_limiter fs_live fs_excess] in *; [by apply reserve_inv|cbn [fuel_step]..].
  - destruct (live !! i) as [r|] eqn:Hi; [|done]. unfold settle.
    destruct (fr_settled r) eqn:Hs; [by rewrite list_insert_id|].
    split; cbn [fs_limiter fs_live fs_excess]; intros q;
      destruct (settle_live_effect view l r actual now live i q Hres Hi Hs) as [H1 H2].
    + pose proof (outstanding_insert q live i r (MkFuelReservation (fr_principal r) (fr_amount r) true) Hi) as Ho.
      unfold due in Ho at 2. simpl in Ho. rewrite andb_false_r in Ho. lia.
    + specialize (Hbud q). unfold add_excess. case_bool_decide; lia.
  - destruct (live !! i) as [r|] eqn:Hi; [|done]. unfold drop_reservation, settle.
    pose proof (fun q => outstanding_delete q live i r Hi) as Ho.
    destruct (fr_settled r) eqn:Hs.
    + split; cbn [fst fs_limiter fs_live fs_excess]; [|done]. intros q. specialize (Ho q).
      unfold due in Ho. rewrite Hs, andb_false_r in Ho. rewrite Hres. lia.
    + split; cbn [fst fs_limiter fs_live fs_excess]; intros q;
        destruct (settle_live_effect view l r (fr_amount r) now live i q Hres Hi Hs) as [H1 H2];
        specialize (Hbud q); specialize (Ho q); [lia|].
      case_bool_decide; lia.
  - unfold record. destruct (fuel =? 0) eqn:Hf; bool_prop.
    + split; cbn [fs_limiter fs_live fs_excess]; [done|]. intros q. specialize (Hbud q).
      unfold add_excess. case_bool_decide; lia.
    + split; cbn [fs_limiter fs_live fs_excess]; intros q; rewrite prune_reserved; [apply Hres|].
      pose proof (charge_window view l p fuel now q) as Hw. specialize (Hbud q). cbv zeta in Hw.
      change (reserved_amount (set_cell l p _) q) with (reserved_amount l q).
      unfold add_excess. case_bool_decide; lia.
  - split; cbn [fs_limiter fs_live fs_excess]; intros q; destruct (over_budget_effect l p max now q) as [Hw ->];
      [apply Hres|]. specialize (Hbud q). lia.
  - split; cbn [fs_limiter fs_live fs_excess]; intros q; [apply Hres|].
    rewrite capacity_changed_effect. apply Hbud.
Qed.

Lemma fuel_run_inv B (evs : list (fuel_event K)) now : Forall (event_within B) evs -> fuel_inv B (fuel_run evs now).
Proof.
  unfold fuel_run. assert (Hs : fuel_inv B (fuel_start (K := K) now)).
  { split; intros p; simpl; unfold reserved_amount, window_fuel; simpl; rewrite ?lookup_empty; simpl; lia. }
  revert Hs. generalize (fuel_start (K := K) now). induction evs as [|ev evs IH]; intros st Hs Hall; [done|].
  inversion Hall; subst. simpl. apply IH; [by apply fuel_step_inv|done].
Qed.

End FuelLemmas.

(** ** Lemmas on the share, the throughput limiter and the peak ledger *)

Lemma share_fits budget cap n :
  0 < n -> n <= budget -> n * invocation_fuel_share budget cap n <= budget.
Proof.
  intros Hn Hb. unfold invocation_fuel_share. destruct (N.eqb_spec budget 0); [lia|].
  rewrite (N.max_l n 1) by lia. cbv zeta.
  assert (1 <= budget / n) by (apply N.div_le_lower_bound; lia).
  rewrite (N.max_l (budget / n) 1) by lia.
  transitivity (n * (budget / n)); [apply N.mul_le_mono_l; lia|]. apply N.Div0.mul_div_le.
Qed.

Lemma stale_rolls {K} `{Countable K} (l : FuelRateLimiter K) p now :
  (forall w, rl_inner l !! p = Some w -> WINDOW <= duration_since now (window_start w)) ->
  fuel_in_window (roll (cell_or_new l p now) now) = 0.
Proof.
  intros Hst. unfold roll, cell_or_new. destruct (rl_inner l !! p) as [w|]; simpl.
  - by rewrite (proj2 (N.leb_le _ _) (Hst w eq_refl)).
  - by case_match.
Qed.

Definition expired (now : N) (entry : N * N) : bool := 1 <=? as_secs (duration_since now entry.1).

(** Bytes a bucket still counts against its ceiling at [now]. *)
Definition live_bytes (l : IpcRateLimiter) (key : RateLimiterKey) (now : N) : N :=
  match ipc_state l !! key with
  | Some entry => if expired now entry then 0 else entry.2
  | None => 0
  end.

Lemma expired_mono now now' entry : now <= now' -> expired now entry = true -> expired now' entry = true.
Proof.
  unfold expired, as_secs, duration_since. rewrite !N.leb_le. intros Hle Hx.
  etransitivity; [exact Hx|]. apply N.Div0.div_le_mono. lia.
Qed.

(** Pruning drops only buckets that have expired. *)
Lemma prune_live busy l now now' key :
  now <= now' -> live_bytes (ipc_prune busy l now) key now' = live_bytes l key now'.
Proof.
  intros Hle. unfold ipc_prune. repeat case_match; try done. unfold live_bytes. cbn [ipc_state].
  destruct (ipc_state l !! key) as [e|] eqn:He.
  - destruct (as_secs (duration_since now e.1) <? 1) eqn:Hx.
    + by rewrite (map_lookup_filter_Some_2 _ _ _ e).
    + rewrite map_lookup_filter_None_2.
      * rewrite (expired_mono now now' e Hle); [done|]. unfold expired. apply N.ltb_ge in Hx. by apply N.leb_le.
      * right. intros e' He'. rewrite He in He'. injection He' as <-. simpl. congruence.
  - rewrite map_lookup_filter_None_2; [done|by left].
Qed.

Lemma expired_fresh now n : expired now (now, n) = false.
Proof. unfold expired, duration_since. simpl. by rewrite N.sub_diag. Qed.

(** The bucket the check works on, after the window reset. *)
Lemma bucket_bytes l key now :
  let e := default (now, 0) (ipc_state l !! key) in
  let e' := if 1 <=? as_secs (duration_since now e.1) then (now, 0) else e in
  e'.2 = live_bytes l key now /\ expired now e' = false.
Proof.
  cbv zeta. unfold live_bytes. destruct (ipc_state l !! key) as [e|]; simpl.
  - change (1 <=? as_secs (duration_since now e.1)) with (expired now e).
    destruct (expired now e) eqn:Hx; simpl; [|done]. split; [done|apply expired_fresh].
  - change (1 <=? as_secs (duration_since now now)) with (expired now (now, 0)).
    rewrite expired_fresh. split; [done|apply expired_fresh].
Qed.

Lemma live_put l key e last now :
  expired now e = false ->
  live_bytes (MkIpcRateLimiter (<[key := e]> (ipc_state l)) last) key now = e.2.
Proof. intros Hx. unfold live_bytes. cbn [ipc_state]. by rewrite lookup_insert_eq, Hx. Qed.

Lemma live_put_ne l key key' e last now :
  key' <> key ->
  live_bytes (MkIpcRateLimiter (<[key := e]> (ipc_state l)) last) key' now = live_bytes l key' now.
Proof. intros Hne. unfold live_bytes. cbn [ipc_state]. by rewrite lookup_insert_ne. Qed.

Lemma lowest_fold es acc :
  let r := List.fold_left (fun (acc : option PrincipalId * N) e =>
             if e.2 <=? acc.2 then (Some e.1, e.2) else acc) es acc in
  r.2 <= acc.2 /\ (forall e, e ∈ es -> r.2 <= e.2) /\
  (r = acc \/ exists k, r.1 = Some k /\ (k, r.2) ∈ es) /\
  (es <> [] -> Forall (fun e => e.2 <= acc.2) es -> exists k, r.1 = Some k).
Proof.
  revert acc; induction es as [|e es IH]; intros acc; cbn [List.fold_left]; cbv zeta.
  { split_and!; [lia|set_solver|by left|done]. }
  destruct (N.leb_spec e.2 acc.2) as [Hle|Hgt].
  - destruct (IH (Some e.1, e.2)) as (H1 & H2 & H3 & _). cbn [fst snd] in *. cbv zeta in *.
    split_and!; [lia| | |].
    + intros x [->|Hx]%elem_of_cons; [done|by apply H2].
    + right. destruct H3 as [E|(k & Hk & Hin)]; [|exists k; set_solver].
      exists e.1. rewrite E. split; [done|]. destruct e. left.
    + intros _ _. destruct H3 as [E|(k & Hk & _)]; [rewrite E|]; eauto.
  - destruct (IH acc) as (H1 & H2 & H3 & _). cbv zeta in *. split_and!; [lia| | |].
    + intros x [->|Hx]%elem_of_cons; [lia|by apply H2].
    + destruct H3 as [E|(k & Hk & Hin)]; [by left|right; exists k; set_solver].
    + intros _ Hall. inversion Hall; subst. lia.
Qed.

Lemma evict_cases order l threshold :
  order ≡ₚ map_to_list l -> l <> ∅ -> map_Forall (fun _ v => v <= U64_MAX) l ->
  exists k v, l !! k = Some v /\ (forall q w, l !! q = Some w -> v <= w) /\
    evict_lowest_if_below order l threshold =
      if threshold <=? v then (l, false) else (delete k l, true).
Proof.
  intros Hp Hne Hall. unfold evict_lowest_if_below, lowest_entry.
  destruct (lowest_fold order (None, U64_MAX)) as (_ & Hmin & Hin & Hsome). cbv zeta in *.
  set (r := List.fold_left _ _ _) in *. destruct r as [o v] eqn:Hr. cbn [fst snd] in *.
  assert (Hel : forall k w, (k, w) ∈ order <-> l !! k = Some w)
    by (intros k w; rewrite Hp; apply elem_of_map_to_list).
  destruct Hsome as [k ->].
  { intros ->. apply Permutation_nil_l in Hp. symmetry in Hp. by apply map_to_list_empty_iff in Hp. }
  { apply Forall_forall. intros [k w] Hk. apply Hel in Hk. by apply (Hall k w). }
  destruct Hin as [[=]|(k' & [= <-] & Hin)]. exists k, v. split; [by apply Hel|]. split; [|done].
  intros q w Hq. apply Hel in Hq. by apply (Hmin (q, w)).
Qed.

Lemma raise_max v bytes : raise_to v bytes = N.max v bytes.
Proof. unfold raise_to. destruct (N.ltb_spec v bytes); lia. Qed.

(** Counters stay machine words, and never go down. *)
Lemma charge_bounded l p fuel :
  map_Forall (fun _ v => v <= U64_MAX) l -> map_Forall (fun _ v => v <= U64_MAX) (charge l p fuel).
Proof.
  intros Hall. unfold charge, saturating_add. repeat case_match; [done| |];
    apply map_Forall_insert_2; auto with astrid.
Qed.

Lemma charge_mono l p fuel q :
  map_Forall (fun _ v => v <= U64_MAX) l -> total l q <= total (charge l p fuel) q.
Proof.
  intros Hall. unfold charge, total, saturating_add. case_match; [lia|].
  destruct (l !! p) as [c|] eqn:Hp; (destruct (decide (q = p)) as [->|Hq];
    [rewrite lookup_insert_eq, Hp|by rewrite lookup_insert_ne]); cbn; [|lia].
  apply sat_add_ge_l. exact (Hall p c Hp).
Qed.

(** A charge saturates on the charged principal and touches no other. *)
Lemma charge_total l p fuel q :
  total l p <= U64_MAX ->
  total (charge l p fuel) q = if bool_decide (q = p) then sat_add U64_MAX (total l p) fuel else total l q.
Proof.
  unfold charge, total, saturating_add. destruct (N.eqb_spec fuel 0) as [->|Hf]; intros Hle.
  - case_bool_decide; [subst|done]. rewrite sat_add_exact; lia.
  - case_bool_decide as Hq; [subst|]; destruct (l !! p) eqn:Hl;
      by rewrite ?lookup_insert_eq, ?lookup_insert_ne.
Qed.

(** ** Properties *)

(** C34: the fuel limiter bounds concurrent consumption.  Whatever sequence of
    admissions, settlements, drops, direct records, budget probes and prunes
    is run, at whatever instants, the fuel it counts as reserved for a
    principal is exactly the sum of that principal's unsettled reservations,
    and the fuel settled in the current window together with everything still
    in flight never exceeds the largest budget admissions were checked
    against, except by what was charged outside any reservation. *)
Theorem fuel_budget_respected {K} `{Countable K} :
  forall B (evs : list (fuel_event K)) start p,
  Forall (event_within B) evs ->
  let st := fuel_run evs start in
  reserved_amount (fs_limiter st) p = outstanding p (fs_live st) /\
  window_fuel (fs_limiter st) p + outstanding p (fs_live st) <= B + fs_excess st p.
Proof.
  intros B evs start p Hall st. destruct (fuel_run_inv B evs start Hall) as [Hres Hbud].
  split; [apply Hres|]. rewrite <- Hres. apply Hbud.
Qed.

(** admission is exact and live.  Under a nonzero budget a reservation is
    granted exactly when settled, reserved and requested fuel together stay
    within the budget; and a principal allowed [n] calls in flight, whose last
    window has passed, is always admitted for its share while fewer than [n]
    shares are outstanding. *)
Theorem fuel_admission {K} `{Countable K} :
  forall (l : FuelRateLimiter K) p budget now,
  budget <= U64_MAX ->
  (forall amount, budget <> 0 ->
     is_Some (try_reserve l p budget amount now).2 <->
     fuel_in_window (roll (cell_or_new l p now) now) + reserved_amount l p + amount <= budget) /\
  (forall cap n, 0 < n -> n <= budget ->
     (forall w, rl_inner l !! p = Some w -> WINDOW <= duration_since now (window_start w)) ->
     reserved_amount l p <= (n - 1) * invocation_fuel_share budget cap n ->
     is_Some (try_reserve l p budget (invocation_fuel_share budget cap n) now).2).
Proof.
  intros l p budget now HB.
  assert (Hex : forall amount, budget <> 0 -> is_Some (try_reserve l p budget amount now).2 <->
     fuel_in_window (roll (cell_or_new l p now) now) + reserved_amount l p + amount <= budget).
  { intros amount Hb. destruct (try_reserve_cases l p budget amount now) as [[? _]|[_ Hc]]; [done|].
    cbv zeta in Hc. case_match eqn:Ha; rewrite Hc; simpl.
    - apply andb_true_iff in Ha as [Ha _]. apply N.leb_le in Ha. split; [done|by eexists].
    - split; [by intros []|]. intros Hle. exfalso.
      apply andb_false_iff in Ha as [Ha|Ha]; apply N.leb_gt in Ha; lia. }
  split; [exact Hex|]. intros cap n Hn Hnb Hst Hres. apply Hex; [lia|].
  rewrite (stale_rolls l p now Hst). pose proof (share_fits budget cap n Hn Hnb). nia.
Qed.

(** a publish is accepted exactly when the payload is within the hard
    limit and the bucket's live bytes plus the payload stay within the
    ceiling; an accepted publish adds exactly its size to its own bucket, a
    refused one adds nothing, and no other bucket's live bytes are affected,
    now or later, not even by the pruning the call may do. *)
Theorem publish_quota_exact : forall busy l capsule principal size max now,
  let key := (capsule, principal) in
  let '(l', r) := check_quota busy l capsule principal size max now in
  let used := live_bytes l key now in
  (r = Ok tt <-> size <= MAX_IPC_PAYLOAD_BYTES /\ sat_add USIZE_MAX used size <= max) /\
  live_bytes l' key now = (if is_ok r then sat_add USIZE_MAX used size else used) /\
  (forall key' now', key' <> key -> now <= now' -> live_bytes l' key' now' = live_bytes l key' now').
Proof.
  intros busy l capsule principal size max now key. unfold check_quota.
  destruct (N.ltb_spec MAX_IPC_PAYLOAD_BYTES size); [split_and!; try done; split; [done|lia]|].
  set (l0 := ipc_prune busy l now). cbv zeta.
  destruct (bucket_bytes l0 (capsule, principal) now) as [Hb Hx]. cbv zeta in Hb, Hx.
  set (e := if 1 <=? _ then _ else _) in *. unfold l0 in Hb. rewrite prune_live in Hb by lia.
  fold key in Hb. rewrite Hb.
  assert (Hne : forall x last key' now', key' <> key -> now <= now' ->
    live_bytes (MkIpcRateLimiter (<[key := x]> (ipc_state l0)) last) key' now' = live_bytes l key' now').
  { intros x last key' now' Hk Hle. rewrite live_put_ne by done. by apply prune_live. }
  destruct (N.ltb_spec max (sat_add USIZE_MAX (live_bytes l key now) size)); cbn [is_ok].
  - split_and!; [split; [done|lia]| |by intros; apply Hne].
    fold key. by rewrite live_put.
  - split_and!; [done| |by intros; apply Hne]. fold key. by rewrite live_put.
Qed.

(** the peak ledger stays within its capacity and keeps the biggest
    users: recording a peak raises that principal's mark to the maximum seen,
    changes no other mark, and at capacity either drops one entry that is
    smallest and smaller than the newcomer, or ignores a newcomer that is
    bigger than none of the entries. *)
Theorem peak_ledger_keeps_biggest : forall order l principal bytes,
  order ≡ₚ map_to_list l -> (size l <= MAX_PRINCIPALS)%nat ->
  map_Forall (fun _ v => v <= U64_MAX) l ->
  let l' := record_peak order l principal bytes in
  (size l' <= MAX_PRINCIPALS)%nat /\
  (peak l' principal = N.max (peak l principal) bytes \/
   l' = l /\ l !! principal = None /\ forall q w, l !! q = Some w -> bytes <= w) /\
  (forall q w, q <> principal -> l !! q = Some w ->
     l' !! q = Some w \/
     l' !! q = None /\ w < bytes /\ forall q' w', l !! q' = Some w' -> w <= w').
Proof.
  intros order l principal bytes Hp Hsz Hall l'. unfold l', record_peak, peak.
  destruct (N.eqb_spec bytes 0) as [->|Hb]; [split_and!; [done|left; lia|by left]|].
  destruct (l !! principal) as [c|] eqn:Hl.
  { split_and!; [by rewrite map_size_insert_Some| |intros q w Hq Hw; left; by rewrite lookup_insert_ne].
    left. by rewrite lookup_insert_eq, raise_max. }
  destruct (Nat.leb_spec MAX_PRINCIPALS (size l)) as [Hfull|Hroom].
  - assert (Hne : l <> ∅) by (intros ->; rewrite map_size_empty in Hfull; unfold MAX_PRINCIPALS in Hfull; lia).
    destruct (evict_cases order l bytes Hp Hne Hall) as (k & v & Hk & Hmin & ->).
    destruct (N.leb_spec bytes v) as [Hle|Hlt].
    { split_and!; [done| |by left]. right. split_and!; try done. intros q w Hq. specialize (Hmin q w Hq). lia. }
    assert (Hkp : k <> principal) by (intros ->; congruence).
    rewrite lookup_delete_ne, Hl by done. rewrite raise_max. simpl. split_and!.
    + rewrite map_size_insert_None by (by rewrite lookup_delete_ne). rewrite map_size_delete_Some by done.
      pose proof (map_size_ne_0_lookup_2 l k ltac:(by eexists)). lia.
    + left. by rewrite lookup_insert_eq.
    + intros q w Hq Hw. rewrite lookup_insert_ne by done. destruct (decide (q = k)) as [->|Hqk].
      * right. rewrite lookup_delete_eq. rewrite Hk in Hw. injection Hw as <-. eauto.
      * left. by rewrite lookup_delete_ne.
  - rewrite raise_max. simpl. split_and!.
    + rewrite map_size_insert_None by done. lia.
    + left. by rewrite lookup_insert_eq.
    + intros q w Hq Hw. left. by rewrite lookup_insert_ne.
Qed.

(** ** Concrete instances *)

Definition quiet : PruneView nat := MkPruneView false (fun _ => false) (fun _ => false).

(** Two of four quarter-budget calls in flight, a third settled below its
    share. *)
Definition demo_run : list (fuel_event nat) :=
  [EvTryReserve 1%nat 1000 250 5; EvTryReserve 1%nat 1000 250 6; EvTryReserve 1%nat 1000 250 7;
   EvSettle 0%nat 100 8 quiet; EvOverBudget 1%nat 1000 9].

Lemma fuel_budget_respected_witness :
  window_fuel (fs_limiter (fuel_run demo_run 0)) 1%nat = 100 /\
  window_fuel (fs_limiter (fuel_run demo_run 0)) 1%nat +
    outstanding 1%nat (fs_live (fuel_run demo_run 0)) <= 1000 + fs_excess (fuel_run demo_run 0) 1%nat.
Proof.
  split; [vm_compute; reflexivity|].
  refine (proj2 (fuel_budget_respected 1000 demo_run 0 1%nat _)).
  repeat constructor; simpl; lia.
Defined.

Lemma fuel_admission_witness :
  is_Some (try_reserve (FuelRateLimiter_default (K := nat) 0) 1%nat 1000
    (invocation_fuel_share 1000 5000 4) 7).2.
Proof.
  refine (proj2 (fuel_admission (FuelRateLimiter_default (K := nat) 0) 1%nat 1000 7 _) 5000 4 _ _ _ _).
  - vm_compute. discriminate.
  - lia.
  - lia.
  - intros w Hw. discriminate Hw.
  - vm_compute. discriminate.
Defined.

Lemma peak_ledger_keeps_biggest_witness :
  (size (record_peak [] ∅ PrincipalId_default 10) <= MAX_PRINCIPALS)%nat.
Proof.
  refine (proj1 (peak_ledger_keeps_biggest [] ∅ PrincipalId_default 10 _ _ _)).
  - rewrite map_to_list_empty. reflexivity.
  - rewrite map_size_empty. lia.
  - apply map_Forall_empty.
Defined.
