(* ===== verification/Route.v ===== *)
(** * Routed event delivery

    [crates/astrid-events/src/route]: the topic matcher ([matcher.rs]), the
    publication gate ([gate.rs]) and the per-subscription fan-out entry with
    its byte budget, oldest-head eviction and deficit-round-robin drain
    ([entry.rs], [state.rs]); the receipt visibility rule is
    [crates/astrid-types/src/ipc/delivery_failure.rs].

    An event carries what routing reads of it; the length of its encoded
    payload is a field.  An entry's telemetry label and wakeup handle are
    omitted, and so are log lines and counters; [dispatch_to_route] is the
    dispatch of one event as one of the table's routes sees it.  UUID text is the class [Uuids].  The iteration order
    of the fan-out hash map is the parameter [iter], any order of its entries.
    An operation's reads of the clock are the function [clock], indexed by how
    many messages the operation has removed so far. *)

From S2P Require Import Prelude.
From Stdlib Require Import Ascii.
Local Open Scope string_scope.
Local Open Scope list_scope.
Local Open Scope N_scope.

(** ** Topic patterns *)

Definition MAX_TOPIC_DEPTH : nat := 20.

Definition segments (s : string) : list string := split_on "." s.

(** [zip(..).all(|(p, t)| p == "*" || p == t)]. *)
Fixpoint zip_all (ps ts : list string) : bool :=
  match ps, ts with
  | p :: ps, t :: ts => (bool_decide (p = "*") || bool_decide (p = t)) && zip_all ps ts
  | _, _ => true
  end.

Definition topic_pattern_matches (pattern topic : string) : bool :=
  if (MAX_TOPIC_DEPTH <? length (segments topic))%nat then false
  else match strip_suffix ".*" pattern with
       | Some prefix_pat =>
           (length (segments prefix_pat) <? length (segments topic))%nat
             && zip_all (segments prefix_pat) (segments topic)
       | None =>
           (length (segments pattern) =? length (segments topic))%nat
             && zip_all (segments pattern) (segments topic)
       end.

(** ** Events *)

Record IpcMessage : Type := MkIpcMessage {
  msg_topic : string;
  (** Length of [to_guest_bytes], [None] when it fails. *)
  msg_payload_len : option N;
  msg_source_id : N;
  msg_principal : option string;
  msg_request_owner : option N;
}.

Inductive AstridEvent : Type :=
| Ipc (message : IpcMessage)
| OtherEvent (tag : N).

Definition matches (pattern : string) (event : AstridEvent) : bool :=
  match event with
  | Ipc message => topic_pattern_matches pattern (msg_topic message)
  | OtherEvent _ => false
  end.

Definition ipc_size_of (event : AstridEvent) : N :=
  match event with
  | Ipc message => sat_add USIZE_MAX (default 0 (msg_payload_len message)) (str_len (msg_topic message))
  | OtherEvent _ => 64
  end.

(** ** Delivery receipts *)

(** The [uuid] crate's text forms. *)
Class Uuids : Type := {
  uuid_simple : N -> string;
  uuid_parse : string -> option N;
}.

Definition FAILURE_NAMESPACE : string := "astrid.v1.delivery.failure".
Definition FAILURE_PREFIX : string := "astrid.v1.delivery.failure.".

Definition is_failure_topic (topic : string) : bool :=
  bool_decide (topic = FAILURE_NAMESPACE) || String.prefix FAILURE_PREFIX topic.

Definition DeliveryId_parse `{Uuids} (value : string) : option N :=
  match uuid_parse value with
  | Some id => if negb (id =? 0) && bool_decide (uuid_simple id = value) then Some id else None
  | None => None
  end.

Definition visible_to `{Uuids} (message : IpcMessage) (publisher : N) : bool :=
  if negb (is_failure_topic (msg_topic message)) then true
  else
    let prefix := String.append FAILURE_NAMESPACE
      (String.append "." (String.append (uuid_simple publisher) ".")) in
    (msg_source_id message =? 0)
      && bool_decide (is_Some (strip_prefix prefix (msg_topic message) ≫= DeliveryId_parse)).

(** ** The publication gate *)

Inductive AdmissionState : Type := Staged | Published | Retired.
#[export] Instance AdmissionState_eq_dec : EqDecision AdmissionState.
Proof. solve_decision. Defined.

Definition publish (s : AdmissionState) : AdmissionState :=
  if bool_decide (s <> Retired) then Published else s.
Definition retire (s : AdmissionState) : AdmissionState := Retired.
Definition is_published (s : AdmissionState) : bool := bool_decide (s = Published).

(** ** Route entries *)

Definition MAX_SUBSCRIPTION_BUDGET_BYTES : N := 1024 * 1024.
Definition DRR_QUANTUM_MIN_BYTES : N := 4 * 1024.
Definition PENDING_PER_PRINCIPAL_FALLBACK : N := 16384.

Abbreviation PrincipalKey := (option string).

Inductive RouteAdmission : Type :=
| AdmitAll
| AdmitExact (k : PrincipalKey)
| PrincipalOrSystem (principal : string).

Record PrincipalQueue : Type := MkPrincipalQueue {
  queue : list AstridEvent;
  q_bytes : N;
  head_enqueued_at : option N;
  deficit : N;
}.

Definition PrincipalQueue_new : PrincipalQueue := MkPrincipalQueue [] 0 None 0.

Record RouteEntry : Type := MkRouteEntry {
  re_matcher : string;
  fanout : gmap PrincipalKey PrincipalQueue;
  principal_order : list PrincipalKey;
  total_bytes : N;
  re_scope : RouteAdmission;
  re_request_owner : option N;
  re_receipt_publisher : option N;
  re_gate : AdmissionState;
}.

Definition RouteEntry_new (matcher : string) (scope : option PrincipalKey) : RouteEntry :=
  MkRouteEntry matcher ∅ [] 0 (match scope with Some k => AdmitExact k | None => AdmitAll end)
    None None Published.
Definition new_principal_or_system (matcher principal : string) : RouteEntry :=
  MkRouteEntry matcher ∅ [] 0 (PrincipalOrSystem principal) None None Published.
Definition with_receipt_publisher (e : RouteEntry) (publisher : N) : RouteEntry :=
  MkRouteEntry (re_matcher e) (fanout e) (principal_order e) (total_bytes e) (re_scope e)
    (re_request_owner e) (Some publisher) (re_gate e).
Definition with_gate (e : RouteEntry) (gate : AdmissionState) : RouteEntry :=
  MkRouteEntry (re_matcher e) (fanout e) (principal_order e) (total_bytes e) (re_scope e)
    (re_request_owner e) (re_receipt_publisher e) gate.
Definition with_request_owner (e : RouteEntry) (owner : N) : RouteEntry :=
  MkRouteEntry (re_matcher e) (fanout e) (principal_order e) (total_bytes e) (re_scope e)
    (Some owner) (re_receipt_publisher e) (re_gate e).

(** The queue state of an entry replaced. *)
Definition set_queues (e : RouteEntry) (f : gmap PrincipalKey PrincipalQueue)
    (order : list PrincipalKey) (total : N) : RouteEntry :=
  MkRouteEntry (re_matcher e) f order total (re_scope e) (re_request_owner e)
    (re_receipt_publisher e) (re_gate e).

Definition scope_accepts (s : RouteAdmission) (publisher : PrincipalKey) : bool :=
  match s with
  | AdmitAll => true
  | AdmitExact expected => bool_decide (expected = publisher)
  | PrincipalOrSystem expected =>
      match publisher with None => true | Some actual => bool_decide (actual = expected) end
  end.

Definition accepts (e : RouteEntry) (publisher : PrincipalKey) : bool :=
  if negb (is_published (re_gate e)) then false else scope_accepts (re_scope e) publisher.

Section Operations.
Context `{Uuids} (iter : gmap PrincipalKey PrincipalQueue -> list (PrincipalKey * PrincipalQueue)).

Definition accepts_event (e : RouteEntry) (publisher : PrincipalKey) (event : AstridEvent) : bool :=
  if negb (accepts e publisher) then false
  else if match re_receipt_publisher e, event with
          | Some owner, Ipc message => negb (visible_to message owner)
          | _, _ => false
          end then false
  else match re_request_owner e with
       | None => true
       | Some expected_owner =>
           match event with
           | Ipc message => bool_decide (msg_request_owner message = Some expected_owner)
           | OtherEvent _ => false
           end
       end.

(** [min_by_key] keeps the first of equal minima. *)
Definition min_head (acc : option (N * PrincipalKey)) (x : PrincipalKey * PrincipalQueue)
    : option (N * PrincipalKey) :=
  match head_enqueued_at x.2 with
  | None => acc
  | Some t =>
      match acc with
      | Some (t', _) => if t <? t' then Some (t, x.1) else acc
      | None => Some (t, x.1)
      end
  end.

Definition oldest_head_key (f : gmap PrincipalKey PrincipalQueue) : option PrincipalKey :=
  snd <$> List.fold_left min_head (iter f) None.

(** Age of the new head after a removal at [now]. *)
Definition refreshed (q : list AstridEvent) (now : N) : option N :=
  match q with [] => None | _ => Some now end.

(** A bucket with its head message, [m], popped at [now]. *)
Definition pop_bucket (b : PrincipalQueue) (m : AstridEvent) (rest : list AstridEvent) (now : N)
    : PrincipalQueue :=
  MkPrincipalQueue rest (sat_sub (q_bytes b) (ipc_size_of m)) (refreshed rest now) (deficit b).

Definition evict_oldest_head (now : N) (e : RouteEntry) : RouteEntry * bool :=
  match oldest_head_key (fanout e) with
  | None => (e, false)
  | Some victim_key =>
      match fanout e !! victim_key with
      | None => (e, false)
      | Some bucket =>
          match queue bucket with
          | [] => (e, false)
          | evicted :: rest =>
              (set_queues e (<[victim_key := pop_bucket bucket evicted rest now]> (fanout e))
                 (principal_order e) (sat_sub (total_bytes e) (ipc_size_of evicted)), true)
          end
      end
  end.

(** The eviction loop; [fuel] bounds its rounds and [k] counts evictions. *)
Fixpoint evict_loop (fuel : nat) (clock : nat -> N) (msg_size budget_bytes : N) (e : RouteEntry)
    (k : nat) : RouteEntry * nat :=
  match fuel with
  | O => (e, k)
  | S fuel =>
      if budget_bytes <? sat_add USIZE_MAX (total_bytes e) msg_size then
        match evict_oldest_head (clock k) e with
        | (e', true) => evict_loop fuel clock msg_size budget_bytes e' (S k)
        | (e', false) => (e', k)
        end
      else (e, k)
  end.

Definition queued (e : RouteEntry) : nat :=
  map_fold (fun _ b n => (length (queue b) + n)%nat) 0%nat (fanout e).

(** Appending to a bucket, with the per-bucket message cap; also the new
    total. *)
Definition append_event (clock : nat -> N) (k : nat) (event : AstridEvent) (bucket : PrincipalQueue)
    (total : N) : PrincipalQueue * N :=
  let msg_size := ipc_size_of event in
  let head := match queue bucket with [] => Some (clock k) | _ => head_enqueued_at bucket end in
  let bucket := MkPrincipalQueue (queue bucket ++ [event]) (sat_add USIZE_MAX (q_bytes bucket) msg_size)
                  head (deficit bucket) in
  let total := sat_add USIZE_MAX total msg_size in
  if PENDING_PER_PRINCIPAL_FALLBACK <? N.of_nat (length (queue bucket)) then
    match queue bucket with
    | dropped :: rest =>
        (pop_bucket bucket dropped rest (clock (S k)), sat_sub total (ipc_size_of dropped))
    | [] => (bucket, total)
    end
  else (bucket, total).

Definition enqueue (clock : nat -> N) (k : nat) (event : AstridEvent) (principal : PrincipalKey)
    (e : RouteEntry) : RouteEntry :=
  let is_new := bool_decide (fanout e !! principal = None) in
  let bucket := default PrincipalQueue_new (fanout e !! principal) in
  let '(bucket, total) := append_event clock k event bucket (total_bytes e) in
  set_queues e (<[principal := bucket]> (fanout e))
    (if is_new then principal_order e ++ [principal] else principal_order e) total.

Definition push_with_eviction (clock : nat -> N) (event : AstridEvent) (principal : PrincipalKey)
    (budget_bytes : N) (e : RouteEntry) : RouteEntry * nat :=
  if negb (accepts_event e principal event) then (e, 0%nat)
  else if budget_bytes <? ipc_size_of event then (e, 1%nat)
  else
    let '(e, evictions) := evict_loop (S (queued e)) clock (ipc_size_of event) budget_bytes e 0 in
    (enqueue clock evictions event principal e, evictions).

(** What one drain has done so far. *)
Record drain_state : Type := MkDrainState {
  ds_entry : RouteEntry;
  ds_served : N;
  ds_out : list AstridEvent;
  ds_progress : bool;
}.

(** Serving one bucket: pop messages while the deficit and the budget cover
    them. *)
Fixpoint serve (clock : nat -> N) (budget : N) (msgs : list AstridEvent) (b : PrincipalQueue)
    (total served : N) (out : list AstridEvent) (progress : bool)
    : PrincipalQueue * N * N * list AstridEvent * bool :=
  match msgs with
  | [] => (b, total, served, out, progress)
  | msg :: rest =>
      let sz := ipc_size_of msg in
      if (deficit b <? sz) || (budget <? sat_add USIZE_MAX served sz) then (b, total, served, out, progress)
      else
        let b := MkPrincipalQueue rest (sat_sub (q_bytes b) sz)
                   (refreshed rest (clock (length out))) (sat_sub (deficit b) sz) in
        serve clock budget rest b (sat_sub total sz) (sat_add USIZE_MAX served sz) (out ++ [msg]) true
  end.

Definition visit_one (clock : nat -> N) (budget quantum : N) (st : drain_state) : drain_state :=
  let e := ds_entry st in
  match principal_order e with
  | [] => st
  | key :: order =>
      match fanout e !! key with
      | None =>
          MkDrainState (set_queues e (fanout e) order (total_bytes e)) (ds_served st) (ds_out st)
            (ds_progress st)
      | Some b =>
          let b := MkPrincipalQueue (queue b) (q_bytes b) (head_enqueued_at b)
                     (sat_add USIZE_MAX (deficit b) quantum) in
          let '(b, total, served, out, bucket_progress) :=
            serve clock budget (queue b) b (total_bytes e) (ds_served st) (ds_out st) false in
          let e := match queue b with
                   | [] => set_queues e (delete key (fanout e)) order total
                   | _ => set_queues e (<[key := b]> (fanout e)) (order ++ [key]) total
                   end in
          MkDrainState e served out (ds_progress st || bucket_progress)
      end
  end.

Definition visit_round (clock : nat -> N) (budget quantum : N) (st : drain_state) : drain_state :=
  Nat.iter (length (principal_order (ds_entry st))) (visit_one clock budget quantum)
    (MkDrainState (ds_entry st) (ds_served st) (ds_out st) false).

Fixpoint drain_loop (fuel : nat) (clock : nat -> N) (budget quantum : N) (st : drain_state)
    : drain_state :=
  match fuel with
  | O => st
  | S fuel =>
      let st := visit_round clock budget quantum st in
      if negb (ds_progress st) || (budget <=? ds_served st) then st
      else drain_loop fuel clock budget quantum st
  end.

Definition drain_quantum (e : RouteEntry) (budget : N) : N :=
  N.max DRR_QUANTUM_MIN_BYTES (budget / N.max (N.of_nat (length (principal_order e))) 1).

Definition drr_drain (clock : nat -> N) (budget : N) (e : RouteEntry)
    : RouteEntry * N * list AstridEvent :=
  if bool_decide (fanout e = ∅) || (budget =? 0) then (e, 0, [])
  else
    let st := drain_loop (S (queued e)) clock budget (drain_quantum e budget) (MkDrainState e 0 [] false) in
    (ds_entry st, ds_served st, ds_out st).

Fixpoint pop_loop (visit : nat) (now : N) (e : RouteEntry) : RouteEntry * option AstridEvent :=
  match visit with
  | O => (e, None)
  | S visit =>
      match principal_order e with
      | [] => (e, None)
      | key :: order =>
          match fanout e !! key with
          | None => pop_loop visit now (set_queues e (fanout e) order (total_bytes e))
          | Some b =>
              match queue b with
              | msg :: rest =>
                  let total := sat_sub (total_bytes e) (ipc_size_of msg) in
                  (match rest with
                   | [] => set_queues e (delete key (fanout e)) order total
                   | _ => set_queues e (<[key := pop_bucket b msg rest now]> (fanout e)) (order ++ [key]) total
                   end, Some msg)
              | [] => pop_loop visit now (set_queues e (delete key (fanout e)) order (total_bytes e))
              end
          end
      end
  end.

Definition drr_pop_one (now : N) (e : RouteEntry) : RouteEntry * option AstridEvent :=
  pop_loop (length (principal_order e)) now e.

(** [EventBus::dispatch_to_routes] on one route: the match under the table
    lock, the second admission check and the push. *)
Definition dispatch_to_route (clock : nat -> N) (event : AstridEvent) (e : RouteEntry) : RouteEntry :=
  match event with
  | OtherEvent _ => e
  | Ipc message =>
      if accepts_event e (msg_principal message) event && matches (re_matcher e) event then
        if negb (accepts_event e (msg_principal message) event) then e
        else (push_with_eviction clock event (msg_principal message) MAX_SUBSCRIPTION_BUDGET_BYTES e).1
      else e
  end.

Definition active_principals (e : RouteEntry) : nat := size (fanout e).

End Operations.

(** ** Specification *)

Definition bytes_of (q : list AstridEvent) : N := List.fold_right (fun m n => ipc_size_of m + n) 0 q.

Definition queue_of (e : RouteEntry) (k : PrincipalKey) : list AstridEvent :=
  from_option queue [] (fanout e !! k).

Definition sum_bytes (f : gmap PrincipalKey PrincipalQueue) : N :=
  map_fold (fun _ b n => q_bytes b + n) 0 f.

Record bucket_wf (b : PrincipalQueue) : Prop := {
  bw_bytes : q_bytes b = bytes_of (queue b);
  bw_head : head_enqueued_at b = None <-> queue b = [];
  bw_cap : N.of_nat (length (queue b)) <= PENDING_PER_PRINCIPAL_FALLBACK;
}.

(** The invariant of a route entry under the byte budget [B]. *)
Record route_wf (B : N) (e : RouteEntry) : Prop := {
  rw_nodup : NoDup (principal_order e);
  rw_dom k : k ∈ principal_order e <-> is_Some (fanout e !! k);
  rw_bucket k b : fanout e !! k = Some b -> bucket_wf b;
  rw_total : total_bytes e = sum_bytes (fanout e);
  rw_budget : total_bytes e <= B;
}.

(** The parts of an entry no queue operation changes. *)
Definition policy (e : RouteEntry) :=
  (re_matcher e, re_scope e, re_request_owner e, re_receipt_publisher e, re_gate e).

(** The messages of one principal in a delivery log. *)
Definition logged (k : PrincipalKey) (log : list (PrincipalKey * AstridEvent)) : list AstridEvent :=
  (filter (fun x => x.1 = k) log).*2.

(** A drain in progress: what was delivered so far, tagged with the bucket it
    came from, and what is left make up the initial queues. *)
Record drained (B budget : N) (e0 : RouteEntry) (st : drain_state)
    (log : list (PrincipalKey * AstridEvent)) : Prop := {
  dr_wf : route_wf B (ds_entry st);
  dr_out : log.*2 = ds_out st;
  dr_queue k : logged k log ++ queue_of (ds_entry st) k = queue_of e0 k;
  dr_served : ds_served st = bytes_of (ds_out st);
  dr_budget : ds_served st <= budget;
  dr_policy : policy (ds_entry st) = policy e0;
  dr_count : (queued (ds_entry st) + length (ds_out st) = queued e0)%nat;
}.

(** ** Lemmas on sums and queues *)

Lemma bytes_of_app q q' : bytes_of (q ++ q') = bytes_of q + bytes_of q'.
Proof. induction q as [|m q IH]; simpl; [done|]. unfold bytes_of in *. simpl. lia. Qed.

Lemma sum_bytes_delete f k b : f !! k = Some b -> sum_bytes f = q_bytes b + sum_bytes (delete k f).
Proof.
  intros Hk. unfold sum_bytes. rewrite (map_fold_delete_L (fun _ b n => q_bytes b + n) 0 k b f); [done| |done].
  intros. lia.
Qed.

Lemma sum_bytes_insert f k b :
  sum_bytes (<[k := b]> f) = q_bytes b + sum_bytes (delete k f).
Proof.
  rewrite (sum_bytes_delete _ k b) by apply lookup_insert_eq. by rewrite delete_insert_eq.
Qed.

Lemma queued_delete e k b f' :
  fanout e !! k = Some b -> f' = delete k (fanout e) ->
  queued e = (length (queue b) + map_fold (fun _ b n => (length (queue b) + n)%nat) 0%nat f')%nat.
Proof.
  intros Hk ->. unfold queued.
  rewrite (map_fold_delete_L (fun _ b n => (length (queue b) + n)%nat) 0%nat k b); [done| |done]. intros. lia.
Qed.

Lemma queued_replace e e' k b b' :
  fanout e !! k = Some b -> fanout e' = <[k := b']> (fanout e) ->
  (queued e' + length (queue b) = queued e + length (queue b'))%nat.
Proof.
  intros Hk He. rewrite (queued_delete e k b _ Hk eq_refl).
  rewrite (queued_delete e' k b' (delete k (fanout e))); [lia| |].
  - by rewrite He, lookup_insert_eq.
  - by rewrite He, delete_insert_eq.
Qed.

Lemma queued_remove e e' k b :
  fanout e !! k = Some b -> fanout e' = delete k (fanout e) ->
  (queued e' + length (queue b) = queued e)%nat.
Proof. intros Hk He. rewrite (queued_delete e k b _ Hk eq_refl). unfold queued. rewrite He. lia. Qed.

Lemma queued_zero e k : queued e = 0%nat -> queue_of e k = [].
Proof.
  intros H0. unfold queue_of. destruct (fanout e !! k) as [b|] eqn:Hk; [|done]. simpl.
  rewrite (queued_delete e k b _ Hk eq_refl) in H0. apply nil_length_inv. lia.
Qed.

Lemma queued_all_empty e :
  (forall k b, fanout e !! k = Some b -> queue b = []) -> queued e = 0%nat.
Proof.
  intros Hall. unfold queued. rewrite map_fold_foldr.
  assert (Hl : Forall (fun x => queue x.2 = []) (map_to_list (fanout e))).
  { apply Forall_forall. intros [k b] Hk%elem_of_map_to_list. by apply (Hall k). }
  induction Hl as [|[k b] l Hx _ IH]; simpl in *; [done|]. by rewrite Hx, IH.
Qed.

Lemma queue_of_insert e k b q o t :
  queue_of (set_queues e (<[k := b]> (fanout e)) o t) q =
  if bool_decide (q = k) then queue b else queue_of e q.
Proof.
  unfold queue_of. cbn [fanout set_queues]. case_bool_decide as Hq.
  - by rewrite Hq, lookup_insert_eq.
  - by rewrite lookup_insert_ne.
Qed.

Lemma queue_of_delete e k q o t :
  queue_of (set_queues e (delete k (fanout e)) o t) q =
  if bool_decide (q = k) then [] else queue_of e q.
Proof.
  unfold queue_of. cbn [fanout set_queues]. case_bool_decide as Hq.
  - by rewrite Hq, lookup_delete_eq.
  - by rewrite lookup_delete_ne.
Qed.

Lemma refreshed_None q now : refreshed q now = None <-> q = [].
Proof. by destruct q. Qed.

Lemma pop_bucket_wf b m rest now : queue b = m :: rest -> bucket_wf b -> bucket_wf (pop_bucket b m rest now).
Proof.
  intros Hq [Hb Hh Hc]. rewrite Hq in Hb, Hc. split; simpl.
  - rewrite Hb. unfold sat_sub. simpl. lia.
  - apply refreshed_None.
  - simpl in Hc. lia.
Qed.

(** Replacing a bucket by one that is no bigger keeps the invariant. *)
Lemma route_wf_shrink B e k b b' o :
  route_wf B e -> fanout e !! k = Some b -> bucket_wf b' -> q_bytes b' <= q_bytes b ->
  NoDup o -> (forall x, x ∈ o <-> x ∈ principal_order e) ->
  route_wf B (set_queues e (<[k := b']> (fanout e)) o (total_bytes e - (q_bytes b - q_bytes b'))).
Proof.
  intros [Hnd Hdom Hbk Htot Hbud] Hk Hw Hle Ho Hiff. pose proof (sum_bytes_delete _ k b Hk) as Hs.
  split; cbn [principal_order fanout total_bytes set_queues]; [done| | | |lia].
  - intros x. rewrite Hiff, Hdom. destruct (decide (x = k)) as [->|Hx].
    + rewrite lookup_insert_eq, Hk. split; by eexists.
    + by rewrite lookup_insert_ne.
  - intros x bx. destruct (decide (x = k)) as [->|Hx].
    + rewrite lookup_insert_eq. by intros [= <-].
    + rewrite lookup_insert_ne by done. apply Hbk.
  - rewrite sum_bytes_insert. lia.
Qed.

(** Removing a bucket keeps the invariant. *)
Lemma route_wf_remove B e k b o :
  route_wf B e -> fanout e !! k = Some b -> principal_order e = k :: o ->
  route_wf B (set_queues e (delete k (fanout e)) o (total_bytes e - q_bytes b)).
Proof.
  intros [Hnd Hdom Hbk Htot Hbud] Hk Ho. pose proof (sum_bytes_delete _ k b Hk) as Hs.
  rewrite Ho in Hnd. apply NoDup_cons in Hnd as [Hnk Hnd].
  split; cbn [principal_order fanout total_bytes set_queues]; [done| | |lia|lia].
  - intros x. destruct (decide (x = k)) as [->|Hx].
    + rewrite lookup_delete_eq. split; [done|by intros []].
    + rewrite lookup_delete_ne by done. rewrite <- Hdom, Ho, elem_of_cons. naive_solver.
  - intros x bx [_ Hx]%lookup_delete_Some. by apply (Hbk x).
Qed.

(** ** Lemmas on eviction *)

Section Lemmas.
Context `{Uuids} (iter : gmap PrincipalKey PrincipalQueue -> list (PrincipalKey * PrincipalQueue)).
Context (iter_entries : forall f, iter f ≡ₚ map_to_list f).

Lemma min_head_fold es acc :
  match List.fold_left min_head es acc with
  | Some (t, k) => acc = Some (t, k) \/ exists b, (k, b) ∈ es /\ head_enqueued_at b = Some t
  | None => acc = None /\ Forall (fun x => head_enqueued_at x.2 = None) es
  end.
Proof.
  revert acc; induction es as [|[k b] es IH]; intros acc; cbn [List.fold_left].
  { destruct acc as [[]|]; [by left|done]. }
  specialize (IH (min_head acc (k, b))). destruct (List.fold_left _ _ _) as [[t k']|].
  - destruct IH as [E|(b' & Hin & Hh)]; [|right; exists b'; split; [by right|done]].
    unfold min_head in E. cbn [fst snd] in E.
    destruct (head_enqueued_at b) as [t'|] eqn:Hb; [|by left].
    destruct acc as [[t0 k0]|]; [|injection E as -> ->; right; exists b; split; [left|done]].
    case_match; [|by left]. injection E as -> ->. right. exists b. split; [left|done].
  - destruct IH as [E Hall]. unfold min_head in E. cbn [fst snd] in E.
    destruct (head_enqueued_at b) as [t'|] eqn:Hb; [destruct acc as [[]|]; [case_match|]; done|].
    split; [done|]. by constructor.
Qed.

(** The victim is a bucket with a message, if there is any message. *)
Lemma oldest_head_cases B e :
  route_wf B e ->
  match oldest_head_key iter (fanout e) with
  | Some k => exists b m rest, fanout e !! k = Some b /\ queue b = m :: rest
  | None => queued e = 0%nat
  end.
Proof.
  intros Hwf. unfold oldest_head_key. pose proof (min_head_fold (iter (fanout e)) None) as Hf.
  destruct (List.fold_left _ _ _) as [[t k]|]; cbn.
  - destruct Hf as [[=]|(b & Hin & Hh)]. rewrite iter_entries, elem_of_map_to_list in Hin.
    exists b. destruct (queue b) as [|m rest] eqn:Hq; [|eauto].
    apply (bw_head b (rw_bucket B e Hwf k b Hin)) in Hq. congruence.
  - destruct Hf as [_ Hall]. rewrite iter_entries in Hall. rewrite Forall_forall in Hall.
    apply queued_all_empty. intros k b Hk. apply (bw_head b (rw_bucket B e Hwf k b Hk)).
    apply (Hall (k, b)). by apply elem_of_map_to_list.
Qed.

Lemma evict_effect B e now :
  route_wf B e ->
  match evict_oldest_head iter now e with
  | (e', true) => exists k m,
      route_wf B e' /\ (forall q, queue_of e q = (if bool_decide (q = k) then [m] else []) ++ queue_of e' q) /\
      principal_order e' = principal_order e /\ fanout e' !! k <> None /\
      policy e' = policy e /\ S (queued e') = queued e
  | (e', false) => e' = e /\ queued e = 0%nat
  end.
Proof.
  intros Hwf. pose proof (oldest_head_cases B e Hwf) as Hc. unfold evict_oldest_head.
  destruct (oldest_head_key iter (fanout e)) as [k|]; [|done].
  destruct Hc as (b & m & rest & Hk & Hq). rewrite Hk, Hq. exists k, m.
  pose proof (pop_bucket_wf b m rest now Hq (rw_bucket B e Hwf k b Hk)) as Hw.
  assert (Hsz : q_bytes b = ipc_size_of m + q_bytes (pop_bucket b m rest now)).
  { rewrite (bw_bytes _ Hw), (bw_bytes _ (rw_bucket B e Hwf k b Hk)), Hq. done. }
  split_and!; try done.
  - replace (sat_sub (total_bytes e) (ipc_size_of m))
      with (total_bytes e - (q_bytes b - q_bytes (pop_bucket b m rest now))) by (unfold sat_sub; lia).
    apply (route_wf_shrink B e k b); [done..|lia|apply (rw_nodup B e Hwf)|done].
  - intros q. rewrite queue_of_insert. case_bool_decide as Hqk; [|done].
    subst q. unfold queue_of. rewrite Hk. done.
  - cbn. by rewrite lookup_insert_eq.
  - pose proof (queued_replace e (set_queues e (<[k := pop_bucket b m rest now]> (fanout e))
      (principal_order e) (sat_sub (total_bytes e) (ipc_size_of m))) k b _ Hk eq_refl) as Hn.
    rewrite Hq in Hn. simpl in Hn. lia.
Qed.

(** Evictions drop heads only, until the message fits. *)
Lemma evict_loop_effect B fuel clock size e k :
  route_wf B e -> B < USIZE_MAX -> size <= B -> (queued e < fuel)%nat ->
  exists e' k', evict_loop iter fuel clock size B e k = (e', k') /\
    route_wf B e' /\ total_bytes e' + size <= B /\ principal_order e' = principal_order e /\
    policy e' = policy e /\
    (forall q, exists dropped, queue_of e q = dropped ++ queue_of e' q).
Proof.
  revert e k; induction fuel as [|fuel IH]; intros e k Hwf HB Hsz Hf; [lia|]. cbn [evict_loop].
  pose proof (evict_effect B e (clock k) Hwf) as He.
  destruct (N.ltb_spec B (sat_add USIZE_MAX (total_bytes e) size)) as [Hbig|Hok].
  - destruct (evict_oldest_head iter (clock k) e) as [e1 []].
    + destruct He as (x & m & Hwf1 & Hq & Ho & _ & Hs & Hn).
      destruct (IH e1 (S k) Hwf1 HB Hsz ltac:(lia)) as (e' & k' & Hrun & Hwf' & Hfit & Ho' & Hs' & Hd).
      exists e', k'. split_and!; try done; try congruence.
      intros q. destruct (Hd q) as [d Hdq]. rewrite Hq, Hdq, app_assoc. by eexists.
    + destruct He as [-> H0]. exfalso.
      assert (total_bytes e = 0) as Ht; [|rewrite Ht in Hbig; unfold sat_add in Hbig; lia].
      rewrite (rw_total B e Hwf). unfold sum_bytes. rewrite map_fold_foldr.
      assert (Hl : Forall (fun x => q_bytes x.2 = 0) (map_to_list (fanout e))).
      { apply Forall_forall. intros [x b] Hx%elem_of_map_to_list. cbn.
        rewrite (bw_bytes b (rw_bucket B e Hwf x b Hx)).
        pose proof (queued_zero e x H0) as Hq. unfold queue_of in Hq. rewrite Hx in Hq. cbn in Hq. by rewrite Hq. }
      induction Hl as [|[x b] l Hx _ IHl]; cbn in *; [done|]. by rewrite Hx, IHl.
  - exists e, k. split_and!; try done; [unfold sat_add in Hok; lia|]. intros q. by exists [].
Qed.

End Lemmas.

Lemma append_effect B clock k event b total :
  bucket_wf b -> q_bytes b <= total -> total + ipc_size_of event <= B -> B < USIZE_MAX ->
  let '(b', total') := append_event clock k event b total in
  bucket_wf b' /\ total' + q_bytes b = total + q_bytes b' /\ total' <= B /\
  (exists dropped, queue b ++ [event] = dropped ++ queue b') /\
  (exists before, queue b' = before ++ [event]).
Proof.
  intros [Hb Hh Hc] Hle Hfit HB. unfold append_event.
  rewrite !sat_add_exact by lia. cbn [queue]. cbv zeta.
  set (b1 := MkPrincipalQueue _ _ _ _).
  assert (Hbytes : q_bytes b1 = bytes_of (queue b1)).
  { cbn. rewrite bytes_of_app, <- Hb. unfold bytes_of. simpl. lia. }
  destruct (N.ltb_spec PENDING_PER_PRINCIPAL_FALLBACK (N.of_nat (length (queue b ++ [event])))) as [Hbig|Hsmall].
  - rewrite length_app in Hbig. simpl in Hbig.
    destruct (queue b) as [|x q] eqn:Hq; [unfold PENDING_PER_PRINCIPAL_FALLBACK in *; simpl in *; lia|].
    cbn [app]. assert (Hq1 : queue b1 = x :: (q ++ [event])) by done.
    rewrite Hq1 in Hbytes. cbn [bytes_of List.fold_right] in Hbytes. fold (bytes_of (q ++ [event])) in Hbytes.
    change (q_bytes b1) with (q_bytes b + ipc_size_of event) in Hbytes.
    unfold pop_bucket, sat_sub. change (q_bytes b1) with (q_bytes b + ipc_size_of event).
    split_and!; cbn [q_bytes queue]; [split; cbn [q_bytes queue head_enqueued_at]|lia|lia|by exists [x]|by exists q].
    + lia.
    + apply refreshed_None.
    + rewrite length_app. simpl in *. lia.
  - split_and!; [split; [done| |done]|cbn; lia|lia| |].
    + split; [|by destruct (queue b)]. destruct (queue b); [done|]. intros E. by apply Hh in E.
    + by exists [].
    + by exists (queue b).
Qed.

(** The enqueued event is the last of its bucket. *)
Lemma enqueue_effect B clock k event p e :
  route_wf B e -> B < USIZE_MAX -> total_bytes e + ipc_size_of event <= B ->
  let e' := enqueue clock k event p e in
  route_wf B e' /\ policy e' = policy e /\
  (forall q, is_Some (fanout e' !! q) <-> q = p \/ is_Some (fanout e !! q)) /\
  (forall q, exists dropped,
     queue_of e q ++ (if bool_decide (q = p) then [event] else []) = dropped ++ queue_of e' q) /\
  (exists before, queue_of e' p = before ++ [event]).
Proof.
  intros [Hnd Hdom Hbk Htot Hbud] HB Hfit e'. unfold e', enqueue. cbv zeta.
  set (b := default PrincipalQueue_new (fanout e !! p)).
  assert (Hb : bucket_wf b /\ sum_bytes (fanout e) = q_bytes b + sum_bytes (delete p (fanout e)) /\
               queue_of e p = queue b).
  { unfold b, queue_of. destruct (fanout e !! p) as [b0|] eqn:Hp; cbn.
    - split_and!; [by apply (Hbk p)|by apply sum_bytes_delete|done].
    - split_and!; [by split|by rewrite delete_id|done]. }
  destruct Hb as (Hw & Hsum & Hqp).
  pose proof (append_effect B clock k event b (total_bytes e) Hw ltac:(lia) Hfit HB) as Ha.
  destruct (append_event clock k event b (total_bytes e)) as [b' total'].
  destruct Ha as (Hw' & Ht & HtB & [d Hd] & [bef Hbef]).
  assert (Hin : forall x, is_Some (<[p := b']> (fanout e) !! x) <-> x = p \/ is_Some (fanout e !! x)).
  { intros x. destruct (decide (x = p)) as [->|Hx].
    - rewrite lookup_insert_eq. split; [by left|by eexists].
    - rewrite lookup_insert_ne by done. naive_solver. }
  split_and!; try done.
  - split; cbn [principal_order fanout total_bytes set_queues].
    + case_bool_decide as Hn; [|done]. apply NoDup_app. split_and!; [done| |apply NoDup_singleton].
      intros x Hx ->%list_elem_of_singleton. apply Hdom in Hx. rewrite Hn in Hx. by destruct Hx.
    + intros x. rewrite Hin, <- Hdom. case_bool_decide as Hn; [set_solver|].
      split; [by right|]. intros [->|]; [|done]. apply Hdom. by apply not_eq_None_Some.
    + intros x bx. destruct (decide (x = p)) as [->|Hx].
      * rewrite lookup_insert_eq. by intros [= <-].
      * rewrite lookup_insert_ne by done. apply Hbk.
    + rewrite sum_bytes_insert. lia.
    + done.
  - intros q. rewrite queue_of_insert. case_bool_decide as Hq; [subst; rewrite Hqp; by exists d|].
    rewrite app_nil_r. by exists [].
  - rewrite queue_of_insert, bool_decide_true by done. by exists bef.
Qed.


(** ** Lemmas on draining *)

Lemma logged_app k l l' : logged k (l ++ l') = logged k l ++ logged k l'.
Proof. unfold logged. by rewrite filter_app, fmap_app. Qed.

Lemma logged_tagged k key (ms : list AstridEvent) :
  logged k ((fun m => (key, m)) <$> ms) = if bool_decide (k = key) then ms else [].
Proof.
  unfold logged. induction ms as [|m ms IH]; [by case_bool_decide|].
  rewrite fmap_cons. case_bool_decide as Hk.
  - rewrite filter_cons_True by (by cbn). cbn. by rewrite IH.
  - rewrite filter_cons_False by (by cbn; congruence). exact IH.
Qed.

Lemma serve_effect clock budget msgs b total served out progress :
  queue b = msgs -> q_bytes b = bytes_of msgs -> (head_enqueued_at b = None <-> queue b = []) ->
  q_bytes b <= total -> served <= budget -> budget < USIZE_MAX ->
  let '(b', total', served', out', progress') := serve clock budget msgs b total served out progress in
  exists taken, msgs = taken ++ queue b' /\ out' = out ++ taken /\
    served' = served + bytes_of taken /\ served' <= budget /\ total' + bytes_of taken = total /\
    q_bytes b' = bytes_of (queue b') /\ (head_enqueued_at b' = None <-> queue b' = []) /\
    progress' = progress || bool_decide (taken <> []).
Proof.
  revert b total served out progress; induction msgs as [|m msgs IH];
    intros b total served out progress Hq Hb Hh Ht Hs HB; cbn [serve].
  { exists []. rewrite Hq in *. change (bytes_of []) with 0.
    split_and!; rewrite ?app_nil_r, ?orb_false_r; done || lia. }
  assert (Hbm : bytes_of (m :: msgs) = ipc_size_of m + bytes_of msgs) by done.
  destruct ((deficit b <? ipc_size_of m) || (budget <? sat_add USIZE_MAX served (ipc_size_of m))) eqn:Hg.
  { exists []. rewrite Hq in *. change (bytes_of []) with 0.
    split_and!; rewrite ?app_nil_r, ?orb_false_r; done || lia. }
  apply orb_false_iff in Hg as [_ Hg%N.ltb_ge].
  assert (Hfit : served + ipc_size_of m <= budget) by (unfold sat_add in Hg; lia).
  rewrite sat_add_exact by lia. cbv zeta.
  specialize (IH (MkPrincipalQueue msgs (sat_sub (q_bytes b) (ipc_size_of m))
    (refreshed msgs (clock (length out))) (sat_sub (deficit b) (ipc_size_of m)))
    (sat_sub total (ipc_size_of m)) (served + ipc_size_of m) (out ++ [m]) true).
  destruct (serve _ _ _ _ _ _ _ _) as [[[[b' total'] served'] out'] progress'].
  destruct IH as (taken & Hm & Ho & Hsv & Hle & Htt & Hbb & Hhh & Hp); cbn [queue q_bytes head_enqueued_at];
    unfold sat_sub in *; try lia; [done|apply refreshed_None|].
  exists (m :: taken). assert (bytes_of (m :: taken) = ipc_size_of m + bytes_of taken) by done.
  split_and!; try done; try lia.
  - by rewrite Hm.
  - by rewrite Ho, <- app_assoc.
  - rewrite Hp. by rewrite orb_true_r.
Qed.

(** Putting a served bucket back, or dropping it when it is empty. *)
Definition settle_bucket (e : RouteEntry) (key : PrincipalKey) (order : list PrincipalKey)
    (b : PrincipalQueue) (total : N) : RouteEntry :=
  match queue b with
  | [] => set_queues e (delete key (fanout e)) order total
  | _ => set_queues e (<[key := b]> (fanout e)) (order ++ [key]) total
  end.

Lemma settle_bucket_effect B e key order b b' taken total :
  route_wf B e -> principal_order e = key :: order -> fanout e !! key = Some b ->
  queue b = taken ++ queue b' -> q_bytes b' = bytes_of (queue b') ->
  (head_enqueued_at b' = None <-> queue b' = []) -> total + bytes_of taken = total_bytes e ->
  let e' := settle_bucket e key order b' total in
  route_wf B e' /\ policy e' = policy e /\
  (queued e' + length taken = queued e)%nat /\
  (forall q, queue_of e q = (if bool_decide (q = key) then taken else []) ++ queue_of e' q).
Proof.
  intros Hwf Ho Hk Hq Hb Hh Ht e'.
  pose proof (rw_bucket B e Hwf key b Hk) as [Hbb _ Hcap]. rewrite Hq in Hbb, Hcap.
  rewrite bytes_of_app in Hbb. rewrite length_app in Hcap.
  assert (Hkey : queue_of e key = taken ++ queue b') by (unfold queue_of; by rewrite Hk).
  unfold e', settle_bucket. destruct (queue b') as [|m rest] eqn:Hq'.
  - change (bytes_of []) with 0 in Hbb.
    assert (total = total_bytes e - q_bytes b) as -> by lia.
    split_and!; [by apply route_wf_remove|done| |].
    + rewrite <- (queued_remove e (set_queues e (delete key (fanout e)) order (total_bytes e - q_bytes b))
        key b Hk eq_refl). by rewrite Hq, app_nil_r.
    + intros q. rewrite queue_of_delete. case_bool_decide; [by subst|done].
  - assert (total = total_bytes e - (q_bytes b - q_bytes b')) as -> by lia. split_and!; try done.
    + apply (route_wf_shrink B e key b); [done|done| |lia| |].
      * split; rewrite ?Hq'; [done|done|lia].
      * pose proof (rw_nodup B e Hwf) as Hnd. rewrite Ho in Hnd. by rewrite <- Permutation_cons_append.
      * intros x. rewrite Ho. set_solver.
    + pose proof (queued_replace e (set_queues e (<[key := b']> (fanout e)) (order ++ [key])
        (total_bytes e - (q_bytes b - q_bytes b'))) key b b' Hk eq_refl) as Hn.
      rewrite Hq, Hq', length_app in Hn. lia.
    + intros q. rewrite queue_of_insert. case_bool_decide; [subst; by rewrite Hq'|done].
Qed.

Lemma visit_one_effect B budget clock quantum e0 st log :
  budget < USIZE_MAX -> drained B budget e0 st log ->
  exists log', drained B budget e0 (visit_one clock budget quantum st) log' /\
    (length (ds_out st) <= length (ds_out (visit_one clock budget quantum st)))%nat /\
    (ds_progress (visit_one clock budget quantum st) = true ->
     ds_progress st = true \/
     (length (ds_out st) < length (ds_out (visit_one clock budget quantum st)))%nat).
Proof.
  intros HB Hd. pose proof Hd as [Hwf Hout Hqueue Hserved Hbud Hpol Hcount].
  unfold visit_one. destruct (principal_order (ds_entry st)) as [|key order] eqn:Ho; [exists log; auto|].
  assert (is_Some (fanout (ds_entry st) !! key)) as [b Hk] by (apply (rw_dom B _ Hwf); rewrite Ho; left).
  rewrite Hk. cbv zeta. pose proof (rw_bucket B _ Hwf key b Hk) as [Hbb Hbh _].
  set (b0 := MkPrincipalQueue (queue b) _ _ _).
  pose proof (serve_effect clock budget (queue b0) b0 (total_bytes (ds_entry st)) (ds_served st) (ds_out st) false
    eq_refl Hbb Hbh) as Hs. cbn [queue q_bytes b0] in Hs.
  destruct (serve _ _ _ _ _ _ _ _) as [[[[b' total'] served'] out'] progress'].
  destruct Hs as (taken & Hq & -> & -> & Hle & Ht & Hb' & Hh' & ->); [|done|done|].
  { rewrite (rw_total B _ Hwf), (sum_bytes_delete _ key b Hk). lia. }
  fold (settle_bucket (ds_entry st) key order b' total').
  destruct (settle_bucket_effect B _ key order b b' taken total' Hwf Ho Hk Hq Hb' Hh' Ht)
    as (Hwf' & Hpol' & Hn & Hqs).
  exists (log ++ ((fun m => (key, m)) <$> taken)). cbn [ds_out ds_progress ds_entry ds_served].
  split_and!.
  - split; cbn [ds_out ds_progress ds_entry ds_served]; try done; try congruence.
    + rewrite fmap_app, Hout. f_equal. rewrite <- list_fmap_compose. apply list_fmap_id.
    + intros k. rewrite logged_app, logged_tagged, <- app_assoc, <- Hqs. apply Hqueue.
    + rewrite bytes_of_app. lia.
    + rewrite length_app. lia.
  - rewrite length_app. lia.
  - rewrite length_app, orb_true_iff. intros [?|Hp]; [by left|right]. cbn in Hp. bool_prop.
    destruct taken; [done|]. simpl. lia.
Qed.

Lemma visits_effect B budget clock quantum e0 n st log :
  budget < USIZE_MAX -> drained B budget e0 st log ->
  exists log', drained B budget e0 (Nat.iter n (visit_one clock budget quantum) st) log' /\
    (length (ds_out st) <= length (ds_out (Nat.iter n (visit_one clock budget quantum) st)))%nat /\
    (ds_progress (Nat.iter n (visit_one clock budget quantum) st) = true ->
     ds_progress st = true \/
     (length (ds_out st) < length (ds_out (Nat.iter n (visit_one clock budget quantum) st)))%nat).
Proof.
  intros HB Hd. induction n as [|n IH]; [exists log; cbn; auto|]. destruct IH as (log1 & Hd1 & Hlen1 & Hp1).
  destruct (visit_one_effect B budget clock quantum e0 _ log1 HB Hd1) as (log2 & Hd2 & Hlen2 & Hp2).
  exists log2. change (Nat.iter (S n) ?f ?x) with (f (Nat.iter n f x)). split_and!; [done|lia|]. intros Hp. destruct (Hp2 Hp) as [Hq|]; [|right; lia].
  destruct (Hp1 Hq); [by left|right; lia].
Qed.

(** The drain loop leaves by its own exit condition. *)
Lemma drain_loop_effect B budget clock quantum e0 fuel st log :
  budget < USIZE_MAX -> drained B budget e0 st log -> (queued (ds_entry st) < fuel)%nat ->
  exists log', drained B budget e0 (drain_loop fuel clock budget quantum st) log' /\
    (ds_progress (drain_loop fuel clock budget quantum st) = false \/
     budget <= ds_served (drain_loop fuel clock budget quantum st)).
Proof.
  intros HB. revert st log; induction fuel as [|fuel IH]; intros st log Hd Hf; [lia|]. cbn [drain_loop].
  unfold visit_round. set (st0 := MkDrainState _ _ _ false).
  assert (Hd0 : drained B budget e0 st0 log) by (by destruct Hd).
  set (n := length (principal_order (ds_entry st))).
  destruct (visits_effect B budget clock quantum e0 n st0 log HB Hd0) as (log1 & Hd1 & Hlen & Hp).
  set (st1 := Nat.iter n _ st0) in *.
  destruct (ds_progress st1) eqn:Hpr; cbn [negb orb]; [|exists log1; auto].
  destruct (N.leb_spec budget (ds_served st1)); [exists log1; auto|].
  apply (IH st1 log1 Hd1). destruct (Hp eq_refl) as [[=]|Hlt].
  pose proof (dr_count _ _ _ _ _ Hd0). pose proof (dr_count _ _ _ _ _ Hd1). cbn in *. lia.
Qed.

Lemma drr_drain_effect B budget clock e :
  budget < USIZE_MAX -> route_wf B e ->
  let '(e', served, out) := drr_drain clock budget e in
  exists log, log.*2 = out /\ route_wf B e' /\ policy e' = policy e /\
    (forall k, queue_of e k = logged k log ++ queue_of e' k) /\
    served = bytes_of out /\ served <= budget.
Proof.
  intros HB Hwf. unfold drr_drain.
  destruct (bool_decide (fanout e = ∅) || (budget =? 0)).
  { exists []. split_and!; try done. lia. }
  assert (Hd : drained B budget e (MkDrainState e 0 [] false) []).
  { split; cbn; done || lia. }
  destruct (drain_loop_effect B budget clock (drain_quantum e budget) e (S (queued e)) _ [] HB Hd ltac:(cbn; lia))
    as (log & [Hwf' Hout Hq Hs Hle Hpol _] & _).
  exists log. by split_and!.
Qed.

Lemma pop_loop_effect B n now e :
  route_wf B e -> length (principal_order e) = n ->
  let '(e', r) := pop_loop n now e in
  route_wf B e' /\ policy e' = policy e /\
  (exists k, forall q, queue_of e q = (if bool_decide (q = k) then option_list r else []) ++ queue_of e' q) /\
  (r = None -> forall q, queue_of e q = []).
Proof.
  revert e; induction n as [|n IH]; intros e Hwf Hlen; cbn [pop_loop].
  { split_and!; try done; [exists None; intros q; by case_bool_decide|]. intros _ q. unfold queue_of.
    destruct (fanout e !! q) eqn:Hq; [|done]. assert (q ∈ principal_order e) as Hin
      by (apply (rw_dom B e Hwf); by eexists).
    apply nil_length_inv in Hlen. rewrite Hlen in Hin. by apply elem_of_nil in Hin. }
  destruct (principal_order e) as [|key order] eqn:Ho; [done|].
  assert (is_Some (fanout e !! key)) as [b Hk] by (apply (rw_dom B _ Hwf); rewrite Ho; left).
  rewrite Hk. pose proof (rw_bucket B _ Hwf key b Hk) as Hbw. destruct (queue b) as [|m rest] eqn:Hq.
  - pose proof (bw_bytes b Hbw) as Hb0. rewrite Hq in Hb0. change (bytes_of []) with 0 in Hb0.
    set (e1 := set_queues e (delete key (fanout e)) order (total_bytes e)).
    assert (Hwf1 : route_wf B e1).
    { unfold e1. replace (total_bytes e) with (total_bytes e - q_bytes b) by lia. by apply route_wf_remove. }
    specialize (IH e1 Hwf1 ltac:(cbn in *; lia)). destruct (pop_loop n now e1) as [e' r].
    destruct IH as (Hwf' & Hpol & [k Hr] & Hnone).
    assert (Hsame : forall q, queue_of e q = queue_of e1 q).
    { intros q. unfold e1. rewrite queue_of_delete. case_bool_decide; [subst|done].
      unfold queue_of. by rewrite Hk. }
    split_and!; try done; [exists k|]; intros; rewrite Hsame; auto.
  - pose proof (pop_bucket_wf b m rest now Hq Hbw) as Hw.
    assert (Hle : ipc_size_of m <= total_bytes e).
    { rewrite (rw_total B _ Hwf), (sum_bytes_delete _ key b Hk), (bw_bytes b Hbw), Hq. cbn. lia. }
    destruct (settle_bucket_effect B e key order b (pop_bucket b m rest now) [m]
      (sat_sub (total_bytes e) (ipc_size_of m)) Hwf Ho Hk) as (Hwf' & Hpol & _ & Hqs).
    + by rewrite Hq.
    + apply (bw_bytes _ Hw).
    + apply (bw_head _ Hw).
    + unfold bytes_of, sat_sub. simpl. lia.
    + change (match rest with [] => _ | _ => _ end) with
        (settle_bucket e key order (pop_bucket b m rest now) (sat_sub (total_bytes e) (ipc_size_of m))).
      split_and!; try done. by exists key.
Qed.

(** ** Lemmas on topic patterns *)

Lemma split_on_app c a b : split_on c (String.append a (String c b)) = split_on c a ++ split_on c b.
Proof.
  induction a as [|x a IH]; simpl; [by rewrite Ascii.eqb_refl|].
  rewrite IH. destruct (Ascii.eqb x c); [done|].
  destruct (split_on c a) as [|h t] eqn:Ha; [by apply split_on_not_nil in Ha|done].
Qed.

Lemma split_on_single c s x : split_on c s = [x] -> s = x.
Proof.
  revert x; induction s as [|a s IH]; intros x; simpl; [by intros [= <-]|].
  destruct (Ascii.eqb a c).
  - intros [= _ Hs]. by apply split_on_not_nil in Hs.
  - destruct (split_on c s) as [|h t] eqn:Hs; [by apply split_on_not_nil in Hs|].
    intros [= <- ->]. by rewrite (IH h eq_refl).
Qed.

Lemma split_on_last c s l x :
  split_on c s = l ++ [x] -> l <> [] -> exists r, s = String.append r (String c x).
Proof.
  revert l; induction s as [|a s IH]; intros l; simpl.
  { intros Hl Hne. destruct l as [|y [|]]; [done|done|done]. }
  destruct (Ascii.eqb a c) eqn:Hac.
  - apply Ascii.eqb_eq in Hac as ->. destruct l as [|y l]; [done|]. intros [= <- Hs] _.
    destruct l as [|z l]; [apply split_on_single in Hs as ->; by exists EmptyString|].
    destruct (IH _ Hs) as [r ->]; [done|]. by exists (String c r).
  - destruct (split_on c s) as [|h t] eqn:Hs; [by apply split_on_not_nil in Hs|].
    destruct l as [|y l]; [done|]. intros [= <- Ht] _. subst t.
    destruct (IH (h :: l) eq_refl) as [r ->]; [done|]. by exists (String a r).
Qed.

Lemma segments_suffix pattern pre :
  strip_suffix ".*" pattern = Some pre -> segments pattern = segments pre ++ ["*"].
Proof.
  intros ->%strip_suffix_Some. unfold segments. change ".*" with (String "." "*"). by rewrite split_on_app.
Qed.

Lemma segments_no_suffix pattern l :
  strip_suffix ".*" pattern = None -> segments pattern = l ++ ["*"] -> l = [].
Proof.
  intros Hn Hs. destruct l as [|x l]; [done|]. apply split_on_last in Hs as [r Hr]; [|done].
  apply (strip_suffix_Some ".*" pattern r) in Hr. congruence.
Qed.

Lemma segments_length s : (0 < length (segments s))%nat.
Proof. unfold segments. destruct (split_on _ s) eqn:H; [by apply split_on_not_nil in H|simpl; lia]. Qed.

Lemma zip_all_spec ps ts :
  zip_all ps ts = true <-> forall i p t, ps !! i = Some p -> ts !! i = Some t -> p = "*" \/ p = t.
Proof.
  revert ts; induction ps as [|p ps IH]; intros [|t ts]; cbn [zip_all]; try (split; [done|done]).
  rewrite andb_true_iff, orb_true_iff, !bool_decide_eq_true, IH. split.
  - intros [H1 H2] [|i] p' t'; cbn; [by intros [= <-] [= <-]|apply H2].
  - intros Hall. split; [by apply (Hall 0%nat)|]. intros i. by apply (Hall (S i)).
Qed.

(** What a pattern requires of a topic's segments. *)
Definition covers (pattern : string) (ts : list string) : Prop :=
  match strip_suffix ".*" pattern with
  | Some pre => (length (segments pre) < length ts)%nat /\ zip_all (segments pre) ts = true
  | None => length (segments pattern) = length ts /\ zip_all (segments pattern) ts = true
  end.

Lemma topic_pattern_covers pattern topic :
  topic_pattern_matches pattern topic = true <->
  (length (segments topic) <= MAX_TOPIC_DEPTH)%nat /\ covers pattern (segments topic).
Proof.
  unfold topic_pattern_matches, covers.
  destruct (Nat.ltb_spec MAX_TOPIC_DEPTH (length (segments topic))); [split; [done|lia]|].
  destruct (strip_suffix ".*" pattern); rewrite andb_true_iff, ?Nat.ltb_lt, ?Nat.eqb_eq; naive_solver.
Qed.

Lemma zip_all_trans ps ss ts :
  (length ps <= length ss)%nat -> (length ps <= length ts)%nat ->
  zip_all ps ss = true -> zip_all (take (length ps) ss) ts = true -> zip_all ps ts = true.
Proof.
  rewrite !zip_all_spec. intros Hl Hl' H1 H2 i p t Hp Ht.
  pose proof (lookup_lt_Some _ _ _ Hp) as Hi.
  destruct (lookup_lt_is_Some_2 ss i ltac:(lia)) as [s Hs].
  destruct (H1 i p s Hp Hs) as [?| ->]; [by left|].
  apply (H2 i s t); [|done]. by rewrite lookup_take_lt.
Qed.

Lemma zip_all_take n ss ts : zip_all ss ts = true -> zip_all (take n ss) ts = true.
Proof.
  rewrite !zip_all_spec. intros Hall i p t Hp. apply (Hall i p t).
  apply lookup_take_Some in Hp as [? _]. done.
Qed.

Lemma covers_trans p s ts :
  covers p (segments s) -> covers s ts -> covers p ts.
Proof.
  unfold covers. destruct (strip_suffix ".*" s) as [pre_s|] eqn:Hs.
  - rewrite (segments_suffix _ _ Hs). rewrite length_app. simpl.
    destruct (strip_suffix ".*" p) as [pre_p|] eqn:Hp; intros [Hl Hz] [Hl' Hz'].
    + split; [lia|]. apply (zip_all_trans _ (segments pre_s ++ ["*"])); [rewrite length_app; simpl; lia|lia|done|].
      rewrite take_app_le by lia. by apply zip_all_take.
    + exfalso. pose proof (segments_length pre_s) as Hpos.
      destruct (exists_last (l := segments p)) as (l & x & Hx); [intros E; rewrite E in Hl; simpl in Hl; lia|].
      rewrite Hx, length_app in Hl. simpl in Hl.
      assert (x = "*") as ->.
      { rewrite zip_all_spec in Hz. destruct (Hz (length l) x "*") as [?|?]; try done.
        - by rewrite Hx, list_lookup_middle.
        - replace (length l) with (length (segments pre_s)) by lia. by rewrite list_lookup_middle. }
      apply segments_no_suffix in Hx; [|done]. subst l. simpl in Hl. lia.
  - destruct (strip_suffix ".*" p) as [pre_p|] eqn:Hp; intros [Hl Hz] [Hl' Hz']; (split; [lia|]);
      (apply (zip_all_trans _ (segments s)); [lia|lia|done|by apply zip_all_take]).
Qed.

(** ** A route's life *)

Section Runs.
Context `{Uuids} (iter : gmap PrincipalKey PrincipalQueue -> list (PrincipalKey * PrincipalQueue)).

Inductive route_op : Type :=
| OpDispatch (clock : nat -> N) (event : AstridEvent)
| OpDrain (clock : nat -> N) (budget : N)
| OpPop (now : N)
| OpPublish
| OpRetire.

(** One step: the entry afterwards and what it delivered. *)
Definition route_step (e : RouteEntry) (op : route_op) : RouteEntry * list AstridEvent :=
  match op with
  | OpDispatch clock event => (dispatch_to_route iter clock event e, [])
  | OpDrain clock budget => let '(e, _, out) := drr_drain clock budget e in (e, out)
  | OpPop now => let '(e, r) := drr_pop_one now e in (e, option_list r)
  | OpPublish => (with_gate e (publish (re_gate e)), [])
  | OpRetire => (with_gate e (retire (re_gate e)), [])
  end.

Fixpoint route_run (e : RouteEntry) (ops : list route_op) : RouteEntry * list AstridEvent :=
  match ops with
  | [] => (e, [])
  | op :: ops =>
      let '(e, out) := route_step e op in
      let '(e, out') := route_run e ops in
      (e, out ++ out')
  end.

Definition op_ok (op : route_op) : Prop :=
  match op with OpDrain _ budget => budget < USIZE_MAX | _ => True end.

Definition fresh_route (e : RouteEntry) : Prop :=
  fanout e = ∅ /\ principal_order e = [] /\ total_bytes e = 0.

(** An event this subscription may hold in bucket [k]: published by [k] on a
    matching topic and admitted by the route's scope, receipt and owner
    rules. *)
Definition deliverable (e : RouteEntry) (k : PrincipalKey) (event : AstridEvent) : Prop :=
  exists message, event = Ipc message /\ msg_principal message = k /\
    topic_pattern_matches (re_matcher e) (msg_topic message) = true /\
    scope_accepts (re_scope e) k = true /\
    (forall owner, re_receipt_publisher e = Some owner -> visible_to message owner = true) /\
    (forall owner, re_request_owner e = Some owner -> msg_request_owner message = Some owner).

Definition holds_deliverable (e : RouteEntry) : Prop :=
  forall k m, m ∈ queue_of e k -> deliverable e k m.

Context (iter_entries : forall f, iter f ≡ₚ map_to_list f).

Lemma accepts_deliverable e message :
  accepts_event e (msg_principal message) (Ipc message) = true ->
  matches (re_matcher e) (Ipc message) = true -> deliverable e (msg_principal message) (Ipc message).
Proof.
  unfold accepts_event, accepts. intros Ha Hm. exists message.
  destruct (is_published (re_gate e)); cbn [negb] in Ha; [|done].
  destruct (scope_accepts (re_scope e) (msg_principal message)) eqn:Hs; cbn [negb] in Ha; [|done].
  split_and!; try done.
  - intros owner Ho. rewrite Ho in Ha. by destruct (visible_to message owner).
  - intros owner Ho. rewrite Ho in Ha. case_match; [done|]. by bool_prop.
Qed.

Lemma deliverable_policy e e' k m :
  re_matcher e' = re_matcher e -> re_scope e' = re_scope e -> re_request_owner e' = re_request_owner e ->
  re_receipt_publisher e' = re_receipt_publisher e -> deliverable e k m -> deliverable e' k m.
Proof. unfold deliverable. by intros -> -> -> ->. Qed.

(** The effect of a push on the queues. *)
Lemma push_effect B clock event p e :
  route_wf B e -> B < USIZE_MAX ->
  let '(e', _) := push_with_eviction iter clock event p B e in
  route_wf B e' /\ policy e' = policy e /\
  if accepts_event e p event && (ipc_size_of event <=? B)
  then (forall q, exists dropped,
         queue_of e q ++ (if bool_decide (q = p) then [event] else []) = dropped ++ queue_of e' q) /\
       (exists before, queue_of e' p = before ++ [event])
  else e' = e.
Proof.
  intros Hwf HB. unfold push_with_eviction. destruct (accepts_event e p event); cbn [negb andb]; [|done].
  destruct (N.ltb_spec B (ipc_size_of event)) as [Hbig|Hfit].
  { rewrite (proj2 (N.leb_gt _ _)) by done. done. }
  rewrite (proj2 (N.leb_le _ _)) by done.
  destruct (evict_loop_effect iter iter_entries B (S (queued e)) clock (ipc_size_of event) e 0 Hwf HB Hfit ltac:(lia))
    as (e1 & k & -> & Hwf1 & Hsp & _ & Hpol & Hd).
  destruct (enqueue_effect B clock k event p e1 Hwf1 HB Hsp) as (Hwf2 & Hpol2 & _ & Hq & Hlast).
  split_and!; [done|congruence| |done]. intros q. destruct (Hd q) as [d1 ->], (Hq q) as [d2 E].
  exists (d1 ++ d2). by rewrite <- !app_assoc, E.
Qed.

Lemma policy_deliverable e e' k m : policy e' = policy e -> deliverable e k m -> deliverable e' k m.
Proof. intros [= H1 H2 H3 H4 _]. by apply deliverable_policy. Qed.

(** A step that only removes admitted events, or adds an admitted one. *)
Definition step_ok (e e' : RouteEntry) (out : list AstridEvent) : Prop :=
  holds_deliverable e' /\ (forall k m, deliverable e' k m <-> deliverable e k m) /\
  (forall m, m ∈ out -> exists k, deliverable e k m).

Lemma step_ok_intro e e' out :
  policy e' = policy e -> (forall k m, m ∈ queue_of e' k -> deliverable e k m) ->
  (forall m, m ∈ out -> exists k, deliverable e k m) -> step_ok e e' out.
Proof.
  intros Hp Hq Ho. split_and!; [| |done].
  - intros k m Hm. apply (policy_deliverable e); auto.
  - intros k m. split; by apply policy_deliverable.
Qed.

Lemma dispatch_step_ok B clock event e :
  B = MAX_SUBSCRIPTION_BUDGET_BYTES -> route_wf B e -> holds_deliverable e ->
  route_wf B (dispatch_to_route iter clock event e) /\ step_ok e (dispatch_to_route iter clock event e) [].
Proof.
  intros HB Hwf Hh. assert (Hid : route_wf B e /\ step_ok e e []).
  { split; [done|]. apply step_ok_intro; [done|exact Hh|set_solver]. }
  destruct event as [message|tag]; cbn [dispatch_to_route]; [|done].
  destruct (accepts_event e (msg_principal message) (Ipc message)) eqn:Ha; cbn [negb andb]; [|done].
  destruct (matches (re_matcher e) (Ipc message)) eqn:Hm; [|done].
  rewrite <- HB. pose proof (push_effect B clock (Ipc message) (msg_principal message) e Hwf) as Hp.
  destruct (push_with_eviction iter clock (Ipc message) (msg_principal message) B e) as [e' n]. cbn [fst].
  destruct Hp as (Hwf' & Hpol & Hq); [by rewrite HB|]. rewrite Ha in Hq. cbn [andb] in Hq.
  split; [done|]. apply step_ok_intro; [done| |set_solver].
  intros k m Hin. case_match; [|subst; by apply Hh]. destruct Hq as [Hq _]. destruct (Hq k) as [d Hd].
  assert (m ∈ queue_of e k ++ (if bool_decide (k = msg_principal message) then [Ipc message] else [])) as Hin'
    by (rewrite Hd; apply elem_of_app; by right).
  apply elem_of_app in Hin' as [?|Hin']; [by apply Hh|]. case_bool_decide; [subst|set_solver].
  apply list_elem_of_singleton in Hin' as ->. by apply accepts_deliverable.
Qed.

Lemma route_step_inv B e op :
  B = MAX_SUBSCRIPTION_BUDGET_BYTES -> op_ok op -> route_wf B e -> holds_deliverable e ->
  let '(e', out) := route_step e op in route_wf B e' /\ step_ok e e' out.
Proof.
  intros HB Hok Hwf Hh. destruct op as [clock event|clock budget|now| |]; cbn [route_step].
  - by apply dispatch_step_ok.
  - pose proof (drr_drain_effect B budget clock e Hok Hwf) as Hd.
    destruct (drr_drain clock budget e) as [[e' served] out].
    destruct Hd as (log & Hout & Hwf' & Hpol & Hq & _). split; [done|]. apply step_ok_intro; [done| |].
    + intros k m Hin. apply Hh. rewrite Hq. apply elem_of_app. by right.
    + intros m Hin. subst out. apply list_elem_of_fmap in Hin as ([k m'] & -> & Hin).
      exists k. apply Hh. rewrite Hq. apply elem_of_app. left. unfold logged.
      apply list_elem_of_fmap. exists (k, m'). split; [done|]. by apply list_elem_of_filter.
  - unfold drr_pop_one. pose proof (pop_loop_effect B _ now e Hwf eq_refl) as Hd.
    destruct (pop_loop _ now e) as [e' r]. destruct Hd as (Hwf' & Hpol & [key Hq] & _).
    split; [done|]. apply step_ok_intro; [done| |].
    + intros k m Hin. apply Hh. rewrite Hq. apply elem_of_app. by right.
    + intros m Hin. exists key. apply Hh. rewrite Hq, bool_decide_true by done. apply elem_of_app. by left.
  - split; [by destruct Hwf|]. split_and!; [exact Hh|done|set_solver].
  - split; [by destruct Hwf|]. split_and!; [exact Hh|done|set_solver].
Qed.

Lemma route_run_inv B e ops :
  B = MAX_SUBSCRIPTION_BUDGET_BYTES -> Forall op_ok ops -> route_wf B e -> holds_deliverable e ->
  let '(e', out) := route_run e ops in route_wf B e' /\ step_ok e e' out.
Proof.
  intros HB Hall. revert e; induction Hall as [|op ops Hok _ IH]; intros e Hwf Hh; cbn [route_run].
  { split; [done|]. split_and!; [done|done|set_solver]. }
  pose proof (route_step_inv B e op HB Hok Hwf Hh) as Hs. destruct (route_step e op) as [e1 out1].
  destruct Hs as (Hwf1 & Hh1 & Hd1 & Ho1). specialize (IH e1 Hwf1 Hh1).
  destruct (route_run e1 ops) as [e2 out2]. destruct IH as (Hwf2 & Hh2 & Hd2 & Ho2).
  split; [done|]. split_and!; [done| |].
  - intros k m. by rewrite Hd2, Hd1.
  - intros m [Hm|Hm]%elem_of_app; [by apply Ho1|]. destruct (Ho2 m Hm) as [k Hk]. exists k. by apply Hd1.
Qed.

Lemma fresh_route_wf B e : fresh_route e -> route_wf B e /\ holds_deliverable e.
Proof.
  intros (Hf & Ho & Ht). split.
  - split; rewrite ?Ho, ?Hf, ?Ht; [apply NoDup_nil_2| |by intros|done|lia].
    intros k. rewrite lookup_empty. split; [by intros ?%elem_of_nil|by intros []].
  - intros k m. unfold queue_of. rewrite Hf, lookup_empty. cbn. by intros ?%elem_of_nil.
Qed.

End Runs.

(** ** Properties *)

(** authorizing a subscription pattern is sound.  If an access-list
    pattern matches a requested pattern, taken as a topic, then it matches
    every topic the requested pattern matches: no subscription receives, and
    no publisher reaches, a topic outside its access list. *)
Theorem acl_pattern_sound : forall acl requested topic,
  topic_pattern_matches acl requested = true -> topic_pattern_matches requested topic = true ->
  topic_pattern_matches acl topic = true.
Proof.
  intros acl requested topic. rewrite !topic_pattern_covers. intros [_ H1] [Hd H2].
  split; [done|]. by apply (covers_trans acl requested).
Qed.

(** C35: isolation of a routed subscription.  Over any life of a route,
    whatever is dispatched, drained, popped, published and retired, and
    whichever order its hash map iterates in, its byte accounting stays exact
    and within the one-MiB budget with every bucket within its message cap
    and in the rotation exactly once, and everything it holds or delivers was
    published on a matching topic by a principal its scope admits, with the
    required request owner, and is no other publisher's receipt. *)
Theorem route_isolation `{Uuids} :
  forall iter (e : RouteEntry) ops,
  (forall f, iter f ≡ₚ map_to_list f) -> fresh_route e -> Forall op_ok ops ->
  let '(e', out) := route_run iter e ops in
  route_wf MAX_SUBSCRIPTION_BUDGET_BYTES e' /\
  (forall k m, m ∈ queue_of e' k -> deliverable e k m) /\
  (forall m, m ∈ out -> exists k, deliverable e k m).
Proof.
  intros iter e ops Hiter Hf Hall. destruct (fresh_route_wf MAX_SUBSCRIPTION_BUDGET_BYTES e Hf) as [Hwf Hh].
  pose proof (route_run_inv iter Hiter _ e ops eq_refl Hall Hwf Hh) as Hr.
  destruct (route_run iter e ops) as [e' out]. destruct Hr as (Hwf' & Hh' & Hd & Ho).
  split_and!; [done| |done]. intros k m Hm. apply Hd. by apply Hh'.
Qed.

(** what each queue operation does to the queues.  A push that is not
    admitted, or is bigger than the budget, changes nothing; any other push
    always takes the new event, at the end of its principal's queue, and
    drops messages only from the heads of queues.  A drain delivers messages
    from the heads of the queues, each principal's in order, within its byte
    budget, losing and duplicating none.  A single pop delivers the head of
    some queue, and delivers nothing only when all queues are empty. *)
Theorem route_queues_exact `{Uuids} :
  forall iter B (e : RouteEntry),
  (forall f, iter f ≡ₚ map_to_list f) -> route_wf B e -> B < USIZE_MAX ->
  (forall clock event p,
     let e' := (push_with_eviction iter clock event p B e).1 in
     if accepts_event e p event && (ipc_size_of event <=? B)
     then (forall q, exists dropped,
            queue_of e q ++ (if bool_decide (q = p) then [event] else []) = dropped ++ queue_of e' q) /\
          (exists before, queue_of e' p = before ++ [event])
     else e' = e) /\
  (forall clock budget, budget < USIZE_MAX ->
     let '(e', served, out) := drr_drain clock budget e in
     exists log, log.*2 = out /\ (forall k, queue_of e k = logged k log ++ queue_of e' k) /\
       served = bytes_of out /\ served <= budget) /\
  (forall now,
     let '(e', r) := drr_pop_one now e in
     (exists k, forall q, queue_of e q = (if bool_decide (q = k) then option_list r else []) ++ queue_of e' q) /\
     (r = None -> forall q, queue_of e q = [])).
Proof.
  intros iter B e Hiter Hwf HB. split_and!.
  - intros clock event p. pose proof (push_effect iter Hiter B clock event p e Hwf HB) as Hp. cbv zeta.
    destruct (push_with_eviction iter clock event p B e) as [e' n]. apply Hp.
  - intros clock budget Hb. pose proof (drr_drain_effect B budget clock e Hb Hwf) as Hd.
    destruct (drr_drain clock budget e) as [[e' served] out].
    destruct Hd as (log & ? & _ & _ & ? & ? & ?). by exists log.
  - intros now. unfold drr_pop_one. pose proof (pop_loop_effect B _ now e Hwf eq_refl) as Hd.
    destruct (pop_loop _ now e) as [e' r]. by destruct Hd as (_ & _ & ? & ?).
Qed.

(** ** Concrete instances *)

Lemma acl_pattern_sound_witness : topic_pattern_matches "agent.*" "agent.v1.stream.delta" = true.
Proof.
  refine (acl_pattern_sound "agent.*" "agent.v1.*" "agent.v1.stream.delta" _ _); vm_compute; reflexivity.
Defined.

#[local] Instance plain_uuids : Uuids := {| uuid_simple _ := "0"; uuid_parse _ := None |}.

Definition agent_route : RouteEntry := RouteEntry_new "agent.v1.*" (Some (Some "alice")).
Definition agent_event : AstridEvent := Ipc (MkIpcMessage "agent.v1.response" (Some 40) 7 (Some "alice") None).
Definition agent_ops : list route_op :=
  [OpDispatch (fun _ => 1) agent_event; OpDispatch (fun _ => 2) agent_event; OpPop 3;
   OpDrain (fun _ => 4) 4096; OpRetire].

Lemma route_isolation_witness :
  (route_run map_to_list agent_route agent_ops).2 = [agent_event; agent_event] /\
  forall m, m ∈ (route_run map_to_list agent_route agent_ops).2 -> exists k, deliverable agent_route k m.
Proof.
  split; [vm_compute; reflexivity|].
  pose proof (route_isolation map_to_list agent_route agent_ops) as Hr.
  destruct (route_run map_to_list agent_route agent_ops) as [e' out].
  refine (proj2 (proj2 (Hr _ _ _))).
  - intros f. reflexivity.
  - split_and!; reflexivity.
  - repeat constructor; simpl; unfold USIZE_MAX, U64_MAX; lia.
Defined.

Lemma route_queues_exact_witness :
  (drr_pop_one 5 agent_route).2 = None /\ forall q, queue_of agent_route q = [].
Proof.
  split; [vm_compute; reflexivity|].
  assert (Hwf : route_wf 4096 agent_route) by (apply fresh_route_wf; split_and!; reflexivity).
  pose proof (proj2 (proj2 (route_queues_exact map_to_list 4096 agent_route (fun f => reflexivity _) Hwf
    eq_refl)) 5) as Hp.
  exact (proj2 Hp eq_refl).
Defined.
