(* ===== verification/Toposort.v ===== *)
(** * Capsule load order

    [crates/astrid-capsule/src/toposort.rs]: Kahn's algorithm over the graph
    of interface imports and exports.

    A manifest's import and export tables are the lists of tuples their
    iterators yield, in any order.  Semantic-version matching is the argument
    [req_matches].  The loop over the queue runs on fuel, one round per
    capsule and one more to see the queue empty; [toposort_decides] shows
    that this is enough.  Warnings about unsatisfied imports are omitted. *)

From S2P Require Import Prelude.
From stdpp Require Import relations.
Local Open Scope string_scope.
Local Open Scope list_scope.

Section Manifests.
Context {Req Ver Path : Type} (req_matches : Req -> Ver -> bool).

Record import_tuple : Type := MkImport {
  imp_ns : string;
  imp_name : string;
  imp_req : Req;
  imp_optional : bool;
}.
Record export_triple : Type := MkExport {
  exp_ns : string;
  exp_name : string;
  exp_ver : Ver;
}.
Record CapsuleManifest : Type := MkCapsuleManifest {
  package_name : string;
  import_tuples : list import_tuple;
  export_triples : list export_triple;
}.

Definition ManifestEntry : Type := CapsuleManifest * Path.

Record CycleError : Type := MkCycleError { cycle : list string }.

Definition import_satisfied_by (i : import_tuple) (e : export_triple) : bool :=
  bool_decide (imp_ns i = exp_ns e) && bool_decide (imp_name i = exp_name e)
    && req_matches (imp_req i) (exp_ver e).

(** The providers of one import, skipping the importer itself. *)
Definition providers (all_exports : list (list export_triple)) (idx : nat) (i : import_tuple) : list nat :=
  omap (fun '(prov_idx, exports) =>
    if (prov_idx =? idx)%nat then None
    else if existsb (import_satisfied_by i) exports then Some prov_idx else None)
    (imap pair all_exports).

(** The edges the build loop adds, in its order: provider, importer. *)
Definition edge_list (manifests : list ManifestEntry) : list (nat * nat) :=
  let all_exports := (fun e => export_triples e.1) <$> manifests in
  mjoin (imap (fun idx entry =>
    mjoin ((fun i => (fun prov_idx => (prov_idx, idx)) <$> providers all_exports idx i)
      <$> import_tuples entry.1)) manifests).

End Manifests.
Arguments import_tuple Req : clear implicits.
Arguments export_triple Ver : clear implicits.
Arguments CapsuleManifest Req Ver : clear implicits.
Arguments ManifestEntry Req Ver Path : clear implicits.

(** [dependents[prov].push(idx); in_degree[idx] += 1]. *)
Definition add_edge (st : list (list nat) * list nat) (e : nat * nat) : list (list nat) * list nat :=
  (alter (fun l => l ++ [e.2]) e.1 st.1, alter S e.2 st.2).

(** The loop over the dependents of a placed node. *)
Fixpoint release (ds : list nat) (in_degree queue : list nat) : list nat * list nat :=
  match ds with
  | [] => (in_degree, queue)
  | d :: ds =>
      let left := (in_degree !!! d - 1)%nat in
      release ds (<[d := left]> in_degree) (if (left =? 0)%nat then queue ++ [d] else queue)
  end.

Fixpoint kahn (fuel : nat) (dependents : list (list nat)) (queue in_degree order : list nat)
    : list nat * list nat :=
  match fuel with
  | O => (order, in_degree)
  | S fuel =>
      match queue with
      | [] => (order, in_degree)
      | idx :: queue =>
          let '(in_degree, queue) := release (dependents !!! idx) in_degree queue in
          kahn fuel dependents queue in_degree (order ++ [idx])
      end
  end.

(** The indices whose entry passes a test, ascending. *)
Definition indices_where (f : nat -> bool) (l : list nat) : list nat :=
  omap (fun '(i, d) => if f d then Some i else None) (imap pair l).

Definition toposort_manifests {Req Ver Path} (req_matches : Req -> Ver -> bool)
    (manifests : list (ManifestEntry Req Ver Path))
    : result (list (ManifestEntry Req Ver Path)) (CycleError * list (ManifestEntry Req Ver Path)) :=
  if (length manifests <=? 1)%nat then Ok manifests
  else
    let len := length manifests in
    let '(dependents, in_degree) :=
      List.fold_left add_edge (edge_list req_matches manifests) (replicate len [], replicate len 0%nat) in
    let queue := indices_where (fun d => (d =? 0)%nat) in_degree in
    let '(order, in_degree) := kahn (S len) dependents queue in_degree [] in
    if negb (length order =? len)%nat then
      Err (MkCycleError (omap (fun i => package_name ∘ fst <$> manifests !! i)
             (indices_where (fun d => (0 <? d)%nat) in_degree)), manifests)
    else Ok (omap (fun i => manifests !! i) order).

(** ** Specification *)

(** Capsule [i] exports something capsule [j] imports. *)
Definition must_precede {Req Ver Path} (req_matches : Req -> Ver -> bool)
    (manifests : list (ManifestEntry Req Ver Path)) (i j : nat) : Prop :=
  i <> j /\ exists mi mj imp exp,
    manifests !! i = Some mi /\ manifests !! j = Some mj /\
    imp ∈ import_tuples mj.1 /\ exp ∈ export_triples mi.1 /\
    import_satisfied_by req_matches imp exp = true.

(** ** Lemmas on the graph *)

Lemma elem_of_imap_pair {A} (l : list A) i x : (i, x) ∈ imap pair l <-> l !! i = Some x.
Proof.
  rewrite elem_of_lookup_imap. split.
  - by intros (k & y & [= <- <-] & Hl).
  - intros Hl. by exists i, x.
Qed.

Lemma elem_of_providers {Req Ver} (req_matches : Req -> Ver -> bool) all idx (imp : import_tuple Req) p :
  p ∈ providers req_matches all idx imp <->
  p <> idx /\ exists exports exp, all !! p = Some exports /\ exp ∈ exports /\
    import_satisfied_by req_matches imp exp = true.
Proof.
  unfold providers. rewrite list_elem_of_omap. split.
  - intros ([q exports] & Hin & Hq). apply elem_of_imap_pair in Hin.
    destruct (Nat.eqb_spec q idx); [done|]. destruct (existsb _ exports) eqn:He; [|done].
    injection Hq as <-. apply existsb_exists in He as (exp & Hexp%list_elem_of_In & Hs). split; [done|eauto].
  - intros (Hne & exports & exp & Hall & Hin & Hs). exists (p, exports). rewrite elem_of_imap_pair.
    split; [done|]. destruct (Nat.eqb_spec p idx); [done|].
    rewrite (proj2 (existsb_exists _ exports)); [done|]. exists exp. by rewrite <- list_elem_of_In.
Qed.

Lemma elem_of_edge_list {Req Ver Path} (req_matches : Req -> Ver -> bool)
    (manifests : list (ManifestEntry Req Ver Path)) i j :
  (i, j) ∈ edge_list req_matches manifests <-> must_precede req_matches manifests i j.
Proof.
  unfold edge_list, must_precede. rewrite list_elem_of_join. split.
  - intros (l & Hl & Hin). apply elem_of_lookup_imap in Hin as (idx & mj & -> & Hj).
    apply list_elem_of_join in Hl as (l' & Hl' & Hin). apply list_elem_of_fmap in Hin as (imp & -> & Himp).
    apply list_elem_of_fmap in Hl' as (p & [= -> ->] & Hp).
    apply elem_of_providers in Hp as (Hne & exports & exp & Hall & Hexp & Hs).
    split; [done|]. rewrite list_lookup_fmap in Hall. apply fmap_Some in Hall as (mi & Hi & ->). by exists mi, mj, imp, exp.
  - intros (Hne & mi & mj & imp & exp & Hi & Hj & Himp & Hexp & Hs).
    eexists. split; [|apply elem_of_lookup_imap; exists j, mj; split; [reflexivity|done]].
    apply list_elem_of_join. eexists. split; [|apply list_elem_of_fmap; exists imp; split; [reflexivity|done]].
    apply list_elem_of_fmap. exists i. split; [done|]. apply elem_of_providers. split; [done|].
    exists (export_triples mi.1), exp. split; [|done]. rewrite list_lookup_fmap. unfold ManifestEntry in *. by rewrite Hi.
Qed.

Definition outs (i : nat) (es : list (nat * nat)) : list nat := (filter (fun e => e.1 = i) es).*2.
Definition count_to (j : nat) (es : list (nat * nat)) : nat := length (filter (fun e => e.2 = j) es).
Definition occ (j : nat) (ds : list nat) : nat := length (filter (fun d => d = j) ds).

Lemma occ_cons j d ds : occ j (d :: ds) = ((if bool_decide (d = j) then 1 else 0) + occ j ds)%nat.
Proof.
  unfold occ. case_bool_decide; [by rewrite filter_cons_True|by rewrite filter_cons_False].
Qed.

Lemma count_to_cons j e es : count_to j (e :: es) = ((if bool_decide (e.2 = j) then 1 else 0) + count_to j es)%nat.
Proof.
  unfold count_to. case_bool_decide; [by rewrite filter_cons_True|by rewrite filter_cons_False].
Qed.

Lemma count_to_pos j es : count_to j es <> 0%nat <-> exists i, (i, j) ∈ es.
Proof.
  unfold count_to. split.
  - intros Hne. destruct (filter _ es) as [|[i k] l] eqn:Hf; [done|].
    assert ((i, k) ∈ filter (fun e => e.2 = j) es) as Hin by (rewrite Hf; left).
    apply list_elem_of_filter in Hin as [Hk Hin]. cbn in Hk. subst. eauto.
  - intros [i Hin] H0. apply nil_length_inv in H0.
    assert ((i, j) ∈ filter (fun e => e.2 = j) es) as Hf by (by apply list_elem_of_filter).
    rewrite H0 in Hf. by apply elem_of_nil in Hf.
Qed.

Lemma occ_pos j ds : occ j ds <> 0%nat <-> j ∈ ds.
Proof.
  induction ds as [|d ds IH]; [split; [done|by intros ?%elem_of_nil]|].
  rewrite occ_cons, elem_of_cons. case_bool_decide; [subst; split; [by left|lia]|]. cbn. rewrite IH. naive_solver.
Qed.

(** The adjacency and in-degree tables the build loop computes. *)
Lemma build_effect n es :
  Forall (fun e => e.1 < n /\ e.2 < n)%nat es ->
  let '(dependents, in_degree) := List.fold_left add_edge es (replicate n [], replicate n 0%nat) in
  length in_degree = n /\
  (forall i, (i < n)%nat -> dependents !! i = Some (outs i es)) /\
  (forall j, (j < n)%nat -> in_degree !! j = Some (count_to j es)).
Proof.
  induction es as [|e es IH] using rev_ind; intros Hall.
  { cbn. split_and!; [apply length_replicate| |]; intros i Hi; by rewrite lookup_replicate_2. }
  apply Forall_app in Hall as [Hes He%Forall_singleton]. rewrite fold_left_app. cbn [List.fold_left].
  specialize (IH Hes). destruct (List.fold_left add_edge es _) as [dependents in_degree].
  destruct IH as (Hlen & Hd & Hc). unfold add_edge. cbn [fst snd].
  split_and!; [by rewrite length_alter| |].
  - intros i Hi. unfold outs. rewrite filter_app, fmap_app. destruct (decide (e.1 = i)) as [<-|Hne].
    + rewrite list_lookup_alter_eq, Hd by done. cbn. by rewrite decide_True.
    + rewrite list_lookup_alter_ne, Hd by done. cbn. rewrite decide_False by done. by rewrite app_nil_r.
  - intros j Hj. unfold count_to. rewrite filter_app, length_app. destruct (decide (e.2 = j)) as [<-|Hne].
    + rewrite list_lookup_alter_eq, Hc by done. cbn. rewrite decide_True by done. cbn. unfold count_to. f_equal. lia.
    + rewrite list_lookup_alter_ne, Hc by done. cbn. rewrite decide_False by done. unfold count_to. cbn. f_equal. lia.
Qed.

(** ** Lemmas on the loop *)

Lemma release_effect n (c : nat -> nat) ds deg q :
  length deg = n -> Forall (fun d => d < n)%nat ds ->
  (forall j, (j < n)%nat -> deg !! j = Some (c j + occ j ds)%nat) ->
  let '(deg', q') := release ds deg q in
  length deg' = n /\ (forall j, (j < n)%nat -> deg' !! j = Some (c j)) /\
  exists new, q' = q ++ new /\ NoDup new /\ (forall j, j ∈ new <-> j ∈ ds /\ c j = 0%nat).
Proof.
  revert deg q; induction ds as [|d ds IH]; intros deg q Hlen Hds Hdeg; cbn [release].
  { split_and!; [done|intros j Hj; rewrite Hdeg by done; f_equal; unfold occ; cbn; lia|].
    exists []. split_and!; [by rewrite app_nil_r|apply NoDup_nil_2|set_solver]. }
  inversion Hds as [|? ? Hd Hds']; subst.
  assert (Hlook : deg !!! d = (c d + S (occ d ds))%nat).
  { apply list_lookup_total_correct. rewrite Hdeg, occ_cons, bool_decide_true by done. done. }
  cbv zeta. rewrite Hlook. replace (c d + S (occ d ds) - 1)%nat with (c d + occ d ds)%nat by lia.
  set (q1 := if (_ =? 0)%nat then _ else _).
  specialize (IH (<[d := (c d + occ d ds)%nat]> deg) q1).
  destruct (release ds _ q1) as [deg' q'].
  destruct IH as (Hl & Hc & new & Hq & Hnd & Hnew); [by rewrite length_insert|done| |].
  { intros j Hj. destruct (decide (d = j)) as [<-|Hne].
    - rewrite list_lookup_insert_eq by done. done.
    - rewrite list_lookup_insert_ne, Hdeg, occ_cons, bool_decide_false by done. done. }
  split_and!; [done|done|]. subst q'. unfold q1. destruct (Nat.eqb_spec (c d + occ d ds) 0) as [H0|H0].
  - assert (d ∉ ds) by (rewrite <- occ_pos; lia).
    exists (d :: new). split_and!; [by rewrite <- app_assoc| |].
    + constructor; [rewrite Hnew; naive_solver|done].
    + intros j. rewrite !elem_of_cons, Hnew. split; [|naive_solver].
      intros [->|?]; [split; [by left|lia]|naive_solver].
  - exists new. split_and!; [done|done|]. intros j. rewrite elem_of_cons, Hnew. split; [naive_solver|].
    intros [[->|?] Hj]; [|done]. split; [apply occ_pos; lia|done].
Qed.

(** The edges whose provider is not placed yet. *)
Definition pending (es : list (nat * nat)) (order : list nat) : list (nat * nat) :=
  filter (fun e => e.1 ∉ order) es.

Lemma pending_step es order idx j :
  idx ∉ order ->
  count_to j (pending es order) = (count_to j (pending es (order ++ [idx])) + occ j (outs idx es))%nat.
Proof.
  intros Hni. unfold pending, outs. induction es as [|e es IH]; [done|].
  rewrite !filter_cons. destruct (decide (e.1 = idx)) as [Heq|Hne].
  - rewrite (decide_True (P := e.1 ∉ order)) by (by rewrite Heq).
    rewrite (decide_False (P := e.1 ∉ order ++ [idx])) by set_solver.
    rewrite fmap_cons, occ_cons, count_to_cons, IH. lia.
  - destruct (decide (e.1 ∉ order)) as [Ho|Ho].
    + rewrite decide_True by set_solver. rewrite !count_to_cons, IH. lia.
    + rewrite decide_False by set_solver. apply IH.
Qed.

Record kahn_inv (n : nat) (es : list (nat * nat)) (order queue deg : list nat) : Prop := {
  ki_nodup : NoDup (order ++ queue);
  ki_range j : j ∈ order ++ queue -> (j < n)%nat;
  ki_len : length deg = n;
  ki_deg j : (j < n)%nat -> deg !! j = Some (count_to j (pending es order));
  ki_ready j : (j < n)%nat -> j ∈ order ++ queue <-> count_to j (pending es order) = 0%nat;
  ki_sorted l1 j l2 : order = l1 ++ j :: l2 -> forall i, (i, j) ∈ es -> i ∈ l1;
}.

Lemma kahn_step_inv n es (dependents : list (list nat)) order idx queue deg :
  Forall (fun e => e.1 < n /\ e.2 < n)%nat es ->
  (forall i, (i < n)%nat -> dependents !! i = Some (outs i es)) ->
  kahn_inv n es order (idx :: queue) deg ->
  let '(deg', queue') := release (dependents !!! idx) deg queue in
  kahn_inv n es (order ++ [idx]) queue' deg'.
Proof.
  intros Hes Hdep [Hnd Hrange Hlen Hdeg Hready Hsort].
  assert (Hidx : (idx < n)%nat) by (apply Hrange; set_solver).
  assert (Hni : idx ∉ order) by (apply NoDup_app in Hnd as (_ & Hd & _); intros Hin; apply (Hd idx Hin); left).
  rewrite (list_lookup_total_correct _ _ _ (Hdep idx Hidx)).
  assert (Hout : Forall (fun d => d < n)%nat (outs idx es)).
  { apply Forall_forall. intros d Hd. apply list_elem_of_fmap in Hd as (e & -> & Hin).
    apply list_elem_of_filter in Hin as [_ Hin]. rewrite Forall_forall in Hes. by apply Hes in Hin as [_ ?]. }
  pose proof (release_effect n (fun j => count_to j (pending es (order ++ [idx]))) (outs idx es) deg queue Hlen Hout) as Hr.
  destruct (release (outs idx es) deg queue) as [deg' queue'].
  destruct Hr as (Hlen' & Hdeg' & new & -> & Hndn & Hnew).
  { intros j Hj. rewrite Hdeg by done. f_equal. by apply pending_step. }
  assert (Hfresh : forall j, j ∈ new -> j ∉ order ++ idx :: queue).
  { intros j [Hj _]%Hnew Hin. apply Hready in Hin; [|by rewrite Forall_forall in Hout; apply Hout].
    apply occ_pos in Hj. pose proof (pending_step es order idx j Hni). lia. }
  assert (Heq : (order ++ [idx]) ++ queue ++ new = (order ++ idx :: queue) ++ new) by (by rewrite <- !app_assoc).
  split; [rewrite Heq|rewrite Heq|done|done|rewrite Heq|].
  - apply NoDup_app. split_and!; [done| |done]. intros x Hx Hn. by apply (Hfresh x).
  - intros j [?|Hj]%elem_of_app; [by apply Hrange|]. apply Hnew in Hj as [Hj _].
    rewrite Forall_forall in Hout. by apply Hout.
  - intros j Hj. rewrite elem_of_app, Hready, Hnew by done. pose proof (pending_step es order idx j Hni) as Hp.
    rewrite <- occ_pos. lia.
  - intros l1 j l2 Hl i Hi. destruct l2 as [|x l2 _] using rev_ind.
    + apply app_inj_tail in Hl as [<- <-].
      assert (count_to idx (pending es order) = 0%nat) as H0 by (apply Hready; [done|set_solver]).
      destruct (decide (i ∈ order)) as [|Hno]; [done|]. exfalso.
      apply (proj2 (count_to_pos idx (pending es order))); [|done]. exists i. by apply list_elem_of_filter.
    + rewrite app_comm_cons, app_assoc in Hl. apply app_inj_tail in Hl as [Hl _]. by apply (Hsort l1 j l2).
Qed.

Lemma kahn_effect n es (dependents : list (list nat)) fuel order queue deg :
  Forall (fun e => e.1 < n /\ e.2 < n)%nat es ->
  (forall i, (i < n)%nat -> dependents !! i = Some (outs i es)) ->
  kahn_inv n es order queue deg -> (n < fuel + length order)%nat ->
  let '(order', deg') := kahn fuel dependents queue deg order in kahn_inv n es order' [] deg'.
Proof.
  intros Hes Hdep. revert order queue deg; induction fuel as [|fuel IH]; intros order queue deg Hinv Hf; cbn [kahn].
  - exfalso. pose proof (ki_nodup _ _ _ _ _ Hinv) as Hnd. apply NoDup_app in Hnd as (Hnd & _ & _).
    pose proof (NoDup_submseteq order (seq 0 n) Hnd) as Hs.
    assert (order ⊆+ seq 0 n) as Hsub.
    { apply Hs. intros x Hx. apply elem_of_seq. split; [lia|].
      apply (ki_range _ _ _ _ _ Hinv). set_solver. }
    apply submseteq_length in Hsub. rewrite length_seq in Hsub. lia.
  - destruct queue as [|idx queue]; [done|].
    pose proof (kahn_step_inv n es dependents order idx queue deg Hes Hdep Hinv) as Hstep.
    destruct (release _ deg queue) as [deg' queue']. apply IH; [done|]. rewrite length_app. simpl. lia.
Qed.

Lemma elem_of_indices f l i : i ∈ indices_where f l <-> exists d, l !! i = Some d /\ f d = true.
Proof.
  unfold indices_where. rewrite list_elem_of_omap. split.
  - intros ([k d] & Hin & Hk). apply elem_of_imap_pair in Hin. destruct (f d) eqn:Hf; [|done].
    injection Hk as <-. eauto.
  - intros (d & Hl & Hf). exists (i, d). rewrite elem_of_imap_pair, Hf. done.
Qed.

Lemma NoDup_indices f l : NoDup (indices_where f l).
Proof.
  unfold indices_where. induction l as [|x l IH] using rev_ind; [apply NoDup_nil_2|].
  rewrite imap_app, omap_app. apply NoDup_app. split_and!; [done| |].
  - intros i Hi. assert (i < length l)%nat as Hlt.
    { apply (elem_of_indices f l) in Hi as (d & Hd & _). by apply lookup_lt_Some in Hd. }
    cbn. destruct (f x); cbn; [|apply not_elem_of_nil]. rewrite list_elem_of_singleton. lia.
  - cbn. destruct (f x); [apply NoDup_singleton|apply NoDup_nil_2].
Qed.

Lemma pending_nil es : pending es [] = es.
Proof.
  unfold pending. induction es as [|e es IH]; [done|].
  rewrite filter_cons_True by apply not_elem_of_nil. by rewrite IH.
Qed.

Lemma kahn_start n es deg :
  length deg = n -> (forall j, (j < n)%nat -> deg !! j = Some (count_to j es)) ->
  kahn_inv n es [] (indices_where (fun d => (d =? 0)%nat) deg) deg.
Proof.
  intros Hlen Hdeg. split; cbn; rewrite ?pending_nil; try done.
  - apply NoDup_indices.
  - intros j (d & Hd & _)%elem_of_indices. apply lookup_lt_Some in Hd. lia.
  - intros j Hj. rewrite elem_of_indices, Hdeg by done. setoid_rewrite Nat.eqb_eq. naive_solver.
  - intros [|] j l2; discriminate.
Qed.

(** Placed nodes come after their providers. *)
Lemma inv_before n es order queue deg i j a b :
  kahn_inv n es order queue deg -> (i, j) ∈ es -> order !! a = Some i -> order !! b = Some j -> (a < b)%nat.
Proof.
  intros Hinv He Ha Hb.
  pose proof (ki_sorted _ _ _ _ _ Hinv (take b order) j (drop (S b) order)) as Hs.
  destruct (proj1 (list_elem_of_lookup _ _) (Hs (eq_sym (take_drop_middle _ _ _ Hb)) i He)) as [k Hk].
  apply lookup_take_Some in Hk as [Hk Hlt].
  pose proof (ki_nodup _ _ _ _ _ Hinv) as Hnd. apply NoDup_app in Hnd as (Hnd & _ & _).
  by rewrite (NoDup_lookup _ _ _ _ Hnd Ha Hk).
Qed.

(** The providers of a placed node are placed. *)
Lemma inv_closed n es order deg a b :
  Forall (fun e => e.1 < n /\ e.2 < n)%nat es -> kahn_inv n es order [] deg ->
  (a, b) ∈ es -> b ∈ order -> a ∈ order.
Proof.
  intros Hes Hinv Hab Hb. destruct (decide (a ∈ order)) as [|Hno]; [done|]. exfalso.
  rewrite Forall_forall in Hes. apply Hes in Hab as Hr. cbn in Hr.
  assert (count_to b (pending es order) = 0%nat) as H0
    by (apply (ki_ready _ _ _ _ _ Hinv); [lia|by rewrite app_nil_r]).
  apply (proj2 (count_to_pos b (pending es order))); [|done]. exists a. by apply list_elem_of_filter.
Qed.

Lemma inv_no_cycle n es order deg u :
  Forall (fun e => e.1 < n /\ e.2 < n)%nat es -> kahn_inv n es order [] deg ->
  u ∈ order -> ~ tc (fun i j => (i, j) ∈ es) u u.
Proof.
  intros Hes Hinv Hu Hc. pose proof (ki_nodup _ _ _ _ _ Hinv) as Hnd. apply NoDup_app in Hnd as (Hnd & _ & _).
  assert (Hlt : forall a b, tc (fun i j => (i, j) ∈ es) a b -> b ∈ order ->
    exists x y, order !! x = Some a /\ order !! y = Some b /\ (x < y)%nat).
  { clear u Hu Hc. induction 1 as [a b Hab|a c b Hac _ IH]; intros Hb.
    - pose proof (inv_closed _ _ _ _ a b Hes Hinv Hab Hb) as [x Hx]%list_elem_of_lookup.
      apply list_elem_of_lookup in Hb as [y Hy].
      exists x, y. split_and!; [done..|]. by eapply inv_before.
    - destruct (IH Hb) as (x' & y & Hx' & Hy & Hlt).
      assert (a ∈ order) as [x Hx]%list_elem_of_lookup
        by (apply (inv_closed _ _ _ _ a c Hes Hinv Hac), list_elem_of_lookup; eauto).
      exists x, y. split_and!; [done..|]. pose proof (inv_before _ _ _ _ _ _ _ _ _ Hinv Hac Hx Hx'). lia. }
  destruct (Hlt u u Hc Hu) as (x & y & Hx & Hy & Hxy).
  rewrite (NoDup_lookup _ _ _ _ Hnd Hx Hy) in Hxy. lia.
Qed.

(** Walking back through unplaced providers reaches a cycle. *)
Lemma walk_back n (E : nat -> nat -> Prop) (R : nat -> Prop) k v L :
  (forall j, R j -> (j < n)%nat /\ exists i, R i /\ E i j) ->
  R v -> NoDup (v :: L) -> (forall u, u ∈ L -> R u /\ tc E v u) -> (n < length (v :: L) + k)%nat ->
  exists u, R u /\ tc E u u /\ rtc E u v.
Proof.
  intros HR. revert v L; induction k as [|k IH]; intros v L Hv Hnd HL Hlen.
  - exfalso. assert (v :: L ⊆+ seq 0 n) as Hs%submseteq_length; [|rewrite length_seq in Hs; lia].
    apply NoDup_submseteq; [done|]. intros x Hx. apply elem_of_seq. split; [lia|].
    apply elem_of_cons in Hx as [->|Hx]; [by apply HR|]. by apply HR, HL.
  - destruct (HR v Hv) as [_ (p & Hp & He)].
    destruct (decide (p ∈ v :: L)) as [[->|Hin]%elem_of_cons|Hno].
    + exists v. split_and!; [done|by apply tc_once|done].
    + destruct (HL p Hin) as [_ Ht]. exists p. split_and!; [done| |by apply rtc_once].
      eapply tc_l; [exact He|exact Ht].
    + destruct (IH p (v :: L) Hp) as (u & Hu & Hc & Hr).
      * by constructor.
      * intros u [->|Hu]%elem_of_cons; [split; [done|by apply tc_once]|].
        destruct (HL u Hu). split; [done|]. by eapply tc_l.
      * simpl in *. lia.
      * exists u. split_and!; [done|done|]. eapply rtc_r; [exact Hr|exact He].
Qed.

(** At the end the unplaced nodes are those reachable from a cycle. *)
Lemma unplaced_iff n es order deg i :
  Forall (fun e => e.1 < n /\ e.2 < n)%nat es -> kahn_inv n es order [] deg -> (i < n)%nat ->
  i ∉ order <-> exists u, tc (fun i j => (i, j) ∈ es) u u /\ rtc (fun i j => (i, j) ∈ es) u i.
Proof.
  intros Hes Hinv Hi. set (E := fun i j => (i, j) ∈ es).
  assert (Hready : forall j, (j < n)%nat -> j ∈ order <-> count_to j (pending es order) = 0%nat).
  { intros j Hj. rewrite <- (ki_ready _ _ _ _ _ Hinv j Hj). by rewrite app_nil_r. }
  assert (Hrange : forall a b, E a b -> (a < n /\ b < n)%nat).
  { intros a b Hab. rewrite Forall_forall in Hes. exact (Hes (a, b) Hab). }
  assert (Hback : forall j, (j < n)%nat /\ j ∉ order -> (j < n)%nat /\ exists i, ((i < n)%nat /\ i ∉ order) /\ E i j).
  { intros j [Hj Hno]. split; [done|]. rewrite Hready in Hno by done.
    apply count_to_pos in Hno as [k Hk]. apply list_elem_of_filter in Hk as [Hk Hin]. exists k.
    split; [split; [by apply (Hrange k j)|done]|done]. }
  assert (Hfwd : forall a b, rtc E a b -> b ∈ order -> a ∈ order).
  { induction 1 as [|a c b Hac _ IH]; [done|]. intros Hb. by apply (inv_closed _ _ _ _ a c Hes Hinv), IH. }
  split.
  - intros Hno. destruct (walk_back n E _ n i [] Hback (conj Hi Hno)) as (u & _ & ? & ?);
      [apply NoDup_singleton|by intros ? ?%elem_of_nil|simpl; lia|by exists u].
  - intros (u & Hc & Hr) Hin. by apply (inv_no_cycle _ _ _ _ u Hes Hinv (Hfwd u i Hr Hin)).
Qed.

Lemma edges_in_range {Req Ver Path} (req_matches : Req -> Ver -> bool)
    (manifests : list (ManifestEntry Req Ver Path)) :
  Forall (fun e => e.1 < length manifests /\ e.2 < length manifests)%nat (edge_list req_matches manifests).
Proof.
  apply Forall_forall. intros [i j] (_ & mi & mj & _ & _ & Hi & Hj & _)%elem_of_edge_list.
  split; by eapply lookup_lt_Some.
Qed.

(** A full order is a permutation of the indices. *)
Lemma full_order n es order deg :
  kahn_inv n es order [] deg -> length order = n -> order ≡ₚ seq 0 n.
Proof.
  intros Hinv Hlen. pose proof (ki_nodup _ _ _ _ _ Hinv) as Hnd. rewrite app_nil_r in Hnd.
  apply submseteq_length_Permutation; [|rewrite length_seq; lia].
  apply NoDup_submseteq; [done|]. intros x Hx. apply elem_of_seq. split; [lia|].
  apply (ki_range _ _ _ _ _ Hinv). by rewrite app_nil_r.
Qed.

Lemma missing_node n es order deg :
  kahn_inv n es order [] deg -> length order <> n -> exists i, (i < n)%nat /\ i ∉ order.
Proof.
  intros Hinv Hlen. destruct (decide (Forall (fun i => i ∈ order) (seq 0 n))) as [Hall|Hno].
  - exfalso. apply Hlen. pose proof (ki_nodup _ _ _ _ _ Hinv) as Hnd. rewrite app_nil_r in Hnd.
    rewrite Forall_forall in Hall. rewrite <- (length_seq n 0). apply Permutation_length, NoDup_Permutation;
      [done|apply NoDup_seq|]. intros x. split; [|by apply Hall]. intros Hx. apply elem_of_seq. split; [lia|].
    apply (ki_range _ _ _ _ _ Hinv). by rewrite app_nil_r.
  - apply not_Forall_Exists, Exists_exists in Hno as (i & Hi%elem_of_seq & Hno); [|apply _].
    exists i. split; [lia|done].
Qed.

Lemma closure_iff (R R' : nat -> nat -> Prop) x y :
  (forall i j, R i j <-> R' i j) -> (tc R x y <-> tc R' x y) /\ (rtc R x y <-> rtc R' x y).
Proof.
  intros HR. split; split.
  1, 2: induction 1; [apply tc_once|eapply tc_l]; naive_solver.
  1, 2: induction 1; [done|eapply rtc_l; naive_solver].
Qed.

(** The run of the loop on the tables the build computes. *)
Lemma kahn_run n es :
  Forall (fun e => e.1 < n /\ e.2 < n)%nat es ->
  let '(dependents, in_degree) := List.fold_left add_edge es (replicate n [], replicate n 0%nat) in
  let '(order, deg) := kahn (S n) dependents (indices_where (fun d => (d =? 0)%nat) in_degree) in_degree [] in
  kahn_inv n es order [] deg.
Proof.
  intros Hes. pose proof (build_effect n es Hes) as Hb.
  destruct (List.fold_left add_edge es _) as [dependents in_degree]. destruct Hb as (Hlen & Hd & Hc).
  apply kahn_effect; [done|done| |simpl; lia]. by apply kahn_start.
Qed.

(** At most one capsule: no edges. *)
Lemma small_graph {Req Ver Path} (req_matches : Req -> Ver -> bool)
    (manifests : list (ManifestEntry Req Ver Path)) i j :
  (length manifests <= 1)%nat -> ~ must_precede req_matches manifests i j.
Proof.
  intros Hl (Hne & mi & mj & _ & _ & Hi & Hj & _). apply lookup_lt_Some in Hi, Hj. unfold ManifestEntry in *. lia.
Qed.

(** What the loop's result says of the graph. *)
Lemma loop_decides n es order deg :
  Forall (fun e => e.1 < n /\ e.2 < n)%nat es -> kahn_inv n es order [] deg ->
  let E := fun i j => (i, j) ∈ es in
  (length order = n -> forall u, ~ tc E u u) /\
  (length order <> n -> (exists u, tc E u u) /\
   forall i, i ∈ indices_where (fun d => (0 <? d)%nat) deg <-> exists u, tc E u u /\ rtc E u i).
Proof.
  intros Hes Hinv E.
  assert (Hrange : forall u i, tc E u u -> rtc E u i -> (i < n)%nat).
  { intros u i Hc Hr. rewrite Forall_forall in Hes.
    assert (Hu : forall a b, tc E a b -> (a < n)%nat)
      by (intros a b [x y Hxy|x y z Hxy _]; exact (proj1 (Hes (x, y) Hxy))).
    destruct (rtc_inv_r _ _ Hr) as [<-|(x & _ & Hx)]; [by apply (Hu u u)|]. exact (proj2 (Hes (x, i) Hx)). }
  split.
  - intros Hlen u Hc. pose proof (full_order _ _ _ _ Hinv Hlen) as Hp.
    apply (inv_no_cycle _ _ _ _ u Hes Hinv); [|done]. rewrite Hp. apply elem_of_seq.
    split; [lia|]. by apply (Hrange u u).
  - intros Hlen. destruct (missing_node _ _ _ _ Hinv Hlen) as (i & Hi & Hno). split.
    { apply (unplaced_iff _ _ _ _ _ Hes Hinv Hi) in Hno as (u & Hc & _). by exists u. }
    intros k. rewrite elem_of_indices. setoid_rewrite Nat.ltb_lt. split.
    + intros (d & Hd & Hpos). pose proof (lookup_lt_Some _ _ _ Hd) as Hk.
      rewrite (ki_len _ _ _ _ _ Hinv) in Hk. apply (unplaced_iff _ _ _ _ _ Hes Hinv Hk).
      rewrite (ki_deg _ _ _ _ _ Hinv k Hk) in Hd. injection Hd as <-. intros Hin.
      assert (k ∈ order ++ []) as Hin' by (by rewrite app_nil_r).
      apply (ki_ready _ _ _ _ _ Hinv k Hk) in Hin'. lia.
    + intros (u & Hc & Hr). pose proof (Hrange u k Hc Hr) as Hk.
      rewrite (ki_deg _ _ _ _ _ Hinv k Hk). eexists; split; [done|].
      assert (k ∉ order) as Hno' by (apply (unplaced_iff _ _ _ _ _ Hes Hinv Hk); by exists u).
      destruct (count_to k (pending es order)) eqn:H0; [|lia]. exfalso. apply Hno'.
      apply (ki_ready _ _ _ _ _ Hinv k Hk) in H0. by rewrite app_nil_r in H0.
Qed.

(** ** Properties *)

(** C36: the load order is decided correctly.  The sort succeeds exactly on
    acyclic import graphs, and then returns every capsule once, each after
    all the capsules that export something it imports.  On a cycle it returns
    the input unchanged and names exactly the capsules that are on a cycle or
    import, directly or not, from one that is. *)
Theorem toposort_decides {Req Ver Path} (req_matches : Req -> Ver -> bool) :
  forall manifests : list (ManifestEntry Req Ver Path),
  let before := must_precede req_matches manifests in
  match toposort_manifests req_matches manifests with
  | Ok sorted =>
      (forall u, ~ tc before u u) /\
      exists order, order ≡ₚ seq 0 (length manifests) /\ sorted = omap (fun i => manifests !! i) order /\
        (forall i j a b, before i j -> order !! a = Some i -> order !! b = Some j -> (a < b)%nat)
  | Err (MkCycleError names, rest) =>
      (exists u, tc before u u) /\ rest = manifests /\
      exists nodes, NoDup nodes /\ names = omap (fun i => package_name ∘ fst <$> manifests !! i) nodes /\
        (forall i, i ∈ nodes <-> exists u, tc before u u /\ rtc before u i)
  end.
Proof.
  intros manifests before. unfold toposort_manifests.
  destruct (Nat.leb_spec (length manifests) 1) as [Hs|_].
  { split; [intros u Hc; destruct Hc; by eapply small_graph|].
    exists (seq 0 (length manifests)). split_and!; [done| |intros; by exfalso; eapply small_graph].
    destruct manifests as [|m [|m' l]]; [done|done|]. cbn in Hs. lia. }
  set (es := edge_list req_matches manifests). set (n := length manifests).
  assert (Hes : Forall (fun e => e.1 < n /\ e.2 < n)%nat es) by apply edges_in_range.
  pose proof (kahn_run n es Hes) as Hrun. destruct (List.fold_left add_edge es _) as [dependents in_degree].
  destruct (kahn _ dependents _ in_degree []) as [order deg].
  destruct (loop_decides n es order deg Hes Hrun) as [Hfull Hcyc]. cbv zeta in Hfull, Hcyc.
  assert (Hiff : forall x y, (tc (fun i j => (i, j) ∈ es) x y <-> tc before x y) /\
    (rtc (fun i j => (i, j) ∈ es) x y <-> rtc before x y)).
  { intros x y. apply closure_iff. intros i j. apply elem_of_edge_list. }
  destruct (Nat.eqb_spec (length order) n) as [Hlen|Hlen]; cbn [negb].
  - split; [intros u Hc; apply (Hfull Hlen u); by apply Hiff|].
    exists order. split_and!; [by eapply full_order|done|].
    intros i j a b Hb. apply (inv_before _ _ _ _ _ _ _ _ _ Hrun). by apply elem_of_edge_list.
  - destruct (Hcyc Hlen) as [[u Hc] Hnodes]. split_and!; [exists u; by apply Hiff|done|].
    eexists. split_and!; [|reflexivity|]; [apply NoDup_indices|]. intros i. rewrite Hnodes.
    split; intros (x & H1 & H2); exists x; (split; [by apply Hiff|by apply Hiff]).
Qed.

(** ** Concrete instances *)

(** Three capsules: the third imports from the first, which imports from the
    second and the other way round. *)
Definition demo_manifest (name : string) (imports exports : list string)
    : ManifestEntry unit unit unit :=
  (MkCapsuleManifest name ((fun i => MkImport "astrid" i tt false) <$> imports)
     ((fun e => MkExport "astrid" e tt) <$> exports), tt).

(** A capsule that is on no cycle but imports from one is named in the
    reported cycle as well. *)
Lemma cycle_report_names_importers :
  toposort_manifests (fun _ _ => true)
    [demo_manifest "a" ["b"] ["a"]; demo_manifest "b" ["a"] ["b"]; demo_manifest "c" ["a"] []] =
  Err (MkCycleError ["a"; "b"; "c"],
    [demo_manifest "a" ["b"] ["a"]; demo_manifest "b" ["a"] ["b"]; demo_manifest "c" ["a"] []]).
Proof. vm_compute. reflexivity. Qed.
