(* ===== verification/Bytes.v ===== *)
(** * Byte sequences

    A Rust [Vec<u8>] or [&[u8]] whose bytes matter is a [list ascii]: an
    [ascii] is exactly one byte.  This file holds what the wire formats share:
    fixed-width little- and big-endian integers ([to_le_bytes],
    [from_be_bytes] of the standard library), their inverses and bounds, the
    bytewise order [Vec<u8>] is compared with, and [str::as_bytes]. *)

From stdpp Require Import sorting.
From S2P Require Import Prelude.
From Stdlib Require Import Ascii.

Abbreviation byte := ascii.

(** [str::as_bytes] and, for bytes known to be UTF-8, its inverse. *)
Definition as_bytes (s : string) : list byte := String.list_ascii_of_string s.
Definition of_bytes (l : list byte) : string := String.string_of_list_ascii l.

(** [u32::to_le_bytes], [i64::to_le_bytes] and their like on [n] bytes; the
    argument of a signed width is its two's-complement value. *)
Fixpoint to_le_bytes (n : nat) (v : N) : list byte :=
  match n with
  | O => []
  | S m => ascii_of_N (v mod 256) :: to_le_bytes m (v / 256)
  end.

Fixpoint from_le_bytes (l : list byte) : N :=
  match l with
  | [] => 0
  | b :: r => (N_of_ascii b + 256 * from_le_bytes r)%N
  end.

Definition to_be_bytes (n : nat) (v : N) : list byte := reverse (to_le_bytes n v).
Definition from_be_bytes (l : list byte) : N := from_le_bytes (reverse l).

#[global] Arguments to_be_bytes : simpl never.
#[global] Arguments from_be_bytes : simpl never.

(** [Ord for Vec<u8>]: lexicographic by byte value. *)
Definition bytes_le (a b : list byte) : Prop := String.le (of_bytes a) (of_bytes b).
Definition bytes_lt (a b : list byte) : Prop := bytes_le a b /\ a <> b.

#[export] Instance bytes_le_dec : RelDecision bytes_le.
Proof. intros a b. unfold bytes_le. apply _. Defined.
#[export] Instance bytes_lt_dec : RelDecision bytes_lt.
Proof. intros a b. unfold bytes_lt. apply _. Defined.

(** ** Strings and bytes *)

Lemma of_bytes_as_bytes s : of_bytes (as_bytes s) = s.
Proof. apply String.string_of_list_ascii_of_string. Qed.

Lemma as_bytes_of_bytes l : as_bytes (of_bytes l) = l.
Proof. apply String.list_ascii_of_string_of_list_ascii. Qed.

#[export] Instance as_bytes_inj : Inj (=) (=) as_bytes.
Proof. intros s t H. by rewrite <- (of_bytes_as_bytes s), H, of_bytes_as_bytes. Qed.

#[export] Instance of_bytes_inj : Inj (=) (=) of_bytes.
Proof. intros s t H. by rewrite <- (as_bytes_of_bytes s), H, as_bytes_of_bytes. Qed.

Lemma length_as_bytes s : length (as_bytes s) = String.length s.
Proof. induction s; simpl; congruence. Qed.

Lemma str_all_of_bytes (f : byte -> bool) l : (forall c, c ∈ l -> f c = true) -> str_all f (of_bytes l) = true.
Proof.
  intros Hl. induction l as [|c l IH]; [done|]. change (f c && str_all f (of_bytes l) = true).
  rewrite Hl by apply list_elem_of_here. simpl. apply IH. intros d Hd. apply Hl. by apply list_elem_of_further.
Qed.

(** ** Fixed-width integers *)

Lemma length_to_le_bytes n v : length (to_le_bytes n v) = n.
Proof. revert v; induction n as [|n IH]; intros v; simpl; [done|]. by rewrite IH. Qed.

Lemma length_to_be_bytes n v : length (to_be_bytes n v) = n.
Proof. unfold to_be_bytes. by rewrite length_reverse, length_to_le_bytes. Qed.

Lemma N_of_ascii_bound a : (N_of_ascii a < 256)%N.
Proof. by destruct a as [[] [] [] [] [] [] [] []]. Qed.

Lemma pow_256_S n : (256 ^ N.of_nat (S n) = 256 * 256 ^ N.of_nat n)%N.
Proof. rewrite Nat2N.inj_succ, N.pow_succ_r'. done. Qed.

Lemma from_to_le_bytes n v :
  (v < 256 ^ N.of_nat n)%N -> from_le_bytes (to_le_bytes n v) = v.
Proof.
  revert v; induction n as [|n IH]; intros v Hv; simpl.
  - change (256 ^ N.of_nat 0)%N with 1%N in Hv. lia.
  - rewrite pow_256_S in Hv.
    rewrite N_ascii_embedding by (apply N.mod_lt; lia).
    rewrite IH by (apply N.Div0.div_lt_upper_bound; lia).
    rewrite (N.div_mod' v 256) at 3. lia.
Qed.

Lemma to_from_le_bytes l : to_le_bytes (length l) (from_le_bytes l) = l.
Proof.
  induction l as [|b l IH]; simpl; [done|].
  pose proof (N_of_ascii_bound b) as Hb.
  set (x := from_le_bytes l) in *.
  replace ((N_of_ascii b + 256 * x) mod 256)%N with (N_of_ascii b)
    by (apply N.mod_unique with x; lia).
  replace ((N_of_ascii b + 256 * x) / 256)%N with x
    by (apply N.div_unique with (N_of_ascii b); lia).
  by rewrite ascii_N_embedding, IH.
Qed.

Lemma from_le_bytes_bound l : (from_le_bytes l < 256 ^ N.of_nat (length l))%N.
Proof.
  induction l as [|b l IH]; simpl; [done|].
  pose proof (N_of_ascii_bound b). rewrite pow_256_S. lia.
Qed.

Lemma from_to_be_bytes n v :
  (v < 256 ^ N.of_nat n)%N -> from_be_bytes (to_be_bytes n v) = v.
Proof. intros. unfold from_be_bytes, to_be_bytes. rewrite reverse_involutive. by apply from_to_le_bytes. Qed.

Lemma to_from_be_bytes l : to_be_bytes (length l) (from_be_bytes l) = l.
Proof.
  unfold from_be_bytes, to_be_bytes. rewrite <- (length_reverse l), to_from_le_bytes.
  apply reverse_involutive.
Qed.

Lemma from_be_bytes_bound l : (from_be_bytes l < 256 ^ N.of_nat (length l))%N.
Proof. unfold from_be_bytes. rewrite <- (length_reverse l). apply from_le_bytes_bound. Qed.

Lemma to_le_bytes_inj n v w :
  (v < 256 ^ N.of_nat n)%N -> (w < 256 ^ N.of_nat n)%N ->
  to_le_bytes n v = to_le_bytes n w -> v = w.
Proof. intros Hv Hw Heq. by rewrite <- (from_to_le_bytes n v), Heq, from_to_le_bytes. Qed.

(** ** Order *)

#[export] Instance bytes_le_po : PartialOrder bytes_le.
Proof.
  split; [split|].
  - intros a. unfold bytes_le. reflexivity.
  - intros a b c. unfold bytes_le. apply transitivity.
  - intros a b Hab Hba. apply (inj of_bytes). by apply (anti_symm String.le).
Qed.

#[export] Instance bytes_le_total : Total bytes_le.
Proof. intros a b. apply (total String.le). Qed.

Lemma bytes_lt_not_le a b : bytes_lt a b <-> ~ bytes_le b a.
Proof.
  unfold bytes_lt. split.
  - intros [Hle Hne] Hle'. apply Hne. by apply (anti_symm bytes_le).
  - intros Hn. destruct (total bytes_le a b) as [H|H]; [|done].
    split; [done|]. by intros ->.
Qed.

#[export] Instance bytes_lt_trans : Transitive bytes_lt.
Proof.
  intros a b c [Hab Hne] [Hbc Hne']. split; [by trans b|].
  intros ->. apply Hne. by apply (anti_symm bytes_le).
Qed.

(** ** Splitting a sequence at a known length *)

Lemma app_inj_length {A} (a b c d : list A) :
  length a = length c -> a ++ b = c ++ d -> a = c /\ b = d.
Proof. intros Hl Heq. by apply app_inj_1 in Heq. Qed.

(** ** Sorting by a byte key ([sort_by] on the key's byte order) *)

Definition key_le {A} (f : A -> list byte) (x y : A) : Prop := bytes_le (f x) (f y).

#[export] Instance key_le_dec {A} (f : A -> list byte) : RelDecision (key_le f).
Proof. intros x y. unfold key_le. apply _. Defined.
#[export] Instance key_le_trans {A} (f : A -> list byte) : Transitive (key_le f).
Proof. intros x y z. unfold key_le. apply transitivity. Qed.
#[export] Instance key_le_total {A} (f : A -> list byte) : Total (key_le f).
Proof. intros x y. unfold key_le. apply (total bytes_le). Qed.

Lemma sorted_key_inj {A} (f : A -> list byte) l x y :
  StronglySorted bytes_lt (f <$> l) -> x ∈ l -> y ∈ l -> f x = f y -> x = y.
Proof.
  induction l as [|a l IH]; intros Hs Hx Hy Heq; [set_solver|].
  rewrite fmap_cons in Hs. apply StronglySorted_cons in Hs as [Ha Hs].
  rewrite Forall_fmap, Forall_forall in Ha.
  apply elem_of_cons in Hx as [->|Hx], Hy as [->|Hy]; [done| | |by apply IH].
  - destruct (Ha _ Hy) as [_ []]. done.
  - destruct (Ha _ Hx) as [_ []]. done.
Qed.

Lemma merge_sort_keyed {A} (f : A -> list byte) l :
  Sorted bytes_lt (f <$> l) -> merge_sort (key_le f) l = l.
Proof.
  intros Hs%Sorted_StronglySorted; [|apply _].
  apply (StronglySorted_unique_strong (key_le f)).
  - intros x y Hx Hy Hxy Hyx. rewrite merge_sort_Permutation in Hx.
    eapply sorted_key_inj; eauto. by apply (anti_symm bytes_le).
  - apply StronglySorted_merge_sort; apply _.
  - clear -Hs. induction l as [|a l IH]; [constructor|].
    rewrite fmap_cons in Hs. apply StronglySorted_cons in Hs as [Ha Hs].
    constructor; [by apply IH|]. rewrite Forall_fmap in Ha.
    eapply Forall_impl; [exact Ha|]. intros b [H _]. exact H.
  - apply merge_sort_Permutation.
Qed.

Lemma NoDup_key_inj {A} (f : A -> list byte) l x y :
  NoDup (f <$> l) -> x ∈ l -> y ∈ l -> f x = f y -> x = y.
Proof.
  induction l as [|a l IH]; intros Hnd Hx Hy Heq; [set_solver|].
  rewrite fmap_cons, NoDup_cons in Hnd. destruct Hnd as [Ha Hnd].
  apply elem_of_cons in Hx as [->|Hx], Hy as [->|Hy]; [done| | |by apply IH].
  - destruct Ha. rewrite Heq. by apply list_elem_of_fmap_2.
  - destruct Ha. rewrite <- Heq. by apply list_elem_of_fmap_2.
Qed.

(** Sorting by distinct keys does not depend on the order of the input. *)
Lemma merge_sort_perm {A} (f : A -> list byte) l1 l2 :
  NoDup (f <$> l1) -> l1 ≡ₚ l2 -> merge_sort (key_le f) l1 = merge_sort (key_le f) l2.
Proof.
  intros Hnd Hp. apply (StronglySorted_unique_strong (key_le f)).
  - intros x y Hx Hy Hxy Hyx. rewrite merge_sort_Permutation in Hx, Hy. rewrite <- Hp in Hy.
    eapply NoDup_key_inj; eauto. by apply (anti_symm bytes_le).
  - apply StronglySorted_merge_sort; apply _.
  - apply StronglySorted_merge_sort; apply _.
  - by rewrite !merge_sort_Permutation.
Qed.

Lemma merge_sort_lt_sorted {A} (f : A -> list byte) l :
  NoDup (f <$> l) -> Sorted bytes_lt (f <$> merge_sort (key_le f) l).
Proof.
  intros Hnd. apply StronglySorted_Sorted.
  assert (NoDup (f <$> merge_sort (key_le f) l)) as Hnd' by by rewrite merge_sort_Permutation.
  assert (StronglySorted (key_le f) (merge_sort (key_le f) l)) as Hs
    by (apply StronglySorted_merge_sort; apply _).
  induction Hs as [|x xs Hs IH Hx]; [constructor|]. rewrite fmap_cons in *.
  apply NoDup_cons in Hnd' as [Hnx Hnd']. constructor; [by apply IH|].
  rewrite Forall_fmap, Forall_forall in *. intros y Hy. split; [by apply Hx|].
  intros Heq. apply Hnx. simpl in Heq. rewrite Heq. by apply list_elem_of_fmap_2.
Qed.

(** ** Fixed-size arrays ([[u8; N]]) *)

Record array (n : nat) : Type := MkArray {
  arr : list byte;
  arr_size : bool_decide (length arr = n) = true;
}.
Arguments MkArray {n} arr arr_size.
Arguments arr {n} a.
Arguments arr_size {n} a.

(** [<[u8; N]>::try_from(slice)]. *)
Definition array_try_from (n : nat) (l : list byte) : option (array n) :=
  match Sumbool.sumbool_of_bool (bool_decide (length l = n)) with
  | left H => Some (MkArray l H)
  | right _ => None
  end.

(** [[0u8; N]]. *)
Program Definition zero_array (n : nat) : array n := MkArray (replicate n "000"%char) _.
Next Obligation. intros n. apply bool_decide_eq_true. apply length_replicate. Qed.

Lemma arr_length {n} (a : array n) : length (arr a) = n.
Proof. exact (proj1 (bool_decide_eq_true _) (arr_size a)). Qed.

#[export] Instance arr_inj n : Inj (=) (=) (@arr n).
Proof.
  intros [a Ha] [b Hb]; simpl. intros ->. f_equal. apply Eqdep_dec.UIP_dec, bool_eq_dec.
Qed.

#[export] Instance array_eq_dec n : EqDecision (array n).
Proof.
  refine (fun a b => cast_if (decide (arr a = arr b))); [by apply (inj arr)|by intros ->].
Defined.

Lemma array_try_from_Some n l (a : array n) : array_try_from n l = Some a <-> l = arr a.
Proof.
  unfold array_try_from. destruct (Sumbool.sumbool_of_bool _) as [H|H]; split.
  - by intros [= <-].
  - intros ->. f_equal. by apply (inj arr).
  - done.
  - intros ->. apply bool_decide_eq_false in H. destruct H. apply arr_length.
Qed.

Lemma array_try_from_arr {n} (a : array n) : array_try_from n (arr a) = Some a.
Proof. by apply array_try_from_Some. Qed.

#[export] Instance array_countable n : Countable (array n).
Proof. apply (inj_countable arr (array_try_from n)). intros a. apply array_try_from_arr. Defined.

(** ** Times

    A [Timestamp] is its offset from the Unix epoch in nanoseconds. *)

Abbreviation Timestamp := Z.

(** [DateTime::timestamp], whole seconds since the epoch, as the bytes of an [i64]. *)
Definition seconds_le_bytes (timestamp : Timestamp) : list byte :=
  to_le_bytes 8 (Z.to_N ((timestamp / 1000000000) mod 2 ^ 64)%Z).
