(* ===== verification/Cbor.v ===== *)
(** * Deterministic CBOR

    [crates/astrid-audit/src/entry_v2/cbor.rs]: the encoder and the strict
    decoder of the CBOR subset the format-v2 audit records use.

    The [Reader] is the input with a position, threaded by [eff].  The
    [depth] argument of the decoder is represented by the number of nesting
    levels still allowed, [MAX_DEPTH + 1 - depth], on which the recursion is
    structural; at no levels the decoder reports excessive nesting, as the
    source does when [depth > MAX_DEPTH].  A Rust [String] is a byte string
    that is valid UTF-8 ([utf8_valid]). *)

From stdpp Require Import sorting.
From S2P Require Import Prelude Bytes.
From Stdlib Require Import Ascii.
Local Open Scope string_scope.
Local Open Scope list_scope.

(** ** Data items *)

Inductive Cbor : Type :=
| Uint (value : N)
| Nint (value : N)
| CBytes (bytes : list byte)
| Text (text : string)
| Array (items : list Cbor)
| CMap (entries : list (Cbor * Cbor))
| CBool (b : bool)
| Null.

Inductive CborError : Type := MkCborError (reason : string).

Definition MAJOR_UINT : N := 0.
Definition MAJOR_NINT : N := 32.
Definition MAJOR_BYTES : N := 64.
Definition MAJOR_TEXT : N := 96.
Definition MAJOR_ARRAY : N := 128.
Definition MAJOR_MAP : N := 160.
Definition MAJOR_SIMPLE : N := 224.
Definition MAJOR_MASK : N := 224.
Definition INFO_MASK : N := 31.
Definition INFO_ONE_BYTE : N := 24.
Definition INFO_TWO_BYTES : N := 25.
Definition INFO_FOUR_BYTES : N := 26.
Definition INFO_EIGHT_BYTES : N := 27.
Definition INFO_INDEFINITE : N := 31.
Definition SIMPLE_FALSE : N := 244.
Definition SIMPLE_TRUE : N := 245.
Definition SIMPLE_NULL : N := 246.
Definition MAX_DEPTH : nat := 64.

(** ** Encoder *)

Definition len_u64 (len : nat) : N := N.min (N.of_nat len) U64_MAX.

(** [head(out, major, value)]: the bytes it appends. *)
Definition head (major value : N) : list byte :=
  if (value <=? 23)%N then [ascii_of_N (N.lor major value)]
  else if (value <=? 255)%N then
    ascii_of_N (N.lor major INFO_ONE_BYTE) :: to_be_bytes 1 value
  else if (value <=? 65535)%N then
    ascii_of_N (N.lor major INFO_TWO_BYTES) :: to_be_bytes 2 value
  else if (value <=? 4294967295)%N then
    ascii_of_N (N.lor major INFO_FOUR_BYTES) :: to_be_bytes 4 value
  else ascii_of_N (N.lor major INFO_EIGHT_BYTES) :: to_be_bytes 8 value.

Fixpoint encode (item : Cbor) : list byte :=
  match item with
  | Uint value => head MAJOR_UINT value
  | Nint value => head MAJOR_NINT value
  | CBytes bytes => head MAJOR_BYTES (len_u64 (length bytes)) ++ bytes
  | Text text => head MAJOR_TEXT (len_u64 (String.length text)) ++ as_bytes text
  | Array items => head MAJOR_ARRAY (len_u64 (length items)) ++ List.concat (List.map encode items)
  | CMap entries =>
      let encoded :=
        merge_sort (key_le fst)
          (List.map (fun entry => match entry with (key, value) => (encode key, encode value) end)
             entries) in
      head MAJOR_MAP (len_u64 (length encoded))
        ++ List.concat (List.map (fun entry => entry.1 ++ entry.2) encoded)
  | CBool false => [ascii_of_N SIMPLE_FALSE]
  | CBool true => [ascii_of_N SIMPLE_TRUE]
  | Null => [ascii_of_N SIMPLE_NULL]
  end.

(** ** Decoder *)

Record Reader : Type := MkReader { rd_bytes : list byte; rd_pos : nat }.

Definition cerr {A} (reason : string) : eff Reader CborError A := eff_lift (Err (MkCborError reason)).

(** [Reader::take]: [checked_add] cannot change the answer, since a slice is
    no longer than [usize::MAX]. *)
Definition reader_take (count : nat) : eff Reader CborError (list byte) :=
  fun r =>
    let stop := rd_pos r + count in
    if bool_decide (stop <= length (rd_bytes r))
    then (MkReader (rd_bytes r) stop, Ok (take count (drop (rd_pos r) (rd_bytes r))))
    else (r, Err (MkCborError "item runs past the end of the input")).

Definition remaining (r : Reader) : nat := length (rd_bytes r) - rd_pos r.

(** An argument of [n] bytes that is only shortest above [limit]. *)
Definition long_argument (n : nat) (limit : N) (reason : string) : eff Reader CborError N :=
  do? bytes := reader_take n in
  let value := from_be_bytes bytes in
  if (value <=? limit)%N then cerr reason else eff_lift (Ok value).

(** The [match info] of [Reader::head]. *)
Definition read_argument (info : N) : eff Reader CborError N :=
  if (info <=? 23)%N then eff_lift (Ok info)
  else if (info =? INFO_ONE_BYTE)%N
  then long_argument 1 23 "non-shortest one-byte argument"
  else if (info =? INFO_TWO_BYTES)%N
  then long_argument 2 255 "non-shortest two-byte argument"
  else if (info =? INFO_FOUR_BYTES)%N
  then long_argument 4 65535 "non-shortest four-byte argument"
  else if (info =? INFO_EIGHT_BYTES)%N
  then long_argument 8 4294967295 "non-shortest eight-byte argument"
  else if (info =? INFO_INDEFINITE)%N then cerr "indefinite-length item"
  else cerr "reserved additional information".

Definition reader_head : eff Reader CborError (N * N * N) :=
  do? first := reader_take 1 in
  match first with
  | [] => cerr "missing initial byte"
  | initial :: _ =>
      let initial := N_of_ascii initial in
      let major := N.land initial MAJOR_MASK in
      let info := N.land initial INFO_MASK in
      do? value := read_argument info in
      eff_lift (Ok (major, info, value))
  end.

(** [Reader::length]: a [u64] always fits a 64-bit [usize]. *)
Definition reader_length (value : N) : eff Reader CborError nat :=
  fun r =>
    if (N.of_nat (remaining r) <? value)%N
    then (r, Err (MkCborError "length exceeds the remaining input"))
    else (r, Ok (N.to_nat value)).

(** [previous_key.is_some_and(|previous| previous >= encoded_key)]. *)
Definition key_out_of_order (previous_key : option (list byte)) (encoded_key : list byte) : bool :=
  match previous_key with
  | Some previous => bool_decide (bytes_le encoded_key previous)
  | None => false
  end.

Section Loops.
  Context (item : eff Reader CborError Cbor).

(** The [for _ in 0..count] loop of an array. *)
Fixpoint read_items (count : nat) : eff Reader CborError (list Cbor) :=
  match count with
  | O => eff_lift (Ok [])
  | S count =>
      do? first := item in
      do? rest := read_items count in
      eff_lift (Ok (first :: rest))
  end.

(** The loop of [Reader::map]. *)
Fixpoint read_entries (count : nat) (previous_key : option (list byte))
    : eff Reader CborError (list (Cbor * Cbor)) :=
  match count with
  | O => eff_lift (Ok [])
  | S count => fun r =>
      let start := rd_pos r in
      (do? key := item in
       fun r' =>
         let encoded_key := take (rd_pos r' - start) (drop start (rd_bytes r')) in
         (if key_out_of_order previous_key encoded_key
          then cerr "map keys are unsorted or duplicated"
          else
            do? value := item in
            do? rest := read_entries count (Some encoded_key) in
            eff_lift (Ok ((key, value) :: rest))) r') r
  end.
End Loops.

(** The [match major] of [Reader::item]; [next] reads an item one level
    deeper. *)
Definition item_body (next : eff Reader CborError Cbor) (major info value : N)
    : eff Reader CborError Cbor :=
  if (major =? MAJOR_UINT)%N then eff_lift (Ok (Uint value))
  else if (major =? MAJOR_NINT)%N then eff_lift (Ok (Nint value))
  else if (major =? MAJOR_BYTES)%N then
    do? len := reader_length value in
    do? bytes := reader_take len in
    eff_lift (Ok (CBytes bytes))
  else if (major =? MAJOR_TEXT)%N then
    do? len := reader_length value in
    do? bytes := reader_take len in
    if utf8_valid (of_bytes bytes) then eff_lift (Ok (Text (of_bytes bytes)))
    else cerr "text is not valid UTF-8"
  else if (major =? MAJOR_ARRAY)%N then
    do? count := reader_length value in
    do? items := read_items next count in
    eff_lift (Ok (Array items))
  else if (major =? MAJOR_MAP)%N then
    do? count := reader_length value in
    do? entries := read_entries next count None in
    eff_lift (Ok (CMap entries))
  else if (major =? MAJOR_SIMPLE)%N then
    if (info =? 20)%N then eff_lift (Ok (CBool false))
    else if (info =? 21)%N then eff_lift (Ok (CBool true))
    else if (info =? 22)%N then eff_lift (Ok Null)
    else cerr "unsupported simple value or float"
  else cerr "tags are not supported".

(** [Reader::item], with [levels = MAX_DEPTH + 1 - depth]. *)
Fixpoint reader_item (levels : nat) : eff Reader CborError Cbor :=
  match levels with
  | O => cerr "nesting too deep"
  | S next =>
      do? (major, info, value) := reader_head in
      item_body (reader_item next) major info value
  end.

Definition decode (bytes : list byte) : result Cbor CborError :=
  match reader_item (S MAX_DEPTH) (MkReader bytes 0) with
  | (_, Err e) => Err e
  | (r, Ok item) =>
      if bool_decide (rd_pos r = length bytes) then Ok item
      else Err (MkCborError "trailing bytes after the item")
  end.

(** ** Canonical items

    The items the decoder can return with [levels] nesting levels allowed:
    integers and lengths of 64 bits, UTF-8 text, map keys in strictly
    increasing order of their encodings. *)
Fixpoint canonical (levels : nat) (item : Cbor) : Prop :=
  match levels with
  | O => False
  | S next =>
      match item with
      | Uint value | Nint value => (value <= U64_MAX)%N
      | CBytes bytes => (N.of_nat (length bytes) <= U64_MAX)%N
      | Text text => utf8_valid text = true /\ (N.of_nat (String.length text) <= U64_MAX)%N
      | Array items => Forall (canonical next) items /\ (N.of_nat (length items) <= U64_MAX)%N
      | CMap entries =>
          Forall (fun entry => canonical next entry.1 /\ canonical next entry.2) entries
          /\ Sorted bytes_lt ((fun entry => encode entry.1) <$> entries)
          /\ (N.of_nat (length entries) <= U64_MAX)%N
      | CBool _ | Null => True
      end
  end.

(** ** Heads *)

Definition is_major (major : N) : Prop := exists k, (k < 8)%N /\ major = (32 * k)%N.

Definition head_info (value : N) : N :=
  if (value <=? 23)%N then value
  else if (value <=? 255)%N then INFO_ONE_BYTE
  else if (value <=? 65535)%N then INFO_TWO_BYTES
  else if (value <=? 4294967295)%N then INFO_FOUR_BYTES
  else INFO_EIGHT_BYTES.

Definition head_argument (value : N) : list byte :=
  if (value <=? 23)%N then []
  else if (value <=? 255)%N then to_be_bytes 1 value
  else if (value <=? 65535)%N then to_be_bytes 2 value
  else if (value <=? 4294967295)%N then to_be_bytes 4 value
  else to_be_bytes 8 value.

Lemma head_split major value :
  head major value = ascii_of_N (N.lor major (head_info value)) :: head_argument value.
Proof. unfold head, head_info, head_argument. by repeat case_match. Qed.

Lemma head_info_bound value : (head_info value < 32)%N.
Proof. unfold head_info. repeat case_match; bool_prop; unfold INFO_ONE_BYTE, INFO_TWO_BYTES,
  INFO_FOUR_BYTES, INFO_EIGHT_BYTES; lia. Qed.

Lemma head_info_small value info :
  head_info value = info -> (info <= 23)%N -> value = info.
Proof.
  unfold head_info, INFO_ONE_BYTE, INFO_TWO_BYTES, INFO_FOUR_BYTES, INFO_EIGHT_BYTES.
  repeat case_match; bool_prop; lia.
Qed.

Lemma initial_byte_fields major info :
  is_major major -> (info < 32)%N ->
  N.land (N_of_ascii (ascii_of_N (N.lor major info))) MAJOR_MASK = major /\
  N.land (N_of_ascii (ascii_of_N (N.lor major info))) INFO_MASK = info.
Proof.
  intros (k & Hk & ->) Hi.
  assert (forallb (fun k => forallb (fun i =>
     let x := N_of_ascii (ascii_of_N (N.lor (32 * N.of_nat k) (N.of_nat i))) in
     (N.land x MAJOR_MASK =? 32 * N.of_nat k)%N && (N.land x INFO_MASK =? N.of_nat i)%N)
     (seq 0 32)) (seq 0 8) = true) as H by (vm_compute; reflexivity).
  rewrite forallb_forall in H. specialize (H (N.to_nat k)). rewrite in_seq in H.
  specialize (H ltac:(lia)). rewrite forallb_forall in H. specialize (H (N.to_nat info)).
  rewrite in_seq in H. specialize (H ltac:(lia)). cbv zeta in H. rewrite !N2Nat.id in H.
  bool_prop. done.
Qed.

Lemma initial_byte_split a :
  is_major (N.land (N_of_ascii a) MAJOR_MASK) /\ (N.land (N_of_ascii a) INFO_MASK < 32)%N /\
  ascii_of_N (N.lor (N.land (N_of_ascii a) MAJOR_MASK) (N.land (N_of_ascii a) INFO_MASK)) = a.
Proof.
  split; [|split].
  - exists (N.land (N_of_ascii a) MAJOR_MASK / 32)%N.
    by destruct a as [[] [] [] [] [] [] [] []].
  - by destruct a as [[] [] [] [] [] [] [] []].
  - by destruct a as [[] [] [] [] [] [] [] []].
Qed.

Lemma head_not_nil major value : 1 <= length (head major value).
Proof. rewrite head_split. simpl. lia. Qed.

Lemma encode_not_nil item : 1 <= length (encode item).
Proof.
  destruct item as [| | | | | |[]|]; cbn [encode]; try (simpl; lia);
    match goal with |- context [head ?m ?v] => pose proof (head_not_nil m v) end;
    rewrite ?length_app; lia.
Qed.

(** ** Reading

    [reads r bs r']: the input at [r] continues with [bs], which ends at
    [r']. *)
Definition rest (r : Reader) : list byte := drop (rd_pos r) (rd_bytes r).
Definition reads (r : Reader) (bs : list byte) (r' : Reader) : Prop :=
  rd_pos r + length bs <= length (rd_bytes r) /\
  take (length bs) (rest r) = bs /\
  r' = MkReader (rd_bytes r) (rd_pos r + length bs).
Definition valid (r : Reader) : Prop := rd_pos r <= length (rd_bytes r).

Lemma reads_valid r bs r' : reads r bs r' -> valid r'.
Proof. intros (H & _ & ->). done. Qed.

Lemma reads_nil r r' : valid r -> reads r [] r' <-> r' = r.
Proof.
  unfold reads, valid. destruct r as [b p]; simpl. rewrite Nat.add_0_r. naive_solver.
Qed.

Lemma reads_app r a b r'' :
  reads r (a ++ b) r'' <-> exists r', reads r a r' /\ reads r' b r''.
Proof.
  unfold reads, rest. rewrite length_app. split.
  - intros (Hlen & Htake & ->). eexists; split; [split; [lia|split; [|done]]|]; simpl.
    + rewrite <- (take_app_length a b) at 2. rewrite <- Htake, take_take. f_equal; lia.
    + split; [lia|]. split; [|f_equal; lia].
      rewrite <- drop_drop.
      rewrite <- (drop_app_length a b) at 2. rewrite <- Htake, take_drop_commute.
      by rewrite Nat.add_comm.
  - intros (r' & (Hlen & Htake & ->) & Hlen' & Htake' & ->). simpl in *.
    split; [lia|]. split; [|f_equal; lia].
    rewrite <- take_take_drop, Htake. f_equal. by rewrite drop_drop.
Qed.

Lemma reader_take_spec n r r' s :
  reader_take n r = (r', Ok s) <-> reads r s r' /\ length s = n.
Proof.
  unfold reader_take, reads, rest. case_bool_decide as Hle; split.
  - intros [= <- <-]. rewrite length_take, length_drop.
    replace (n `min` _) with n by lia. auto.
  - intros [(Hlen & Htake & ->) <-]. by rewrite Htake.
  - done.
  - intros [(Hlen & _) <-]. done.
Qed.

Lemma reader_length_spec value r r' n :
  reader_length value r = (r', Ok n) <->
  r' = r /\ value = N.of_nat n /\ n <= remaining r.
Proof.
  unfold reader_length. case_match; bool_prop; split.
  - done.
  - intros (_ & -> & ?). lia.
  - intros [= <- <-]. split; [done|]. lia.
  - intros (-> & -> & ?). by rewrite Nat2N.id.
Qed.

Lemma long_argument_spec n limit reason r r' value :
  long_argument n limit reason r = (r', Ok value) <->
  (limit < value < 256 ^ N.of_nat n)%N /\ reads r (to_be_bytes n value) r'.
Proof.
  unfold long_argument. rewrite eff_bind_Ok. setoid_rewrite reader_take_spec. split.
  - intros (r1 & s & [Hs <-] & Hk). cbv zeta in Hk. case_match; [done|].
    injection Hk as <- <-. bool_prop. pose proof (from_be_bytes_bound s).
    rewrite to_from_be_bytes. done.
  - intros [[Hlo Hhi] Hr]. exists r', (to_be_bytes n value).
    rewrite length_to_be_bytes. split; [done|]. rewrite from_to_be_bytes by done. cbv zeta.
    by rewrite (proj2 (N.leb_gt value limit)).
Qed.

Lemma read_argument_spec info r r' value :
  valid r ->
  read_argument info r = (r', Ok value) <->
  (value <= U64_MAX)%N /\ info = head_info value /\ reads r (head_argument value) r'.
Proof.
  intros Hval. split.
  - unfold read_argument. intros H.
    destruct (N.leb_spec info 23) as [Hi|Hi].
    { injection H as <- <-. unfold head_info, head_argument, U64_MAX.
      rewrite (proj2 (N.leb_le info 23) Hi). split; [lia|]. split; [done|]. by apply reads_nil. }
    repeat match type of H with (if (info =? ?k)%N then _ else _) _ = _ =>
      destruct (N.eqb_spec info k) as [->|?] end;
    try discriminate H; apply long_argument_spec in H as [[? ?] Hr]; cbn in *;
    unfold head_info, head_argument, U64_MAX;
    repeat match goal with |- context [(value <=? ?k)%N] =>
      destruct (N.leb_spec value k); [lia||idtac|lia||idtac] end;
    (split; [lia|]; by split).
  - intros (Hv & -> & Hr). unfold read_argument. revert Hr. unfold head_info, head_argument.
    destruct (N.leb_spec value 23) as [H1|H1].
    { rewrite (proj2 (N.leb_le value 23) H1). intros ->%reads_nil; done. }
    unfold U64_MAX in Hv.
    repeat match goal with |- context [(value <=? ?k)%N] =>
      destruct (N.leb_spec value k) end; cbn; intros; apply long_argument_spec; cbn;
    (split; [lia|done]).
Qed.

(** The head of every item: the reader accepts exactly what [head] writes. *)
Lemma reader_head_spec r r' major info value :
  reader_head r = (r', Ok (major, info, value)) <->
  is_major major /\ (value <= U64_MAX)%N /\ info = head_info value /\
  reads r (head major value) r'.
Proof.
  unfold reader_head. rewrite eff_bind_Ok. setoid_rewrite reader_take_spec. split.
  - intros (r1 & s & [Hs Hlen] & Hk). destruct s as [|a [|]]; try done. clear Hlen.
    destruct (initial_byte_split a) as (Hmaj & Hinf & Ha). cbv zeta in Hk.
    apply eff_bind_Ok in Hk as (r2 & v & Hv & Hk). injection Hk as <- <- <- <-.
    apply read_argument_spec in Hv as (Hv & Hi & Hr); [|by eapply reads_valid].
    split; [done|]. split; [done|]. split; [done|].
    rewrite head_split, <- Hi, Ha. apply (reads_app _ [a]). eauto.
  - intros (Hmaj & Hv & -> & Hr). rewrite head_split in Hr.
    set (a := ascii_of_N _) in *. apply (reads_app _ [a]) in Hr as (r1 & Ha & Hr).
    exists r1, [a]. split; [done|]. cbv zeta.
    destruct (initial_byte_fields major (head_info value)) as [Hm Hi]; [done|apply head_info_bound|].
    fold a in Hm, Hi. rewrite Hm, Hi. apply eff_bind_Ok. exists r', value. split; [|done].
    apply read_argument_spec; [by eapply reads_valid|done].
Qed.

(** ** Items *)

Lemma reads_remaining r bs r' : reads r bs r' -> length bs <= remaining r.
Proof. intros (H & _ & _). unfold remaining. lia. Qed.

Lemma len_u64_exact n : (N.of_nat n <= U64_MAX)%N -> len_u64 n = N.of_nat n.
Proof. unfold len_u64. lia. Qed.

Lemma encode_map_entries entries :
  List.map (fun e : Cbor * Cbor => let (key, value) := e in (encode key, encode value)) entries
  = (fun entry => (encode entry.1, encode entry.2)) <$> entries.
Proof. induction entries as [|[k v] es IH]; simpl; [done|]. by f_equal. Qed.

(** A map whose keys are already in order is encoded entry by entry. *)
Lemma encode_map_sorted entries :
  Sorted bytes_lt ((fun entry => encode entry.1) <$> entries) ->
  encode (CMap entries) =
  head MAJOR_MAP (len_u64 (length entries))
    ++ List.concat (List.map (fun entry => encode entry.1 ++ encode entry.2) entries).
Proof.
  intros Hs. cbn [encode]. cbv zeta.
  rewrite encode_map_entries, merge_sort_keyed.
  - rewrite length_fmap. f_equal. f_equal. apply List.map_map.
  - rewrite <- list_fmap_compose. exact Hs.
Qed.

Section ItemLoops.
  Context (item : eff Reader CborError Cbor) (can : Cbor -> Prop).
  Hypothesis item_spec : forall r r' c, valid r ->
    item r = (r', Ok c) <-> can c /\ reads r (encode c) r'.

Lemma read_items_spec count r r' items :
  valid r ->
  read_items item count r = (r', Ok items) <->
  length items = count /\ Forall can items /\ reads r (List.concat (List.map encode items)) r'.
Proof.
  revert r items; induction count as [|count IH]; intros r items Hval; cbn [read_items].
  - unfold eff_lift. split.
    + intros [= <- <-]. split; [done|]. split; [done|]. by apply reads_nil.
    + intros (Hlen & _ & Hr). apply nil_length_inv in Hlen as ->. apply reads_nil in Hr as ->; done.
  - rewrite eff_bind_Ok. split.
    + intros (r1 & c & Hc & Hk). apply eff_bind_Ok in Hk as (r2 & cs & Hcs & [= <- <-]).
      apply item_spec in Hc as [Hcan Hr]; [|done].
      apply IH in Hcs as (<- & Hall & Hrs); [|by eapply reads_valid].
      split; [done|]. split; [by constructor|]. cbn. apply reads_app. eauto.
    + intros (Hlen & Hall & Hr). destruct items as [|c cs]; [done|].
      cbn in Hr. apply reads_app in Hr as (r1 & Hr & Hrs). inversion Hall; subst.
      exists r1, c. split; [by apply item_spec|]. apply eff_bind_Ok. exists r', cs.
      split; [|done]. apply IH; [by eapply reads_valid|]. split; [by injection Hlen|done].
Qed.

Lemma reads_slice r bs r' :
  reads r bs r' -> take (rd_pos r' - rd_pos r) (drop (rd_pos r) (rd_bytes r')) = bs.
Proof. intros (_ & Htake & ->). simpl. rewrite <- Htake at 2. unfold rest. f_equal. lia. Qed.

Definition ordered_after (previous : option (list byte)) (key : list byte) : Prop :=
  match previous with
  | Some p => bytes_lt p key
  | None => True
  end.

Lemma key_out_of_order_false previous key :
  key_out_of_order previous key = false <-> ordered_after previous key.
Proof.
  destruct previous as [p|]; simpl; [|done].
  by rewrite bool_decide_eq_false, bytes_lt_not_le.
Qed.

Lemma read_entries_spec count previous r r' entries :
  valid r ->
  read_entries item count previous r = (r', Ok entries) <->
  length entries = count /\
  Forall (fun entry => can entry.1 /\ can entry.2) entries /\
  Sorted bytes_lt ((fun entry => encode entry.1) <$> entries) /\
  match entries with [] => True | entry :: _ => ordered_after previous (encode entry.1) end /\
  reads r (List.concat (List.map (fun entry => encode entry.1 ++ encode entry.2) entries)) r'.
Proof.
  revert previous r entries; induction count as [|count IH]; intros previous r entries Hval;
    cbn [read_entries].
  - unfold eff_lift. split.
    + intros [= <- <-]. do 4 (split; [by constructor|]). by apply reads_nil.
    + intros (Hlen & _ & _ & _ & Hr). apply nil_length_inv in Hlen as ->.
      apply reads_nil in Hr as ->; done.
  - rewrite eff_bind_Ok. split.
    + intros (r1 & k & Hk & Hrest). apply item_spec in Hk as [Hkcan Hkr]; [|done].
      cbv zeta in Hrest. rewrite (reads_slice _ _ _ Hkr) in Hrest.
      destruct (key_out_of_order previous (encode k)) eqn:Hord; [done|].
      apply key_out_of_order_false in Hord.
      apply eff_bind_Ok in Hrest as (r2 & v & Hv & Hrest).
      apply item_spec in Hv as [Hvcan Hvr]; [|by eapply reads_valid].
      apply eff_bind_Ok in Hrest as (r3 & es & Hes & [= <- <-]).
      apply IH in Hes as (<- & Hall & Hsort & Hhd & Hrs); [|by eapply reads_valid].
      split; [done|]. split; [by constructor|].
      split; [|split; [done|]].
      * constructor; [done|]. destruct es; by constructor.
      * cbn. apply reads_app. exists r2. split; [|done]. apply reads_app. eauto.
    + intros (Hlen & Hall & Hsort & Hhd & Hr). destruct entries as [|[k v] es]; [done|].
      cbn in Hr. apply reads_app in Hr as (r2 & Hkv & Hrs).
      apply reads_app in Hkv as (r1 & Hkr & Hvr). inversion Hall as [|? ? [Hkc Hvc] Hall']; subst.
      simpl in *. exists r1, k. split; [by apply item_spec|].
      cbv zeta. rewrite (reads_slice _ _ _ Hkr).
      rewrite (proj2 (key_out_of_order_false _ _) Hhd).
      apply eff_bind_Ok. exists r2, v. split; [by apply item_spec; [eapply reads_valid|]|].
      apply eff_bind_Ok. exists r', es. split; [|done]. apply IH; [by eapply reads_valid|].
      inversion Hsort as [|? ? Hs Hh]; subst. split; [by injection Hlen|]. split; [done|].
      split; [done|]. split; [|done]. destruct es; [done|]. by inversion Hh.
Qed.
End ItemLoops.

(** Every item is a head followed by its content. *)
Definition item_major (item : Cbor) : N :=
  match item with
  | Uint _ => MAJOR_UINT
  | Nint _ => MAJOR_NINT
  | CBytes _ => MAJOR_BYTES
  | Text _ => MAJOR_TEXT
  | Array _ => MAJOR_ARRAY
  | CMap _ => MAJOR_MAP
  | CBool _ | Null => MAJOR_SIMPLE
  end.

Definition item_argument (item : Cbor) : N :=
  match item with
  | Uint value | Nint value => value
  | CBytes bytes => N.of_nat (length bytes)
  | Text text => N.of_nat (String.length text)
  | Array items => N.of_nat (length items)
  | CMap entries => N.of_nat (length entries)
  | CBool false => 20
  | CBool true => 21
  | Null => 22
  end.

Definition item_content (item : Cbor) : list byte :=
  match item with
  | CBytes bytes => bytes
  | Text text => as_bytes text
  | Array items => List.concat (List.map encode items)
  | CMap entries =>
      List.concat (List.map (fun entry => encode entry.1 ++ encode entry.2) entries)
  | Uint _ | Nint _ | CBool _ | Null => []
  end.

Lemma item_major_ok item : is_major (item_major item).
Proof. exists (item_major item / 32)%N. by destruct item. Qed.

Lemma item_argument_bound levels item :
  canonical levels item -> (item_argument item <= U64_MAX)%N.
Proof.
  destruct levels as [|next]; [done|].
  destruct item as [v|v|bs|t|items|entries|[]|]; cbn -[U64_MAX]; intros H; destruct_and?; done.
Qed.

Lemma encode_split levels item :
  canonical levels item ->
  encode item = head (item_major item) (item_argument item) ++ item_content item.
Proof.
  destruct levels as [|next]; [done|].
  destruct item as [v|v|bs|t|items|entries|[]|]; cbn -[encode U64_MAX]; intros H; destruct_and?;
    rewrite ?encode_map_sorted by done; cbn [encode];
    rewrite ?len_u64_exact, ?app_nil_r by done; done.
Qed.

Lemma concat_length_ge {A} (f : A -> list byte) (l : list A) :
  (forall x, 1 <= length (f x)) -> length l <= length (List.concat (List.map f l)).
Proof.
  intros Hf. induction l as [|x l IH]; simpl; [lia|].
  rewrite length_app. specialize (Hf x). lia.
Qed.

Section Body.
  Context (next : nat).
  Hypothesis next_spec : forall r r' c, valid r ->
    reader_item next r = (r', Ok c) <-> canonical next c /\ reads r (encode c) r'.

Lemma item_body_sound r r' major value item :
  valid r -> is_major major -> (value <= U64_MAX)%N ->
  item_body (reader_item next) major (head_info value) value r = (r', Ok item) ->
  canonical (S next) item /\ major = item_major item /\ value = item_argument item /\
  reads r (item_content item) r'.
Proof.
  intros Hval Hmaj Hv.
  unfold item_body. intros H.
  repeat match type of H with (if (major =? ?k)%N then _ else _) _ = _ =>
    destruct (N.eqb_spec major k) as [->|_] end.
  - injection H as <- <-. repeat (split; [done|]). by apply reads_nil.
  - injection H as <- <-. repeat (split; [done|]). by apply reads_nil.
  - apply eff_bind_Ok in H as (r1 & n & (-> & -> & Hn)%reader_length_spec & H).
    apply eff_bind_Ok in H as (r2 & bs & [Hr <-]%reader_take_spec & [= <- <-]).
    done.
  - apply eff_bind_Ok in H as (r1 & n & (-> & -> & Hn)%reader_length_spec & H).
    apply eff_bind_Ok in H as (r2 & bs & [Hr <-]%reader_take_spec & H).
    destruct (utf8_valid (of_bytes bs)) eqn:Hutf; [|done]. injection H as <- <-. cbn.
    rewrite <- length_as_bytes, as_bytes_of_bytes. done.
  - apply eff_bind_Ok in H as (r1 & n & (-> & -> & Hn)%reader_length_spec & H).
    apply eff_bind_Ok in H as (r2 & items & Hi & [= <- <-]).
    apply (read_items_spec _ _ next_spec) in Hi as (<- & ? & ?); done.
  - apply eff_bind_Ok in H as (r1 & n & (-> & -> & Hn)%reader_length_spec & H).
    apply eff_bind_Ok in H as (r2 & entries & Hi & [= <- <-]).
    apply (read_entries_spec _ _ next_spec) in Hi as (<- & ? & ? & _ & ?); done.
  - repeat match type of H with (if (head_info value =? ?k)%N then _ else _) _ = _ =>
      destruct (N.eqb_spec (head_info value) k) as [Hi|_];
      [apply head_info_small in Hi as ->; [|done]; injection H as <- <-;
       repeat (split; [done|]); by apply reads_nil|] end.
    done.
  - done.
Qed.

Lemma item_body_complete r r' major value item :
  valid r -> (value <= U64_MAX)%N ->
  canonical (S next) item /\ major = item_major item /\ value = item_argument item /\
  reads r (item_content item) r' ->
  item_body (reader_item next) major (head_info value) value r = (r', Ok item).
Proof.
  intros Hval Hv (Hcan & -> & -> & Hr). pose proof (reads_remaining _ _ _ Hr) as Hrem.
  destruct item as [v|v|bs|t|items|entries|[]|]; cbn -[U64_MAX encode] in Hcan, Hr, Hrem, Hv |- *;
    try (apply reads_nil in Hr as ->; done).
  - apply eff_bind_Ok. exists r, (length bs). split; [by apply reader_length_spec|].
    apply eff_bind_Ok. exists r', bs. split; [by apply reader_take_spec|done].
  - apply eff_bind_Ok. exists r, (String.length t). rewrite length_as_bytes in Hrem.
    split; [by apply reader_length_spec|]. apply eff_bind_Ok. exists r', (as_bytes t).
    split; [apply reader_take_spec; by rewrite length_as_bytes|].
    rewrite of_bytes_as_bytes. by destruct Hcan as [-> _].
  - pose proof (concat_length_ge encode items encode_not_nil).
    apply eff_bind_Ok. exists r, (length items).
    split; [apply reader_length_spec; repeat split; lia|].
    apply eff_bind_Ok. exists r', items. split; [|done].
    apply (read_items_spec _ _ next_spec); [done|]. by destruct Hcan.
  - pose proof (concat_length_ge (fun e => encode e.1 ++ encode e.2) entries) as Hge.
    apply eff_bind_Ok. exists r, (length entries). split.
    { apply reader_length_spec. split; [done|]. split; [done|]. etrans; [apply Hge|done].
      intros e. rewrite length_app. pose proof (encode_not_nil e.1). lia. }
    apply eff_bind_Ok. exists r', entries. split; [|done].
    apply (read_entries_spec _ _ next_spec); [done|]. destruct Hcan as (? & ? & ?).
    do 3 (split; [done|]). split; [|done]. by destruct entries.
Qed.
End Body.

(** The reader accepts exactly the encodings of canonical items. *)
Lemma reader_item_spec levels r r' item :
  valid r ->
  reader_item levels r = (r', Ok item) <-> canonical levels item /\ reads r (encode item) r'.
Proof.
  revert r r' item; induction levels as [|next IH]; intros r r' item Hval;
    [split; [done|by intros [[] _]]|].
  cbn [reader_item]. rewrite eff_bind_Ok. split.
  - intros (r1 & [[major info] value] & (Hmaj & Hv & -> & Hr)%reader_head_spec & H).
    apply (item_body_sound _ IH) in H as (Hcan & -> & -> & Hr'); [|by eapply reads_valid|done|done].
    split; [done|]. rewrite (encode_split _ _ Hcan). apply reads_app. eauto.
  - intros [Hcan Hr]. rewrite (encode_split _ _ Hcan) in Hr. apply reads_app in Hr as (r1 & Hh & Hc).
    pose proof (item_argument_bound _ _ Hcan). pose proof (item_major_ok item).
    exists r1, (item_major item, head_info (item_argument item), item_argument item).
    split; [by apply reader_head_spec|].
    apply (item_body_complete _ IH); [by eapply reads_valid|done..].
Qed.

Lemma decode_iff bytes item :
  decode bytes = Ok item <-> canonical (S MAX_DEPTH) item /\ bytes = encode item.
Proof.
  unfold decode. assert (valid (MkReader bytes 0)) as Hval by (unfold valid; simpl; lia).
  pose proof (reader_item_spec (S MAX_DEPTH) (MkReader bytes 0)) as Hspec. split.
  - destruct (reader_item _ _) as [r [item'|e]]; [|done]. case_bool_decide as Hend; [|done].
    intros [= ->]. destruct (proj1 (Hspec r item Hval) eq_refl) as [Hcan (Hl & Htake & ->)].
    split; [done|]. unfold rest in Htake. cbn [rd_pos rd_bytes] in Htake, Hend.
    rewrite drop_0 in Htake. rewrite <- Htake. change (length (encode item) = length bytes) in Hend.
    by rewrite Hend, firstn_all.
  - intros [Hcan ->].
    rewrite (proj2 (Hspec (MkReader (encode item) (length (encode item))) item Hval)).
    + by rewrite bool_decide_true.
    + split; [done|]. split; [done|]. split; [|done]. unfold rest. cbn [rd_pos rd_bytes].
      by rewrite drop_0, firstn_all.
Qed.

Lemma encode_canonical_inj a b :
  canonical (S MAX_DEPTH) a -> canonical (S MAX_DEPTH) b -> encode a = encode b -> a = b.
Proof.
  intros Ha Hb Heq. enough (@Ok Cbor CborError a = Ok b) by congruence.
  rewrite <- (proj2 (decode_iff (encode a) a)) by done. apply decode_iff. done.
Qed.

(** ** Normal forms

    The encoder sorts the entries of a map, so it accepts them in any order as
    long as no key repeats; what decodes back is the sorted item. *)
Fixpoint encodable (levels : nat) (item : Cbor) : Prop :=
  match levels with
  | O => False
  | S next =>
      match item with
      | Uint value | Nint value => (value <= U64_MAX)%N
      | CBytes bytes => (N.of_nat (length bytes) <= U64_MAX)%N
      | Text text => utf8_valid text = true /\ (N.of_nat (String.length text) <= U64_MAX)%N
      | Array items => Forall (encodable next) items /\ (N.of_nat (length items) <= U64_MAX)%N
      | CMap entries =>
          Forall (fun entry => encodable next entry.1 /\ encodable next entry.2) entries
          /\ NoDup ((fun entry => encode entry.1) <$> entries)
          /\ (N.of_nat (length entries) <= U64_MAX)%N
      | CBool _ | Null => True
      end
  end.

Fixpoint normalize (item : Cbor) : Cbor :=
  match item with
  | Array items => Array (List.map normalize items)
  | CMap entries =>
      CMap (merge_sort (key_le (fun entry => encode entry.1))
              (List.map (fun entry =>
                 match entry with (key, value) => (normalize key, normalize value) end) entries))
  | _ => item
  end.

Lemma normalize_map_entries entries :
  List.map (fun e : Cbor * Cbor => let (key, value) := e in (normalize key, normalize value)) entries
  = (fun entry => (normalize entry.1, normalize entry.2)) <$> entries.
Proof. induction entries as [|[k v] es IH]; simpl; [done|]. by f_equal. Qed.

Lemma encode_normalize levels item :
  encodable levels item -> encode (normalize item) = encode item.
Proof.
  revert item; induction levels as [|next IH]; intros item; [done|].
  destruct item as [v|v|bs|t|items|entries|b|]; cbn -[U64_MAX]; try done.
  - intros [Hall _]. rewrite length_map, List.map_map. do 2 f_equal.
    induction Hall; simpl; [done|]. by rewrite IH, IHHall.
  - intros (Hall & Hnd & _). rewrite normalize_map_entries, !encode_map_entries. cbv zeta.
    set (f := fun entry : Cbor * Cbor => (encode entry.1, encode entry.2)).
    set (g := fun entry : Cbor * Cbor => (normalize entry.1, normalize entry.2)).
    assert (f <$> (g <$> entries) = f <$> entries) as Hfg.
    { clear Hnd. unfold f, g. induction Hall as [|e es [Hk Hv] Hall IHall]; [done|].
      rewrite !fmap_cons. simpl. by rewrite !IH, IHall. }
    assert (merge_sort (key_le fst) (f <$> merge_sort (key_le (fun e => encode e.1)) (g <$> entries))
            = merge_sort (key_le fst) (f <$> entries)) as ->; [|done].
    symmetry. apply merge_sort_perm.
    + by rewrite <- list_fmap_compose.
    + rewrite <- Hfg at 1. apply fmap_Permutation. by rewrite merge_sort_Permutation.
Qed.

Lemma canonical_normalize levels item :
  encodable levels item -> canonical levels (normalize item).
Proof.
  revert item; induction levels as [|next IH]; intros item; [done|].
  destruct item as [v|v|bs|t|items|entries|b|]; cbn -[U64_MAX]; try done.
  - intros [Hall Hlen]. rewrite length_map. split; [|done].
    apply List.Forall_map. eapply Forall_impl; [exact Hall|]. exact IH.
  - intros (Hall & Hnd & Hlen). rewrite normalize_map_entries.
    assert ((fun e : Cbor * Cbor => encode e.1) <$>
              ((fun entry => (normalize entry.1, normalize entry.2)) <$> entries)
            = (fun e => encode e.1) <$> entries) as Hkeys.
    { rewrite <- list_fmap_compose. clear Hnd Hlen. induction Hall as [|e es [Hk _] _ IHall]; [done|].
      rewrite !fmap_cons, IHall. simpl. by rewrite (encode_normalize next). }
    split; [|split].
    + rewrite merge_sort_Permutation. apply Forall_fmap. eapply Forall_impl; [exact Hall|].
      intros e [Hk Hv]. simpl. auto.
    + apply merge_sort_lt_sorted. by rewrite Hkeys.
    + by rewrite merge_sort_Permutation, length_fmap.
Qed.

(** ** Encodings determine items *)

Lemma encode_inj levels a b :
  canonical levels a -> canonical levels b -> encode a = encode b -> a = b.
Proof.
  intros Ha Hb Heq. set (r := MkReader (encode a) 0).
  set (r' := MkReader (encode a) (length (encode a))).
  assert (valid r) as Hval by (unfold valid; simpl; lia).
  assert (reads r (encode a) r') as Hr.
  { unfold reads, rest. cbn [rd_pos rd_bytes r]. rewrite drop_0, firstn_all. done. }
  pose proof (proj2 (reader_item_spec levels r r' a Hval) (conj Ha Hr)) as H1.
  rewrite Heq in Hr. pose proof (proj2 (reader_item_spec levels r r' b Hval) (conj Hb Hr)) as H2.
  congruence.
Qed.

Lemma canonical_S levels item : canonical levels item -> canonical (S levels) item.
Proof.
  revert item; induction levels as [|next IH]; intros item; [done|].
  change (canonical (S next) item -> canonical (S (S next)) item).
  destruct item as [v|v|bs|t|items|entries|b|]; try done; intros H; destruct H as [Hall H]; split; try done.
  - eapply Forall_impl; [exact Hall|]. exact IH.
  - eapply Forall_impl; [exact Hall|]. intros e [? ?]. split; by apply IH.
Qed.

Lemma canonical_mono levels levels' item :
  levels <= levels' -> canonical levels item -> canonical levels' item.
Proof. induction 1; [done|]. intros ?. apply canonical_S. auto. Qed.

Lemma encodable_S levels item : encodable levels item -> encodable (S levels) item.
Proof.
  revert item; induction levels as [|next IH]; intros item; [done|].
  change (encodable (S next) item -> encodable (S (S next)) item).
  destruct item as [v|v|bs|t|items|entries|b|]; try done; intros H; destruct H as [Hall H]; split; try done.
  - eapply Forall_impl; [exact Hall|]. exact IH.
  - eapply Forall_impl; [exact Hall|]. intros e [? ?]. split; by apply IH.
Qed.

Lemma encodable_mono levels levels' item :
  levels <= levels' -> encodable levels item -> encodable levels' item.
Proof. induction 1; [done|]. intros ?. apply encodable_S. auto. Qed.

(** Encodable items with one encoding have one normal form. *)
Lemma encode_normal_inj la lb a b :
  encodable la a -> encodable lb b -> encode a = encode b -> normalize a = normalize b.
Proof.
  intros Ha Hb Heq. apply (encode_inj (la `max` lb)).
  - eapply canonical_mono; [apply Nat.le_max_l|]. by apply canonical_normalize.
  - eapply canonical_mono; [apply Nat.le_max_r|]. by apply canonical_normalize.
  - by rewrite (encode_normalize la), (encode_normalize lb).
Qed.

Lemma encode_Text_inj a b :
  utf8_valid a = true -> utf8_valid b = true ->
  (N.of_nat (String.length a) <= U64_MAX)%N -> (N.of_nat (String.length b) <= U64_MAX)%N ->
  encode (Text a) = encode (Text b) -> a = b.
Proof.
  intros. enough (Text a = Text b) by congruence. apply (encode_inj 1); done.
Qed.

Lemma decode_encodable item :
  encodable (S MAX_DEPTH) item -> decode (encode item) = Ok (normalize item).
Proof.
  intros Henc. apply decode_iff.
  split; [by apply canonical_normalize|]. by rewrite (encode_normalize (S MAX_DEPTH)).
Qed.

(** ** Claim *)

(** C27: Decoding succeeds exactly on the deterministic encoding of a canonical
    item of at most [MAX_DEPTH] nested levels and returns that item, so no
    item has a second accepted encoding (no longer heads, no reordered or
    repeated map keys, no trailing bytes).  An item whose maps list distinct
    keys in any order decodes, once encoded, to the same item with its maps
    sorted. *)
Theorem decode_exact bytes item :
  (decode bytes = Ok item <-> canonical (S MAX_DEPTH) item /\ bytes = encode item) /\
  (encodable (S MAX_DEPTH) item -> decode (encode item) = Ok (normalize item)).
Proof. split; [apply decode_iff|apply decode_encodable]. Qed.

Lemma decode_exact_witness :
  decode (encode (CMap [(Uint 2, Null); (Uint 1, Array [CBool true])]))
  = Ok (CMap [(Uint 1, Array [CBool true]); (Uint 2, Null)]).
Proof.
  apply (decode_exact [] (CMap [(Uint 2, Null); (Uint 1, Array [CBool true])])).
  apply (encodable_mono 3); [unfold MAX_DEPTH; lia|]. split; [|split].
  - repeat constructor; discriminate.
  - apply NoDup_cons. split; [|apply NoDup_singleton]. intros Hin%list_elem_of_singleton. discriminate.
  - discriminate.
Defined.
