(* ===== verification/Crypto.v ===== *)
(** * Cryptographic primitives

    [crates/astrid-crypto/src/{hash, keypair, signature}.rs] wrap third-party
    primitives: BLAKE3, SHA-256, HMAC-SHA256 and Ed25519.  They are the class
    [Crypto]; [CryptoLaws] says that an honest signature verifies, which is
    all the proofs use of Ed25519.  Nothing is assumed about collisions: the
    theorems that need an absence of collisions name the inputs it is needed
    for.  [toy_crypto] is an instance for evaluation.

    The text form of a UUID is the class [UuidText]: the [uuid] crate displays
    one as 36 lowercase hexadecimal digits and hyphens, and reads that text
    back.  [hyphenated] is an instance for evaluation. *)

From S2P Require Import Prelude Bytes.
From Stdlib Require Import Ascii.

Abbreviation Uuid := (array 16).
Abbreviation PublicKey := (array 32).
Abbreviation Signature := (array 64).
Abbreviation ContentHash := (array 32).

Class Crypto : Type := {
  sha256 : list byte -> array 32;
  blake3 : list byte -> array 32;
  hmac_sha256 : list byte -> list byte -> array 32;
  KeyPair : Type;
  export_public_key : KeyPair -> PublicKey;
  sign : KeyPair -> list byte -> Signature;
  verify : PublicKey -> list byte -> Signature -> bool;
  verify_strict : PublicKey -> list byte -> Signature -> bool;
}.

Class CryptoLaws `{Crypto} : Prop := {
  sign_verify : forall k m, verify (export_public_key k) m (sign k m) = true;
  sign_verify_strict : forall k m, verify_strict (export_public_key k) m (sign k m) = true;
}.

(** [ContentHash::zero], [ContentHash::is_zero], [ContentHash::hash]. *)
Definition ContentHash_zero : ContentHash := zero_array 32.
Definition is_zero (h : ContentHash) : bool := bool_decide (h = ContentHash_zero).
Definition ContentHash_hash `{Crypto} (data : list byte) : ContentHash := blake3 data.

(** ** The text of a UUID *)

Class UuidText : Type := {
  uuid_to_string : Uuid -> string;
  uuid_parse_str : string -> option Uuid;
}.

Definition is_uuid_char (a : ascii) : bool :=
  let x := N_of_ascii a in is_ascii_digit x || ((97 <=? x) && (x <=? 102))%N || (x =? char_dash)%N.

Class UuidTextLaws `{UuidText} : Prop := {
  uuid_roundtrip u : uuid_parse_str (uuid_to_string u) = Some u;
  uuid_length u : String.length (uuid_to_string u) = 36%nat;
  uuid_chars u : str_all is_uuid_char (uuid_to_string u) = true;
}.

Lemma uuid_to_string_inj `{UuidTextLaws} u v : uuid_to_string u = uuid_to_string v -> u = v.
Proof. intros Heq. apply (inj Some). by rewrite <- !uuid_roundtrip, Heq. Qed.

Lemma uuid_avoids `{UuidTextLaws} u c : is_uuid_char c = false -> contains_char c (uuid_to_string u) = false.
Proof. intros Hc. by apply (str_all_avoids is_uuid_char); [apply uuid_chars|]. Qed.

(** ** An instance for evaluation

    A hash rolls the input through a register of 32 bytes that starts with a
    salt in every byte; a signature is the key followed by the hash of the
    message. *)

Program Definition int_array (n : nat) (v : N) : array n := MkArray (to_be_bytes n v) _.
Next Obligation. intros n v. apply bool_decide_eq_true. apply length_to_be_bytes. Qed.

Definition byte_mix (a b : byte) : byte :=
  match a, b with
  | Ascii a0 a1 a2 a3 a4 a5 a6 a7, Ascii b0 b1 b2 b3 b4 b5 b6 b7 =>
      Ascii (xorb a7 b0) (xorb a0 b1) (xorb a1 b2) (xorb a2 b3) (xorb a3 b4) (xorb a4 b5) (xorb a5 b6)
        (xorb a6 b7)
  end.

Definition toy_absorb (state : list byte) (b : byte) : list byte :=
  match state with [] => [] | a :: state => state ++ [byte_mix a b] end.

Program Definition toy_hash (salt : N) (l : list byte) : array 32 :=
  MkArray (fold_left toy_absorb l (repeat (ascii_of_N salt) 32)) _.
Next Obligation.
  intros salt l. apply bool_decide_eq_true. revert l.
  assert (forall l state, length (fold_left toy_absorb l state) = length state) as Hlen.
  { induction l as [|b l IH]; [reflexivity|]. intros [|a state]; simpl; rewrite IH; [reflexivity|].
    rewrite length_app. simpl. lia. }
  intros l. by rewrite Hlen, repeat_length.
Qed.

Program Definition toy_sign (k : array 32) (m : list byte) : array 64 :=
  MkArray (arr k ++ arr (toy_hash 7 m)) _.
Next Obligation.
  intros k m. apply bool_decide_eq_true. by rewrite length_app, !arr_length.
Qed.

Definition toy_verify (k : array 32) (m : list byte) (s : array 64) : bool :=
  bool_decide (s = toy_sign k m).

Definition toy_crypto : Crypto := {|
  sha256 := toy_hash 1;
  blake3 := toy_hash 2;
  hmac_sha256 := fun key m => toy_hash 3 (key ++ m);
  KeyPair := array 32;
  export_public_key := id;
  sign := toy_sign;
  verify := toy_verify;
  verify_strict := toy_verify;
|}.

Lemma toy_crypto_laws : @CryptoLaws toy_crypto.
Proof. split; intros k m; by apply bool_decide_eq_true. Qed.

(** ** The hyphenated form of a UUID *)

Definition hex_digit (b0 b1 b2 b3 : bool) : byte :=
  let n := N_of_ascii (Ascii b0 b1 b2 b3 false false false false) in
  ascii_of_N (if n <? 10 then 48 + n else 87 + n)%N.

Definition hex_value (c : byte) : byte :=
  let x := N_of_ascii c in ascii_of_N (if is_ascii_digit x then x - 48 else x - 87)%N.

Definition hex_digits (b : byte) : list byte :=
  match b with Ascii b0 b1 b2 b3 b4 b5 b6 b7 => [hex_digit b4 b5 b6 b7; hex_digit b0 b1 b2 b3] end.

Definition hex_byte (c d : byte) : byte :=
  match hex_value c, hex_value d with
  | Ascii c0 c1 c2 c3 _ _ _ _, Ascii d0 d1 d2 d3 _ _ _ _ => Ascii d0 d1 d2 d3 c0 c1 c2 c3
  end.

Fixpoint hex_join (l : list byte) : list byte :=
  match l with
  | c :: d :: rest => hex_byte c d :: hex_join rest
  | _ => []
  end.

Definition hex_text (l : list byte) : list byte := List.concat (hex_digits <$> l).

Definition uuid_groups (l : list byte) : list (list byte) :=
  [take 4 l; take 2 (drop 4 l); take 2 (drop 6 l); take 2 (drop 8 l); drop 10 l].

Fixpoint join_dash (groups : list (list byte)) : list byte :=
  match groups with
  | [] => []
  | [group] => group
  | group :: rest => group ++ "-"%char :: join_dash rest
  end.

Definition hyphenated : UuidText := {|
  uuid_to_string := fun u => of_bytes (join_dash (hex_text <$> uuid_groups (arr u)));
  uuid_parse_str := fun s =>
    array_try_from 16 (hex_join (List.filter (fun c => negb (Ascii.eqb c "-")) (as_bytes s)));
|}.

Lemma hex_text_spec l : hex_join (hex_text l) = l.
Proof.
  induction l as [|b l IH]; [done|]. destruct b as [[] [] [] [] [] [] [] []]; unfold hex_text; simpl; f_equal; exact IH.
Qed.

Lemma hex_digits_spec b c :
  c ∈ hex_digits b -> is_uuid_char c = true /\ Ascii.eqb c "-" = false.
Proof.
  destruct b as [b0 b1 b2 b3 b4 b5 b6 b7]. unfold hex_digits. rewrite !elem_of_cons. intros [->|[->|Hc]].
  - by destruct b4, b5, b6, b7.
  - by destruct b0, b1, b2, b3.
  - by apply elem_of_nil in Hc.
Qed.

Lemma hex_text_chars l c : c ∈ hex_text l -> is_uuid_char c = true /\ Ascii.eqb c "-" = false.
Proof.
  intros (x & Hx & Hin)%list_elem_of_In%in_concat. apply list_elem_of_In, list_elem_of_fmap in Hx as (b & -> & _).
  apply (hex_digits_spec b). by apply list_elem_of_In.
Qed.

Lemma hex_text_undash l : List.filter (fun c => negb (Ascii.eqb c "-")) (hex_text l) = hex_text l.
Proof.
  assert (forall c, c ∈ hex_text l -> negb (Ascii.eqb c "-") = true) as Hl.
  { intros c [_ Hc]%hex_text_chars. by rewrite Hc. }
  revert Hl. generalize (hex_text l). intros t Ht. induction t as [|c t IH]; [done|]. simpl.
  rewrite (Ht c) by apply list_elem_of_here. f_equal. apply IH. intros d Hd. apply Ht. by apply list_elem_of_further.
Qed.

Lemma hex_text_length l : length (hex_text l) = (2 * length l)%nat.
Proof.
  induction l as [|b l IH]; [done|]. change (hex_text (b :: l)) with (hex_digits b ++ hex_text l).
  rewrite length_app, IH. destruct b. simpl. lia.
Qed.

Lemma uuid_groups_16 (u : Uuid) : hex_join (hex_text (List.concat (uuid_groups (arr u)))) = arr u.
Proof.
  rewrite hex_text_spec. unfold uuid_groups. simpl. rewrite app_nil_r.
  replace (drop 6 (arr u)) with (drop 2 (drop 4 (arr u))) by apply drop_drop.
  replace (drop 8 (arr u)) with (drop 2 (drop 2 (drop 4 (arr u)))) by (by rewrite !drop_drop).
  replace (drop 10 (arr u)) with (drop 2 (drop 2 (drop 2 (drop 4 (arr u))))) by (by rewrite !drop_drop).
  by rewrite !take_drop.
Qed.

Lemma hyphenated_laws : @UuidTextLaws hyphenated.
Proof.
  split; intros u; simpl.
  - rewrite as_bytes_of_bytes, <- (array_try_from_arr u). f_equal.
    etransitivity; [|apply uuid_groups_16]. f_equal. unfold uuid_groups. simpl. repeat (rewrite List.filter_app, hex_text_undash; simpl). rewrite hex_text_undash.
    unfold hex_text. rewrite app_nil_r, !fmap_app, !concat_app. reflexivity.
  - rewrite <- length_as_bytes, as_bytes_of_bytes. simpl.
    rewrite !length_app, !length_cons, !length_app, !length_cons, !length_app, !length_cons, !length_app, !length_cons,
      !hex_text_length, !length_take, !length_drop, (arr_length u). done.
  - apply str_all_of_bytes. intros c. simpl. rewrite !elem_of_app, !elem_of_cons, !elem_of_app, !elem_of_cons,
      !elem_of_app, !elem_of_cons, !elem_of_app, !elem_of_cons.
    intros Hc. repeat (destruct Hc as [Hc|Hc]; [try (by apply hex_text_chars in Hc as [? _]); by subst|]).
    by apply hex_text_chars in Hc as [? _].
Qed.
