(* ===== verification/KeyRegistry.v ===== *)
(** * The audit key registry

    [crates/astrid-audit/src/entry_v2/registry.rs]: the cross-signed chain of
    records that says which Ed25519 key holds which signing role in which
    registry state, and [timestamp_nanos] and the domain tags of
    [entry_v2/body.rs] it shares with audit entries.

    A [Timestamp] is its offset from the Unix epoch in nanoseconds.  Each
    message of [registry_error] is a constructor of [RegistryRefusal] with the
    values the message interpolates. *)

From stdpp Require Import sorting.
From S2P Require Import Prelude Bytes Cbor Crypto.
Local Open Scope string_scope.
Local Open Scope list_scope.


(** [timestamp_nanos_opt] is [None] outside the [i64] range, and
    [u64::try_from] outside the non-negative one. *)
Definition timestamp_nanos (timestamp : Timestamp) : option N :=
  if bool_decide (- 2 ^ 63 <= timestamp < 2 ^ 63)%Z
  then if bool_decide (0 <= timestamp)%Z then Some (Z.to_N timestamp) else None
  else None.

Definition REGISTRY_TAG : string := "astrid.audit.key-registry.v2".
Definition SIGNATURE_TAG : string := "astrid.audit.sig.v2".

Inductive KeyRole : Type := Audit | Capability | Build | AuditV1.

#[export] Instance KeyRole_eq_dec : EqDecision KeyRole.
Proof. solve_decision. Defined.

Definition role_code (role : KeyRole) : N :=
  match role with Audit => 1 | Capability => 2 | Build => 3 | AuditV1 => 4 end.

Definition role_from_code (code : N) : option KeyRole :=
  if (code =? 1)%N then Some Audit
  else if (code =? 2)%N then Some Capability
  else if (code =? 3)%N then Some Build
  else if (code =? 4)%N then Some AuditV1
  else None.

Record KeyBinding : Type := MkKeyBinding { kb_role : KeyRole; kb_key : PublicKey }.

#[export] Instance KeyBinding_eq_dec : EqDecision KeyBinding.
Proof. solve_decision. Defined.

(** [KeyBinding::sort_key], compared as a tuple: role code first. *)
Definition sort_key_lt (a b : KeyBinding) : Prop :=
  (role_code (kb_role a) < role_code (kb_role b))%N \/
  (role_code (kb_role a) = role_code (kb_role b) /\ bytes_lt (arr (kb_key a)) (arr (kb_key b))).
Definition sort_key_le (a b : KeyBinding) : Prop :=
  (role_code (kb_role a) < role_code (kb_role b))%N \/
  (role_code (kb_role a) = role_code (kb_role b) /\ bytes_le (arr (kb_key a)) (arr (kb_key b))).

#[export] Instance sort_key_lt_dec : RelDecision sort_key_lt.
Proof. intros a b. unfold sort_key_lt. apply _. Defined.
#[export] Instance sort_key_le_dec : RelDecision sort_key_le.
Proof. intros a b. unfold sort_key_le. apply _. Defined.

Definition binding_item (b : KeyBinding) : Cbor :=
  Array [Uint (role_code (kb_role b)); CBytes (arr (kb_key b))].

Inductive RegistryOp : Type := Genesis | Rotate.

#[export] Instance RegistryOp_eq_dec : EqDecision RegistryOp.
Proof. solve_decision. Defined.

Definition op_code (op : RegistryOp) : N := match op with Genesis => 0 | Rotate => 1 end.

Record RegistrySignature : Type := MkRegistrySignature { rs_key : PublicKey; rs_signature : Signature }.

Record KeyRegistryRecord : Type := MkKeyRegistryRecord {
  kr_seq : N;
  kr_prev : array 32;
  kr_timestamp : Timestamp;
  kr_op : RegistryOp;
  kr_add : list KeyBinding;
  kr_retire : list KeyBinding;
  kr_signatures : list RegistrySignature;
}.

Inductive RegistryRefusal : Type :=
| PrivateHalfNotSupplied
| NeedsGenesisRecord
| SequenceExhausted
| RegistryTooLong
| OutOfSequence (seq expected_seq : N)
| NotLinked (seq : N)
| TimeNotRepresentable
| GenesisNotFirst
| GenesisRegistersKeys
| RoleBoundTwice
| NotOneAuditKey
| AuditKeyHoldsAnotherRole
| RotationNeedsGenesis
| RotationNotOneKey
| RotationChangesRole
| RotationNotActiveKey
| RotationKnownKey
| BindingsNotSorted
| SignaturesMismatch (seq : N)
| InvalidRegistrySignature (seq : N) (key : PublicKey).

Record Grant : Type := MkGrant { g_binding : KeyBinding; g_from : N; g_until : option N }.

(** [Grant::covers]. *)
Definition covers (g : Grant) (epoch : N) : bool :=
  (g_from g <=? epoch)%N &&
  match g_until g with None => true | Some until => (epoch <? until)%N end.

Record KeyRegistry : Type := MkKeyRegistry {
  records : list KeyRegistryRecord;
  hashes : list (array 32);
  grants : list Grant;
}.

(** [slice::dedup]: drops an element equal to the one before it. *)
Fixpoint dedup {A} `{EqDecision A} (l : list A) : list A :=
  match l with
  | x :: ((y :: _) as r) => if bool_decide (x = y) then dedup r else x :: dedup r
  | _ => l
  end.

Section Registry.
  Context `{Crypto}.

(** ** Records *)

Definition record_body (r : KeyRegistryRecord) : list byte :=
  encode (Array [Text REGISTRY_TAG; Uint (kr_seq r); CBytes (arr (kr_prev r));
                 Uint (from_option id 0%N (timestamp_nanos (kr_timestamp r)));
                 Uint (op_code (kr_op r));
                 Array (binding_item <$> kr_add r);
                 Array (binding_item <$> kr_retire r)]).

Definition record_hash (r : KeyRegistryRecord) : array 32 := sha256 (record_body r).

Definition record_signing_input (r : KeyRegistryRecord) : list byte :=
  encode (Array [Text SIGNATURE_TAG; Text "key-registry"; CBytes (arr (record_hash r))]).

Definition required_signers (r : KeyRegistryRecord) : list PublicKey :=
  dedup (merge_sort (key_le arr) (kb_key <$> (kr_add r ++ kr_retire r))).

Definition with_signatures (r : KeyRegistryRecord) (signatures : list RegistrySignature)
    : KeyRegistryRecord :=
  MkKeyRegistryRecord (kr_seq r) (kr_prev r) (kr_timestamp r) (kr_op r) (kr_add r) (kr_retire r)
    signatures.

(** [KeyRegistryRecord::signed_by]. *)
Definition signed_by (r : KeyRegistryRecord) (keys : list KeyPair)
    : result KeyRegistryRecord RegistryRefusal :=
  let input := record_signing_input r in
  let? signatures := try_map (fun key =>
      match List.find (fun kp => bool_decide (export_public_key kp = key)) keys with
      | Some kp => Ok (MkRegistrySignature key (sign kp input))
      | None => Err PrivateHalfNotSupplied
      end) (required_signers r) in
  Ok (with_signatures r signatures).

(** ** Queries *)

Definition head_hash (reg : KeyRegistry) : array 32 := from_option id (zero_array 32) (last (hashes reg)).
Definition registry_id (reg : KeyRegistry) : array 32 := from_option id (zero_array 32) (hd_error (hashes reg)).
Definition head_seq (reg : KeyRegistry) : N := from_option kr_seq 0%N (last (records reg)).

Definition active_key (reg : KeyRegistry) (role : KeyRole) (epoch : N) : option PublicKey :=
  (fun g => kb_key (g_binding g)) <$>
    List.find (fun g => bool_decide (kb_role (g_binding g) = role) && covers g epoch) (grants reg).

Definition is_active (reg : KeyRegistry) (role : KeyRole) (key : PublicKey) (epoch : N) : bool :=
  (epoch <=? head_seq reg)%N &&
  existsb (fun g => bool_decide (kb_role (g_binding g) = role)
                    && bool_decide (kb_key (g_binding g) = key) && covers g epoch) (grants reg).

Definition was_registered (reg : KeyRegistry) (role : KeyRole) (key : PublicKey) : bool :=
  existsb (fun g => bool_decide (kb_role (g_binding g) = role)
                    && bool_decide (kb_key (g_binding g) = key)) (grants reg).

(** ** Checks *)

(** [windows(2).all(..)]. *)
Fixpoint windows_sorted (bindings : list KeyBinding) : bool :=
  match bindings with
  | a :: ((b :: _) as rest) => bool_decide (sort_key_lt a b) && windows_sorted rest
  | _ => true
  end.

Definition check_sorted (bindings : list KeyBinding) : result unit RegistryRefusal :=
  if windows_sorted bindings then Ok tt else Err BindingsNotSorted.

Definition check_signatures (r : KeyRegistryRecord) : result unit RegistryRefusal :=
  let required := required_signers r in
  if negb (bool_decide (length (kr_signatures r) = length required))
     || existsb (fun '(signature, key) => negb (bool_decide (rs_key signature = key)))
          (zip (kr_signatures r) required)
  then Err (SignaturesMismatch (kr_seq r))
  else
    let input := record_signing_input r in
    try_for (fun signature =>
      if verify_strict (rs_key signature) input (rs_signature signature) then Ok tt
      else Err (InvalidRegistrySignature (kr_seq r) (rs_key signature))) (kr_signatures r).

Definition check_genesis (reg : KeyRegistry) (r : KeyRegistryRecord) : result unit RegistryRefusal :=
  if negb (kr_seq r =? 0)%N || negb (bool_decide (records reg = [])) then Err GenesisNotFirst
  else if negb (bool_decide (kr_retire r = [])) || bool_decide (kr_add r = [])
  then Err GenesisRegistersKeys
  else
    let roles := dedup (kb_role <$> kr_add r) in
    if negb (bool_decide (length roles = length (kr_add r))) then Err RoleBoundTwice
    else match List.filter (fun b => bool_decide (kb_role b = Audit)) (kr_add r) with
         | [audit] =>
             if existsb (fun b => negb (bool_decide (kb_role b = Audit))
                                  && bool_decide (kb_key b = kb_key audit)) (kr_add r)
             then Err AuditKeyHoldsAnotherRole
             else Ok tt
         | _ => Err NotOneAuditKey
         end.

Definition check_rotation (reg : KeyRegistry) (r : KeyRegistryRecord) : result unit RegistryRefusal :=
  if bool_decide (records reg = []) then Err RotationNeedsGenesis
  else match kr_add r, kr_retire r with
       | [added], [retired] =>
           if negb (bool_decide (kb_role added = kb_role retired)) then Err RotationChangesRole
           else if negb (bool_decide (active_key reg (kb_role retired) (head_seq reg)
                                      = Some (kb_key retired)))
           then Err RotationNotActiveKey
           else if existsb (fun g => bool_decide (kb_key (g_binding g) = kb_key added)) (grants reg)
           then Err RotationKnownKey
           else Ok tt
       | _, _ => Err RotationNotOneKey
       end.

(** ** Extending the registry *)

(** The inner loop of [KeyRegistry::apply] for one retired binding. *)
Definition retire_one (seq : N) (retired : KeyBinding) (g : Grant) : Grant :=
  if bool_decide (g_binding g = retired) && bool_decide (g_until g = None)
  then MkGrant (g_binding g) (g_from g) (Some seq)
  else g.

Definition apply_record (gs : list Grant) (r : KeyRegistryRecord) : list Grant :=
  List.fold_left (fun gs retired => retire_one (kr_seq r) retired <$> gs) (kr_retire r) gs
    ++ ((fun added => MkGrant added (kr_seq r) None) <$> kr_add r).

(** [KeyRegistry::push]; a refused record leaves the registry unchanged. *)
Definition push (reg : KeyRegistry) (r : KeyRegistryRecord) : result KeyRegistry RegistryRefusal :=
  let expected_seq := N.of_nat (length (records reg)) in
  if negb (kr_seq r =? expected_seq)%N then Err (OutOfSequence (kr_seq r) expected_seq)
  else if negb (bool_decide (kr_prev r = head_hash reg)) then Err (NotLinked (kr_seq r))
  else if bool_decide (timestamp_nanos (kr_timestamp r) = None) then Err TimeNotRepresentable
  else
    let? _ := check_sorted (kr_add r) in
    let? _ := check_sorted (kr_retire r) in
    let? _ := match kr_op r with
              | Genesis => check_genesis reg r
              | Rotate => check_rotation reg r
              end in
    let? _ := check_signatures r in
    Ok (MkKeyRegistry (records reg ++ [r]) (hashes reg ++ [record_hash r])
          (apply_record (grants reg) r)).

Fixpoint push_all (reg : KeyRegistry) (rs : list KeyRegistryRecord)
    : result KeyRegistry RegistryRefusal :=
  match rs with
  | [] => Ok reg
  | r :: rest => let? reg := push reg r in push_all reg rest
  end.

Definition from_records (rs : list KeyRegistryRecord) : result KeyRegistry RegistryRefusal :=
  if bool_decide (rs = []) then Err NeedsGenesisRecord
  else push_all (MkKeyRegistry [] [] []) rs.

Definition genesis_record (timestamp : Timestamp) (keys : list (KeyRole * KeyPair))
    : result KeyRegistryRecord RegistryRefusal :=
  let add := merge_sort sort_key_le
               ((fun '(role, kp) => MkKeyBinding role (export_public_key kp)) <$> keys) in
  let? record := signed_by (MkKeyRegistryRecord 0 (zero_array 32) timestamp Genesis add [] [])
                   keys.*2 in
  let? _ := from_records [record] in
  Ok record.

Definition rotation_record (reg : KeyRegistry) (role : KeyRole) (old new : KeyPair)
    (timestamp : Timestamp) : result KeyRegistryRecord RegistryRefusal :=
  let? seq := ok_or (checked_add U64_MAX (head_seq reg) 1) SequenceExhausted in
  let? record := signed_by
    (MkKeyRegistryRecord seq (head_hash reg) timestamp Rotate
       [MkKeyBinding role (export_public_key new)]
       [MkKeyBinding role (export_public_key old)] []) [old; new] in
  let? _ := push reg record in
  Ok record.
End Registry.

(** ** The grants of one role

    In every registry the grants of a role, in order, hold it one after the
    other without gaps: each starts where the one before it ends, the first
    in state 0, and the last is open. *)

Definition role_grants (role : KeyRole) (gs : list Grant) : list Grant :=
  filter (fun g => kb_role (g_binding g) = role) gs.

Fixpoint contiguous (from : N) (gs : list Grant) : Prop :=
  match gs with
  | [] => False
  | g :: rest =>
      g_from g = from /\
      match rest with
      | [] => g_until g = None
      | _ :: _ => exists until, g_until g = Some until /\ (from < until)%N /\ contiguous until rest
      end
  end.

Lemma contiguous_later from gs epoch :
  contiguous from gs -> (epoch < from)%N -> Forall (fun g => covers g epoch = false) gs.
Proof.
  revert from; induction gs as [|g gs IH]; intros from Hc Hlt; [done|].
  destruct Hc as [Hfrom Hc]. constructor.
  - unfold covers. rewrite Hfrom. apply andb_false_iff. left. by apply N.leb_gt.
  - destruct gs as [|g' gs]; [constructor|]. destruct Hc as (u & _ & Hu & Hc).
    eapply IH; [done|lia].
Qed.

(** At every state from [from] on exactly one of them covers it. *)
Lemma contiguous_covers from gs epoch :
  contiguous from gs -> (from <= epoch)%N ->
  exists l g r, gs = l ++ g :: r /\ covers g epoch = true /\
    Forall (fun g' => covers g' epoch = false) (l ++ r).
Proof.
  revert from; induction gs as [|g gs IH]; intros from Hc Hle; [done|].
  destruct Hc as [Hfrom Hc]. destruct gs as [|g' gs].
  - exists [], g, []. split; [done|]. split; [|constructor].
    unfold covers. rewrite Hc, Hfrom. simpl. rewrite andb_true_r. by apply N.leb_le.
  - destruct Hc as (until & Hu & Hlt & Hc).
    destruct (N.lt_ge_cases epoch until) as [Hlo|Hhi].
    + exists [], g, (g' :: gs). split; [done|]. split.
      * unfold covers. rewrite Hu, Hfrom. apply andb_true_iff.
        by rewrite N.leb_le, N.ltb_lt.
      * by eapply contiguous_later.
    + destruct (IH until Hc Hhi) as (l & x & r & Hgs & Hx & Hothers).
      exists (g :: l), x, r. rewrite Hgs. split; [done|]. split; [done|].
      simpl. constructor; [|done]. unfold covers. rewrite Hu. apply andb_false_iff. right.
      by apply N.ltb_ge.
Qed.

Lemma find_unique {A} (f : A -> bool) l x r :
  f x = true -> Forall (fun y => f y = false) (l ++ r) -> List.find f (l ++ x :: r) = Some x.
Proof.
  intros Hx Hall. apply Forall_app in Hall as [Hl _]. induction Hl as [|y l Hy _ IH]; simpl.
  - by rewrite Hx.
  - by rewrite Hy.
Qed.

Lemma find_filter {A} (P : A -> Prop) `{forall x, Decision (P x)} (f : A -> bool) l :
  List.find (fun x => bool_decide (P x) && f x) l = List.find f (filter P l).
Proof.
  induction l as [|x l IH]; simpl; [done|]. rewrite filter_cons.
  case_bool_decide; case_decide; try done; simpl.
  by destruct (f x).
Qed.

(** ** Registries

    What holds of every registry [push] builds: the bookkeeping of records
    and hashes, one line of grants per role with the audit role always held,
    and keys never shared with the audit role or registered twice after
    genesis. *)
Record registry_ok `{Crypto} (reg : KeyRegistry) : Prop := {
  rk_hashes : hashes reg = record_hash <$> records reg;
  rk_seqs : forall i r, records reg !! i = Some r -> kr_seq r = N.of_nat i;
  rk_from : Forall (fun g => (g_from g <= head_seq reg)%N) (grants reg);
  rk_lines : forall role, role_grants role (grants reg) = [] \/ contiguous 0 (role_grants role (grants reg));
  rk_empty : records reg = [] -> grants reg = [];
  rk_audit : records reg <> [] -> role_grants Audit (grants reg) <> [];
  rk_keys : forall i j g1 g2, grants reg !! i = Some g1 -> grants reg !! j = Some g2 ->
    kb_key (g_binding g1) = kb_key (g_binding g2) ->
    i = j \/ (g_from g1 = 0%N /\ g_from g2 = 0%N /\
              kb_role (g_binding g1) <> Audit /\ kb_role (g_binding g2) <> Audit);
}.

(** *** Genesis *)

Lemma role_code_inj a b : role_code a = role_code b -> a = b.
Proof. by destruct a, b. Qed.

Lemma dedup_cons {A} `{EqDecision A} (x y : A) r :
  dedup (x :: y :: r) = if bool_decide (x = y) then dedup (y :: r) else x :: dedup (y :: r).
Proof. done. Qed.

Lemma dedup_length_le {A} `{EqDecision A} (l : list A) : length (dedup l) <= length l.
Proof.
  induction l as [|x [|y l] IH]; [done|done|]. rewrite dedup_cons.
  case_bool_decide; cbn [length] in *; lia.
Qed.

Lemma sorted_roles_NoDup l :
  windows_sorted l = true -> length (dedup (kb_role <$> l)) = length l -> NoDup (kb_role <$> l).
Proof.
  intros Hs Hd.
  enough (StronglySorted N.lt (role_code <$> (kb_role <$> l))) as Hss.
  { apply (NoDup_fmap_1 role_code). clear Hs Hd. induction Hss as [|x xs _ IH Hx]; constructor; [|done].
    intros Hin. rewrite Forall_forall in Hx. specialize (Hx _ Hin). lia. }
  apply Sorted_StronglySorted; [intros x y z; lia|].
  revert Hs Hd. induction l as [|x [|y l] IH]; [constructor|repeat constructor|].
  cbn [windows_sorted]. rewrite andb_true_iff, bool_decide_eq_true. intros [Hxy Hs].
  rewrite !fmap_cons, dedup_cons. pose proof (dedup_length_le (kb_role y :: (kb_role <$> l))) as Hle.
  cbn [length] in Hle. rewrite length_fmap in Hle.
  case_bool_decide as Heq; cbn [length]; intros Hd; [lia|].
  constructor; [apply IH; [done|]; rewrite fmap_cons; cbn [length] in *; lia|].
  constructor. assert (role_code (kb_role x) <> role_code (kb_role y)) by (intros ?%role_code_inj; done).
  destruct Hxy as [?|[? _]]; done.
Qed.

Lemma filter_role_unique l role :
  NoDup (kb_role <$> l) ->
  filter (fun b => kb_role b = role) l = [] \/ exists b, filter (fun b => kb_role b = role) l = [b].
Proof.
  induction l as [|x l IH]; [by left|]. rewrite fmap_cons, NoDup_cons. intros [Hx Hnd].
  rewrite filter_cons. case_decide as Hr; [|by apply IH]. right. exists x. f_equal.
  destruct (filter _ l) as [|b bs] eqn:Hf; [done|].
  assert (b ∈ filter (fun b => kb_role b = role) l) as Hb by (rewrite Hf; left).
  apply list_elem_of_filter in Hb as [Hbr Hb]. destruct Hx. rewrite Hr, <- Hbr.
  by apply list_elem_of_fmap_2.
Qed.

Lemma role_grants_genesis seq role bindings :
  role_grants role ((fun added => MkGrant added seq None) <$> bindings)
  = (fun added => MkGrant added seq None) <$> filter (fun b => kb_role b = role) bindings.
Proof.
  unfold role_grants. induction bindings as [|b bs IH]; [done|].
  rewrite fmap_cons, !filter_cons, IH. simpl. by case_decide.
Qed.

(** *** Rotation *)

Lemma retire_one_binding seq retired g : g_binding (retire_one seq retired g) = g_binding g.
Proof. unfold retire_one. by case_match. Qed.

Lemma retire_one_from seq retired g : g_from (retire_one seq retired g) = g_from g.
Proof. unfold retire_one. by case_match. Qed.

Lemma role_grants_rotation role seq retired added gs :
  role_grants role ((retire_one seq retired <$> gs) ++ [MkGrant added seq None])
  = (retire_one seq retired <$> role_grants role gs)
      ++ (if decide (kb_role added = role) then [MkGrant added seq None] else []).
Proof.
  unfold role_grants. rewrite filter_app. f_equal.
  induction gs as [|g gs IH]; [done|]. rewrite fmap_cons, !filter_cons, retire_one_binding, IH.
  by case_decide.
Qed.

Lemma role_grants_role role gs : Forall (fun g => kb_role (g_binding g) = role) (role_grants role gs).
Proof. apply Forall_forall. intros g [? _]%list_elem_of_filter. done. Qed.

(** Only the last grant of a line is open, and it covers the latest state. *)
Lemma contiguous_last from gs head :
  contiguous from gs -> Forall (fun g => (g_from g <= head)%N) gs ->
  exists l g, gs = l ++ [g] /\ g_until g = None /\ covers g head = true /\
    Forall (fun g' => covers g' head = false /\ g_until g' <> None) l.
Proof.
  revert from; induction gs as [|g gs IH]; intros from Hc Hall; [done|].
  inversion Hall as [|? ? Hg Hall']; subst. destruct Hc as [Hfrom Hc]. destruct gs as [|g' gs].
  - exists [], g. do 2 (split; [done|]). split; [|constructor]. unfold covers.
    rewrite Hc. simpl. rewrite andb_true_r. by apply N.leb_le.
  - destruct Hc as (u & Hu & Hlt & Hc). destruct (IH u Hc Hall') as (l & x & -> & Hx & Hcov & Hl).
    exists (g :: l), x. do 3 (split; [done|]). constructor; [|done]. rewrite Hu. split; [|done].
    unfold covers. rewrite Hu. apply andb_false_iff. right. apply N.ltb_ge.
    destruct l as [|y l]; simpl in *; destruct Hc as [Hy _]; rewrite <- Hy.
    + by inversion Hall'.
    + by inversion Hall'.
Qed.

Lemma contiguous_extend from l g seq b :
  contiguous from (l ++ [g]) -> (g_from g < seq)%N ->
  contiguous from (l ++ [MkGrant (g_binding g) (g_from g) (Some seq); MkGrant b seq None]).
Proof.
  revert from; induction l as [|x l IH]; intros from Hc Hlt.
  - destruct Hc as [Hfrom Hu]. simpl. split; [done|]. exists seq. rewrite <- Hfrom. done.
  - destruct Hc as [Hfrom Hc]. split; [done|].
    assert (exists until, g_until x = Some until /\ (from < until)%N /\ contiguous until (l ++ [g]))
      as (u & Hu & Hfu & Hc') by (destruct l; done).
    specialize (IH u Hc' Hlt). destruct l; exists u; done.
Qed.

(** ** Every registry is well formed *)

Section Invariant.
  Context `{Crypto}.

Lemma last_seq reg :
  registry_ok reg -> records reg <> [] -> N.of_nat (length (records reg)) = (head_seq reg + 1)%N.
Proof.
  intros Hok Hne. unfold head_seq. destruct (last (records reg)) as [r|] eqn:Hl.
  - rewrite last_lookup in Hl. pose proof (rk_seqs _ Hok _ _ Hl) as Hs. simpl. rewrite Hs.
    apply lookup_lt_Some in Hl. lia.
  - by apply last_None in Hl.
Qed.

Lemma registry_ok_nil : registry_ok (MkKeyRegistry [] [] []).
Proof. split; simpl; try done. - by left. Qed.

Lemma check_genesis_Ok reg r :
  check_genesis reg r = Ok tt ->
  kr_seq r = 0%N /\ records reg = [] /\ kr_retire r = [] /\
  length (dedup (kb_role <$> kr_add r)) = length (kr_add r) /\
  exists audit, audit ∈ kr_add r /\ kb_role audit = Audit /\
    Forall (fun b => kb_role b <> Audit -> kb_key b <> kb_key audit) (kr_add r).
Proof.
  unfold check_genesis. intros Hc. inv_ok. apply orb_false_iff in Heqb as [? ?], Heqb0 as [? ?].
  bool_prop. do 4 (split; [done|]).
  destruct (List.filter _ _) as [|audit [|]] eqn:Hf; try done.
  assert (audit ∈ List.filter (fun b => bool_decide (kb_role b = Audit)) (kr_add r)) as Hin
    by (rewrite Hf; left).
  apply list_elem_of_In, List.filter_In in Hin as [Hin Hrole]. bool_prop.
  exists audit. split; [by apply list_elem_of_In|]. split; [done|].
  inv_ok. apply existsb_false in Heqb. eapply Forall_impl; [exact Heqb|].
  simpl. intros b Hb Hr Hk. by rewrite bool_decide_false, bool_decide_true in Hb.
Qed.

(** [push] with its checks taken apart. *)
Lemma push_Ok reg r reg' :
  push reg r = Ok reg' <->
  kr_seq r = N.of_nat (length (records reg)) /\ kr_prev r = head_hash reg /\
  timestamp_nanos (kr_timestamp r) <> None /\
  windows_sorted (kr_add r) = true /\ windows_sorted (kr_retire r) = true /\
  match kr_op r with Genesis => check_genesis reg r | Rotate => check_rotation reg r end = Ok tt /\
  check_signatures r = Ok tt /\
  reg' = MkKeyRegistry (records reg ++ [r]) (hashes reg ++ [record_hash r])
           (apply_record (grants reg) r).
Proof.
  unfold push, check_sorted. split.
  - intros Hp. inv_ok. bool_prop. done.
  - intros (-> & -> & Ht & -> & -> & -> & -> & ->).
    rewrite N.eqb_refl, bool_decide_true by done. simpl. by rewrite bool_decide_false.
Qed.

Lemma check_rotation_Ok reg r :
  check_rotation reg r = Ok tt ->
  records reg <> [] /\ exists added retired, kr_add r = [added] /\ kr_retire r = [retired] /\
    kb_role added = kb_role retired /\
    active_key reg (kb_role retired) (head_seq reg) = Some (kb_key retired) /\
    Forall (fun g => kb_key (g_binding g) <> kb_key added) (grants reg).
Proof.
  unfold check_rotation. case_bool_decide as Hne; [done|]. intros Hc.
  destruct (kr_add r) as [|added [|]]; try done. destruct (kr_retire r) as [|retired [|]]; try done.
  inv_ok. bool_prop. split; [done|]. exists added, retired. do 4 (split; [done|]).
  apply existsb_false in Heqb1. eapply Forall_impl; [exact Heqb1|]. simpl. intros g Hg.
  by apply bool_decide_eq_false in Hg.
Qed.
Lemma head_seq_snoc rs r hs gs : head_seq (MkKeyRegistry (rs ++ [r]) hs gs) = kr_seq r.
Proof. unfold head_seq. cbn [records]. by rewrite last_snoc. Qed.

Lemma seqs_snoc reg r i r' :
  registry_ok reg -> kr_seq r = N.of_nat (length (records reg)) ->
  (records reg ++ [r]) !! i = Some r' -> kr_seq r' = N.of_nat i.
Proof.
  intros Hok Hseq [Hi|[Hi Hr]]%lookup_app_Some; [by eapply rk_seqs|].
  apply list_lookup_singleton_Some in Hr as [? <-]. rewrite Hseq. f_equal. lia.
Qed.

(** At genesis two bindings share a key only when both are outside the audit role. *)
Lemma genesis_keys bindings audit i j b1 b2 :
  NoDup (kb_role <$> bindings) -> audit ∈ bindings -> kb_role audit = Audit ->
  Forall (fun b => kb_role b <> Audit -> kb_key b <> kb_key audit) bindings ->
  bindings !! i = Some b1 -> bindings !! j = Some b2 -> kb_key b1 = kb_key b2 ->
  i = j \/ kb_role b1 <> Audit.
Proof.
  intros Hnd [k Hk]%list_elem_of_lookup Hrole Hall H1 H2 Hkey.
  destruct (decide (kb_role b1 = Audit)) as [Ha|]; [left|by right].
  assert (forall i' b, bindings !! i' = Some b -> kb_role b = Audit -> i' = k) as Huniq.
  { intros i' b Hb Hr. eapply NoDup_lookup; [exact Hnd| |]; rewrite list_lookup_fmap.
    - by rewrite Hb.
    - rewrite Hk. simpl. by rewrite Hrole, Hr. }
  rewrite (Huniq _ _ H1 Ha). rewrite (Huniq _ _ H1 Ha), Hk in H1. injection H1 as <-.
  destruct (decide (kb_role b2 = Audit)) as [Hb|Hb]; [by rewrite (Huniq _ _ H2 Hb)|].
  pose proof (Forall_lookup_1 _ _ _ _ Hall H2 Hb). congruence.
Qed.

Lemma push_genesis_ok reg r reg' :
  registry_ok reg -> push reg r = Ok reg' -> kr_op r = Genesis -> registry_ok reg'.
Proof.
  intros Hok (Hseq & _ & _ & Hsort & _ & Hcheck & _ & ->)%push_Ok Hop. rewrite Hop in Hcheck.
  apply check_genesis_Ok in Hcheck as (H0 & Hnil & Hret & Hlen & audit & Hin & Hrole & Haudit).
  pose proof (sorted_roles_NoDup _ Hsort Hlen) as Hnd.
  unfold apply_record. rewrite Hret, (rk_empty _ Hok Hnil), H0. cbn [List.fold_left app].
  split; cbn [records hashes grants].
  - by rewrite fmap_app, (rk_hashes _ Hok).
  - intros i r' Hr'. by eapply seqs_snoc.
  - apply Forall_fmap, Forall_true. intros b. simpl. lia.
  - intros role. rewrite role_grants_genesis.
    destruct (filter_role_unique (kr_add r) role Hnd) as [->|[b ->]]; [by left|by right].
  - by rewrite Hnil.
  - intros _. rewrite role_grants_genesis. intros Hf%fmap_nil_inv.
    exact (filter_nil_not_elem_of _ _ audit Hf Hrole Hin).
  - intros i j g1 g2 H1 H2 Hkey. rewrite list_lookup_fmap in H1, H2.
    apply fmap_Some in H1 as (b1 & H1 & ->), H2 as (b2 & H2 & ->). simpl in *.
    destruct (genesis_keys _ _ _ _ _ _ Hnd Hin Hrole Haudit H1 H2 Hkey) as [|?]; [by left|].
    destruct (genesis_keys _ _ _ _ _ _ Hnd Hin Hrole Haudit H2 H1 (eq_sym Hkey)); [by left|].
    by right.
Qed.

(** The grants after a rotation, for the role it rotates: the line's open
    grant is the retired binding's, and it closes where the new one opens. *)
Lemma rotate_line reg retired :
  registry_ok reg -> active_key reg (kb_role retired) (head_seq reg) = Some (kb_key retired) ->
  exists l g, role_grants (kb_role retired) (grants reg) = l ++ [g] /\
    contiguous 0 (l ++ [g]) /\ g_binding g = retired /\ g_until g = None /\
    (g_from g <= head_seq reg)%N /\ Forall (fun g' => g_until g' <> None) l.
Proof.
  intros Hok Hact. unfold active_key in Hact. rewrite find_filter in Hact.
  fold (role_grants (kb_role retired) (grants reg)) in Hact.
  destruct (rk_lines _ Hok (kb_role retired)) as [Hnil|Hc]; [by rewrite Hnil in Hact|].
  assert (Forall (fun g => (g_from g <= head_seq reg)%N) (role_grants (kb_role retired) (grants reg)))
    as Hfrom.
  { apply Forall_forall. intros g [_ Hg]%list_elem_of_filter.
    exact (proj1 (Forall_forall _ _) (rk_from _ Hok) _ Hg). }
  pose proof (role_grants_role (kb_role retired) (grants reg)) as Hroles.
  destruct (contiguous_last _ _ _ Hc Hfrom) as (l & g & Hl & Hu & Hcov & Hothers).
  rewrite Hl in *. exists l, g. apply Forall_app in Hfrom as [_ Hg], Hroles as [_ Hr].
  rewrite Forall_singleton in Hg, Hr.
  rewrite find_unique in Hact; [|done|].
  2:{ rewrite app_nil_r. eapply Forall_impl; [exact Hothers|]. by intros ? []. }
  do 2 (split; [done|]). split; [|do 2 (split; [done|]); eapply Forall_impl; [exact Hothers|by intros ? []]].
  injection Hact as Hk. destruct (g_binding g), retired; simpl in *; congruence.
Qed.

Lemma retire_closed seq retired gs :
  Forall (fun g => g_until g <> None) gs -> retire_one seq retired <$> gs = gs.
Proof.
  induction 1 as [|g gs Hg _ IH]; [done|]. rewrite fmap_cons, IH. f_equal. unfold retire_one.
  by rewrite (bool_decide_false (g_until g = None)), andb_false_r.
Qed.

Lemma retire_other_role seq retired role gs :
  kb_role retired <> role -> retire_one seq retired <$> role_grants role gs = role_grants role gs.
Proof.
  intros Hr. pose proof (role_grants_role role gs) as Hall.
  induction Hall as [|g gs' Hg _ IH]; [done|]. rewrite fmap_cons, IH. f_equal. unfold retire_one.
  rewrite bool_decide_false; [done|]. intros <-. done.
Qed.

Lemma push_rotate_inv reg r reg' :
  registry_ok reg -> push reg r = Ok reg' -> kr_op r = Rotate ->
  exists added retired l g,
    kr_add r = [added] /\ kr_retire r = [retired] /\ kb_role added = kb_role retired /\
    kr_seq r = (head_seq reg + 1)%N /\ head_seq reg' = kr_seq r /\
    grants reg' = (retire_one (kr_seq r) retired <$> grants reg) ++ [MkGrant added (kr_seq r) None] /\
    Forall (fun g => kb_key (g_binding g) <> kb_key added) (grants reg) /\
    role_grants (kb_role retired) (grants reg) = l ++ [g] /\ contiguous 0 (l ++ [g]) /\
    g_binding g = retired /\ g_until g = None /\ (g_from g <= head_seq reg)%N /\
    role_grants (kb_role retired) (grants reg')
      = l ++ [MkGrant retired (g_from g) (Some (kr_seq r)); MkGrant added (kr_seq r) None].
Proof.
  intros Hok (Hseq & _ & _ & _ & _ & Hcheck & _ & ->)%push_Ok Hop. rewrite Hop in Hcheck.
  apply check_rotation_Ok in Hcheck as (Hne & added & retired & Ha & Hr & Hroles & Hact & Hfresh).
  destruct (rotate_line _ _ Hok Hact) as (l & g & Hl & Hc & Hg & Hu & Hfrom & Hothers).
  exists added, retired, l, g. rewrite (last_seq _ Hok Hne) in Hseq.
  do 4 (split; [done|]). split; [by rewrite head_seq_snoc|].
  cbn [grants]. unfold apply_record. rewrite Ha, Hr. cbn [List.fold_left].
  do 7 (split; [done|]). change ((fun added0 => _) <$> [added]) with [MkGrant added (kr_seq r) None].
  rewrite role_grants_rotation, decide_True, Hl, fmap_app, (retire_closed _ _ _ Hothers) by done.
  rewrite <- app_assoc. f_equal. simpl. unfold retire_one.
  by rewrite !bool_decide_true, Hg.
Qed.
Lemma push_rotate_ok reg r reg' :
  registry_ok reg -> push reg r = Ok reg' -> kr_op r = Rotate -> registry_ok reg'.
Proof.
  intros Hok Hpush Hop.
  destruct (push_rotate_inv _ _ _ Hok Hpush Hop)
    as (added & retired & l & g & _ & _ & Hroles & Hseq & Hhead & Hgs & Hfresh & Hl & Hc & Hg & _ & Hfrom & Hl').
  apply push_Ok in Hpush as (Hseq' & _ & _ & _ & _ & _ & _ & Hreg').
  split.
  - subst reg'. cbn. by rewrite fmap_app, (rk_hashes _ Hok).
  - intros i r'. subst reg'. cbn. by apply seqs_snoc.
  - rewrite Hhead, Hgs. apply Forall_app. split; [|repeat constructor; simpl; lia].
    apply Forall_fmap. eapply Forall_impl; [apply (rk_from _ Hok)|]. intros g' Hg'.
    cbn beta in *. unfold compose. rewrite retire_one_from. lia.
  - intros role. destruct (decide (kb_role retired = role)) as [<-|Hne].
    + right. rewrite Hl'. rewrite <- Hg. apply contiguous_extend; [done|lia].
    + rewrite Hgs, role_grants_rotation, decide_False, app_nil_r, retire_other_role by congruence.
      apply (rk_lines _ Hok).
  - subst reg'. cbn. by intros [_ ?]%app_nil.
  - intros _. destruct (decide (kb_role retired = Audit)) as [Ha|Hne].
    + rewrite Ha in Hl'. rewrite Hl'. by intros [_ ?]%app_nil.
    + rewrite Hgs, role_grants_rotation, decide_False, app_nil_r, retire_other_role by congruence.
      apply (rk_audit _ Hok). intros Hnil. unfold role_grants in Hl.
      rewrite (rk_empty _ Hok Hnil) in Hl. by destruct l.
  - rewrite Hgs. intros i j g1 g2 H1 H2 Hkey.
    apply lookup_app_Some in H1 as [H1|[Hi H1]], H2 as [H2|[Hj H2]].
    + rewrite list_lookup_fmap in H1, H2.
      apply fmap_Some in H1 as (b1 & H1 & ->), H2 as (b2 & H2 & ->).
      rewrite !retire_one_binding in Hkey. rewrite !retire_one_binding, !retire_one_from.
      by apply (rk_keys _ Hok).
    + rewrite list_lookup_fmap in H1. apply fmap_Some in H1 as (b1 & H1 & ->).
      apply list_lookup_singleton_Some in H2 as [_ <-]. rewrite retire_one_binding in Hkey.
      exfalso. exact (Forall_lookup_1 _ _ _ _ Hfresh H1 Hkey).
    + rewrite list_lookup_fmap in H2. apply fmap_Some in H2 as (b2 & H2 & ->).
      apply list_lookup_singleton_Some in H1 as [_ <-]. rewrite retire_one_binding in Hkey.
      exfalso. exact (Forall_lookup_1 _ _ _ _ Hfresh H2 (eq_sym Hkey)).
    + apply list_lookup_singleton_Some in H1 as [? _], H2 as [? _]. left. lia.
Qed.

Lemma push_ok reg r reg' : registry_ok reg -> push reg r = Ok reg' -> registry_ok reg'.
Proof.
  intros Hok Hp. destruct (kr_op r) eqn:Hop; [by eapply push_genesis_ok|by eapply push_rotate_ok].
Qed.

Lemma push_nonempty reg r reg' : push reg r = Ok reg' -> records reg' <> [].
Proof. intros (_ & _ & _ & _ & _ & _ & _ & ->)%push_Ok. cbn. by intros [_ ?]%app_nil. Qed.

Lemma push_all_ok rs : forall reg reg',
  registry_ok reg -> push_all reg rs = Ok reg' ->
  registry_ok reg' /\ records reg' = records reg ++ rs.
Proof.
  induction rs as [|r rs IH]; intros reg reg' Hok Hp; cbn [push_all] in Hp.
  - injection Hp as <-. by rewrite app_nil_r.
  - destruct (push reg r) as [reg1|] eqn:Hpush; [|done].
    destruct (IH _ _ (push_ok _ _ _ Hok Hpush) Hp) as [Hok' ->]. split; [done|].
    apply push_Ok in Hpush as (_ & _ & _ & _ & _ & _ & _ & ->). cbn. by rewrite <- app_assoc.
Qed.

Lemma from_records_ok rs reg :
  from_records rs = Ok reg -> registry_ok reg /\ records reg = rs /\ records reg <> [].
Proof.
  unfold from_records. case_bool_decide as Hne; [done|]. intros Hp.
  destruct (push_all_ok _ _ _ registry_ok_nil Hp) as [Hok Hr]. cbn in Hr. by subst rs.
Qed.

(** *** Activity, read off the line of the role *)

Lemma is_active_line reg role key epoch :
  is_active reg role key epoch = true <->
  (epoch <= head_seq reg)%N /\
  exists g, g ∈ role_grants role (grants reg) /\ kb_key (g_binding g) = key /\ covers g epoch = true.
Proof.
  unfold is_active. rewrite andb_true_iff, N.leb_le, existsb_true. split.
  - intros [Hle (g & Hin & Hg)]. split; [done|]. exists g.
    rewrite !andb_true_iff in Hg. destruct Hg as [[Hr Hk] Hc]. bool_prop.
    split; [apply list_elem_of_filter; done|done].
  - intros [Hle (g & [Hr Hin]%list_elem_of_filter & Hk & Hc)]. split; [done|]. exists g.
    split; [done|]. by rewrite !bool_decide_true, Hc.
Qed.
(** Being active in a role is being the role's one active key. *)
Lemma is_active_active_key reg role key epoch :
  registry_ok reg -> (epoch <= head_seq reg)%N ->
  is_active reg role key epoch = true <-> active_key reg role epoch = Some key.
Proof.
  intros Hok Hle. rewrite is_active_line. unfold active_key. rewrite find_filter.
  fold (role_grants role (grants reg)).
  destruct (rk_lines _ Hok role) as [->|Hc].
  { split; [|done]. by intros [_ (g & ?%not_elem_of_nil & _)]. }
  destruct (contiguous_covers _ _ epoch Hc (N.le_0_l _)) as (l & g & r & -> & Hg & Hall).
  rewrite (find_unique (fun x => covers x epoch) _ _ _ Hg Hall). simpl. split.
  - intros [_ (g' & Hin & <- & Hcov)].
    apply elem_of_app in Hin as [Hin|[->|Hin]%elem_of_cons]; [|done|].
    + rewrite (proj1 (Forall_forall _ _) Hall g') in Hcov; [done|set_solver].
    + rewrite (proj1 (Forall_forall _ _) Hall g') in Hcov; [done|set_solver].
  - intros [= <-]. split; [done|]. exists g. split; [set_solver|done].
Qed.

Lemma audit_key_exists reg epoch :
  registry_ok reg -> records reg <> [] -> exists key, active_key reg Audit epoch = Some key.
Proof.
  intros Hok Hne. unfold active_key. rewrite find_filter. fold (role_grants Audit (grants reg)).
  destruct (rk_lines _ Hok Audit) as [Hnil|Hc]; [by destruct (rk_audit _ Hok Hne)|].
  destruct (contiguous_covers _ _ epoch Hc (N.le_0_l _)) as (l & g & r & -> & Hg & Hall).
  rewrite (find_unique (fun x => covers x epoch) _ _ _ Hg Hall). by eexists.
Qed.

Lemma was_registered_true reg role key :
  was_registered reg role key = true <->
  exists i g, grants reg !! i = Some g /\ kb_role (g_binding g) = role /\ kb_key (g_binding g) = key.
Proof.
  unfold was_registered. rewrite existsb_true. split.
  - intros (g & [i Hi]%list_elem_of_lookup & Hb). apply andb_true_iff in Hb as [Hr Hk]. bool_prop.
    by exists i, g.
  - intros (i & g & Hi & Hr & Hk). exists g. split; [by eapply list_elem_of_lookup_2|].
    by rewrite !bool_decide_true.
Qed.

Lemma audit_key_only_audit reg role key :
  registry_ok reg -> was_registered reg Audit key = true -> was_registered reg role key = true ->
  role = Audit.
Proof.
  intros Hok (i & g & Hi & Hr & Hk)%was_registered_true (j & g' & Hj & Hr' & Hk')%was_registered_true.
  destruct (rk_keys _ Hok i j g g' Hi Hj) as [->|(_ & _ & Ha & _)]; [congruence| |done].
  rewrite Hi in Hj. congruence.
Qed.

(** *** A rotation, and everything appended after it *)

Lemma rotation_history reg r reg' role key epoch :
  registry_ok reg -> push reg r = Ok reg' -> kr_op r = Rotate -> (epoch <= head_seq reg)%N ->
  is_active reg' role key epoch = is_active reg role key epoch.
Proof.
  intros Hok Hpush Hop Hle.
  destruct (push_rotate_inv _ _ _ Hok Hpush Hop)
    as (added & retired & l & g & _ & _ & Hroles & Hseq & Hhead & Hgs & _ & Hl & _ & Hg & Hu & _ & Hl').
  apply Bool.eq_iff_eq_true. rewrite !is_active_line, Hhead.
  destruct (decide (kb_role retired = role)) as [<-|Hne].
  - rewrite Hl, Hl'. split; intros [_ (g' & Hin & Hk & Hcov)]; (split; [lia|]).
    + rewrite !elem_of_app, !elem_of_cons in Hin.
      destruct Hin as [Hin|[->|[->|Hin]]].
      * exists g'. split; [set_solver|done].
      * exists g. split; [set_solver|]. rewrite Hg. split; [done|].
        apply andb_true_iff in Hcov as [Hf _]. unfold covers. rewrite Hu. simpl in Hf. by rewrite Hf.
      * apply andb_true_iff in Hcov as [Hf _]. simpl in Hf. apply N.leb_le in Hf. lia.
      * by apply not_elem_of_nil in Hin.
    + rewrite elem_of_app, list_elem_of_singleton in Hin. destruct Hin as [Hin| ->].
      * exists g'. split; [set_solver|done].
      * eexists. split; [rewrite elem_of_app; right; left|].
        rewrite <- Hg. split; [done|]. apply andb_true_iff in Hcov as [Hf _].
        apply andb_true_iff. split; [done|]. simpl. apply N.ltb_lt. lia.
  - rewrite Hgs, role_grants_rotation, decide_False, app_nil_r, retire_other_role by congruence.
    split; intros [_ ?]; (split; [lia|done]).
Qed.

Lemma push_nonempty_rotates reg r reg' :
  records reg <> [] -> push reg r = Ok reg' -> kr_op r = Rotate.
Proof.
  intros Hne (_ & _ & _ & _ & _ & Hcheck & _)%push_Ok. destruct (kr_op r); [|done].
  by apply check_genesis_Ok in Hcheck as (_ & ? & _).
Qed.

Lemma extension_history rs : forall reg reg' role key epoch,
  registry_ok reg -> records reg <> [] -> push_all reg rs = Ok reg' -> (epoch <= head_seq reg)%N ->
  is_active reg' role key epoch = is_active reg role key epoch.
Proof.
  induction rs as [|r rs IH]; intros reg reg' role key epoch Hok Hne Hp Hle; cbn [push_all] in Hp.
  - by injection Hp as <-.
  - destruct (push reg r) as [reg1|] eqn:Hpush; [|done].
    pose proof (push_nonempty_rotates _ _ _ Hne Hpush) as Hop.
    assert (head_seq reg < head_seq reg1)%N as Hlt.
    { destruct (push_rotate_inv _ _ _ Hok Hpush Hop)
        as (? & ? & ? & ? & _ & _ & _ & Hseq & Hhead & _). lia. }
    rewrite (IH reg1 reg'), (rotation_history reg r reg1); try done.
    + by eapply push_ok.
    + by eapply push_nonempty.
    + lia.
Qed.
(** The key has held the role and its time in it is over by [seq]. *)
Definition held_until (reg : KeyRegistry) (role : KeyRole) (key : PublicKey) (seq : N) : Prop :=
  was_registered reg role key = true /\
  Forall (fun g => kb_role (g_binding g) = role -> kb_key (g_binding g) = key ->
            exists until, g_until g = Some until /\ (until <= seq)%N) (grants reg).

Lemma held_until_inactive reg role key seq epoch :
  held_until reg role key seq -> (seq <= epoch)%N -> is_active reg role key epoch = false.
Proof.
  intros [_ Hall] Hle. apply not_true_iff_false.
  intros [_ (g & [Hr Hin]%list_elem_of_filter & Hk & Hc)]%is_active_line.
  destruct (proj1 (Forall_forall _ _) Hall g Hin Hr Hk) as (u & Hu & Hus).
  unfold covers in Hc. rewrite Hu in Hc. apply andb_true_iff in Hc as [_ Hc%N.ltb_lt]. lia.
Qed.

Lemma was_registered_rotation reg r reg' role key :
  registry_ok reg -> push reg r = Ok reg' -> kr_op r = Rotate ->
  was_registered reg role key = true -> was_registered reg' role key = true.
Proof.
  intros Hok Hpush Hop (i & g & Hi & Hr & Hk)%was_registered_true. apply was_registered_true.
  destruct (push_rotate_inv _ _ _ Hok Hpush Hop)
    as (added & retired & _ & _ & _ & _ & _ & _ & _ & Hgs & _).
  exists i, (retire_one (kr_seq r) retired g). rewrite Hgs, retire_one_binding.
  split; [|done]. apply lookup_app_l_Some. by rewrite list_lookup_fmap, Hi.
Qed.

Lemma held_until_push reg r reg' role key seq :
  registry_ok reg -> push reg r = Ok reg' -> kr_op r = Rotate ->
  held_until reg role key seq -> held_until reg' role key seq.
Proof.
  intros Hok Hpush Hop [Hreg Hall]. split; [by eapply was_registered_rotation|].
  destruct (push_rotate_inv _ _ _ Hok Hpush Hop)
    as (added & retired & _ & _ & _ & _ & _ & _ & _ & -> & Hfresh & _).
  apply Forall_app. split.
  - apply Forall_fmap. eapply Forall_impl; [exact Hall|]. intros g Hg. unfold compose.
    rewrite retire_one_binding. intros Hr Hk. destruct (Hg Hr Hk) as (u & Hu & Hle).
    exists u. unfold retire_one. by rewrite (bool_decide_false (g_until g = None)), andb_false_r by congruence.
  - constructor; [|constructor]. simpl. intros _ Hk. exfalso.
    apply was_registered_true in Hreg as (i & g & Hi & _ & Hk').
    apply (Forall_lookup_1 _ _ _ _ Hfresh Hi). congruence.
Qed.

Lemma push_all_held rs : forall reg reg' role key seq,
  registry_ok reg -> records reg <> [] -> push_all reg rs = Ok reg' ->
  held_until reg role key seq -> held_until reg' role key seq.
Proof.
  induction rs as [|r rs IH]; intros reg reg' role key seq Hok Hne Hp Hh; cbn [push_all] in Hp.
  - by injection Hp as <-.
  - destruct (push reg r) as [reg1|] eqn:Hpush; [|done].
    eapply (IH reg1); [by eapply push_ok|by eapply push_nonempty|done|].
    eapply held_until_push; [done..|by eapply push_nonempty_rotates|done].
Qed.

(** Every grant of a line but the last ends by the time the last begins. *)
Lemma contiguous_ended from l g :
  contiguous from (l ++ [g]) ->
  (from <= g_from g)%N /\
  Forall (fun g' => exists until, g_until g' = Some until /\ (until <= g_from g)%N) l.
Proof.
  revert from; induction l as [|x l IH]; intros from Hc.
  - destruct Hc as [-> _]. split; [lia|constructor].
  - destruct Hc as [_ Hc].
    assert (exists until, g_until x = Some until /\ (from < until)%N /\ contiguous until (l ++ [g]))
      as (u & Hu & Hlt & Hc') by (destruct l; done).
    destruct (IH u Hc') as [Hle Hall]. split; [lia|]. constructor; [|done]. by exists u.
Qed.

Lemma rotation_retires reg r reg' retired :
  registry_ok reg -> push reg r = Ok reg' -> kr_op r = Rotate -> kr_retire r = [retired] ->
  held_until reg' (kb_role retired) (kb_key retired) (kr_seq r).
Proof.
  intros Hok Hpush Hop Hret.
  destruct (push_rotate_inv _ _ _ Hok Hpush Hop)
    as (added & retired' & l & g & _ & Hr & Hroles & Hseq & _ & Hgs & Hfresh & Hl & Hc & Hg & _ & Hfrom & Hl').
  rewrite Hret in Hr. injection Hr as <-.
  assert (g ∈ role_grants (kb_role retired) (grants reg)) as [_ Hin]%list_elem_of_filter
    by (rewrite Hl; set_solver).
  split.
  - eapply was_registered_rotation; [done..|]. apply was_registered_true.
    apply list_elem_of_lookup in Hin as [i Hi]. exists i, g. by rewrite Hg.
  - apply Forall_forall. intros g' Hin' Hr' Hk'.
    assert (g' ∈ role_grants (kb_role retired) (grants reg')) as Hin2
      by (apply list_elem_of_filter; done).
    destruct (contiguous_ended _ _ _ Hc) as [_ Hended].
    rewrite Hl', elem_of_app, !elem_of_cons in Hin2. destruct Hin2 as [Hin2|[->|[->|Hin2]]].
    + destruct (proj1 (Forall_forall _ _) Hended _ Hin2) as (u & Hu & Hle).
      exists u. split; [done|lia].
    + by exists (kr_seq r).
    + exfalso. simpl in Hk'. apply (proj1 (Forall_forall _ _) Hfresh _ Hin). by rewrite Hg.
    + by apply not_elem_of_nil in Hin2.
Qed.
Lemma rotation_active reg r reg' added :
  registry_ok reg -> push reg r = Ok reg' -> kr_op r = Rotate -> kr_add r = [added] ->
  active_key reg' (kb_role added) (head_seq reg') = Some (kb_key added).
Proof.
  intros Hok Hpush Hop Hadd.
  destruct (push_rotate_inv _ _ _ Hok Hpush Hop)
    as (added' & retired & l & g & Ha & _ & Hroles & _ & Hhead & _ & _ & _ & _ & _ & _ & _ & Hl').
  rewrite Hadd in Ha. injection Ha as <-.
  apply is_active_active_key; [by eapply push_ok|done|]. apply is_active_line. split; [done|].
  rewrite Hroles, Hl', Hhead. eexists. split; [rewrite elem_of_app; right; right; left|].
  split; [done|]. apply andb_true_iff. split; [apply N.leb_refl|done].
Qed.

Lemma signed_by_fields r keys r' :
  signed_by r keys = Ok r' ->
  kr_seq r' = kr_seq r /\ kr_op r' = kr_op r /\ kr_add r' = kr_add r /\ kr_retire r' = kr_retire r.
Proof. unfold signed_by. destruct (try_map _ _); [|done]. by intros [= <-]. Qed.

Lemma rotation_record_fields reg role old new timestamp r :
  rotation_record reg role old new timestamp = Ok r ->
  kr_op r = Rotate /\ kr_add r = [MkKeyBinding role (export_public_key new)].
Proof.
  unfold rotation_record. destruct (ok_or _ _); [|done]. cbn [rbind].
  destruct (signed_by _ _) as [r'|] eqn:Hs; [|done]. cbn [rbind]. destruct (push reg r'); [|done].
  intros [= <-]. by apply signed_by_fields in Hs as (_ & ? & ? & _).
Qed.

(** The genesis record binds every key pair it was given to its role. *)
Lemma genesis_record_binds timestamp keys r role kp :
  genesis_record timestamp keys = Ok r -> (role, kp) ∈ keys ->
  exists reg, from_records [r] = Ok reg /\ was_registered reg role (export_public_key kp) = true.
Proof.
  unfold genesis_record. set (r0 := MkKeyRegistryRecord _ _ _ _ _ _ _).
  destruct (signed_by r0 keys.*2) as [r'|] eqn:Hs; [|done]. cbn [rbind].
  destruct (from_records [r']) as [reg|] eqn:Hr; [|done]. intros [= <-] Hin. exists reg. split; [done|].
  apply signed_by_fields in Hs as (Hseq & Hop & Hadd & Hret). cbn in Hseq, Hadd, Hret.
  unfold from_records in Hr. rewrite bool_decide_false in Hr by done. cbn [push_all] in Hr.
  destruct (push _ r') as [reg'|] eqn:Hp; [|done]. injection Hr as ->.
  apply push_Ok in Hp as (_ & _ & _ & _ & _ & _ & _ & ->).
  apply was_registered_true. cbn [grants]. unfold apply_record. rewrite Hadd, Hret, Hseq.
  cbn [List.fold_left app].
  enough (MkGrant (MkKeyBinding role (export_public_key kp)) 0 None ∈
            ((fun added => MkGrant added 0 None) <$> merge_sort sort_key_le
              ((fun '(role, kp) => MkKeyBinding role (export_public_key kp)) <$> keys))) as Hg.
  { apply list_elem_of_lookup in Hg as [i Hi]. by exists i, (MkGrant (MkKeyBinding role (export_public_key kp)) 0 None). }
  apply (list_elem_of_fmap_2 (fun added => MkGrant added 0 None)). rewrite merge_sort_Permutation.
  exact (list_elem_of_fmap_2 (fun '(role, kp) => MkKeyBinding role (export_public_key kp)) keys (role, kp) Hin).
Qed.

(** *** Signatures *)

Lemma elem_of_dedup {A} `{EqDecision A} (x : A) l : x ∈ dedup l <-> x ∈ l.
Proof.
  induction l as [|a [|b l] IH]; [done|done|]. rewrite dedup_cons, (elem_of_cons _ _ a).
  case_bool_decide as Hab; rewrite ?elem_of_cons, ?IH, ?elem_of_cons; naive_solver.
Qed.

Lemma elem_of_required_signers r key :
  key ∈ required_signers r <-> key ∈ kb_key <$> (kr_add r ++ kr_retire r).
Proof. unfold required_signers. by rewrite elem_of_dedup, merge_sort_Permutation. Qed.

(** [key] signed the record. *)
Definition signed_with (r : KeyRegistryRecord) (key : PublicKey) : Prop :=
  exists signature, signature ∈ kr_signatures r /\ rs_key signature = key /\
    verify_strict key (record_signing_input r) (rs_signature signature) = true.

Lemma zip_all_eq (sigs : list RegistrySignature) keys :
  length sigs = length keys ->
  existsb (fun '(signature, key) => negb (bool_decide (rs_key signature = key))) (zip sigs keys) = false
  <-> rs_key <$> sigs = keys.
Proof.
  revert keys; induction sigs as [|x sigs IH]; intros [|k keys] Hlen; try done.
  cbn [zip zip_with existsb fmap list_fmap]. injection Hlen as Hlen.
  rewrite orb_false_iff, negb_false_iff, bool_decide_eq_true, (IH _ Hlen).
  split; [by intros [-> ->]|by intros [= -> ->]].
Qed.

Lemma check_signatures_Ok r :
  check_signatures r = Ok tt <->
  rs_key <$> kr_signatures r = required_signers r /\
  Forall (fun s => verify_strict (rs_key s) (record_signing_input r) (rs_signature s) = true)
    (kr_signatures r).
Proof.
  unfold check_signatures.
  destruct (decide (length (kr_signatures r) = length (required_signers r))) as [Hl|Hl].
  - rewrite bool_decide_true by done. cbn [negb orb].
    rewrite <- (zip_all_eq _ _ Hl). destruct (existsb _ _); [naive_solver|].
    rewrite (try_for_iff _ (fun s => verify_strict (rs_key s) (record_signing_input r)
                                       (rs_signature s) = true)); [naive_solver|].
    intros x. destruct (verify_strict _ _ _); naive_solver.
  - rewrite bool_decide_false by done. split; [done|]. intros [Heq _]. destruct Hl.
    by rewrite <- Heq, length_fmap.
Qed.

Lemma push_signed reg r reg' key :
  push reg r = Ok reg' -> key ∈ kb_key <$> (kr_add r ++ kr_retire r) -> signed_with r key.
Proof.
  intros (_ & _ & _ & _ & _ & _ & [Hkeys Hall]%check_signatures_Ok & _)%push_Ok Hin.
  rewrite <- elem_of_required_signers, <- Hkeys in Hin.
  apply list_elem_of_fmap_1 in Hin as (x & -> & Hin). exists x. do 2 (split; [done|]).
  exact (proj1 (Forall_forall _ _) Hall _ Hin).
Qed.

(** ** Claims *)

(** In every registry built from records, each state up to the latest has
    exactly one active audit key, no role has two active keys in one state,
    and a key that ever held the audit role never holds another. *)
Theorem registry_authority rs reg :
  from_records rs = Ok reg ->
  (forall epoch, (epoch <= head_seq reg)%N ->
     exists key, forall key', is_active reg Audit key' epoch = true <-> key' = key) /\
  (forall role key key' epoch, is_active reg role key epoch = true ->
     is_active reg role key' epoch = true -> key = key') /\
  (forall role key, was_registered reg Audit key = true ->
     was_registered reg role key = true -> role = Audit).
Proof.
  intros (Hok & _ & Hne)%from_records_ok. split; [|split].
  - intros epoch Hle. destruct (audit_key_exists _ epoch Hok Hne) as [key Hkey]. exists key.
    intros key'. rewrite is_active_active_key, Hkey by done. naive_solver.
  - intros role key key' epoch H1 H2. pose proof (proj1 (proj1 (is_active_line _ _ _ _) H1)) as Hle.
    rewrite is_active_active_key in H1, H2 by done. congruence.
  - intros role key. by apply audit_key_only_audit.
Qed.


Lemma find_pair keys key :
  (exists kp, kp ∈ keys /\ export_public_key kp = key) ->
  exists kp, List.find (fun kp => bool_decide (export_public_key kp = key)) keys = Some kp /\
    export_public_key kp = key.
Proof.
  intros (kp & Hin%list_elem_of_In & Hk). destruct (List.find _ keys) as [kp'|] eqn:Hf.
  - apply List.find_some in Hf as [_ Hk'%bool_decide_eq_true]. by exists kp'.
  - pose proof (List.find_none _ _ Hf _ Hin) as Hn. cbn beta in Hn.
    by rewrite bool_decide_true in Hn.
Qed.

(** Signing with key pairs whose public halves cover the record. *)
Lemma signed_by_checks (laws : CryptoLaws) r keys :
  Forall (fun key => exists kp, kp ∈ keys /\ export_public_key kp = key)
    (kb_key <$> (kr_add r ++ kr_retire r)) ->
  exists sigs, signed_by r keys = Ok (with_signatures r sigs) /\
    check_signatures (with_signatures r sigs) = Ok tt.
Proof.
  intros Hall. unfold signed_by.
  enough (exists sigs, rs_key <$> sigs = required_signers r /\
            Forall (fun s => verify_strict (rs_key s) (record_signing_input r) (rs_signature s) = true) sigs /\
            try_map (fun key =>
              match List.find (fun kp => bool_decide (export_public_key kp = key)) keys with
              | Some kp => Ok (MkRegistrySignature key (sign kp (record_signing_input r)))
              | None => Err PrivateHalfNotSupplied
              end) (required_signers r) = Ok sigs) as (sigs & Hkeys & Hvalid & ->).
  { exists sigs. split; [done|]. by apply check_signatures_Ok. }
  assert (Forall (fun key => exists kp, kp ∈ keys /\ export_public_key kp = key) (required_signers r))
    as Hreq.
  { apply Forall_forall. intros key Hin%elem_of_required_signers.
    exact (proj1 (Forall_forall _ _) Hall _ Hin). }
  induction Hreq as [|key ks (kp & Hf & Hk)%find_pair _ (sigs & IH1 & IH2 & IH3)]; [by exists []|].
  exists (MkRegistrySignature key (sign kp (record_signing_input r)) :: sigs).
  split; [by rewrite fmap_cons, IH1|]. split.
  - constructor; [|done]. simpl. rewrite <- Hk. apply sign_verify_strict.
  - cbn [try_map]. rewrite Hf. simpl. by rewrite IH3.
Qed.

(** Rotation is live: from any registry, the holder of a role's active key
    and of a key never registered can build the rotation record whenever the
    sequence number and the time fit in 64 bits; the record is accepted, and
    the new key is then the active key of the role. *)
Theorem rotation_record_live (laws : CryptoLaws) rs reg role old new timestamp :
  from_records rs = Ok reg -> (head_seq reg < U64_MAX)%N -> timestamp_nanos timestamp <> None ->
  active_key reg role (head_seq reg) = Some (export_public_key old) ->
  (forall role', was_registered reg role' (export_public_key new) = false) ->
  exists r reg', rotation_record reg role old new timestamp = Ok r /\ push reg r = Ok reg' /\
    active_key reg' role (head_seq reg') = Some (export_public_key new).
Proof.
  intros (Hok & _ & Hne)%from_records_ok Hmax Htime Hact Hfresh. unfold rotation_record.
  unfold checked_add. rewrite (proj2 (N.leb_le _ _)) by lia. cbn [ok_or rbind].
  set (r0 := MkKeyRegistryRecord _ _ _ _ _ _ _).
  destruct (signed_by_checks laws r0 [old; new]) as (sigs & -> & Hsigs).
  { apply Forall_forall. intros key. cbn. set_solver. }
  set (r := with_signatures r0 sigs) in *. cbn [rbind].
  assert (push reg r = Ok (MkKeyRegistry (records reg ++ [r]) (hashes reg ++ [record_hash r])
                             (apply_record (grants reg) r))) as Hpush.
  { apply push_Ok. cbn [kr_seq kr_prev kr_timestamp kr_op kr_add kr_retire r r0 with_signatures].
    split; [by rewrite (last_seq _ Hok Hne)|]. do 4 (split; [done|]). split; [|done].
    unfold check_rotation. cbn [kr_add kr_retire r r0 with_signatures kb_role kb_key].
    rewrite bool_decide_false, !bool_decide_true by done. cbn [negb].
    rewrite (proj2 (existsb_false _ _)); [done|].
    apply Forall_forall. intros g [i Hi]%list_elem_of_lookup. apply bool_decide_eq_false. intros Hk.
    assert (was_registered reg (kb_role (g_binding g)) (export_public_key new) = true) as Hw
      by (apply was_registered_true; eauto).
    by rewrite Hfresh in Hw. }
  rewrite Hpush. cbn [rbind]. do 2 eexists. split; [done|]. split; [done|].
  exact (rotation_active _ _ _ _ Hok Hpush eq_refl eq_refl).
Qed.
End Invariant.

(** ** Examples

    A genesis with an audit and a capability key, and the rotation of the
    audit key, under the evaluation instance of [Crypto]. *)
Module RegistryExamples.
  #[local] Existing Instance toy_crypto.

Definition key (n : N) : array 32 := int_array 32 n.
Definition example_time : Timestamp := 1700000000000000000%Z.

Definition example_genesis : result KeyRegistryRecord RegistryRefusal :=
  genesis_record example_time [(Capability, key 2); (Audit, key 1)].

Definition registry_or_empty (c : result KeyRegistry RegistryRefusal) : KeyRegistry :=
  match c with Ok reg => reg | Err _ => MkKeyRegistry [] [] [] end.

Definition example_registry : KeyRegistry :=
  registry_or_empty (let? g := example_genesis in from_records [g]).

Definition record_or_empty (c : result KeyRegistryRecord RegistryRefusal) : KeyRegistryRecord :=
  match c with Ok r => r | Err _ => MkKeyRegistryRecord 0 (zero_array 32) 0%Z Genesis [] [] [] end.

Definition example_rotation : KeyRegistryRecord :=
  record_or_empty (rotation_record example_registry Audit (key 1) (key 3) (example_time + 1)%Z).

Definition example_rotated : KeyRegistry :=
  registry_or_empty (push example_registry example_rotation).

Lemma example_registry_built : from_records (records example_registry) = Ok example_registry.
Proof. vm_compute. reflexivity. Qed.

Lemma registry_authority_witness :
  exists k, forall key', is_active example_rotated Audit key' 1 = true <-> key' = k.
Proof.
  apply (registry_authority (records example_rotated) example_rotated).
  - vm_compute. reflexivity.
  - vm_compute. discriminate.
Defined.


Lemma rotation_record_live_witness :
  exists r reg', rotation_record example_registry Audit (key 1) (key 3) (example_time + 1)%Z = Ok r /\
    push example_registry r = Ok reg' /\
    active_key reg' Audit (head_seq reg') = Some (key 3).
Proof.
  apply (rotation_record_live toy_crypto_laws (records example_registry)).
  - exact example_registry_built.
  - vm_compute. reflexivity.
  - vm_compute. discriminate.
  - vm_compute. reflexivity.
  - intros role'. destruct role'; vm_compute; reflexivity.
Defined.

(** A key may not serve the audit role and another, and a role has one key. *)
Lemma example_genesis_refused :
  genesis_record example_time [(Capability, key 1); (Audit, key 1)] = Err AuditKeyHoldsAnotherRole /\
  genesis_record example_time [(Audit, key 1); (Audit, key 2)] = Err RoleBoundTwice /\
  genesis_record example_time [(Capability, key 1)] = Err NotOneAuditKey.
Proof. vm_compute. done. Qed.
End RegistryExamples.
