(* ===== verification/AuditEntry.v ===== *)
(** * Audit entries

    [crates/astrid-audit/src/entry.rs] and [entry_v2/{json, fields, body,
    decode}.rs]: the two signed layouts of an audit entry, the canonical body
    of a format-v2 entry with its salted field commitments, their
    disclosures, and the verifier of an entry held only as its body.

    The serde form of an action and of an authorization comes from derive
    macros and is the class [AuditSerde]; [AuditSerdeLaws] is what the
    serde_json value type guarantees (unique member names, UTF-8 text,
    integers of 64 bits).  The outcome has two variants and its serde form is
    written out.  A JSON number that is not an integer enters only through
    its text.  Entry identifiers inside errors are the identifier's bytes. *)

From stdpp Require Import sorting pretty.
From S2P Require Import Prelude Bytes Cbor Crypto KeyRegistry.
From Stdlib Require Import Ascii.
Local Open Scope string_scope.
Local Open Scope list_scope.

(** ** JSON values *)

Inductive Number : Type :=
| PosInt (value : N)
| NegInt (value : Z)
| Float (text : string).

Inductive Value : Type :=
| VNull
| VBool (value : bool)
| VNumber (number : Number)
| VString (text : string)
| VArray (items : list Value)
| VObject (members : list (string * Value)).

Definition as_u64 (number : Number) : option N :=
  match number with PosInt value => Some value | _ => None end.

Definition as_i64 (number : Number) : option Z :=
  match number with
  | PosInt value => if (Z.of_N value <? 2 ^ 63)%Z then Some (Z.of_N value) else None
  | NegInt value => Some value
  | Float _ => None
  end.

(** [Number::to_string]. *)
Definition number_text (number : Number) : string :=
  match number with
  | PosInt value => pretty value
  | NegInt value => pretty value
  | Float text => text
  end.

(** [!value] of a two's-complement integer is [-1 - value]. *)
Definition number_to_cbor (number : Number) : Cbor :=
  match as_u64 number with
  | Some value => Uint value
  | None =>
      match as_i64 number with
      | Some value =>
          if (0 <=? Z.lnot value)%Z then Nint (Z.to_N (Z.lnot value))
          else CBytes (as_bytes (number_text number))
      | None => CBytes (as_bytes (number_text number))
      end
  end.

Fixpoint to_cbor (value : Value) : Cbor :=
  match value with
  | VNull => Null
  | VBool value => CBool value
  | VNumber number => number_to_cbor number
  | VString text => Text text
  | VArray items => Array (List.map to_cbor items)
  | VObject members =>
      CMap (List.map (fun member => match member with (key, value) => (Text key, to_cbor value) end)
              members)
  end.

(** ** Errors and entry data *)

(** [AuditError]; the two constructors of a key-registry error are a refusal of
    [registry.rs] and a message of its callers. *)
Inductive AuditError : Type :=
| StorageError (reason : string)
| RetentionCapReached
| UnanchoredPrune (reason : string)
| AnchorRejected (reason : string)
| UnsupportedOperation (operation : string)
| SerializationError (reason : string)
| EntryNotFound (entry_id : Uuid)
| IntegrityViolation (entry_id : Uuid) (reason : string)
| InvalidSignature (entry_id : Uuid)
| SessionNotFound (session_id : Uuid)
| CryptoError (reason : string)
| KeyRegistryError (refusal : RegistryRefusal)
| KeyRegistryMessage (reason : string)
| KeyNotRegistered (key : PublicKey)
| StaleAuditKey (key_epoch : N)
| V1Closed (reason : string).

Abbreviation AuditResult A := (result A AuditError).

Inductive AuditOutcome : Type :=
| Success (details : option string)
| Failure (error : string).

(** The derived serde form of [AuditOutcome], internally tagged by [status];
    an absent [details] is written as a null member. *)
Definition outcome_to_value (outcome : AuditOutcome) : Value :=
  match outcome with
  | Success details =>
      VObject [("status", VString "success");
               ("details", match details with Some text => VString text | None => VNull end)]
  | Failure error => VObject [("status", VString "failure"); ("error", VString error)]
  end.

Class AuditSerde : Type := {
  AuditAction : Type;
  AuthorizationProof : Type;
  action_to_value : AuditAction -> result Value string;
  action_to_vec : AuditAction -> option (list byte);
  authorization_to_value : AuthorizationProof -> result Value string;
  authorization_to_vec : AuthorizationProof -> option (list byte);
}.

Record AuditActor : Type := MkAuditActor {
  capsule_id : string;
  wasm_sha256 : option (array 32);
}.

Record EntryV2Seal : Type := MkEntryV2Seal {
  s_chain_id : array 32;
  s_seq : N;
  s_key_epoch : N;
  s_principal_uid : option (array 32);
  s_actor : option AuditActor;
  s_salt_key : array 32;
}.

Record AuditEntry `{AuditSerde} : Type := MkAuditEntry {
  e_id : Uuid;
  e_timestamp : Timestamp;
  e_session_id : Uuid;
  e_principal : option string;
  e_action : AuditAction;
  e_authorization : AuthorizationProof;
  e_outcome : AuditOutcome;
  e_previous_hash : ContentHash;
  e_runtime_key : PublicKey;
  e_signature : Signature;
  e_v2 : option EntryV2Seal;
}.

Inductive AuditEntryFormat : Type := V1 | V2.

(** ** Sections *)

Record EntrySection : Type := MkSection { sec_kind : string; sec_fields : list (string * Cbor) }.

Definition TYPE_TAG : string := "type".
Definition STATUS_TAG : string := "status".

(** [Map::remove]. *)
Definition members_remove (tag : string) (members : list (string * Value))
    : option Value * list (string * Value) :=
  (snd <$> List.find (fun member => String.eqb member.1 tag) members,
   List.filter (fun member => negb (String.eqb member.1 tag)) members).

Definition section_of (value : result Value string) (tag what : string) : AuditResult EntrySection :=
  let unencodable reason :=
    SerializationError ("cannot encode the " +:+ what +:+ " of a v2 entry: " +:+ reason) in
  match value with
  | Err error => Err (unencodable error)
  | Ok (VObject members) =>
      match members_remove tag members with
      | (Some (VString kind), members) =>
          Ok (MkSection kind ((fun '(name, value) => (name, to_cbor value)) <$> members))
      | _ => Err (unencodable "its serde form has no text tag")
      end
  | Ok _ => Err (unencodable "its serde form is not an object")
  end.

Section Entry.
  Context `{Crypto, AuditSerde}.

Definition action_section (action : AuditAction) : AuditResult EntrySection :=
  section_of (action_to_value action) TYPE_TAG "action".
Definition authorization_section (authorization : AuthorizationProof) : AuditResult EntrySection :=
  section_of (authorization_to_value authorization) TYPE_TAG "authorization".
Definition outcome_section (outcome : AuditOutcome) : AuditResult EntrySection :=
  section_of (Ok (outcome_to_value outcome)) STATUS_TAG "outcome".

(** ** The signed body *)

Definition ENTRY_TAG : string := "astrid.audit.entry.v2".
Definition FIELD_TAG : string := "astrid.audit.field.v2".
Definition SALT_TAG : string := "astrid.audit.salt.v2".
Definition CHAIN_ID_TAG : string := "astrid.audit.chain-id.v2".
Definition SECTION_ACTION : N := 9.
Definition SECTION_AUTHORIZATION : N := 10.
Definition SECTION_OUTCOME : N := 11.
Definition UNENCODABLE_TAG : string := "astrid.audit.entry.v2: body cannot be encoded".

Definition null_or {A} (item : A -> Cbor) (o : option A) : Cbor :=
  match o with Some a => item a | None => Null end.

Definition principal_item (alias : option string) (uid : option (array 32)) : Cbor :=
  Array [null_or (fun uid => CBytes (arr uid)) uid; null_or Text alias].

Definition chain_id_from_parts (registry_id : array 32) (session : Uuid)
    (principal_uid : option (array 32)) (principal_alias : option string) : array 32 :=
  sha256 (encode (Array [Text CHAIN_ID_TAG; CBytes (arr registry_id); CBytes (arr session);
                         principal_item principal_alias principal_uid])).

Definition derive_chain_id (registry_id : array 32) (session : Uuid) (principal : option string)
    (principal_uid : option (array 32)) : array 32 :=
  chain_id_from_parts registry_id session principal_uid principal.

(** The 16 bytes copied out of the MAC; [mac.get(..16)] cannot fail. *)
Definition field_salt (salt_key : array 32) (section : N) (name : string) : array 16 :=
  let message := encode (Array [Text SALT_TAG; Uint section; Text name]) in
  from_option id (zero_array 16) (array_try_from 16 (take 16 (arr (hmac_sha256 (arr salt_key) message)))).

Definition commitment (chain_id : array 32) (seq section : N) (name : string) (salt : array 16)
    (value : Cbor) : array 32 :=
  sha256 (encode (Array [Text FIELD_TAG; CBytes (arr chain_id); Uint seq; Uint section; Text name;
                         CBytes (arr salt); value])).

Record FieldDisclosure : Type := MkFieldDisclosure {
  d_section : N;
  d_name : string;
  d_salt : array 16;
  d_value : list byte;
  d_commitment : array 32;
}.

Definition verify_field_disclosure (chain_id : array 32) (seq : N) (d : FieldDisclosure) : bool :=
  match decode (d_value d) with
  | Err _ => false
  | Ok value =>
      bool_decide (commitment chain_id seq (d_section d) (d_name d) (d_salt d) value = d_commitment d)
  end.

Definition sections (entry : AuditEntry) : AuditResult (list (N * EntrySection)) :=
  let? action := action_section (e_action entry) in
  let? authorization := authorization_section (e_authorization entry) in
  let? outcome := outcome_section (e_outcome entry) in
  Ok [(SECTION_ACTION, action); (SECTION_AUTHORIZATION, authorization); (SECTION_OUTCOME, outcome)].

(** The commitment of one field, as [section_item] and [disclosures] take it. *)
Definition field_commitment (index : N) (seal : EntryV2Seal) (name : string) (value : Cbor) : array 32 :=
  commitment (s_chain_id seal) (s_seq seal) index name (field_salt (s_salt_key seal) index name) value.

Definition section_item (index : N) (section : EntrySection) (seal : EntryV2Seal) : Cbor :=
  Array [Text (sec_kind section);
         CMap ((fun '(name, value) => (Text name, CBytes (arr (field_commitment index seal name value))))
                 <$> sec_fields section)].

Definition actor_item (actor : AuditActor) : Cbor :=
  Array [Text (capsule_id actor); null_or (fun hash => CBytes (arr hash)) (wasm_sha256 actor)].

Definition body_item (entry : AuditEntry) (seal : EntryV2Seal) : AuditResult Cbor :=
  let? secs := sections entry in
  Ok (Array ([Text ENTRY_TAG;
              CBytes (arr (s_chain_id seal));
              Uint (s_seq seal);
              CBytes (arr (e_previous_hash entry));
              Uint (from_option id 0%N (timestamp_nanos (e_timestamp entry)));
              CBytes (arr (e_id entry));
              CBytes (arr (e_session_id entry));
              principal_item (e_principal entry) (s_principal_uid seal);
              null_or actor_item (s_actor seal)]
             ++ ((fun '(index, section) => section_item index section seal) <$> secs)
             ++ [Array [Uint (s_key_epoch seal); CBytes (arr (e_runtime_key entry))]])).

Definition body_bytes (entry : AuditEntry) (seal : EntryV2Seal) : AuditResult (list byte) :=
  let? item := body_item entry seal in Ok (encode item).

Definition signing_input (entry_hash : array 32) : list byte :=
  encode (Array [Text SIGNATURE_TAG; Text "entry"; CBytes (arr entry_hash)]).

Definition disclosure_key (d : FieldDisclosure) : N * list byte := (d_section d, encode (Text (d_name d))).
Definition disclosure_le (a b : FieldDisclosure) : Prop :=
  (d_section a < d_section b)%N \/
  (d_section a = d_section b /\ bytes_le (disclosure_key a).2 (disclosure_key b).2).

#[export] Instance disclosure_le_dec : RelDecision disclosure_le.
Proof. intros a b. unfold disclosure_le. apply _. Defined.

Definition disclosures (entry : AuditEntry) (seal : EntryV2Seal) : AuditResult (list FieldDisclosure) :=
  let? secs := sections entry in
  Ok (merge_sort disclosure_le
        (List.concat ((fun '(index, section) =>
           (fun '(name, value) =>
              MkFieldDisclosure index name (field_salt (s_salt_key seal) index name) (encode value)
                (field_commitment index seal name value)) <$> sec_fields section) <$> secs))).

Definition v2_entry_hash (entry : AuditEntry) (seal : EntryV2Seal) : AuditResult (array 32) :=
  let? body := body_bytes entry seal in Ok (sha256 body).

Definition v2_hash_or_unencodable (entry : AuditEntry) (seal : EntryV2Seal) : array 32 :=
  match v2_entry_hash entry seal with
  | Ok hash => hash
  | Err _ => sha256 (as_bytes UNENCODABLE_TAG)
  end.

Definition v2_body (entry : AuditEntry) : AuditResult (option (list byte)) :=
  match e_v2 entry with
  | Some seal => let? body := body_bytes entry seal in Ok (Some body)
  | None => Ok None
  end.

Definition v2_field_disclosures (entry : AuditEntry) : AuditResult (list FieldDisclosure) :=
  match e_v2 entry with Some seal => disclosures entry seal | None => Ok [] end.

(** ** Entries of either format *)

Definition format (entry : AuditEntry) : AuditEntryFormat :=
  match e_v2 entry with Some _ => V2 | None => V1 end.

Definition marker (n : N) : list byte := [ascii_of_N n].

Definition is_success (outcome : AuditOutcome) : bool :=
  match outcome with Success _ => true | Failure _ => false end.

Definition v1_signing_data (entry : AuditEntry) : list byte :=
  arr (e_id entry)
    ++ seconds_le_bytes (e_timestamp entry)
    ++ arr (e_session_id entry)
    ++ match e_principal entry with
       | Some p =>
           let bytes := as_bytes p in
           marker 255 ++ to_le_bytes 4 (N.of_nat (length bytes) mod 2 ^ 32)%N ++ bytes
       | None => marker 0
       end
    ++ from_option id [] (action_to_vec (e_action entry))
    ++ from_option id [] (authorization_to_vec (e_authorization entry))
    ++ marker (if is_success (e_outcome entry) then 1 else 0)
    ++ arr (e_previous_hash entry)
    ++ arr (e_runtime_key entry).

Definition signing_data (entry : AuditEntry) : list byte :=
  match e_v2 entry with
  | Some seal => signing_input (v2_hash_or_unencodable entry seal)
  | None => v1_signing_data entry
  end.

Definition content_hash (entry : AuditEntry) : ContentHash :=
  match e_v2 entry with
  | Some seal => v2_hash_or_unencodable entry seal
  | None => ContentHash_hash (v1_signing_data entry)
  end.

Definition verify_signature (entry : AuditEntry) : AuditResult unit :=
  let data := signing_data entry in
  let verified :=
    match e_v2 entry with
    | Some _ => verify_strict (e_runtime_key entry) data (e_signature entry)
    | None => verify (e_runtime_key entry) data (e_signature entry)
    end in
  if verified then Ok tt else Err (InvalidSignature (e_id entry)).

Definition follows (entry previous : AuditEntry) : bool :=
  bool_decide (e_previous_hash entry = content_hash previous).

Definition with_signature (entry : AuditEntry) (signature : Signature) : AuditEntry :=
  MkAuditEntry _ (e_id entry) (e_timestamp entry) (e_session_id entry) (e_principal entry)
    (e_action entry) (e_authorization entry) (e_outcome entry) (e_previous_hash entry)
    (e_runtime_key entry) signature (e_v2 entry).

(** The fresh identifier and the clock are arguments. *)
Definition new_unsigned (id : Uuid) (now : Timestamp) (session_id : Uuid) (action : AuditAction)
    (authorization : AuthorizationProof) (outcome : AuditOutcome) (previous_hash : ContentHash)
    (runtime_key : PublicKey) : AuditEntry :=
  MkAuditEntry _ id now session_id None action authorization outcome previous_hash runtime_key
    (zero_array 64) None.

Definition create (id : Uuid) (now : Timestamp) (session_id : Uuid) (action : AuditAction)
    (authorization : AuthorizationProof) (outcome : AuditOutcome) (previous_hash : ContentHash)
    (runtime_key : KeyPair) : AuditEntry :=
  let entry := new_unsigned id now session_id action authorization outcome previous_hash
                 (export_public_key runtime_key) in
  with_signature entry (sign runtime_key (signing_data entry)).

Definition with_principal (entry : AuditEntry) (principal : string) : AuditEntry :=
  MkAuditEntry _ (e_id entry) (e_timestamp entry) (e_session_id entry) (Some principal)
    (e_action entry) (e_authorization entry) (e_outcome entry) (e_previous_hash entry)
    (e_runtime_key entry) (e_signature entry) (e_v2 entry).

Definition create_with_principal (id : Uuid) (now : Timestamp) (session_id : Uuid) (principal : string)
    (action : AuditAction) (authorization : AuthorizationProof) (outcome : AuditOutcome)
    (previous_hash : ContentHash) (runtime_key : KeyPair) : AuditEntry :=
  let entry := with_principal
                 (new_unsigned id now session_id action authorization outcome previous_hash
                    (export_public_key runtime_key)) principal in
  with_signature entry (sign runtime_key (signing_data entry)).

Record EntryV2Draft : Type := MkEntryV2Draft {
  dr_session_id : Uuid;
  dr_principal : option string;
  dr_principal_uid : option (array 32);
  dr_actor : option AuditActor;
  dr_action : AuditAction;
  dr_authorization : AuthorizationProof;
  dr_outcome : AuditOutcome;
  dr_previous_hash : ContentHash;
  dr_chain_id : array 32;
  dr_seq : N;
  dr_key_epoch : N;
}.

Definition assemble_v2 (draft : EntryV2Draft) (signer : KeyPair) (id : Uuid) (timestamp : Timestamp)
    (salt_key : array 32) : AuditResult AuditEntry :=
  if bool_decide (timestamp_nanos timestamp = None)
  then Err (IntegrityViolation id "entry time is not representable as u64 nanoseconds")
  else if (dr_seq draft =? 0)%N
  then Err (IntegrityViolation id "v2 sequence numbers start at 1")
  else
    let seal := MkEntryV2Seal (dr_chain_id draft) (dr_seq draft) (dr_key_epoch draft)
                  (dr_principal_uid draft) (dr_actor draft) salt_key in
    let entry := MkAuditEntry _ id timestamp (dr_session_id draft) (dr_principal draft)
                   (dr_action draft) (dr_authorization draft) (dr_outcome draft)
                   (dr_previous_hash draft) (export_public_key signer) (zero_array 64) (Some seal) in
    let? hash := v2_entry_hash entry seal in
    Ok (with_signature entry (sign signer (signing_input hash))).

(** ** Decoding a body *)

Record DecodedSection : Type := MkDecodedSection {
  ds_kind : string;
  ds_fields : list (string * array 32);
}.

Record EntryV2Header : Type := MkEntryV2Header {
  h_entry_hash : array 32;
  h_chain_id : array 32;
  h_seq : N;
  h_prev : array 32;
  h_time_ns : N;
  h_entry_id : array 16;
  h_session : array 16;
  h_principal_uid : option (array 32);
  h_principal_alias : option string;
  h_actor : option (string * option (array 32));
  h_action : DecodedSection;
  h_authorization : DecodedSection;
  h_outcome : DecodedSection;
  h_key_epoch : N;
  h_signer : PublicKey;
}.

Definition malformed (reason : string) : AuditError :=
  SerializationError ("malformed v2 entry body: " +:+ reason).

Definition uint (item : Cbor) (what : string) : AuditResult N :=
  match item with Uint value => Ok value | _ => Err (malformed what) end.

Definition fixed (n : nat) (item : Cbor) (what : string) : AuditResult (array n) :=
  match item with
  | CBytes bytes => ok_or (array_try_from n bytes) (malformed what)
  | _ => Err (malformed what)
  end.

Definition optional {A} (item : Cbor) (parse : Cbor -> AuditResult A) : AuditResult (option A) :=
  match item with
  | Null => Ok None
  | other => let? a := parse other in Ok (Some a)
  end.

Definition text (item : Cbor) (what : string) : AuditResult string :=
  match item with Text text => Ok text | _ => Err (malformed what) end.

Definition section (item : Cbor) (what : string) : AuditResult DecodedSection :=
  match item with
  | Array [kind; CMap entries] =>
      let? fields := try_map (fun '(name, commitment) =>
          let? name := text name what in
          let? commitment := fixed 32 commitment what in
          Ok (name, commitment)) entries in
      let? kind := text kind what in
      Ok (MkDecodedSection kind fields)
  | _ => Err (malformed what)
  end.

Definition actor (item : Cbor) : AuditResult (string * option (array 32)) :=
  match item with
  | Array [capsule; wasm] =>
      let? capsule := text capsule "actor capsule id" in
      let? wasm := optional wasm (fun item => fixed 32 item "actor wasm hash") in
      Ok (capsule, wasm)
  | _ => Err (malformed "actor")
  end.

Definition is_entry_tag (item : Cbor) : bool :=
  match item with Text tag => String.eqb tag ENTRY_TAG | _ => false end.
Definition is_zero_uint (item : Cbor) : bool :=
  match item with Uint value => (value =? 0)%N | _ => false end.

(** [CborError::to_string]. *)
Definition cbor_error_text (error : CborError) : string :=
  match error with MkCborError reason => "non-canonical or unsupported CBOR: " +:+ reason end.

(** [EntryV2Header::decode]. *)
Definition header_decode (body : list byte) : AuditResult EntryV2Header :=
  match decode body with
  | Err error => Err (malformed (cbor_error_text error))
  | Ok (Array [tag; chain; seq; prev; time; id; session_item; principal; actor_it; action;
               authorization; outcome; signer]) =>
      if negb (is_entry_tag tag) then Err (malformed "unknown domain tag")
      else if is_zero_uint seq then Err (malformed "sequence numbers start at 1")
      else match principal with
      | Array [uid; alias] =>
          match signer with
          | Array [epoch; key] =>
              let? chain_id := fixed 32 chain "chain id" in
              let? seq := uint seq "sequence" in
              let? prev := fixed 32 prev "previous hash" in
              let? time_ns := uint time "time" in
              let? entry_id := fixed 16 id "entry id" in
              let? session_id := fixed 16 session_item "session" in
              let? principal_uid := optional uid (fun item => fixed 32 item "principal uid") in
              let? principal_alias := optional alias (fun item => text item "principal alias") in
              let? act := optional actor_it actor in
              let? action := section action "action" in
              let? authorization := section authorization "authorization" in
              let? outcome := section outcome "outcome" in
              let? key_epoch := uint epoch "key epoch" in
              let? key := fixed 32 key "signer key" in
              Ok (MkEntryV2Header (sha256 body) chain_id seq prev time_ns entry_id session_id
                    principal_uid principal_alias act action authorization outcome key_epoch key)
          | _ => Err (malformed "signer")
          end
      | _ => Err (malformed "principal")
      end
  | Ok (Array _) => Err (malformed "expected 13 elements")
  | Ok _ => Err (malformed "not an array")
  end.

Definition verify_entry_v2_body (body : list byte) (signature : Signature) (registry : KeyRegistry)
    : AuditResult EntryV2Header :=
  let? header := header_decode body in
  let chain_id := chain_id_from_parts (registry_id registry) (h_session header)
                    (h_principal_uid header) (h_principal_alias header) in
  if negb (bool_decide (chain_id = h_chain_id header))
  then Err (IntegrityViolation (h_entry_id header)
              "chain id does not match the registry, session and principal")
  else if negb (is_active registry Audit (h_signer header) (h_key_epoch header))
  then Err (KeyNotRegistered (h_signer header))
  else if verify_strict (h_signer header) (signing_input (h_entry_hash header)) signature
  then Ok header
  else Err (InvalidSignature (h_entry_id header)).
End Entry.

(** ** Well-formed inputs

    What the Rust types already guarantee: text is UTF-8 shorter than [2^64]
    bytes, integers fit their width, and the members of an object have
    distinct names.  [value_ok levels] also bounds the nesting by [levels]. *)
Definition text_ok (s : string) : Prop :=
  utf8_valid s = true /\ (N.of_nat (String.length s) <= U64_MAX)%N.

Definition option_text_ok (o : option string) : Prop :=
  match o with Some s => text_ok s | None => True end.

Definition number_ok (number : Number) : Prop :=
  match number with
  | PosInt value => (value <= U64_MAX)%N
  | NegInt value => (- 2 ^ 63 <= value < 0)%Z
  | Float text => text_ok text
  end.

Fixpoint value_ok (levels : nat) (value : Value) : Prop :=
  match levels with
  | O => False
  | S next =>
      match value with
      | VNull | VBool _ => True
      | VNumber number => number_ok number
      | VString text => text_ok text
      | VArray items => Forall (value_ok next) items /\ (N.of_nat (length items) <= U64_MAX)%N
      | VObject members =>
          1 <= next /\
          Forall (fun member => text_ok member.1 /\ value_ok next member.2) members
          /\ NoDup members.*1 /\ (N.of_nat (length members) <= U64_MAX)%N
      end
  end.

Class AuditSerdeLaws `{AuditSerde} : Prop := {
  action_value_ok : forall a v, action_to_value a = Ok v -> exists levels, value_ok levels v;
  authorization_value_ok : forall a v, authorization_to_value a = Ok v -> exists levels, value_ok levels v;
}.

Definition outcome_ok (outcome : AuditOutcome) : Prop :=
  match outcome with Success details => option_text_ok details | Failure error => text_ok error end.

Definition actor_ok (o : option AuditActor) : Prop :=
  match o with Some actor => text_ok (capsule_id actor) | None => True end.

Record entry_ok `{AuditSerde} (entry : AuditEntry) (seal : EntryV2Seal) : Prop := {
  eo_principal : option_text_ok (e_principal entry);
  eo_outcome : outcome_ok (e_outcome entry);
  eo_actor : actor_ok (s_actor seal);
  eo_seq : (1 <= s_seq seal <= U64_MAX)%N;
  eo_epoch : (s_key_epoch seal <= U64_MAX)%N;
}.

Record section_ok (section : EntrySection) : Prop := {
  so_kind : text_ok (sec_kind section);
  so_names : Forall (fun field => text_ok field.1) (sec_fields section);
  so_distinct : NoDup (sec_fields section).*1;
  so_length : (N.of_nat (length (sec_fields section)) <= U64_MAX)%N;
  so_values : Forall (fun field => exists levels, encodable (S levels) field.2) (sec_fields section);
}.

Lemma array_bytes_ok {n} (a : array n) : (N.of_nat n <= U64_MAX)%N -> (N.of_nat (length (arr a)) <= U64_MAX)%N.
Proof. by rewrite arr_length. Qed.

Lemma text_keys_NoDup (names : list string) :
  Forall text_ok names -> NoDup names -> NoDup ((fun name => encode (Text name)) <$> names).
Proof.
  induction 1 as [|s names [Hu Hl] Hall IH]; [constructor|]. rewrite fmap_cons, !NoDup_cons.
  intros [Hs Hnd]. split; [|auto]. intros (s' & Heq & Hin)%list_elem_of_fmap_1. apply Hs.
  destruct (proj1 (Forall_forall _ _) Hall _ Hin) as [Hu' Hl'].
  by rewrite (encode_Text_inj s s').
Qed.

Lemma number_encodable levels number :
  number_ok number -> encodable (S levels) (number_to_cbor number).
Proof.
  destruct number as [v|z|t]; unfold number_to_cbor; cbn [as_u64 as_i64]; intros Hn.
  - done.
  - change (- 2 ^ 63 <= z < 0)%Z in Hn. rewrite (proj2 (Z.leb_le 0 _)) by (unfold Z.lnot; lia).
    unfold encodable, Z.lnot, U64_MAX. lia.
  - cbn -[U64_MAX]. rewrite length_as_bytes. apply Hn.
Qed.

Lemma value_encodable levels value : value_ok levels value -> encodable levels (to_cbor value).
Proof.
  revert value; induction levels as [|next IH]; intros value; [done|].
  destruct value as [|b|number|t|items|members]; cbn -[U64_MAX]; try done.
  - intros Hn. by apply number_encodable.
  - intros [Hall Hlen]. rewrite length_map. split; [|done]. apply List.Forall_map.
    eapply Forall_impl; [exact Hall|]. exact IH.
  - intros (Hnext & Hall & Hnd & Hlen). rewrite length_map. split; [|split; [|done]].
    + apply List.Forall_map. eapply Forall_impl; [exact Hall|]. intros [k v] [Hk Hv].
      destruct next as [|next]; [lia|]. split; [exact Hk|by apply IH].
    + rewrite <- (list_fmap_compose (fun member : string * Value => let (k, v) := member in (Text k, to_cbor v))).
      assert (((fun entry : Cbor * Cbor => encode entry.1) ∘
                 (fun member : string * Value => let (k, v) := member in (Text k, to_cbor v))) <$> members
              = (fun name => encode (Text name)) <$> members.*1) as ->.
      { rewrite <- list_fmap_compose. apply list_fmap_ext. by intros _ [k v] _. }
      apply text_keys_NoDup; [|done]. apply Forall_fmap. eapply Forall_impl; [exact Hall|].
      by intros ? [? _].
Qed.

(** ** Sections of a well-formed entry *)

Lemma members_remove_fields tag members kind rest :
  members_remove tag members = (Some kind, rest) ->
  (exists name, (name, kind) ∈ members) /\ (forall m, m ∈ rest -> m ∈ members) /\
  (NoDup members.*1 -> NoDup rest.*1) /\ length rest <= length members.
Proof.
  unfold members_remove. intros [= Hf <-]. split; [|split; [|split]].
  - destruct (List.find _ members) as [[n v]|] eqn:Hfind; [|done]. injection Hf as <-.
    apply List.find_some in Hfind as [Hin _]. exists n. by apply list_elem_of_In.
  - intros m Hin. apply list_elem_of_In in Hin. apply List.filter_In in Hin as [Hin _].
    by apply list_elem_of_In.
  - clear Hf. induction members as [|m members IH]; [done|]. rewrite fmap_cons, NoDup_cons.
    intros [Hm Hnd]. simpl. destruct (negb _); [|auto]. rewrite fmap_cons, NoDup_cons.
    split; [|auto]. intros (m' & Heq & Hin)%list_elem_of_fmap_1. apply Hm. rewrite Heq.
    apply list_elem_of_fmap_2. apply list_elem_of_In, List.filter_In in Hin as [Hin _].
    by apply list_elem_of_In.
  - clear Hf. induction members as [|m members IH]; [done|]. simpl. destruct (negb _); simpl; lia.
Qed.

Lemma section_of_ok levels value tag what section :
  value_ok levels value -> section_of (Ok value) tag what = Ok section -> section_ok section.
Proof.
  intros Hv Hs. destruct levels as [|next]; [done|].
  destruct value as [|b|number|t|items|members]; try done. cbn [section_of] in Hs.
  destruct Hv as (Hnext & Hall & Hnd & Hlen).
  destruct (members_remove tag members) as [[kind|] rest] eqn:Hrem; [|done].
  destruct (members_remove_fields _ _ _ _ Hrem) as ((name & Hkind) & Hin & Hnd' & Hle).
  destruct kind as [| | |kind| |]; try done. injection Hs as <-.
  assert (((fun '(name, value) => (name, to_cbor value)) <$> rest).*1 = rest.*1) as Hnames.
  { rewrite <- list_fmap_compose. apply list_fmap_ext. by intros _ [n v] _. }
  rewrite Forall_forall in Hall. split; cbn [sec_kind sec_fields].
  - destruct (Hall _ Hkind) as [_ Hk]. by destruct next.
  - apply Forall_forall. intros field (m & -> & Hm)%list_elem_of_fmap_1.
    destruct (Hall _ (Hin _ Hm)) as [Ht _]. by destruct m.
  - rewrite Hnames. auto.
  - rewrite length_fmap. lia.
  - apply Forall_forall. intros field ([n v] & -> & Hm)%list_elem_of_fmap_1.
    destruct (Hall _ (Hin _ Hm)) as [_ Hv]. exists (pred next). cbn [snd] in Hv |- *.
    replace (S (pred next)) with next by lia. by apply value_encodable.
Qed.

Lemma outcome_value_ok outcome : outcome_ok outcome -> value_ok 2 (outcome_to_value outcome).
Proof.
  intros Ho. destruct outcome as [[details|]|error]; cbn -[U64_MAX text_ok];
    (split; [lia|]); (split; [|split; [|done]]);
    repeat first [apply Forall_cons_2; [split; done|] | apply Forall_nil_2];
    apply NoDup_cons; (split; [|apply NoDup_singleton]); by intros ?%list_elem_of_singleton.
Qed.

Section Bodies.
  Context `{Crypto, AuditSerdeLaws}.

Lemma sections_ok entry secs :
  outcome_ok (e_outcome entry) -> sections entry = Ok secs ->
  exists action authorization outcome,
    action_section (e_action entry) = Ok action /\
    authorization_section (e_authorization entry) = Ok authorization /\
    outcome_section (e_outcome entry) = Ok outcome /\
    section_ok action /\ section_ok authorization /\ section_ok outcome /\
    secs = [(SECTION_ACTION, action); (SECTION_AUTHORIZATION, authorization); (SECTION_OUTCOME, outcome)].
Proof.
  unfold sections. intros Ho Hs.
  destruct (action_section (e_action entry)) as [action|] eqn:Ha; [|done].
  destruct (authorization_section (e_authorization entry)) as [authorization|] eqn:Hz; [|done].
  destruct (outcome_section (e_outcome entry)) as [outcome|] eqn:Hu; [|done].
  injection Hs as <-. exists action, authorization, outcome. do 3 (split; [done|]).
  split; [|split; [|split; [|done]]].
  - unfold action_section in Ha. destruct (action_to_value _) as [v|] eqn:Hv; [|done].
    destruct (action_value_ok _ _ Hv) as [levels Hok]. by eapply section_of_ok.
  - unfold authorization_section in Hz. destruct (authorization_to_value _) as [v|] eqn:Hv; [|done].
    destruct (authorization_value_ok _ _ Hv) as [levels Hok]. by eapply section_of_ok.
  - eapply section_of_ok; [by apply outcome_value_ok|done].
Qed.

(** The commitments a section carries, in field order. *)
Definition committed_fields (index : N) (section : EntrySection) (seal : EntryV2Seal)
    : list (string * array 32) :=
  (fun '(name, value) => (name, field_commitment index seal name value)) <$> sec_fields section.

Definition committed_entries (fields : list (string * array 32)) : list (Cbor * Cbor) :=
  (fun '(name, c) => (Text name, CBytes (arr c))) <$> fields.

Lemma section_item_entries index section seal :
  section_item index section seal
  = Array [Text (sec_kind section); CMap (committed_entries (committed_fields index section seal))].
Proof.
  unfold section_item, committed_entries, committed_fields. rewrite <- list_fmap_compose.
  do 4 f_equal. apply list_fmap_ext. by intros _ [n v] _.
Qed.

Lemma committed_fields_names index section seal :
  (committed_fields index section seal).*1 = (sec_fields section).*1.
Proof.
  unfold committed_fields. rewrite <- list_fmap_compose. apply list_fmap_ext. by intros _ [n v] _.
Qed.

Lemma section_item_encodable levels index section seal :
  section_ok section -> encodable (3 + levels) (section_item index section seal).
Proof.
  intros [[Hk Hkl] Hnames Hnd Hlen _]. rewrite section_item_entries.
  assert (Forall (fun f => text_ok f.1) (committed_fields index section seal)) as Hcn.
  { apply (Forall_fmap fst text_ok).
    rewrite committed_fields_names. by apply (Forall_fmap fst text_ok). }
  split; [|simpl; unfold U64_MAX; lia]. apply Forall_cons_2; [done|]. apply Forall_cons_2; [|apply Forall_nil_2].
  split; [|split].
  - apply Forall_fmap. eapply Forall_impl; [exact Hcn|]. intros [n c] Hn. split; [exact Hn|].
    apply (array_bytes_ok c). unfold U64_MAX. lia.
  - unfold committed_entries. rewrite <- list_fmap_compose.
    rewrite (list_fmap_ext _ ((fun name => encode (Text name)) ∘ fst)); [|by intros _ [n c] _].
    rewrite list_fmap_compose. apply text_keys_NoDup; [by apply Forall_fmap|].
    by rewrite committed_fields_names.
  - unfold committed_entries, committed_fields. by rewrite !length_fmap.
Qed.

(** A section read back from the normal form of its item: its kind and its
    commitments, sorted by encoded name. *)
Definition seals_section (index : N) (section : EntrySection) (seal : EntryV2Seal)
    (decoded : DecodedSection) : Prop :=
  ds_kind decoded = sec_kind section /\
  ds_fields decoded ≡ₚ committed_fields index section seal.

Lemma committed_entries_decode fields what :
  try_map (fun '(name, commitment) =>
      let? name := text name what in
      let? commitment := fixed 32 commitment what in
      Ok (name, commitment)) (committed_entries fields) = Ok fields.
Proof.
  unfold committed_entries. induction fields as [|[n c] fields IH]; [done|].
  rewrite fmap_cons. cbn [try_map text fixed rbind]. rewrite array_try_from_arr. cbn [ok_or rbind].
  by rewrite IH.
Qed.

Lemma section_normalize index section_ seal what :
  exists decoded, section (normalize (section_item index section_ seal)) what = Ok decoded /\
    seals_section index section_ seal decoded.
Proof.
  rewrite section_item_entries. cbn [normalize List.map]. rewrite normalize_map_entries.
  set (es := committed_entries _).
  assert ((fun entry => (normalize entry.1, normalize entry.2)) <$> es = es) as ->.
  { unfold es, committed_entries. rewrite <- list_fmap_compose. apply list_fmap_ext. by intros _ [n c] _. }
  pose proof (merge_sort_Permutation (key_le (fun entry : Cbor * Cbor => encode entry.1)) es) as Hp.
  unfold es at 2, committed_entries in Hp. apply Permutation_map_inv in Hp as (fields & Hes & Hperm).
  change (merge_sort (key_le (fun entry : Cbor * Cbor => encode entry.1)) es = committed_entries fields) in Hes.
  rewrite Hes. cbn [section]. rewrite committed_entries_decode. cbn [rbind text].
  eexists. split; [done|]. split; [done|]. simpl. by symmetry.
Qed.

(** What a decoded header says of the entry and seal it came from. *)
Record header_of (entry : AuditEntry) (seal : EntryV2Seal) (h : EntryV2Header) : Prop := {
  ho_chain : h_chain_id h = s_chain_id seal;
  ho_seq : h_seq h = s_seq seal;
  ho_prev : h_prev h = e_previous_hash entry;
  ho_time : h_time_ns h = from_option id 0%N (timestamp_nanos (e_timestamp entry));
  ho_id : h_entry_id h = e_id entry;
  ho_session : h_session h = e_session_id entry;
  ho_uid : h_principal_uid h = s_principal_uid seal;
  ho_alias : h_principal_alias h = e_principal entry;
  ho_actor : h_actor h = (fun a => (capsule_id a, wasm_sha256 a)) <$> s_actor seal;
  ho_epoch : h_key_epoch h = s_key_epoch seal;
  ho_signer : h_signer h = e_runtime_key entry;
  ho_sections : exists action authorization outcome,
    sections entry = Ok [(SECTION_ACTION, action); (SECTION_AUTHORIZATION, authorization);
                         (SECTION_OUTCOME, outcome)] /\
    seals_section SECTION_ACTION action seal (h_action h) /\
    seals_section SECTION_AUTHORIZATION authorization seal (h_authorization h) /\
    seals_section SECTION_OUTCOME outcome seal (h_outcome h);
}.

Lemma timestamp_nanos_bound timestamp : (from_option id 0 (timestamp_nanos timestamp) <= U64_MAX)%N.
Proof.
  unfold timestamp_nanos, U64_MAX. repeat case_bool_decide; simpl; lia.
Qed.

Lemma fixed_arr n (a : array n) what : fixed n (CBytes (arr a)) what = Ok a.
Proof. cbn [fixed]. by rewrite array_try_from_arr. Qed.

Lemma optional_bytes n (o : option (array n)) what :
  optional (null_or (fun a => CBytes (arr a)) o) (fun item => fixed n item what) = Ok o.
Proof. destruct o as [a|]; [|done]. cbn [null_or optional]. by rewrite fixed_arr. Qed.

Lemma optional_text o what : optional (null_or Text o) (fun item => text item what) = Ok o.
Proof. by destruct o. Qed.

Lemma optional_actor o :
  optional (null_or actor_item o) actor = Ok ((fun a => (capsule_id a, wasm_sha256 a)) <$> o).
Proof.
  destruct o as [a|]; [|done]. cbn [null_or optional actor_item actor text rbind].
  by rewrite optional_bytes.
Qed.

Lemma null_or_bytes_ok levels n (o : option (array n)) :
  (N.of_nat n <= U64_MAX)%N -> encodable (S levels) (null_or (fun a => CBytes (arr a)) o).
Proof. intros Hn. destruct o as [a|]; [|done]. by apply (array_bytes_ok a). Qed.

Lemma null_or_text_ok levels o : option_text_ok o -> encodable (S levels) (null_or Text o).
Proof. by destruct o. Qed.

Lemma small_nat_ok n : n <= 64 -> (N.of_nat n <= U64_MAX)%N.
Proof. unfold U64_MAX. lia. Qed.

Lemma array_encodable levels items :
  length items <= 64 -> Forall (encodable levels) items -> encodable (S levels) (Array items).
Proof. intros Hl Hall. split; [done|by apply small_nat_ok]. Qed.

Lemma bytes_encodable levels n (a : array n) : n <= 64 -> encodable (S levels) (CBytes (arr a)).
Proof. intros Hn. apply (array_bytes_ok a). by apply small_nat_ok. Qed.

Lemma principal_encodable levels alias uid :
  option_text_ok alias -> encodable (2 + levels) (principal_item alias uid).
Proof.
  intros Ha. apply array_encodable; [simpl; lia|].
  apply Forall_cons_2; [by apply null_or_bytes_ok|].
  apply Forall_cons_2; [by apply null_or_text_ok|apply Forall_nil_2].
Qed.

Lemma actor_encodable levels o : actor_ok o -> encodable (2 + levels) (null_or actor_item o).
Proof.
  destruct o as [a|]; [|done]. intros Ha. apply array_encodable; [simpl; lia|].
  apply Forall_cons_2; [done|]. apply Forall_cons_2; [by apply null_or_bytes_ok|apply Forall_nil_2].
Qed.

Lemma body_item_encodable entry seal item :
  entry_ok entry seal -> body_item entry seal = Ok item -> encodable 4 item.
Proof.
  intros [Hp Ho Ha [_ Hs] He] Hb. unfold body_item in Hb.
  destruct (sections entry) as [secs|] eqn:Hsec; [|done]. injection Hb as <-.
  destruct (sections_ok _ _ Ho Hsec) as (action & authorization & outcome & _ & _ & _ & H1' & H2' & H3' & ->).
  apply array_encodable; [simpl; lia|]. cbn [app fmap list_fmap].
  pose proof (timestamp_nanos_bound (e_timestamp entry)).
  repeat first
    [ apply Forall_nil_2
    | apply Forall_cons_2;
      [first [ done | apply bytes_encodable; lia | by apply (principal_encodable 1)
             | by apply (actor_encodable 1) | by apply (section_item_encodable 0)
             | apply array_encodable; [simpl; lia|];
               apply Forall_cons_2; [done|]; apply Forall_cons_2; [apply bytes_encodable; lia|apply Forall_nil_2] ]|] ].
Qed.

Lemma header_decode_body entry seal body :
  entry_ok entry seal -> body_bytes entry seal = Ok body ->
  exists h, header_decode body = Ok h /\ h_entry_hash h = sha256 body /\ header_of entry seal h.
Proof.
  intros Hok Hb. unfold body_bytes in Hb. destruct (body_item entry seal) as [item|] eqn:Hi; [|done].
  injection Hb as <-. pose proof (body_item_encodable _ _ _ Hok Hi) as Henc.
  unfold header_decode. rewrite decode_encodable by (eapply encodable_mono; [|exact Henc]; unfold MAX_DEPTH; lia).
  unfold body_item in Hi. destruct (sections entry) as [secs|] eqn:Hsec; [|done]. injection Hi as <-.
  destruct (sections_ok _ _ (eo_outcome _ _ Hok) Hsec)
    as (action & authorization & outcome & _ & _ & _ & _ & _ & _ & ->).
  destruct (section_normalize SECTION_ACTION action seal "action") as (da & Hda & Hsa).
  destruct (section_normalize SECTION_AUTHORIZATION authorization seal "authorization") as (dz & Hdz & Hsz).
  destruct (section_normalize SECTION_OUTCOME outcome seal "outcome") as (du & Hdu & Hsu).
  assert (forall o, normalize (null_or Text o) = null_or Text o) as Hnt by (by intros []).
  assert (forall n (o : option (array n)), normalize (null_or (fun a => CBytes (arr a)) o)
          = null_or (fun a => CBytes (arr a)) o) as Hnb by (by intros ? []).
  assert (normalize (null_or actor_item (s_actor seal)) = null_or actor_item (s_actor seal)) as Hna.
  { destruct (s_actor seal) as [a|]; [|done]. cbn. by rewrite Hnb. }
  cbn [normalize List.map app fmap list_fmap principal_item]. rewrite Hna, Hnt, Hnb.
  cbn [is_entry_tag is_zero_uint]. rewrite String.eqb_refl, (proj2 (N.eqb_neq _ _))
    by (pose proof (eo_seq _ _ Hok); lia). cbn [negb].
  rewrite !fixed_arr, optional_bytes, optional_text, optional_actor, Hda, Hdz, Hdu.
  cbn [uint rbind]. eexists. split; [done|]. split; [done|].
  split; try done. by exists action, authorization, outcome.
Qed.

(** ** Disclosures *)

Lemma elem_of_disclosures entry seal ds d :
  disclosures entry seal = Ok ds ->
  d ∈ ds <-> exists secs index section name value,
    sections entry = Ok secs /\ (index, section) ∈ secs /\ (name, value) ∈ sec_fields section /\
    d = MkFieldDisclosure index name (field_salt (s_salt_key seal) index name) (encode value)
          (field_commitment index seal name value).
Proof.
  unfold disclosures. destruct (sections entry) as [secs|]; [|done]. intros [= <-].
  rewrite merge_sort_Permutation, list_elem_of_In, in_concat. split.
  - intros (l & Hl%list_elem_of_In & Hd%list_elem_of_In).
    apply list_elem_of_fmap_1 in Hl as ([index section] & -> & Hin).
    apply list_elem_of_fmap_1 in Hd as ([name value] & -> & Hf). exists secs, index, section, name, value. done.
  - intros (secs' & index & section & name & value & [= <-] & Hin & Hf & ->).
    exists ((fun '(name, value) =>
              MkFieldDisclosure index name (field_salt (s_salt_key seal) index name) (encode value)
                (field_commitment index seal name value)) <$> sec_fields section).
    rewrite <- !list_elem_of_In. split.
    + by apply (list_elem_of_fmap_2 (fun '(index, section) => (fun '(name, value) =>
              MkFieldDisclosure index name (field_salt (s_salt_key seal) index name) (encode value)
                (field_commitment index seal name value)) <$> sec_fields section) secs (index, section)).
    + by apply (list_elem_of_fmap_2 (fun '(name, value) =>
              MkFieldDisclosure index name (field_salt (s_salt_key seal) index name) (encode value)
                (field_commitment index seal name value)) (sec_fields section) (name, value)).
Qed.

(** The array a commitment hashes. *)
Definition commitment_item (chain_id : array 32) (seq section : N) (name : string) (salt : array 16)
    (value : Cbor) : Cbor :=
  Array [Text FIELD_TAG; CBytes (arr chain_id); Uint seq; Uint section; Text name; CBytes (arr salt); value].

Lemma field_tag_ok : text_ok FIELD_TAG.
Proof. split; [by vm_compute|]. by vm_compute. Qed.

Lemma commitment_item_canonical levels chain_id seq section name salt value :
  text_ok name -> (seq <= U64_MAX)%N -> (section <= U64_MAX)%N -> canonical (S levels) value ->
  canonical (S (S levels)) (commitment_item chain_id seq section name salt value).
Proof.
  intros Hn Hs Hsec Hv. split; [|by apply small_nat_ok; simpl; lia].
  pose proof field_tag_ok. pose proof (small_nat_ok 32 ltac:(lia)). pose proof (small_nat_ok 16 ltac:(lia)).
  repeat first [apply Forall_nil_2 | apply Forall_cons_2; [first [done | by apply array_bytes_ok]|]].
Qed.

Lemma commitment_item_encodable levels chain_id seq section name salt value :
  text_ok name -> (seq <= U64_MAX)%N -> (section <= U64_MAX)%N -> encodable (S levels) value ->
  encodable (S (S levels)) (commitment_item chain_id seq section name salt value).
Proof.
  intros Hn Hs Hsec Hv. split; [|by apply small_nat_ok; simpl; lia].
  pose proof field_tag_ok. pose proof (small_nat_ok 32 ltac:(lia)). pose proof (small_nat_ok 16 ltac:(lia)).
  repeat first [apply Forall_nil_2 | apply Forall_cons_2; [first [done | by apply array_bytes_ok]|]].
Qed.

(** A commitment does not distinguish a value from its normal form. *)
Lemma commitment_normalize levels chain_id seq section name salt value :
  encodable (S levels) value ->
  commitment chain_id seq section name salt (normalize value) = commitment chain_id seq section name salt value.
Proof.
  intros Hv. unfold commitment. cbn [encode List.map List.concat]. by rewrite (encode_normalize (S levels)).
Qed.

Lemma honest_disclosure_verifies chain_id seq section name salt value levels :
  levels <= MAX_DEPTH -> encodable (S levels) value ->
  verify_field_disclosure chain_id seq
    (MkFieldDisclosure section name salt (encode value) (commitment chain_id seq section name salt value)) = true.
Proof.
  intros Hle Hv. unfold verify_field_disclosure. cbn [d_value d_section d_name d_salt d_commitment].
  rewrite decode_encodable by (eapply encodable_mono; [|exact Hv]; lia).
  apply bool_decide_eq_true. by eapply commitment_normalize.
Qed.

(** ** Claims *)

(** The inputs an entry hands to SHA-256: its body and its commitments'. *)
Definition commitment_inputs (seal : EntryV2Seal) (secs : list (N * EntrySection)) : list (list byte) :=
  List.concat ((fun '(index, section) =>
    (fun '(name, value) =>
       encode (commitment_item (s_chain_id seal) (s_seq seal) index name
                 (field_salt (s_salt_key seal) index name) value)) <$> sec_fields section) <$> secs).

Definition hashed_inputs (entry : AuditEntry) (seal : EntryV2Seal) : list (list byte) :=
  match body_bytes entry seal, sections entry with
  | Ok body, Ok secs => body :: commitment_inputs seal secs
  | _, _ => []
  end.

Definition no_collision (hash : list byte -> array 32) (inputs : list (list byte)) : Prop :=
  forall x y, x ∈ inputs -> y ∈ inputs -> hash x = hash y -> x = y.

Lemma no_collision_bodies hash b1 l1 b2 l2 :
  no_collision hash ((b1 :: l1) ++ b2 :: l2) -> no_collision hash (l1 ++ l2).
Proof.
  intros Hnc x y Hx Hy. apply Hnc.
  - rewrite elem_of_app, !elem_of_cons. rewrite elem_of_app in Hx. tauto.
  - rewrite elem_of_app, !elem_of_cons. rewrite elem_of_app in Hy. tauto.
Qed.

(** Two sections commit to the same kind and, name by name, the same values. *)
Definition same_section (a b : EntrySection) : Prop :=
  sec_kind a = sec_kind b /\
  forall name value, (name, value) ∈ sec_fields a ->
    exists value', (name, value') ∈ sec_fields b /\ normalize value' = normalize value.

Lemma elem_of_commitment_inputs seal secs index section name value :
  (index, section) ∈ secs -> (name, value) ∈ sec_fields section ->
  encode (commitment_item (s_chain_id seal) (s_seq seal) index name
            (field_salt (s_salt_key seal) index name) value) ∈ commitment_inputs seal secs.
Proof.
  intros Hs Hf. unfold commitment_inputs. rewrite list_elem_of_In. apply in_concat. eexists.
  rewrite <- !list_elem_of_In. split.
  - by apply (list_elem_of_fmap_2 (fun '(index, section) => (fun '(name, value) =>
       encode (commitment_item (s_chain_id seal) (s_seq seal) index name
                 (field_salt (s_salt_key seal) index name) value)) <$> sec_fields section) secs (index, section)).
  - by apply (list_elem_of_fmap_2 (fun '(name, value) =>
       encode (commitment_item (s_chain_id seal) (s_seq seal) index name
                 (field_salt (s_salt_key seal) index name) value)) (sec_fields section) (name, value)).
Qed.

Lemma seals_same_section index s1 s2 seal1 seal2 secs1 secs2 decoded :
  section_ok s1 -> section_ok s2 -> (index <= U64_MAX)%N ->
  (s_seq seal1 <= U64_MAX)%N -> (s_seq seal2 <= U64_MAX)%N ->
  (index, s1) ∈ secs1 -> (index, s2) ∈ secs2 ->
  no_collision sha256 (commitment_inputs seal1 secs1 ++ commitment_inputs seal2 secs2) ->
  seals_section index s1 seal1 decoded -> seals_section index s2 seal2 decoded -> same_section s1 s2.
Proof.
  intros Hok1 Hok2 Hi Hq1 Hq2 Hin1 Hin2 Hnc [Hk1 Hp1] [Hk2 Hp2]. split; [congruence|].
  intros name value Hf.
  assert ((name, field_commitment index seal1 name value) ∈ committed_fields index s2 seal2) as Hc.
  { rewrite <- Hp2, Hp1.
    exact (list_elem_of_fmap_2 (fun '(n, v) => (n, field_commitment index seal1 n v)) _ (name, value) Hf). }
  apply list_elem_of_fmap_1 in Hc as ([name' value'] & [= <- Heq] & Hf'). exists value'. split; [done|].
  apply Hnc in Heq;
    [|apply elem_of_app; left; by eapply elem_of_commitment_inputs
     |apply elem_of_app; right; by eapply elem_of_commitment_inputs].
  destruct (proj1 (Forall_forall _ _) (so_values _ Hok1) _ Hf) as [l1 Hv1].
  destruct (proj1 (Forall_forall _ _) (so_values _ Hok2) _ Hf') as [l2 Hv2].
  pose proof (proj1 (Forall_forall _ _) (so_names _ Hok1) _ Hf) as Hn.
  apply (encode_normal_inj (S (S l1)) (S (S l2))) in Heq; [|by apply commitment_item_encodable..].
  cbn [normalize commitment_item List.map] in Heq. congruence.
Qed.

(** Every entry [assemble_v2] returns opens: with a chain id derived from
    the registry and a signer active in the entry's key epoch, its body is
    accepted by the body-only verifier with the entry's signature, and the
    decoded header gives back every field of the entry and the commitments of
    its three sections. *)
Theorem assembled_entry_verifies (laws : CryptoLaws) registry draft signer id timestamp salt_key entry :
  assemble_v2 draft signer id timestamp salt_key = Ok entry ->
  option_text_ok (dr_principal draft) -> outcome_ok (dr_outcome draft) -> actor_ok (dr_actor draft) ->
  (dr_seq draft <= U64_MAX)%N -> (dr_key_epoch draft <= U64_MAX)%N ->
  dr_chain_id draft = derive_chain_id (registry_id registry) (dr_session_id draft) (dr_principal draft)
                        (dr_principal_uid draft) ->
  is_active registry Audit (export_public_key signer) (dr_key_epoch draft) = true ->
  exists seal body h, e_v2 entry = Some seal /\ v2_body entry = Ok (Some body) /\
    verify_entry_v2_body body (e_signature entry) registry = Ok h /\
    h_entry_hash h = content_hash entry /\ header_of entry seal h.
Proof.
  intros Has Hp Ho Ha Hs He Hchain Hactive. unfold assemble_v2 in Has.
  case_bool_decide; [done|]. destruct (N.eqb_spec (dr_seq draft) 0) as [|Hne]; [done|].
  set (seal := MkEntryV2Seal _ _ _ _ _ _) in Has. set (entry0 := MkAuditEntry _ _ _ _ _ _ _ _ _ _ _ _) in Has.
  unfold v2_entry_hash in Has. destruct (body_bytes entry0 seal) as [body|] eqn:Hb; [|done].
  injection Has as <-. set (entry := with_signature _ _).
  assert (entry_ok entry seal) as Hok by (split; simpl; try done; lia).
  assert (body_bytes entry seal = Ok body) as Hb' by exact Hb.
  destruct (header_decode_body entry seal body Hok Hb') as (h & Hh & Hhash & Hof).
  exists seal, body, h. split; [done|]. split.
  { unfold v2_body. change (e_v2 entry) with (Some seal). cbv iota. by rewrite Hb'. }
  split; [|split; [|done]].
  - unfold verify_entry_v2_body. rewrite Hh. cbn [rbind].
    rewrite (ho_session _ _ _ Hof), (ho_uid _ _ _ Hof), (ho_alias _ _ _ Hof), (ho_chain _ _ _ Hof).
    cbn [e_session_id e_principal entry with_signature entry0 s_principal_uid s_chain_id seal].
    rewrite bool_decide_true by (symmetry; exact Hchain). cbn [negb].
    rewrite (ho_signer _ _ _ Hof), (ho_epoch _ _ _ Hof).
    cbn [e_runtime_key s_key_epoch seal entry with_signature entry0]. rewrite Hactive, Hhash. cbn [negb].
    change (e_signature _) with (sign signer (signing_input (sha256 body))).
    by rewrite sign_verify_strict.
  - rewrite Hhash. unfold content_hash, v2_hash_or_unencodable, v2_entry_hash.
    change (e_v2 entry) with (Some seal). cbv iota. by rewrite Hb'.
Qed.

(** C28: The content hash of a format-v2 entry binds all of it: two well-formed
    entries with one content hash, and no SHA-256 collision among the inputs
    the two entries hash, agree on the chain, position, previous hash, time,
    identifiers, principal, actor and signer, and on the kind and every field
    value of the action, the authorization and the outcome. *)
Theorem content_hash_binds e1 e2 seal1 seal2 body1 body2 :
  e_v2 e1 = Some seal1 -> e_v2 e2 = Some seal2 -> entry_ok e1 seal1 -> entry_ok e2 seal2 ->
  body_bytes e1 seal1 = Ok body1 -> body_bytes e2 seal2 = Ok body2 ->
  no_collision sha256 (hashed_inputs e1 seal1 ++ hashed_inputs e2 seal2) ->
  content_hash e1 = content_hash e2 ->
  s_chain_id seal1 = s_chain_id seal2 /\ s_seq seal1 = s_seq seal2 /\
  s_key_epoch seal1 = s_key_epoch seal2 /\ e_runtime_key e1 = e_runtime_key e2 /\
  e_previous_hash e1 = e_previous_hash e2 /\
  from_option id 0%N (timestamp_nanos (e_timestamp e1)) = from_option id 0%N (timestamp_nanos (e_timestamp e2)) /\
  e_id e1 = e_id e2 /\ e_session_id e1 = e_session_id e2 /\ e_principal e1 = e_principal e2 /\
  s_principal_uid seal1 = s_principal_uid seal2 /\ s_actor seal1 = s_actor seal2 /\
  exists secs1 secs2, sections e1 = Ok secs1 /\ sections e2 = Ok secs2 /\
    Forall2 (fun a b => a.1 = b.1 /\ same_section a.2 b.2) secs1 secs2.
Proof.
  intros Hv1 Hv2 Hok1 Hok2 Hb1 Hb2 Hnc Hhash.
  unfold content_hash, v2_hash_or_unencodable, v2_entry_hash in Hhash.
  rewrite Hv1, Hv2, Hb1, Hb2 in Hhash. cbn [rbind] in Hhash.
  destruct (header_decode_body _ _ _ Hok1 Hb1) as (h1 & Hh1 & _ & Ho1).
  destruct (header_decode_body _ _ _ Hok2 Hb2) as (h2 & Hh2 & _ & Ho2).
  destruct Ho1 as [? ? ? ? ? ? ? ? Hact1 ? ? (a1 & z1 & o1 & Hs1 & Ha1 & Hz1 & Hu1)].
  destruct Ho2 as [? ? ? ? ? ? ? ? Hact2 ? ? (a2 & z2 & o2 & Hs2 & Ha2 & Hz2 & Hu2)].
  unfold hashed_inputs in Hnc. rewrite Hb1, Hb2, Hs1, Hs2 in Hnc.
  assert (body1 = body2) as <-.
  { apply Hnc; [left|apply elem_of_app; right; left|done]. }
  rewrite Hh1 in Hh2. injection Hh2 as <-. do 10 (split; [congruence|]). split.
  { rewrite Hact1 in Hact2. destruct (s_actor seal1) as [[]|], (s_actor seal2) as [[]|]; simpl in *; congruence. }
  do 2 eexists. split; [done|]. split; [done|].
  destruct (sections_ok _ _ (eo_outcome _ _ Hok1) Hs1) as (? & ? & ? & _ & _ & _ & Hc1 & Hc2 & Hc3 & [= <- <- <-]).
  destruct (sections_ok _ _ (eo_outcome _ _ Hok2) Hs2) as (? & ? & ? & _ & _ & _ & Hd1 & Hd2 & Hd3 & [= <- <- <-]).
  pose proof (eo_seq _ _ Hok1). pose proof (eo_seq _ _ Hok2).
  apply no_collision_bodies in Hnc.
  apply Forall2_cons_2; [split; [done|]|apply Forall2_cons_2; [split; [done|]|
    apply Forall2_cons_2; [split; [done|]|apply Forall2_nil_2]]].
  - eapply (seals_same_section SECTION_ACTION); try done; [lia|lia|left|left].
  - eapply (seals_same_section SECTION_AUTHORIZATION); try done; [lia|lia|right; left|right; left].
  - eapply (seals_same_section SECTION_OUTCOME); try done; [lia|lia|do 2 right; left|do 2 right; left].
Qed.

Definition header_section (h : EntryV2Header) (index : N) : list (string * array 32) :=
  if (index =? SECTION_ACTION)%N then ds_fields (h_action h)
  else if (index =? SECTION_AUTHORIZATION)%N then ds_fields (h_authorization h)
  else if (index =? SECTION_OUTCOME)%N then ds_fields (h_outcome h)
  else [].

Lemma header_section_carries entry seal h secs index section name value :
  header_of entry seal h -> sections entry = Ok secs -> (index, section) ∈ secs ->
  (name, value) ∈ sec_fields section ->
  (name, field_commitment index seal name value) ∈ header_section h index.
Proof.
  intros Hof Hsecs Hin Hf. destruct (ho_sections _ _ _ Hof) as (a & z & o & Hs & [_ Ha] & [_ Hz] & [_ Ho]).
  rewrite Hs in Hsecs. injection Hsecs as <-.
  assert ((name, field_commitment index seal name value) ∈ committed_fields index section seal) as Hc
    by exact (list_elem_of_fmap_2 (fun '(n, v) => (n, field_commitment index seal n v)) _ (name, value) Hf).
  rewrite !elem_of_cons in Hin. destruct Hin as [[= -> ->]|[[= -> ->]|[[= -> ->]|[]%not_elem_of_nil]]].
  - cbn. by rewrite Ha.
  - cbn. by rewrite Hz.
  - cbn. by rewrite Ho.
Qed.

Lemma verify_own_disclosure chain_id seq index name salt value :
  verify_field_disclosure chain_id seq
    (MkFieldDisclosure index name salt (encode value) (commitment chain_id seq index name salt value))
  = is_ok (decode (encode value)).
Proof.
  unfold verify_field_disclosure. cbn [d_value d_section d_name d_salt d_commitment].
  destruct (decode (encode value)) as [item|] eqn:Hd; [|done].
  apply decode_iff in Hd as [_ Hd]. apply bool_decide_eq_true.
  unfold commitment. cbn [encode List.map List.concat]. by rewrite Hd.
Qed.

(** The disclosures of a well-formed entry open its body: each one's
    commitment stands in the decoded header under its section and name, and
    it verifies exactly when its value decodes, in particular whenever the
    committed JSON value nests at most [MAX_DEPTH] levels below the top. *)
Theorem disclosures_open entry seal body h ds d :
  e_v2 entry = Some seal -> entry_ok entry seal -> v2_body entry = Ok (Some body) ->
  header_decode body = Ok h -> v2_field_disclosures entry = Ok ds -> d ∈ ds ->
  (d_name d, d_commitment d) ∈ header_section h (d_section d) /\
  verify_field_disclosure (h_chain_id h) (h_seq h) d = is_ok (decode (d_value d)) /\
  (forall value, value_ok (S MAX_DEPTH) value -> d_value d = encode (to_cbor value) ->
     verify_field_disclosure (h_chain_id h) (h_seq h) d = true).
Proof.
  intros Hv2 Hok Hbody Hh Hds Hd. unfold v2_field_disclosures in Hds. unfold v2_body in Hbody.
  rewrite Hv2 in Hds, Hbody. destruct (body_bytes entry seal) as [b|] eqn:Hb; [|done]. injection Hbody as ->.
  destruct (header_decode_body _ _ _ Hok Hb) as (h' & Hh' & _ & Hof).
  rewrite Hh in Hh'. injection Hh' as <-.
  apply (elem_of_disclosures _ _ _ _ Hds) in Hd as (secs & index & section & name & value & Hs & Hin & Hf & ->).
  assert (verify_field_disclosure (h_chain_id h) (h_seq h)
            (MkFieldDisclosure index name (field_salt (s_salt_key seal) index name) (encode value)
               (field_commitment index seal name value)) = is_ok (decode (encode value))) as Hver.
  { rewrite (ho_chain _ _ _ Hof), (ho_seq _ _ _ Hof). apply verify_own_disclosure. }
  split; [by eapply header_section_carries|]. split; [exact Hver|].
  intros v Hv Heq. rewrite Hver. cbn [d_value] in Heq. rewrite Heq.
  by rewrite decode_encodable by (by apply value_encodable).
Qed.

Lemma verified_disclosure chain_id seq d :
  verify_field_disclosure chain_id seq d = true ->
  exists value, canonical (S MAX_DEPTH) value /\ d_value d = encode value /\
    d_commitment d = sha256 (encode (commitment_item chain_id seq (d_section d) (d_name d) (d_salt d) value)).
Proof.
  unfold verify_field_disclosure. destruct (decode (d_value d)) as [value|] eqn:Hd; [|done].
  intros Hc. apply bool_decide_eq_true in Hc. apply decode_iff in Hd as [Hcan Henc]. exists value.
  split; [done|]. split; [done|]. by rewrite <- Hc.
Qed.

(** The input a disclosure hashes to open its commitment. *)
Definition disclosure_input (chain_id : array 32) (seq : N) (d : FieldDisclosure) : list byte :=
  match decode (d_value d) with
  | Ok value => encode (commitment_item chain_id seq (d_section d) (d_name d) (d_salt d) value)
  | Err _ => []
  end.

(** A commitment opens one way: two disclosures that verify against one
    commitment, with no SHA-256 collision between the two inputs they hash,
    are for the same chain, sequence number, section and field name and
    disclose the same salt and the same value bytes. *)
Theorem disclosure_binding chain1 seq1 d1 chain2 seq2 d2 :
  text_ok (d_name d1) -> text_ok (d_name d2) -> (d_section d1 <= U64_MAX)%N -> (d_section d2 <= U64_MAX)%N ->
  (seq1 <= U64_MAX)%N -> (seq2 <= U64_MAX)%N ->
  verify_field_disclosure chain1 seq1 d1 = true -> verify_field_disclosure chain2 seq2 d2 = true ->
  no_collision sha256 [disclosure_input chain1 seq1 d1; disclosure_input chain2 seq2 d2] ->
  d_commitment d1 = d_commitment d2 -> chain1 = chain2 /\ seq1 = seq2 /\ d1 = d2.
Proof.
  intros Hn1 Hn2 Hs1 Hs2 Hq1 Hq2 Hv1 Hv2 Hnc Heq.
  destruct (verified_disclosure _ _ _ Hv1) as (v1 & Hc1 & He1 & Hk1).
  destruct (verified_disclosure _ _ _ Hv2) as (v2 & Hc2 & He2 & Hk2).
  unfold disclosure_input in Hnc. rewrite He1, He2 in Hnc.
  rewrite (proj2 (decode_iff (encode v1) v1) (conj Hc1 eq_refl)),
    (proj2 (decode_iff (encode v2) v2) (conj Hc2 eq_refl)) in Hnc.
  assert (commitment_item chain1 seq1 (d_section d1) (d_name d1) (d_salt d1) v1
          = commitment_item chain2 seq2 (d_section d2) (d_name d2) (d_salt d2) v2) as Hitem.
  { apply (encode_inj (S (S MAX_DEPTH))); [by apply commitment_item_canonical..|].
    apply Hnc; [left|right; left|]. congruence. }
  unfold commitment_item in Hitem. injection Hitem as Hch Hsq Hsec Hnm Hsalt Hval.
  apply arr_inj in Hch, Hsalt. rewrite Hval in He1. clear - Hch Hsq Hsec Hnm Hsalt He1 He2 Heq.
  destruct d1, d2. cbn in *. by subst.
Qed.
End Bodies.

(** ** Examples

    An action type whose serde form carries free-form parameters nested [n]
    levels deep. *)
Module EntryExamples.
  Import RegistryExamples.
  #[local] Existing Instance toy_crypto.

Fixpoint nested (n : nat) : Value := match n with O => VNull | S n => VArray [nested n] end.

Definition params_value (n : nat) : Value :=
  VObject [("type", VString "admin_request"); ("params", nested n)].
Definition system_value : Value := VObject [("type", VString "system"); ("reason", VString "boot")].

Definition toy_serde : AuditSerde := {|
  AuditAction := nat;
  AuthorizationProof := unit;
  action_to_value := fun n => Ok (params_value n);
  action_to_vec := fun n => Some (repeat "["%char n ++ repeat "]"%char n);
  authorization_to_value := fun _ => Ok system_value;
  authorization_to_vec := fun _ => Some (as_bytes "system");
|}.
  #[local] Existing Instance toy_serde.

Lemma nested_ok n : value_ok (S n) (nested n).
Proof.
  induction n as [|n IH]; [done|]. change (Forall (value_ok (S n)) [nested n] /\ (1 <= U64_MAX)%N).
  split; [|done]. by apply Forall_singleton.
Qed.

Lemma toy_serde_laws : @AuditSerdeLaws toy_serde.
Proof.
  split.
  - intros n v [= <-]. exists (S (S n)). split; [lia|]. split; [|split; [|done]].
    + apply Forall_cons_2; [done|]. apply Forall_singleton. split; [done|apply nested_ok].
    + apply NoDup_cons. split; [|apply NoDup_singleton]. by intros ?%list_elem_of_singleton.
  - intros [] v [= <-]. exists 2. split; [lia|]. split; [|split; [|done]].
    + apply Forall_cons_2; [done|]. by apply Forall_singleton.
    + apply NoDup_cons. split; [|apply NoDup_singleton]. by intros ?%list_elem_of_singleton.
Qed.

Definition uuid (n : N) : Uuid := int_array 16 n.

Definition example_draft (n : nat) (seq : N) (previous : ContentHash) : EntryV2Draft :=
  MkEntryV2Draft (uuid 5) (Some "alice") None (Some (MkAuditActor "git" None)) n tt (Success None) previous
    (derive_chain_id (registry_id example_registry) (uuid 5) (Some "alice") None) seq 0.

Definition example_assembled (n : nat) (seq : N) (previous : ContentHash) : AuditResult AuditEntry :=
  assemble_v2 (example_draft n seq previous) (key 1) (uuid (100 + seq)) example_time (key 42).

Definition unwrap_entry (c : AuditResult AuditEntry) : AuditEntry :=
  match c with
  | Ok entry => entry
  | Err _ => create (uuid 0) 0%Z (uuid 0) 0 tt (Success None) ContentHash_zero (key 1)
  end.

Definition example_entry (n : nat) (seq : N) (previous : ContentHash) : AuditEntry :=
  unwrap_entry (example_assembled n seq previous).

Definition example_seal (seq : N) : EntryV2Seal :=
  MkEntryV2Seal (derive_chain_id (registry_id example_registry) (uuid 5) (Some "alice") None) seq 0 None
    (Some (MkAuditActor "git" None)) (key 42).

Lemma assembled_entry_verifies_witness :
  exists seal body h, e_v2 (example_entry 2 1 ContentHash_zero) = Some seal /\
    v2_body (example_entry 2 1 ContentHash_zero) = Ok (Some body) /\
    verify_entry_v2_body body (e_signature (example_entry 2 1 ContentHash_zero)) example_registry = Ok h /\
    h_entry_hash h = content_hash (example_entry 2 1 ContentHash_zero) /\
    header_of (example_entry 2 1 ContentHash_zero) seal h.
Proof.
  pose proof toy_serde_laws.
  apply (assembled_entry_verifies toy_crypto_laws example_registry (example_draft 2 1 ContentHash_zero) (key 1)
           (uuid 101) example_time (key 42)).
  - vm_compute. reflexivity.
  - vm_compute. split; [reflexivity|discriminate].
  - exact I.
  - vm_compute. split; [reflexivity|discriminate].
  - vm_compute. discriminate.
  - vm_compute. discriminate.
  - reflexivity.
  - vm_compute. reflexivity.
Defined.

Lemma example_entry_ok n : entry_ok (example_entry n 1 ContentHash_zero) (example_seal 1).
Proof.
  assert (e_principal (example_entry n 1 ContentHash_zero) = Some "alice") as Hp by reflexivity.
  assert (e_outcome (example_entry n 1 ContentHash_zero) = Success None) as Ho by reflexivity.
  split; rewrite ?Hp, ?Ho; try done; vm_compute; split; congruence.
Qed.

Definition unwrap_or {A} (default : A) (c : AuditResult A) : A :=
  match c with Ok a => a | Err _ => default end.

Definition example_body (n : nat) : list byte :=
  unwrap_or [] (body_bytes (example_entry n 1 ContentHash_zero) (example_seal 1)).
Definition example_disclosures (n : nat) : list FieldDisclosure :=
  unwrap_or [] (v2_field_disclosures (example_entry n 1 ContentHash_zero)).
Definition empty_header : EntryV2Header :=
  MkEntryV2Header (key 0) (key 0) 0 (key 0) 0 (uuid 0) (uuid 0) None None None (MkDecodedSection "" [])
    (MkDecodedSection "" []) (MkDecodedSection "" []) 0 (key 0).
Definition example_header (n : nat) : EntryV2Header := unwrap_or empty_header (header_decode (example_body n)).
Definition empty_disclosure : FieldDisclosure := MkFieldDisclosure 0 "" (uuid 0) [] (key 0).
Definition params_disclosure (n : nat) : FieldDisclosure := List.hd empty_disclosure (example_disclosures n).

(** A decision procedure for [no_collision]. *)
Definition no_collision_b (hash : list byte -> array 32) (inputs : list (list byte)) : bool :=
  forallb (fun x => forallb (fun y =>
    negb (bool_decide (hash x = hash y)) || bool_decide (x = y)) inputs) inputs.

Lemma no_collision_b_true hash inputs : no_collision_b hash inputs = true -> no_collision hash inputs.
Proof.
  unfold no_collision_b. rewrite forallb_forall. intros Hall x y Hx%list_elem_of_In Hy%list_elem_of_In Heq.
  specialize (Hall _ Hx). rewrite forallb_forall in Hall. specialize (Hall _ Hy).
  rewrite bool_decide_true in Hall by done. simpl in Hall. by apply bool_decide_eq_true in Hall.
Qed.

Lemma content_hash_binds_witness :
  e_id (example_entry 2 1 ContentHash_zero)
  = e_id (with_signature (example_entry 2 1 ContentHash_zero) (zero_array 64)).
Proof.
  pose proof toy_serde_laws.
  apply (content_hash_binds (example_entry 2 1 ContentHash_zero)
           (with_signature (example_entry 2 1 ContentHash_zero) (zero_array 64))
           (example_seal 1) (example_seal 1) (example_body 2) (example_body 2)).
  - reflexivity.
  - reflexivity.
  - apply example_entry_ok.
  - destruct (example_entry_ok 2) as [Hp Ho Ha Hs He]. split; [exact Hp|exact Ho|exact Ha|exact Hs|exact He].
  - vm_compute. reflexivity.
  - vm_compute. reflexivity.
  - apply no_collision_b_true. vm_compute. reflexivity.
  - reflexivity.
Defined.

Lemma disclosures_open_witness :
  (d_name (params_disclosure 2), d_commitment (params_disclosure 2))
    ∈ header_section (example_header 2) (d_section (params_disclosure 2)).
Proof.
  pose proof toy_serde_laws.
  apply (disclosures_open (example_entry 2 1 ContentHash_zero) (example_seal 1) (example_body 2)
           (example_header 2) (example_disclosures 2)).
  - reflexivity.
  - apply example_entry_ok.
  - vm_compute. reflexivity.
  - vm_compute. reflexivity.
  - vm_compute. reflexivity.
  - apply list_elem_of_In. left. reflexivity.
Defined.

Lemma disclosure_binding_witness :
  s_chain_id (example_seal 1) = s_chain_id (example_seal 1) /\ 1%N = 1%N /\
  params_disclosure 2 = params_disclosure 2.
Proof.
  apply (disclosure_binding (s_chain_id (example_seal 1)) 1 (params_disclosure 2)
           (s_chain_id (example_seal 1)) 1 (params_disclosure 2)).
  - vm_compute. split; [reflexivity|discriminate].
  - vm_compute. split; [reflexivity|discriminate].
  - vm_compute. discriminate.
  - vm_compute. discriminate.
  - vm_compute. discriminate.
  - vm_compute. discriminate.
  - vm_compute. reflexivity.
  - vm_compute. reflexivity.
  - apply no_collision_b_true. vm_compute. reflexivity.
  - reflexivity.
Defined.

(** The decoder's nesting limit applies to a disclosed value but not to what
    an entry commits to: parameters nested 65 levels deep are committed and
    signed, and their own disclosure is refused. *)
Lemma deep_params_not_disclosable :
  verify_field_disclosure (h_chain_id (example_header 64)) 1 (params_disclosure 64) = true /\
  is_ok (example_assembled 65 1 ContentHash_zero) = true /\
  verify_field_disclosure (h_chain_id (example_header 65)) 1 (params_disclosure 65) = false.
Proof. vm_compute. done. Qed.

(** A success without details carries a commitment to a null [details]. *)
Lemma success_without_details : outcome_section (Success None) = Ok (MkSection "success" [("details", Null)]).
Proof. reflexivity. Qed.
End EntryExamples.
