(* ===== verification/AuditChain.v ===== *)
(** * Chain verification

    [crates/astrid-audit/src/entry_v2/verify.rs] with the issues of
    [log_types.rs]: the verifier of a run of consecutive entries of one
    storage chain against the key registry.

    Issues a source function pushes onto a vector are the list it returns
    here, in the same order.  The theorems say what a run without issues
    looks like as a whole, and that a verified run is determined by the
    content hash of its last entry. *)

From S2P Require Import Prelude Bytes Cbor Crypto KeyRegistry AuditEntry.
Local Open Scope string_scope.
Local Open Scope list_scope.

Inductive ChainIssue : Type :=
| InvalidGenesis (entry_id : Uuid)
| IssueInvalidSignature (entry_id : Uuid)
| BrokenLink (entry_id : Uuid) (expected_previous actual_previous : ContentHash)
| SequenceGap (entry_id : Uuid) (expected actual : N)
| UnregisteredKey (entry_id : Uuid)
| ChainIdMismatch (entry_id : Uuid)
| FormatDowngrade (entry_id : Uuid)
| KeyEpochRegression (entry_id : Uuid)
| MalformedEntry (entry_id : Uuid) (reason : string).

Record ChainVerificationResult : Type := MkChainVerificationResult {
  valid : bool;
  entries_verified : nat;
  issues : list ChainIssue;
}.

Record ChainVerifier : Type := MkChainVerifier {
  cv_registry : option KeyRegistry;
  cv_registered_v1_keys : bool;
}.

(** [ChainVerifier::new]. *)
Definition new_verifier (registry : option KeyRegistry) : ChainVerifier :=
  MkChainVerifier registry (bool_decide (is_Some registry)).

Definition require_registered_v1_keys (v : ChainVerifier) (required : bool) : ChainVerifier :=
  MkChainVerifier (cv_registry v) required.

(** [issues.push(..)] under a condition. *)
Definition report (cond : bool) (issue : ChainIssue) : list ChainIssue := if cond then [issue] else [].

Section Verifier.
  Context `{Crypto, AuditSerde}.

Inductive ChainStart : Type :=
| StartGenesis
| StartAfter (entry : AuditEntry)
| StartDetached.

Definition check_link (entry : AuditEntry) (previous : option AuditEntry) : list ChainIssue :=
  match previous with
  | Some previous =>
      report (negb (follows entry previous))
        (BrokenLink (e_id entry) (content_hash previous) (e_previous_hash entry))
  | None => []
  end.

(** The seal of the entry before, when it is a format-v2 entry. *)
Definition previous_seal (previous : option AuditEntry) : option EntryV2Seal :=
  match previous with Some previous => e_v2 previous | None => None end.

Definition check_epoch (entry : AuditEntry) (seal : EntryV2Seal) (previous : option AuditEntry)
    : list ChainIssue :=
  match previous_seal previous with
  | Some previous_seal =>
      report (s_key_epoch seal <? s_key_epoch previous_seal)%N (KeyEpochRegression (e_id entry))
  | None => []
  end.

(** [check_sequence]; an overflowing predecessor reports and returns. *)
Definition check_sequence (entry : AuditEntry) (seal : EntryV2Seal) (previous : option AuditEntry)
    : list ChainIssue :=
  let gap expected :=
    report (negb (s_seq seal =? expected)%N) (SequenceGap (e_id entry) expected (s_seq seal)) in
  check_epoch entry seal previous ++
  match previous with
  | None => if is_zero (e_previous_hash entry) then gap 1%N else []
  | Some previous =>
      match e_v2 previous with
      | Some previous_seal =>
          if bool_decide (s_chain_id previous_seal = s_chain_id seal)
          then match checked_add U64_MAX (s_seq previous_seal) 1 with
               | None => [MalformedEntry (e_id entry) "sequence number overflows after its predecessor"]
               | Some next => gap next
               end
          else gap 1%N
      | None => gap 1%N
      end
  end.

Definition check_v1 (v : ChainVerifier) (entry : AuditEntry) (previous : option AuditEntry)
    : list ChainIssue :=
  report (negb (is_ok (verify_signature entry))) (IssueInvalidSignature (e_id entry))
    ++ report (cv_registered_v1_keys v
               && negb match cv_registry v with
                       | Some registry => was_registered registry AuditV1 (e_runtime_key entry)
                       | None => false
                       end) (UnregisteredKey (e_id entry))
    ++ report (bool_decide (is_Some (previous_seal previous))) (FormatDowngrade (e_id entry))
    ++ check_link entry previous.

(** The text of the error [v2_entry_hash] reports, which is a serialization
    error ([v2_entry_hash_error]). *)
Definition error_text (error : AuditError) : string :=
  match error with SerializationError reason => "serialization error: " +:+ reason | _ => "" end.

Definition check_registry (registry : option KeyRegistry) (entry : AuditEntry) (seal : EntryV2Seal)
    : list ChainIssue :=
  match registry with
  | None => [UnregisteredKey (e_id entry)]
  | Some registry =>
      report (negb (bool_decide (derive_chain_id (registry_id registry) (e_session_id entry)
                                   (e_principal entry) (s_principal_uid seal) = s_chain_id seal)))
        (ChainIdMismatch (e_id entry))
        ++ report (negb (is_active registry Audit (e_runtime_key entry) (s_key_epoch seal)))
             (UnregisteredKey (e_id entry))
  end.

Definition check_v2 (v : ChainVerifier) (entry : AuditEntry) (seal : EntryV2Seal)
    (previous : option AuditEntry) : list ChainIssue :=
  report (bool_decide (timestamp_nanos (e_timestamp entry) = None))
      (MalformedEntry (e_id entry) "time is not representable as u64 nanoseconds")
    ++ report (s_seq seal =? 0)%N (MalformedEntry (e_id entry) "sequence numbers start at 1")
    ++ match v2_entry_hash entry seal with
       | Err error => [MalformedEntry (e_id entry) (error_text error)]
       | Ok _ => []
       end
    ++ check_registry (cv_registry v) entry seal
    ++ report (negb (is_ok (verify_signature entry))) (IssueInvalidSignature (e_id entry))
    ++ check_sequence entry seal previous
    ++ check_link entry previous.

Definition check_entry (v : ChainVerifier) (entry : AuditEntry) (previous : option AuditEntry)
    : list ChainIssue :=
  match e_v2 entry with
  | None => check_v1 v entry previous
  | Some seal => check_v2 v entry seal previous
  end.

Fixpoint check_run (v : ChainVerifier) (entries : list AuditEntry) (previous : option AuditEntry)
    : list ChainIssue :=
  match entries with
  | [] => []
  | entry :: rest => check_entry v entry previous ++ check_run v rest (Some entry)
  end.

Definition check_start (entries : list AuditEntry) (start : ChainStart) : list ChainIssue :=
  match entries, start with
  | entry :: _, StartGenesis => report (negb (is_zero (e_previous_hash entry))) (InvalidGenesis (e_id entry))
  | _, _ => []
  end.

(** [ChainVerifier::verify]: the genesis issue precedes the first entry's own. *)
Definition verify_run (v : ChainVerifier) (entries : list AuditEntry) (start : ChainStart)
    : ChainVerificationResult :=
  let previous := match start with StartAfter entry => Some entry | _ => None end in
  let found := check_start entries start ++ check_run v entries previous in
  MkChainVerificationResult (match found with [] => true | _ => false end) (length entries) found.

Lemma v2_entry_hash_error entry seal error :
  v2_entry_hash entry seal = Err error -> exists reason, error = SerializationError reason.
Proof.
  assert (Hsec : forall value tag what e, section_of value tag what = Err e -> exists r, e = SerializationError r).
  { intros value tag what e. unfold section_of. repeat case_match; intros [= <-]; eauto. }
  remember (Ok (outcome_to_value (e_outcome entry)) : result Value string) as ov eqn:Ho.
  unfold v2_entry_hash, body_bytes, body_item, sections, action_section, authorization_section,
    outcome_section. rewrite <- Ho. intros He.
  destruct (section_of (action_to_value _) _ _) eqn:Ha; cbn in He; [|injection He as <-; eauto].
  destruct (section_of (authorization_to_value _) _ _) eqn:Hb; cbn in He; [|injection He as <-; eauto].
  destruct (section_of ov _ _) eqn:Hc; cbn in He; [discriminate He|injection He as <-; eauto].
Qed.
End Verifier.

(** ** Entries without issues *)

Lemma report_nil cond issue : report cond issue = [] <-> cond = false.
Proof. by destruct cond. Qed.

Section Good.
  Context `{Crypto, AuditSerde}.

Definition link_ok (entry : AuditEntry) (previous : option AuditEntry) : Prop :=
  match previous with Some previous => e_previous_hash entry = content_hash previous | None => True end.

(** The sequence number the position requires; [None] where it is free. *)
Definition expected_seq (entry : AuditEntry) (seal : EntryV2Seal) (previous : option AuditEntry)
    : option N :=
  match previous with
  | None => if is_zero (e_previous_hash entry) then Some 1%N else None
  | Some previous =>
      match e_v2 previous with
      | Some before =>
          if bool_decide (s_chain_id before = s_chain_id seal) then Some (s_seq before + 1)%N else Some 1%N
      | None => Some 1%N
      end
  end.

Record v2_good (registry : KeyRegistry) (entry : AuditEntry) (seal : EntryV2Seal)
    (previous : option AuditEntry) : Prop := {
  vg_time : timestamp_nanos (e_timestamp entry) <> None;
  vg_seq : s_seq seal <> 0%N;
  vg_body : is_ok (body_bytes entry seal) = true;
  vg_chain : s_chain_id seal = derive_chain_id (registry_id registry) (e_session_id entry)
                                 (e_principal entry) (s_principal_uid seal);
  vg_active : is_active registry Audit (e_runtime_key entry) (s_key_epoch seal) = true;
  vg_signature : verify_strict (e_runtime_key entry) (signing_data entry) (e_signature entry) = true;
  vg_epoch : forall before, previous_seal previous = Some before -> (s_key_epoch before <= s_key_epoch seal)%N;
  vg_expected : forall seq, expected_seq entry seal previous = Some seq -> s_seq seal = seq;
  vg_overflow : forall before, previous_seal previous = Some before ->
    s_chain_id before = s_chain_id seal -> (s_seq before + 1 <= U64_MAX)%N;
  vg_link : link_ok entry previous;
}.

Record v1_good (v : ChainVerifier) (entry : AuditEntry) (previous : option AuditEntry) : Prop := {
  wg_signature : verify (e_runtime_key entry) (signing_data entry) (e_signature entry) = true;
  wg_key : cv_registered_v1_keys v = true ->
    exists registry, cv_registry v = Some registry /\ was_registered registry AuditV1 (e_runtime_key entry) = true;
  wg_format : previous_seal previous = None;
  wg_link : link_ok entry previous;
}.

Lemma check_link_nil entry previous : check_link entry previous = [] <-> link_ok entry previous.
Proof.
  destruct previous as [p|]; [|done]. unfold check_link, link_ok, follows.
  rewrite report_nil, negb_false_iff. by rewrite bool_decide_eq_true.
Qed.

Lemma check_epoch_nil entry seal previous :
  check_epoch entry seal previous = [] <->
  forall before, previous_seal previous = Some before -> (s_key_epoch before <= s_key_epoch seal)%N.
Proof.
  unfold check_epoch. destruct (previous_seal previous) as [before|]; [|naive_solver].
  rewrite report_nil, N.ltb_ge. naive_solver.
Qed.

Lemma gap_nil entry seal expected :
  report (negb (s_seq seal =? expected)%N) (SequenceGap (e_id entry) expected (s_seq seal)) = []
  <-> s_seq seal = expected.
Proof. by rewrite report_nil, negb_false_iff, N.eqb_eq. Qed.

Lemma check_sequence_nil entry seal previous :
  check_sequence entry seal previous = [] <->
  (forall before, previous_seal previous = Some before -> (s_key_epoch before <= s_key_epoch seal)%N) /\
  (forall seq, expected_seq entry seal previous = Some seq -> s_seq seal = seq) /\
  (forall before, previous_seal previous = Some before ->
     s_chain_id before = s_chain_id seal -> (s_seq before + 1 <= U64_MAX)%N).
Proof.
  unfold check_sequence. rewrite app_nil, check_epoch_nil. unfold expected_seq.
  destruct previous as [p|]; cbn [previous_seal].
  - destruct (e_v2 p) as [before|].
    + case_bool_decide as Hc.
      * destruct (checked_add U64_MAX (s_seq before) 1) as [next|] eqn:Hadd.
        -- apply checked_add_Some in Hadd as [-> Hle]. rewrite gap_nil. naive_solver.
        -- apply checked_add_None in Hadd. split; [by intros [_ ?]|].
           intros (_ & _ & Hov). specialize (Hov _ eq_refl Hc). lia.
      * rewrite gap_nil. naive_solver.
    + rewrite gap_nil. naive_solver.
  - destruct (is_zero _).
    + rewrite gap_nil. naive_solver.
    + naive_solver.
Qed.

Lemma verify_signature_ok entry :
  is_ok (verify_signature entry) = true <->
  match e_v2 entry with
  | Some _ => verify_strict (e_runtime_key entry) (signing_data entry) (e_signature entry)
  | None => verify (e_runtime_key entry) (signing_data entry) (e_signature entry)
  end = true.
Proof. unfold verify_signature. by destruct (e_v2 entry); case_match. Qed.

Lemma check_v2_nil v entry seal previous :
  e_v2 entry = Some seal ->
  check_entry v entry previous = [] <->
  exists registry, cv_registry v = Some registry /\ v2_good registry entry seal previous.
Proof.
  intros Hv2. unfold check_entry, check_v2. rewrite Hv2.
  rewrite !app_nil, !report_nil, check_sequence_nil, check_link_nil, negb_false_iff, verify_signature_ok, Hv2.
  rewrite bool_decide_eq_false, N.eqb_neq. unfold v2_entry_hash, check_registry.
  destruct (cv_registry v) as [registry|];
    [|split; [by intros (_ & _ & _ & ? & _)|by intros (? & ? & _)]].
  rewrite app_nil, !report_nil, !negb_false_iff, bool_decide_eq_true.
  destruct (body_bytes entry seal) eqn:Hb; cbn [rbind].
  - split.
    + intros (Ht & Hs & _ & [Hc Ha] & Hsig & (He & Hx & Ho) & Hl). exists registry. split; [done|].
      split; try done. by rewrite Hb.
    + intros (r & [= <-] & [Ht Hs Hb' Hc Ha Hsig He Hx Ho Hl]). done.
  - split; [by intros (_ & _ & ? & _)|]. intros (r & _ & [_ _ Hb' _ _ _ _ _ _ _]). by rewrite Hb in Hb'.
Qed.

Lemma check_v1_nil v entry previous :
  e_v2 entry = None -> check_entry v entry previous = [] <-> v1_good v entry previous.
Proof.
  intros Hv2. unfold check_entry, check_v1. rewrite Hv2.
  rewrite !app_nil, !report_nil, check_link_nil, negb_false_iff, verify_signature_ok, Hv2.
  rewrite bool_decide_eq_false, <- eq_None_not_Some, andb_false_iff, negb_false_iff. split.
  - intros (Hs & Hk & Hf & Hl). split; try done. intros Hreq. rewrite Hreq in Hk.
    destruct Hk as [|Hk]; [done|]. destruct (cv_registry v) as [registry|]; [|done]. by exists registry.
  - intros [Hs Hk Hf Hl]. split; [done|]. split; [|done].
    destruct (cv_registered_v1_keys v); [right|by left]. by destruct Hk as (registry & -> & ->).
Qed.

(** ** Runs *)

(** The entry stored before position [i] of a run that starts after [previous]. *)
Definition before (previous : option AuditEntry) (entries : list AuditEntry) (i : nat) : option AuditEntry :=
  match i with O => previous | S i => entries !! i end.

Lemma check_run_nil v entries : forall previous,
  check_run v entries previous = [] <->
  forall i entry, entries !! i = Some entry -> check_entry v entry (before previous entries i) = [].
Proof.
  induction entries as [|e entries IH]; intros previous; cbn [check_run]; [done|].
  rewrite app_nil, IH. split.
  - intros [He Hall] [|i] entry Hi; simpl in Hi |- *; [by simplify_eq|].
    specialize (Hall i entry Hi). by destruct i.
  - intros Hall. split; [by apply (Hall 0 e)|].
    intros i entry Hi. specialize (Hall (S i) entry Hi). by destruct i.
Qed.

Lemma valid_true v entries start :
  valid (verify_run v entries start) = true <->
  check_start entries start = [] /\
  check_run v entries (match start with StartAfter entry => Some entry | _ => None end) = [].
Proof.
  rewrite <- app_nil. unfold verify_run. cbn [valid]. by destruct (check_start _ _ ++ _).
Qed.

Lemma check_run_app v l1 : forall l2 previous,
  check_run v (l1 ++ l2) previous
  = check_run v l1 previous ++ check_run v l2 (match last l1 with Some e => Some e | None => previous end).
Proof.
  induction l1 as [|e l1 IH]; intros l2 previous; [done|]. cbn [app check_run].
  rewrite IH, <- app_assoc. do 2 f_equal. destruct l1 as [|e' l1]; [done|].
  change (last (e :: e' :: l1)) with (last (e' :: l1)). by destruct (last (e' :: l1)) eqn:Hl; [|apply last_None in Hl].
Qed.
End Good.

(** ** Key authority along a run *)

Section Runs.
  Context `{Crypto, AuditSerde}.

(** The states in which a key is the audit key form an interval. *)
Lemma audit_key_interval reg a b epoch1 epoch2 epoch3 :
  registry_ok reg -> (epoch1 <= epoch2 <= epoch3)%N ->
  is_active reg Audit a epoch1 = true -> is_active reg Audit b epoch2 = true ->
  is_active reg Audit a epoch3 = true -> a = b.
Proof.
  intros Hok Hle H1 H2 H3.
  apply is_active_line in H1 as [_ (g1 & Hg1 & Hk1 & Hc1)], H3 as [Hle3 (g3 & Hg3 & Hk3 & Hc3)].
  apply list_elem_of_filter in Hg1 as [Hr1 [i Hi]%list_elem_of_lookup], Hg3 as [Hr3 [j Hj]%list_elem_of_lookup].
  destruct (rk_keys _ Hok i j g1 g3 Hi Hj) as [->|(_ & _ & Hna & _)]; [congruence| |done].
  rewrite Hi in Hj. injection Hj as <-.
  assert (is_active reg Audit a epoch2 = true) as H2'.
  { apply is_active_line. split; [lia|]. exists g1.
    split; [apply list_elem_of_filter; split; [done|by eapply list_elem_of_lookup_2]|]. split; [done|].
    unfold covers in *. apply andb_true_iff in Hc1 as [Hf1%N.leb_le _], Hc3 as [_ Hu3].
    apply andb_true_iff. split; [apply N.leb_le; lia|]. destruct (g_until g1); [|done].
    apply N.ltb_lt in Hu3. apply N.ltb_lt. lia. }
  pose proof (proj1 (proj1 (is_active_line _ _ _ _) H2)) as Hle2.
  rewrite is_active_active_key in H2, H2' by done. congruence.
Qed.

(** Below a format-v2 entry of a run without issues there is no v1 entry. *)
Lemma v1_prefix v entries i j seal :
  check_run v entries None = [] -> i <= j -> j < length entries ->
  (entries !! i) ≫= e_v2 = Some seal ->
  exists seal', (entries !! j) ≫= e_v2 = Some seal' /\ (s_key_epoch seal <= s_key_epoch seal')%N.
Proof.
  rewrite check_run_nil. intros Hall Hij. induction Hij as [|j Hij IH]; intros Hlen Hi; [by exists seal|].
  destruct (IH ltac:(lia) Hi) as (s & Hs & Hle). destruct (entries !! j) as [p|] eqn:Hp; [|done].
  destruct (lookup_lt_is_Some_2 entries (S j) Hlen) as [e He].
  specialize (Hall _ _ He). cbn [before] in Hall. rewrite Hp in Hall. rewrite He. cbn in Hs |- *.
  destruct (e_v2 e) as [s'|] eqn:Hv.
  - apply (check_v2_nil _ _ _ _ Hv) in Hall as (registry & _ & Hgood). exists s'. split; [done|].
    pose proof (vg_epoch _ _ _ _ Hgood s Hs). lia.
  - apply (check_v1_nil _ _ _ Hv) in Hall as [_ _ Hf _]. cbn in Hf. congruence.
Qed.

Lemma run_v2_good reg entries i entry seal :
  check_run (new_verifier (Some reg)) entries None = [] -> entries !! i = Some entry ->
  e_v2 entry = Some seal -> v2_good reg entry seal (before None entries i).
Proof.
  rewrite check_run_nil. intros Hall Hi Hv. specialize (Hall _ _ Hi).
  apply (check_v2_nil _ _ _ _ Hv) in Hall as (registry & [= <-] & Hgood). done.
Qed.

End Runs.

(** ** Tamper evidence *)

Section Tamper.
  Context `{Crypto, AuditSerdeLaws}.

(** What the content hash of an entry is taken of. *)
Definition content_preimage (entry : AuditEntry) : AuditEntryFormat * list byte :=
  match e_v2 entry with
  | Some seal =>
      (V2, match body_bytes entry seal with Ok body => body | Err _ => as_bytes UNENCODABLE_TAG end)
  | None => (V1, v1_signing_data entry)
  end.

(** The widths Rust's types give a format-v2 entry. *)
Definition entry_wf (entry : AuditEntry) : Prop :=
  match e_v2 entry with Some seal => entry_ok entry seal | None => True end.

Lemma v1_previous_hash e1 e2 :
  v1_signing_data e1 = v1_signing_data e2 -> e_previous_hash e1 = e_previous_hash e2.
Proof.
  unfold v1_signing_data. rewrite !app_assoc. intros Heq.
  apply app_inj_2 in Heq as [Heq _]; [|by rewrite !arr_length].
  apply app_inj_2 in Heq as [_ Heq]; [|by rewrite !arr_length]. by apply arr_inj.
Qed.

Lemma v2_previous_hash e1 e2 seal1 seal2 body :
  entry_ok e1 seal1 -> entry_ok e2 seal2 -> body_bytes e1 seal1 = Ok body -> body_bytes e2 seal2 = Ok body ->
  e_previous_hash e1 = e_previous_hash e2.
Proof.
  intros Hok1 Hok2 Hb1 Hb2.
  destruct (header_decode_body _ _ _ Hok1 Hb1) as (h1 & Hh1 & _ & Ho1).
  destruct (header_decode_body _ _ _ Hok2 Hb2) as (h2 & Hh2 & _ & Ho2).
  rewrite Hh1 in Hh2. injection Hh2 as <-.
  rewrite <- (ho_prev _ _ _ Ho1). apply (ho_prev _ _ _ Ho2).
Qed.

Definition body_ok (entry : AuditEntry) : Prop :=
  match e_v2 entry with Some seal => is_ok (body_bytes entry seal) = true | None => True end.

Lemma preimage_previous_hash e1 e2 :
  entry_wf e1 -> entry_wf e2 -> body_ok e1 -> body_ok e2 ->
  content_preimage e1 = content_preimage e2 -> e_previous_hash e1 = e_previous_hash e2.
Proof.
  unfold entry_wf, body_ok, content_preimage. intros Hw1 Hw2 Hb1 Hb2.
  destruct (e_v2 e1) as [s1|], (e_v2 e2) as [s2|]; try done.
  - destruct (body_bytes e1 s1) as [b1|] eqn:H1'; [|done]. destruct (body_bytes e2 s2) as [b2|] eqn:H2'; [|done].
    intros [= <-]. by eapply v2_previous_hash.
  - intros [= Heq]. by apply v1_previous_hash.
Qed.

Lemma run_body_ok v entries : check_run v entries None = [] -> Forall body_ok entries.
Proof.
  rewrite check_run_nil. intros Hall. apply Forall_lookup. intros i e Hi. specialize (Hall _ _ Hi).
  unfold body_ok. destruct (e_v2 e) as [seal|] eqn:Hv; [|done].
  apply (check_v2_nil _ _ _ _ Hv) in Hall as (registry & _ & Hgood). apply (vg_body _ _ _ _ Hgood).
Qed.

(** In a run from genesis each entry links to the one before, the first to zero. *)
Fixpoint linked (previous_hash : ContentHash) (entries : list AuditEntry) : Prop :=
  match entries with
  | [] => True
  | e :: rest => e_previous_hash e = previous_hash /\ linked (content_hash e) rest
  end.

Lemma check_entry_link v e previous : check_entry v e previous = [] -> link_ok e previous.
Proof.
  destruct (e_v2 e) as [seal|] eqn:Hv; intros Hc.
  - apply (check_v2_nil _ _ _ _ Hv) in Hc as (registry & _ & Hgood). apply (vg_link _ _ _ _ Hgood).
  - apply (check_v1_nil _ _ _ Hv) in Hc. apply (wg_link _ _ _ Hc).
Qed.

Lemma check_run_linked v entries : forall previous,
  check_run v entries (Some previous) = [] -> linked (content_hash previous) entries.
Proof.
  induction entries as [|e entries IH]; intros previous; [done|]. cbn [check_run].
  rewrite app_nil. intros [He Hr]. split; [exact (check_entry_link _ _ _ He)|by apply IH].
Qed.

Lemma valid_linked v entries :
  valid (verify_run v entries StartGenesis) = true -> linked ContentHash_zero entries.
Proof.
  intros [Hs Hr]%valid_true. destruct entries as [|e entries]; [done|]. cbn [check_run check_start] in *.
  apply app_nil in Hr as [_ Hr]. split; [|by eapply check_run_linked].
  rewrite report_nil, negb_false_iff in Hs. by apply bool_decide_eq_true in Hs.
Qed.

Lemma linked_snoc entries : forall h e,
  linked h (entries ++ [e]) <->
  linked h entries /\ e_previous_hash e = match last entries with Some p => content_hash p | None => h end.
Proof.
  induction entries as [|x entries IH]; intros h e; [cbn; naive_solver|].
  cbn [app linked]. rewrite IH. destruct entries as [|y entries]; [naive_solver|].
  change (last (x :: y :: entries)) with (last (y :: entries)).
  destruct (last (y :: entries)) eqn:Hl; [naive_solver|]. by apply last_None in Hl.
Qed.

Section TwoRuns.
  Context (ok : AuditEntry -> Prop).
  Hypothesis ok_wf : forall e, ok e -> entry_wf e /\ body_ok e.
  Hypothesis ok_nonzero : forall e, ok e -> content_hash e <> ContentHash_zero.
  Hypothesis ok_collision : forall a b, ok a -> ok b ->
    content_hash a = content_hash b -> content_preimage a = content_preimage b.

Lemma linked_determined run1 : forall run2,
  Forall ok run1 -> Forall ok run2 -> linked ContentHash_zero run1 -> linked ContentHash_zero run2 ->
  content_hash <$> last run1 = content_hash <$> last run2 ->
  content_preimage <$> run1 = content_preimage <$> run2.
Proof.
  induction run1 as [|e1 run1 IH] using rev_ind; intros run2 Hok1 Hok2 Hl1 Hl2 Hlast.
  - destruct run2 as [|e2 run2 _] using rev_ind; [done|]. by rewrite last_snoc in Hlast.
  - destruct run2 as [|e2 run2 _] using rev_ind; [by rewrite last_snoc in Hlast|].
    rewrite !last_snoc in Hlast. injection Hlast as Hlast.
    apply Forall_app in Hok1 as [Hok1 Hk1], Hok2 as [Hok2 Hk2]. rewrite Forall_singleton in Hk1, Hk2.
    apply linked_snoc in Hl1 as [Hl1 Hp1], Hl2 as [Hl2 Hp2].
    pose proof (ok_collision _ _ Hk1 Hk2 Hlast) as Hpre.
    destruct (ok_wf _ Hk1) as [Hw1 Hb1], (ok_wf _ Hk2) as [Hw2 Hb2].
    pose proof (preimage_previous_hash _ _ Hw1 Hw2 Hb1 Hb2 Hpre) as Hprev.
    rewrite !fmap_app. cbn. rewrite Hpre. f_equal. apply IH; try done.
    rewrite Hp1, Hp2 in Hprev.
    destruct (last run1) as [p1|] eqn:E1, (last run2) as [p2|] eqn:E2; cbn in *; try congruence.
    + exfalso. apply (ok_nonzero p1); [|done]. apply last_Some_elem_of in E1. by rewrite Forall_forall in Hok1; auto.
    + exfalso. apply (ok_nonzero p2); [|done]. apply last_Some_elem_of in E2. by rewrite Forall_forall in Hok2; auto.
Qed.
End TwoRuns.

(** C20: A verified chain is determined by the content hash of its last entry:
    two runs accepted from genesis whose last entries have one content hash
    are, entry for entry, taken of the same bytes, provided the hashes of
    these entries do not collide and none of them is zero. *)
Theorem chain_tamper_evident v1 v2 run1 run2 :
  valid (verify_run v1 run1 StartGenesis) = true -> valid (verify_run v2 run2 StartGenesis) = true ->
  Forall entry_wf (run1 ++ run2) ->
  Forall (fun e => content_hash e <> ContentHash_zero) (run1 ++ run2) ->
  (forall a b, a ∈ run1 ++ run2 -> b ∈ run1 ++ run2 ->
     content_hash a = content_hash b -> content_preimage a = content_preimage b) ->
  content_hash <$> last run1 = content_hash <$> last run2 ->
  length run1 = length run2 /\ content_preimage <$> run1 = content_preimage <$> run2.
Proof.
  intros Hv1 Hv2 Hwf Hnz Hnc Hlast.
  pose proof (run_body_ok _ _ (proj2 (proj1 (valid_true _ _ _) Hv1))) as Hb1.
  pose proof (run_body_ok _ _ (proj2 (proj1 (valid_true _ _ _) Hv2))) as Hb2.
  rewrite Forall_forall in Hwf, Hnz, Hb1, Hb2.
  assert (content_preimage <$> run1 = content_preimage <$> run2) as Heq.
  { apply (linked_determined (fun e => e ∈ run1 ++ run2)).
    - intros e He. split; [auto|]. apply elem_of_app in He as [He|He]; auto.
    - auto.
    - auto.
    - apply Forall_forall. intros e He. apply elem_of_app. by left.
    - apply Forall_forall. intros e He. apply elem_of_app. by right.
    - by eapply valid_linked.
    - by eapply valid_linked.
    - done. }
  split; [|done]. by rewrite <- (length_fmap content_preimage run1), Heq, length_fmap.
Qed.
End Tamper.

(** ** Examples

    A run of two entries of one chain. *)
Module ChainExamples.
  Import RegistryExamples EntryExamples.
  #[local] Existing Instance toy_crypto.
  #[local] Existing Instance toy_serde.

Definition entry1 : AuditEntry := example_entry 2 1 ContentHash_zero.
Definition entry2 : AuditEntry := example_entry 3 2 (content_hash entry1).
Definition run : list AuditEntry := [entry1; entry2].

Lemma run_valid : valid (verify_run (new_verifier (Some example_registry)) run StartGenesis) = true.
Proof. vm_compute. reflexivity. Qed.

Lemma entry1_wf : entry_wf entry1.
Proof. exact (example_entry_ok 2). Qed.

Lemma entry2_wf : entry_wf entry2.
Proof.
  change (entry_ok entry2 (example_seal 2)).
  assert (e_principal entry2 = Some "alice") as Hp by reflexivity.
  assert (e_outcome entry2 = Success None) as Ho by reflexivity.
  split; rewrite ?Hp, ?Ho; try done; vm_compute; split; congruence.
Qed.

Lemma run_nonzero : Forall (fun e => content_hash e <> ContentHash_zero) run.
Proof.
  assert (forallb (fun e => negb (is_zero (content_hash e))) run = true) as Hb by (vm_compute; reflexivity).
  apply Forall_forall. intros e He%list_elem_of_In Hz. rewrite forallb_forall in Hb.
  specialize (Hb _ He). unfold is_zero in Hb. by rewrite bool_decide_true in Hb.
Qed.

Lemma run_distinct : content_hash entry1 <> content_hash entry2.
Proof.
  assert (bool_decide (content_hash entry1 = content_hash entry2) = false) as Hb by (vm_compute; reflexivity).
  by apply bool_decide_eq_false in Hb.
Qed.


Lemma chain_tamper_evident_witness :
  length run = length run /\ content_preimage <$> run = content_preimage <$> run.
Proof.
  pose proof toy_serde_laws.
  apply (chain_tamper_evident (new_verifier (Some example_registry)) (new_verifier (Some example_registry))).
  - exact run_valid.
  - exact run_valid.
  - exact (Forall_app_2 _ _ _ (Forall_cons_2 _ _ _ entry1_wf (Forall_cons_2 _ _ _ entry2_wf (Forall_nil_2 _)))
      (Forall_cons_2 _ _ _ entry1_wf (Forall_cons_2 _ _ _ entry2_wf (Forall_nil_2 _)))).
  - apply Forall_app_2; exact run_nonzero.
  - pose proof run_distinct as Hd.
    assert (forall a, a ∈ run ++ run -> a = entry1 \/ a = entry2) as Hin.
    { intros a. rewrite elem_of_app. unfold run. rewrite !elem_of_cons, elem_of_nil.
      intros [[Ha|[Ha|[]]]|[Ha|[Ha|[]]]]; [left|right|left|right]; exact Ha. }
    intros a b Ha Hb. destruct (Hin a Ha) as [->| ->], (Hin b Hb) as [->| ->]; intros Heq.
    + exact eq_refl.
    + destruct (Hd Heq).
    + destruct (Hd (eq_sym Heq)).
    + exact eq_refl.
  - exact eq_refl.
Defined.

(** Changing the outcome of the first entry, with its signature kept, is reported. *)
Lemma tampered_reported :
  valid (verify_run (new_verifier (Some example_registry))
    [MkAuditEntry _ (e_id entry1) (e_timestamp entry1) (e_session_id entry1) (e_principal entry1)
       (e_action entry1) (e_authorization entry1) (Failure "x") (e_previous_hash entry1)
       (e_runtime_key entry1) (e_signature entry1) (e_v2 entry1); entry2] StartGenesis) = false.
Proof. vm_compute. reflexivity. Qed.
End ChainExamples.
