(* ===== verification/AuditLog.v ===== *)
(** * The audit log

    [crates/astrid-audit/src/log.rs] (the append loop), [log/v2.rs] (enabling
    format v2, rotating the audit key, signing) and
    [storage/key_registry.rs] (the registry records and the checks under the
    append lock), for any number of log handles open on one store.

    The store is what the [AuditStorage] trait promises: the registry records
    by sequence number, and per chain key the committed entries in order, whose
    last element is the chain head.  Records and entries are stored as values,
    not as their JSON bytes.  One attempt of the append loop is two steps,
    signing against the head the handle sees and committing under the append
    lock, so that steps of other handles fall between them.  Fresh entry
    identifiers, the clock and the salt key are arguments; an identifier the
    system hands out is one it has not handed out before.  The retention cap
    is not part of this model: no append is refused for it. *)

From stdpp Require Import sorting.
From S2P Require Import Prelude Bytes Cbor Crypto KeyRegistry AuditEntry AuditChain.
Local Open Scope string_scope.
Local Open Scope list_scope.

(** [ChainKey]: session and optional principal. *)
Abbreviation ChainKey := (Uuid * option string)%type.

Definition MAX_HEAD_CAS_ATTEMPTS : nat := 8.
Definition REGISTRY_CHANGED : string :=
  "the key registry changed concurrently; reopen the audit log".

Record V2Position : Type := MkV2Position { p_chain_id : array 32; p_seq : N; p_key_epoch : N }.

Record HeadState : Type := MkHeadState { hs_id : Uuid; hs_hash : ContentHash; hs_v2 : option V2Position }.

(** What the append of one entry draws: its identifier, the time, the salt key. *)
Record Fresh : Type := MkFresh { fresh_id : Uuid; fresh_now : Timestamp; fresh_salt : array 32 }.

Section Log.
  Context `{Crypto, AuditSerde}.

Record V2Signer : Type := MkV2Signer {
  vs_key : KeyPair;
  vs_registry : KeyRegistry;
  vs_principals : option (string -> option (array 32));
}.

Record EntryV2Config : Type := MkEntryV2Config {
  cfg_audit_key : KeyPair;
  cfg_genesis_roles : list (KeyRole * KeyPair);
  cfg_principals : option (string -> option (array 32));
}.

Record EntryRequest : Type := MkEntryRequest {
  rq_session_id : Uuid;
  rq_principal : option string;
  rq_actor : option AuditActor;
  rq_action : AuditAction;
  rq_authorization : AuthorizationProof;
  rq_outcome : AuditOutcome;
}.

(** [V2Position::of], [HeadState::of]. *)
Definition position_of (entry : AuditEntry) : option V2Position :=
  (fun seal => MkV2Position (s_chain_id seal) (s_seq seal) (s_key_epoch seal)) <$> e_v2 entry.

Definition head_state_of (entry : AuditEntry) : HeadState :=
  MkHeadState (e_id entry) (content_hash entry) (position_of entry).

(** ** The store *)

Record AuditStore : Type := MkAuditStore {
  st_registry : gmap N KeyRegistryRecord;
  st_chains : gmap ChainKey (list AuditEntry);
}.

Definition chain_of (st : AuditStore) (key : ChainKey) : list AuditEntry :=
  default [] (st_chains st !! key).

(** [get_chain_head]. *)
Definition chain_head (st : AuditStore) (key : ChainKey) : option AuditEntry := last (chain_of st key).

Definition seq_le (a b : N * KeyRegistryRecord) : Prop := (a.1 <= b.1)%N.
#[local] Instance seq_le_dec : RelDecision seq_le.
Proof. intros a b. unfold seq_le. apply _. Defined.

(** The keys are zero-padded, so their order is that of the sequence numbers. *)
Definition load_key_registry_records (st : AuditStore) : list KeyRegistryRecord :=
  (merge_sort seq_le (map_to_list (st_registry st))).*2.

(** [insert_key_registry_record]: a compare-and-swap against absence. *)
Definition insert_key_registry_record (st : AuditStore) (record : KeyRegistryRecord) : AuditStore * bool :=
  match st_registry st !! kr_seq record with
  | Some _ => (st, false)
  | None => (MkAuditStore (<[kr_seq record := record]> (st_registry st)) (st_chains st), true)
  end.

Definition registry_record_exists (st : AuditStore) (seq : N) : bool :=
  bool_decide (is_Some (st_registry st !! seq)).

Definition check_epoch_current (st : AuditStore) (key_epoch : N) : AuditResult unit :=
  match checked_add U64_MAX key_epoch 1 with
  | None => Err (StorageError "audit key epoch exhausted")
  | Some next => if registry_record_exists st next then Err (StaleAuditKey key_epoch) else Ok tt
  end.

(** [check_registry_state]; the epochs are visited as a [BTreeSet] yields them. *)
Definition check_registry_state (st : AuditStore) (entries : list AuditEntry) : AuditResult unit :=
  let v1 := existsb (fun entry => bool_decide (e_v2 entry = None)) entries in
  let epochs := merge_sort N.le (remove_dups (omap (fun entry => s_key_epoch <$> e_v2 entry) entries)) in
  if v1 && registry_record_exists st 0
  then Err (V1Closed "the store holds a format-v2 key registry")
  else try_for (check_epoch_current st) epochs.

Definition entry_key (entry : AuditEntry) : ChainKey := (e_session_id entry, e_principal entry).

(** [append_batch_if_heads] of one entry, under the append lock. *)
Definition append_if_head (st : AuditStore) (entry : AuditEntry) (expected : option Uuid)
    : AuditStore * AuditResult bool :=
  match check_registry_state st [entry] with
  | Err error => (st, Err error)
  | Ok _ =>
      if bool_decide (e_id <$> chain_head st (entry_key entry) = expected)
      then (MkAuditStore (st_registry st)
              (<[entry_key entry := chain_of st (entry_key entry) ++ [entry]]> (st_chains st)), Ok true)
      else (st, Ok false)
  end.

(** ** Signing *)

Definition sign_v1 (request : EntryRequest) (previous_hash : ContentHash) (key : KeyPair) (fresh : Fresh)
    : AuditEntry :=
  match rq_principal request with
  | Some principal =>
      create_with_principal (fresh_id fresh) (fresh_now fresh) (rq_session_id request) principal
        (rq_action request) (rq_authorization request) (rq_outcome request) previous_hash key
  | None =>
      create (fresh_id fresh) (fresh_now fresh) (rq_session_id request)
        (rq_action request) (rq_authorization request) (rq_outcome request) previous_hash key
  end.

Definition resolve_uid (principals : option (string -> option (array 32))) (principal : option string)
    : option (array 32) :=
  match principal, principals with
  | Some principal, Some resolver => resolver principal
  | _, _ => None
  end.

Definition sign_entry (runtime_key : KeyPair) (signer : option V2Signer) (request : EntryRequest)
    (previous_hash : ContentHash) (previous : option V2Position) (fresh : Fresh) : AuditResult AuditEntry :=
  match signer with
  | None =>
      if bool_decide (is_Some previous) then Err (V1Closed "the chain head is a format-v2 entry")
      else Ok (sign_v1 request previous_hash runtime_key fresh)
  | Some signer =>
      let principal_uid := resolve_uid (vs_principals signer) (rq_principal request) in
      let chain_id := derive_chain_id (registry_id (vs_registry signer)) (rq_session_id request)
                        (rq_principal request) principal_uid in
      let key_epoch := head_seq (vs_registry signer) in
      if match previous with Some head => (key_epoch <? p_key_epoch head)%N | None => false end
      then Err (KeyRegistryMessage "the chain head names a newer key epoch than the loaded registry")
      else
        let? seq := match previous with
                    | Some head =>
                        if bool_decide (p_chain_id head = chain_id)
                        then ok_or (checked_add U64_MAX (p_seq head) 1)
                               (StorageError "audit chain sequence exhausted")
                        else Ok 1%N
                    | None => Ok 1%N
                    end in
        assemble_v2
          (MkEntryV2Draft (rq_session_id request) (rq_principal request) principal_uid (rq_actor request)
             (rq_action request) (rq_authorization request) (rq_outcome request) previous_hash chain_id seq
             key_epoch)
          (vs_key signer) (fresh_id fresh) (fresh_now fresh) (fresh_salt fresh)
  end.

(** ** A log handle *)

Record Handle : Type := MkHandle {
  hd_signer : option V2Signer;
  hd_heads : gmap ChainKey HeadState;
  hd_pending : gmap ChainKey (AuditEntry * option Uuid);
}.

Definition open_handle : Handle := MkHandle None ∅ ∅.

(** [load_key_registry]. *)
Definition load_key_registry (st : AuditStore) : AuditResult (option KeyRegistry) :=
  match load_key_registry_records st with
  | [] => Ok None
  | records =>
      match from_records records with
      | Ok registry => Ok (Some registry)
      | Err refusal => Err (KeyRegistryError refusal)
      end
  end.

(** [verification_registry]: the handle's own registry, else the stored one. *)
Definition verification_registry (st : AuditStore) (h : Handle) : AuditResult (option KeyRegistry) :=
  match hd_signer h with
  | Some signer => Ok (Some (vs_registry signer))
  | None => load_key_registry st
  end.

Definition lift_registry {A} (c : result A RegistryRefusal) : AuditResult A :=
  match c with Ok a => Ok a | Err refusal => Err (KeyRegistryError refusal) end.

Definition create_key_registry (st : AuditStore) (config : EntryV2Config) (now : Timestamp)
    : AuditStore * AuditResult KeyRegistry :=
  match genesis_record now ((Audit, cfg_audit_key config) :: cfg_genesis_roles config) with
  | Err refusal => (st, Err (KeyRegistryError refusal))
  | Ok genesis =>
      let '(st', inserted) := insert_key_registry_record st genesis in
      if inserted then (st', lift_registry (from_records [genesis]))
      else (st', let? loaded := load_key_registry st' in
                 ok_or loaded (KeyRegistryMessage REGISTRY_CHANGED))
  end.

Definition install_v2_signer (h : Handle) (signer : V2Signer) : Handle :=
  MkHandle (Some signer) (hd_heads h) (hd_pending h).

Definition enable_entry_v2 (st : AuditStore) (h : Handle) (config : EntryV2Config) (now : Timestamp)
    : AuditStore * Handle * AuditResult KeyRegistry :=
  let '(st', loaded) :=
    match load_key_registry st with
    | Err error => (st, Err error)
    | Ok (Some registry) => (st, Ok registry)
    | Ok None => create_key_registry st config now
    end in
  match loaded with
  | Err error => (st', h, Err error)
  | Ok registry =>
      let audit_public := export_public_key (cfg_audit_key config) in
      if bool_decide (active_key registry Audit (head_seq registry) = Some audit_public)
      then (st', install_v2_signer h (MkV2Signer (cfg_audit_key config) registry (cfg_principals config)),
            Ok registry)
      else (st', h, Err (KeyNotRegistered audit_public))
  end.

Definition rotate_audit_key (st : AuditStore) (h : Handle) (new_key : KeyPair) (now : Timestamp)
    : AuditStore * Handle * AuditResult KeyRegistryRecord :=
  match hd_signer h with
  | None => (st, h, Err (KeyRegistryMessage "entry format v2 is not enabled"))
  | Some signer =>
      match lift_registry (rotation_record (vs_registry signer) Audit (vs_key signer) new_key now) with
      | Err error => (st, h, Err error)
      | Ok record =>
          match lift_registry (push (vs_registry signer) record) with
          | Err error => (st, h, Err error)
          | Ok registry =>
              let '(st', inserted) := insert_key_registry_record st record in
              if inserted
              then (st', install_v2_signer h (MkV2Signer new_key registry (vs_principals signer)), Ok record)
              else (st', h, Err (KeyRegistryMessage REGISTRY_CHANGED))
          end
      end
  end.

(** ** Appending *)

(** [previous_hash_locked]: the head a new entry is signed against. *)
Definition previous_hash_locked (st : AuditStore) (key : ChainKey) (head : option HeadState)
    : option Uuid * ContentHash * option V2Position :=
  match head with
  | Some state => (Some (hs_id state), hs_hash state, hs_v2 state)
  | None =>
      match chain_head st key with
      | Some entry => (Some (e_id entry), content_hash entry, position_of entry)
      | None => (None, ContentHash_zero, None)
      end
  end.

Definition request_key (request : EntryRequest) : ChainKey := (rq_session_id request, rq_principal request).

(** One attempt of [append_inner] up to the storage call: the cached head is
    dropped before it. *)
Definition attempt_sign (runtime_key : KeyPair) (st : AuditStore) (h : Handle) (request : EntryRequest)
    (fresh : Fresh) : Handle * AuditResult AuditEntry :=
  let key := request_key request in
  let '(expected, previous_hash, previous_v2) := previous_hash_locked st key (hd_heads h !! key) in
  match sign_entry runtime_key (hd_signer h) request previous_hash previous_v2 fresh with
  | Err error => (h, Err error)
  | Ok entry =>
      (MkHandle (hd_signer h) (delete key (hd_heads h)) (<[key := (entry, expected)]> (hd_pending h)), Ok entry)
  end.

(** The storage call of the attempt and its bookkeeping. *)
Definition attempt_commit (st : AuditStore) (h : Handle) (key : ChainKey)
    : AuditStore * Handle * AuditResult bool :=
  match hd_pending h !! key with
  | None => (st, h, Ok false)
  | Some (entry, expected) =>
      let '(st', result) := append_if_head st entry expected in
      let heads :=
        match result with
        | Ok true => <[key := head_state_of entry]> (hd_heads h)
        | _ => hd_heads h
        end in
      (st', MkHandle (hd_signer h) heads (delete key (hd_pending h)), result)
  end.

(** [can_resign]. *)
Definition can_resign (h : Handle) (error : AuditError) (entries : list AuditEntry) : bool :=
  match error with
  | V1Closed _ | StaleAuditKey _ =>
      match hd_signer h with
      | None => false
      | Some signer =>
          forallb (fun entry =>
            match e_v2 entry with
            | Some seal => (s_key_epoch seal <? head_seq (vs_registry signer))%N
            | None => true
            end) entries
      end
  | _ => false
  end.

(** [append_inner] run without interference, [attempts] being what is left of
    [MAX_HEAD_CAS_ATTEMPTS]; each attempt draws afresh. *)
Fixpoint append_loop (attempts : nat) (runtime_key : KeyPair) (st : AuditStore) (h : Handle)
    (request : EntryRequest) (draws : nat -> Fresh) : AuditStore * Handle * AuditResult Uuid :=
  match attempts with
  | O => (st, h, Err (StorageError "audit head CAS exhausted after 8 attempts"))
  | S attempts =>
      match attempt_sign runtime_key st h request (draws attempts) with
      | (h', Err error) => (st, h', Err error)
      | (h', Ok entry) =>
          match attempt_commit st h' (request_key request) with
          | (st', h'', Ok true) => (st', h'', Ok (e_id entry))
          | (st', h'', Ok false) => append_loop attempts runtime_key st' h'' request draws
          | (st', h'', Err error) =>
              if can_resign h'' error [entry]
              then append_loop attempts runtime_key st' h'' request draws
              else (st', h'', Err error)
          end
      end
  end.

Definition append_inner (runtime_key : KeyPair) (st : AuditStore) (h : Handle) (request : EntryRequest)
    (draws : nat -> Fresh) : AuditStore * Handle * AuditResult Uuid :=
  append_loop MAX_HEAD_CAS_ATTEMPTS runtime_key st h request draws.
End Log.

(** ** Registries that extend one another *)

Section Extension.
  Context `{Crypto, AuditSerde}.

Lemma from_records_app rs more reg :
  from_records rs = Ok reg -> from_records (rs ++ more) = push_all reg more.
Proof.
  unfold from_records. case_bool_decide as Hne; [done|]. intros Hp.
  rewrite bool_decide_false by (by intros [? _]%app_nil).
  generalize dependent (MkKeyRegistry [] [] []). clear Hne. induction rs as [|r rs IH]; intros reg0 Hp.
  - by injection Hp as <-.
  - cbn [app push_all] in *. destruct (push reg0 r); [|done]. by apply IH.
Qed.

Lemma from_records_id rs reg :
  from_records rs = Ok reg -> registry_id reg = from_option record_hash (zero_array 32) (hd_error rs).
Proof.
  intros (Hok & Hr & _)%from_records_ok. unfold registry_id. rewrite (rk_hashes _ Hok), Hr. by destruct rs.
Qed.

Lemma from_records_head rs reg :
  from_records rs = Ok reg -> N.of_nat (length rs) = (head_seq reg + 1)%N.
Proof. intros (Hok & <- & Hne)%from_records_ok. by apply last_seq. Qed.

Lemma push_all_registered rs : forall reg reg' role key,
  registry_ok reg -> records reg <> [] -> push_all reg rs = Ok reg' ->
  was_registered reg role key = true -> was_registered reg' role key = true.
Proof.
  induction rs as [|r rs IH]; intros reg reg' role key Hok Hne Hp Hw; cbn [push_all] in Hp.
  - by injection Hp as <-.
  - destruct (push reg r) as [reg1|] eqn:Hpush; [|done].
    eapply (IH reg1); [by eapply push_ok|by eapply push_nonempty|done|].
    eapply was_registered_rotation; [done..|by eapply push_nonempty_rotates|done].
Qed.

(** What a registry accepts, every extension of it accepts. *)
Lemma v2_good_extend rs more reg reg' entry seal previous :
  from_records rs = Ok reg -> from_records (rs ++ more) = Ok reg' ->
  v2_good reg entry seal previous -> v2_good reg' entry seal previous.
Proof.
  intros Hr Hr' [Ht Hs Hb Hc Ha Hsig He Hx Ho Hl].
  pose proof (from_records_ok _ _ Hr) as (Hok & Hrec & Hne).
  rewrite (from_records_app _ _ _ Hr) in Hr'. split; try done.
  - rewrite Hc. f_equal. rewrite (from_records_id rs reg Hr), (from_records_id (rs ++ more) reg').
    + rewrite Hrec in Hne. by destruct rs.
    + by rewrite (from_records_app _ _ _ Hr).
  - rewrite (extension_history more reg reg'); try done. by apply is_active_line in Ha as [? _].
Qed.

Lemma v1_good_extend rs more reg reg' entry previous :
  from_records rs = Ok reg -> from_records (rs ++ more) = Ok reg' ->
  v1_good (new_verifier (Some reg)) entry previous -> v1_good (new_verifier (Some reg')) entry previous.
Proof.
  intros Hr Hr' [Hs Hk Hf Hl]. split; try done. intros _. exists reg'. split; [done|].
  destruct (Hk eq_refl) as (reg0 & [= <-] & Hw). rewrite (from_records_app _ _ _ Hr) in Hr'.
  apply from_records_ok in Hr as (Hok & _ & Hne). by eapply push_all_registered.
Qed.

Lemma check_entry_extend rs more reg reg' entry previous :
  from_records rs = Ok reg -> from_records (rs ++ more) = Ok reg' ->
  check_entry (new_verifier (Some reg)) entry previous = [] ->
  check_entry (new_verifier (Some reg')) entry previous = [].
Proof.
  intros Hr Hr' Hc. destruct (e_v2 entry) as [seal|] eqn:Hv.
  - destruct (proj1 (check_v2_nil _ _ _ _ Hv) Hc) as (reg0 & Heq & Hgood). injection Heq as <-.
    apply (check_v2_nil _ _ _ _ Hv). exists reg'. split; [done|].
    exact (v2_good_extend _ _ _ _ _ _ _ Hr Hr' Hgood).
  - apply (check_v1_nil _ _ _ Hv) in Hc. apply (check_v1_nil _ _ _ Hv).
    exact (v1_good_extend _ _ _ _ _ _ Hr Hr' Hc).
Qed.

Lemma valid_extend rs more reg reg' entries start :
  from_records rs = Ok reg -> from_records (rs ++ more) = Ok reg' ->
  valid (verify_run (new_verifier (Some reg)) entries start) = true ->
  valid (verify_run (new_verifier (Some reg')) entries start) = true.
Proof.
  intros Hr Hr'. rewrite !valid_true, !check_run_nil. intros [Hs Hall]. split; [done|].
  intros i e Hi. apply (check_entry_extend _ _ _ _ _ _ Hr Hr'). by apply Hall.
Qed.

Lemma valid_snoc v entries entry :
  valid (verify_run v (entries ++ [entry]) StartGenesis) = true <->
  valid (verify_run v entries StartGenesis) = true /\ check_entry v entry (last entries) = [] /\
  (entries = [] -> e_previous_hash entry = ContentHash_zero).
Proof.
  rewrite !valid_true, check_run_app, app_nil. cbn [check_run]. rewrite app_nil_r.
  assert (match last entries with Some e => Some e | None => None end = last entries) as -> by (by destruct (last entries)).
  destruct entries as [|e entries]; cbn [app check_start].
  - rewrite report_nil, negb_false_iff. unfold is_zero. rewrite bool_decide_eq_true. naive_solver.
  - naive_solver.
Qed.
End Extension.

(** ** Handles sharing a store *)

Section System.
  Context `{Crypto, AuditSerde} (runtime_key : KeyPair).

Record System : Type := MkSystem { sy_store : AuditStore; sy_handles : gmap nat Handle }.

(** No committed or pending entry has the identifier. *)
Definition unused (sys : System) (id : Uuid) : Prop :=
  (forall key entry, entry ∈ chain_of (sy_store sys) key -> e_id entry <> id) /\
  (forall i h key entry expected, sy_handles sys !! i = Some h ->
     hd_pending h !! key = Some (entry, expected) -> e_id entry <> id).

Inductive step : System -> System -> Prop :=
| step_open st hs i :
    hs !! i = None -> step (MkSystem st hs) (MkSystem st (<[i := open_handle]> hs))
| step_close st hs i :
    step (MkSystem st hs) (MkSystem st (delete i hs))
| step_sign st hs i h request fresh h' r :
    hs !! i = Some h -> hd_pending h !! request_key request = None ->
    unused (MkSystem st hs) (fresh_id fresh) ->
    attempt_sign runtime_key st h request fresh = (h', r) ->
    step (MkSystem st hs) (MkSystem st (<[i := h']> hs))
| step_commit st hs i h key st' h' r :
    hs !! i = Some h -> attempt_commit st h key = (st', h', r) ->
    step (MkSystem st hs) (MkSystem st' (<[i := h']> hs))
| step_enable st hs i h config now st' h' r :
    hs !! i = Some h -> (AuditV1, runtime_key) ∈ cfg_genesis_roles config ->
    enable_entry_v2 st h config now = (st', h', r) ->
    step (MkSystem st hs) (MkSystem st' (<[i := h']> hs))
| step_rotate st hs i h new_key now st' h' r :
    hs !! i = Some h -> rotate_audit_key st h new_key now = (st', h', r) ->
    step (MkSystem st hs) (MkSystem st' (<[i := h']> hs)).

Definition initial : System := MkSystem (MkAuditStore ∅ ∅) ∅.

(** ** The invariant *)

(** The stored records, in order. *)
Definition registry_is (st : AuditStore) (rs : list KeyRegistryRecord) : Prop :=
  forall n, st_registry st !! n = rs !! N.to_nat n.

Definition records_ok (rs : list KeyRegistryRecord) : Prop :=
  rs = [] \/ exists reg, from_records rs = Ok reg.

Definition registry_of (rs : list KeyRegistryRecord) : option KeyRegistry :=
  match from_records rs with Ok reg => Some reg | Err _ => None end.

Definition signer_ok (rs : list KeyRegistryRecord) (signer : V2Signer) : Prop :=
  exists rs', rs' `prefix_of` rs /\ from_records rs' = Ok (vs_registry signer) /\
    active_key (vs_registry signer) Audit (head_seq (vs_registry signer))
      = Some (export_public_key (vs_key signer)).

(** An entry signed as the successor of [previous] under some stored registry state. *)
Definition signed_ok (rs : list KeyRegistryRecord) (entry : AuditEntry) (previous : option AuditEntry)
    : Prop :=
  (previous = None -> e_previous_hash entry = ContentHash_zero) /\
  match e_v2 entry with
  | None =>
      e_runtime_key entry = export_public_key runtime_key /\
      v1_good (new_verifier None) entry previous
  | Some seal =>
      exists rs' reg', rs' `prefix_of` rs /\ from_records rs' = Ok reg' /\
        s_key_epoch seal = head_seq reg' /\ v2_good reg' entry seal previous
  end.

Definition pending_ok (st : AuditStore) (rs : list KeyRegistryRecord) (key : ChainKey)
    (entry : AuditEntry) (expected : option Uuid) : Prop :=
  entry_key entry = key /\
  (forall key' e, e ∈ chain_of st key' -> e_id e <> e_id entry) /\
  exists previous, expected = e_id <$> previous /\
    (forall p, previous = Some p -> p ∈ chain_of st key) /\ signed_ok rs entry previous.

Record handle_ok (st : AuditStore) (rs : list KeyRegistryRecord) (h : Handle) : Prop := {
  ho_signer : forall signer, hd_signer h = Some signer -> signer_ok rs signer;
  ho_heads : forall key state, hd_heads h !! key = Some state ->
    exists e, e ∈ chain_of st key /\ state = head_state_of e;
  ho_pending : forall key entry expected, hd_pending h !! key = Some (entry, expected) ->
    pending_ok st rs key entry expected;
}.

Record store_ok (st : AuditStore) (rs : list KeyRegistryRecord) : Prop := {
  sk_registry : registry_is st rs;
  sk_records : records_ok rs;
  sk_valid : forall key,
    valid (verify_run (new_verifier (registry_of rs)) (chain_of st key) StartGenesis) = true;
  sk_ids : forall key, NoDup (e_id <$> chain_of st key);
  sk_v1 : forall key e, e ∈ chain_of st key -> e_v2 e = None ->
    e_runtime_key e = export_public_key runtime_key;
}.

(** Distinct pending entries have distinct identifiers. *)
Definition pending_distinct (hs : gmap nat Handle) : Prop :=
  forall i j hi hj key key' e e' x x', hs !! i = Some hi -> hs !! j = Some hj ->
    hd_pending hi !! key = Some (e, x) -> hd_pending hj !! key' = Some (e', x') ->
    e_id e = e_id e' -> i = j /\ key = key'.

Definition system_ok (sys : System) (rs : list KeyRegistryRecord) : Prop :=
  store_ok (sy_store sys) rs /\
  (forall i h, sy_handles sys !! i = Some h -> handle_ok (sy_store sys) rs h) /\
  pending_distinct (sy_handles sys).

(** ** Signing *)

Lemma is_active_head reg key :
  registry_ok reg -> active_key reg Audit (head_seq reg) = Some key ->
  is_active reg Audit key (head_seq reg) = true.
Proof. intros Hok Ha. by apply is_active_active_key. Qed.

Lemma sign_v1_good (laws : CryptoLaws) request previous fresh :
  previous_seal previous = None ->
  let entry := sign_v1 request (match previous with Some p => content_hash p | None => ContentHash_zero end)
                 runtime_key fresh in
  e_v2 entry = None /\ e_runtime_key entry = export_public_key runtime_key /\
  entry_key entry = request_key request /\ e_id entry = fresh_id fresh /\
  v1_good (new_verifier None) entry previous /\ (previous = None -> e_previous_hash entry = ContentHash_zero).
Proof.
  intros Hprev. unfold sign_v1, request_key.
  destruct (rq_principal request) as [principal|]; cbv zeta; (do 4 (split; [done|])); split;
    try (by intros ->); split; try done; try (apply sign_verify); by destruct previous.
Qed.

Lemma assemble_v2_fields draft signer id now salt entry :
  assemble_v2 draft signer id now salt = Ok entry ->
  let seal := MkEntryV2Seal (dr_chain_id draft) (dr_seq draft) (dr_key_epoch draft)
                (dr_principal_uid draft) (dr_actor draft) salt in
  e_v2 entry = Some seal /\ e_id entry = id /\ e_timestamp entry = now /\
  e_session_id entry = dr_session_id draft /\ e_principal entry = dr_principal draft /\
  e_previous_hash entry = dr_previous_hash draft /\ e_runtime_key entry = export_public_key signer /\
  timestamp_nanos now <> None /\ dr_seq draft <> 0%N /\ is_ok (body_bytes entry seal) = true /\
  e_signature entry = sign signer (signing_data entry).
Proof.
  unfold assemble_v2. case_bool_decide as Ht; [done|]. destruct (N.eqb_spec (dr_seq draft) 0) as [|Hs]; [done|].
  unfold v2_entry_hash. intros Ha.
  match type of Ha with (rbind (rbind ?c _) _) = _ => destruct c as [body|] eqn:Hb; [|done] end.
  injection Ha as <-. cbv zeta. do 9 (split; [done|]). split.
  - match goal with |- is_ok ?c = _ => rewrite (Hb : c = _) end. done.
  - unfold signing_data, v2_hash_or_unencodable, v2_entry_hash. cbn [e_v2 with_signature].
    match goal with |- context [body_bytes ?e ?s] => rewrite (Hb : body_bytes e s = _) end. done.
Qed.

Definition previous_hash_of (previous : option AuditEntry) : ContentHash :=
  match previous with Some p => content_hash p | None => ContentHash_zero end.

(** What [sign_entry] returns is a valid successor of the entry it was given
    the hash and position of. *)
Lemma sign_entry_ok (laws : CryptoLaws) rs signer request previous fresh entry :
  (forall s, signer = Some s -> signer_ok rs s) ->
  sign_entry runtime_key signer request (previous_hash_of previous) (previous ≫= position_of) fresh = Ok entry ->
  entry_key entry = request_key request /\ e_id entry = fresh_id fresh /\ signed_ok rs entry previous.
Proof.
  intros Hsigner Hs. unfold sign_entry in Hs. destruct signer as [signer|].
  - destruct (Hsigner _ eq_refl) as (rs' & Hpre & Hreg & Hact).
    destruct (from_records_ok _ _ Hreg) as (Hok & _ & _).
    match type of Hs with (if ?b then _ else _) = _ => destruct b eqn:Hepoch; [done|] end.
    match type of Hs with rbind ?c _ = _ => destruct c as [seq|] eqn:Hseq; [|done] end. cbn [rbind] in Hs.
    apply assemble_v2_fields in Hs
      as (Hv & Hid & Htime & Hses & Hpr & Hprev & Hkey & Ht & Hs0 & Hb & Hsig).
    cbn [dr_chain_id dr_seq dr_key_epoch dr_principal_uid dr_actor dr_session_id dr_principal dr_previous_hash] in *.
    split; [unfold entry_key, request_key; by rewrite Hses, Hpr|]. split; [done|]. split.
    { intros ->. by rewrite Hprev. }
    rewrite Hv. exists rs', (vs_registry signer). split; [done|]. split; [done|]. split; [done|].
    split; cbn [s_seq s_chain_id s_key_epoch s_principal_uid]; try done.
    + by rewrite Htime.
    + by rewrite Hses, Hpr.
    + rewrite Hkey. by apply is_active_head.
    + rewrite Hsig, Hkey. apply sign_verify_strict.
    + intros before Hbefore. destruct previous as [p|]; [|done]. cbn in Hepoch, Hbefore.
      unfold position_of in Hepoch. rewrite Hbefore in Hepoch. cbn in Hepoch. by apply N.ltb_ge in Hepoch.
    + intros expected Hexp. unfold expected_seq in Hexp. destruct previous as [p|]; cbn in Hseq.
      * unfold position_of in Hseq. destruct (e_v2 p) as [before|]; cbn in Hseq, Hexp; [|congruence].
        case_bool_decide; [|congruence].
        apply ok_or_Ok, checked_add_Some in Hseq as [-> _]. congruence.
      * rewrite Hprev in Hexp. unfold is_zero in Hexp. rewrite bool_decide_true in Hexp by done. congruence.
    + intros before Hbefore Hc. destruct previous as [p|]; [|done]. cbn in Hseq, Hbefore.
      unfold position_of in Hseq. rewrite Hbefore in Hseq. cbn in Hseq. rewrite bool_decide_true in Hseq by done.
      by apply ok_or_Ok, checked_add_Some in Hseq as [_ ?].
    + unfold link_ok. rewrite Hprev. by destruct previous.
  - case_bool_decide as Hpos; [done|]. injection Hs as <-.
    assert (previous_seal previous = None) as Hp.
    { destruct previous as [p|]; [|done]. cbn in Hpos |- *. unfold position_of in Hpos.
      destruct (e_v2 p); [|done]. destruct Hpos. by eexists. }
    destruct (sign_v1_good laws request previous fresh Hp) as (Hv & Hk & Hkey & Hid & Hgood & Hz).
    fold (previous_hash_of previous) in *. split; [done|]. split; [done|]. split; [done|]. by rewrite Hv.
Qed.

(** ** Stored records in order *)

Definition indexed (rs : list KeyRegistryRecord) : list (N * KeyRegistryRecord) :=
  imap (fun i r => (N.of_nat i, r)) rs.

Lemma elem_of_indexed rs n r : (n, r) ∈ indexed rs <-> rs !! N.to_nat n = Some r.
Proof.
  unfold indexed. rewrite elem_of_lookup_imap. split.
  - intros (i & x & [= -> ->] & Hi). by rewrite Nat2N.id.
  - intros Hn. exists (N.to_nat n), r. by rewrite N2Nat.id.
Qed.

Lemma indexed_sorted rs : forall k, StronglySorted seq_le (imap (fun i r => (N.of_nat (k + i), r)) rs).
Proof.
  induction rs as [|r rs IH]; intros k; [constructor|]. rewrite imap_cons. constructor.
  - rewrite (imap_ext _ (fun i r => (N.of_nat (S k + i), r))); [apply IH|].
    intros i x _. cbn. do 2 f_equal. lia.
  - apply Forall_forall. intros [n x] (i & y & [= -> ->] & _)%elem_of_lookup_imap. unfold seq_le. cbn. lia.
Qed.

#[local] Instance seq_le_trans : Transitive seq_le.
Proof. intros a b c. unfold seq_le. lia. Qed.
#[local] Instance seq_le_total : Total seq_le.
Proof. intros a b. unfold seq_le. lia. Qed.

Lemma load_records_is st rs : registry_is st rs -> load_key_registry_records st = rs.
Proof.
  intros Hr. unfold load_key_registry_records.
  assert (map_to_list (st_registry st) ≡ₚ indexed rs) as Hperm.
  { apply NoDup_Permutation; [apply NoDup_map_to_list| |].
    - apply (NoDup_fmap_1 fst). unfold indexed. rewrite fmap_imap.
      change (NoDup (imap (fun i _ => N.of_nat i) rs)). rewrite imap_seq_0.
      apply NoDup_fmap_2; [apply _|apply NoDup_seq].
    - intros [n r]. by rewrite elem_of_map_to_list, elem_of_indexed, Hr. }
  assert (merge_sort seq_le (map_to_list (st_registry st)) = indexed rs) as ->.
  { apply (StronglySorted_unique_strong seq_le).
    - intros [n x] [m y] Hx Hy Hxy Hyx. rewrite merge_sort_Permutation, Hperm in Hx.
      apply elem_of_indexed in Hx, Hy. unfold seq_le in Hxy, Hyx. cbn in Hxy, Hyx.
      assert (n = m) as -> by lia. congruence.
    - apply StronglySorted_merge_sort; apply _.
    - apply (indexed_sorted rs 0).
    - by rewrite merge_sort_Permutation. }
  unfold indexed. rewrite fmap_imap. change (imap (fun _ r => r) rs = rs).
  clear Hr Hperm. induction rs as [|r rs IH]; [done|].
  rewrite imap_cons. f_equal. exact IH.
Qed.

(** ** Each step preserves the invariant *)

Lemma signed_ok_mono rs rs' entry previous :
  rs `prefix_of` rs' -> signed_ok rs entry previous -> signed_ok rs' entry previous.
Proof.
  intros Hpre [Hz Hs]. split; [done|]. destruct (e_v2 entry) as [seal|]; [|done].
  destruct Hs as (rs0 & reg0 & Hpre0 & Hs). exists rs0, reg0. split; [by etrans|done].
Qed.

Lemma signer_ok_mono rs rs' signer : rs `prefix_of` rs' -> signer_ok rs signer -> signer_ok rs' signer.
Proof. intros Hpre (rs0 & Hpre0 & Hs). exists rs0. split; [by etrans|done]. Qed.

Lemma handle_ok_mono st st' rs rs' h :
  rs `prefix_of` rs' -> (forall key e, e ∈ chain_of st key -> e ∈ chain_of st' key) ->
  (forall key entry x, hd_pending h !! key = Some (entry, x) ->
     forall key' e, e ∈ chain_of st' key' -> e_id e <> e_id entry) ->
  handle_ok st rs h -> handle_ok st' rs' h.
Proof.
  intros Hpre Hsub Hfresh [Hs Hh Hp]. split.
  - intros signer Hsig. eapply signer_ok_mono; eauto.
  - intros key state Hst. destruct (Hh _ _ Hst) as (e & Hin & ->). eauto.
  - intros key entry expected He. destruct (Hp _ _ _ He) as (Hkey & _ & previous & Hx & Hin & Hsig).
    split; [done|]. split; [by eapply Hfresh|]. exists previous. split; [done|]. split; [eauto|].
    by eapply signed_ok_mono.
Qed.

Lemma check_registry_state_one st entry :
  check_registry_state st [entry] = Ok tt ->
  match e_v2 entry with
  | None => st_registry st !! 0%N = None
  | Some seal => st_registry st !! (s_key_epoch seal + 1)%N = None
  end.
Proof.
  unfold check_registry_state. cbn [existsb omap list_omap]. rewrite orb_false_r.
  destruct (e_v2 entry) as [seal|]; cbn -[check_epoch_current].
  - intros [Hc _]%try_for_Ok%Forall_cons. unfold check_epoch_current in Hc.
    destruct (checked_add U64_MAX (s_key_epoch seal) 1) as [next|] eqn:Hadd; [|done].
    apply checked_add_Some in Hadd as [-> _]. unfold registry_record_exists in Hc.
    case_bool_decide as He; [done|]. by apply eq_None_not_Some.
  - unfold registry_record_exists.
    case_bool_decide as He; [done|]. intros _. by apply eq_None_not_Some.
Qed.

Lemma registry_of_ok rs reg : from_records rs = Ok reg -> registry_of rs = Some reg.
Proof. unfold registry_of. by intros ->. Qed.

(** An entry that passes the checks under the append lock is valid in the
    stored registry. *)
Lemma commit_checked st rs entry previous :
  registry_is st rs -> signed_ok rs entry previous -> check_registry_state st [entry] = Ok tt ->
  check_entry (new_verifier (registry_of rs)) entry previous = [].
Proof.
  intros Hreg [_ Hs] Hc%check_registry_state_one. destruct (e_v2 entry) as [seal|] eqn:Hv.
  - destruct Hs as (rs' & reg' & [more ->] & Hr & Hepoch & Hgood).
    rewrite Hreg, Hepoch in Hc.
    assert (N.to_nat (head_seq reg' + 1) = length rs') as Hlen
      by (rewrite <- (from_records_head _ _ Hr); lia).
    rewrite Hlen in Hc. destruct more as [|r more].
    + rewrite app_nil_r, (registry_of_ok _ _ Hr). apply (check_v2_nil _ _ _ _ Hv). by exists reg'.
    + by rewrite list_lookup_middle in Hc.
  - destruct Hs as [_ Hgood]. rewrite Hreg in Hc. destruct rs; [|done].
    by apply (check_v1_nil _ _ _ Hv).
Qed.

Lemma last_unique (chain : list AuditEntry) p :
  NoDup (e_id <$> chain) -> p ∈ chain -> e_id <$> last chain = Some (e_id p) -> last chain = Some p.
Proof.
  intros Hnd [i Hi]%list_elem_of_lookup Hlast. destruct (last chain) as [q|] eqn:Hq; [|done].
  injection Hlast as Hid. rewrite last_lookup in Hq. f_equal.
  assert (i = pred (length chain)) as ->; [|congruence].
  eapply NoDup_lookup; [exact Hnd| |]; rewrite list_lookup_fmap.
  - rewrite Hi. reflexivity.
  - rewrite Hq. cbn. by rewrite Hid.
Qed.

Lemma chain_of_insert st reg key chain key' :
  chain_of (MkAuditStore reg (<[key := chain]> (st_chains st))) key'
  = if decide (key = key') then chain else chain_of st key'.
Proof.
  unfold chain_of. cbn [st_chains]. destruct (decide (key = key')) as [->|Hne].
  - by rewrite lookup_insert_eq.
  - by rewrite lookup_insert_ne.
Qed.

Lemma append_if_head_ok st rs entry expected st' res :
  store_ok st rs -> pending_ok st rs (entry_key entry) entry expected ->
  append_if_head st entry expected = (st', res) ->
  store_ok st' rs /\
  (st' = st /\ res <> Ok true \/
   res = Ok true /\
   st' = MkAuditStore (st_registry st)
           (<[entry_key entry := chain_of st (entry_key entry) ++ [entry]]> (st_chains st))).
Proof.
  intros Hst (_ & Hnew & previous & Hx & Hin & Hsig) Ha. unfold append_if_head in Ha.
  destruct (check_registry_state st [entry]) as [[]|] eqn:Hc; [|injection Ha as <- <-; auto].
  case_bool_decide as Hhead; injection Ha as <- <-; [|auto]. split; [|by right].
  assert (last (chain_of st (entry_key entry)) = previous) as Hlast.
  { unfold chain_head in Hhead. rewrite Hx in Hhead. destruct previous as [p|].
    - apply last_unique; [apply (sk_ids _ _ Hst)|by apply Hin|done].
    - by destruct (last _). }
  pose proof (commit_checked _ _ _ _ (sk_registry _ _ Hst) Hsig Hc) as Hgood.
  split; cbn [st_registry]; try apply Hst.
  - intros key. rewrite chain_of_insert. case_decide as Hk; [|apply (sk_valid _ _ Hst)].
    apply valid_snoc. split; [apply (sk_valid _ _ Hst)|]. rewrite Hlast. split; [done|].
    intros Hnil. rewrite Hnil in Hlast. destruct Hsig as [Hz _]. by apply Hz.
  - intros key. rewrite chain_of_insert. case_decide as Hk; [|apply (sk_ids _ _ Hst)].
    rewrite fmap_app. apply NoDup_app. split; [apply (sk_ids _ _ Hst)|]. split; [|apply NoDup_singleton].
    intros id Hid Hid'. cbn in Hid'. apply list_elem_of_singleton in Hid' as ->.
    apply list_elem_of_fmap_1 in Hid as (e & Heq & He). by apply (Hnew _ _ He).
  - intros key e. rewrite chain_of_insert. case_decide as Hk; [|apply (sk_v1 _ _ Hst)].
    rewrite elem_of_app, list_elem_of_singleton. intros [He| ->]; [by apply (sk_v1 _ _ Hst (entry_key entry))|].
    intros Hv. destruct Hsig as [_ Hs]. rewrite Hv in Hs. apply Hs.
Qed.

(** The head a handle signs against is an entry of the chain, or none. *)
Lemma previous_hash_locked_ok st rs h key expected hash position :
  handle_ok st rs h -> previous_hash_locked st key (hd_heads h !! key) = (expected, hash, position) ->
  exists previous, expected = e_id <$> previous /\ hash = previous_hash_of previous /\
    position = previous ≫= position_of /\ (forall p, previous = Some p -> p ∈ chain_of st key).
Proof.
  intros Hh. unfold previous_hash_locked. destruct (hd_heads h !! key) as [state|] eqn:Hs.
  - destruct (ho_heads _ _ _ Hh _ _ Hs) as (e & Hin & ->). intros [= <- <- <-].
    exists (Some e). repeat (split; [done|]). by intros p [= <-].
  - unfold chain_head. destruct (last (chain_of st key)) as [e|] eqn:Hl; intros [= <- <- <-].
    + exists (Some e). repeat (split; [done|]). intros p [= <-]. by apply last_Some_elem_of.
    + by exists None.
Qed.

Lemma attempt_sign_ok (laws : CryptoLaws) st rs h request fresh h' r :
  handle_ok st rs h -> (forall key entry, entry ∈ chain_of st key -> e_id entry <> fresh_id fresh) ->
  attempt_sign runtime_key st h request fresh = (h', r) -> handle_ok st rs h' /\
  (h' = h \/ exists entry expected, e_id entry = fresh_id fresh /\
     hd_pending h' = <[request_key request := (entry, expected)]> (hd_pending h)).
Proof.
  intros Hh Hnew Ha. unfold attempt_sign in Ha.
  destruct (previous_hash_locked _ _ _) as [[expected hash] position] eqn:Hp.
  destruct (previous_hash_locked_ok _ _ _ _ _ _ _ Hh Hp) as (previous & -> & -> & -> & Hin).
  destruct (sign_entry _ _ _ _ _ _) as [entry|] eqn:Hs; injection Ha as <- <-; [|auto].
  destruct (sign_entry_ok laws rs _ _ _ _ _ (ho_signer _ _ _ Hh) Hs) as (Hkey & Hid & Hsig).
  split; [|right; by exists entry, (e_id <$> previous)]. destruct Hh as [Hsg Hhd Hpd].
  split; cbn [hd_signer hd_heads hd_pending]; [done| |].
  - intros key state [_ Hst]%lookup_delete_Some. by apply Hhd.
  - intros key e x He. apply lookup_insert_Some in He as [[<- [= <- <-]]|[_ He]]; [|by apply Hpd].
    split; [done|]. rewrite Hid. split; [done|]. by exists previous.
Qed.

Lemma in_chain_insert st reg key chain e key' :
  (forall x, x ∈ chain_of st key -> x ∈ chain) -> e ∈ chain_of st key' ->
  e ∈ chain_of (MkAuditStore reg (<[key := chain]> (st_chains st))) key'.
Proof. intros Hsub He. rewrite chain_of_insert. case_decide as Hk; [subst; auto|done]. Qed.

(** A commit, for the handle that commits and for every other one. *)
Lemma attempt_commit_ok st rs h key st' h' r :
  store_ok st rs -> handle_ok st rs h ->
  (forall key1 key2 e1 e2 x1 x2, hd_pending h !! key1 = Some (e1, x1) -> hd_pending h !! key2 = Some (e2, x2) ->
     e_id e1 = e_id e2 -> key1 = key2) ->
  attempt_commit st h key = (st', h', r) ->
  store_ok st' rs /\ handle_ok st' rs h' /\ hd_pending h' = delete key (hd_pending h) /\
  (forall h2, handle_ok st rs h2 ->
     (forall key2 e e2 x x2, hd_pending h !! key = Some (e, x) -> hd_pending h2 !! key2 = Some (e2, x2) ->
        e_id e <> e_id e2) -> handle_ok st' rs h2).
Proof.
  intros Hst Hh Hdist Ha. unfold attempt_commit in Ha.
  destruct (hd_pending h !! key) as [[entry expected]|] eqn:Hp.
  2:{ injection Ha as <- <- <-. split; [done|]. split; [done|]. rewrite delete_id by done. auto. }
  pose proof (ho_pending _ _ _ Hh _ _ _ Hp) as Hpend. pose proof Hpend as (<- & Hnew & _).
  destruct (append_if_head st entry expected) as [st1 res] eqn:Happ. injection Ha as <- <- <-.
  destruct (append_if_head_ok _ _ _ _ _ _ Hst Hpend Happ) as [Hst1 [[-> Hres]|[-> ->]]].
  - split; [done|]. split; [|auto]. destruct Hh as [Hsg Hhd Hpd]. split; cbn [hd_signer hd_heads hd_pending]; [done| |].
    + destruct res as [[]|]; [done|done|done].
    + intros key e x [_ He]%lookup_delete_Some. by apply Hpd.
  - assert (forall h2, handle_ok st rs h2 ->
      (forall key2 e2 x2, hd_pending h2 !! key2 = Some (e2, x2) -> e_id entry <> e_id e2) ->
      handle_ok (MkAuditStore (st_registry st)
        (<[entry_key entry := chain_of st (entry_key entry) ++ [entry]]> (st_chains st))) rs h2) as Hmono.
    { intros h2 Hh2 Hd2. eapply handle_ok_mono; [done| | |exact Hh2].
      - intros key e He. apply in_chain_insert; [|done]. intros x Hx. apply elem_of_app. by left.
      - intros key2 e2 x2 He2 key' e. rewrite chain_of_insert. case_decide as Hk.
        + rewrite elem_of_app, list_elem_of_singleton. intros [He| ->]; [|by eapply Hd2].
          destruct (ho_pending _ _ _ Hh2 _ _ _ He2) as (_ & Hn & _). by eapply Hn.
        + destruct (ho_pending _ _ _ Hh2 _ _ _ He2) as (_ & Hn & _). by eapply Hn. }
    split; [done|]. split; [|split; [done|]].
    + assert (handle_ok st rs (MkHandle (hd_signer h) (hd_heads h) (delete (entry_key entry) (hd_pending h)))) as Hh0.
      { destruct Hh as [Hsg Hhd Hpd]. split; cbn; [done|done|].
        intros key e x [_ He]%lookup_delete_Some. by apply Hpd. }
      apply Hmono in Hh0 as [Hsg Hhd Hpd].
      * split; cbn [hd_signer hd_heads hd_pending] in *; [done| |done].
        intros key state [[<- <-]|[_ Hs]]%lookup_insert_Some; [|by apply Hhd].
        exists entry. rewrite chain_of_insert, decide_True by done. split; [|done].
        apply elem_of_app. right. by apply list_elem_of_singleton.
      * cbn. intros key2 e2 x2 [Hne He2]%lookup_delete_Some Heq. apply Hne. by eapply Hdist.
    + intros h2 Hh2 Hd2. apply Hmono; [done|]. intros key2 e2 x2 He2. by eapply Hd2.
Qed.

Lemma load_key_registry_ok st rs :
  store_ok st rs -> load_key_registry st = Ok (registry_of rs).
Proof.
  intros Hst. unfold load_key_registry. rewrite (load_records_is _ _ (sk_registry _ _ Hst)).
  destruct (sk_records _ _ Hst) as [->|[reg Hr]]; [done|]. unfold registry_of.
  destruct rs; [done|]. by rewrite Hr.
Qed.

Lemma registry_is_snoc st rs r :
  registry_is st rs -> kr_seq r = N.of_nat (length rs) ->
  registry_is (MkAuditStore (<[kr_seq r := r]> (st_registry st)) (st_chains st)) (rs ++ [r]).
Proof.
  intros Hr Hseq n. cbn [st_registry]. rewrite Hseq. destruct (decide (n = N.of_nat (length rs))) as [->|Hne].
  - by rewrite lookup_insert_eq, Nat2N.id, list_lookup_middle.
  - rewrite lookup_insert_ne, Hr by done. destruct (decide (N.to_nat n < length rs)) as [Hlt|Hge].
    + by rewrite lookup_app_l.
    + rewrite lookup_ge_None_2 by lia. symmetry. apply lookup_ge_None_2. rewrite length_app. cbn. lia.
Qed.

(** Before any registry record, every chain is all format v1. *)
Lemma chain_all_v1 st key e :
  store_ok st [] -> e ∈ chain_of st key -> e_v2 e = None.
Proof.
  intros Hst [i Hi]%list_elem_of_lookup. pose proof (sk_valid _ _ Hst key) as [_ Hrun]%valid_true.
  rewrite check_run_nil in Hrun. specialize (Hrun _ _ Hi). destruct (e_v2 e) as [seal|] eqn:Hv; [|done].
  by destruct (proj1 (check_v2_nil _ _ _ _ Hv) Hrun) as (reg & Heq & _).
Qed.

Lemma store_ok_genesis st genesis reg :
  store_ok st [] -> kr_seq genesis = 0%N -> from_records [genesis] = Ok reg ->
  was_registered reg AuditV1 (export_public_key runtime_key) = true ->
  store_ok (MkAuditStore (<[kr_seq genesis := genesis]> (st_registry st)) (st_chains st)) [genesis].
Proof.
  intros Hst Hseq Hr Hw. split.
  - exact (registry_is_snoc _ [] _ (sk_registry _ _ Hst) Hseq).
  - right. by exists reg.
  - intros key. rewrite (registry_of_ok _ _ Hr). change (chain_of _ key) with (chain_of st key).
    pose proof (sk_valid _ _ Hst key) as [Hs Hrun]%valid_true. apply valid_true. split; [done|].
    rewrite check_run_nil in Hrun |- *. intros i e Hi. specialize (Hrun _ _ Hi).
    assert (e ∈ chain_of st key) as Hin by (by eapply list_elem_of_lookup_2).
    pose proof (chain_all_v1 _ _ _ Hst Hin) as Hv. apply (check_v1_nil _ _ _ Hv) in Hrun as [Hsig _ Hf Hl].
    apply (check_v1_nil _ _ _ Hv). split; try done. intros _. exists reg. split; [done|].
    by rewrite (sk_v1 _ _ Hst _ _ Hin Hv).
  - apply (sk_ids _ _ Hst).
  - apply (sk_v1 _ _ Hst).
Qed.

Lemma genesis_seq genesis reg : from_records [genesis] = Ok reg -> kr_seq genesis = 0%N.
Proof.
  intros (Hok & Hr & _)%from_records_ok. by apply (rk_seqs _ Hok 0 genesis); rewrite Hr.
Qed.

Lemma create_key_registry_ok st config now st' res :
  store_ok st [] -> (AuditV1, runtime_key) ∈ cfg_genesis_roles config ->
  create_key_registry st config now = (st', res) ->
  (st' = st /\ exists e, res = Err e) \/
  exists rs' reg, store_ok st' rs' /\ st_chains st' = st_chains st /\ from_records rs' = Ok reg /\ res = Ok reg.
Proof.
  intros Hst Hrole. unfold create_key_registry. destruct (genesis_record _ _) as [genesis|] eqn:Hg.
  2:{ intros [= <- <-]. left. split; [done|]. by eexists. }
  destruct (genesis_record_binds _ _ _ AuditV1 runtime_key Hg) as (reg & Hr & Hw); [by right|].
  pose proof (genesis_seq _ _ Hr) as Hseq. unfold insert_key_registry_record.
  assert (st_registry st !! kr_seq genesis = None) as -> by (by rewrite (sk_registry _ _ Hst)).
  rewrite Hr. intros [= <- <-]. right. exists [genesis], reg. split; [by eapply store_ok_genesis|done].
Qed.

Lemma enable_store_ok st rs h config now st' h' r :
  store_ok st rs -> (AuditV1, runtime_key) ∈ cfg_genesis_roles config ->
  enable_entry_v2 st h config now = (st', h', r) ->
  exists rs', rs `prefix_of` rs' /\ store_ok st' rs' /\ st_chains st' = st_chains st /\
    (h' = h \/ exists signer, signer_ok rs' signer /\ h' = install_v2_signer h signer).
Proof.
  intros Hst Hrole Ha. unfold enable_entry_v2 in Ha. rewrite (load_key_registry_ok _ _ Hst) in Ha.
  destruct (sk_records _ _ Hst) as [->|[reg Hr]].
  - cbn [registry_of from_records] in Ha. change (registry_of []) with (@None KeyRegistry) in Ha.
    destruct (create_key_registry st config now) as [st1 res] eqn:Hc.
    destruct (create_key_registry_ok _ _ _ _ _ Hst Hrole Hc)
      as [[-> [e ->]]|(rs' & reg & Hst1 & Hch & Hr & ->)].
    + injection Ha as <- <- <-. exists []. eauto.
    + exists rs'. split; [apply prefix_nil|].
      case_bool_decide as Hact; injection Ha as <- <- <-; (split; [done|]); (split; [done|]); [|by left].
      right. eexists. split; [|done]. by exists rs'.
  - rewrite (registry_of_ok _ _ Hr) in Ha. exists rs. split; [done|].
    case_bool_decide as Hact; injection Ha as <- <- <-; (split; [done|]); (split; [done|]); [|by left].
    right. eexists. split; [|done]. by exists rs.
Qed.

Lemma rotate_store_ok st rs h new_key now st' h' r :
  store_ok st rs -> handle_ok st rs h -> rotate_audit_key st h new_key now = (st', h', r) ->
  exists rs', rs `prefix_of` rs' /\ store_ok st' rs' /\ st_chains st' = st_chains st /\
    (h' = h \/ exists signer, signer_ok rs' signer /\ h' = install_v2_signer h signer).
Proof.
  intros Hst Hh Ha. unfold rotate_audit_key in Ha.
  assert ((st', h') = (st, h) -> exists rs', rs `prefix_of` rs' /\ store_ok st' rs' /\ st_chains st' = st_chains st /\
    (h' = h \/ exists signer, signer_ok rs' signer /\ h' = install_v2_signer h signer)) as Hsame.
  { intros [= -> ->]. exists rs. auto. }
  destruct (hd_signer h) as [signer|] eqn:Hsg; [|injection Ha as <- <- <-; auto].
  destruct (ho_signer _ _ _ Hh _ Hsg) as (rs0 & Hpre & Hreg & _).
  destruct (rotation_record _ _ _ _ _) as [record|] eqn:Hrot; [|injection Ha as <- <- <-; auto].
  cbn [lift_registry] in Ha. destruct (push _ record) as [registry|] eqn:Hpush; [|injection Ha as <- <- <-; auto].
  cbn [lift_registry] in Ha. unfold insert_key_registry_record in Ha.
  destruct (st_registry st !! kr_seq record) eqn:Hslot; [injection Ha as <- <- <-; auto|].
  injection Ha as <- <- <-. destruct (from_records_ok _ _ Hreg) as (Hok0 & Hrec & Hne).
  pose proof Hpush as (Hseq & _)%push_Ok. rewrite Hrec in Hseq.
  destruct Hpre as [more ->]. rewrite (sk_registry _ _ Hst), Hseq, Nat2N.id in Hslot.
  destruct more as [|x more]; [|by rewrite list_lookup_middle in Hslot]. rewrite app_nil_r in *.
  assert (from_records (rs0 ++ [record]) = Ok registry) as Hnew.
  { rewrite (from_records_app _ _ _ Hreg). cbn [push_all]. by rewrite Hpush. }
  destruct (rotation_record_fields _ _ _ _ _ _ Hrot) as [Hop Hadd].
  exists (rs0 ++ [record]). split; [by apply prefix_app_r|]. split; [|split; [done|]].
  - split; [by apply registry_is_snoc, Hseq; apply Hst|right; by exists registry| |apply (sk_ids _ _ Hst)|apply (sk_v1 _ _ Hst)].
    intros key. rewrite (registry_of_ok _ _ Hnew). change (chain_of _ key) with (chain_of st key).
    apply (valid_extend _ _ _ _ _ _ Hreg Hnew). rewrite <- (registry_of_ok _ _ Hreg). apply (sk_valid _ _ Hst).
  - right. eexists. split; [|done]. exists (rs0 ++ [record]). cbn [vs_registry vs_key].
    split; [done|]. split; [done|]. exact (rotation_active _ _ _ _ Hok0 Hpush Hop Hadd).
Qed.

Lemma handle_ok_chains st st' rs rs' h :
  rs `prefix_of` rs' -> st_chains st' = st_chains st -> handle_ok st rs h -> handle_ok st' rs' h.
Proof.
  intros Hpre Hch Hh. assert (forall key, chain_of st' key = chain_of st key) as Heq
    by (intros key; unfold chain_of; by rewrite Hch).
  eapply handle_ok_mono; [done| | |exact Hh].
  - intros key e. by rewrite Heq.
  - intros key entry x Hp key' e. rewrite Heq.
    destruct (ho_pending _ _ _ Hh _ _ _ Hp) as (_ & Hn & _). by apply Hn.
Qed.

Lemma install_ok st rs h signer :
  signer_ok rs signer -> handle_ok st rs h -> handle_ok st rs (install_v2_signer h signer).
Proof. intros Hs [_ Hhd Hpd]. split; cbn; [|done|done]. by intros s [= <-]. Qed.

(** A step that changes the registry and at most the signer of one handle. *)
Lemma registry_step_ok st hs rs i h st' h' rs' :
  system_ok (MkSystem st hs) rs -> hs !! i = Some h -> rs `prefix_of` rs' -> store_ok st' rs' ->
  st_chains st' = st_chains st ->
  (h' = h \/ exists signer, signer_ok rs' signer /\ h' = install_v2_signer h signer) ->
  system_ok (MkSystem st' (<[i := h']> hs)) rs'.
Proof.
  intros (Hst & Hhs & Hd) Hi Hpre Hst' Hch Hh'.
  assert (hd_pending h' = hd_pending h) as Hpend by (destruct Hh' as [->|(? & _ & ->)]; done).
  split; [done|]. split; cbn [sy_store sy_handles] in *.
  - intros j hj Hj. apply lookup_insert_Some in Hj as [[<- <-]|[_ Hj]].
    + assert (handle_ok st' rs' h) as Hok by (eapply handle_ok_chains; eauto).
      destruct Hh' as [->|(signer & Hs & ->)]; [done|by apply install_ok].
    + eapply handle_ok_chains; eauto.
  - intros j k hj hk key key' e e' x x' Hj Hk He He' Hid.
    assert (exists hj', hs !! j = Some hj' /\ hd_pending hj' = hd_pending hj) as (hj' & Hj' & Hpj).
    { apply lookup_insert_Some in Hj as [[<- <-]|[_ Hj]]; eauto. }
    assert (exists hk', hs !! k = Some hk' /\ hd_pending hk' = hd_pending hk) as (hk' & Hk' & Hpk).
    { apply lookup_insert_Some in Hk as [[<- <-]|[_ Hk]]; eauto. }
    rewrite <- Hpj in He. rewrite <- Hpk in He'. by eapply Hd.
Qed.

Lemma sign_step_ok (laws : CryptoLaws) st hs rs i h request fresh h' r :
  system_ok (MkSystem st hs) rs -> hs !! i = Some h -> unused (MkSystem st hs) (fresh_id fresh) ->
  attempt_sign runtime_key st h request fresh = (h', r) -> system_ok (MkSystem st (<[i := h']> hs)) rs.
Proof.
  intros (Hst & Hhs & Hd) Hi [Hu1 Hu2] Ha. cbn [sy_store sy_handles] in *.
  destruct (attempt_sign_ok laws _ _ _ _ _ _ _ (Hhs _ _ Hi) Hu1 Ha) as [Hh' Hpend].
  split; [done|]. split; cbn [sy_store sy_handles].
  - intros j hj [[<- <-]|[_ Hj]]%lookup_insert_Some; eauto.
  - destruct Hpend as [->|(entry & expected & Hid & Hp)]; [by rewrite insert_id|].
    assert (forall j hj key e x, <[i := h']> hs !! j = Some hj -> hd_pending hj !! key = Some (e, x) ->
      (j = i /\ key = request_key request /\ e_id e = fresh_id fresh) \/
      (exists hj0, hs !! j = Some hj0 /\ hd_pending hj0 !! key = Some (e, x) /\ e_id e <> fresh_id fresh)) as Hcase.
    { intros j hj key e x [[<- <-]|[_ Hj]]%lookup_insert_Some He.
      - rewrite Hp in He. apply lookup_insert_Some in He as [[<- [= <- <-]]|[_ He]]; [by left|].
        right. exists h. split; [done|]. split; [done|]. by eapply Hu2.
      - right. exists hj. split; [done|]. split; [done|]. by eapply Hu2. }
    intros j k hj hk key key' e e' x x' Hj Hk He He' Heq.
    destruct (Hcase _ _ _ _ _ Hj He) as [(-> & -> & Hf)|(hj0 & Hj0 & He0 & Hf)],
             (Hcase _ _ _ _ _ Hk He') as [(-> & -> & Hf')|(hk0 & Hk0 & He0' & Hf')]; try congruence.
    + by split.
    + by eapply Hd.
Qed.

Lemma commit_step_ok st hs rs i h key st' h' r :
  system_ok (MkSystem st hs) rs -> hs !! i = Some h -> attempt_commit st h key = (st', h', r) ->
  system_ok (MkSystem st' (<[i := h']> hs)) rs.
Proof.
  intros (Hst & Hhs & Hd) Hi Ha. cbn [sy_store sy_handles] in *.
  destruct (attempt_commit_ok _ _ _ _ _ _ _ Hst (Hhs _ _ Hi)
              (fun key1 key2 e1 e2 x1 x2 H1 H2 Heq => proj2 (Hd i i h h key1 key2 e1 e2 x1 x2 Hi Hi H1 H2 Heq)) Ha)
    as (Hst' & Hh' & Hpend & Hothers).
  split; [done|]. split; cbn [sy_store sy_handles].
  - intros j hj Hj. apply lookup_insert_Some in Hj as [[<- <-]|[Hne Hj]]; [done|].
    apply Hothers; [eauto|]. intros key2 e e2 x x2 He He2 Heq. apply Hne.
    by destruct (Hd i j h hj key key2 e e2 x x2 Hi Hj He He2 Heq).
  - assert (forall j hj key0 e x, <[i := h']> hs !! j = Some hj -> hd_pending hj !! key0 = Some (e, x) ->
      exists hj0, hs !! j = Some hj0 /\ hd_pending hj0 !! key0 = Some (e, x)) as Hcase.
    { intros j hj key0 e x [[<- <-]|[_ Hj]]%lookup_insert_Some He; [|eauto].
      rewrite Hpend in He. apply lookup_delete_Some in He as [_ He]. eauto. }
    intros j k hj hk key1 key2 e e' x x' Hj Hk He He' Heq.
    destruct (Hcase _ _ _ _ _ Hj He) as (hj0 & Hj0 & He0), (Hcase _ _ _ _ _ Hk He') as (hk0 & Hk0 & He0').
    by eapply Hd.
Qed.

Lemma step_preserves (laws : CryptoLaws) sys sys' rs :
  system_ok sys rs -> step sys sys' -> exists rs', rs `prefix_of` rs' /\ system_ok sys' rs'.
Proof.
  intros Hok Hstep. destruct Hstep as
    [st hs i Hi|st hs i|st hs i h request fresh h' r Hi _ Hu Ha|st hs i h key st' h' r Hi Ha
    |st hs i h config now st' h' r Hi Hrole Ha|st hs i h new_key now st' h' r Hi Ha].
  - exists rs. split; [done|]. destruct Hok as (Hst & Hhs & Hd). split; [done|]. split; cbn in *.
    + intros j hj [[<- <-]|[_ Hj]]%lookup_insert_Some; eauto. by split.
    + intros j k hj hk key key' e e' x x' [[<- <-]|[_ Hj]]%lookup_insert_Some; [done|].
      intros [[<- <-]|[_ Hk]]%lookup_insert_Some; [done|]. by eapply Hd.
  - exists rs. split; [done|]. destruct Hok as (Hst & Hhs & Hd). split; [done|]. split; cbn in *.
    + intros j hj [_ Hj]%lookup_delete_Some. eauto.
    + intros j k hj hk key key' e e' x x' [_ Hj]%lookup_delete_Some [_ Hk]%lookup_delete_Some. by eapply Hd.
  - exists rs. split; [done|]. by eapply sign_step_ok.
  - exists rs. split; [done|]. by eapply commit_step_ok.
  - destruct (enable_store_ok _ _ _ _ _ _ _ _ (proj1 Hok) Hrole Ha) as (rs' & Hpre & Hst' & Hch & Hh').
    exists rs'. split; [done|]. by eapply registry_step_ok.
  - pose proof (proj1 (proj2 Hok) _ _ Hi) as Hh.
    destruct (rotate_store_ok _ _ _ _ _ _ _ _ (proj1 Hok) Hh Ha) as (rs' & Hpre & Hst' & Hch & Hh').
    exists rs'. split; [done|]. by eapply registry_step_ok.
Qed.

Lemma initial_ok : system_ok initial [].
Proof.
  split; [|split].
  - split; [done|by left|done|intros key; constructor|]. intros key e. by rewrite elem_of_nil.
  - done.
  - intros i j hi hj key key' e e' x x' Hi. done.
Qed.

Lemma reachable_ok (laws : CryptoLaws) sys : rtc step initial sys -> exists rs, system_ok sys rs.
Proof.
  intros Hr. cut (exists rs, system_ok initial rs); [|exists []; apply initial_ok].
  induction Hr as [|sys1 sys2 sys3 Hstep _ IH]; [done|]. intros [rs Hok]. apply IH.
  destruct (step_preserves laws _ _ _ Hok Hstep) as (rs' & _ & Hok'). by exists rs'.
Qed.


(** ** Append only *)

Lemma append_if_head_prefix st entry expected key :
  chain_of st key `prefix_of` chain_of (append_if_head st entry expected).1 key.
Proof.
  unfold append_if_head. destruct (check_registry_state _ _); [|done]. case_bool_decide; [|done].
  cbn [fst]. rewrite chain_of_insert. case_decide as Hk; [subst; by apply prefix_app_r|done].
Qed.

Lemma insert_record_keeps st r n x :
  st_registry st !! n = Some x -> st_registry (insert_key_registry_record st r).1 !! n = Some x.
Proof.
  unfold insert_key_registry_record. destruct (st_registry st !! kr_seq r) eqn:Hs; [done|]. cbn.
  intros Hn. rewrite lookup_insert_ne; [done|]. congruence.
Qed.

Lemma insert_record_chains st r : st_chains (insert_key_registry_record st r).1 = st_chains st.
Proof. unfold insert_key_registry_record. by destruct (st_registry st !! kr_seq r). Qed.

(** What a step may do to the store. *)
Definition store_grows (st st' : AuditStore) : Prop :=
  (forall key, chain_of st key `prefix_of` chain_of st' key) /\
  (forall n r, st_registry st !! n = Some r -> st_registry st' !! n = Some r).

Lemma store_grows_insert st r : store_grows st (insert_key_registry_record st r).1.
Proof.
  split; [|by apply insert_record_keeps]. intros key. unfold chain_of. by rewrite insert_record_chains.
Qed.

Lemma create_grows st config now : store_grows st (create_key_registry st config now).1.
Proof.
  unfold create_key_registry. destruct (genesis_record _ _) as [g|]; [|done].
  pose proof (store_grows_insert st g) as Hg. by destruct (insert_key_registry_record st g) as [st1 []].
Qed.

Lemma enable_grows st h config now : store_grows st (enable_entry_v2 st h config now).1.1.
Proof.
  unfold enable_entry_v2.
  match goal with |- context [let '(_, _) := ?c in _] => destruct c as [st1 loaded] eqn:Hc end.
  assert (store_grows st st1) as Hg.
  { pose proof (create_grows st config now) as Hcreate.
    destruct (load_key_registry st) as [[reg|]|]; [by injection Hc as <- _| |by injection Hc as <- _].
    by rewrite Hc in Hcreate. }
  destruct loaded; [|done]. by case_bool_decide.
Qed.

Lemma rotate_grows st h new_key now : store_grows st (rotate_audit_key st h new_key now).1.1.
Proof.
  unfold rotate_audit_key. destruct (hd_signer h) as [signer|]; [|done].
  destruct (lift_registry _) as [record|]; [|done]. destruct (lift_registry _); [|done].
  pose proof (store_grows_insert st record) as Hg.
  by destruct (insert_key_registry_record st record) as [st1 []].
Qed.

Lemma step_grows sys sys' : step sys sys' -> store_grows (sy_store sys) (sy_store sys').
Proof.
  destruct 1 as [| | |st hs i h key st' h' r Hi Ha|st hs i h config now st' h' r _ _ Ha|st hs i h nk now st' h' r _ Ha];
    cbn [sy_store]; try done.
  - unfold attempt_commit in Ha. destruct (hd_pending h !! key) as [[entry expected]|].
    + destruct (append_if_head st entry expected) as [st1 res] eqn:Happ. injection Ha as <- _ _. split.
      * intros key'. pose proof (append_if_head_prefix st entry expected key') as Hp. by rewrite Happ in Hp.
      * unfold append_if_head in Happ. destruct (check_registry_state _ _); [case_bool_decide|];
          by injection Happ as <- _.
    + by injection Ha as <- _ _.
  - pose proof (enable_grows st h config now) as Hg. by rewrite Ha in Hg.
  - pose proof (rotate_grows st h nk now) as Hg. by rewrite Ha in Hg.
Qed.

(** The store only grows: whatever the handles do, every chain committed
    at one time is a prefix of the same chain later, and a registry record,
    once stored, is never replaced. *)
Theorem log_append_only sys sys' :
  rtc step sys sys' ->
  (forall key, chain_of (sy_store sys) key `prefix_of` chain_of (sy_store sys') key) /\
  (forall n r, st_registry (sy_store sys) !! n = Some r -> st_registry (sy_store sys') !! n = Some r).
Proof.
  induction 1 as [|sys1 sys2 sys3 Hstep _ [IH1 IH2]]; [done|].
  destruct (step_grows _ _ Hstep) as [H1' H2']. split; [|eauto].
  intros key. etrans; [apply H1'|apply IH1].
Qed.

(** ** Appends succeed *)

(** What a request, its draws and the chain must satisfy for signing to succeed. *)
Definition encodable_request (request : EntryRequest) : Prop :=
  is_ok (action_section (rq_action request)) = true /\
  is_ok (authorization_section (rq_authorization request)) = true /\
  is_ok (outcome_section (rq_outcome request)) = true.

Lemma sections_fields entry :
  is_ok (action_section (e_action entry)) = true -> is_ok (authorization_section (e_authorization entry)) = true ->
  is_ok (outcome_section (e_outcome entry)) = true -> is_ok (sections entry) = true.
Proof.
  unfold sections. intros Ha Hz Ho. destruct (action_section _); [|done].
  destruct (authorization_section _); [|done]. by destruct (outcome_section _).
Qed.

Lemma assemble_v2_Ok draft signer id now salt :
  is_ok (action_section (dr_action draft)) = true -> is_ok (authorization_section (dr_authorization draft)) = true ->
  is_ok (outcome_section (dr_outcome draft)) = true -> timestamp_nanos now <> None -> dr_seq draft <> 0%N ->
  exists entry, assemble_v2 draft signer id now salt = Ok entry /\ e_action entry = dr_action draft /\
    e_authorization entry = dr_authorization draft /\ e_outcome entry = dr_outcome draft.
Proof.
  intros Ha Hz Ho Ht Hs. unfold assemble_v2. rewrite bool_decide_false by done.
  rewrite (proj2 (N.eqb_neq _ _)) by done. cbv zeta. set (e := MkAuditEntry _ _ _ _ _ _ _ _ _ _ _ _).
  pose proof (sections_fields e Ha Hz Ho) as Hsec. unfold v2_entry_hash, body_bytes, body_item.
  destruct (sections e); [|done]. cbn [rbind]. by eexists.
Qed.

(** Positions of the chain the signer can follow. *)
Definition followable (reg : KeyRegistry) (previous : option AuditEntry) : Prop :=
  forall p seal, previous = Some p -> e_v2 p = Some seal ->
    (s_key_epoch seal <= head_seq reg)%N /\ (s_seq seal < U64_MAX)%N.

Lemma sign_entry_Ok signer request previous fresh :
  encodable_request request -> timestamp_nanos (fresh_now fresh) <> None ->
  followable (vs_registry signer) previous ->
  exists entry,
    sign_entry runtime_key (Some signer) request (previous_hash_of previous) (previous ≫= position_of) fresh = Ok entry /\
    e_action entry = rq_action request /\ e_authorization entry = rq_authorization request /\
    e_outcome entry = rq_outcome request /\
    exists seal, e_v2 entry = Some seal /\ s_key_epoch seal = head_seq (vs_registry signer).
Proof.
  intros (Ha & Hz & Ho) Ht Hf. unfold sign_entry.
  assert (match previous ≫= position_of with
          | Some head => (head_seq (vs_registry signer) <? p_key_epoch head)%N
          | None => false end = false) as ->.
  { destruct previous as [p|]; [|done]. cbn. unfold position_of. destruct (e_v2 p) as [seal|] eqn:Hv; [|done].
    destruct (Hf _ _ eq_refl Hv) as [He _]. cbn. by apply N.ltb_ge. }
  match goal with |- context [rbind ?c _] => assert (exists seq, c = Ok seq /\ seq <> 0%N) as (seq & -> & Hs) end.
  { destruct previous as [p|]; [|by exists 1%N]. cbn. unfold position_of.
    destruct (e_v2 p) as [seal|] eqn:Hv; [|by exists 1%N]. cbn. case_bool_decide; [|by exists 1%N].
    destruct (Hf _ _ eq_refl Hv) as [_ Hq]. exists (s_seq seal + 1)%N. split; [|lia].
    apply ok_or_Ok, checked_add_Some. lia. }
  cbn [rbind].
  match goal with |- context [assemble_v2 ?d ?k ?i ?n ?s] =>
    destruct (assemble_v2_Ok d k i n s) as (entry & Has & Hact & Haut & Hout); [done..|] end.
  exists entry. split; [exact Has|]. do 3 (split; [done|]).
  apply assemble_v2_fields in Has as (Hv & _). by eexists.
Qed.

Lemma chain_followable st rs reg key previous :
  store_ok st rs -> from_records rs = Ok reg ->
  (forall e seal, e ∈ chain_of st key -> e_v2 e = Some seal -> (s_seq seal < U64_MAX)%N) ->
  (forall p, previous = Some p -> p ∈ chain_of st key) -> followable reg previous.
Proof.
  intros Hst Hr Hseq Hin p seal -> Hv. specialize (Hin _ eq_refl). split; [|by eapply Hseq].
  apply list_elem_of_lookup in Hin as [i Hi]. pose proof (sk_valid _ _ Hst key) as [_ Hrun]%valid_true.
  rewrite (registry_of_ok _ _ Hr) in Hrun. pose proof (run_v2_good _ _ _ _ _ Hrun Hi Hv) as Hgood.
  pose proof (vg_active _ _ _ _ Hgood) as Ha. by apply is_active_line in Ha as [? _].
Qed.

Lemma check_registry_state_current st entry seal :
  e_v2 entry = Some seal -> (s_key_epoch seal < U64_MAX)%N ->
  st_registry st !! (s_key_epoch seal + 1)%N = None -> check_registry_state st [entry] = Ok tt.
Proof.
  intros Hv Hle Hn. unfold check_registry_state. cbn [existsb omap list_omap]. rewrite Hv. cbn -[check_epoch_current].
  assert (check_epoch_current st (s_key_epoch seal) = Ok tt) as Hc.
  { unfold check_epoch_current. rewrite (proj2 (checked_add_Some _ _ _ (s_key_epoch seal + 1))) by lia.
    unfold registry_record_exists. rewrite Hn. by rewrite bool_decide_false by (intros [? ?]; done). }
  apply try_for_Ok. apply Forall_singleton. exact Hc.
Qed.

(** One attempt of a handle whose registry is the stored one: it commits, or
    leaves everything as it was with the cached head dropped. *)
Lemma attempt_current (laws : CryptoLaws) st rs h signer request fresh :
  store_ok st rs -> handle_ok st rs h -> hd_signer h = Some signer -> from_records rs = Ok (vs_registry signer) ->
  (head_seq (vs_registry signer) < U64_MAX)%N ->
  (forall e seal, e ∈ chain_of st (request_key request) -> e_v2 e = Some seal -> (s_seq seal < U64_MAX)%N) ->
  encodable_request request -> timestamp_nanos (fresh_now fresh) <> None ->
  exists entry h' st' h'' b,
    attempt_sign runtime_key st h request fresh = (h', Ok entry) /\
    attempt_commit st h' (request_key request) = (st', h'', Ok b) /\
    e_id entry = fresh_id fresh /\ e_action entry = rq_action request /\
    e_authorization entry = rq_authorization request /\ e_outcome entry = rq_outcome request /\
    (if b then chain_of st' (request_key request) = chain_of st (request_key request) ++ [entry]
     else st' = st /\ h'' = MkHandle (Some signer) (delete (request_key request) (hd_heads h))
                              (delete (request_key request) (hd_pending h))) /\
    (hd_heads h !! request_key request = None -> b = true).
Proof.
  intros Hst Hh Hsg Hr Hhead Hseq Hreq Ht. unfold attempt_sign.
  destruct (previous_hash_locked _ _ _) as [[expected hash] position] eqn:Hp.
  destruct (previous_hash_locked_ok _ _ _ _ _ _ _ Hh Hp) as (previous & -> & -> & -> & Hin).
  pose proof (chain_followable _ _ _ _ _ Hst Hr Hseq Hin) as Hf. rewrite Hsg.
  destruct (sign_entry_Ok signer request previous fresh Hreq Ht Hf)
    as (entry & Hs & Hact & Haut & Hout & seal & Hv & Hepoch).
  assert (forall s, Some signer = Some s -> signer_ok rs s) as Hsok
    by (intros s [= <-]; by apply (ho_signer _ _ _ Hh)).
  destruct (sign_entry_ok laws rs _ _ _ _ _ Hsok Hs) as (Hkey & Hid & Hsig).
  assert (check_registry_state st [entry] = Ok tt) as Hstate.
  { apply (check_registry_state_current _ _ _ Hv); [by rewrite Hepoch|].
    rewrite Hepoch, (sk_registry _ _ Hst). apply lookup_ge_None_2. pose proof (from_records_head _ _ Hr). lia. }
  rewrite Hs. unfold attempt_commit, append_if_head.
  destruct (decide (e_id <$> chain_head st (request_key request) = e_id <$> previous)) as [Hhd|Hhd];
    do 5 eexists; (split; [done|]); cbn [hd_pending]; rewrite lookup_insert_eq, Hkey, Hstate.
  - rewrite bool_decide_true by done. split; [reflexivity|]. do 4 (split; [done|]). split; [|done].
    rewrite chain_of_insert. by rewrite decide_True.
  - rewrite bool_decide_false by done. split; [reflexivity|]. do 4 (split; [done|]). split.
    + cbn. split; [done|]. by rewrite delete_insert_eq.
    + intros Hnone. destruct Hhd. rewrite Hnone in Hp. unfold previous_hash_locked in Hp.
      destruct (chain_head st (request_key request)) as [e|]; by injection Hp.
Qed.

End System.

(** ** Example

    One handle enables format v2 on an empty store and appends an entry. *)
Module LogExamples.
  Import RegistryExamples EntryExamples.
  #[local] Existing Instance toy_crypto.
  #[local] Existing Instance toy_serde.

Definition runtime : KeyPair := key 9.
Definition config : EntryV2Config :=
  MkEntryV2Config (key 1) [(Capability, runtime); (Build, runtime); (AuditV1, runtime)] None.
Definition request : EntryRequest := MkEntryRequest (uuid 5) (Some "alice") None 1 tt (Success None).
Definition draw (n : nat) : Fresh := MkFresh (uuid (N.of_nat (200 + n))) example_time (key 77).

Definition empty_store : AuditStore := MkAuditStore ∅ ∅.
Definition enabled := enable_entry_v2 empty_store open_handle config example_time.
Definition store1 : AuditStore := enabled.1.1.
Definition handle1 : Handle := enabled.1.2.
Definition signed := attempt_sign runtime store1 handle1 request (draw 0).
Definition committed := attempt_commit store1 signed.1 (request_key request).

Definition sys1 : System := MkSystem store1 (<[0 := handle1]> (<[0 := open_handle]> ∅)).
Definition sys2 : System := MkSystem committed.1.1
  (<[0 := committed.1.2]> (<[0 := signed.1]> (<[0 := handle1]> (<[0 := open_handle]> ∅)))).

Lemma pair_eta {A B} (p : A * B) : p = (p.1, p.2).
Proof. by destruct p. Qed.

Lemma triple_eta {A B C} (p : A * B * C) : p = (p.1.1, p.1.2, p.2).
Proof. by destruct p as [[? ?] ?]. Qed.

Lemma handle1_pending : hd_pending handle1 = ∅.
Proof. vm_compute. reflexivity. Qed.

Lemma store1_chains : st_chains store1 = ∅.
Proof. vm_compute. reflexivity. Qed.

Lemma trace1 : rtc (step runtime) initial sys1.
Proof.
  eapply rtc_l; [apply (step_open runtime (MkAuditStore ∅ ∅) ∅ 0); reflexivity|].
  eapply rtc_l; [|apply rtc_refl].
  apply (step_enable runtime empty_store _ 0 open_handle config example_time _ _ enabled.2).
  - reflexivity.
  - apply list_elem_of_In. right. right. left. reflexivity.
  - exact (triple_eta enabled).
Qed.

Lemma trace2 : rtc (step runtime) sys1 sys2.
Proof.
  eapply rtc_l; [apply (step_sign runtime store1 _ 0 handle1 request (draw 0) signed.1 signed.2)|].
  - reflexivity.
  - by rewrite handle1_pending.
  - split.
    + intros k e. unfold chain_of. cbn [sy_store]. rewrite store1_chains. by rewrite elem_of_nil.
    + intros i h k e x. cbn [sy_handles]. rewrite insert_insert_eq.
      intros [[_ <-]|[_ ?]]%lookup_insert_Some; [by rewrite handle1_pending|done].
  - exact (pair_eta signed).
  - eapply rtc_l; [|apply rtc_refl].
    apply (step_commit runtime store1 _ 0 signed.1 (request_key request) _ _ committed.2).
    + reflexivity.
    + exact (triple_eta committed).
Qed.


Lemma log_append_only_witness :
  chain_of (sy_store sys1) (request_key request) `prefix_of` chain_of (sy_store sys2) (request_key request).
Proof. apply (log_append_only runtime sys1 sys2). exact trace2. Defined.

Definition signer1 : V2Signer :=
  default (MkV2Signer runtime (MkKeyRegistry [] [] []) None) (hd_signer handle1).

Lemma default_eta {A} (d : A) (o : option A) : bool_decide (is_Some o) = true -> o = Some (default d o).
Proof. by destruct o. Qed.


(** The entry the trace commits is the chain's one format-v2 entry. *)
Lemma sys2_chain : length (chain_of (sy_store sys2) (request_key request)) = 1.
Proof. vm_compute. reflexivity. Qed.
End LogExamples.
