(* ===== verification/AuditStorage.v ===== *)
(** * Durable storage of the audit log

    [crates/astrid-audit/src/storage.rs] and, under [storage/], [append.rs]
    (one entry at a time, under an append intent), [append_batch.rs] (one
    atomic batch), [key_types.rs], [helpers.rs], [metadata.rs], [global.rs],
    [key_registry.rs] and [retention_hold.rs].

    The store is any backend of [KvStore].  Everything runs under the
    process-wide [DURABLE_APPEND_LOCK], so an operation sees no other writer;
    a write of the backend may fail, having happened or not, and then the
    operation returns with the store as it is.  The JSON codec is the class
    [StorageCodec].  The order in which a hash map yields its entries is the
    class [BatchIteration].  Encoding the two metadata records cannot fail:
    they hold integers, booleans, texts and identifiers. *)

From stdpp Require Import sorting pretty.
From S2P Require Import Prelude Kv Bytes Cbor Crypto KeyRegistry AuditEntry AuditChain AuditLog.
From Stdlib Require Import Ascii.
Local Open Scope string_scope.
Local Open Scope list_scope.

Definition NS_ENTRIES : string := "audit:entries".
Definition NS_SESSION_INDEX : string := "audit:session_index".
Definition NS_SESSION_ENTRIES : string := "audit:session_entries".
Definition NS_SESSION_SEQUENCE : string := "audit:session_sequence".
Definition NS_CHAIN_HEADS : string := "audit:chain_heads".
Definition NS_CHAIN_METADATA : string := "audit:chain_metadata".
Definition NS_COMMITTED_ENTRIES : string := "audit:committed_entries".
Definition NS_APPEND_INTENTS : string := "audit:append_intents".
Definition NS_GLOBAL_METADATA : string := "audit:global_metadata".
Definition NS_SEGMENT_INDEX : string := "audit:segment_index".
Definition NS_KEY_REGISTRY : string := "audit:key_registry".
Definition DEFAULT_SEGMENT_MAX_ENTRIES : N := 1024.
Definition DEFAULT_SEGMENT_MAX_BYTES : N := 8 * 1024 * 1024.
Definition APPEND_INTENT_KEY : string := "current".
Definition GLOBAL_KEY : string := "current".

(** The one-byte value [vec![1]]. *)
Definition MARK : string := String "001" "".

(** ** Keys and sequence numbers ([key_types.rs], [helpers.rs]) *)

(** [byte == 0 || byte.is_ascii_control()]. *)
Definition is_control (a : ascii) : bool := let x := N_of_ascii a in (x <? 32)%N || (x =? 127)%N.

Definition validate_storage_key (value : string) : result unit string :=
  if is_empty value then Err "audit storage key cannot be empty"
  else if (4096 <? str_len value)%N then Err "audit storage key exceeds its bounded length"
  else if negb (str_all (fun a => negb (is_control a)) value)
  then Err "audit storage key contains a control character"
  else Ok tt.

(** [new] of the four types [key_type!] declares; a key is its text. *)
Definition key_new (value : string) : AuditResult string :=
  let? _ := map_err StorageError (validate_storage_key value) in Ok value.

(** [SessionSequence] and its durable encoding. *)
Definition checked_next (sequence : N) : result N string :=
  ok_or (checked_add U64_MAX sequence 1) "audit session sequence exhausted".
Definition sequence_bytes (sequence : N) : string := of_bytes (to_be_bytes 8 sequence).
Definition sequence_from_bytes (bytes : string) : result N string :=
  if (str_len bytes =? 8)%N then Ok (from_be_bytes (as_bytes bytes))
  else Err "invalid audit session sequence encoding".

Definition parse_sequence (bytes : string) : AuditResult N := map_err StorageError (sequence_from_bytes bytes).

(** [{:020}]: a [u64] has at most twenty decimal digits. *)
Fixpoint decimal (width : nat) (n : N) : string :=
  match width with
  | O => EmptyString
  | S width => String (ascii_of_N (48 + n / 10 ^ N.of_nat width)) (decimal width (n mod 10 ^ N.of_nat width))
  end.
Definition pad20 (n : N) : string := decimal 20 n.
#[global] Arguments pad20 : simpl never.

Definition chain_head_key `{UuidText} (session_id : Uuid) (principal : option string) : string :=
  match principal with
  | Some p => uuid_to_string session_id +:+ ":" +:+ p
  | None => uuid_to_string session_id
  end.

Definition session_index_key (session_key : string) (sequence : N) (entry_key : string) : string :=
  session_key +:+ ":" +:+ pad20 sequence +:+ ":" +:+ entry_key.

Definition segment_index_key (ordinal : N) (chain_key : string) (segment : N) : string :=
  pad20 ordinal +:+ ":" +:+ chain_key +:+ ":" +:+ pad20 segment.

(** ** Accounting records ([metadata.rs], [global.rs]) *)

Record ChainMetadata : Type := MkChainMetadata {
  cm_schema : N;
  cm_segment : N;
  cm_sealed : bool;
  cm_count : N;
  cm_bytes : N;
  cm_head : option Uuid;
  cm_head_hash : ContentHash;
  cm_segment_count : N;
  cm_segment_bytes : N;
  cm_segment_first : option Uuid;
  cm_seal_ordinal : option N;
  cm_omitted_total : option N;
  cm_omitted_generation : option N;
}.

Definition ChainMetadata_default : ChainMetadata :=
  MkChainMetadata 0 0 false 0 0 None ContentHash_zero 0 0 None None None None.

Record GlobalMetadata : Type := MkGlobalMetadata {
  gm_schema : N;
  gm_total_count : N;
  gm_total_bytes : N;
  gm_sealed_segments : N;
  gm_segments : N;
  gm_eligible_segments : N;
  gm_next_seal_ordinal : N;
  gm_cap_entries : N;
  gm_cap_bytes : N;
  gm_degraded : bool;
  gm_last_error : option string;
  gm_retention_hold : option string;
}.

Definition DEFAULT_GLOBAL_MAX_ENTRIES : N := 1000000.
Definition DEFAULT_GLOBAL_MAX_BYTES : N := 1024 * 1024 * 1024.
Definition GlobalMetadata_default : GlobalMetadata :=
  MkGlobalMetadata 1 0 0 0 0 0 0 DEFAULT_GLOBAL_MAX_ENTRIES DEFAULT_GLOBAL_MAX_BYTES false None None.

#[export] Instance ChainMetadata_eq_dec : EqDecision ChainMetadata.
Proof. solve_decision. Defined.
#[export] Instance GlobalMetadata_eq_dec : EqDecision GlobalMetadata.
Proof. solve_decision. Defined.

Definition with_next_seal_ordinal (g : GlobalMetadata) (ordinal : N) : GlobalMetadata :=
  MkGlobalMetadata (gm_schema g) (gm_total_count g) (gm_total_bytes g) (gm_sealed_segments g) (gm_segments g)
    (gm_eligible_segments g) ordinal (gm_cap_entries g) (gm_cap_bytes g) (gm_degraded g) (gm_last_error g)
    (gm_retention_hold g).
Definition with_status (g : GlobalMetadata) (degraded : bool) (last_error : option string) : GlobalMetadata :=
  MkGlobalMetadata (gm_schema g) (gm_total_count g) (gm_total_bytes g) (gm_sealed_segments g) (gm_segments g)
    (gm_eligible_segments g) (gm_next_seal_ordinal g) (gm_cap_entries g) (gm_cap_bytes g) degraded last_error
    (gm_retention_hold g).
Definition with_hold (g : GlobalMetadata) (hold : option string) : GlobalMetadata :=
  MkGlobalMetadata (gm_schema g) (gm_total_count g) (gm_total_bytes g) (gm_sealed_segments g) (gm_segments g)
    (gm_eligible_segments g) (gm_next_seal_ordinal g) (gm_cap_entries g) (gm_cap_bytes g) (gm_degraded g)
    (gm_last_error g) hold.
Definition with_totals (g : GlobalMetadata) (count bytes sealed segments eligible : N) : GlobalMetadata :=
  MkGlobalMetadata (gm_schema g) count bytes sealed segments eligible (gm_next_seal_ordinal g)
    (gm_cap_entries g) (gm_cap_bytes g) (gm_degraded g) (gm_last_error g) (gm_retention_hold g).

(** [total_count > cap_entries || total_bytes > cap_bytes]. *)
Definition over_cap (g : GlobalMetadata) : bool :=
  (gm_cap_entries g <? gm_total_count g)%N || (gm_cap_bytes g <? gm_total_bytes g)%N.

(** ** Advancing a chain

    [advance_chain] of [append.rs] and [next_chain_metadata] of
    [append_batch.rs] build the same record. *)
Section Advance.
  Context `{Crypto, AuditSerde}.

Definition prior_segment_count (prior : ChainMetadata) : N :=
  if (cm_segment_count prior =? 0)%N && (0 <? cm_count prior)%N then cm_count prior else cm_segment_count prior.
Definition prior_segment_bytes (prior : ChainMetadata) : N :=
  if (cm_segment_bytes prior =? 0)%N && (0 <? cm_bytes prior)%N then cm_bytes prior else cm_segment_bytes prior.
Definition next_segment_count (prior : ChainMetadata) : N :=
  if cm_sealed prior then 1%N else sat_add U64_MAX (prior_segment_count prior) 1.
Definition next_segment_bytes (prior : ChainMetadata) (entry_bytes : N) : N :=
  if cm_sealed prior then entry_bytes else sat_add U64_MAX (prior_segment_bytes prior) entry_bytes.
Definition seals (prior : ChainMetadata) (entry_bytes : N) : bool :=
  (DEFAULT_SEGMENT_MAX_ENTRIES <=? next_segment_count prior)%N
  || (DEFAULT_SEGMENT_MAX_BYTES <=? next_segment_bytes prior entry_bytes)%N.

Definition advance_chain (entry : AuditEntry) (prior : ChainMetadata) (entry_bytes : N) (global : GlobalMetadata)
    : ChainMetadata * GlobalMetadata :=
  let sealed := seals prior entry_bytes in
  let global := if sealed
                then with_next_seal_ordinal global (sat_add U64_MAX (gm_next_seal_ordinal global) 1)
                else global in
  (MkChainMetadata 1
     (if cm_sealed prior then sat_add U64_MAX (cm_segment prior) 1 else cm_segment prior)
     sealed
     (sat_add U64_MAX (cm_count prior) 1)
     (sat_add U64_MAX (cm_bytes prior) entry_bytes)
     (Some (e_id entry))
     (content_hash entry)
     (next_segment_count prior)
     (next_segment_bytes prior entry_bytes)
     (if cm_sealed prior then Some (e_id entry)
      else match cm_segment_first prior with Some first => Some first | None => Some (e_id entry) end)
     (if sealed then Some (gm_next_seal_ordinal global)
      else if cm_sealed prior then None else cm_seal_ordinal prior)
     (cm_omitted_total prior)
     (cm_omitted_generation prior),
   global).

(** [account_global_append] of [append.rs]. *)
Definition account_global_append (global : GlobalMetadata) (prior next : ChainMetadata) (entry_bytes : N)
    : GlobalMetadata :=
  let newly_sealed := cm_sealed next && negb (cm_sealed prior) in
  let count_one (b : bool) (n : N) := if b then sat_add U64_MAX n 1 else n in
  let global := with_totals global (sat_add U64_MAX (gm_total_count global) 1)
                  (sat_add U64_MAX (gm_total_bytes global) entry_bytes)
                  (count_one newly_sealed (gm_sealed_segments global))
                  (count_one ((cm_count prior =? 0)%N || cm_sealed prior) (gm_segments global))
                  (count_one newly_sealed (gm_eligible_segments global)) in
  let global := if newly_sealed then with_hold global None else global in
  with_status global (over_cap global) (if over_cap global then gm_last_error global else None).

(** [update_global_metadata] of [append_batch.rs]. *)
Definition update_global_metadata (global : GlobalMetadata) (prior next : ChainMetadata) (entry_bytes : N)
    : GlobalMetadata :=
  let count_one (b : bool) (n : N) := if b then sat_add U64_MAX n 1 else n in
  let global := with_totals global (sat_add U64_MAX (gm_total_count global) 1)
                  (sat_add U64_MAX (gm_total_bytes global) entry_bytes)
                  (count_one (cm_sealed next) (gm_sealed_segments global))
                  (count_one ((cm_count prior =? 0)%N || cm_sealed prior) (gm_segments global))
                  (count_one (cm_sealed next) (gm_eligible_segments global)) in
  if cm_sealed next then with_hold global None else global.

(** ** The append intent *)

Record AppendIntent : Type := MkAppendIntent {
  i_entry : AuditEntry;
  i_head_key : string;
  i_session_sequence_key : string;
  i_expected_session_sequence : option string;
  i_next_session_sequence : string;
  i_session_index_key : string;
  i_expected_head : option string;
  i_expected_metadata : option string;
  i_next_metadata : ChainMetadata;
  i_expected_global : option string;
  i_next_global : GlobalMetadata;
  i_segment_key : option string;
}.

(** What [Deserialize] of an intent checks: its keys and its sequences. *)
Definition intent_well_typed (i : AppendIntent) : bool :=
  forallb (fun key => is_ok (validate_storage_key key))
    ([i_head_key i; i_session_sequence_key i; i_session_index_key i] ++ option_list (i_segment_key i))
  && forallb (fun bytes => (str_len bytes =? 8)%N)
       (i_next_session_sequence i :: option_list (i_expected_session_sequence i)).
End Advance.
#[global] Arguments advance_chain : simpl never.
#[global] Arguments account_global_append : simpl never.
#[global] Arguments update_global_metadata : simpl never.

(** [serde_json] on the stored records; [ids_from_slice] reads the legacy
    per-session index. *)
Class StorageCodec `{AuditSerde} : Type := {
  entry_to_vec : AuditEntry -> result string string;
  entry_from_slice : string -> result AuditEntry string;
  metadata_to_vec : ChainMetadata -> string;
  metadata_from_slice : string -> result ChainMetadata string;
  global_to_vec : GlobalMetadata -> string;
  global_from_slice : string -> result GlobalMetadata string;
  intent_to_vec : AppendIntent -> result string string;
  intent_from_slice : string -> result AppendIntent string;
  ids_from_slice : string -> result (list Uuid) string;
}.

Class StorageCodecLaws `{StorageCodec} : Prop := {
  entry_roundtrip e v : entry_to_vec e = Ok v -> entry_from_slice v = Ok e;
  metadata_roundtrip md : metadata_from_slice (metadata_to_vec md) = Ok md;
  global_roundtrip g : global_from_slice (global_to_vec g) = Ok g;
  intent_roundtrip i v : intent_well_typed i = true -> intent_to_vec i = Ok v -> intent_from_slice v = Ok i;
}.

(** [StorageError]'s [Display], as [AuditError::StorageError] wraps it. *)
Definition storage_error_text (e : Kv.StorageError) : string :=
  match e with
  | NotFound msg => "not found: " +:+ msg
  | Internal msg => "storage error: " +:+ msg
  | Connection msg => "connection error: " +:+ msg
  | Serialization msg => "serialization error: " +:+ msg
  | InvalidKey msg => "invalid key: " +:+ msg
  end.
Definition kv_failed (e : Kv.StorageError) : AuditError := StorageError (storage_error_text e).

Section Storage.
  Context {S : Type} `{KvStore S} `{Crypto} `{AuditSerde} `{UuidText} `{!StorageCodec}.

(** ** Calls of the store *)

Abbreviation storage A := (eff S AuditError A).

Definition st_get (s : S) (ns key : string) : AuditResult (option string) := map_err kv_failed (kv_get s ns key).
Definition st_exists (s : S) (ns key : string) : AuditResult bool := map_err kv_failed (kv_exists s ns key).
Definition st_set (ns key value : string) : storage unit :=
  fun s => let '(s', r) := kv_set s ns key value in (s', map_err kv_failed r).
Definition st_cas (ns key : string) (expected : option string) (new : string) : storage bool :=
  fun s => let '(s', r) := kv_compare_and_swap s ns key expected new in (s', map_err kv_failed r).
Definition st_delete (ns key : string) : storage bool :=
  fun s => let '(s', r) := kv_delete s ns key in (s', map_err kv_failed r).

(** A write that must win: [false] is the error [lost]. *)
Definition st_cas_or (ns key : string) (expected : option string) (new : string) (lost : AuditError) : storage unit :=
  do? swapped := st_cas ns key expected new in
  eff_lift (if swapped then Ok tt else Err lost).

(** ** Reads ([storage.rs]) *)

Definition get (s : S) (id : Uuid) : AuditResult (option AuditEntry) :=
  let? data := st_get s NS_ENTRIES (uuid_to_string id) in
  match data with
  | Some bytes => let? entry := map_err SerializationError (entry_from_slice bytes) in Ok (Some entry)
  | None => Ok None
  end.

Definition load_chain_metadata (s : S) (session_id : Uuid) (principal : option string)
    : AuditResult (option string * option ChainMetadata) :=
  let? bytes := st_get s NS_CHAIN_METADATA (chain_head_key session_id principal) in
  match bytes with
  | Some data => let? metadata := map_err SerializationError (metadata_from_slice data) in Ok (bytes, Some metadata)
  | None => Ok (None, None)
  end.

Definition load_global_metadata (s : S) : AuditResult (option string * GlobalMetadata) :=
  let? bytes := st_get s NS_GLOBAL_METADATA GLOBAL_KEY in
  match bytes with
  | Some data => let? metadata := map_err SerializationError (global_from_slice data) in Ok (bytes, metadata)
  | None => Ok (None, GlobalMetadata_default)
  end.

(** [parse_stored_head] of [append_batch.rs], and the tail of
    [get_chain_head]: the stored bytes are the text of a UUID. *)
Definition parse_stored_head (bytes : option string) : AuditResult (option Uuid) :=
  match bytes with
  | None => Ok None
  | Some text =>
      if negb (utf8_valid text) then Err (StorageError "invalid utf-8 sequence")
      else let? id := ok_or (uuid_parse_str text) (StorageError "invalid UUID") in Ok (Some id)
  end.

(** [entry.session_id == session_id && entry.principal == principal]. *)
Definition on_chain (session_id : Uuid) (principal : option string) (entry : AuditEntry) : bool :=
  bool_decide (e_session_id entry = session_id) && bool_decide (e_principal entry = principal).

Definition metadata_head (s : S) (session_id : Uuid) (principal : option string) : AuditResult (option Uuid) :=
  let? loaded := load_chain_metadata s session_id principal in
  match loaded.2 ≫= cm_head with
  | None => Ok None
  | Some head =>
      let? found := get s head in
      Ok (if from_option (on_chain session_id principal) false found then Some head else None)
  end.

Definition get_chain_head (s : S) (session_id : Uuid) (principal : option string) : AuditResult (option Uuid) :=
  let? preferred := metadata_head s session_id principal in
  match preferred with
  | Some head => Ok (Some head)
  | None =>
      let? data := st_get s NS_CHAIN_HEADS (chain_head_key session_id principal) in
      parse_stored_head data
  end.

(** A legacy index that does not parse is an empty one. *)
Definition get_legacy_session_entry_ids (s : S) (session_id : Uuid) : AuditResult (list Uuid) :=
  let? data := st_get s NS_SESSION_INDEX (uuid_to_string session_id) in
  Ok match data with
     | Some bytes => match ids_from_slice bytes with Ok ids => ids | Err _ => [] end
     | None => []
     end.

Definition index_key_id (key : string) : AuditResult Uuid :=
  match rsplit_once ":" key with
  | None => Err (StorageError ("invalid audit session index key: " +:+ key))
  | Some (_, encoded_id) => ok_or (uuid_parse_str encoded_id) (StorageError "invalid UUID")
  end.

(** [keys.sort_unstable()]: a listing holds no key twice. *)
Definition get_committed_session_entry_ids (s : S) (session_id : Uuid) : AuditResult (list Uuid) :=
  let? keys := map_err kv_failed
                 (kv_list_keys_with_prefix s NS_SESSION_ENTRIES (uuid_to_string session_id +:+ ":")) in
  try_map index_key_id (merge_sort String.le keys).

(** [if seen.insert(id) { ids.push(id) }] for each id in turn. *)
Fixpoint unseen (seen : list Uuid) (ids : list Uuid) : list Uuid :=
  match ids with
  | [] => []
  | id :: rest => if bool_decide (id ∈ seen) then unseen seen rest else id :: unseen (id :: seen) rest
  end.

Definition get_session_entry_ids (s : S) (session_id : Uuid) : AuditResult (list Uuid) :=
  let? ids := get_legacy_session_entry_ids s session_id in
  let? committed := get_committed_session_entry_ids s session_id in
  Ok (ids ++ unseen ids committed).

(** The entries of a list of ids that are stored, each with its id. *)
Fixpoint present_entries (s : S) (ids : list Uuid) : AuditResult (list (Uuid * AuditEntry)) :=
  match ids with
  | [] => Ok []
  | id :: rest =>
      let? found := get s id in
      let? entries := present_entries s rest in
      Ok (match found with Some entry => (id, entry) :: entries | None => entries end)
  end.

(** Only a legacy id whose entry is present counts as seen. *)
Definition get_session_entries (s : S) (session_id : Uuid) : AuditResult (list AuditEntry) :=
  let? legacy_ids := get_legacy_session_entry_ids s session_id in
  let? entries := present_entries s legacy_ids in
  let? committed := get_committed_session_entry_ids s session_id in
  let? rest := present_entries s (unseen entries.*1 committed) in
  Ok (entries.*2 ++ rest.*2).

(** ** Registry checks ([key_registry.rs]) *)

Definition record_key (seq : N) : string := "record:" +:+ pad20 seq.

Definition kv_registry_record_exists (s : S) (seq : N) : AuditResult bool :=
  st_exists s NS_KEY_REGISTRY (record_key seq).

Definition kv_check_epoch_current (s : S) (key_epoch : N) : AuditResult unit :=
  let? next := ok_or (checked_add U64_MAX key_epoch 1) (StorageError "audit key epoch exhausted") in
  let? moved_past := kv_registry_record_exists s next in
  if moved_past then Err (StaleAuditKey key_epoch) else Ok tt.

Definition kv_check_v1_open (s : S) : AuditResult unit :=
  let? exists_ := kv_registry_record_exists s 0 in
  if exists_ then Err (V1Closed "the store holds a format-v2 key registry") else Ok tt.

(** [epochs] is a [BTreeSet], which yields its elements in order. *)
Definition kv_check_registry_state (s : S) (entries : list AuditEntry) : AuditResult unit :=
  let v1 := existsb (fun entry => bool_decide (e_v2 entry = None)) entries in
  let epochs := merge_sort N.le (remove_dups (omap (fun entry => s_key_epoch <$> e_v2 entry) entries)) in
  let? _ := if v1 then kv_check_v1_open s else Ok tt in
  try_for (kv_check_epoch_current s) epochs.

Definition kv_check_receipt_signer (s : S) (key_epoch : option N) : AuditResult unit :=
  match key_epoch with
  | None => kv_check_v1_open s
  | Some key_epoch =>
      let? held := kv_registry_record_exists s key_epoch in
      if negb held
      then Err (KeyRegistryMessage ("audit prune receipt names key epoch " +:+ pretty key_epoch
                                    +:+ ", which the registry does not hold"))
      else kv_check_epoch_current s key_epoch
  end.

Definition kv_insert_key_registry_record (seq : N) (bytes : string) : storage bool :=
  st_cas NS_KEY_REGISTRY (record_key seq) None bytes.

(** ** One entry under an intent ([append.rs]) *)

Record Preparation : Type := MkPreparation {
  pr_head_key : string;
  pr_expected_head_bytes : option string;
  pr_metadata_bytes : option string;
  pr_prior : ChainMetadata;
}.

Record GlobalState : Type := MkGlobalState { gs_expected_bytes : option string; gs_metadata : GlobalMetadata }.

Record SessionSequenceWrite : Type := MkSessionSequenceWrite {
  sw_sequence_key : string;
  sw_expected : option string;
  sw_next_sequence : string;
  sw_index_key : string;
}.

Definition write_session_index (intent : AppendIntent) : storage unit :=
  st_set NS_SESSION_ENTRIES (i_session_index_key intent) MARK.

Definition commit_entry_projection (intent : AppendIntent) : storage unit :=
  do? entry_data := eff_lift (map_err SerializationError (entry_to_vec (i_entry intent))) in
  do? _ := st_set NS_ENTRIES (uuid_to_string (e_id (i_entry intent))) entry_data in
  do? sequence_swapped := st_cas NS_SESSION_SEQUENCE (i_session_sequence_key intent)
                            (i_expected_session_sequence intent) (i_next_session_sequence intent) in
  if sequence_swapped then write_session_index intent
  else
    do? current := eff_read (fun s => st_get s NS_SESSION_SEQUENCE (i_session_sequence_key intent)) in
    if bool_decide (current = Some (i_next_session_sequence intent)) then write_session_index intent
    else eff_lift (Err (StorageError "audit append intent conflicts with session sequence")).

Definition mark_committed (intent : AppendIntent) : storage unit :=
  st_set NS_COMMITTED_ENTRIES (uuid_to_string (e_id (i_entry intent))) MARK.

Definition persist_sealed_segment (segment_key : option string) (next : ChainMetadata) : storage unit :=
  match segment_key with
  | None => eff_lift (Ok tt)
  | Some segment_key => st_set NS_SEGMENT_INDEX segment_key (metadata_to_vec next)
  end.

Definition remove_append_intent : storage unit :=
  do? _ := st_delete NS_APPEND_INTENTS APPEND_INTENT_KEY in eff_lift (Ok tt).

Definition recover_cas (ns key : string) (expected : option string) (next : string) : storage unit :=
  do? swapped := st_cas ns key expected next in
  if swapped then eff_lift (Ok tt)
  else
    do? current := eff_read (fun s => st_get s ns key) in
    if bool_decide (current = Some next) then eff_lift (Ok tt)
    else eff_lift (Err (StorageError "durable audit append intent conflicts with canonical state")).

(** The writes of [recover_append_intents] before the intent is removed. *)
Definition recover_writes (intent : AppendIntent) : storage unit :=
  do? _ := commit_entry_projection intent in
  do? _ := mark_committed intent in
  do? next_head := eff_lift (ok_or (uuid_to_string <$> cm_head (i_next_metadata intent))
                               (StorageError "audit append intent lacks a head")) in
  do? _ := recover_cas NS_CHAIN_HEADS (i_head_key intent) (i_expected_head intent) next_head in
  do? _ := recover_cas NS_CHAIN_METADATA (i_head_key intent) (i_expected_metadata intent)
             (metadata_to_vec (i_next_metadata intent)) in
  do? _ := persist_sealed_segment (i_segment_key intent) (i_next_metadata intent) in
  recover_cas NS_GLOBAL_METADATA GLOBAL_KEY (i_expected_global intent) (global_to_vec (i_next_global intent)).

Definition recover_append_intents : storage unit :=
  do? bytes := eff_read (fun s => st_get s NS_APPEND_INTENTS APPEND_INTENT_KEY) in
  match bytes with
  | None => eff_lift (Ok tt)
  | Some bytes =>
      do? intent := eff_lift (map_err SerializationError (intent_from_slice bytes)) in
      do? _ := recover_writes intent in
      do? _ := remove_append_intent in
      eff_lift (Ok tt)
  end.

Definition reconcile_stored_head (head_key : string) (stored expected : option string) : storage bool :=
  if bool_decide (stored = expected) then eff_lift (Ok true)
  else match expected with
       | None => eff_lift (Ok false)
       | Some expected => st_cas NS_CHAIN_HEADS head_key stored expected
       end.

(** The reads of [prepare_append]: the key, the stored head and the metadata. *)
Definition read_chain (s : S) (entry : AuditEntry) (expected : option Uuid)
    : AuditResult (option (string * option string * option string * option ChainMetadata)) :=
  let? current := get_chain_head s (e_session_id entry) (e_principal entry) in
  if negb (bool_decide (current = expected)) then Ok None
  else
    let? head_key := key_new (chain_head_key (e_session_id entry) (e_principal entry)) in
    let? stored_head := st_get s NS_CHAIN_HEADS head_key in
    let? loaded := load_chain_metadata s (e_session_id entry) (e_principal entry) in
    let '(metadata_bytes, metadata) := loaded in
    match metadata ≫= cm_head with
    | Some head => if negb (bool_decide (Some head = expected)) then Ok None
                   else Ok (Some (head_key, stored_head, metadata_bytes, metadata))
    | None => Ok (Some (head_key, stored_head, metadata_bytes, metadata))
    end.

Definition prepare_append (entry : AuditEntry) (expected : option Uuid) : storage (option Preparation) :=
  do? chain := eff_read (fun s => read_chain s entry expected) in
  match chain with
  | None => eff_lift (Ok None)
  | Some (head_key, stored_head, metadata_bytes, metadata) =>
      let expected_head_bytes := uuid_to_string <$> expected in
      do? reconciled := reconcile_stored_head head_key stored_head expected_head_bytes in
      eff_lift (Ok (if reconciled
                    then Some (MkPreparation head_key expected_head_bytes metadata_bytes
                                 (default ChainMetadata_default metadata))
                    else None))
  end.

Definition serialized_len (entry : AuditEntry) : AuditResult N :=
  let? bytes := map_err SerializationError (entry_to_vec entry) in Ok (str_len bytes).

Definition persist_global_metadata (expected : option string) (metadata : GlobalMetadata) : storage bool :=
  st_cas NS_GLOBAL_METADATA GLOBAL_KEY expected (global_to_vec metadata).

Definition CAP_REACHED : string := "system audit retention cap reached; prune sealed segments".

Definition at_cap (metadata : GlobalMetadata) (entry_bytes : N) : bool :=
  (gm_cap_entries metadata <=? gm_total_count metadata)%N
  || (gm_cap_bytes metadata <? sat_add U64_MAX (gm_total_bytes metadata) entry_bytes)%N.

Definition admit_append (entry_bytes : N) : storage GlobalState :=
  do? loaded := eff_read load_global_metadata in
  let '(expected_bytes, metadata) := loaded in
  if at_cap metadata entry_bytes
  then match gm_retention_hold metadata with
       | Some hold => eff_lift (Ok (MkGlobalState expected_bytes (with_status metadata true (Some hold))))
       | None =>
           do? _ := persist_global_metadata expected_bytes (with_status metadata true (Some CAP_REACHED)) in
           eff_lift (Err RetentionCapReached)
       end
  else eff_lift (Ok (MkGlobalState expected_bytes metadata)).

Definition sealed_segment_key (head_key : string) (next : ChainMetadata) (global : GlobalMetadata)
    : AuditResult (option string) :=
  if cm_sealed next
  then let? key := key_new (segment_index_key (gm_next_seal_ordinal global) head_key (cm_segment next)) in
       Ok (Some key)
  else Ok None.

Definition sequence_of (expected : option string) : AuditResult N :=
  match expected with Some bytes => parse_sequence bytes | None => Ok 0%N end.

Definition prepare_session_sequence (session_id id : Uuid) (s : S) : AuditResult SessionSequenceWrite :=
  let? sequence_key := key_new (uuid_to_string session_id) in
  let? expected := st_get s NS_SESSION_SEQUENCE sequence_key in
  let? current := sequence_of expected in
  let? next := map_err StorageError (checked_next current) in
  let? index_key := key_new (session_index_key sequence_key next (uuid_to_string id)) in
  Ok (MkSessionSequenceWrite sequence_key expected (sequence_bytes next) index_key).

(** What an append has decided when it installs its intent. *)
Record AppendPlan : Type := MkAppendPlan {
  ap_next : ChainMetadata;
  ap_global : GlobalState;
  ap_segment_key : option string;
  ap_sequence : SessionSequenceWrite;
}.

Definition plan_append (entry : AuditEntry) (prepared : Preparation) : storage AppendPlan :=
  do? entry_bytes := eff_lift (serialized_len entry) in
  do? global := admit_append entry_bytes in
  let '(next, metadata) := advance_chain entry (pr_prior prepared) entry_bytes (gs_metadata global) in
  let global := MkGlobalState (gs_expected_bytes global)
                  (account_global_append metadata (pr_prior prepared) next entry_bytes) in
  do? segment_key := eff_lift (sealed_segment_key (pr_head_key prepared) next (gs_metadata global)) in
  do? sequence := eff_read (prepare_session_sequence (e_session_id entry) (e_id entry)) in
  eff_lift (Ok (MkAppendPlan next global segment_key sequence)).

Definition intent_of (entry : AuditEntry) (prepared : Preparation) (plan : AppendPlan) : AppendIntent :=
  let sequence := ap_sequence plan in
  MkAppendIntent entry (pr_head_key prepared) (sw_sequence_key sequence) (sw_expected sequence)
    (sw_next_sequence sequence) (sw_index_key sequence) (pr_expected_head_bytes prepared)
    (pr_metadata_bytes prepared) (ap_next plan) (gs_expected_bytes (ap_global plan)) (gs_metadata (ap_global plan))
    (ap_segment_key plan).

Definition install_append_intent (intent : AppendIntent) : storage unit :=
  do? bytes := eff_lift (map_err SerializationError (intent_to_vec intent)) in
  st_set NS_APPEND_INTENTS APPEND_INTENT_KEY bytes.

Definition commit_entry_and_head (prepared : Preparation) (intent : AppendIntent) : storage unit :=
  do? _ := commit_entry_projection intent in
  do? _ := st_cas_or NS_CHAIN_HEADS (pr_head_key prepared) (pr_expected_head_bytes prepared)
             (uuid_to_string (e_id (i_entry intent)))
             (StorageError "audit chain head CAS lost after entry commit") in
  mark_committed intent.

Definition persist_chain_transition (entry : AuditEntry) (prepared : Preparation) (next : ChainMetadata)
    : storage unit :=
  st_cas_or NS_CHAIN_METADATA (chain_head_key (e_session_id entry) (e_principal entry))
    (pr_metadata_bytes prepared) (metadata_to_vec next)
    (StorageError "audit chain metadata CAS lost after head commit").

Definition persist_append_global (global : GlobalState) : storage unit :=
  st_cas_or NS_GLOBAL_METADATA GLOBAL_KEY (gs_expected_bytes global) (global_to_vec (gs_metadata global))
    (StorageError "audit global metadata CAS lost after append").

(** The writes of an append between the intent and its removal. *)
Definition commit_writes (entry : AuditEntry) (prepared : Preparation) (next : ChainMetadata)
    (global : GlobalState) (segment_key : option string) (intent : AppendIntent) : storage unit :=
  do? _ := commit_entry_and_head prepared intent in
  do? _ := persist_chain_transition entry prepared next in
  do? _ := persist_sealed_segment segment_key next in
  persist_append_global global.

Definition append_prepared (entry : AuditEntry) (prepared : Preparation) : storage bool :=
  do? plan := plan_append entry prepared in
  let intent := intent_of entry prepared plan in
  do? _ := install_append_intent intent in
  do? _ := commit_writes entry prepared (ap_next plan) (ap_global plan) (ap_segment_key plan) intent in
  do? _ := remove_append_intent in
  eff_lift (Ok true).

Definition append_if_head_durable (entry : AuditEntry) (expected : option Uuid) : storage bool :=
  do? _ := recover_append_intents in
  do? _ := eff_read (fun s => kv_check_registry_state s [entry]) in
  do? prepared := prepare_append entry expected in
  match prepared with
  | None => eff_lift (Ok false)
  | Some prepared => append_prepared entry prepared
  end.

(** ** The other writers of the accounting records *)

(** [seal_chain] and [set_global_caps] of [storage.rs]: neither recovers an
    interrupted append first. *)
Definition with_sealed (md : ChainMetadata) : ChainMetadata :=
  MkChainMetadata (cm_schema md) (cm_segment md) true (cm_count md) (cm_bytes md) (cm_head md) (cm_head_hash md)
    (cm_segment_count md) (cm_segment_bytes md) (cm_segment_first md) (cm_seal_ordinal md) (cm_omitted_total md)
    (cm_omitted_generation md).

Definition seal_chain (session_id : Uuid) (principal : option string) : storage unit :=
  do? loaded := eff_read (fun s => load_chain_metadata s session_id principal) in
  match loaded with
  | (expected, Some metadata) =>
      if cm_sealed metadata then eff_lift (Ok tt)
      else st_cas_or NS_CHAIN_METADATA (chain_head_key session_id principal) expected
             (metadata_to_vec (with_sealed metadata)) (StorageError "audit chain metadata changed while sealing")
  | (_, None) => eff_lift (Err (StorageError "cannot seal an untracked audit chain"))
  end.

Definition CAP_BELOW_USAGE : string :=
  "system audit retention cap is below current usage; prune sealed segments".

Definition with_caps (g : GlobalMetadata) (entries bytes : N) : GlobalMetadata :=
  let degraded := (entries <? gm_total_count g)%N || (bytes <? gm_total_bytes g)%N in
  MkGlobalMetadata (gm_schema g) (gm_total_count g) (gm_total_bytes g) (gm_sealed_segments g) (gm_segments g)
    (gm_eligible_segments g) (gm_next_seal_ordinal g) entries bytes degraded
    (if degraded then Some CAP_BELOW_USAGE else None) None.

Definition set_global_caps (entries bytes : N) : storage unit :=
  if (entries =? 0)%N || (bytes =? 0)%N
  then eff_lift (Err (StorageError "audit retention caps must be positive"))
  else
    do? loaded := eff_read load_global_metadata in
    let '(expected, metadata) := loaded in
    st_cas_or NS_GLOBAL_METADATA GLOBAL_KEY expected (global_to_vec (with_caps metadata entries bytes))
      (StorageError "audit global retention caps changed concurrently").

(** [set_retention_hold] of [retention_hold.rs] recovers first. *)
Definition held (g : GlobalMetadata) (reason : option string) : GlobalMetadata :=
  with_hold
    (with_status g (over_cap g || bool_decide (is_Some reason))
       match reason with
       | Some reason => Some reason
       | None => if over_cap g then Some "system audit retention cap exceeded; prune sealed segments" else None
       end) reason.

Definition set_retention_hold (reason : option string) : storage bool :=
  do? _ := recover_append_intents in
  do? loaded := eff_read load_global_metadata in
  let '(expected, global) := loaded in
  if bool_decide (gm_retention_hold global = reason) then eff_lift (Ok false)
  else
    do? _ := st_cas_or NS_GLOBAL_METADATA GLOBAL_KEY expected (global_to_vec (held global reason))
               (StorageError "audit global metadata changed while updating the retention hold") in
    eff_lift (Ok true).

End Storage.

(** ** One atomic batch ([append_batch.rs]) *)

Definition MAX_ATOMIC_BATCH_ENTRIES : nat := 128.

Record ChainState : Type := MkChainState {
  cs_head_expected : option string;
  cs_metadata_expected : option string;
  cs_metadata : ChainMetadata;
  cs_segment_index : list (string * string);
}.

Record SequenceState : Type := MkSequenceState { ss_expected : option string; ss_next : N }.

Record PreparedBatch : Type := MkPreparedBatch {
  pb_chains : gmap string ChainState;
  pb_sequences : gmap string SequenceState;
  pb_entries : list (string * string);
  pb_session_indexes : list (string * string);
  pb_committed_entries : list (string * string);
  pb_global_expected : option string;
  pb_global : GlobalMetadata;
}.

Definition PreparedBatch_new (global_expected : option string) (global : GlobalMetadata) : PreparedBatch :=
  MkPreparedBatch ∅ ∅ [] [] [] global_expected global.

Class BatchIteration : Type := {
  iter_chains : gmap string ChainState -> list (string * ChainState);
  iter_sequences : gmap string SequenceState -> list (string * SequenceState);
}.
Class BatchIterationLaws `{BatchIteration} : Prop := {
  iter_chains_perm m : iter_chains m ≡ₚ map_to_list m;
  iter_sequences_perm m : iter_sequences m ≡ₚ map_to_list m;
}.

Section Batch.
  Context {S : Type} `{KvStore S} `{Crypto} `{AuditSerde} `{UuidText} `{!StorageCodec} `{BatchIteration}.

Definition next_chain_metadata (prior : ChainMetadata) (global : GlobalMetadata) (entry : AuditEntry)
    (entry_bytes : N) : ChainMetadata * GlobalMetadata :=
  let starts_new_segment := cm_sealed prior in
  let sealed := seals prior entry_bytes in
  let global := if sealed
                then with_next_seal_ordinal global (sat_add U64_MAX (gm_next_seal_ordinal global) 1)
                else global in
  (MkChainMetadata 1
     (sat_add U64_MAX (cm_segment prior) (if starts_new_segment then 1 else 0))
     sealed
     (sat_add U64_MAX (cm_count prior) 1)
     (sat_add U64_MAX (cm_bytes prior) entry_bytes)
     (Some (e_id entry))
     (content_hash entry)
     (next_segment_count prior)
     (next_segment_bytes prior entry_bytes)
     (if starts_new_segment then Some (e_id entry)
      else match cm_segment_first prior with Some first => Some first | None => Some (e_id entry) end)
     (if sealed then Some (gm_next_seal_ordinal global)
      else if starts_new_segment then None else cm_seal_ordinal prior)
     (cm_omitted_total prior)
     (cm_omitted_generation prior),
   global).

(** [advance_chain] of [append_batch.rs]: the link is checked here.  [None] is
    the answer [false]. *)
Definition advance_batch_chain (state : ChainState) (global : GlobalMetadata) (entry : AuditEntry) (entry_bytes : N)
    : option (ChainState * GlobalMetadata) :=
  let prior := cs_metadata state in
  let expected_previous := if (cm_count prior =? 0)%N then ContentHash_zero else cm_head_hash prior in
  if negb (bool_decide (e_previous_hash entry = expected_previous)) then None
  else
    let '(next, global) := next_chain_metadata prior global entry entry_bytes in
    let segment_index :=
      if cm_sealed next
      then cs_segment_index state
           ++ [(segment_index_key (gm_next_seal_ordinal global)
                  (chain_head_key (e_session_id entry) (e_principal entry)) (cm_segment next),
                metadata_to_vec next)]
      else cs_segment_index state in
    Some (MkChainState (cs_head_expected state) (cs_metadata_expected state) next segment_index,
          update_global_metadata global prior next entry_bytes).

Definition with_head (md : ChainMetadata) (head : option Uuid) (head_hash : ContentHash) (count bytes : N)
    : ChainMetadata :=
  MkChainMetadata (cm_schema md) (cm_segment md) (cm_sealed md) count bytes head head_hash
    (cm_segment_count md) (cm_segment_bytes md) (cm_segment_first md) (cm_seal_ordinal md) (cm_omitted_total md)
    (cm_omitted_generation md).

Definition metadata_from_stored_parent (s : S) (metadata : ChainMetadata) (expected stored_head : option Uuid)
    : AuditResult (option ChainMetadata) :=
  if bool_decide (is_Some (cm_head metadata)) || negb (bool_decide (stored_head = expected)) then Ok None
  else match expected with
       | None => Ok (Some metadata)
       | Some head =>
           let? parent := get s head in
           match parent with
           | None => Ok None
           | Some parent =>
               if (cm_count metadata =? 0)%N
               then let? bytes := serialized_len parent in
                    Ok (Some (with_head metadata (Some head) (content_hash parent) 1 bytes))
               else Ok (Some (with_head metadata (Some head) (content_hash parent) (cm_count metadata)
                                (cm_bytes metadata)))
           end
       end.

Definition parent_metadata_for_append (s : S) (metadata : option ChainMetadata) (expected stored_head : option Uuid)
    : AuditResult (option ChainMetadata) :=
  let metadata := default ChainMetadata_default metadata in
  if negb (bool_decide (cm_head metadata = expected))
  then metadata_from_stored_parent s metadata expected stored_head
  else match expected with
       | None => Ok (Some metadata)
       | Some head =>
           let? parent := get s head in
           Ok (Some match parent with
                    | Some parent => with_head metadata (cm_head metadata) (content_hash parent)
                                       (cm_count metadata) (cm_bytes metadata)
                    | None => metadata
                    end)
       end.

Definition put_chain (prepared : PreparedBatch) (chain_key : string) (state : ChainState) (global : GlobalMetadata)
    : PreparedBatch :=
  MkPreparedBatch (<[chain_key := state]> (pb_chains prepared)) (pb_sequences prepared) (pb_entries prepared)
    (pb_session_indexes prepared) (pb_committed_entries prepared) (pb_global_expected prepared) global.

(** [None] is the answer [false]. *)
Definition ensure_chain_state (s : S) (prepared : PreparedBatch) (chain_key : string) (entry : AuditEntry)
    (expected : option Uuid) : AuditResult (option PreparedBatch) :=
  match pb_chains prepared !! chain_key with
  | Some state =>
      Ok (if bool_decide (is_Some (cm_head (cs_metadata state)) /\ expected = cm_head (cs_metadata state))
          then Some prepared else None)
  | None =>
      let? stored_head_bytes := st_get s NS_CHAIN_HEADS chain_key in
      let? stored_head := parse_stored_head stored_head_bytes in
      let? loaded := load_chain_metadata s (e_session_id entry) (e_principal entry) in
      let '(metadata_expected, metadata) := loaded in
      let? parent := parent_metadata_for_append s metadata expected stored_head in
      Ok match parent with
         | None => None
         | Some metadata =>
             Some (put_chain prepared chain_key (MkChainState stored_head_bytes metadata_expected metadata [])
                     (pb_global prepared))
         end
  end.

Definition exhausted (session_key : string) (error : string) : AuditError :=
  StorageError (error +:+ " for session index key " +:+ session_key).

Definition allocate_session_sequence (s : S) (sequences : gmap string SequenceState) (session_key : string)
    : AuditResult (N * gmap string SequenceState) :=
  match sequences !! session_key with
  | Some state =>
      let? next := map_err (exhausted session_key) (checked_next (ss_next state)) in
      Ok (ss_next state, <[session_key := MkSequenceState (ss_expected state) next]> sequences)
  | None =>
      let? expected := st_get s NS_SESSION_SEQUENCE session_key in
      let? sequence := sequence_of expected in
      let? next := map_err (exhausted session_key) (checked_next sequence) in
      Ok (sequence, <[session_key := MkSequenceState expected next]> sequences)
  end.

Definition accumulate_entry (s : S) (prepared : PreparedBatch) (chain_key : string) (entry : AuditEntry)
    : AuditResult (option PreparedBatch) :=
  let? entry_data := map_err SerializationError (entry_to_vec entry) in
  let entry_key := uuid_to_string (e_id entry) in
  let session_key := uuid_to_string (e_session_id entry) in
  let? allocated := allocate_session_sequence s (pb_sequences prepared) session_key in
  let '(sequence, sequences) := allocated in
  let? state := ok_or (pb_chains prepared !! chain_key) (StorageError "audit batch chain state disappeared") in
  Ok match advance_batch_chain state (pb_global prepared) entry (str_len entry_data) with
     | None => None
     | Some (state, global) =>
         Some (MkPreparedBatch (<[chain_key := state]> (pb_chains prepared)) sequences
                 (pb_entries prepared ++ [(entry_key, entry_data)])
                 (pb_session_indexes prepared ++ [(session_index_key session_key sequence entry_key, MARK)])
                 (pb_committed_entries prepared ++ [(entry_key, MARK)])
                 (pb_global_expected prepared) global)
     end.

(** The loop of [prepare_batch]. *)
Fixpoint prepare_entries (s : S) (prepared : PreparedBatch) (seen : list Uuid)
    (entries : list (AuditEntry * option Uuid)) : AuditResult (option PreparedBatch) :=
  match entries with
  | [] => Ok (Some prepared)
  | (entry, expected) :: rest =>
      if bool_decide (e_id entry ∈ seen) then Err (StorageError "audit batch contains duplicate entry IDs")
      else
        let chain_key := chain_head_key (e_session_id entry) (e_principal entry) in
        let? ensured := ensure_chain_state s prepared chain_key entry expected in
        match ensured with
        | None => Ok None
        | Some prepared =>
            let? accumulated := accumulate_entry s prepared chain_key entry in
            match accumulated with
            | None => Ok None
            | Some prepared => prepare_entries s prepared (e_id entry :: seen) rest
            end
        end
  end.

Definition put_global (prepared : PreparedBatch) (global : GlobalMetadata) : PreparedBatch :=
  MkPreparedBatch (pb_chains prepared) (pb_sequences prepared) (pb_entries prepared) (pb_session_indexes prepared)
    (pb_committed_entries prepared) (pb_global_expected prepared) global.

Definition prepare_batch (s : S) (entries : list (AuditEntry * option Uuid)) : AuditResult (option PreparedBatch) :=
  let? loaded := load_global_metadata s in
  let '(global_expected, global) := loaded in
  let hold := gm_retention_hold global in
  let? prepared := prepare_entries s (PreparedBatch_new global_expected global) [] entries in
  match prepared with
  | None => Ok None
  | Some prepared =>
      if over_cap (pb_global prepared)
      then match hold with
           | None => Err RetentionCapReached
           | Some hold => Ok (Some (put_global prepared (with_status (pb_global prepared) true (Some hold))))
           end
      else Ok (Some prepared)
  end.

Definition kv_key (ns value : string) : AuditResult KvEntryKey := map_err kv_failed (KvEntryKey_new ns value).

Definition append_stored_values (ns : string) (values : list (string * string)) : AuditResult (list KvBatchMutation) :=
  try_map (fun '(key, value) => let? key := kv_key ns key in Ok (MutSet key value)) values.

Definition chain_changes (change : string * ChainState) : AuditResult (list KvBatchCondition * list KvBatchMutation) :=
  let '(chain_key, state) := change in
  let? heads_key := kv_key NS_CHAIN_HEADS chain_key in
  let? metadata_key := kv_key NS_CHAIN_METADATA chain_key in
  let? head := ok_or (cm_head (cs_metadata state)) (StorageError "audit batch has no chain head") in
  let? segments := append_stored_values NS_SEGMENT_INDEX (cs_segment_index state) in
  Ok ([ValueEquals heads_key (cs_head_expected state); ValueEquals metadata_key (cs_metadata_expected state)],
      MutSet heads_key (uuid_to_string head) :: MutSet metadata_key (metadata_to_vec (cs_metadata state)) :: segments).

Definition sequence_changes (change : string * SequenceState)
    : AuditResult (list KvBatchCondition * list KvBatchMutation) :=
  let '(session_key, sequence) := change in
  let? key := kv_key NS_SESSION_SEQUENCE session_key in
  Ok ([ValueEquals key (ss_expected sequence)], [MutSet key (sequence_bytes (ss_next sequence))]).

Definition into_mutation_batch (prepared : PreparedBatch) : AuditResult KvMutationBatch :=
  let? chains := try_map chain_changes (iter_chains (pb_chains prepared)) in
  let? sequences := try_map sequence_changes (iter_sequences (pb_sequences prepared)) in
  let? entries := append_stored_values NS_ENTRIES (pb_entries prepared) in
  let? indexes := append_stored_values NS_SESSION_ENTRIES (pb_session_indexes prepared) in
  let? committed := append_stored_values NS_COMMITTED_ENTRIES (pb_committed_entries prepared) in
  let? global_key := kv_key NS_GLOBAL_METADATA GLOBAL_KEY in
  map_err kv_failed (KvMutationBatch_new
    (List.concat chains.*1 ++ List.concat sequences.*1 ++ [ValueEquals global_key (pb_global_expected prepared)])
    (List.concat chains.*2 ++ List.concat sequences.*2 ++ entries ++ indexes ++ committed
     ++ [MutSet global_key (global_to_vec (pb_global prepared))])).

Definition append_batch_with_cas (entries : list (AuditEntry * option Uuid)) : eff S AuditError (list bool) :=
  List.fold_right
    (fun '(entry, expected) rest =>
       do? committed := append_if_head_durable entry expected in
       do? results := rest in
       eff_lift (Ok (committed :: results)))
    (eff_lift (Ok [])) entries.

Definition st_apply_batch (batch : KvMutationBatch) : eff S AuditError bool :=
  fun s => let '(s', r) := kv_apply_batch s batch in (s', map_err kv_failed (rmap bo_applied r)).

Definition append_atomic (entries : list (AuditEntry * option Uuid)) : eff S AuditError (list bool) :=
  do? _ := recover_append_intents in
  do? _ := eff_read (fun s => kv_check_registry_state s entries.*1) in
  do? prepared := eff_read (fun s => prepare_batch s entries) in
  match prepared with
  | None => eff_lift (Ok (replicate (length entries) false))
  | Some prepared =>
      do? batch := eff_lift (into_mutation_batch prepared) in
      do? applied := st_apply_batch batch in
      eff_lift (Ok (replicate (length entries) applied))
  end.

Definition append_batch_if_heads_durable (entries : list (AuditEntry * option Uuid)) : eff S AuditError (list bool) :=
  fun s =>
  match entries with
  | [] => (s, Ok [])
  | _ =>
      if bool_decide (MAX_ATOMIC_BATCH_ENTRIES < length entries) || negb (supports_atomic_batch s)
      then (do? _ := recover_append_intents in append_batch_with_cas entries) s
      else append_atomic entries s
  end.

End Batch.
