(* ===== verification/CrashLogic.v ===== *)
(** * Crash triples

    A Hoare logic for code on a [KvStore] backend whose writes may fail.
    [triple P c Q R]: started where the abstract map satisfies [P], [c]
    either returns [Ok a] with the map satisfying [Q a], or returns an error
    with the map satisfying [R].  A write that reports an error may have
    happened or not, so [R] has to hold both ways; a process that dies between
    two calls leaves the map an error of the second call may leave.

    [faithful f g]: where the reader [f] answers on a backend, the reader [g]
    gives the same answer on the abstract map. *)

From S2P Require Import Prelude Kv.

Section Triples.
  Context {S : Type} `{KvStoreLaws S view} {E : Type}.

Definition triple {A : Type} (P : KvMap -> Prop) (c : eff S E A) (Q : A -> KvMap -> Prop) (R : KvMap -> Prop) : Prop :=
  forall s s' r, P (view s) -> c s = (s', r) ->
  match r with Ok a => Q a (view s') | Err _ => R (view s') end.

Definition faithful {A : Type} (f : S -> result A E) (g : KvMap -> result A E) : Prop :=
  forall s a, f s = Ok a -> g (view s) = Ok a.

Lemma triple_bind {A B : Type} (P : KvMap -> Prop) (c : eff S E A) (k : A -> eff S E B)
    (Q' : A -> KvMap -> Prop) (Q : B -> KvMap -> Prop) (R : KvMap -> Prop) :
  triple P c Q' R -> (forall a, triple (Q' a) (k a) Q R) -> triple P (eff_bind c k) Q R.
Proof.
  intros Hc Hk s s' r HP Heq. unfold eff_bind in Heq. destruct (c s) as [s1 [a|e]] eqn:Hcs.
  - apply (Hk a s1); [|done]. by apply (Hc s s1 (Ok a)).
  - injection Heq as <- <-. by apply (Hc s s1 (Err e)).
Qed.

Lemma triple_conseq {A : Type} (P P' : KvMap -> Prop) (c : eff S E A) (Q Q' : A -> KvMap -> Prop) (R R' : KvMap -> Prop) :
  triple P' c Q' R' -> (forall m, P m -> P' m) -> (forall a m, Q' a m -> Q a m) -> (forall m, R' m -> R m) ->
  triple P c Q R.
Proof.
  intros Hc HP HQ HR s s' r Hs Heq. specialize (Hc s s' r (HP _ Hs) Heq). destruct r; auto.
Qed.

Lemma triple_lift {A : Type} (P : KvMap -> Prop) (r : result A E) (Q : A -> KvMap -> Prop) (R : KvMap -> Prop) :
  (forall m, P m -> match r with Ok a => Q a m | Err _ => R m end) -> triple P (eff_lift r) Q R.
Proof. intros Hr s s' r' HP [= <- <-]. specialize (Hr _ HP). by destruct r. Qed.

Lemma triple_read {A : Type} (P : KvMap -> Prop) (f : S -> result A E) (g : KvMap -> result A E) (Q : A -> KvMap -> Prop) (R : KvMap -> Prop) :
  faithful f g -> (forall m a, P m -> g m = Ok a -> Q a m) -> (forall m, P m -> R m) ->
  triple P (eff_read f) Q R.
Proof.
  intros Hf HQ HR s s' r HP [= <- <-]. destruct (f s) as [a|e] eqn:Hfs; [|by apply HR].
  apply HQ; [done|]. by apply Hf.
Qed.

(** A case split on something the state does not change. *)
Lemma triple_pre {A : Type} (P : KvMap -> Prop) (c : eff S E A) (Q : A -> KvMap -> Prop) (R : KvMap -> Prop) :
  (forall m, P m -> triple (eq m) c Q R) -> triple P c Q R.
Proof. intros Hc s s' r HP Heq. by apply (Hc (view s) HP s s' r). Qed.

Lemma triple_set (P : KvMap -> Prop) (ns k v : string) (f : StorageError -> E) (Q : unit -> KvMap -> Prop) (R : KvMap -> Prop) :
  (forall m, P m -> Q tt (<[(ns, k) := v]> m)) ->
  (forall m, P m -> R m /\ R (<[(ns, k) := v]> m)) ->
  triple P (fun s => let '(s', r) := kv_set s ns k v in (s', map_err f r)) Q R.
Proof.
  intros HQ HR s s' r HP. destruct (kv_set s ns k v) as [s1 [[]|e]] eqn:Hs; intros [= <- <-]; simpl.
  - apply law_set in Hs. rewrite Hs. by apply HQ.
  - apply law_set_err in Hs as [Hs|Hs]; rewrite Hs; by apply HR.
Qed.

Lemma triple_cas (P : KvMap -> Prop) (ns k : string) (expected : option string) (new : string)
    (f : StorageError -> E) (Q : bool -> KvMap -> Prop) (R : KvMap -> Prop) :
  (forall m, P m -> m !! (ns, k) = expected -> Q true (<[(ns, k) := new]> m)) ->
  (forall m, P m -> m !! (ns, k) <> expected -> Q false m) ->
  (forall m, P m -> R m /\ (m !! (ns, k) = expected -> R (<[(ns, k) := new]> m))) ->
  triple P (fun s => let '(s', r) := kv_compare_and_swap s ns k expected new in (s', map_err f r)) Q R.
Proof.
  intros HQ HQ' HR s s' r HP. destruct (kv_compare_and_swap s ns k expected new) as [s1 [b|e]] eqn:Hs;
    intros [= <- <-]; simpl.
  - apply law_cas in Hs as [-> Hs]. rewrite Hs. case_bool_decide; auto.
  - apply law_cas_err in Hs as [Hs|[Heq Hs]]; rewrite Hs; by apply HR.
Qed.

Lemma triple_delete (P : KvMap -> Prop) (ns k : string) (f : StorageError -> E) (Q : bool -> KvMap -> Prop) (R : KvMap -> Prop) :
  (forall m, P m -> Q (bool_decide (is_Some (m !! (ns, k)))) (delete (ns, k) m)) ->
  (forall m, P m -> R m /\ R (delete (ns, k) m)) ->
  triple P (fun s => let '(s', r) := kv_delete s ns k in (s', map_err f r)) Q R.
Proof.
  intros HQ HR s s' r HP. destruct (kv_delete s ns k) as [s1 [b|e]] eqn:Hs; intros [= <- <-]; simpl.
  - apply law_delete in Hs as [-> Hs]. rewrite Hs. by apply HQ.
  - apply law_delete_err in Hs as [Hs|Hs]; rewrite Hs; by apply HR.
Qed.

Lemma triple_batch (P : KvMap -> Prop) (b : KvMutationBatch) (f : StorageError -> E) (Q : bool -> KvMap -> Prop) (R : KvMap -> Prop) :
  valid_batch b ->
  (forall m, P m -> map_conditions m (batch_conditions b) = true -> Q true (map_mutations m (batch_mutations b))) ->
  (forall m, P m -> map_conditions m (batch_conditions b) = false -> Q false m) ->
  (forall m, P m -> R m /\ (map_conditions m (batch_conditions b) = true -> R (map_mutations m (batch_mutations b)))) ->
  triple P (fun s => let '(s', r) := kv_apply_batch s b in (s', map_err f (rmap bo_applied r))) Q R.
Proof.
  intros Hb HQ HQ' HR s s' r HP. destruct (kv_apply_batch s b) as [s1 [o|e]] eqn:Hs; intros [= <- <-]; simpl.
  - apply law_apply in Hs as [-> Hs]; [|done]. rewrite Hs.
    destruct (map_conditions (view s) (batch_conditions b)) eqn:Hc; auto.
  - apply law_apply_err in Hs as [Hs|[Hc Hs]]; [| |done]; rewrite Hs; by apply HR.
Qed.

(** ** Frames

    [keeps T m c]: whatever fails, [c] changes no key of [m] outside [T]. *)

Definition Within (T : string * string -> Prop) (m m' : KvMap) : Prop := forall k, T k \/ m' !! k = m !! k.

Definition keeps {A : Type} (T : string * string -> Prop) (m : KvMap) (c : eff S E A) : Prop :=
  triple (Within T m) c (fun _ => Within T m) (Within T m).

Lemma within_refl T m : Within T m m.
Proof. by right. Qed.

Lemma within_insert T m m' k v : T k -> Within T m m' -> Within T m (<[k := v]> m').
Proof.
  intros Hk Hm k'. destruct (decide (k' = k)) as [->|Hne]; [by left|]. rewrite lookup_insert_ne by done. apply Hm.
Qed.

Lemma within_delete T m m' k : T k -> Within T m m' -> Within T m (delete k m').
Proof.
  intros Hk Hm k'. destruct (decide (k' = k)) as [->|Hne]; [by left|]. rewrite lookup_delete_ne by done. apply Hm.
Qed.

Lemma within_mutations T m (mus : list KvBatchMutation) : forall m',
  Forall (fun mu => T (Kv.entry (mutation_key mu))) mus -> Within T m m' -> Within T m (map_mutations m' mus).
Proof.
  unfold map_mutations. induction mus as [|mu mus IH]; intros m' Hf Hm; [done|]. apply Forall_cons in Hf as [Hk Hf]. simpl.
  apply IH; [done|]. destruct mu; simpl; [by apply within_insert|by apply within_delete].
Qed.

Lemma frame_bind {A B : Type} T m (c : eff S E A) (k : A -> eff S E B) :
  keeps T m c -> (forall a, keeps T m (k a)) -> keeps T m (eff_bind c k).
Proof. intros Hc Hk. by apply (triple_bind _ _ _ (fun _ => Within T m)). Qed.

Lemma frame_lift {A : Type} T m (r : result A E) : keeps T m (eff_lift r).
Proof. apply triple_lift. intros m' Hm. by destruct r. Qed.

Lemma frame_lift_bind {A B : Type} T m (r : result A E) (k : A -> eff S E B) :
  (forall a, r = Ok a -> keeps T m (k a)) -> keeps T m (eff_bind (eff_lift r) k).
Proof.
  intros Hk s s' r' HP. destruct r as [a|e]; cbn [eff_bind eff_lift].
  - by apply (Hk a eq_refl s s' r' HP).
  - by intros [= <- <-].
Qed.

Lemma frame_read {A : Type} T m (f : S -> result A E) : keeps T m (eff_read f).
Proof. intros s s' r HP [= <- <-]. by destruct (f s). Qed.

Lemma keeps_set T m (ns k v : string) (f : StorageError -> E) :
  T (ns, k) -> keeps T m (fun s => let '(s', r) := kv_set s ns k v in (s', map_err f r)).
Proof. intros Hk. apply triple_set; intros m' Hm; [|split]; auto using within_insert. Qed.

Lemma keeps_cas T m (ns k : string) (expected : option string) (new : string) (f : StorageError -> E) :
  T (ns, k) -> keeps T m (fun s => let '(s', r) := kv_compare_and_swap s ns k expected new in (s', map_err f r)).
Proof. intros Hk. apply triple_cas; intros m' Hm; try split; auto using within_insert. Qed.

Lemma keeps_delete T m (ns k : string) (f : StorageError -> E) :
  T (ns, k) -> keeps T m (fun s => let '(s', r) := kv_delete s ns k in (s', map_err f r)).
Proof. intros Hk. apply triple_delete; intros m' Hm; try split; auto using within_delete. Qed.

Lemma keeps_batch T m (b : KvMutationBatch) (f : StorageError -> E) :
  valid_batch b -> Forall (fun mu => T (Kv.entry (mutation_key mu))) (batch_mutations b) ->
  keeps T m (fun s => let '(s', r) := kv_apply_batch s b in (s', map_err f (rmap bo_applied r))).
Proof. intros Hb Hf. apply triple_batch; [done|..]; intros m' Hm; try split; auto using within_mutations. Qed.

(** ** Mirroring

    [mirrors c ci]: where [c] answers on a backend, [ci] on the ideal store
    gives the same answer and the same map. *)

Definition mirrors {A : Type} (c : eff S E A) (ci : eff KvMap E A) : Prop :=
  forall s s' a, c s = (s', Ok a) -> ci (view s) = (view s', Ok a).

Lemma triple_mirror {A : Type} (P : KvMap -> Prop) (c : eff S E A) (ci : eff KvMap E A) (Q : A -> KvMap -> Prop)
    (R : KvMap -> Prop) :
  mirrors c ci -> triple P c Q R ->
  triple P c (fun a m' => Q a m' /\ exists m, P m /\ ci m = (m', Ok a)) R.
Proof.
  intros Hm Hc s s' r HP Heq. specialize (Hc s s' r HP Heq). destruct r as [a|e]; [|done].
  split; [done|]. exists (view s). split; [done|]. by apply Hm.
Qed.

Lemma mirrors_bind {A B : Type} (c : eff S E A) (ci : eff KvMap E A) (k : A -> eff S E B) (ki : A -> eff KvMap E B) :
  mirrors c ci -> (forall a, mirrors (k a) (ki a)) -> mirrors (eff_bind c k) (eff_bind ci ki).
Proof.
  intros Hc Hk s s' b (s1 & a & H1 & H2)%eff_bind_Ok. apply eff_bind_Ok.
  exists (view s1), a. split; [by apply Hc|by apply Hk].
Qed.

Lemma mirrors_lift {A : Type} (r : result A E) : mirrors (eff_lift r) (eff_lift r).
Proof. intros s s' a [= <- ->]. done. Qed.

Lemma mirrors_read {A : Type} (f : S -> result A E) (g : KvMap -> result A E) :
  faithful f g -> mirrors (eff_read f) (eff_read g).
Proof. intros Hf s s' a [= <- Ha]. unfold eff_read. by rewrite (Hf s a Ha). Qed.

Lemma mirrors_set (ns k v : string) (f : StorageError -> E) :
  mirrors (fun s => let '(s', r) := kv_set s ns k v in (s', map_err f r))
          (fun m => let '(m', r) := @kv_set _ ideal_store m ns k v in (m', map_err f r)).
Proof.
  intros s s' a. destruct (kv_set s ns k v) as [s1 [[]|e]] eqn:Hs; intros [= <- <-]; simpl.
  apply law_set in Hs. by rewrite Hs.
Qed.

Lemma mirrors_cas (ns k : string) (expected : option string) (new : string) (f : StorageError -> E) :
  mirrors (fun s => let '(s', r) := kv_compare_and_swap s ns k expected new in (s', map_err f r))
          (fun m => let '(m', r) := @kv_compare_and_swap _ ideal_store m ns k expected new in (m', map_err f r)).
Proof.
  intros s s' a. destruct (kv_compare_and_swap s ns k expected new) as [s1 [b|e]] eqn:Hs; intros [= <- <-]; simpl.
  apply law_cas in Hs as [-> Hs]. rewrite Hs. by case_bool_decide.
Qed.

Lemma mirrors_delete (ns k : string) (f : StorageError -> E) :
  mirrors (fun s => let '(s', r) := kv_delete s ns k in (s', map_err f r))
          (fun m => let '(m', r) := @kv_delete _ ideal_store m ns k in (m', map_err f r)).
Proof.
  intros s s' a. destruct (kv_delete s ns k) as [s1 [b|e]] eqn:Hs; intros [= <- <-]; simpl.
  apply law_delete in Hs as [-> Hs]. by rewrite Hs.
Qed.

(** ** Readers *)

Lemma faithful_pure {A : Type} (r : result A E) : faithful (fun _ => r) (fun _ => r).
Proof. intros s a Hr. done. Qed.

Lemma faithful_bind {A B : Type} (f : S -> result A E) (g : KvMap -> result A E)
    (k : A -> S -> result B E) (k' : A -> KvMap -> result B E) :
  faithful f g -> (forall a, faithful (k a) (k' a)) ->
  faithful (fun s => rbind (f s) (fun a => k a s)) (fun m => rbind (g m) (fun a => k' a m)).
Proof.
  intros Hf Hk s b (a & Ha & Hb)%rbind_Ok. apply rbind_Ok. exists a. split; [by apply Hf|by apply Hk].
Qed.

Lemma faithful_get (ns k : string) (f : StorageError -> E) :
  faithful (fun s => map_err f (kv_get s ns k)) (fun m => Ok (m !! (ns, k))).
Proof. intros s v Hv%map_err_Ok. apply law_get in Hv. by rewrite Hv. Qed.

Lemma faithful_exists (ns k : string) (f : StorageError -> E) :
  faithful (fun s => map_err f (kv_exists s ns k)) (fun m => Ok (bool_decide (is_Some (m !! (ns, k))))).
Proof. intros s v Hv%map_err_Ok. apply law_exists in Hv. by rewrite Hv. Qed.
End Triples.

(** The readers of a component are registered in [faithful], the stateful
    code in [mirrors]. *)
Create HintDb faithful.
Create HintDb mirrors.

Ltac faithful_step :=
  first [ solve [eauto with faithful] | apply faithful_pure | apply faithful_bind; [|intros ?] | case_match ].
Ltac faithful_tac := repeat faithful_step.

Ltac mirrors_step :=
  first [ solve [eauto with mirrors] | apply mirrors_lift | apply mirrors_read; faithful_tac
        | apply mirrors_bind; [|intros ?] | case_match ].
Ltac mirrors_tac := repeat mirrors_step.

(** The stateful code of a component, by the keys it writes. *)
Create HintDb keeps.

Ltac keeps_step :=
  first [ solve [eauto with keeps] | apply frame_lift | apply frame_read | apply frame_bind; [|intros ?] | case_match ].
Ltac keeps_tac := repeat keeps_step.
