(* ===== verification/AuditDurability.v ===== *)
(** * Crash safety of the audit storage

    What [AuditStorage] promises of its two ways to append.

    An append under an intent is atomic: whatever write of the backend fails,
    and wherever the process dies, recovery brings the store either to where
    it was or to where the completed append leaves it ([Crash]).  The store
    keeps the log: a history of entries, appended in order, is represented by
    the entries, indexes, heads and counters the code maintains
    ([Represents]), the reads return that history, and an append extends it by
    one entry, which is [append_if_head] of [AuditLog]. *)

From stdpp Require Import sorting pretty.
From S2P Require Import Prelude Kv Bytes Cbor Crypto KeyRegistry AuditEntry AuditChain AuditLog.
From S2P Require Import AuditStorage CrashLogic.
From Stdlib Require Import Ascii.
Local Open Scope string_scope.
Local Open Scope list_scope.

#[local] Existing Instance ideal_store.

Definition intent_key : string * string := (NS_APPEND_INTENTS, APPEND_INTENT_KEY).

(** Keys of different namespaces are different keys. *)
Lemma ns_ne (ns ns' k k' : string) : bool_decide (ns = ns') = false -> (ns, k) <> (ns', k').
Proof. intros Hne%bool_decide_eq_false [= ? ?]. done. Qed.

#[export] Hint Extern 2 ((_, _) <> (_, _)) => (apply ns_ne; reflexivity) : astrid.
#[export] Hint Extern 2 (intent_key <> (_, _)) => (apply ns_ne; reflexivity) : astrid.
#[export] Hint Extern 2 ((_, _) <> intent_key) => (apply ns_ne; reflexivity) : astrid.

Ltac map_simpl :=
  repeat first [ rewrite lookup_insert_eq | rewrite lookup_insert_ne by auto with astrid
               | rewrite lookup_delete_eq | rewrite lookup_delete_ne by auto with astrid ].

Section Crash.
  Context {S : Type} `{KvStoreLaws S view} `{Crypto} `{AuditSerde} `{UuidText} `{!StorageCodec} {SCL : StorageCodecLaws}.
  Implicit Types (i : AppendIntent) (m : KvMap) (ns data bytes : string) (entry : AuditEntry) (next : ChainMetadata)
    (segment_key : option string) (prepared : Preparation) (global : GlobalState) (expected : option Uuid).

(** ** What the code does on a backend, it does on the ideal store *)

Lemma st_get_faithful ns k : faithful (view := view) (fun s => st_get s ns k) (fun m => st_get m ns k).
Proof. exact (faithful_get ns k kv_failed). Qed.
Lemma st_exists_faithful ns k : faithful (view := view) (fun s => st_exists s ns k) (fun m => st_exists m ns k).
Proof. exact (faithful_exists ns k kv_failed). Qed.

Lemma st_set_mirrors ns k v : mirrors (view := view) (st_set ns k v) (st_set ns k v).
Proof. exact (mirrors_set ns k v kv_failed). Qed.
Lemma st_cas_mirrors ns k e v : mirrors (view := view) (st_cas ns k e v) (st_cas ns k e v).
Proof. exact (mirrors_cas ns k e v kv_failed). Qed.
Lemma st_delete_mirrors ns k : mirrors (view := view) (st_delete ns k) (st_delete ns k).
Proof. exact (mirrors_delete ns k kv_failed). Qed.

#[local] Hint Resolve st_get_faithful st_exists_faithful : faithful.
#[local] Hint Resolve st_set_mirrors st_cas_mirrors st_delete_mirrors : mirrors.

Lemma get_faithful id : faithful (view := view) (fun s => get s id) (fun m => get m id).
Proof. unfold get. faithful_tac. Qed.
#[local] Hint Resolve get_faithful : faithful.

Lemma load_chain_metadata_faithful session principal :
  faithful (view := view) (fun s => load_chain_metadata s session principal)
    (fun m => load_chain_metadata m session principal).
Proof. unfold load_chain_metadata. faithful_tac. Qed.
#[local] Hint Resolve load_chain_metadata_faithful : faithful.

Lemma load_global_metadata_faithful : faithful (view := view) load_global_metadata load_global_metadata.
Proof. unfold load_global_metadata. faithful_tac. Qed.
#[local] Hint Resolve load_global_metadata_faithful : faithful.

Lemma get_chain_head_faithful session principal :
  faithful (view := view) (fun s => get_chain_head s session principal) (fun m => get_chain_head m session principal).
Proof. unfold get_chain_head, metadata_head. faithful_tac. Qed.
#[local] Hint Resolve get_chain_head_faithful : faithful.

Lemma try_for_faithful {A} (f : S -> A -> AuditResult unit) (g : KvMap -> A -> AuditResult unit) l :
  (forall x, faithful (view := view) (fun s => f s x) (fun m => g m x)) ->
  faithful (view := view) (fun s => try_for (f s) l) (fun m => try_for (g m) l).
Proof. intros Hf. induction l as [|x l IH]; simpl; faithful_tac; done. Qed.

Lemma check_registry_state_faithful entries :
  faithful (view := view) (fun s => kv_check_registry_state s entries) (fun m => kv_check_registry_state m entries).
Proof.
  unfold kv_check_registry_state, kv_check_v1_open, kv_check_epoch_current, kv_registry_record_exists.
  apply faithful_bind; [faithful_tac|intros ?]. apply try_for_faithful. intros. faithful_tac.
Qed.
#[local] Hint Resolve check_registry_state_faithful : faithful.

Lemma read_chain_faithful entry expected :
  faithful (view := view) (fun s => read_chain s entry expected) (fun m => read_chain m entry expected).
Proof. unfold read_chain. faithful_tac. Qed.
#[local] Hint Resolve read_chain_faithful : faithful.

Lemma prepare_session_sequence_faithful session id :
  faithful (view := view) (prepare_session_sequence session id) (prepare_session_sequence session id).
Proof. unfold prepare_session_sequence. faithful_tac. Qed.
#[local] Hint Resolve prepare_session_sequence_faithful : faithful.

Lemma recover_writes_mirrors i : mirrors (view := view) (recover_writes i) (recover_writes i).
Proof.
  unfold recover_writes, commit_entry_projection, mark_committed, write_session_index, persist_sealed_segment,
    recover_cas. mirrors_tac.
Qed.
#[local] Hint Resolve recover_writes_mirrors : mirrors.

Lemma recover_mirrors : mirrors (view := view) recover_append_intents recover_append_intents.
Proof. unfold recover_append_intents, remove_append_intent. mirrors_tac. Qed.
#[local] Hint Resolve recover_mirrors : mirrors.

Lemma commit_writes_mirrors entry prepared next global segment_key i :
  mirrors (view := view) (commit_writes entry prepared next global segment_key i)
    (commit_writes entry prepared next global segment_key i).
Proof.
  unfold commit_writes, commit_entry_and_head, commit_entry_projection, mark_committed, write_session_index,
    persist_chain_transition, persist_sealed_segment, persist_append_global, st_cas_or. mirrors_tac.
Qed.
#[local] Hint Resolve commit_writes_mirrors : mirrors.

Lemma admit_append_mirrors n : mirrors (view := view) (admit_append n) (admit_append n).
Proof. unfold admit_append, persist_global_metadata. mirrors_tac. Qed.
#[local] Hint Resolve admit_append_mirrors : mirrors.

Lemma prepare_append_mirrors entry expected :
  mirrors (view := view) (prepare_append entry expected) (prepare_append entry expected).
Proof. unfold prepare_append, reconcile_stored_head. mirrors_tac. Qed.
#[local] Hint Resolve prepare_append_mirrors : mirrors.

Lemma plan_append_mirrors entry prepared : mirrors (view := view) (plan_append entry prepared) (plan_append entry prepared).
Proof. unfold plan_append. mirrors_tac. Qed.
#[local] Hint Resolve plan_append_mirrors : mirrors.

Lemma append_mirrors entry expected :
  mirrors (view := view) (append_if_head_durable entry expected) (append_if_head_durable entry expected).
Proof.
  unfold append_if_head_durable, append_prepared, install_append_intent, remove_append_intent. mirrors_tac.
Qed.
#[local] Hint Resolve append_mirrors : mirrors.

(** ** The writes of an intent *)

Definition put_segment (segment_key : option string) (next : ChainMetadata) (m : KvMap) : KvMap :=
  match segment_key with Some key => <[(NS_SEGMENT_INDEX, key) := metadata_to_vec next]> m | None => m end.

Definition put_intent (i : AppendIntent) (data : string) (m : KvMap) : KvMap :=
  <[(NS_GLOBAL_METADATA, GLOBAL_KEY) := global_to_vec (i_next_global i)]>
  (put_segment (i_segment_key i) (i_next_metadata i)
  (<[(NS_CHAIN_METADATA, i_head_key i) := metadata_to_vec (i_next_metadata i)]>
  (<[(NS_CHAIN_HEADS, i_head_key i) := uuid_to_string (e_id (i_entry i))]>
  (<[(NS_COMMITTED_ENTRIES, uuid_to_string (e_id (i_entry i))) := MARK]>
  (<[(NS_SESSION_ENTRIES, i_session_index_key i) := MARK]>
  (<[(NS_SESSION_SEQUENCE, i_session_sequence_key i) := i_next_session_sequence i]>
  (<[(NS_ENTRIES, uuid_to_string (e_id (i_entry i))) := data]> m))))))).

Definition commit (i : AppendIntent) (data : string) (m : KvMap) : KvMap := delete intent_key (put_intent i data m).

(** An intent that was computed from the state [m0]. *)
Record Pending (m0 : KvMap) (i : AppendIntent) (data bytes : string) : Prop := {
  pd_data : entry_to_vec (i_entry i) = Ok data;
  pd_bytes : intent_to_vec i = Ok bytes;
  pd_typed : intent_well_typed i = true;
  pd_next : cm_head (i_next_metadata i) = Some (e_id (i_entry i));
  pd_none : m0 !! intent_key = None;
  pd_seq : m0 !! (NS_SESSION_SEQUENCE, i_session_sequence_key i) = i_expected_session_sequence i;
  pd_heads : m0 !! (NS_CHAIN_HEADS, i_head_key i) = i_expected_head i;
  pd_meta : m0 !! (NS_CHAIN_METADATA, i_head_key i) = i_expected_metadata i;
  pd_global : m0 !! (NS_GLOBAL_METADATA, GLOBAL_KEY) = i_expected_global i;
}.

(** The intent is installed and some of its writes, in any combination, have
    been made. *)
Record InFlight (m0 : KvMap) (i : AppendIntent) (data bytes : string) (m : KvMap) : Prop := {
  if_intent : m !! intent_key = Some bytes;
  if_rest : forall k, k <> intent_key ->
            m !! k = m0 !! k \/ exists v, put_intent i data ∅ !! k = Some v /\ m !! k = Some v;
}.

Lemma put_intent_union i data m : put_intent i data m = put_intent i data ∅ ∪ m.
Proof.
  unfold put_intent, put_segment. destruct (i_segment_key i); by rewrite <- ?insert_union_l, (left_id_L ∅ (∪)).
Qed.

Lemma in_flight_commit m0 i data bytes m : InFlight m0 i data bytes m -> commit i data m = commit i data m0.
Proof.
  intros [_ Hrest]. unfold commit. rewrite (put_intent_union i data m), (put_intent_union i data m0).
  apply map_eq. intros k. destruct (decide (k = intent_key)) as [->|Hne]; [by rewrite !lookup_delete_eq|].
  rewrite !lookup_delete_ne by done. destruct (put_intent i data ∅ !! k) as [v|] eqn:Hk.
  - by rewrite !(lookup_union_Some_l _ _ _ _ Hk).
  - rewrite !lookup_union_r by done. destruct (Hrest k Hne) as [Heq|(v & Hv & _)]; congruence.
Qed.

Lemma in_flight_write m0 i data bytes m k v :
  put_intent i data ∅ !! k = Some v -> k <> intent_key ->
  InFlight m0 i data bytes m -> InFlight m0 i data bytes (<[k := v]> m).
Proof.
  intros Hk Hne [Hi Hrest]. split; [by rewrite lookup_insert_ne|]. intros k' Hne'.
  destruct (decide (k = k')) as [<-|Hkk]; [|rewrite lookup_insert_ne by done; by apply Hrest].
  right. exists v. by rewrite lookup_insert_eq.
Qed.

Lemma in_flight_start m0 i data bytes : InFlight m0 i data bytes (<[intent_key := bytes]> m0).
Proof.
  split; [by rewrite lookup_insert_eq|]. intros k Hne. left. by rewrite lookup_insert_ne.
Qed.

(** ** Recovery *)

Lemma put_segment_lookup key next m k :
  (forall segment, k <> (NS_SEGMENT_INDEX, segment)) -> put_segment key next m !! k = m !! k.
Proof. intros Hk. destruct key; [|done]. simpl. by rewrite lookup_insert_ne. Qed.

Ltac put_simpl :=
  unfold put_intent;
  repeat first [ rewrite lookup_insert_eq | rewrite lookup_insert_ne by auto with astrid
               | rewrite put_segment_lookup by (intros; auto with astrid) ].

Lemma recover_cas_ideal (ns k : string) (e : option string) (v : string) (m : KvMap) :
  m !! (ns, k) = e \/ m !! (ns, k) = Some v -> recover_cas ns k e v m = (<[(ns, k) := v]> m, Ok tt).
Proof.
  intros Hm. unfold recover_cas, st_cas, eff_bind, eff_read, eff_lift, st_get. simpl.
  case_bool_decide as Hd; [done|]. destruct Hm as [?|Hm]; [done|]. simpl. rewrite Hm.
  rewrite bool_decide_eq_true_2 by done. by rewrite insert_id.
Qed.

Lemma st_cas_or_ideal (ns k : string) (e : option string) (v : string) (lost : AuditError) m :
  m !! (ns, k) = e -> st_cas_or ns k e v lost m = (<[(ns, k) := v]> m, Ok tt).
Proof. intros Hm. unfold st_cas_or, st_cas, eff_bind. simpl. by rewrite bool_decide_eq_true_2. Qed.

(** What recovery meets at a key of the intent: what the intent expects, or
    what it writes. *)
Lemma in_flight_at m0 i data bytes m k v :
  InFlight m0 i data bytes m -> k <> intent_key -> put_intent i data ∅ !! k = Some v ->
  m !! k = m0 !! k \/ m !! k = Some v.
Proof. intros [_ Hrest] Hne Hk. destruct (Hrest k Hne) as [?|(v' & ? & ?)]; naive_solver. Qed.

Lemma commit_entry_projection_ideal i (data : string) (m : KvMap) :
  entry_to_vec (i_entry i) = Ok data ->
  m !! (NS_SESSION_SEQUENCE, i_session_sequence_key i) = i_expected_session_sequence i \/
  m !! (NS_SESSION_SEQUENCE, i_session_sequence_key i) = Some (i_next_session_sequence i) ->
  commit_entry_projection i m =
  (<[(NS_SESSION_ENTRIES, i_session_index_key i) := MARK]>
   (<[(NS_SESSION_SEQUENCE, i_session_sequence_key i) := i_next_session_sequence i]>
    (<[(NS_ENTRIES, uuid_to_string (e_id (i_entry i))) := data]> m)), Ok tt).
Proof.
  intros Hdata Hm. unfold commit_entry_projection, write_session_index, st_cas, st_set, st_get, eff_bind, eff_read,
    eff_lift. rewrite Hdata. simpl. rewrite (lookup_insert_ne m) by auto with astrid.
  case_bool_decide; [done|]. destruct Hm as [?|Hm]; [done|]. simpl. rewrite lookup_insert_ne by auto with astrid.
  rewrite Hm, bool_decide_eq_true_2 by done. simpl.
  by rewrite (insert_id _ (NS_SESSION_SEQUENCE, _)) by (by rewrite lookup_insert_ne by auto with astrid).
Qed.

Lemma persist_sealed_segment_ideal (key : option string) next m :
  persist_sealed_segment key next m = (put_segment key next m, Ok tt).
Proof. by destruct key. Qed.

Lemma recover_writes_ideal (m0 : KvMap) i data bytes m :
  Pending m0 i data bytes -> InFlight m0 i data bytes m -> recover_writes i m = (put_intent i data m, Ok tt).
Proof.
  intros Hp Hf.
  assert (forall k (v : string), k <> intent_key -> put_intent i data ∅ !! k = Some v ->
            m !! k = m0 !! k \/ m !! k = Some v) as Hat by eauto using in_flight_at.
  unfold recover_writes.
  erewrite eff_bind_run by (apply commit_entry_projection_ideal; [by apply (pd_data m0 i data bytes)|];
    rewrite <- (pd_seq m0 i data bytes) by done; apply Hat; [auto with astrid|by put_simpl]).
  erewrite eff_bind_run by reflexivity. rewrite (pd_next m0 i data bytes) by done.
  erewrite eff_bind_run by reflexivity.
  erewrite eff_bind_run by (apply recover_cas_ideal; map_simpl; rewrite <- (pd_heads m0 i data bytes) by done;
    apply Hat; [auto with astrid|by put_simpl]).
  erewrite eff_bind_run by (apply recover_cas_ideal; map_simpl; rewrite <- (pd_meta m0 i data bytes) by done;
    apply Hat; [auto with astrid|by put_simpl]).
  erewrite eff_bind_run by apply persist_sealed_segment_ideal.
  rewrite recover_cas_ideal; [done|]. rewrite put_segment_lookup by (intros; auto with astrid). map_simpl.
  rewrite <- (pd_global m0 i data bytes) by done. apply Hat; [auto with astrid|by put_simpl].
Qed.

Lemma recover_ideal (m0 : KvMap) i data bytes m :
  Pending m0 i data bytes -> InFlight m0 i data bytes m -> recover_append_intents m = (commit i data m0, Ok tt).
Proof.
  intros Hp Hf. unfold recover_append_intents.
  erewrite eff_bind_run by (unfold eff_read, st_get; simpl; fold intent_key; by rewrite (if_intent _ _ _ _ _ Hf)).
  cbv beta iota.
  erewrite eff_bind_run by (unfold eff_lift; by rewrite (intent_roundtrip i bytes (pd_typed _ _ _ _ Hp) (pd_bytes _ _ _ _ Hp))).
  erewrite eff_bind_run by (by apply (recover_writes_ideal m0 i data bytes)).
  erewrite eff_bind_run by reflexivity. unfold eff_lift. f_equal.
  by apply (in_flight_commit _ _ _ bytes).
Qed.

Lemma recover_nothing (m : KvMap) : m !! intent_key = None -> recover_append_intents m = (m, Ok tt).
Proof.
  intros Hm. unfold recover_append_intents. erewrite eff_bind_run by reflexivity.
  change (m !! (NS_APPEND_INTENTS, APPEND_INTENT_KEY)) with (m !! intent_key). by rewrite Hm.
Qed.

(** ** Every write keeps the intent in flight *)

Section Flight.
  Context (m0 : KvMap) (i : AppendIntent) (data bytes : string).

Abbreviation flight := (InFlight m0 i data bytes).
Abbreviation keeps c := (triple (view := view) flight c (fun _ => flight) flight).

Lemma set_keeps (ns k v : string) :
  put_intent i data ∅ !! (ns, k) = Some v -> (ns, k) <> intent_key -> keeps (st_set ns k v).
Proof. intros Hk Hne. apply triple_set; intros m Hm; eauto using in_flight_write. Qed.

Lemma cas_keeps (ns k : string) (e : option string) (v : string) :
  put_intent i data ∅ !! (ns, k) = Some v -> (ns, k) <> intent_key -> keeps (st_cas ns k e v).
Proof. intros Hk Hne. apply triple_cas; intros m Hm; eauto using in_flight_write. Qed.

Lemma lift_keeps {A} (r : AuditResult A) : keeps (eff_lift r).
Proof. apply triple_lift. intros m Hm. by destruct r. Qed.

Lemma read_keeps {A} (f : S -> AuditResult A) (g : KvMap -> AuditResult A) :
  faithful (view := view) f g -> keeps (eff_read f).
Proof. intros Hf. by apply (triple_read _ _ g). Qed.

Lemma bind_keeps {A B} (c : eff S AuditError A) (k : A -> eff S AuditError B) :
  keeps c -> (forall a, keeps (k a)) -> keeps (eff_bind c k).
Proof. intros Hc Hk. by apply (triple_bind _ _ _ (fun _ => flight)). Qed.

Ltac keeps_step :=
  first [ apply set_keeps; [by put_simpl|auto with astrid] | apply cas_keeps; [by put_simpl|auto with astrid]
        | apply bind_keeps; [|intros ?] | apply lift_keeps | eapply read_keeps; apply st_get_faithful | case_match ].
Ltac keeps_tac := repeat keeps_step.

Lemma ok_keeps {A B} (a : A) (k : A -> eff S AuditError B) : keeps (k a) -> keeps (eff_bind (eff_lift (Ok a)) k).
Proof. done. Qed.

Lemma commit_entry_projection_keeps : entry_to_vec (i_entry i) = Ok data -> keeps (commit_entry_projection i).
Proof.
  intros Hd. unfold commit_entry_projection, write_session_index. rewrite Hd. apply ok_keeps. keeps_tac.
Qed.

Lemma persist_sealed_segment_keeps : keeps (persist_sealed_segment (i_segment_key i) (i_next_metadata i)).
Proof.
  unfold persist_sealed_segment. destruct (i_segment_key i) as [key|] eqn:Hk; [|apply lift_keeps].
  apply set_keeps; [|auto with astrid]. unfold put_intent. rewrite Hk. simpl.
  rewrite lookup_insert_ne by auto with astrid. by rewrite lookup_insert_eq.
Qed.

Lemma recover_cas_keeps (ns k : string) (e : option string) (v : string) :
  put_intent i data ∅ !! (ns, k) = Some v -> (ns, k) <> intent_key -> keeps (recover_cas ns k e v).
Proof.
  intros Hk Hne. unfold recover_cas. apply bind_keeps; [by apply cas_keeps|intros ?]. keeps_tac.
Qed.

Lemma recover_writes_keeps : Pending m0 i data bytes -> keeps (recover_writes i).
Proof.
  intros Hp. unfold recover_writes, mark_committed. rewrite (pd_next _ _ _ _ Hp).
  apply bind_keeps; [apply commit_entry_projection_keeps, (pd_data _ _ _ _ Hp)|intros _].
  apply bind_keeps; [keeps_tac|intros _]. apply ok_keeps.
  repeat first [apply bind_keeps; [|intros _] | apply persist_sealed_segment_keeps
               | apply recover_cas_keeps; [by put_simpl|auto with astrid]].
Qed.

(** The preparation the intent was made from. *)
Record prepared_for (entry : AuditEntry) (prepared : Preparation) (next : ChainMetadata) (global : GlobalState)
    (segment_key : option string) : Prop := {
  pf_entry : i_entry i = entry;
  pf_head_key : i_head_key i = pr_head_key prepared;
  pf_chain_key : chain_head_key (e_session_id entry) (e_principal entry) = pr_head_key prepared;
  pf_head : i_expected_head i = pr_expected_head_bytes prepared;
  pf_meta : i_expected_metadata i = pr_metadata_bytes prepared;
  pf_next : i_next_metadata i = next;
  pf_global : i_next_global i = gs_metadata global;
  pf_expected_global : i_expected_global i = gs_expected_bytes global;
  pf_segment : i_segment_key i = segment_key;
}.

Lemma commit_writes_keeps entry prepared next global segment_key :
  Pending m0 i data bytes -> prepared_for entry prepared next global segment_key ->
  keeps (commit_writes entry prepared next global segment_key i).
Proof.
  intros Hp [He Hhk Hck _ _ Hn Hg _ Hseg]. unfold commit_writes, commit_entry_and_head, persist_chain_transition,
    persist_append_global, st_cas_or, mark_committed. rewrite Hck, <- Hhk, <- Hn, <- Hg, <- Hseg.
  repeat first [apply commit_entry_projection_keeps, (pd_data _ _ _ _ Hp) | apply persist_sealed_segment_keeps | keeps_step].
Qed.

Lemma commit_entry_and_head_ideal entry prepared next global segment_key (m : KvMap) :
  Pending m0 i data bytes -> prepared_for entry prepared next global segment_key ->
  m !! (NS_SESSION_SEQUENCE, i_session_sequence_key i) = i_expected_session_sequence i ->
  m !! (NS_CHAIN_HEADS, i_head_key i) = i_expected_head i ->
  commit_entry_and_head prepared i m =
  (<[(NS_COMMITTED_ENTRIES, uuid_to_string (e_id (i_entry i))) := MARK]>
   (<[(NS_CHAIN_HEADS, i_head_key i) := uuid_to_string (e_id (i_entry i))]>
   (<[(NS_SESSION_ENTRIES, i_session_index_key i) := MARK]>
   (<[(NS_SESSION_SEQUENCE, i_session_sequence_key i) := i_next_session_sequence i]>
   (<[(NS_ENTRIES, uuid_to_string (e_id (i_entry i))) := data]> m)))), Ok tt).
Proof.
  intros Hp [_ Hhk _ Heh _ _ _ _ _] Hs Hh. unfold commit_entry_and_head. rewrite <- Hhk, <- Heh.
  erewrite eff_bind_run by (apply commit_entry_projection_ideal; [apply (pd_data _ _ _ _ Hp)|by left]).
  erewrite eff_bind_run by (apply st_cas_or_ideal; by map_simpl). done.
Qed.

Lemma commit_writes_ideal entry prepared next global segment_key :
  Pending m0 i data bytes -> prepared_for entry prepared next global segment_key ->
  commit_writes entry prepared next global segment_key i (<[intent_key := bytes]> m0) =
  (put_intent i data (<[intent_key := bytes]> m0), Ok tt).
Proof.
  intros Hp Hpf. unfold commit_writes, persist_chain_transition, persist_append_global.
  erewrite eff_bind_run by (eapply commit_entry_and_head_ideal;
    [done|done|map_simpl; apply (pd_seq _ _ _ _ Hp)|map_simpl; apply (pd_heads _ _ _ _ Hp)]).
  destruct Hpf as [He Hhk Hck Heh Hem Hn Hg Heg Hseg]. rewrite Hck, <- Hhk, <- Hem, <- Hn, <- Hg, <- Heg, <- Hseg.
  erewrite eff_bind_run by (apply st_cas_or_ideal; map_simpl; apply (pd_meta _ _ _ _ Hp)).
  erewrite eff_bind_run by apply persist_sealed_segment_ideal.
  rewrite st_cas_or_ideal by (rewrite put_segment_lookup by (intros; auto with astrid); map_simpl; apply (pd_global _ _ _ _ Hp)).
  unfold put_intent. f_equal. do 3 f_equal. by rewrite insert_insert_ne by auto with astrid.
Qed.
End Flight.

(** ** Recovery is atomic *)

(** Where recovery brings a store that answers. *)
Definition settle (m : KvMap) : KvMap := (recover_append_intents m).1.

(** No intent, or one that is in flight. *)
Definition Consistent (m : KvMap) : Prop :=
  m !! intent_key = None \/
  exists m0 i data bytes, Pending m0 i data bytes /\ InFlight m0 i data bytes m.

Lemma settle_none m : m !! intent_key = None -> settle m = m.
Proof. intros Hm. unfold settle. by rewrite recover_nothing. Qed.

Lemma settle_flight m0 i data bytes m :
  Pending m0 i data bytes -> InFlight m0 i data bytes m -> settle m = commit i data m0.
Proof. intros Hp Hf. unfold settle. by rewrite (recover_ideal m0 i data bytes). Qed.

Lemma commit_none i data m : commit i data m !! intent_key = None.
Proof. apply lookup_delete_eq. Qed.

Lemma Consistent_commit i data m : Consistent (commit i data m).
Proof. left. apply commit_none. Qed.

Lemma settle_commit i data m : settle (commit i data m) = commit i data m.
Proof. apply settle_none, commit_none. Qed.

Lemma settle_ok m : Consistent m -> recover_append_intents m = (settle m, Ok tt) /\ settle m !! intent_key = None.
Proof.
  intros [Hm|(m0 & i & data & bytes & Hp & Hf)].
  - by rewrite settle_none, recover_nothing.
  - rewrite (settle_flight m0 i data bytes), (recover_ideal m0 i data bytes) by done. split; [done|apply commit_none].
Qed.

(** Started in flight, the writes and the removal of the intent end with the
    commit, or leave the intent in flight or the commit done. *)
Lemma finish_flight {A : Type} (m0 : KvMap) i data bytes (writes : eff S AuditError unit) (writesi : eff KvMap AuditError unit)
    (rest : eff S AuditError A) (Q : A -> KvMap -> Prop) m :
  mirrors (view := view) writes writesi ->
  triple (view := view) (InFlight m0 i data bytes) writes (fun _ => InFlight m0 i data bytes) (InFlight m0 i data bytes) ->
  InFlight m0 i data bytes m -> writesi m = (put_intent i data m, Ok tt) ->
  triple (view := view) (eq (commit i data m0)) rest Q (eq (commit i data m0)) ->
  triple (view := view) (eq m) (do? _ := writes in do? _ := remove_append_intent in rest) Q
    (fun m' => InFlight m0 i data bytes m' \/ m' = commit i data m0).
Proof.
  intros Hmir Hkeep Hf Hw Hrest. pose proof (triple_mirror (eq m) _ _ (fun _ => InFlight m0 i data bytes)
    (InFlight m0 i data bytes) Hmir) as Hm.
  eapply triple_bind; [eapply triple_conseq; [apply Hm|done|intros a m' Hm'; exact Hm'|by left]|].
  { eapply triple_conseq; [apply Hkeep|by intros ? <-|done|done]. }
  intros []. apply triple_pre. intros m1 (Hf1 & m2 & <- & Hm1). rewrite Hw in Hm1. injection Hm1 as <-.
  unfold remove_append_intent.
  eapply (triple_bind _ _ _ (fun _ m' => m' = commit i data m0)).
  - eapply (triple_bind _ _ _ (fun _ m' => m' = commit i data m0)).
    + apply triple_delete; intros m' <-.
      * fold intent_key. by apply (in_flight_commit m0 i data bytes).
      * fold intent_key. split; [by left|]. right. by apply (in_flight_commit m0 i data bytes).
    + intros b. apply triple_lift. done.
  - intros []. eapply triple_conseq; [apply Hrest|done|done|]. intros m' <-. by right.
Qed.

Lemma flight_settled m0 i data bytes m :
  Pending m0 i data bytes -> InFlight m0 i data bytes m \/ m = commit i data m0 ->
  Consistent m /\ settle m = commit i data m0.
Proof.
  intros Hp [Hf| ->].
  - split; [right; eauto 6|by apply (settle_flight m0 i data bytes)].
  - split; [apply Consistent_commit|apply settle_commit].
Qed.

Lemma recover_triple (t : KvMap) :
  triple (view := view) (fun m => Consistent m /\ settle m = t) recover_append_intents
    (fun _ m => m = t /\ m !! intent_key = None) (fun m => Consistent m /\ settle m = t).
Proof.
  apply triple_pre. intros m [Hc <-]. unfold recover_append_intents.
  eapply (triple_bind _ _ _ (fun b m' => m' = m /\ b = m !! intent_key)).
  { eapply (triple_read _ _ (fun m => st_get m _ _)); [apply st_get_faithful| |by intros ? <-].
    intros m' b <- [= <-]. done. }
  intros b. apply triple_pre. intros ? [-> ->].
  destruct Hc as [Hm|(m0 & i & data & bytes & Hp & Hf)].
  - rewrite Hm. apply triple_lift. intros ? <-. rewrite settle_none by done. done.
  - rewrite (if_intent _ _ _ _ _ Hf). rewrite (intent_roundtrip i bytes (pd_typed _ _ _ _ Hp) (pd_bytes _ _ _ _ Hp)).
    eapply (triple_bind _ _ _ (fun a m' => a = i /\ m' = m)); [apply triple_lift; by intros ? <-|].
    intros a. apply triple_pre. intros ? [-> ->]. rewrite (settle_flight m0 i data bytes m) by done.
    refine (triple_conseq _ _ _ _ _ _ _ (finish_flight m0 i data bytes _ _ _
              (fun _ m' => m' = commit i data m0 /\ m' !! intent_key = None) m (recover_writes_mirrors i)
              (recover_writes_keeps _ _ _ _ Hp) Hf _ _) _ _ _); [| |done|done|].
    + by apply (recover_writes_ideal m0 i data bytes).
    + apply triple_lift. intros ? <-. split; [done|apply commit_none].
    + intros m' Hm'. exact (flight_settled m0 i data bytes m' Hp Hm').
Qed.

(** ** Appending under an intent *)

Abbreviation chain_key_of entry := (chain_head_key (e_session_id entry) (e_principal entry)).

(** The stored head brought in line with the head the metadata names. *)
Definition touched entry expected (t m : KvMap) : Prop :=
  m = t \/ exists head, expected = Some head /\
    get_chain_head t (e_session_id entry) (e_principal entry) = Ok expected /\
    m = <[(NS_CHAIN_HEADS, chain_key_of entry) := uuid_to_string head]> t.

(** The mark an append refused at the cap leaves. *)
Definition marked_full (m m' : KvMap) : Prop :=
  exists expected_bytes g, load_global_metadata m = Ok (expected_bytes, g) /\ gm_retention_hold g = None /\
    m' = <[(NS_GLOBAL_METADATA, GLOBAL_KEY) := global_to_vec (with_status g true (Some CAP_REACHED))]> m.

(** What a preparation says of the settled state [t] it was made in and of
    the state [m] it leaves. *)
Record PreparedAt (t : KvMap) entry expected prepared (m : KvMap) : Prop := {
  pp_key : pr_head_key prepared = chain_key_of entry;
  pp_valid : validate_storage_key (chain_key_of entry) = Ok tt;
  pp_head : get_chain_head t (e_session_id entry) (e_principal entry) = Ok expected;
  pp_expected : pr_expected_head_bytes prepared = uuid_to_string <$> expected;
  pp_touched : touched entry expected t m;
  pp_stored : m !! (NS_CHAIN_HEADS, chain_key_of entry) = uuid_to_string <$> expected;
  pp_meta : m !! (NS_CHAIN_METADATA, chain_key_of entry) = pr_metadata_bytes prepared;
  pp_prior : exists metadata,
    load_chain_metadata t (e_session_id entry) (e_principal entry) = Ok (pr_metadata_bytes prepared, metadata) /\
    pr_prior prepared = default ChainMetadata_default metadata;
}.

Lemma load_chain_metadata_bytes (m : KvMap) session principal b md :
  load_chain_metadata m session principal = Ok (b, md) -> m !! (NS_CHAIN_METADATA, chain_head_key session principal) = b.
Proof. unfold load_chain_metadata, st_get. simpl. destruct (m !! _); simpl; intros Hl; inv_ok; simplify_eq; done. Qed.

Lemma load_global_metadata_bytes (m : KvMap) b g :
  load_global_metadata m = Ok (b, g) -> m !! (NS_GLOBAL_METADATA, GLOBAL_KEY) = b.
Proof. unfold load_global_metadata, st_get. simpl. destruct (m !! _); simpl; intros Hl; inv_ok; simplify_eq; done. Qed.

Lemma key_new_Ok key key' : key_new key = Ok key' -> key' = key /\ validate_storage_key key = Ok tt.
Proof. unfold key_new. intros Hk. inv_ok. done. Qed.

Lemma read_chain_Ok (t : KvMap) entry expected chain :
  read_chain t entry expected = Ok (Some chain) ->
  exists metadata_bytes metadata,
    chain = (chain_key_of entry, t !! (NS_CHAIN_HEADS, chain_key_of entry), metadata_bytes, metadata) /\
    validate_storage_key (chain_key_of entry) = Ok tt /\
    get_chain_head t (e_session_id entry) (e_principal entry) = Ok expected /\
    load_chain_metadata t (e_session_id entry) (e_principal entry) = Ok (metadata_bytes, metadata).
Proof.
  unfold read_chain. intros (current & Hc & Hr)%rbind_Ok. case_bool_decide as Hcur; [subst current|by inv_ok].
  simpl in Hr. apply rbind_Ok in Hr as (key & [-> Hv]%key_new_Ok & Hr). apply rbind_Ok in Hr as ([b md] & Hl & Hr).
  exists b, md. repeat case_match; simplify_eq; done.
Qed.

(** Why an append is refused: another head is current, or the caller expects
    none and one is stored. *)
Definition Refused entry expected (t : KvMap) : Prop :=
  read_chain t entry expected = Ok None \/
  expected = None /\ t !! (NS_CHAIN_HEADS, chain_key_of entry) <> None.

Lemma prepare_triple (t : KvMap) entry expected :
  triple (view := view) (eq t) (prepare_append entry expected)
    (fun p m => match p with
                | Some prepared => PreparedAt t entry expected prepared m
                | None => m = t /\ Refused entry expected t
                end)
    (touched entry expected t).
Proof.
  unfold prepare_append.
  eapply (triple_bind _ _ _ (fun c m => m = t /\ read_chain t entry expected = Ok c)).
  { eapply triple_read; [apply read_chain_faithful| |by intros ? <-; left]. by intros ? ? <-. }
  intros c. apply triple_pre. intros ? [-> Hc].
  destruct c as [chain|]; [|apply triple_lift; intros ? <-; split; [done|by left]].
  apply read_chain_Ok in Hc as (b & md & -> & Hv & Hh & Hl).
  eapply (triple_bind _ _ _ (fun r m => if r : bool
     then touched entry expected t m /\ m !! (NS_CHAIN_HEADS, chain_key_of entry) = uuid_to_string <$> expected
     else m = t /\ Refused entry expected t)).
  - unfold reconcile_stored_head. case_bool_decide as Hd.
    { apply triple_lift. intros ? <-. split; [by left|done]. }
    destruct expected as [head|]; [|apply triple_lift; intros ? <-; split; [done|by right]]. simpl.
    apply triple_cas; intros ? <-.
    + intros _. split; [right; eauto|by rewrite lookup_insert_eq].
    + done.
    + split; [by left|]. intros _. right; eauto.
  - intros [|]; apply triple_lift; [|done]. intros m [Ht Hs]. split; try done.
    + rewrite <- (load_chain_metadata_bytes _ _ _ _ _ Hl). destruct Ht as [->|(head & _ & _ & ->)]; [done|].
      by rewrite lookup_insert_ne by auto with astrid.
    + simpl. eauto.
Qed.

(** The record an append is admitted with. *)
Definition admitted (g : GlobalMetadata) (entry_bytes : N) (g1 : GlobalMetadata) : Prop :=
  (at_cap g entry_bytes = false /\ g1 = g) \/
  exists hold, gm_retention_hold g = Some hold /\ g1 = with_status g true (Some hold).

Record PlannedAt (m : KvMap) entry prepared (plan : AppendPlan) (data : string) (g g1 : GlobalMetadata) : Prop := {
  pl_data : entry_to_vec entry = Ok data;
  pl_loaded : load_global_metadata m = Ok (gs_expected_bytes (ap_global plan), g);
  pl_admitted : admitted g (str_len data) g1;
  pl_next : ap_next plan = (advance_chain entry (pr_prior prepared) (str_len data) g1).1;
  pl_global : gs_metadata (ap_global plan) =
    account_global_append (advance_chain entry (pr_prior prepared) (str_len data) g1).2 (pr_prior prepared)
      (ap_next plan) (str_len data);
  pl_segment : sealed_segment_key (pr_head_key prepared) (ap_next plan) (gs_metadata (ap_global plan))
    = Ok (ap_segment_key plan);
  pl_sequence : prepare_session_sequence (e_session_id entry) (e_id entry) m = Ok (ap_sequence plan);
}.

Lemma admit_triple (m : KvMap) n :
  triple (view := view) (eq m) (admit_append n)
    (fun gs m' => m' = m /\ exists g, load_global_metadata m = Ok (gs_expected_bytes gs, g) /\ admitted g n (gs_metadata gs))
    (fun m' => m' = m \/ marked_full m m').
Proof.
  unfold admit_append.
  eapply (triple_bind _ _ _ (fun l m' => m' = m /\ load_global_metadata m = Ok l)).
  { eapply triple_read; [apply load_global_metadata_faithful| |by intros ? <-; left]. by intros ? ? <-. }
  intros [b g]. apply triple_pre. intros ? [-> Hl]. destruct (at_cap g n) eqn:Hcap.
  - destruct (gm_retention_hold g) as [hold|] eqn:Hhold.
    { apply triple_lift. intros ? <-. split; [done|]. exists g. split; [done|]. right. eauto. }
    eapply (triple_bind _ _ _ (fun _ m' => m' = m \/ marked_full m m')).
    + apply triple_cas; intros ? <-; [intros _; right|by left|split; [by left|intros _; right]];
        exists b, g; split_and!; done.
    + intros _. apply triple_lift. done.
  - apply triple_lift. intros ? <-. split; [done|]. exists g. split; [done|]. by left.
Qed.

Lemma plan_triple (m : KvMap) entry prepared :
  triple (view := view) (eq m) (plan_append entry prepared)
    (fun plan m' => m' = m /\ exists data g g1, PlannedAt m entry prepared plan data g g1)
    (fun m' => m' = m \/ marked_full m m').
Proof.
  unfold plan_append, serialized_len. destruct (entry_to_vec entry) as [data|e] eqn:Hdata;
    cbn [rbind map_err].
  2: { eapply (triple_bind _ _ _ (fun _ _ => False)); [apply triple_lift; intros ? <-; by left|]. intros ?.
       apply triple_pre. done. }
  eapply (triple_bind _ _ _ (fun n m' => n = str_len data /\ m' = m)); [apply triple_lift; by intros ? <-|].
  intros n. apply triple_pre. intros ? [-> ->].
  eapply triple_bind; [apply admit_triple|]. intros gs. apply triple_pre. intros ? [-> (g & Hl & Ha)].
  destruct (advance_chain entry (pr_prior prepared) (str_len data) (gs_metadata gs)) as [next g2] eqn:Hadv.
  set (global := MkGlobalState (gs_expected_bytes gs) (account_global_append g2 (pr_prior prepared) next (str_len data))).
  eapply (triple_bind _ _ _ (fun k m' => sealed_segment_key (pr_head_key prepared) next (gs_metadata global) = Ok k /\ m' = m)).
  { apply triple_lift. intros ? <-. by destruct (sealed_segment_key _ _ _); [|left]. }
  intros k. apply triple_pre. intros ? [Hk ->].
  eapply (triple_bind _ _ _ (fun sq m' => prepare_session_sequence (e_session_id entry) (e_id entry) m = Ok sq /\ m' = m)).
  { eapply triple_read; [apply prepare_session_sequence_faithful| |by intros ? <-; left]. by intros ? ? <-. }
  intros sq. apply triple_lift. intros ? [Hsq ->]. split; [done|]. exists data, g, (gs_metadata gs).
  split; try done; by rewrite Hadv.
Qed.

Lemma sequence_length (v : N) : str_len (sequence_bytes v) = 8%N.
Proof. unfold str_len, sequence_bytes. by rewrite <- length_as_bytes, as_bytes_of_bytes, length_to_be_bytes. Qed.

Lemma prepare_session_sequence_Ok (m : KvMap) session id sq :
  prepare_session_sequence session id m = Ok sq ->
  exists current, sw_sequence_key sq = uuid_to_string session /\
    validate_storage_key (sw_sequence_key sq) = Ok tt /\
    sw_expected sq = m !! (NS_SESSION_SEQUENCE, uuid_to_string session) /\
    sequence_of (sw_expected sq) = Ok current /\ (current + 1 <= U64_MAX)%N /\
    sw_next_sequence sq = sequence_bytes (current + 1) /\
    sw_index_key sq = session_index_key (uuid_to_string session) (current + 1) (uuid_to_string id) /\
    validate_storage_key (sw_index_key sq) = Ok tt.
Proof.
  unfold prepare_session_sequence. intros (key & [-> Hv]%key_new_Ok & Hr)%rbind_Ok.
  apply rbind_Ok in Hr as (e & He & Hr). unfold st_get in He. simpl in He. injection He as <-.
  apply rbind_Ok in Hr as (current & Hcur & Hr). apply rbind_Ok in Hr as (next & Hn & Hr).
  apply rbind_Ok in Hr as (ik & [-> Hik]%key_new_Ok & [= <-]). unfold checked_next, checked_add in Hn. inv_ok.
  destruct (_ <=? _)%N eqn:Hle; [|done]. apply N.leb_le in Hle. simplify_eq.
  exists current. simpl. done.
Qed.

Lemma sequence_of_length (o : option string) n : sequence_of o = Ok n -> Forall (fun b => str_len b = 8%N) (option_list o).
Proof.
  destruct o as [b|]; simpl; [|constructor]. unfold parse_sequence, sequence_from_bytes.
  intros Hb. inv_ok. repeat constructor. by apply N.eqb_eq.
Qed.

Lemma sealed_segment_key_Ok key next g segment_key :
  sealed_segment_key key next g = Ok segment_key ->
  segment_key = (if cm_sealed next then Some (segment_index_key (gm_next_seal_ordinal g) key (cm_segment next)) else None) /\
  Forall (fun k => validate_storage_key k = Ok tt) (option_list segment_key).
Proof.
  unfold sealed_segment_key. destruct (cm_sealed next).
  - intros (k & [-> Hk]%key_new_Ok & [= <-])%rbind_Ok. split; [done|]. by repeat constructor.
  - intros [= <-]. split; [done|constructor].
Qed.

Lemma intent_typed i :
  validate_storage_key (i_head_key i) = Ok tt -> validate_storage_key (i_session_sequence_key i) = Ok tt ->
  validate_storage_key (i_session_index_key i) = Ok tt ->
  Forall (fun k => validate_storage_key k = Ok tt) (option_list (i_segment_key i)) ->
  str_len (i_next_session_sequence i) = 8%N ->
  Forall (fun b => str_len b = 8%N) (option_list (i_expected_session_sequence i)) -> intent_well_typed i = true.
Proof.
  intros Hh Hs Hx Hseg Hn He. unfold intent_well_typed. simpl. rewrite Hh, Hs, Hx, Hn. simpl.
  assert (forallb (fun key => is_ok (validate_storage_key key)) (option_list (i_segment_key i)) = true) as ->.
  { apply forallb_forall. intros k Hk%list_elem_of_In. rewrite Forall_forall in Hseg. by rewrite (Hseg k Hk). }
  simpl. apply forallb_forall. intros b Hb%list_elem_of_In. rewrite Forall_forall in He. by rewrite (He b Hb).
Qed.

Lemma plan_pending (t m : KvMap) entry expected prepared plan data g g1 bytes :
  m !! intent_key = None -> PreparedAt t entry expected prepared m -> PlannedAt m entry prepared plan data g g1 ->
  intent_to_vec (intent_of entry prepared plan) = Ok bytes ->
  Pending m (intent_of entry prepared plan) data bytes.
Proof.
  intros Hnone Hp Hpl Hb.
  destruct (prepare_session_sequence_Ok _ _ _ _ (pl_sequence _ _ _ _ _ _ _ Hpl))
    as (current & Hkey & Hvk & Hexp & Hcur & _ & Hnext & Hidx & Hvi).
  split; cbn [intent_of i_entry i_head_key i_session_sequence_key i_expected_session_sequence i_expected_head
              i_expected_metadata i_expected_global i_next_metadata]; try done.
  - apply (pl_data _ _ _ _ _ _ _ Hpl).
  - destruct (sealed_segment_key_Ok _ _ _ _ (pl_segment _ _ _ _ _ _ _ Hpl)) as [_ Hseg].
    apply sequence_of_length in Hcur. apply intent_typed; cbn; rewrite ?Hnext, ?sequence_length; try done.
    rewrite (pp_key _ _ _ _ _ Hp). by apply (pp_valid _ _ _ _ _ Hp).
  - by rewrite (pl_next _ _ _ _ _ _ _ Hpl).
  - by rewrite Hkey, Hexp.
  - rewrite (pp_key _ _ _ _ _ Hp), (pp_stored _ _ _ _ _ Hp). by rewrite (pp_expected _ _ _ _ _ Hp).
  - rewrite (pp_key _ _ _ _ _ Hp). apply (pp_meta _ _ _ _ _ Hp).
  - apply (load_global_metadata_bytes _ _ g), (pl_loaded _ _ _ _ _ _ _ Hpl).
Qed.

(** The state a completed append leaves, from the settled state [t]. *)
Definition Appended entry expected (t m' : KvMap) : Prop :=
  exists m prepared plan data g g1,
    PreparedAt t entry expected prepared m /\ PlannedAt m entry prepared plan data g g1 /\
    m' = commit (intent_of entry prepared plan) data m.

(** What an append that did not happen may leave. *)
Definition NotAppended entry expected (t m' : KvMap) : Prop :=
  exists m, touched entry expected t m /\ (m' = m \/ marked_full m m').

Lemma touched_none entry expected (t m : KvMap) : touched entry expected t m -> t !! intent_key = None -> m !! intent_key = None.
Proof. intros [->|(head & _ & _ & ->)] Ht; [done|]. by rewrite lookup_insert_ne by auto with astrid. Qed.

Lemma not_appended_settled entry expected (t m : KvMap) :
  t !! intent_key = None -> NotAppended entry expected t m -> Consistent m /\ NotAppended entry expected t (settle m).
Proof.
  intros Ht Hn. assert (m !! intent_key = None) as Hm.
  { destruct Hn as (m1 & Htm & Hn). apply (touched_none _ _ _ _ Htm) in Ht. destruct Hn as [->|(b & g & _ & _ & ->)]; [done|].
    by rewrite lookup_insert_ne by auto with astrid. }
  split; [by left|]. by rewrite settle_none.
Qed.

Lemma append_prepared_triple (t m : KvMap) entry expected prepared :
  t !! intent_key = None -> PreparedAt t entry expected prepared m ->
  triple (view := view) (eq m) (append_prepared entry prepared)
    (fun b m' => b = true /\ Appended entry expected t m' /\ m' !! intent_key = None)
    (fun m' => NotAppended entry expected t m' \/
               Consistent m' /\ Appended entry expected t (settle m')).
Proof.
  intros Ht Hp. pose proof (touched_none _ _ _ _ (pp_touched _ _ _ _ _ Hp) Ht) as Hm. unfold append_prepared.
  assert (forall m', m' = m \/ marked_full m m' -> NotAppended entry expected t m') as Hnot.
  { intros m' Hm'. exists m. split; [apply (pp_touched _ _ _ _ _ Hp)|done]. }
  eapply triple_bind; [eapply triple_conseq; [apply plan_triple|done|done|by left; apply Hnot]|].
  intros plan. apply triple_pre. intros ? [-> (data & g & g1 & Hpl)].
  set (i := intent_of entry prepared plan). unfold install_append_intent.
  destruct (intent_to_vec i) as [bytes|e] eqn:Hb; cbn [map_err].
  2: { eapply (triple_bind _ _ _ (fun _ _ => False)); [|intros ?; by apply triple_pre].
       eapply (triple_bind _ _ _ (fun _ _ => False)); [|intros ?; by apply triple_pre].
       apply triple_lift. intros ? <-. left. apply Hnot. by left. }
  pose proof (plan_pending _ _ _ _ _ _ _ _ _ _ Hm Hp Hpl Hb) as Hpend. fold i in Hpend.
  assert (Appended entry expected t (commit i data m)) as Happ by (exists m, prepared, plan, data, g, g1; done).
  assert (forall m', InFlight m i data bytes m' \/ m' = commit i data m ->
            Consistent m' /\ Appended entry expected t (settle m')) as Hfl.
  { intros m' Hf. destruct (flight_settled m i data bytes m' Hpend Hf) as [Hc ->]. done. }
  eapply (triple_bind _ _ _ (fun _ m' => m' = <[intent_key := bytes]> m)).
  { eapply (triple_bind _ _ _ (fun b m' => b = bytes /\ m' = m)); [apply triple_lift; by intros ? <-|].
    intros b. apply triple_pre. intros ? [-> ->]. apply triple_set; intros ? <-; [done|]. split.
    - left. apply Hnot. by left.
    - right. apply Hfl. left. apply in_flight_start. }
  intros []. apply triple_pre. intros ? ->.
  assert (prepared_for i entry prepared (ap_next plan) (ap_global plan) (ap_segment_key plan)) as Hpf.
  { split; try done. symmetry. apply (pp_key _ _ _ _ _ Hp). }
  refine (triple_conseq _ _ _ _ _ _ _ (finish_flight m i data bytes _ _ _
            (fun b m' => b = true /\ m' = commit i data m) _ (commit_writes_mirrors _ _ _ _ _ i)
            (commit_writes_keeps _ _ _ _ _ _ _ _ _ Hpend Hpf) (in_flight_start _ _ _ _) _ _) _ _ _).
  - by apply commit_writes_ideal.
  - apply triple_lift. by intros ? <-.
  - done.
  - intros b m' [-> ->]. split_and!; [done|done|apply commit_none].
  - intros m' Hm'. right. by apply Hfl.
Qed.

(** The append was checked against the registry and completed. *)
Definition Committed entry expected (t m' : KvMap) : Prop :=
  kv_check_registry_state t [entry] = Ok tt /\ Appended entry expected t m'.

Lemma append_triple (t : KvMap) entry expected :
  triple (view := view) (fun m => Consistent m /\ settle m = t) (append_if_head_durable entry expected)
    (fun b m' => m' !! intent_key = None /\
                 if b : bool then Committed entry expected t m'
                 else m' = t /\ kv_check_registry_state t [entry] = Ok tt /\ Refused entry expected t)
    (fun m' => Consistent m' /\
               (NotAppended entry expected t (settle m') \/ Committed entry expected t (settle m'))).
Proof.
  assert (forall m', t !! intent_key = None -> NotAppended entry expected t m' ->
            Consistent m' /\ (NotAppended entry expected t (settle m') \/ Committed entry expected t (settle m'))) as Hno.
  { intros m' Ht Hn. destruct (not_appended_settled _ _ _ _ Ht Hn); auto. }
  unfold append_if_head_durable. eapply triple_bind.
  { eapply triple_conseq; [apply (recover_triple t)|done|done|]. intros m [Hc <-]. split; [done|]. left.
    exists (settle m). split; by left. }
  intros []. apply triple_pre. intros ? [-> Ht].
  assert (NotAppended entry expected t t) as Htt by (exists t; split; by left).
  eapply (triple_bind _ _ _ (fun _ m => m = t /\ kv_check_registry_state t [entry] = Ok tt)).
  { eapply triple_read; [apply check_registry_state_faithful|by intros ? [] <-|]. intros ? <-. by apply Hno. }
  intros []. apply triple_pre. intros ? [-> Hreg]. eapply triple_bind.
  { eapply triple_conseq; [apply (prepare_triple t)|done|done|]. intros m Hm. apply Hno; [done|].
    exists m. split; [done|by left]. }
  intros [prepared|]; [|apply triple_lift; by intros ? [-> Hr]].
  apply triple_pre. intros m Hp. eapply triple_conseq; [by apply (append_prepared_triple t)|done| |].
  - intros b m' (-> & Ha & Hn). done.
  - intros m' [Hn|[Hc Ha]]; [by apply Hno|]. split; [done|]. by right.
Qed.

(** C4: an append under an intent is atomic under failures.  From any store an
    earlier append may have been interrupted on, and whichever write of the
    backend fails, the store an append leaves can be recovered: recovery
    succeeds on it.  When the append answers [true] the store is the one the
    completed append leaves; when it answers [false] the store is the
    recovered one it started from and the chain's head was not the one named;
    when it fails, the recovered store is either of the two, beside the mark
    an append refused at the cap leaves: never a part of the append. *)
Theorem append_crash_atomic : forall (s s' : S) entry expected r,
  Consistent (view s) -> append_if_head_durable entry expected s = (s', r) ->
  recover_append_intents (view s') = (settle (view s'), Ok tt) /\
  match r with
  | Ok true => settle (view s') = view s' /\ Committed entry expected (settle (view s)) (view s')
  | Ok false => view s' = settle (view s) /\ Refused entry expected (settle (view s))
  | Err _ => NotAppended entry expected (settle (view s)) (settle (view s')) \/
             Committed entry expected (settle (view s)) (settle (view s'))
  end.
Proof.
  intros s s' entry expected r Hc Hrun.
  pose proof (append_triple (settle (view s)) entry expected s s' r (conj Hc eq_refl) Hrun) as Ht.
  destruct r as [[|]|err].
  - destruct Ht as [Hn Hcom]. split; [by apply settle_ok; left|]. by rewrite settle_none.
  - destruct Ht as (Hn & Heq & _ & Href). split; [by apply settle_ok; left|done].
  - destruct Ht as [Hc' Ht]. split; [by apply settle_ok|done].
Qed.

(** Recovery can be interrupted and started again any number of times.
    Each run keeps the store recoverable to the same state, and a run that
    succeeds reaches it. *)
Theorem recovery_restarts : forall (s s' : S) r,
  Consistent (view s) -> recover_append_intents s = (s', r) ->
  Consistent (view s') /\ settle (view s') = settle (view s) /\
  match r with Ok _ => view s' = settle (view s) | Err _ => True end.
Proof.
  intros s s' r Hc Hrun. pose proof (recover_triple (settle (view s)) s s' r (conj Hc eq_refl) Hrun) as Ht.
  destruct r as [[]|err]; [|by destruct Ht as [? ->]].
  destruct Ht as [Heq Hn]. split_and!; [by left| |done]. rewrite settle_none by done. done.
Qed.
End Crash.

#[export] Hint Resolve st_get_faithful st_exists_faithful get_faithful load_chain_metadata_faithful
  load_global_metadata_faithful get_chain_head_faithful check_registry_state_faithful : faithful.
#[export] Hint Resolve st_set_mirrors st_cas_mirrors st_delete_mirrors recover_mirrors append_mirrors : mirrors.
