(* ===== verification/AuditHistory.v ===== *)
(** * The history the audit storage keeps

    A history is the list of entries appended so far.  [Represents] says that
    a store holds exactly that history: its entries, their commit marks, the
    per-session index in order, each chain's head and counters, and the global
    totals.  Reading a session or a chain head returns what the history says;
    an append under an intent extends the history by one entry, also when the
    backend fails on the way; and so the storage implements
    [append_if_head] of [AuditLog]. *)

From stdpp Require Import sorting pretty.
From S2P Require Import Prelude Kv Bytes Cbor Crypto KeyRegistry AuditEntry AuditChain AuditLog.
From S2P Require Import AuditStorage CrashLogic AuditDurability.
From Stdlib Require Import Ascii.
Local Open Scope string_scope.
Local Open Scope list_scope.

#[local] Existing Instance ideal_store.

(** ** The order of index keys *)

Lemma le_app_common p a b : String.le a b -> String.le (p +:+ a) (p +:+ b).
Proof. intros Hab. induction p as [|c p IH]; [done|]. apply le_cons. by right. Qed.

Lemma decimal_digit q : (q < 10)%N -> N_of_ascii (ascii_of_N (48 + q)) = (48 + q)%N.
Proof. intros Hq. apply N_ascii_embedding. lia. Qed.

Lemma pow_10_S w : (10 ^ N.of_nat (S w) = 10 * 10 ^ N.of_nat w)%N.
Proof. by rewrite Nat2N.inj_succ, N.pow_succ_r'. Qed.

Lemma decimal_le w n n' x y :
  (n < n')%N -> (n' < 10 ^ N.of_nat w)%N -> String.le (decimal w n +:+ x) (decimal w n' +:+ y).
Proof.
  revert n n'. induction w as [|w IH]; intros n n' Hlt Hb; [change (10 ^ N.of_nat 0)%N with 1%N in Hb; lia|].
  rewrite pow_10_S in Hb. cbn [decimal String.append]. set (P := (10 ^ N.of_nat w)%N) in *.
  assert (0 < P)%N as HP by (unfold P; lia).
  pose proof (N.div_mod' n P) as Hn. pose proof (N.div_mod' n' P) as Hn'.
  pose proof (N.mod_lt n P ltac:(lia)) as Hr. pose proof (N.mod_lt n' P ltac:(lia)) as Hr'.
  assert (n' / P < 10)%N as Hq' by (apply N.Div0.div_lt_upper_bound; lia).
  assert (n / P <= n' / P)%N as Hq by (apply N.Div0.div_le_mono; lia).
  apply le_cons. rewrite !decimal_digit by lia.
  destruct (N.lt_ge_cases (n / P) (n' / P)) as [Hlt'|Hge]; [left; lia|right].
  assert (n / P = n' / P)%N as Heq by lia. split; [by rewrite Heq|]. apply IH; [|done].
  rewrite Heq in Hn. nia.
Qed.

Lemma u64_digits n : (n <= U64_MAX)%N -> (n < 10 ^ N.of_nat 20)%N.
Proof. unfold U64_MAX. intros Hn. eapply N.le_lt_trans; [exact Hn|]. by vm_compute. Qed.

Lemma session_index_key_le s n n' id id' :
  (n < n')%N -> (n' <= U64_MAX)%N -> String.le (session_index_key s n id) (session_index_key s n' id').
Proof.
  intros Hlt Hb. unfold session_index_key. do 2 apply le_app_common. unfold pad20.
  apply decimal_le; [done|by apply u64_digits].
Qed.

Lemma string_length_app a b : String.length (a +:+ b) = (String.length a + String.length b)%nat.
Proof. induction a as [|c a IH]; [done|]. change (String.length (String c (a +:+ b)) = S (String.length a + String.length b)). simpl. by rewrite IH. Qed.

Lemma app_same_length a b x y : String.length a = String.length b -> a +:+ x = b +:+ y -> a = b /\ x = y.
Proof.
  revert b; induction a as [|c a IH]; intros [|d b] Hl Heq; try done.
  injection Heq as -> Heq. injection Hl as Hl. destruct (IH b Hl Heq) as [-> ->]. done.
Qed.

Section Keys.
  Context `{UuidTextLaws}.

Lemma chain_head_key_inj s p s' p' : chain_head_key s p = chain_head_key s' p' -> s = s' /\ p = p'.
Proof.
  assert (forall s s', String.length (uuid_to_string s) = String.length (uuid_to_string s')) as Hlen
    by (intros; by rewrite !uuid_length).
  assert (forall s s' q, uuid_to_string s <> uuid_to_string s' +:+ ":" +:+ q) as Hne.
  { intros x y q Heq. apply (f_equal String.length) in Heq. rewrite string_length_app in Heq. simpl in Heq.
    rewrite (Hlen x y) in Heq. lia. }
  destruct p as [p|], p' as [p'|]; simpl; intros Heq.
  - apply app_same_length in Heq as [Hu Hp%(inj _)]; [|done]. apply uuid_to_string_inj in Hu. by subst.
  - by symmetry in Heq; apply Hne in Heq.
  - by apply Hne in Heq.
  - by apply uuid_to_string_inj in Heq.
Qed.

Lemma session_prefix s s' n id :
  starts_with (uuid_to_string s' +:+ ":") (session_index_key (uuid_to_string s) n id) = true <-> s = s'.
Proof.
  rewrite starts_with_spec. unfold session_index_key. split.
  - intros [r Heq]. rewrite <- string_app_assoc in Heq.
    apply app_same_length in Heq as [Hu _]; [by apply uuid_to_string_inj|by rewrite !uuid_length].
  - intros ->. eexists. by rewrite <- string_app_assoc.
Qed.

Lemma index_key_id_spec s n id : index_key_id (session_index_key s n (uuid_to_string id)) = Ok id.
Proof.
  unfold index_key_id, session_index_key. change (":" +:+ uuid_to_string id) with (String ":" (uuid_to_string id)).
  rewrite (string_app_assoc ":" (pad20 n)), (string_app_assoc s).
  rewrite rsplit_once_app by (by apply uuid_avoids). by rewrite uuid_roundtrip.
Qed.
End Keys.

(** ** Histories *)

Section History.
  Context `{Crypto} `{AuditSerde} `{UuidText} `{!StorageCodec}.

Definition session_history (h : list AuditEntry) (s : Uuid) : list AuditEntry :=
  List.filter (fun e => bool_decide (e_session_id e = s)) h.
Definition chain_history (h : list AuditEntry) (s : Uuid) (p : option string) : list AuditEntry :=
  List.filter (on_chain s p) h.

(** The size an entry is accounted with. *)
Definition entry_size (e : AuditEntry) : N := match entry_to_vec e with Ok data => str_len data | Err _ => 0%N end.
Definition total_size (l : list AuditEntry) : N := List.fold_right (fun e n => entry_size e + n)%N 0%N l.
Definition sat (n : N) : N := N.min n U64_MAX.

(** The counters and the head of a chain that holds [chain]. *)
Record counts (md : ChainMetadata) (chain : list AuditEntry) : Prop := {
  ct_count : cm_count md = sat (N.of_nat (length chain));
  ct_bytes : cm_bytes md = sat (total_size chain);
  ct_head : cm_head md = e_id <$> last chain;
  ct_hash : chain <> [] -> Some (cm_head_hash md) = content_hash <$> last chain;
}.

(** The keys of a session's index; the first append of a session takes the
    number [base]. *)
Definition index_keys (base : N) (s : Uuid) (l : list AuditEntry) : list string :=
  imap (fun n e => session_index_key (uuid_to_string s) (N.of_nat n + base) (uuid_to_string (e_id e))) l.

Definition stored_metadata (m : KvMap) (s : Uuid) (p : option string) (chain : list AuditEntry) : Prop :=
  match m !! (NS_CHAIN_METADATA, chain_head_key s p) with
  | None => chain = []
  | Some bytes => chain <> [] /\ exists md, metadata_from_slice bytes = Ok md /\ counts md chain
  end.

Definition stored_sequence (l : list AuditEntry) : option string :=
  match l with [] => None | _ => Some (sequence_bytes (N.of_nat (length l))) end.

Record Represents (base : N) (m : KvMap) (h : list AuditEntry) : Prop := {
  rp_settled : m !! intent_key = None;
  rp_nodup : NoDup (e_id <$> h);
  rp_entry : forall e, e ∈ h -> exists data,
    entry_to_vec e = Ok data /\ m !! (NS_ENTRIES, uuid_to_string (e_id e)) = Some data;
  rp_only : forall k, is_Some (m !! (NS_ENTRIES, k)) -> exists e, e ∈ h /\ k = uuid_to_string (e_id e);
  rp_committed : forall k, is_Some (m !! (NS_COMMITTED_ENTRIES, k)) <-> exists e, e ∈ h /\ k = uuid_to_string (e_id e);
  rp_metadata : forall s p, stored_metadata m s p (chain_history h s p);
  rp_heads : forall s p, m !! (NS_CHAIN_HEADS, chain_head_key s p)
                         = (fun e => uuid_to_string (e_id e)) <$> last (chain_history h s p);
  rp_sequence : forall s, m !! (NS_SESSION_SEQUENCE, uuid_to_string s) = stored_sequence (session_history h s);
  rp_bound : forall s, (N.of_nat (length (session_history h s)) <= U64_MAX)%N;
  rp_index : forall s k, starts_with (uuid_to_string s +:+ ":") k = true ->
    is_Some (m !! (NS_SESSION_ENTRIES, k)) <-> k ∈ index_keys base s (session_history h s);
  rp_legacy : forall s, m !! (NS_SESSION_INDEX, uuid_to_string s) = None;
  rp_global : exists bytes g, load_global_metadata m = Ok (bytes, g) /\
    gm_total_count g = sat (N.of_nat (length h)) /\ gm_total_bytes g = sat (total_size h);
}.

Lemma chain_history_app h e s p :
  chain_history (h ++ [e]) s p = chain_history h s p ++ (if on_chain s p e then [e] else []).
Proof. unfold chain_history. rewrite List.filter_app. simpl. by destruct (on_chain s p e). Qed.

Lemma session_history_app h e s :
  session_history (h ++ [e]) s = session_history h s ++ (if bool_decide (e_session_id e = s) then [e] else []).
Proof. unfold session_history. rewrite List.filter_app. simpl. by case_bool_decide. Qed.

Lemma on_chain_spec s p e : on_chain s p e = true <-> e_session_id e = s /\ e_principal e = p.
Proof. unfold on_chain. by rewrite andb_true_iff, !bool_decide_eq_true. Qed.

Lemma elem_of_chain h s p e : e ∈ chain_history h s p <-> e ∈ h /\ e_session_id e = s /\ e_principal e = p.
Proof. unfold chain_history. by rewrite list_elem_of_In, List.filter_In, <- list_elem_of_In, on_chain_spec. Qed.

Lemma elem_of_session h s e : e ∈ session_history h s <-> e ∈ h /\ e_session_id e = s.
Proof.
  unfold session_history. by rewrite list_elem_of_In, List.filter_In, <- list_elem_of_In, bool_decide_eq_true.
Qed.

Lemma total_size_app l e : total_size (l ++ [e]) = (total_size l + entry_size e)%N.
Proof. induction l as [|x l IH]; simpl; [lia|]. rewrite IH. lia. Qed.

Lemma sat_step n k : sat_add U64_MAX (sat n) k = sat (n + k).
Proof. unfold sat, sat_add. lia. Qed.
End History.

(** ** Reading *)

Lemma StronglySorted_imap {A B} (R : relation B) (f : nat -> A -> B) (l : list A) :
  (forall i j x y, (i < j)%nat -> l !! i = Some x -> l !! j = Some y -> R (f i x) (f j y)) ->
  StronglySorted R (imap f l).
Proof.
  revert f. induction l as [|x l IH]; intros f Hf; simpl; constructor.
  - apply IH. intros i j y z Hij Hi Hj. apply (Hf (S i) (S j)); [lia|done|done].
  - apply Forall_forall. intros b Hb. apply list_elem_of_lookup in Hb as [j Hj].
    rewrite list_lookup_imap in Hj. apply fmap_Some in Hj as (y & Hy & ->). apply (Hf 0%nat (S j)); [lia|done|done].
Qed.

Section Reads.
  Context `{Crypto} `{AuditSerde} `{UuidTextLaws} `{!StorageCodec} {SCL : StorageCodecLaws}.
  Implicit Types (h l : list AuditEntry) (m : KvMap) (base : N) (e : AuditEntry) (s : Uuid) (p : option string).

Lemma get_represented base m h e : Represents base m h -> e ∈ h -> get m (e_id e) = Ok (Some e).
Proof.
  intros Hr He. destruct (rp_entry _ _ _ Hr e He) as (data & Hd & Hm).
  unfold get, st_get. simpl. rewrite Hm. simpl. by rewrite (entry_roundtrip e data Hd).
Qed.

Lemma chain_head_represented base m h s p :
  Represents base m h -> get_chain_head m s p = Ok (e_id <$> last (chain_history h s p)).
Proof.
  intros Hr. pose proof (rp_metadata _ _ _ Hr s p) as Hmd. pose proof (rp_heads _ _ _ Hr s p) as Hh.
  unfold stored_metadata in Hmd. unfold get_chain_head, metadata_head, load_chain_metadata, st_get. simpl.
  destruct (m !! (NS_CHAIN_METADATA, _)) as [bytes|] eqn:Hb; simpl.
  - destruct Hmd as (Hne & md & -> & Hc). simpl. rewrite (ct_head _ _ Hc).
    destruct (last (chain_history h s p)) as [e|] eqn:Hl; [|by apply last_None in Hl].
    simpl. assert (e ∈ chain_history h s p) as [He Hon]%elem_of_chain by (by apply last_Some_elem_of).
    rewrite (get_represented base m h e) by done. simpl. by rewrite (proj2 (on_chain_spec s p e) Hon).
  - rewrite Hh, Hmd. done.
Qed.

Lemma index_keys_sorted base s l :
  (base <= 1)%N -> (N.of_nat (length l) <= U64_MAX)%N -> StronglySorted String.le (index_keys base s l).
Proof.
  intros Hb Hl. apply StronglySorted_imap. intros i j x y Hij _ Hj%lookup_lt_Some.
  apply session_index_key_le; lia.
Qed.

Lemma index_keys_ids base s l : try_map index_key_id (index_keys base s l) = Ok (e_id <$> l).
Proof.
  apply try_map_Ok. unfold index_keys. apply Forall2_same_length_lookup. split.
  - by rewrite length_imap, length_fmap.
  - intros n x y Hx Hy. rewrite list_lookup_imap in Hx. rewrite list_lookup_fmap in Hy.
    destruct (l !! n) as [e|]; [|done]. simpl in *. simplify_eq. apply index_key_id_spec.
Qed.

Lemma index_keys_NoDup base s l : NoDup (e_id <$> l) -> NoDup (index_keys base s l).
Proof.
  intros Hnd. apply (NoDup_fmap_1 index_key_id).
  replace (index_key_id <$> index_keys base s l) with (Ok (E := AuditError) <$> (e_id <$> l)).
  - apply NoDup_fmap_2; [|done]. by intros ? ? [= ->].
  - apply list_eq. intros n. unfold index_keys. rewrite !list_lookup_fmap, list_lookup_imap.
    destruct (l !! n) as [e|]; [|done]. simpl. by rewrite index_key_id_spec.
Qed.

Lemma session_history_NoDup base m h s : Represents base m h -> NoDup (e_id <$> session_history h s).
Proof.
  intros Hr. pose proof (rp_nodup _ _ _ Hr) as Hnd. unfold session_history. clear Hr.
  induction h as [|e h IH]; [constructor|]. simpl in *. apply NoDup_cons in Hnd as [Hni Hnd].
  case_bool_decide; [|by apply IH]. simpl. constructor; [|by apply IH]. intros Hin. apply Hni.
  apply list_elem_of_fmap in Hin as (x & -> & Hx). apply list_elem_of_fmap. exists x. split; [done|].
  by apply (elem_of_session h s).
Qed.

Lemma committed_ids_represented base m h s :
  (base <= 1)%N -> Represents base m h ->
  get_committed_session_entry_ids m s = Ok (e_id <$> session_history h s).
Proof.
  intros Hb Hr. unfold get_committed_session_entry_ids. simpl.
  assert (merge_sort String.le (List.filter (starts_with (uuid_to_string s +:+ ":")) (map_keys m NS_SESSION_ENTRIES))
          = index_keys base s (session_history h s)) as ->; [|apply index_keys_ids].
  apply (Sorted_unique String.le).
  - apply (Sorted_merge_sort _).
  - apply StronglySorted_Sorted, index_keys_sorted; [done|apply (rp_bound _ _ _ Hr)].
  - rewrite merge_sort_Permutation. apply NoDup_Permutation.
    + apply NoDup_ListNoDup, List.NoDup_filter, NoDup_ListNoDup, map_keys_NoDup.
    + apply index_keys_NoDup. by apply (session_history_NoDup base m).
    + intros k. rewrite list_elem_of_In, List.filter_In, <- list_elem_of_In, map_keys_elem. split.
      * intros [Hk Hp]. by apply (rp_index _ _ _ Hr s k Hp).
      * intros Hk. assert (starts_with (uuid_to_string s +:+ ":") k = true) as Hp.
        { apply elem_of_lookup_imap in Hk as (n & e & -> & _). by apply session_prefix. }
        split; [by apply (rp_index _ _ _ Hr s k Hp)|done].
Qed.

(** A backend lists the same keys, in some order. *)
Lemma committed_ids_faithful {S : Type} `{KvStoreLaws S view} s : faithful (view := view)
  (fun st => get_committed_session_entry_ids st s) (fun m => get_committed_session_entry_ids m s).
Proof.
  intros st ids (keys & [Hnd Hk]%map_err_Ok%law_list & Hr)%rbind_Ok. unfold get_committed_session_entry_ids. simpl.
  rewrite <- Hr. f_equal. apply (Sorted_unique String.le); [apply (Sorted_merge_sort _)..|].
  rewrite !merge_sort_Permutation. apply NoDup_Permutation; [|done|].
  - apply NoDup_ListNoDup, List.NoDup_filter, NoDup_ListNoDup, map_keys_NoDup.
  - intros k. by rewrite list_elem_of_In, List.filter_In, <- list_elem_of_In, map_keys_elem, Hk.
Qed.

Lemma present_faithful {S : Type} `{KvStoreLaws S view} (ids : list Uuid) : faithful (view := view)
  (fun st => present_entries st ids) (fun m => present_entries m ids).
Proof. induction ids as [|id ids IH]; cbn [present_entries]; faithful_tac. Qed.

Lemma session_read_faithful {S : Type} `{KvStoreLaws S view} s : faithful (view := view)
  (fun st => get_session_entries st s) (fun m => get_session_entries m s).
Proof.
  unfold get_session_entries, get_legacy_session_entry_ids.
  pose proof (committed_ids_faithful (view := view) s). pose proof (present_faithful (view := view)). faithful_tac.
Qed.

Lemma unseen_fresh (seen ids : list Uuid) :
  NoDup ids -> (forall id, id ∈ ids -> id ∉ seen) -> unseen seen ids = ids.
Proof.
  revert seen. induction ids as [|id ids IH]; intros seen Hnd Hs; simpl; [done|].
  apply NoDup_cons in Hnd as [Hni Hnd]. rewrite bool_decide_eq_false_2 by (apply Hs, list_elem_of_here).
  f_equal. apply IH; [done|]. intros x Hx [->|Hin]%elem_of_cons; [done|]. apply (Hs x); [by apply list_elem_of_further|done].
Qed.

Lemma present_represented base m h l :
  Represents base m h -> Forall (fun e => e ∈ h) l ->
  present_entries m (e_id <$> l) = Ok ((fun e => (e_id e, e)) <$> l).
Proof.
  intros Hr Hl. induction Hl as [|e l He Hl IH]; [done|]. rewrite !fmap_cons. cbn [present_entries].
  rewrite (get_represented base m h e) by done. cbn [rbind]. by rewrite IH.
Qed.

Lemma session_read_represented base m h s :
  (base <= 1)%N -> Represents base m h -> get_session_entries m s = Ok (session_history h s).
Proof.
  intros Hb Hr. unfold get_session_entries, get_legacy_session_entry_ids, st_get. simpl.
  rewrite (rp_legacy _ _ _ Hr s). simpl. rewrite (committed_ids_represented base m h s) by done. simpl.
  rewrite unseen_fresh; [|by apply (session_history_NoDup base m)|intros ? ? Hn; by inversion Hn].
  rewrite (present_represented base m h); [|done|].
  - simpl. rewrite <- list_fmap_compose. f_equal. by rewrite list_fmap_id.
  - apply Forall_forall. by intros e [He _]%elem_of_session.
Qed.
End Reads.

(** ** What a commit writes, by namespace *)

Section Commit.
  Context `{Crypto} `{AuditSerde} `{UuidText} `{!StorageCodec}.
  Implicit Types (i : AppendIntent) (data : string) (m : KvMap).

Lemma insert_in_ns (ns k k' v : string) m :
  <[(ns, k) := v]> m !! (ns, k') = if decide (k' = k) then Some v else m !! (ns, k').
Proof.
  case_decide as Hk; [subst; by rewrite lookup_insert_eq|]. rewrite lookup_insert_ne; [done|]. by intros [= ->].
Qed.

Ltac commit_simpl :=
  unfold commit, put_intent; rewrite lookup_delete_ne by auto with astrid;
  repeat first [ rewrite insert_in_ns | rewrite lookup_insert_ne by auto with astrid
               | rewrite put_segment_lookup by (intros; auto with astrid) ].

Lemma commit_entries i data m k :
  commit i data m !! (NS_ENTRIES, k) = if decide (k = uuid_to_string (e_id (i_entry i))) then Some data else m !! (NS_ENTRIES, k).
Proof. by commit_simpl. Qed.
Lemma commit_committed i data m k :
  commit i data m !! (NS_COMMITTED_ENTRIES, k) =
  if decide (k = uuid_to_string (e_id (i_entry i))) then Some MARK else m !! (NS_COMMITTED_ENTRIES, k).
Proof. by commit_simpl. Qed.
Lemma commit_metadata i data m k :
  commit i data m !! (NS_CHAIN_METADATA, k) =
  if decide (k = i_head_key i) then Some (metadata_to_vec (i_next_metadata i)) else m !! (NS_CHAIN_METADATA, k).
Proof. by commit_simpl. Qed.
Lemma commit_heads i data m k :
  commit i data m !! (NS_CHAIN_HEADS, k) =
  if decide (k = i_head_key i) then Some (uuid_to_string (e_id (i_entry i))) else m !! (NS_CHAIN_HEADS, k).
Proof. by commit_simpl. Qed.
Lemma commit_sequence i data m k :
  commit i data m !! (NS_SESSION_SEQUENCE, k) =
  if decide (k = i_session_sequence_key i) then Some (i_next_session_sequence i) else m !! (NS_SESSION_SEQUENCE, k).
Proof. by commit_simpl. Qed.
Lemma commit_index i data m k :
  commit i data m !! (NS_SESSION_ENTRIES, k) =
  if decide (k = i_session_index_key i) then Some MARK else m !! (NS_SESSION_ENTRIES, k).
Proof. by commit_simpl. Qed.
Lemma commit_legacy i data m k : commit i data m !! (NS_SESSION_INDEX, k) = m !! (NS_SESSION_INDEX, k).
Proof. by commit_simpl. Qed.
Lemma commit_registry i data m k : commit i data m !! (NS_KEY_REGISTRY, k) = m !! (NS_KEY_REGISTRY, k).
Proof. by commit_simpl. Qed.
Lemma commit_global i data m :
  commit i data m !! (NS_GLOBAL_METADATA, GLOBAL_KEY) = Some (global_to_vec (i_next_global i)).
Proof. commit_simpl. by rewrite decide_True. Qed.
End Commit.

(** ** Appending extends the history *)

Section Extend.
  Context `{Crypto} `{AuditSerde} `{UuidTextLaws} `{!StorageCodec} {SCL : StorageCodecLaws}.
  Implicit Types (h l chain : list AuditEntry) (m : KvMap) (base : N) (e entry : AuditEntry) (s : Uuid) (p : option string)
    (md : ChainMetadata) (g : GlobalMetadata) (data : string).

Lemma counts_default : counts ChainMetadata_default [].
Proof. by split. Qed.

Lemma counts_advance md chain entry data g :
  counts md chain -> entry_to_vec entry = Ok data ->
  counts (advance_chain entry md (str_len data) g).1 (chain ++ [entry]).
Proof.
  intros Hc Hd. split; unfold advance_chain; cbn [fst cm_count cm_bytes cm_head cm_head_hash].
  - rewrite (ct_count _ _ Hc), sat_step, length_app. simpl. f_equal. lia.
  - rewrite (ct_bytes _ _ Hc), sat_step, total_size_app. unfold entry_size. by rewrite Hd.
  - by rewrite last_snoc.
  - by rewrite last_snoc.
Qed.

Lemma loaded_counts base m h s p b (md : option ChainMetadata) :
  Represents base m h -> load_chain_metadata m s p = Ok (b, md) ->
  counts (default ChainMetadata_default md) (chain_history h s p).
Proof.
  intros Hr Hl. pose proof (rp_metadata _ _ _ Hr s p) as Hmd. unfold stored_metadata in Hmd.
  unfold load_chain_metadata, st_get in Hl. simpl in Hl. destruct (m !! (NS_CHAIN_METADATA, _)) as [bytes|]; simpl in Hl.
  - destruct Hmd as (_ & md' & Hd & Hc). rewrite Hd in Hl. simpl in Hl. injection Hl as <- <-. done.
  - injection Hl as <- <-. rewrite Hmd. apply counts_default.
Qed.

Lemma u64_bytes n : (n <= U64_MAX)%N -> sequence_from_bytes (sequence_bytes n) = Ok n.
Proof.
  intros Hn. unfold sequence_from_bytes. rewrite sequence_length, N.eqb_refl. unfold sequence_bytes.
  rewrite as_bytes_of_bytes, from_to_be_bytes; [done|]. unfold U64_MAX in Hn.
  eapply N.le_lt_trans; [exact Hn|]. by vm_compute.
Qed.

Lemma stored_sequence_value h s n :
  (N.of_nat (length (session_history h s)) <= U64_MAX)%N ->
  sequence_of (stored_sequence (session_history h s)) = Ok n -> n = N.of_nat (length (session_history h s)).
Proof.
  intros Hb. unfold stored_sequence. destruct (session_history h s) as [|e l]; simpl; [by intros [= <-]|].
  unfold parse_sequence. rewrite u64_bytes by done. by intros [= <-].
Qed.

(** The totals after an append. *)
Lemma account_totals entry g g1 (prior next : ChainMetadata) (n : N) (count bytes : N) :
  gm_total_count g = sat count -> gm_total_bytes g = sat bytes -> admitted g n g1 ->
  let g2 := account_global_append (advance_chain entry prior n g1).2 prior next n in
  gm_total_count g2 = sat (count + 1) /\ gm_total_bytes g2 = sat (bytes + n).
Proof.
  intros Hc Hb Ha. assert (gm_total_count g1 = sat count /\ gm_total_bytes g1 = sat bytes) as [Hc1 Hb1].
  { destruct Ha as [[_ ->]|(hold & _ & ->)]; done. }
  unfold account_global_append, advance_chain. cbn [snd]. destruct (seals prior n);
    (destruct (cm_sealed next && negb (cm_sealed prior)));
    cbn [gm_total_count gm_total_bytes with_status with_hold with_totals with_next_seal_ordinal];
    rewrite Hc1, Hb1, !sat_step; done.
Qed.
(** The writes of one append, in whatever way they were made. *)
Record Extends base (t : KvMap) h entry data (m' : KvMap) : Prop := {
  ex_data : entry_to_vec entry = Ok data;
  ex_settled : m' !! intent_key = None;
  ex_entries : forall k, m' !! (NS_ENTRIES, k) =
    if decide (k = uuid_to_string (e_id entry)) then Some data else t !! (NS_ENTRIES, k);
  ex_committed : forall k, m' !! (NS_COMMITTED_ENTRIES, k) =
    if decide (k = uuid_to_string (e_id entry)) then Some MARK else t !! (NS_COMMITTED_ENTRIES, k);
  ex_metadata : exists next, counts next (chain_history h (e_session_id entry) (e_principal entry) ++ [entry]) /\
    forall k, m' !! (NS_CHAIN_METADATA, k) =
      if decide (k = chain_head_key (e_session_id entry) (e_principal entry))
      then Some (metadata_to_vec next) else t !! (NS_CHAIN_METADATA, k);
  ex_heads : forall k, m' !! (NS_CHAIN_HEADS, k) =
    if decide (k = chain_head_key (e_session_id entry) (e_principal entry))
    then Some (uuid_to_string (e_id entry)) else t !! (NS_CHAIN_HEADS, k);
  ex_bound : (N.of_nat (length (session_history h (e_session_id entry))) + 1 <= U64_MAX)%N;
  ex_sequence : forall k, m' !! (NS_SESSION_SEQUENCE, k) =
    if decide (k = uuid_to_string (e_session_id entry))
    then Some (sequence_bytes (N.of_nat (length (session_history h (e_session_id entry))) + 1))
    else t !! (NS_SESSION_SEQUENCE, k);
  ex_index : forall k, m' !! (NS_SESSION_ENTRIES, k) =
    if decide (k = session_index_key (uuid_to_string (e_session_id entry))
                     (N.of_nat (length (session_history h (e_session_id entry))) + base) (uuid_to_string (e_id entry)))
    then Some MARK else t !! (NS_SESSION_ENTRIES, k);
  ex_legacy : forall k, m' !! (NS_SESSION_INDEX, k) = t !! (NS_SESSION_INDEX, k);
  ex_global : exists g, load_global_metadata m' = Ok (m' !! (NS_GLOBAL_METADATA, GLOBAL_KEY), g) /\
    gm_total_count g = sat (N.of_nat (length h) + 1) /\ gm_total_bytes g = sat (total_size h + str_len data);
}.

Lemma elem_of_snoc h entry (P : AuditEntry -> Prop) :
  (exists e, e ∈ h ++ [entry] /\ P e) <-> (exists e, e ∈ h /\ P e) \/ P entry.
Proof.
  setoid_rewrite elem_of_app. setoid_rewrite list_elem_of_singleton. naive_solver.
Qed.

Lemma NoDup_snoc_id h entry : NoDup (e_id <$> h) -> e_id entry ∉ e_id <$> h -> NoDup (e_id <$> (h ++ [entry])).
Proof.
  intros Hnd Hf. rewrite fmap_app. apply NoDup_app. split_and!; [done| |apply NoDup_singleton].
  intros id Hid ->%list_elem_of_singleton. done.
Qed.

Lemma extends_metadata base t h entry data m' s p :
  Represents base t h -> Extends base t h entry data m' -> stored_metadata m' s p (chain_history (h ++ [entry]) s p).
Proof.
  intros Hr Hx. destruct (ex_metadata _ _ _ _ _ _ Hx) as (next & Hc & Hm). unfold stored_metadata.
  rewrite Hm, chain_history_app. destruct (decide (chain_head_key s p = _)) as [[-> ->]%chain_head_key_inj|Hne].
  - rewrite (proj2 (on_chain_spec _ _ entry)) by done. split; [by destruct (chain_history _ _ _)|].
    exists next. by rewrite metadata_roundtrip.
  - destruct (on_chain s p entry) eqn:Ho; [apply on_chain_spec in Ho as [<- <-]; done|].
    rewrite app_nil_r. apply (rp_metadata _ _ _ Hr).
Qed.

Lemma extends_heads base t h entry data m' s p :
  Represents base t h -> Extends base t h entry data m' ->
  m' !! (NS_CHAIN_HEADS, chain_head_key s p)
  = (fun e => uuid_to_string (e_id e)) <$> last (chain_history (h ++ [entry]) s p).
Proof.
  intros Hr Hx. rewrite (ex_heads _ _ _ _ _ _ Hx), chain_history_app.
  destruct (decide (chain_head_key s p = _)) as [[-> ->]%chain_head_key_inj|Hne].
  - rewrite (proj2 (on_chain_spec _ _ entry)) by done. by rewrite last_snoc.
  - destruct (on_chain s p entry) eqn:Ho; [apply on_chain_spec in Ho as [<- <-]; done|].
    rewrite app_nil_r. apply (rp_heads _ _ _ Hr).
Qed.

Lemma extends_sequence base t h entry data m' s :
  Represents base t h -> Extends base t h entry data m' ->
  m' !! (NS_SESSION_SEQUENCE, uuid_to_string s) = stored_sequence (session_history (h ++ [entry]) s).
Proof.
  intros Hr Hx. rewrite (ex_sequence _ _ _ _ _ _ Hx), session_history_app.
  destruct (decide (uuid_to_string s = _)) as [->%uuid_to_string_inj|Hne].
  - rewrite bool_decide_eq_true_2 by done. unfold stored_sequence.
    destruct (session_history h (e_session_id entry)) as [|e l]; simpl; [done|]. rewrite length_app. simpl.
    do 2 f_equal. lia.
  - rewrite bool_decide_eq_false_2 by congruence. rewrite app_nil_r. apply (rp_sequence _ _ _ Hr).
Qed.

Lemma extends_index base t h entry data m' s k :
  Represents base t h -> Extends base t h entry data m' -> starts_with (uuid_to_string s +:+ ":") k = true ->
  is_Some (m' !! (NS_SESSION_ENTRIES, k)) <-> k ∈ index_keys base s (session_history (h ++ [entry]) s).
Proof.
  intros Hr Hx Hk. rewrite (ex_index _ _ _ _ _ _ Hx), session_history_app.
  pose proof (rp_index _ _ _ Hr s k Hk) as Hold. case_bool_decide as Hs.
  - subst s. unfold index_keys. rewrite imap_app, elem_of_app. simpl. rewrite list_elem_of_singleton, Nat.add_0_r.
    case_decide as Hd; [naive_solver|]. rewrite Hold. unfold index_keys. naive_solver.
  - rewrite app_nil_r. case_decide as Hd; [|done]. subst k. by apply session_prefix in Hk.
Qed.

Lemma extends_represents base t h entry data m' :
  Represents base t h -> e_id entry ∉ e_id <$> h -> Extends base t h entry data m' ->
  Represents base m' (h ++ [entry]).
Proof.
  intros Hr Hfresh Hx. split.
  - apply (ex_settled _ _ _ _ _ _ Hx).
  - apply NoDup_snoc_id; [apply (rp_nodup _ _ _ Hr)|done].
  - intros e [He| ->%list_elem_of_singleton]%elem_of_app.
    + destruct (rp_entry _ _ _ Hr e He) as (d & Hd & Hm). exists d. split; [done|].
      rewrite (ex_entries _ _ _ _ _ _ Hx), decide_False; [done|]. intros Heq%uuid_to_string_inj. apply Hfresh.
      rewrite <- Heq. by apply list_elem_of_fmap_2.
    + exists data. split; [apply (ex_data _ _ _ _ _ _ Hx)|]. by rewrite (ex_entries _ _ _ _ _ _ Hx), decide_True.
  - intros k. rewrite (ex_entries _ _ _ _ _ _ Hx), elem_of_snoc. case_decide; [auto|].
    intros Hk%(rp_only _ _ _ Hr). auto.
  - intros k. rewrite (ex_committed _ _ _ _ _ _ Hx), elem_of_snoc, <- (rp_committed _ _ _ Hr k).
    case_decide; naive_solver.
  - intros s p. by apply (extends_metadata base t h entry data).
  - intros s p. by apply (extends_heads base t h entry data).
  - intros s. by apply (extends_sequence base t h entry data).
  - intros s. rewrite session_history_app. case_bool_decide as Hs; rewrite length_app; simpl.
    + pose proof (ex_bound _ _ _ _ _ _ Hx). subst s. lia.
    + pose proof (rp_bound _ _ _ Hr s). lia.
  - intros s k. by apply (extends_index base t h entry data).
  - intros s. rewrite (ex_legacy _ _ _ _ _ _ Hx). apply (rp_legacy _ _ _ Hr).
  - destruct (ex_global _ _ _ _ _ _ Hx) as (g & Hl & Hc & Hb). exists (m' !! (NS_GLOBAL_METADATA, GLOBAL_KEY)), g.
    split_and!; [done| |].
    + rewrite Hc, length_app. simpl. f_equal. lia.
    + rewrite Hb, total_size_app. unfold entry_size. by rewrite (ex_data _ _ _ _ _ _ Hx).
Qed.
End Extend.

(** ** Appending under an intent extends the history *)

Section Intent.
  Context `{Crypto} `{AuditSerde} `{UuidTextLaws} `{!StorageCodec} {SCL : StorageCodecLaws}.
  Implicit Types (h : list AuditEntry) (m t : KvMap) (entry : AuditEntry) (expected : option Uuid).

Lemma touched_represented base t h entry expected m :
  Represents base t h -> touched entry expected t m -> m = t.
Proof.
  intros Hr [->|(head & -> & Hh & ->)]; [done|]. apply insert_id. rewrite (rp_heads _ _ _ Hr).
  rewrite (chain_head_represented base t h) in Hh by done. injection Hh as Hh.
  destruct (last _) as [e|]; [|done]. simpl in *. by injection Hh as ->.
Qed.

(** The namespaces a history lives in, beside the global record. *)
Definition history_namespaces : list string :=
  [NS_ENTRIES; NS_COMMITTED_ENTRIES; NS_CHAIN_METADATA; NS_CHAIN_HEADS; NS_SESSION_SEQUENCE; NS_SESSION_ENTRIES;
   NS_SESSION_INDEX].

(** Beside other namespaces only the global record differs, and its totals do
    not. *)
Lemma represents_global base t h m :
  m !! intent_key = t !! intent_key ->
  (forall ns k, bool_decide (ns ∈ history_namespaces) = true -> m !! (ns, k) = t !! (ns, k)) ->
  (exists b g, load_global_metadata m = Ok (b, g) /\
     gm_total_count g = sat (N.of_nat (length h)) /\ gm_total_bytes g = sat (total_size h)) ->
  Represents base t h -> Represents base m h.
Proof.
  intros Hi Hm Hg Hr. split; try done.
  - rewrite Hi. apply (rp_settled _ _ _ Hr).
  - apply (rp_nodup _ _ _ Hr).
  - intros e He. rewrite Hm by done. by apply (rp_entry _ _ _ Hr).
  - intros k. rewrite Hm by done. apply (rp_only _ _ _ Hr).
  - intros k. rewrite Hm by done. apply (rp_committed _ _ _ Hr).
  - intros s p. unfold stored_metadata. rewrite Hm by done. apply (rp_metadata _ _ _ Hr s p).
  - intros s p. rewrite Hm by done. apply (rp_heads _ _ _ Hr).
  - intros s. rewrite Hm by done. apply (rp_sequence _ _ _ Hr).
  - apply (rp_bound _ _ _ Hr).
  - intros s k Hk. rewrite Hm by done. by apply (rp_index _ _ _ Hr).
  - intros s. rewrite Hm by done. apply (rp_legacy _ _ _ Hr).
Qed.

Lemma marked_represented base t h m : Represents base t h -> marked_full t m -> Represents base m h.
Proof.
  intros Hr (b & g & Hl & _ & ->). destruct (rp_global _ _ _ Hr) as (b' & g' & Hl' & Hc & Hb).
  rewrite Hl in Hl'. injection Hl' as <- <-. apply (represents_global base t); [| | |done].
  - apply lookup_insert_ne. auto with astrid.
  - intros ns k Hns. apply lookup_insert_ne. intros [= <- _]. done.
  - exists (Some (global_to_vec (with_status g true (Some CAP_REACHED)))), (with_status g true (Some CAP_REACHED)).
    split; [|done]. unfold load_global_metadata, st_get. simpl. rewrite lookup_insert_eq. simpl. by rewrite global_roundtrip.
Qed.

Lemma not_appended_represents base t h entry expected m :
  Represents base t h -> NotAppended entry expected t m -> Represents base m h.
Proof.
  intros Hr (m1 & ->%(touched_represented base t h) & [->|Hm]); [done| |done]. by apply (marked_represented base t).
Qed.

Lemma planned_sequence t h entry prepared plan data g g1 :
  Represents 1 t h -> PlannedAt t entry prepared plan data g g1 ->
  let n := N.of_nat (length (session_history h (e_session_id entry))) in
  (n + 1 <= U64_MAX)%N /\
  sw_sequence_key (ap_sequence plan) = uuid_to_string (e_session_id entry) /\
  sw_next_sequence (ap_sequence plan) = sequence_bytes (n + 1) /\
  sw_index_key (ap_sequence plan) =
    session_index_key (uuid_to_string (e_session_id entry)) (n + 1) (uuid_to_string (e_id entry)).
Proof.
  intros Hr Hpl. destruct (prepare_session_sequence_Ok _ _ _ _ (pl_sequence _ _ _ _ _ _ _ Hpl))
    as (current & Hkey & _ & Hexp & Hcur & Hb & Hnext & Hidx & _).
  rewrite Hexp, (rp_sequence _ _ _ Hr) in Hcur. apply stored_sequence_value in Hcur; [|apply (rp_bound _ _ _ Hr)].
  subst current. done.
Qed.

Lemma appended_extends t h entry expected m' :
  Represents 1 t h -> Appended entry expected t m' ->
  expected = e_id <$> last (chain_history h (e_session_id entry) (e_principal entry)) /\
  exists data, Extends 1 t h entry data m'.
Proof.
  intros Hr (m & prepared & plan & data & g & g1 & Hp & Hpl & ->).
  rewrite (touched_represented _ _ _ _ _ _ Hr (pp_touched _ _ _ _ _ Hp)) in *.
  pose proof (pp_head _ _ _ _ _ Hp) as Hh. rewrite (chain_head_represented 1 t h) in Hh by done.
  split; [by injection Hh|]. exists data.
  destruct (pp_prior _ _ _ _ _ Hp) as (md & Hl & Hprior). apply (loaded_counts 1 t h) in Hl; [|done].
  rewrite <- Hprior in Hl. destruct (planned_sequence _ _ _ _ _ _ _ _ Hr Hpl) as (Hb & Hsk & Hsn & Hix).
  destruct (rp_global _ _ _ Hr) as (b' & g' & Hl' & Hc & Hbytes). rewrite (pl_loaded _ _ _ _ _ _ _ Hpl) in Hl'.
  injection Hl' as _ <-.
  destruct (account_totals entry g g1 (pr_prior prepared) (ap_next plan) _ _ _ Hc Hbytes (pl_admitted _ _ _ _ _ _ _ Hpl))
    as [Hc' Hb']. rewrite <- (pl_global _ _ _ _ _ _ _ Hpl) in Hc', Hb'.
  split; [apply (pl_data _ _ _ _ _ _ _ Hpl)|apply commit_none|intros k; apply commit_entries|intros k; apply commit_committed
    | | |done| | |intros k; apply commit_legacy|].
  - exists (ap_next plan). split; [|intros k; rewrite commit_metadata; cbn [intent_of i_head_key]; by rewrite (pp_key _ _ _ _ _ Hp)].
    rewrite (pl_next _ _ _ _ _ _ _ Hpl). apply counts_advance; [done|apply (pl_data _ _ _ _ _ _ _ Hpl)].
  - intros k. rewrite commit_heads. cbn [intent_of i_head_key]. by rewrite (pp_key _ _ _ _ _ Hp).
  - intros k. rewrite commit_sequence. cbn [intent_of i_session_sequence_key i_next_session_sequence]. by rewrite Hsk, Hsn.
  - intros k. rewrite commit_index. cbn [intent_of i_session_index_key]. by rewrite Hix.
  - exists (gs_metadata (ap_global plan)). split; [|done]. unfold load_global_metadata, st_get. simpl.
    rewrite commit_global. simpl. by rewrite global_roundtrip.
Qed.
End Intent.

(** ** The storage implements the append of the audit log *)

Section Refines.
  Context {S : Type} `{KvStoreLaws S view} `{Crypto} `{AuditSerde} `{UuidTextLaws} `{!StorageCodec} {SCL : StorageCodecLaws}.
  Implicit Types (h : list AuditEntry) (m t : KvMap) (entry : AuditEntry) (expected : option Uuid) (st : AuditStore).

(** The store of [AuditLog] that a settled map holds. *)
Definition stores (base : N) (m : KvMap) (st : AuditStore) : Prop :=
  (forall seq, (seq <= U64_MAX)%N ->
     is_Some (m !! (NS_KEY_REGISTRY, record_key seq)) <-> is_Some (st_registry st !! seq)) /\
  exists h, Represents base m h /\ forall s p, chain_of st (s, p) = chain_history h s p.

(** A new store keeps the empty log. *)
Lemma stores_empty base : stores base ∅ (MkAuditStore ∅ ∅).
Proof.
  split; [intros seq _; simpl; by rewrite !lookup_empty|]. exists []. split; [|done].
  split; try done.
  - constructor.
  - intros e He. by apply elem_of_nil in He.
  - intros k [x Hx]. by rewrite lookup_empty in Hx.
  - intros k. rewrite lookup_empty. split; [by intros [? ?]|]. intros (e & He & _). by apply elem_of_nil in He.
  - intros s k _. rewrite lookup_empty. split; [by intros [? ?]|]. intros Hk. by apply elem_of_nil in Hk.
  - by eexists _, _.
Qed.

(** The identifier was not used before. *)
Definition fresh_in (st : AuditStore) (entry : AuditEntry) : Prop :=
  forall s p, e_id entry ∉ e_id <$> chain_of st (s, p).

Lemma registry_exists_stored base m st seq :
  stores base m st -> (seq <= U64_MAX)%N -> kv_registry_record_exists m seq = Ok (registry_record_exists st seq).
Proof.
  intros [Hr _] Hs. unfold kv_registry_record_exists, st_exists, registry_record_exists. simpl. f_equal.
  apply bool_decide_ext. by apply Hr.
Qed.

Lemma check_epoch_stored base m st epoch :
  stores base m st -> kv_check_epoch_current m epoch = check_epoch_current st epoch.
Proof.
  intros Hs. unfold kv_check_epoch_current, check_epoch_current. destruct (checked_add U64_MAX epoch 1) as [next|] eqn:Hn; [|done].
  cbn [ok_or rbind]. rewrite (registry_exists_stored base m st next) by
    (done || (unfold checked_add in Hn; destruct (_ <=? _)%N eqn:Hle; [|done]; apply N.leb_le in Hle; by simplify_eq)).
  simpl. by destruct (registry_record_exists st next).
Qed.

Lemma check_registry_stored base m st entries :
  stores base m st -> kv_check_registry_state m entries = check_registry_state st entries.
Proof.
  intros Hs. unfold kv_check_registry_state, check_registry_state, kv_check_v1_open.
  rewrite (registry_exists_stored base m st 0) by done.
  assert (forall l, try_for (kv_check_epoch_current m) l = try_for (check_epoch_current st) l) as Hl.
  { induction l as [|x l IH]; simpl; [done|]. by rewrite (check_epoch_stored base m st), IH. }
  destruct (existsb _ entries), (registry_record_exists st 0); simpl; by rewrite ?Hl.
Qed.

Lemma chain_head_stored base m h st s p :
  Represents base m h -> (forall s p, chain_of st (s, p) = chain_history h s p) ->
  get_chain_head m s p = Ok (e_id <$> chain_head st (s, p)).
Proof. intros Hr Hc. rewrite (chain_head_represented base m h) by done. unfold chain_head. by rewrite Hc. Qed.

Lemma refused_not_head base t h st entry expected :
  Represents base t h -> (forall s p, chain_of st (s, p) = chain_history h s p) ->
  Refused entry expected t -> e_id <$> chain_head st (entry_key entry) <> expected.
Proof.
  intros Hr Hc Href <-. pose proof (chain_head_stored base t h st (e_session_id entry) (e_principal entry) Hr Hc) as Hh.
  unfold entry_key in *. destruct Href as [Hread|[Hnone Hst]].
  - unfold read_chain in Hread. rewrite Hh in Hread. simpl in Hread. rewrite bool_decide_eq_true_2 in Hread by done.
    simpl in Hread. apply rbind_Ok in Hread as (key & _ & Hread). apply rbind_Ok in Hread as ([b md] & Hl & Hread).
    apply (loaded_counts base t h) in Hl; [|done]. destruct md as [md|]; simpl in *; [|done].
    rewrite (ct_head _ _ Hl) in Hread. unfold chain_head in Hread. rewrite Hc in Hread.
    destruct (last _); simpl in Hread; [rewrite bool_decide_eq_true_2 in Hread by done|]; done.
  - rewrite (rp_heads _ _ _ Hr) in Hst. unfold chain_head in Hnone. rewrite Hc in Hnone. by destruct (last _).
Qed.

Definition put_entry (st : AuditStore) (entry : AuditEntry) : AuditStore :=
  MkAuditStore (st_registry st) (<[entry_key entry := chain_of st (entry_key entry) ++ [entry]]> (st_chains st)).

Lemma chain_of_put st entry s p :
  chain_of (put_entry st entry) (s, p) = chain_of st (s, p) ++ (if on_chain s p entry then [entry] else []).
Proof.
  unfold chain_of, put_entry, entry_key. simpl. destruct (on_chain s p entry) eqn:Ho.
  - apply on_chain_spec in Ho as [<- <-]. by rewrite lookup_insert_eq.
  - rewrite lookup_insert_ne, app_nil_r; [done|]. intros [= <- <-].
    by rewrite (proj2 (on_chain_spec _ _ entry)) in Ho.
Qed.

Lemma fresh_history h st entry :
  (forall s p, chain_of st (s, p) = chain_history h s p) -> fresh_in st entry -> e_id entry ∉ e_id <$> h.
Proof.
  intros Hc Hf (e & Heq & He)%list_elem_of_fmap. apply (Hf (e_session_id e) (e_principal e)). rewrite Hc, Heq.
  apply list_elem_of_fmap_2. by apply elem_of_chain.
Qed.

Lemma committed_stores t st entry expected m' :
  stores 1 t st -> fresh_in st entry -> Committed entry expected t m' ->
  append_if_head st entry expected = (put_entry st entry, Ok true) /\ stores 1 m' (put_entry st entry).
Proof.
  intros Hst Hf [Hreg Happ]. pose proof Hst as [Hrec (h & Hr & Hc)].
  destruct (appended_extends t h entry expected m' Hr Happ) as (Hexp & data & Hx).
  split.
  - unfold append_if_head. rewrite <- (check_registry_stored 1 t st), Hreg by done.
    rewrite bool_decide_eq_true_2; [done|]. unfold chain_head, entry_key.
    by rewrite (Hc (e_session_id entry) (e_principal entry)).
  - split.
    + intros seq Hs. destruct Happ as (m & prepared & plan & d & g & g1 & Hp & _ & ->). rewrite commit_registry.
      rewrite (touched_represented _ _ _ _ _ _ Hr (pp_touched _ _ _ _ _ Hp)). by apply Hrec.
    + exists (h ++ [entry]). split; [by apply (extends_represents 1 t h entry data); [| |]; try apply (fresh_history h st)|].
      intros s p. by rewrite chain_of_put, Hc, chain_history_app.
Qed.

Lemma not_appended_stores t st entry expected m' :
  stores 1 t st -> NotAppended entry expected t m' -> stores 1 m' st.
Proof.
  intros [Hrec (h & Hr & Hc)] Hn. split.
  - intros seq Hs. destruct Hn as (m1 & ->%(touched_represented 1 t h) & [->|(b & g & _ & _ & ->)]); [by apply Hrec| |done].
    rewrite lookup_insert_ne by auto with astrid. by apply Hrec.
  - exists h. split; [by apply (not_appended_represents 1 t h entry expected)|done].
Qed.

(** C22: the storage implements the append of the audit log.  From a store that
    keeps the log [st] once recovered, and for an entry with a new identifier,
    an append under an intent that answers does to the log what
    [append_if_head] of the log does, with the same answer, and leaves nothing
    to recover; one that fails has done nothing to the log or has appended the
    entry, and the store can still be recovered. *)
Theorem durable_append_refines : forall (s s' : S) st entry expected r,
  Consistent (view s) -> stores 1 (settle (view s)) st -> fresh_in st entry ->
  append_if_head_durable entry expected s = (s', r) ->
  Consistent (view s') /\
  match r with
  | Ok committed => exists st', append_if_head st entry expected = (st', Ok committed) /\
                    settle (view s') = view s' /\ stores 1 (view s') st'
  | Err _ => stores 1 (settle (view s')) st \/
             exists st', append_if_head st entry expected = (st', Ok true) /\ stores 1 (settle (view s')) st'
  end.
Proof.
  intros s s' st entry expected r Hcons Hst Hf Hrun.
  pose proof (append_triple (settle (view s)) entry expected s s' r (conj Hcons eq_refl) Hrun) as Ht.
  destruct r as [[|]|err].
  - destruct Ht as [Hn Hcom]. split; [by left|]. exists (put_entry st entry). rewrite settle_none by done.
    destruct (committed_stores _ _ _ _ _ Hst Hf Hcom). done.
  - destruct Ht as (Hn & Heq & Hreg & Href). split; [by left|]. exists st. rewrite settle_none by done. rewrite Heq.
    split; [|done]. unfold append_if_head. rewrite <- (check_registry_stored 1 (settle (view s)) st), Hreg by done.
    destruct Hst as [_ (h & Hr & Hc)]. by rewrite bool_decide_eq_false_2 by (by apply (refused_not_head 1 (settle (view s)) h)).
  - destruct Ht as [Hc [Hn|Hcom]]; split; try done.
    + left. by apply (not_appended_stores (settle (view s)) st entry expected).
    + right. exists (put_entry st entry). by apply (committed_stores (settle (view s)) st entry expected).
Qed.

Lemma chain_of_session h s p : chain_history h s p = List.filter (fun e => bool_decide (e_principal e = p)) (session_history h s).
Proof.
  unfold chain_history, session_history. induction h as [|e h IH]; [done|]. cbn [List.filter]. rewrite IH.
  destruct (on_chain s p e) eqn:Ho.
  - apply on_chain_spec in Ho as [Hs Hp]. rewrite (bool_decide_eq_true_2 (e_session_id e = s)) by done. cbn [List.filter].
    by rewrite bool_decide_eq_true_2.
  - case_bool_decide as Hs; [|done]. cbn [List.filter]. case_bool_decide as Hp; [|done].
    by rewrite (proj2 (on_chain_spec s p e)) in Ho.
Qed.

(** C31: what the storage reads is the log it keeps.  On a store with nothing
    to recover, written by either way of appending, a read of a session
    returns the entries of its chains in the order they were appended, the
    head of a chain is its last entry, and an entry of a chain is found by its
    identifier. *)
Theorem reads_return_log : forall (s : S) base st (sid : Uuid) (p : option string),
  (base <= 1)%N -> stores base (view s) st ->
  (forall l, get_session_entries s sid = Ok l ->
     List.filter (fun e => bool_decide (e_principal e = p)) l = chain_of st (sid, p)) /\
  (forall head, get_chain_head s sid p = Ok head -> head = e_id <$> chain_head st (sid, p)) /\
  (forall e found, e ∈ chain_of st (sid, p) -> get s (e_id e) = Ok found -> found = Some e).
Proof.
  intros s base st sid p Hb [_ (h & Hr & Hc)]. split_and!.
  - intros l Hl%(session_read_faithful (view := view)). rewrite (session_read_represented base _ h) in Hl by done.
    injection Hl as <-. by rewrite Hc, chain_of_session.
  - intros head Hh%(get_chain_head_faithful (view := view)).
    rewrite (chain_head_stored base _ h st sid p Hr Hc) in Hh. by injection Hh.
  - intros e found He Hg%(get_faithful (view := view)). rewrite Hc in He. apply elem_of_chain in He as [He _].
    rewrite (get_represented base _ h e Hr He) in Hg. by injection Hg.
Qed.
End Refines.
