(* ===== verification/AuditBatch.v ===== *)
(** * Batched appends of the audit storage

    [append_batch_if_heads_durable] of [AuditStorage] on a backend with atomic
    batches: the entries are folded into one conditional batch, so either all
    of them extend the history or none does.  The fold follows the history the
    batch will leave ([Overlay]): where the batch has touched a chain, a
    session or the totals it holds the next values, elsewhere the store still
    speaks. *)

From stdpp Require Import sorting pretty.
From S2P Require Import Prelude Kv Bytes Cbor Crypto KeyRegistry AuditEntry AuditChain AuditLog.
From S2P Require Import AuditStorage CrashLogic AuditDurability AuditHistory.
From Stdlib Require Import Ascii.
Local Open Scope string_scope.
Local Open Scope list_scope.

#[local] Existing Instance ideal_store.

Section Prepare.
  Context `{Crypto} `{AuditSerde} `{UuidTextLaws} `{!StorageCodec} {SCL : StorageCodecLaws}.
  Implicit Types (h : list AuditEntry) (t v : KvMap) (entry e : AuditEntry) (expected : option Uuid)
    (pb : PreparedBatch) (md : ChainMetadata) (g : GlobalMetadata) (data : string).

Abbreviation chain_key_of entry := (chain_head_key (e_session_id entry) (e_principal entry)).

(** The hash an entry that follows [chain] carries. *)
Definition link_of (chain : list AuditEntry) : ContentHash := from_option content_hash ContentHash_zero (last chain).

(** ** Advancing *)

Lemma counts_next_batch md chain entry data g :
  counts md chain -> entry_to_vec entry = Ok data ->
  counts (next_chain_metadata md g entry (str_len data)).1 (chain ++ [entry]).
Proof.
  intros Hc Hd. split; unfold next_chain_metadata; cbn [fst cm_count cm_bytes cm_head cm_head_hash].
  - rewrite (ct_count _ _ Hc), sat_step, length_app. simpl. f_equal. lia.
  - rewrite (ct_bytes _ _ Hc), sat_step, total_size_app. unfold entry_size. by rewrite Hd.
  - by rewrite last_snoc.
  - by rewrite last_snoc.
Qed.

Lemma update_totals g md next entry (n count bytes : N) :
  gm_total_count g = sat count -> gm_total_bytes g = sat bytes ->
  let g' := update_global_metadata (next_chain_metadata md g entry n).2 md next n in
  gm_total_count g' = sat (count + 1) /\ gm_total_bytes g' = sat (bytes + n).
Proof.
  intros Hc Hb. unfold update_global_metadata, next_chain_metadata. cbn [snd].
  destruct (seals md n), (cm_sealed next);
    cbn [gm_total_count gm_total_bytes with_status with_hold with_totals with_next_seal_ordinal];
    rewrite Hc, Hb, !sat_step; done.
Qed.

(** The link [advance_batch_chain] checks. *)
Lemma expected_previous_link md chain :
  counts md chain -> (if (cm_count md =? 0)%N then ContentHash_zero else cm_head_hash md) = link_of chain.
Proof.
  intros Hc. rewrite (ct_count _ _ Hc). unfold link_of, sat. destruct chain as [|e chain]; [done|].
  rewrite (proj2 (N.eqb_neq _ 0)); [|unfold U64_MAX; simpl length; lia].
  pose proof (ct_hash _ _ Hc ltac:(done)) as Hh. destruct (last (e :: chain)); [|done]. simpl in *. by injection Hh.
Qed.

Lemma advance_batch_chain_Some (state state' : ChainState) g g' entry data chain :
  counts (cs_metadata state) chain -> entry_to_vec entry = Ok data ->
  advance_batch_chain state g entry (str_len data) = Some (state', g') ->
  e_previous_hash entry = link_of chain /\ counts (cs_metadata state') (chain ++ [entry]) /\
  cm_head (cs_metadata state') = Some (e_id entry) /\
  (forall count bytes, gm_total_count g = sat count -> gm_total_bytes g = sat bytes ->
     gm_total_count g' = sat (count + 1) /\ gm_total_bytes g' = sat (bytes + str_len data)).
Proof.
  intros Hc Hd. unfold advance_batch_chain. rewrite (expected_previous_link _ chain Hc).
  case_bool_decide as Hl; [|done]. cbn [negb].
  pose proof (counts_next_batch (cs_metadata state) chain entry data g Hc Hd) as Hn.
  pose proof (fun next => update_totals g (cs_metadata state) next entry (str_len data)) as Hu.
  destruct (next_chain_metadata (cs_metadata state) g entry (str_len data)) as [next g2] eqn:Hnext. intros [= <- <-].
  split_and!; try done.
  - unfold next_chain_metadata in Hnext. by injection Hnext as <- <-.
  - intros count bytes. apply Hu.
Qed.

(** ** The history a prepared batch will leave *)

Record Overlay (t : KvMap) pb (v : KvMap) h : Prop := {
  ov_entries : forall k x, (k, x) ∈ pb_entries pb -> v !! (NS_ENTRIES, k) = Some x;
  ov_entries_old : forall k, k ∉ (pb_entries pb).*1 -> v !! (NS_ENTRIES, k) = t !! (NS_ENTRIES, k);
  ov_index : forall k x, (k, x) ∈ pb_session_indexes pb -> v !! (NS_SESSION_ENTRIES, k) = Some x;
  ov_index_old : forall k, k ∉ (pb_session_indexes pb).*1 -> v !! (NS_SESSION_ENTRIES, k) = t !! (NS_SESSION_ENTRIES, k);
  ov_committed : forall k x, (k, x) ∈ pb_committed_entries pb -> v !! (NS_COMMITTED_ENTRIES, k) = Some x;
  ov_committed_old : forall k, k ∉ (pb_committed_entries pb).*1 ->
    v !! (NS_COMMITTED_ENTRIES, k) = t !! (NS_COMMITTED_ENTRIES, k);
  ov_chain : forall k state, pb_chains pb !! k = Some state ->
    v !! (NS_CHAIN_METADATA, k) = Some (metadata_to_vec (cs_metadata state)) /\
    v !! (NS_CHAIN_HEADS, k) = uuid_to_string <$> cm_head (cs_metadata state);
  ov_head : forall k state, pb_chains pb !! k = Some state -> is_Some (cm_head (cs_metadata state));
  ov_chain_old : forall k, pb_chains pb !! k = None ->
    v !! (NS_CHAIN_METADATA, k) = t !! (NS_CHAIN_METADATA, k) /\ v !! (NS_CHAIN_HEADS, k) = t !! (NS_CHAIN_HEADS, k);
  ov_sequence : forall k state, pb_sequences pb !! k = Some state ->
    v !! (NS_SESSION_SEQUENCE, k) = Some (sequence_bytes (ss_next state));
  ov_sequence_next : forall s state, pb_sequences pb !! uuid_to_string s = Some state ->
    ss_next state = N.of_nat (length (session_history h s));
  ov_sequence_old : forall k, pb_sequences pb !! k = None -> v !! (NS_SESSION_SEQUENCE, k) = t !! (NS_SESSION_SEQUENCE, k);
  ov_global : load_global_metadata v = Ok (v !! (NS_GLOBAL_METADATA, GLOBAL_KEY), pb_global pb);
  ov_global_new : pb_entries pb <> [] -> v !! (NS_GLOBAL_METADATA, GLOBAL_KEY) = Some (global_to_vec (pb_global pb));
  ov_legacy : forall k, v !! (NS_SESSION_INDEX, k) = t !! (NS_SESSION_INDEX, k);
  ov_intent : v !! intent_key = t !! intent_key;
}.

Lemma overlay_new t h b g :
  load_global_metadata t = Ok (b, g) -> Overlay t (PreparedBatch_new b g) t h.
Proof.
  intros Hl. split; try done; try (intros ? ? Hx; by apply elem_of_nil in Hx).
  - cbn [pb_global PreparedBatch_new]. by rewrite (load_global_metadata_bytes _ _ _ Hl).
Qed.
(** ** The parent of a chain the batch has not touched *)

Lemma same_id h e e' : NoDup (e_id <$> h) -> e ∈ h -> e' ∈ h -> e_id e = e_id e' -> e = e'.
Proof.
  intros Hnd [i Hi]%list_elem_of_lookup [j Hj]%list_elem_of_lookup Heq.
  assert (i = j) as ->; [|congruence].
  apply (NoDup_lookup (e_id <$> h) _ _ (e_id e) Hnd); rewrite list_lookup_fmap; [by rewrite Hi|by rewrite Hj, Heq].
Qed.

(** An entry the store returns is one of the history. *)
Lemma get_in_history base t h (id : Uuid) e : Represents base t h -> get t id = Ok (Some e) -> e ∈ h /\ e_id e = id.
Proof.
  intros Hr Hg. unfold get, st_get in Hg. simpl in Hg. destruct (t !! (NS_ENTRIES, _)) as [bytes|] eqn:Hb; [|done].
  simpl in Hg. destruct (rp_only _ _ _ Hr _ (mk_is_Some _ _ Hb)) as (e' & He' & Hk%uuid_to_string_inj).
  destruct (rp_entry _ _ _ Hr e' He') as (data & Hd & Hm). rewrite <- Hk, Hb in Hm. injection Hm as ->.
  rewrite (entry_roundtrip e' data Hd) in Hg. simpl in Hg. injection Hg as <-. done.
Qed.

Lemma counts_with_hash md chain e :
  counts md chain -> last chain = Some e ->
  counts (with_head md (cm_head md) (content_hash e) (cm_count md) (cm_bytes md)) chain.
Proof.
  intros Hc Hl. split; cbn [with_head cm_count cm_bytes cm_head cm_head_hash]; [apply Hc..|]. intros _. by rewrite Hl.
Qed.

(** On a store that keeps a history, the parent is found exactly when the
    caller names the chain's head. *)
Lemma parent_represented base0 base t v h0 h1 s p (mdo : option ChainMetadata) expected stored result :
  Represents base0 t h0 -> Represents base v (h0 ++ h1) ->
  counts (default ChainMetadata_default mdo) (chain_history (h0 ++ h1) s p) ->
  stored = e_id <$> last (chain_history (h0 ++ h1) s p) ->
  parent_metadata_for_append t mdo expected stored = Ok result ->
  match result with
  | None => expected <> e_id <$> last (chain_history (h0 ++ h1) s p)
  | Some md => expected = e_id <$> last (chain_history (h0 ++ h1) s p) /\ counts md (chain_history (h0 ++ h1) s p)
  end.
Proof.
  intros Ht Hv Hc Hst. unfold parent_metadata_for_append. set (md := default ChainMetadata_default mdo) in *.
  set (chain := chain_history (h0 ++ h1) s p) in *. pose proof (ct_head _ _ Hc) as Hhead.
  case_bool_decide as Hd; cbn [negb].
  - rewrite Hhead in Hd. subst expected. destruct (last chain) as [e|] eqn:Hl; simpl.
    + intros (parent & Hg & [= <-])%rbind_Ok. destruct parent as [parent|]; [|done]. split; [done|].
      destruct (get_in_history base0 t h0 _ _ Ht Hg) as [Hin Hid].
      assert (parent = e) as ->; [|by apply counts_with_hash].
      apply (same_id (h0 ++ h1)); [apply (rp_nodup _ _ _ Hv)|apply elem_of_app; by left| |done].
      apply last_Some_elem_of in Hl. by apply elem_of_chain in Hl as [? _].
    + by intros [= <-].
  - unfold metadata_from_stored_parent. rewrite Hhead in Hd |- *. subst stored.
    destruct (last chain) as [e|]; simpl in *; [intros [= <-]; congruence|].
    rewrite bool_decide_eq_false_2 by done. intros [= <-]. congruence.
Qed.
Lemma uuid_utf8 (u : Uuid) : utf8_valid (uuid_to_string u) = true.
Proof.
  pose proof (uuid_chars u) as Hc. induction (uuid_to_string u) as [|a r IH]; [done|]. cbn [str_all] in Hc.
  apply andb_true_iff in Hc as [Ha Hr]. cbn [utf8_valid].
  assert ((N_of_ascii a <? 128)%N = true) as ->; [|by apply IH].
  apply N.ltb_lt. unfold is_uuid_char, is_ascii_digit, char_dash in Ha.
  rewrite !orb_true_iff, !andb_true_iff, !N.leb_le, N.eqb_eq in Ha. lia.
Qed.

Lemma parse_head_text (head : option Uuid) : parse_stored_head (uuid_to_string <$> head) = Ok head.
Proof. destruct head as [u|]; [|done]. simpl. by rewrite uuid_utf8, uuid_roundtrip. Qed.

Lemma put_chain_same pb ck state : pb_chains pb !! ck = Some state -> put_chain pb ck state (pb_global pb) = pb.
Proof. intros Hs. destruct pb. unfold put_chain. simpl in *. by rewrite insert_id. Qed.

Lemma load_chain_metadata_ext t v s p :
  v !! (NS_CHAIN_METADATA, chain_head_key s p) = t !! (NS_CHAIN_METADATA, chain_head_key s p) ->
  load_chain_metadata v s p = load_chain_metadata t s p.
Proof. intros Heq. unfold load_chain_metadata, st_get. simpl. by rewrite Heq. Qed.

Lemma ensure_represented t pb v h0 h1 entry expected r :
  Represents 0 t h0 -> Represents 0 v (h0 ++ h1) -> Overlay t pb v (h0 ++ h1) ->
  ensure_chain_state t pb (chain_key_of entry) entry expected = Ok (Some r) ->
  expected = e_id <$> last (chain_history (h0 ++ h1) (e_session_id entry) (e_principal entry)) /\
  exists state, r = put_chain pb (chain_key_of entry) state (pb_global pb) /\
    counts (cs_metadata state) (chain_history (h0 ++ h1) (e_session_id entry) (e_principal entry)).
Proof.
  intros Ht Hv Ho. unfold ensure_chain_state. set (chain := chain_history (h0 ++ h1) (e_session_id entry) (e_principal entry)).
  pose proof (rp_metadata _ _ _ Hv (e_session_id entry) (e_principal entry)) as Hmd. fold chain in Hmd.
  destruct (pb_chains pb !! chain_key_of entry) as [state|] eqn:Hs.
  - destruct (ov_chain _ _ _ _ Ho _ _ Hs) as [Hvm _]. unfold stored_metadata in Hmd. rewrite Hvm, metadata_roundtrip in Hmd.
    destruct Hmd as (_ & md & [= <-] & Hc). case_bool_decide as Hd; [|done]. intros [= <-].
    destruct Hd as [_ ->]. split; [apply Hc|]. exists state. by rewrite put_chain_same.
  - destruct (ov_chain_old _ _ _ _ Ho _ Hs) as [Hvm Hvh]. unfold st_get. simpl.
    rewrite <- Hvh, (rp_heads _ _ _ Hv). fold chain.
    assert ((fun e => uuid_to_string (e_id e)) <$> last chain = uuid_to_string <$> (e_id <$> last chain)) as ->
      by (by destruct (last chain)).
    rewrite parse_head_text. cbn [rbind]. rewrite <- (load_chain_metadata_ext t v) by done.
    intros ([b mdo] & Hl & Hr)%rbind_Ok. apply (loaded_counts 0 v (h0 ++ h1)) in Hl; [|done]. fold chain in Hl.
    apply rbind_Ok in Hr as (parent & Hp & [= Hr]). destruct parent as [md|]; [|done]. injection Hr as <-.
    apply (parent_represented 0 0 t v h0 h1 (e_session_id entry) (e_principal entry)) in Hp as [-> Hc]; [|done..].
    split; [done|]. eauto.
Qed.

(** A chain the batch refuses is one whose head the caller does not name. *)
Lemma ensure_refused t pb v h0 h1 entry expected :
  Represents 0 t h0 -> Represents 0 v (h0 ++ h1) -> Overlay t pb v (h0 ++ h1) ->
  ensure_chain_state t pb (chain_key_of entry) entry expected = Ok None ->
  expected <> e_id <$> last (chain_history (h0 ++ h1) (e_session_id entry) (e_principal entry)).
Proof.
  intros Ht Hv Ho. unfold ensure_chain_state. set (chain := chain_history (h0 ++ h1) (e_session_id entry) (e_principal entry)).
  pose proof (rp_metadata _ _ _ Hv (e_session_id entry) (e_principal entry)) as Hmd. fold chain in Hmd.
  destruct (pb_chains pb !! chain_key_of entry) as [state|] eqn:Hs.
  - destruct (ov_chain _ _ _ _ Ho _ _ Hs) as [Hvm _]. unfold stored_metadata in Hmd. rewrite Hvm, metadata_roundtrip in Hmd.
    destruct Hmd as (_ & md & [= <-] & Hc). case_bool_decide as Hd; [done|]. intros _ ->. apply Hd.
    split; [by apply (ov_head _ _ _ _ Ho _ _ Hs)|]. by rewrite (ct_head _ _ Hc).
  - destruct (ov_chain_old _ _ _ _ Ho _ Hs) as [Hvm Hvh]. unfold st_get. simpl.
    rewrite <- Hvh, (rp_heads _ _ _ Hv). fold chain.
    assert ((fun e => uuid_to_string (e_id e)) <$> last chain = uuid_to_string <$> (e_id <$> last chain)) as ->
      by (by destruct (last chain)).
    rewrite parse_head_text. cbn [rbind]. rewrite <- (load_chain_metadata_ext t v) by done.
    intros ([b mdo] & Hl & Hr)%rbind_Ok. apply (loaded_counts 0 v (h0 ++ h1)) in Hl; [|done]. fold chain in Hl.
    apply rbind_Ok in Hr as (parent & Hp & [= Hr]). destruct parent as [md|]; [done|].
    by apply (parent_represented 0 0 t v h0 h1 (e_session_id entry) (e_principal entry)) in Hp.
Qed.

Lemma allocate_represented t pb v h0 h1 (s : Uuid) n sequences :
  Represents 0 v (h0 ++ h1) -> Overlay t pb v (h0 ++ h1) ->
  allocate_session_sequence t (pb_sequences pb) (uuid_to_string s) = Ok (n, sequences) ->
  n = N.of_nat (length (session_history (h0 ++ h1) s)) /\ (n + 1 <= U64_MAX)%N /\
  exists before, sequences = <[uuid_to_string s := MkSequenceState before (n + 1)]> (pb_sequences pb).
Proof.
  intros Hv Ho. unfold allocate_session_sequence.
  assert (forall k n next, map_err (exhausted k) (checked_next n) = Ok next -> next = n + 1 /\ n + 1 <= U64_MAX)%N as Hnext.
  { intros k n' next Hn. unfold checked_next, checked_add in Hn. inv_ok. destruct (_ <=? _)%N eqn:Hle; [|done].
    apply N.leb_le in Hle. by simplify_eq. }
  destruct (pb_sequences pb !! uuid_to_string s) as [state|] eqn:Hs.
  - intros (next & [-> Hb]%Hnext & [= <- <-])%rbind_Ok. rewrite <- (ov_sequence_next _ _ _ _ Ho s state Hs). eauto.
  - unfold st_get. simpl. rewrite <- (ov_sequence_old _ _ _ _ Ho _ Hs), (rp_sequence _ _ _ Hv).
    intros (seq & Hseq & Hr)%rbind_Ok. apply rbind_Ok in Hr as (next & [-> Hb]%Hnext & [= <- <-]).
    apply stored_sequence_value in Hseq; [|apply (rp_bound _ _ _ Hv)]. subst seq. eauto.
Qed.
(** ** One entry of the batch *)

(** The writes of one entry, in the form of an intent. *)
Definition step_intent entry (n : N) md g : AppendIntent :=
  MkAppendIntent entry (chain_key_of entry) (uuid_to_string (e_session_id entry)) None (sequence_bytes (n + 1))
    (session_index_key (uuid_to_string (e_session_id entry)) n (uuid_to_string (e_id entry))) None None md None g None.

Lemma accumulate_Some t pb ck entry pb2 :
  accumulate_entry t pb ck entry = Ok (Some pb2) ->
  exists data n sequences state state' g,
    entry_to_vec entry = Ok data /\
    allocate_session_sequence t (pb_sequences pb) (uuid_to_string (e_session_id entry)) = Ok (n, sequences) /\
    pb_chains pb !! ck = Some state /\ advance_batch_chain state (pb_global pb) entry (str_len data) = Some (state', g) /\
    pb2 = MkPreparedBatch (<[ck := state']> (pb_chains pb)) sequences
            (pb_entries pb ++ [(uuid_to_string (e_id entry), data)])
            (pb_session_indexes pb ++
             [(session_index_key (uuid_to_string (e_session_id entry)) n (uuid_to_string (e_id entry)), MARK)])
            (pb_committed_entries pb ++ [(uuid_to_string (e_id entry), MARK)]) (pb_global_expected pb) g.
Proof.
  unfold accumulate_entry. intros (data & Hd & Hr)%rbind_Ok. apply map_err_Ok in Hd.
  apply rbind_Ok in Hr as ([n sequences] & Ha & Hr). apply rbind_Ok in Hr as (state & Hs%ok_or_Ok & [= Hr]).
  destruct (advance_batch_chain state (pb_global pb) entry (str_len data)) as [[state' g]|] eqn:Hadv; [|done].
  injection Hr as <-. exists data, n, sequences, state, state', g. done.
Qed.

Lemma step_extends v h entry data (state' : ChainState) g :
  Represents 0 v h -> entry_to_vec entry = Ok data ->
  counts (cs_metadata state') (chain_history h (e_session_id entry) (e_principal entry) ++ [entry]) ->
  gm_total_count g = sat (N.of_nat (length h) + 1) -> gm_total_bytes g = sat (total_size h + str_len data) ->
  let n := N.of_nat (length (session_history h (e_session_id entry))) in
  (n + 1 <= U64_MAX)%N ->
  Extends 0 v h entry data (commit (step_intent entry n (cs_metadata state') g) data v).
Proof.
  intros Hv Hd Hc Hcount Hbytes n Hb. split; try done.
  - apply commit_none.
  - intros k. apply commit_entries.
  - intros k. apply commit_committed.
  - exists (cs_metadata state'). split; [done|]. intros k. apply commit_metadata.
  - intros k. apply commit_heads.
  - intros k. apply commit_sequence.
  - intros k. rewrite commit_index. cbn [step_intent i_session_index_key]. by rewrite N.add_0_r.
  - intros k. apply commit_legacy.
  - exists g. split; [|done]. unfold load_global_metadata, st_get. simpl. rewrite commit_global. simpl.
    by rewrite global_roundtrip.
Qed.

(** A list of writes with one more at a key it does not write yet. *)
Lemma overlay_snoc (l : list (string * string)) (ns key value : string) (t v v' : KvMap) :
  (forall k x, (k, x) ∈ l -> v !! (ns, k) = Some x) ->
  (forall k, k ∉ l.*1 -> v !! (ns, k) = t !! (ns, k)) ->
  v !! (ns, key) = None ->
  (forall k, v' !! (ns, k) = if decide (k = key) then Some value else v !! (ns, k)) ->
  (forall k x, (k, x) ∈ l ++ [(key, value)] -> v' !! (ns, k) = Some x) /\
  (forall k, k ∉ (l ++ [(key, value)]).*1 -> v' !! (ns, k) = t !! (ns, k)).
Proof.
  intros Hin Hout Hnone Hv'. split.
  - intros k x [Hkx|[= -> ->]%list_elem_of_singleton]%elem_of_app; rewrite Hv'.
    + rewrite decide_False by (intros ->; rewrite (Hin _ _ Hkx) in Hnone; done). by apply Hin.
    + by rewrite decide_True.
  - intros k. rewrite fmap_app, not_elem_of_app. intros [Hk Hne]. rewrite Hv', decide_False; [by apply Hout|].
    intros ->. apply Hne. by apply list_elem_of_singleton.
Qed.

Lemma fresh_lookups v h entry (n : N) :
  Represents 0 v h -> e_id entry ∉ e_id <$> h ->
  v !! (NS_ENTRIES, uuid_to_string (e_id entry)) = None /\
  v !! (NS_COMMITTED_ENTRIES, uuid_to_string (e_id entry)) = None /\
  v !! (NS_SESSION_ENTRIES, session_index_key (uuid_to_string (e_session_id entry)) n (uuid_to_string (e_id entry))) = None.
Proof.
  intros Hv Hf.
  assert (forall e, e ∈ h -> uuid_to_string (e_id entry) <> uuid_to_string (e_id e)) as Hne.
  { intros e He Heq%uuid_to_string_inj. apply Hf. rewrite Heq. by apply list_elem_of_fmap_2. }
  split_and!; apply eq_None_not_Some; intros Hs.
  - destruct (rp_only _ _ _ Hv _ Hs) as (e & He & Hk). by apply (Hne e).
  - apply (rp_committed _ _ _ Hv) in Hs as (e & He & Hk). by apply (Hne e).
  - apply (rp_index _ _ _ Hv (e_session_id entry)) in Hs; [|by apply session_prefix].
    unfold index_keys in Hs. apply elem_of_lookup_imap in Hs as (i & e & Hk & Hi).
    apply (f_equal index_key_id) in Hk. rewrite !index_key_id_spec in Hk. injection Hk as Hk.
    apply list_elem_of_lookup_2, elem_of_session in Hi as [Hi _]. apply (Hne e Hi). by rewrite Hk.
Qed.
Lemma step_overlay t pb v h entry data (state state' : ChainState) g n before :
  Represents 0 v h -> Overlay t pb v h -> e_id entry ∉ e_id <$> h ->
  cm_head (cs_metadata state') = Some (e_id entry) ->
  n = N.of_nat (length (session_history h (e_session_id entry))) ->
  Overlay t
    (MkPreparedBatch (<[chain_key_of entry := state']> (<[chain_key_of entry := state]> (pb_chains pb)))
       (<[uuid_to_string (e_session_id entry) := MkSequenceState before (n + 1)]> (pb_sequences pb))
       (pb_entries pb ++ [(uuid_to_string (e_id entry), data)])
       (pb_session_indexes pb ++
        [(session_index_key (uuid_to_string (e_session_id entry)) n (uuid_to_string (e_id entry)), MARK)])
       (pb_committed_entries pb ++ [(uuid_to_string (e_id entry), MARK)]) (pb_global_expected pb) g)
    (commit (step_intent entry n (cs_metadata state') g) data v) (h ++ [entry]).
Proof.
  intros Hv Ho Hf Hhead Hn. destruct (fresh_lookups v h entry n Hv Hf) as (Hfe & Hfc & Hfi).
  set (i := step_intent entry n (cs_metadata state') g).
  destruct (overlay_snoc _ _ _ data _ _ _ (ov_entries _ _ _ _ Ho) (ov_entries_old _ _ _ _ Ho) Hfe
              (commit_entries i data v)) as [He1 He2].
  destruct (overlay_snoc _ _ _ MARK _ _ _ (ov_index _ _ _ _ Ho) (ov_index_old _ _ _ _ Ho) Hfi
              (commit_index i data v)) as [Hi1 Hi2].
  destruct (overlay_snoc _ _ _ MARK _ _ _ (ov_committed _ _ _ _ Ho) (ov_committed_old _ _ _ _ Ho) Hfc
              (commit_committed i data v)) as [Hc1 Hc2].
  split; cbn [pb_entries pb_session_indexes pb_committed_entries pb_chains pb_sequences pb_global]; try done.
  - intros k st Hk. rewrite insert_insert_eq in Hk. rewrite commit_metadata, commit_heads. cbn [i step_intent i_head_key i_next_metadata i_entry].
    destruct (decide (k = chain_key_of entry)) as [->|Hne].
    + rewrite lookup_insert_eq in Hk. injection Hk as <-. by rewrite Hhead.
    + rewrite lookup_insert_ne in Hk by done. by apply (ov_chain _ _ _ _ Ho).
  - intros k st Hk. rewrite insert_insert_eq in Hk. apply lookup_insert_Some in Hk as [[_ <-]|[_ Hk]]; [by rewrite Hhead|].
    by apply (ov_head _ _ _ _ Ho k).
  - intros k Hk. rewrite insert_insert_eq in Hk. apply lookup_insert_None in Hk as [Hk Hne].
    rewrite commit_metadata, commit_heads. cbn [i step_intent i_head_key]. rewrite !decide_False by done.
    by apply (ov_chain_old _ _ _ _ Ho).
  - intros k st Hk. rewrite commit_sequence. cbn [i step_intent i_session_sequence_key i_next_session_sequence].
    destruct (decide (k = uuid_to_string (e_session_id entry))) as [->|Hne].
    + rewrite lookup_insert_eq in Hk. by injection Hk as <-.
    + rewrite lookup_insert_ne in Hk by done. by apply (ov_sequence _ _ _ _ Ho).
  - intros s st Hk. rewrite session_history_app, length_app.
    destruct (decide (s = e_session_id entry)) as [->|Hne].
    + rewrite lookup_insert_eq in Hk. injection Hk as <-. rewrite bool_decide_eq_true_2 by done. simpl. lia.
    + rewrite lookup_insert_ne in Hk by (by intros Heq%uuid_to_string_inj).
      rewrite bool_decide_eq_false_2 by congruence. rewrite (ov_sequence_next _ _ _ _ Ho s st Hk). simpl. lia.
  - intros k Hk. apply lookup_insert_None in Hk as [Hk Hne]. rewrite commit_sequence.
    cbn [i step_intent i_session_sequence_key]. rewrite decide_False by done. by apply (ov_sequence_old _ _ _ _ Ho).
  - unfold load_global_metadata, st_get. simpl. rewrite commit_global. simpl. by rewrite global_roundtrip.
  - intros _. apply commit_global.
  - intros k. rewrite commit_legacy. apply (ov_legacy _ _ _ _ Ho).
  - rewrite commit_none, <- (ov_intent _ _ _ _ Ho). symmetry. apply (rp_settled _ _ _ Hv).
Qed.

Lemma step_represented t pb v h0 h1 entry expected pb1 pb2 :
  Represents 0 t h0 -> Represents 0 v (h0 ++ h1) -> Overlay t pb v (h0 ++ h1) -> e_id entry ∉ e_id <$> (h0 ++ h1) ->
  ensure_chain_state t pb (chain_key_of entry) entry expected = Ok (Some pb1) ->
  accumulate_entry t pb1 (chain_key_of entry) entry = Ok (Some pb2) ->
  let chain := chain_history (h0 ++ h1) (e_session_id entry) (e_principal entry) in
  expected = e_id <$> last chain /\ e_previous_hash entry = link_of chain /\ pb_entries pb2 <> [] /\
  exists v', Represents 0 v' (h0 ++ h1 ++ [entry]) /\ Overlay t pb2 v' (h0 ++ h1 ++ [entry]).
Proof.
  intros Ht Hv Ho Hf Hens Hacc chain.
  destruct (ensure_represented t pb v h0 h1 entry expected pb1 Ht Hv Ho Hens) as (Hexp & state & -> & Hc).
  apply accumulate_Some in Hacc as (data & n & sequences & st & state' & g & Hd & Hal & Hst & Hadv & ->).
  cbn [put_chain pb_chains pb_sequences pb_global pb_entries pb_session_indexes pb_committed_entries pb_global_expected] in *.
  rewrite lookup_insert_eq in Hst. injection Hst as <-.
  destruct (allocate_represented t pb v h0 h1 _ _ _ Hv Ho Hal) as (-> & Hb & before & ->).
  destruct (advance_batch_chain_Some _ _ _ _ _ _ _ Hc Hd Hadv) as (Hlink & Hc' & Hhead & Htot).
  destruct (rp_global _ _ _ Hv) as (b & g0 & Hl0 & Hcount & Hbytes). rewrite (ov_global _ _ _ _ Ho) in Hl0.
  injection Hl0 as _ <-. destruct (Htot _ _ Hcount Hbytes) as [Hcount' Hbytes'].
  split_and!; [done|done|by destruct (pb_entries pb)|]. rewrite (app_assoc h0 h1 [entry]).
  eexists. split; [|by apply step_overlay].
  eapply extends_represents; [done|done|]. by apply step_extends.
Qed.
(** ** All entries of the batch *)

(** Each entry names the head of its chain and carries its hash. *)
Fixpoint appends_to (h : list AuditEntry) (l : list (AuditEntry * option Uuid)) : Prop :=
  match l with
  | [] => True
  | (entry, expected) :: rest =>
      let chain := chain_history h (e_session_id entry) (e_principal entry) in
      expected = e_id <$> last chain /\ e_previous_hash entry = link_of chain /\ appends_to (h ++ [entry]) rest
  end.

Lemma prepare_entries_represented t l : forall pb v h0 h1 seen pb',
  Represents 0 t h0 -> Represents 0 v (h0 ++ h1) -> Overlay t pb v (h0 ++ h1) ->
  Forall (fun x => e_id x.1 ∉ e_id <$> h0) l -> (forall id, id ∈ e_id <$> h1 -> id ∈ seen) ->
  prepare_entries t pb seen l = Ok (Some pb') ->
  appends_to (h0 ++ h1) l /\ (l <> [] \/ pb_entries pb <> [] -> pb_entries pb' <> []) /\
  exists v', Represents 0 v' (h0 ++ h1 ++ l.*1) /\ Overlay t pb' v' (h0 ++ h1 ++ l.*1).
Proof.
  induction l as [|[entry expected] l IH]; intros pb v h0 h1 seen pb' Ht Hv Ho Hf Hseen; cbn [prepare_entries].
  - intros [= <-]. split_and!; [done|naive_solver|]. exists v. by rewrite app_nil_r.
  - apply Forall_cons in Hf as [Hf0 Hf]. case_bool_decide as Hs; [done|].
    intros (ens & Hens & Hr)%rbind_Ok. destruct ens as [pb1|]; [|done].
    apply rbind_Ok in Hr as (acc & Hacc & Hr). destruct acc as [pb2|]; [|done].
    assert (e_id entry ∉ e_id <$> (h0 ++ h1)) as Hfresh.
    { rewrite fmap_app, not_elem_of_app. split; [done|]. intros Hin. apply Hs. by apply Hseen. }
    destruct (step_represented t pb v h0 h1 entry expected pb1 pb2 Ht Hv Ho Hfresh Hens Hacc)
      as (Hexp & Hlink & Hne & v' & Hv' & Ho').
    destruct (IH pb2 v' h0 (h1 ++ [entry]) (e_id entry :: seen) pb' Ht Hv' Ho' Hf) as (Happ & Hne' & v2 & Hv2 & Ho2); [|done|].
    { intros id. rewrite fmap_app, elem_of_app. intros [Hid| ->%list_elem_of_singleton]; [|apply list_elem_of_here].
      apply list_elem_of_further. by apply Hseen. }
    rewrite <- (app_assoc h1) in Hv2, Ho2. split_and!; [|intros _; by apply Hne'; right|by exists v2].
    simpl. split_and!; try done. by rewrite <- app_assoc.
Qed.

Lemma overlay_put_global t pb v h g :
  Overlay t pb v h -> pb_entries pb <> [] ->
  Overlay t (put_global pb g) (<[(NS_GLOBAL_METADATA, GLOBAL_KEY) := global_to_vec g]> v) h.
Proof.
  intros Ho Hne. destruct Ho. split; cbn [put_global pb_entries pb_session_indexes pb_committed_entries pb_chains pb_sequences pb_global];
    intros; rewrite ?lookup_insert_ne by auto with astrid; eauto.
  - unfold load_global_metadata, st_get. simpl. rewrite lookup_insert_eq. simpl. by rewrite global_roundtrip.
  - apply lookup_insert_eq.
Qed.

Lemma prepare_batch_represented t h l pb :
  Represents 0 t h -> Forall (fun x => e_id x.1 ∉ e_id <$> h) l -> l <> [] ->
  prepare_batch t l = Ok (Some pb) ->
  appends_to h l /\ pb_entries pb <> [] /\ exists v, Represents 0 v (h ++ l.*1) /\ Overlay t pb v (h ++ l.*1).
Proof.
  intros Ht Hf Hne. unfold prepare_batch. intros ([b g] & Hl & Hr)%rbind_Ok.
  apply rbind_Ok in Hr as (prep & Hprep & Hr). destruct prep as [pb0|]; [|done].
  pose proof (overlay_new t h b g Hl) as Ho. pose proof Ht as Ht'. rewrite <- (app_nil_r h) in Ht', Ho.
  destruct (prepare_entries_represented t l _ t h [] [] pb0 Ht Ht' Ho Hf) as (Happ & Hne0 & v & Hv & Hov); [|done|].
  { intros id Hid. by apply elem_of_nil in Hid. }
  rewrite app_nil_r in Happ. simpl in Hv, Hov. assert (pb_entries pb0 <> []) as Hne' by (apply Hne0; by left).
  destruct (over_cap (pb_global pb0)).
  - destruct (gm_retention_hold g) as [hold|]; [|done]. injection Hr as <-. split_and!; [done|done|].
    eexists. split; [|by apply overlay_put_global]. apply (represents_global 0 v); [| | |done].
    + apply lookup_insert_ne. auto with astrid.
    + intros ns k Hns. apply lookup_insert_ne. intros [= <- _]. done.
    + destruct (rp_global _ _ _ Hv) as (b' & g' & Hl' & Hc & Hb). rewrite (ov_global _ _ _ _ Hov) in Hl'. injection Hl' as _ <-.
      eexists _, (with_status (pb_global pb0) true (Some hold)). split; [|done].
      unfold load_global_metadata, st_get. simpl. rewrite lookup_insert_eq. simpl. by rewrite global_roundtrip.
  - injection Hr as <-. eauto.
Qed.
(** A batch is refused exactly when an entry does not follow its chain. *)
Lemma accumulate_refused t pb v h0 h1 entry expected pb1 :
  Represents 0 t h0 -> Represents 0 v (h0 ++ h1) -> Overlay t pb v (h0 ++ h1) ->
  ensure_chain_state t pb (chain_key_of entry) entry expected = Ok (Some pb1) ->
  accumulate_entry t pb1 (chain_key_of entry) entry = Ok None ->
  e_previous_hash entry <> link_of (chain_history (h0 ++ h1) (e_session_id entry) (e_principal entry)).
Proof.
  intros Ht Hv Ho Hens.
  destruct (ensure_represented t pb v h0 h1 entry expected pb1 Ht Hv Ho Hens) as (_ & state & -> & Hc).
  unfold accumulate_entry. cbn [put_chain pb_chains pb_sequences pb_global]. rewrite lookup_insert_eq.
  intros (data & _ & Hr)%rbind_Ok. apply rbind_Ok in Hr as ([n sequences] & _ & Hr). cbn [ok_or rbind] in Hr.
  injection Hr as Hr. unfold advance_batch_chain in Hr. rewrite (expected_previous_link _ _ Hc) in Hr.
  case_bool_decide as Hl; [|done]. cbn [negb] in Hr. by destruct (next_chain_metadata _ _ _ _).
Qed.

Lemma prepare_entries_refused t l : forall pb v h0 h1 seen,
  Represents 0 t h0 -> Represents 0 v (h0 ++ h1) -> Overlay t pb v (h0 ++ h1) ->
  Forall (fun x => e_id x.1 ∉ e_id <$> h0) l -> (forall id, id ∈ e_id <$> h1 -> id ∈ seen) ->
  prepare_entries t pb seen l = Ok None -> ~ appends_to (h0 ++ h1) l.
Proof.
  induction l as [|[entry expected] l IH]; intros pb v h0 h1 seen Ht Hv Ho Hf Hseen; cbn [prepare_entries appends_to]; [done|].
  apply Forall_cons in Hf as [Hf0 Hf]. case_bool_decide as Hs; [done|].
  intros (ens & Hens & Hr)%rbind_Ok (Hexp & Hlink & Happ).
  destruct ens as [pb1|]; [|by apply (ensure_refused t pb v h0 h1) in Hens].
  apply rbind_Ok in Hr as (acc & Hacc & Hr).
  destruct acc as [pb2|]; [|by apply (accumulate_refused t pb v h0 h1 entry expected) in Hacc].
  assert (e_id entry ∉ e_id <$> (h0 ++ h1)) as Hfresh.
  { rewrite fmap_app, not_elem_of_app. split; [done|]. intros Hin. apply Hs. by apply Hseen. }
  destruct (step_represented t pb v h0 h1 entry expected pb1 pb2 Ht Hv Ho Hfresh Hens Hacc) as (_ & _ & _ & v' & Hv' & Ho').
  rewrite <- app_assoc in Happ. revert Hr Happ.
  apply (IH pb2 v' h0 (h1 ++ [entry]) (e_id entry :: seen) Ht Hv' Ho' Hf).
  intros id. rewrite fmap_app, elem_of_app. intros [Hid| ->%list_elem_of_singleton]; [|apply list_elem_of_here].
  apply list_elem_of_further. by apply Hseen.
Qed.

Lemma prepare_batch_refused t h l :
  Represents 0 t h -> Forall (fun x => e_id x.1 ∉ e_id <$> h) l -> prepare_batch t l = Ok None -> ~ appends_to h l.
Proof.
  intros Ht Hf. unfold prepare_batch. intros ([b g] & Hl & Hr)%rbind_Ok.
  apply rbind_Ok in Hr as (prep & Hprep & Hr).
  destruct prep as [pb0|]; [by destruct (over_cap _); [destruct (gm_retention_hold g)|]|].
  pose proof (overlay_new t h b g Hl) as Ho. pose proof Ht as Ht'. rewrite <- (app_nil_r h) in Ht', Ho |- *.
  apply (prepare_entries_refused t l _ t h [] [] Ht Ht' Ho Hf); [|done]. intros id Hid. by apply elem_of_nil in Hid.
Qed.

(** ** The values a batch is conditional on are those it read *)

Record ReadAt (t : KvMap) pb : Prop := {
  ra_chain : forall k state, pb_chains pb !! k = Some state ->
    cs_head_expected state = t !! (NS_CHAIN_HEADS, k) /\ cs_metadata_expected state = t !! (NS_CHAIN_METADATA, k);
  ra_sequence : forall k state, pb_sequences pb !! k = Some state -> ss_expected state = t !! (NS_SESSION_SEQUENCE, k);
  ra_global : pb_global_expected pb = t !! (NS_GLOBAL_METADATA, GLOBAL_KEY);
}.

Lemma ensure_read t pb entry expected pb1 :
  ReadAt t pb -> ensure_chain_state t pb (chain_key_of entry) entry expected = Ok (Some pb1) -> ReadAt t pb1.
Proof.
  intros Hra. unfold ensure_chain_state. destruct (pb_chains pb !! chain_key_of entry) as [state|] eqn:Hs.
  - case_bool_decide; by intros [= <-].
  - unfold st_get. simpl. intros (stored & _ & Hr)%rbind_Ok.
    apply rbind_Ok in Hr as ([b mdo] & Hl%load_chain_metadata_bytes & Hr).
    apply rbind_Ok in Hr as (parent & _ & Hr). destruct parent as [md|]; [|done]. injection Hr as <-.
    split; cbn [put_chain pb_chains pb_sequences pb_global_expected]; [|apply Hra..].
    intros k state [[<- <-]|[_ Hk]]%lookup_insert_Some; [done|by apply (ra_chain _ _ Hra)].
Qed.

Lemma accumulate_read t pb ck entry pb2 :
  ReadAt t pb -> accumulate_entry t pb ck entry = Ok (Some pb2) -> ReadAt t pb2.
Proof.
  intros Hra (data & n & sequences & state & state' & g & _ & Hal & Hst & Hadv & ->)%accumulate_Some.
  split; cbn [pb_chains pb_sequences pb_global_expected]; [| |apply Hra].
  - intros k st [[<- <-]|[_ Hk]]%lookup_insert_Some; [|by apply (ra_chain _ _ Hra)].
    unfold advance_batch_chain in Hadv. destruct (negb _); [done|]. destruct (next_chain_metadata _ _ _ _).
    injection Hadv as <- _. exact (ra_chain _ _ Hra _ _ Hst).
  - unfold allocate_session_sequence in Hal. intros k st.
    destruct (pb_sequences pb !! uuid_to_string (e_session_id entry)) as [ss|] eqn:Hss.
    + apply rbind_Ok in Hal as (next & _ & [= _ <-]).
      intros [[<- <-]|[_ Hk]]%lookup_insert_Some; [exact (ra_sequence _ _ Hra _ _ Hss)|by apply (ra_sequence _ _ Hra)].
    + unfold st_get in Hal. simpl in Hal. apply rbind_Ok in Hal as (seq & _ & Hal). apply rbind_Ok in Hal as (next & _ & [= _ <-]).
      intros [[<- <-]|[_ Hk]]%lookup_insert_Some; [done|by apply (ra_sequence _ _ Hra)].
Qed.

Lemma prepare_entries_read t l : forall pb seen pb',
  ReadAt t pb -> prepare_entries t pb seen l = Ok (Some pb') -> ReadAt t pb'.
Proof.
  induction l as [|[entry expected] l IH]; intros pb seen pb' Hra; cbn [prepare_entries]; [by intros [= <-]|].
  case_bool_decide; [done|]. intros (ens & Hens & Hr)%rbind_Ok. destruct ens as [pb1|]; [|done].
  apply rbind_Ok in Hr as (acc & Hacc & Hr). destruct acc as [pb2|]; [|done].
  eapply IH; [|exact Hr]. eapply accumulate_read; [|exact Hacc]. by eapply ensure_read.
Qed.

Lemma prepare_batch_read t l pb : prepare_batch t l = Ok (Some pb) -> ReadAt t pb.
Proof.
  unfold prepare_batch. intros ([b g] & Hl%load_global_metadata_bytes & Hr)%rbind_Ok.
  apply rbind_Ok in Hr as (prep & Hprep & Hr). destruct prep as [pb0|]; [|done].
  assert (ReadAt t pb0) as [Hc Hs Hg]; [|destruct (over_cap _); [destruct (gm_retention_hold g); [|done]|]; injection Hr as <-; by split].
  eapply prepare_entries_read; [|exact Hprep]. by split.
Qed.
End Prepare.

(** ** The mutations of a prepared batch *)

Lemma map_mutations_out (m : KvMap) (mus : list KvBatchMutation) (k : string * string) :
  (forall mu, mu ∈ mus -> Kv.entry (mutation_key mu) <> k) -> map_mutations m mus !! k = m !! k.
Proof.
  unfold map_mutations. revert m. induction mus as [|mu mus IH]; intros m Hk; [done|]. simpl.
  rewrite IH by (intros mu' Hmu'; apply Hk; by apply list_elem_of_further).
  pose proof (Hk mu (list_elem_of_here _ _)) as Hne.
  destruct mu; simpl in *; [by rewrite lookup_insert_ne|by rewrite lookup_delete_ne].
Qed.

Lemma map_mutations_in (m : KvMap) (mus : list KvBatchMutation) (key : KvEntryKey) (x : string) :
  NoDup (mutation_key <$> mus) -> MutSet key x ∈ mus -> map_mutations m mus !! Kv.entry key = Some x.
Proof.
  unfold map_mutations. revert m. induction mus as [|mu mus IH]; intros m Hnd Hin; [by apply elem_of_nil in Hin|].
  rewrite fmap_cons in Hnd. apply NoDup_cons in Hnd as [Hni Hnd]. simpl.
  apply elem_of_cons in Hin as [<-|Hin]; [|by apply IH]. simpl.
  change (List.fold_left map_mutate mus ?n) with (map_mutations n mus).
  rewrite (map_mutations_out (<[Kv.entry key := x]> m)); [by rewrite lookup_insert_eq|].
  intros mu Hmu Heq%entry_inj. apply Hni. simpl. rewrite <- Heq. by apply list_elem_of_fmap_2.
Qed.

Section Mutations.
  Context `{Crypto} `{AuditSerde} `{UuidTextLaws} `{!StorageCodec} {SCL : StorageCodecLaws} `{BatchIterationLaws}.

Definition set_in (ns : string) (write : string * string) : KvBatchMutation := MutSet (MkKvEntryKey ns write.1) write.2.

Lemma kv_key_Ok (ns value : string) key :
  kv_key ns value = Ok key -> key = MkKvEntryKey ns value /\ valid_entry key.
Proof.
  unfold kv_key, KvEntryKey_new. intros Hk. inv_ok. split; [done|]. split; unfold valid_namespace, valid_key; done.
Qed.

Lemma append_stored_values_Ok (ns : string) values mus :
  append_stored_values ns values = Ok mus ->
  mus = set_in ns <$> values /\ Forall (fun mu => valid_entry (mutation_key mu)) mus.
Proof.
  unfold append_stored_values. intros Hm%try_map_Ok. induction Hm as [|[k x] mu values mus Hk Hm [-> IH]]; [done|].
  apply rbind_Ok in Hk as (key & [-> Hv]%kv_key_Ok & [= <-]). split; [done|]. by constructor.
Qed.

Lemma chain_changes_Ok (k : string) (state : ChainState) conditions mutations :
  chain_changes (k, state) = Ok (conditions, mutations) ->
  exists head, cm_head (cs_metadata state) = Some head /\
    mutations = MutSet (MkKvEntryKey NS_CHAIN_HEADS k) (uuid_to_string head)
                :: MutSet (MkKvEntryKey NS_CHAIN_METADATA k) (metadata_to_vec (cs_metadata state))
                :: (set_in NS_SEGMENT_INDEX <$> cs_segment_index state) /\
    Forall (fun c => valid_entry (condition_key c)) conditions /\
    Forall (fun mu => valid_entry (mutation_key mu)) mutations.
Proof.
  unfold chain_changes. intros (hk & [-> Hv1]%kv_key_Ok & Hr)%rbind_Ok.
  apply rbind_Ok in Hr as (mk & [-> Hv2]%kv_key_Ok & Hr). apply rbind_Ok in Hr as (head & Hh%ok_or_Ok & Hr).
  apply rbind_Ok in Hr as (segments & [-> Hv3]%append_stored_values_Ok & [= <- <-]).
  exists head. split_and!; [done|done|by apply Forall_cons_2; [|apply Forall_singleton]|].
  by apply Forall_cons_2; [|apply Forall_cons_2].
Qed.

Lemma sequence_changes_Ok (k : string) (state : SequenceState) conditions mutations :
  sequence_changes (k, state) = Ok (conditions, mutations) ->
  mutations = [MutSet (MkKvEntryKey NS_SESSION_SEQUENCE k) (sequence_bytes (ss_next state))] /\
  Forall (fun c => valid_entry (condition_key c)) conditions /\
  Forall (fun mu => valid_entry (mutation_key mu)) mutations.
Proof.
  unfold sequence_changes. intros (key & [-> Hv]%kv_key_Ok & [= <- <-])%rbind_Ok.
  split_and!; [done|by apply Forall_singleton..].
Qed.

(** The mutations, before they are put in canonical order. *)
Record batch_writes (pb : PreparedBatch) (mus : list KvBatchMutation) : Prop := {
  bw_chain : forall k state, pb_chains pb !! k = Some state -> exists head, cm_head (cs_metadata state) = Some head /\
    MutSet (MkKvEntryKey NS_CHAIN_HEADS k) (uuid_to_string head) ∈ mus /\
    MutSet (MkKvEntryKey NS_CHAIN_METADATA k) (metadata_to_vec (cs_metadata state)) ∈ mus;
  bw_sequence : forall k state, pb_sequences pb !! k = Some state ->
    MutSet (MkKvEntryKey NS_SESSION_SEQUENCE k) (sequence_bytes (ss_next state)) ∈ mus;
  bw_entries : forall write, write ∈ pb_entries pb -> set_in NS_ENTRIES write ∈ mus;
  bw_index : forall write, write ∈ pb_session_indexes pb -> set_in NS_SESSION_ENTRIES write ∈ mus;
  bw_committed : forall write, write ∈ pb_committed_entries pb -> set_in NS_COMMITTED_ENTRIES write ∈ mus;
  bw_global : MutSet (MkKvEntryKey NS_GLOBAL_METADATA GLOBAL_KEY) (global_to_vec (pb_global pb)) ∈ mus;
  bw_only : forall mu, mu ∈ mus ->
    (exists k, is_Some (pb_chains pb !! k) /\
       (mutation_key mu = MkKvEntryKey NS_CHAIN_HEADS k \/ mutation_key mu = MkKvEntryKey NS_CHAIN_METADATA k)) \/
    (exists k, mutation_key mu = MkKvEntryKey NS_SEGMENT_INDEX k) \/
    (exists k, is_Some (pb_sequences pb !! k) /\ mutation_key mu = MkKvEntryKey NS_SESSION_SEQUENCE k) \/
    (exists k, k ∈ (pb_entries pb).*1 /\ mutation_key mu = MkKvEntryKey NS_ENTRIES k) \/
    (exists k, k ∈ (pb_session_indexes pb).*1 /\ mutation_key mu = MkKvEntryKey NS_SESSION_ENTRIES k) \/
    (exists k, k ∈ (pb_committed_entries pb).*1 /\ mutation_key mu = MkKvEntryKey NS_COMMITTED_ENTRIES k) \/
    mutation_key mu = MkKvEntryKey NS_GLOBAL_METADATA GLOBAL_KEY;
}.

Lemma Forall2_lookup_l_elem {A B} (P : A -> B -> Prop) l k x : Forall2 P l k -> x ∈ l -> exists y, y ∈ k /\ P x y.
Proof.
  intros Hf [i Hi]%list_elem_of_lookup. destruct (Forall2_lookup_l _ _ _ _ _ Hf Hi) as (y & Hy & HP).
  exists y. split; [by apply list_elem_of_lookup_2 in Hy|done].
Qed.

(** [Vec<(conditions, mutations)>] flattened. *)
Lemma elem_of_changes {A B} (f : A -> AuditResult (B * list KvBatchMutation)) l ys (mu : KvBatchMutation) :
  try_map f l = Ok ys -> mu ∈ List.concat ys.*2 <-> exists x c mus, x ∈ l /\ f x = Ok (c, mus) /\ mu ∈ mus.
Proof.
  intros Hy%try_map_Ok. induction Hy as [|x [c mus] l ys Hx Hy IH]; simpl.
  - split; [intros Hm; by apply elem_of_nil in Hm|]. intros (x & _ & _ & Hx & _). by apply elem_of_nil in Hx.
  - rewrite elem_of_app, IH. split.
    + intros [Hm|(x' & c' & mus' & Hx' & Hf & Hm)].
      * exists x, c, mus. split; [apply list_elem_of_here|done].
      * exists x', c', mus'. split; [by apply list_elem_of_further|done].
    + intros (x' & c' & mus' & [->|Hx']%elem_of_cons & Hf & Hm); [left; congruence|right; eauto 6].
Qed.
Abbreviation valid_conditions := (Forall (fun c => valid_entry (condition_key c))).
Abbreviation valid_mutations := (Forall (fun mu => valid_entry (mutation_key mu))).

Lemma changes_valid {A} (f : A -> AuditResult (list KvBatchCondition * list KvBatchMutation)) l ys :
  (forall x c mus, f x = Ok (c, mus) -> valid_conditions c /\ valid_mutations mus) ->
  try_map f l = Ok ys -> valid_conditions (List.concat ys.*1) /\ valid_mutations (List.concat ys.*2).
Proof.
  intros Hf Hy%try_map_Ok. induction Hy as [|x [c mus] l ys Hx Hy [IH1 IH2]]; simpl; [done|].
  apply Hf in Hx as [Hc Hm]. by split; apply Forall_app.
Qed.

Lemma elem_of_set_in (ns : string) (l : list (string * string)) mu :
  mu ∈ set_in ns <$> l -> exists k, k ∈ l.*1 /\ mutation_key mu = MkKvEntryKey ns k.
Proof.
  intros ([k x] & -> & Hin)%list_elem_of_fmap. exists k. split; [|done]. by apply (list_elem_of_fmap_2 fst _ _ Hin).
Qed.

Lemma batch_writes_intro (pb : PreparedBatch) chains sequences :
  try_map chain_changes (iter_chains (pb_chains pb)) = Ok chains ->
  try_map sequence_changes (iter_sequences (pb_sequences pb)) = Ok sequences ->
  batch_writes pb (List.concat chains.*2 ++ List.concat sequences.*2 ++ (set_in NS_ENTRIES <$> pb_entries pb)
    ++ (set_in NS_SESSION_ENTRIES <$> pb_session_indexes pb) ++ (set_in NS_COMMITTED_ENTRIES <$> pb_committed_entries pb)
    ++ [MutSet (MkKvEntryKey NS_GLOBAL_METADATA GLOBAL_KEY) (global_to_vec (pb_global pb))]).
Proof.
  intros Hch Hsq. pose proof (fun mu => elem_of_changes _ _ _ mu Hch) as Hc. pose proof (fun mu => elem_of_changes _ _ _ mu Hsq) as Hs.
  assert (forall k state, pb_chains pb !! k = Some state <-> (k, state) ∈ iter_chains (pb_chains pb)) as Hci.
  { intros k state. by rewrite iter_chains_perm, elem_of_map_to_list. }
  assert (forall k state, pb_sequences pb !! k = Some state <-> (k, state) ∈ iter_sequences (pb_sequences pb)) as Hsi.
  { intros k state. by rewrite iter_sequences_perm, elem_of_map_to_list. }
  split.
  - intros k state Hk%Hci. destruct (chain_changes (k, state)) as [[c mus]|err] eqn:Hf.
    + destruct (chain_changes_Ok _ _ _ _ Hf) as (head & Hh & Hm & _). exists head.
      split; [done|]. split; apply elem_of_app; left; apply Hc; exists (k, state), c, mus; subst mus;
        (split; [done|split; [done|]]); [apply list_elem_of_here|apply list_elem_of_further, list_elem_of_here].
    + apply try_map_Ok in Hch. apply (Forall2_lookup_l_elem _ _ _ _ Hch) in Hk. destruct Hk as (y & _ & Hy). congruence.
  - intros k state Hk%Hsi. rewrite !elem_of_app. right. left. apply Hs.
    destruct (sequence_changes (k, state)) as [[c mus]|err] eqn:Hf.
    + destruct (sequence_changes_Ok _ _ _ _ Hf) as (Hm & _). exists (k, state), c, mus. subst mus.
      split; [done|split; [done|apply list_elem_of_here]].
    + apply try_map_Ok in Hsq. apply (Forall2_lookup_l_elem _ _ _ _ Hsq) in Hk. destruct Hk as (y & _ & Hy). congruence.
  - intros write Hw. rewrite !elem_of_app. do 2 right. left. by apply list_elem_of_fmap_2.
  - intros write Hw. rewrite !elem_of_app. do 3 right. left. by apply list_elem_of_fmap_2.
  - intros write Hw. rewrite !elem_of_app. do 4 right. left. by apply list_elem_of_fmap_2.
  - rewrite !elem_of_app. do 5 right. by apply list_elem_of_singleton.
  - intros mu. rewrite !elem_of_app. intros [Hm|[Hm|[Hm|[Hm|[Hm|Hm]]]]].
    + apply Hc in Hm as ([k state] & c & mus & Hk%Hci & Hf & Hm). destruct (chain_changes_Ok _ _ _ _ Hf) as (head & _ & -> & _).
      rewrite !elem_of_cons in Hm. destruct Hm as [->|[->|Hm]]; [left; eauto..|].
      apply elem_of_set_in in Hm as (k' & _ & Hk'). right. left. eauto.
    + apply Hs in Hm as ([k state] & c & mus & Hk%Hsi & Hf & Hm). destruct (sequence_changes_Ok _ _ _ _ Hf) as (-> & _).
      apply list_elem_of_singleton in Hm as ->. do 2 right. left. eauto.
    + apply elem_of_set_in in Hm. do 3 right. by left.
    + apply elem_of_set_in in Hm. do 4 right. by left.
    + apply elem_of_set_in in Hm. do 5 right. by left.
    + apply list_elem_of_singleton in Hm as ->. by do 6 right.
Qed.

Lemma batch_writes_perm pb mus mus' : mus ≡ₚ mus' -> batch_writes pb mus -> batch_writes pb mus'.
Proof.
  intros Hp []. split; intros; rewrite <- ?Hp; eauto.
  - destruct (bw_chain0 k state ltac:(done)) as (head & ? & ? & ?). exists head. by rewrite <- !Hp.
  - apply bw_only0. by rewrite Hp.
Qed.
Lemma into_mutation_batch_Ok (pb : PreparedBatch) b :
  into_mutation_batch pb = Ok b ->
  valid_batch b /\ NoDup (mutation_key <$> batch_mutations b) /\ batch_writes pb (batch_mutations b) /\
  exists chains sequences,
    try_map chain_changes (iter_chains (pb_chains pb)) = Ok chains /\
    try_map sequence_changes (iter_sequences (pb_sequences pb)) = Ok sequences /\
    batch_conditions b ≡ₚ List.concat chains.*1 ++ List.concat sequences.*1
      ++ [ValueEquals (MkKvEntryKey NS_GLOBAL_METADATA GLOBAL_KEY) (pb_global_expected pb)].
Proof.
  unfold into_mutation_batch. intros (chains & Hch & Hr)%rbind_Ok. apply rbind_Ok in Hr as (sequences & Hsq & Hr).
  apply rbind_Ok in Hr as (entries & [-> Hve]%append_stored_values_Ok & Hr).
  apply rbind_Ok in Hr as (indexes & [-> Hvi]%append_stored_values_Ok & Hr).
  apply rbind_Ok in Hr as (committed & [-> Hvc]%append_stored_values_Ok & Hr).
  apply rbind_Ok in Hr as (gk & [-> Hvg]%kv_key_Ok & Hb%map_err_Ok).
  assert (forall x c mus, chain_changes x = Ok (c, mus) -> valid_conditions c /\ valid_mutations mus) as Hcv.
  { intros [k state] c mus Hf. by destruct (chain_changes_Ok _ _ _ _ Hf) as (? & _ & _ & ? & ?). }
  assert (forall x c mus, sequence_changes x = Ok (c, mus) -> valid_conditions c /\ valid_mutations mus) as Hsv.
  { intros [k state] c mus Hf. by destruct (sequence_changes_Ok _ _ _ _ Hf) as (_ & ? & ?). }
  destruct (changes_valid _ _ _ Hcv Hch) as [Hc1 Hc2]. destruct (changes_valid _ _ _ Hsv Hsq) as [Hs1 Hs2].
  apply KvMutationBatch_new_Ok in Hb as (_ & _ & _ & _ & Hnd & ->).
  - cbn [batch_conditions batch_mutations]. split_and!.
    + split; cbn [batch_conditions batch_mutations]; rewrite merge_sort_Permutation;
        repeat apply Forall_app_2; (done || by apply Forall_singleton).
    + by rewrite merge_sort_Permutation.
    + eapply batch_writes_perm; [symmetry; apply merge_sort_Permutation|by apply batch_writes_intro].
    + exists chains, sequences. split_and!; [done|done|]. apply merge_sort_Permutation.
  - repeat apply Forall_app_2; (done || by apply Forall_singleton).
  - repeat apply Forall_app_2; (done || by apply Forall_singleton).
Qed.

(** Under the append lock nothing changed since the batch was prepared. *)
Lemma changes_hold {A} (f : A -> AuditResult (list KvBatchCondition * list KvBatchMutation)) (l : list A)
    (ys : list (list KvBatchCondition * list KvBatchMutation)) (t : KvMap) :
  (forall x c mus, x ∈ l -> f x = Ok (c, mus) -> map_conditions t c = true) ->
  try_map f l = Ok ys -> map_conditions t (List.concat ys.*1) = true.
Proof.
  intros Hf Hy%try_map_Ok. induction Hy as [|x [c mus] l ys Hx Hy IH]; [done|]. cbn [fmap list_fmap List.map fst List.concat].
  unfold map_conditions. rewrite forallb_app. apply andb_true_iff. split.
  - eapply Hf; [apply list_elem_of_here|exact Hx].
  - apply IH. intros x' c' mus' Hin. eapply Hf. by apply list_elem_of_further.
Qed.

Lemma conditions_hold t (pb : PreparedBatch) b :
  ReadAt t pb -> into_mutation_batch pb = Ok b -> map_conditions t (batch_conditions b) = true.
Proof.
  intros Hra (_ & _ & _ & chains & sequences & Hch & Hsq & Hp)%into_mutation_batch_Ok.
  rewrite (map_conditions_perm _ _ _ Hp).
  unfold map_conditions. rewrite !forallb_app, !andb_true_iff. split_and!.
  - apply (changes_hold _ _ _ t) in Hch; [done|]. intros [k state] c mus Hk Hf. unfold chain_changes in Hf.
    rewrite iter_chains_perm, elem_of_map_to_list in Hk. destruct (ra_chain _ _ Hra _ _ Hk) as [Hh Hm].
    apply rbind_Ok in Hf as (hk & [-> _]%kv_key_Ok & Hf). apply rbind_Ok in Hf as (mk & [-> _]%kv_key_Ok & Hf). inv_ok.
    unfold map_conditions, map_condition, Kv.entry. simpl. by rewrite !bool_decide_eq_true_2.
  - apply (changes_hold _ _ _ t) in Hsq; [done|]. intros [k state] c mus Hk Hf. unfold sequence_changes in Hf.
    rewrite iter_sequences_perm, elem_of_map_to_list in Hk. pose proof (ra_sequence _ _ Hra _ _ Hk) as Hs.
    apply rbind_Ok in Hf as (hk & [-> _]%kv_key_Ok & Hf). inv_ok.
    unfold map_conditions, map_condition, Kv.entry. simpl. by rewrite !bool_decide_eq_true_2.
  - simpl. rewrite andb_true_r. unfold map_condition, Kv.entry. simpl. apply bool_decide_eq_true_2.
    symmetry. apply (ra_global _ _ Hra).
Qed.

(** A key no mutation of the batch names keeps its value. *)
Lemma unwritten_keeps t (pb : PreparedBatch) mus (ns k : string) :
  batch_writes pb mus ->
  (ns = NS_CHAIN_HEADS \/ ns = NS_CHAIN_METADATA -> pb_chains pb !! k = None) -> ns <> NS_SEGMENT_INDEX ->
  (ns = NS_SESSION_SEQUENCE -> pb_sequences pb !! k = None) ->
  (ns = NS_ENTRIES -> k ∉ (pb_entries pb).*1) -> (ns = NS_SESSION_ENTRIES -> k ∉ (pb_session_indexes pb).*1) ->
  (ns = NS_COMMITTED_ENTRIES -> k ∉ (pb_committed_entries pb).*1) ->
  (ns = NS_GLOBAL_METADATA -> k <> GLOBAL_KEY) ->
  map_mutations t mus !! (ns, k) = t !! (ns, k).
Proof.
  intros Hbw Hch Hsg Hsq He Hi Hc Hg. apply map_mutations_out. intros mu Hmu Heq.
  destruct (bw_only _ _ Hbw mu Hmu) as
    [(k' & Hk' & [Hk|Hk])|[(k' & Hk)|[(k' & Hk' & Hk)|[(k' & Hk' & Hk)|[(k' & Hk' & Hk)|[(k' & Hk' & Hk)|Hk]]]]]];
    rewrite Hk in Heq; unfold Kv.entry in Heq; cbn [ek_namespace ek_key] in Heq; injection Heq as Hns Hkey; subst k.
  - rewrite Hch in Hk' by auto. by destruct Hk'.
  - rewrite Hch in Hk' by auto. by destruct Hk'.
  - congruence.
  - rewrite Hsq in Hk' by auto. by destruct Hk'.
  - by apply He.
  - by apply Hi.
  - by apply Hc.
  - by apply Hg.
Qed.
Ltac unwritten := eapply unwritten_keeps; [eassumption|by intros [?|?]|..]; by try intros ?.

(** In the namespaces of the history, the batch leaves what was prepared. *)
Lemma applied_agrees t (pb : PreparedBatch) v h mus :
  Overlay t pb v h -> batch_writes pb mus -> NoDup (mutation_key <$> mus) ->
  forall ns k, bool_decide (ns ∈ history_namespaces) = true -> map_mutations t mus !! (ns, k) = v !! (ns, k).
Proof.
  intros Ho Hbw Hnd ns k Hns%bool_decide_eq_true.
  assert (forall ns key x, MutSet (MkKvEntryKey ns key) x ∈ mus -> map_mutations t mus !! (ns, key) = Some x) as Hin
    by (intros ns' key x Hx; exact (map_mutations_in t mus _ _ Hnd Hx)).
  assert (forall ns' (l : list (string * string)),
    (forall write, write ∈ l -> set_in ns' write ∈ mus) -> (forall k x, (k, x) ∈ l -> v !! (ns', k) = Some x) ->
    (k ∉ l.*1 -> map_mutations t mus !! (ns', k) = t !! (ns', k)) ->
    (forall k, k ∉ l.*1 -> v !! (ns', k) = t !! (ns', k)) ->
    map_mutations t mus !! (ns', k) = v !! (ns', k)) as Hlist.
  { intros ns' l Hw Hv Hout Hold. destruct (decide (k ∈ l.*1)) as [([k' x] & -> & Hkx)%list_elem_of_fmap|Hk].
    - cbn [fst]. rewrite (Hv _ _ Hkx). by apply Hin, (Hw (k', x)).
    - by rewrite Hout, Hold. }
  unfold history_namespaces in Hns. rewrite !elem_of_cons in Hns.
  destruct Hns as [->|[->|[->|[->|[->|[->|[->|Hns]]]]]]]; [..|by apply elem_of_nil in Hns].
  - apply (Hlist _ (pb_entries pb)); [apply Hbw|apply Ho| |apply Ho]. intros Hk. unwritten.
  - apply (Hlist _ (pb_committed_entries pb)); [apply Hbw|apply Ho| |apply Ho]. intros Hk. unwritten.
  - destruct (pb_chains pb !! k) as [state|] eqn:Hk.
    + destruct (bw_chain _ _ Hbw k state Hk) as (head & _ & _ & Hm). rewrite (proj1 (ov_chain _ _ _ _ Ho k state Hk)). by apply Hin.
    + rewrite (proj1 (ov_chain_old _ _ _ _ Ho k Hk)). unwritten.
  - destruct (pb_chains pb !! k) as [state|] eqn:Hk.
    + destruct (bw_chain _ _ Hbw k state Hk) as (head & Hh & Hm & _). rewrite (proj2 (ov_chain _ _ _ _ Ho k state Hk)), Hh. by apply Hin.
    + rewrite (proj2 (ov_chain_old _ _ _ _ Ho k Hk)). unwritten.
  - destruct (pb_sequences pb !! k) as [state|] eqn:Hk.
    + rewrite (ov_sequence _ _ _ _ Ho k state Hk). apply Hin. by apply Hbw.
    + rewrite (ov_sequence_old _ _ _ _ Ho k Hk). unwritten.
  - apply (Hlist _ (pb_session_indexes pb)); [apply Hbw|apply Ho| |apply Ho]. intros Hk. unwritten.
  - rewrite (ov_legacy _ _ _ _ Ho). unwritten.
Qed.

Lemma batch_keeps_intent (t : KvMap) (pb : PreparedBatch) b :
  into_mutation_batch pb = Ok b -> map_mutations t (batch_mutations b) !! intent_key = t !! intent_key.
Proof. intros (_ & _ & Hbw & _)%into_mutation_batch_Ok. unwritten. Qed.

Lemma applied_represents t (pb : PreparedBatch) v h b :
  Overlay t pb v h -> Represents 0 v h -> pb_entries pb <> [] -> into_mutation_batch pb = Ok b ->
  Represents 0 (map_mutations t (batch_mutations b)) h.
Proof.
  intros Ho Hv Hne Hb. destruct (into_mutation_batch_Ok pb b Hb) as (_ & Hnd & Hbw & _).
  apply (represents_global 0 v); [| | |done].
  - rewrite (ov_intent _ _ _ _ Ho). by apply (batch_keeps_intent t pb).
  - by apply (applied_agrees t pb v h).
  - destruct (rp_global _ _ _ Hv) as (b' & g & Hl & Hc & Hs). rewrite (ov_global _ _ _ _ Ho) in Hl. injection Hl as _ <-.
    eexists _, (pb_global pb). split; [|done]. unfold load_global_metadata, st_get. simpl.
    change (NS_GLOBAL_METADATA, GLOBAL_KEY) with (Kv.entry (MkKvEntryKey NS_GLOBAL_METADATA GLOBAL_KEY)).
    rewrite (map_mutations_in _ _ _ _ Hnd (bw_global _ _ Hbw)). simpl. by rewrite global_roundtrip.
Qed.
End Mutations.

(** ** The batch on a backend *)

Section Atomic.
  Context {S : Type} `{KvStoreLaws S view} `{Crypto} `{AuditSerde} `{UuidTextLaws} `{!StorageCodec} {SCL : StorageCodecLaws}
    `{BatchIterationLaws}.
  Implicit Types (h : list AuditEntry) (t m : KvMap) (entry : AuditEntry) (expected : option Uuid) (st : AuditStore)
    (l : list (AuditEntry * option Uuid)) (pb : PreparedBatch) (b : KvMutationBatch).

Lemma parent_faithful (md : option ChainMetadata) expected (stored : option Uuid) :
  faithful (view := view) (fun s => parent_metadata_for_append s md expected stored)
    (fun m => parent_metadata_for_append m md expected stored).
Proof. unfold parent_metadata_for_append, metadata_from_stored_parent. faithful_tac. Qed.
#[local] Hint Resolve parent_faithful : faithful.

Lemma ensure_faithful pb (ck : string) entry expected :
  faithful (view := view) (fun s => ensure_chain_state s pb ck entry expected)
    (fun m => ensure_chain_state m pb ck entry expected).
Proof. unfold ensure_chain_state. faithful_tac. Qed.
#[local] Hint Resolve ensure_faithful : faithful.

Lemma accumulate_faithful pb (ck : string) entry :
  faithful (view := view) (fun s => accumulate_entry s pb ck entry) (fun m => accumulate_entry m pb ck entry).
Proof. unfold accumulate_entry, allocate_session_sequence. faithful_tac. Qed.
#[local] Hint Resolve accumulate_faithful : faithful.

Lemma prepare_batch_faithful l : faithful (view := view) (fun s => prepare_batch s l) (fun m => prepare_batch m l).
Proof.
  assert (forall pb seen, faithful (view := view) (fun s => prepare_entries s pb seen l) (fun m => prepare_entries m pb seen l))
    as Hp by (induction l as [|[entry expected] l' IH]; intros; cbn [prepare_entries]; faithful_tac).
  unfold prepare_batch. faithful_tac.
Qed.

(** The one write of a batch, prepared in the settled state [t]. *)
Definition BatchApplied t l (m' : KvMap) : Prop :=
  kv_check_registry_state t l.*1 = Ok tt /\
  exists pb b, prepare_batch t l = Ok (Some pb) /\ into_mutation_batch pb = Ok b /\
               m' = map_mutations t (batch_mutations b).

Lemma append_atomic_triple t l :
  triple (view := view) (fun m => Consistent m /\ settle m = t) (append_atomic l)
    (fun rs m' => m' !! intent_key = None /\
       (rs = replicate (length l) true /\ BatchApplied t l m' \/
        rs = replicate (length l) false /\ m' = t /\ kv_check_registry_state t l.*1 = Ok tt /\ prepare_batch t l = Ok None))
    (fun m' => Consistent m' /\ (settle m' = t \/ BatchApplied t l (settle m'))).
Proof.
  unfold append_atomic. eapply triple_bind.
  { eapply triple_conseq; [apply (recover_triple t)|done|done|]. intros m [Hc <-]. auto. }
  intros []. apply triple_pre. intros ? [-> Ht].
  assert (Consistent t /\ (settle t = t \/ BatchApplied t l (settle t))) as Htt.
  { split; [by left|]. left. by apply settle_none. }
  eapply (triple_bind _ _ _ (fun _ m => m = t /\ kv_check_registry_state t l.*1 = Ok tt)).
  { eapply triple_read; [apply check_registry_state_faithful|by intros ? [] <-|]. by intros ? <-. }
  intros []. apply triple_pre. intros ? [-> Hreg].
  eapply (triple_bind _ _ _ (fun prepared m => m = t /\ prepare_batch t l = Ok prepared)).
  { eapply triple_read; [apply prepare_batch_faithful|by intros ? a <- Ha|]. by intros ? <-. }
  intros [pb|]; apply triple_pre; intros ? [-> Hp]; [|apply triple_lift; intros ? <-; auto 6].
  destruct (into_mutation_batch pb) as [b|err] eqn:Hb; cycle 1.
  { eapply (triple_bind _ _ _ (fun _ _ => False)); [apply triple_lift; by intros ? <-|intros ?; by apply triple_pre]. }
  eapply (triple_bind _ _ _ (fun b' m => b' = b /\ m = t)); [apply triple_lift; by intros ? <-|].
  intros b'. apply triple_pre. intros ? [-> ->].
  assert (BatchApplied t l (map_mutations t (batch_mutations b))) as Happ by (split; eauto).
  pose proof (batch_keeps_intent t pb b Hb) as Hi. rewrite Ht in Hi.
  pose proof (conditions_hold t pb b (prepare_batch_read t l pb Hp) Hb) as Hcond.
  eapply (triple_bind _ _ _ (fun applied m => applied = true /\ m = map_mutations t (batch_mutations b))).
  - apply triple_batch; [apply (into_mutation_batch_Ok pb b Hb)|by intros ? <-|intros ? <-; congruence|].
    intros ? <-. split; [done|]. intros _. split; [by left|]. right. by rewrite settle_none.
  - intros applied. apply triple_pre. intros ? [-> ->]. apply triple_lift. intros ? <-. auto.
Qed.

(** ** What the batch does to the log *)

(** Each entry names the head of its chain, as the entries before it leave it,
    and carries its hash. *)
Fixpoint batch_fits st l : bool :=
  match l with
  | [] => true
  | (entry, expected) :: rest =>
      bool_decide (expected = e_id <$> chain_head st (entry_key entry)) &&
      bool_decide (e_previous_hash entry = link_of (chain_of st (entry_key entry))) &&
      batch_fits (put_entry st entry) rest
  end.

Definition put_all st (entries : list AuditEntry) : AuditStore := List.fold_left put_entry entries st.

Lemma put_chain_history h st entry :
  (forall s p, chain_of st (s, p) = chain_history h s p) ->
  forall s p, chain_of (put_entry st entry) (s, p) = chain_history (h ++ [entry]) s p.
Proof. intros Hc s p. by rewrite chain_of_put, Hc, chain_history_app. Qed.

Lemma batch_fits_spec l : forall h st,
  (forall s p, chain_of st (s, p) = chain_history h s p) -> batch_fits st l = true <-> appends_to h l.
Proof.
  induction l as [|[entry expected] l IH]; intros h st Hc; [done|]. cbn [batch_fits appends_to].
  rewrite !andb_true_iff, !bool_decide_eq_true, (IH (h ++ [entry])) by (by apply put_chain_history).
  unfold chain_head, entry_key. rewrite Hc. tauto.
Qed.

Lemma put_all_history entries : forall h st,
  (forall s p, chain_of st (s, p) = chain_history h s p) ->
  forall s p, chain_of (put_all st entries) (s, p) = chain_history (h ++ entries) s p.
Proof.
  induction entries as [|entry entries IH]; intros h st Hc s p; [by rewrite app_nil_r|].
  unfold put_all. cbn [List.fold_left]. fold (put_all (put_entry st entry) entries).
  rewrite (IH (h ++ [entry])), <- app_assoc; [done|]. by apply put_chain_history.
Qed.

Lemma put_all_registry entries st : st_registry (put_all st entries) = st_registry st.
Proof. revert st. induction entries as [|entry entries IH]; intros st; [done|]. exact (IH (put_entry st entry)). Qed.

Lemma applied_stores t st l m' :
  stores 0 t st -> Forall (fun x => fresh_in st x.1) l -> l <> [] -> BatchApplied t l m' ->
  batch_fits st l = true /\ check_registry_state st l.*1 = Ok tt /\ stores 0 m' (put_all st l.*1).
Proof.
  intros Hst Hf Hne (Hreg & pb & b & Hp & Hb & ->). pose proof Hst as [Hrec (h & Hr & Hc)].
  assert (Forall (fun x => e_id x.1 ∉ e_id <$> h) l) as Hfh.
  { eapply Forall_impl; [exact Hf|]. intros x Hx. by apply (fresh_history h st). }
  destruct (prepare_batch_represented t h l pb Hr Hfh Hne Hp) as (Happ & Hent & v & Hv & Ho).
  split_and!; [by apply (batch_fits_spec l h)|by rewrite <- (check_registry_stored 0 t st)|]. split.
  - intros seq Hs. rewrite put_all_registry, <- Hrec by done.
    destruct (into_mutation_batch_Ok pb b Hb) as (_ & _ & Hbw & _).
    by rewrite (unwritten_keeps t pb _ NS_KEY_REGISTRY (record_key seq) Hbw); [|intros [?|?]|..].
  - exists (h ++ l.*1). split; [by apply (applied_represents t pb v)|by apply put_all_history].
Qed.

End Atomic.
