(* ===== verification/StorageExamples.v ===== *)
(** * The audit storage on concrete stores

    A codec for evaluation: prefix codes for the records [AuditStorage]
    stores, with their round trips, so that [StorageCodecLaws] has an
    instance.  On it the theorems about the storage are applied to runs on
    [MemoryKvStore], and runs show what an administrative call between a
    crash and its recovery does, and what mixing the two ways of appending
    does. *)

From stdpp Require Import sorting.
From S2P Require Import Prelude Kv Bytes Cbor Crypto KeyRegistry AuditEntry AuditChain AuditLog.
From S2P Require Import AuditStorage CrashLogic AuditDurability AuditHistory AuditBatch.
From Stdlib Require Import Ascii.
Local Open Scope string_scope.
Local Open Scope list_scope.

(** ** Prefix codes *)

Record Codec (A : Type) : Type := MkCodec {
  enc : A -> string -> string;
  dec : string -> option (A * string);
  enc_dec : forall a rest, dec (enc a rest) = Some (a, rest);
}.
Arguments MkCodec {A} & enc dec enc_dec.
Arguments enc {A} c a rest.
Arguments dec {A} c text.
Arguments enc_dec {A} c a rest.

Module Codecs.

Definition c_iso {A B : Type} (c : Codec A) (f : B -> A) (g : A -> option B) (Hg : forall b, g (f b) = Some b) : Codec B.
Proof.
  refine (MkCodec (fun b => enc c (f b))
    (fun s => match dec c s with Some (a, rest) => match g a with Some b => Some (b, rest) | None => None end | None => None end) _).
  intros b rest. simpl. by rewrite enc_dec, Hg.
Defined.

Definition c_unit : Codec unit := MkCodec (fun _ rest => rest) (fun s => Some (tt, s)) (fun 'tt _ => eq_refl).

Definition c_bool : Codec bool.
Proof.
  refine (MkCodec (fun b rest => String (if b then "T" else "F")%char rest)
    (fun s => match s with
              | String "T" rest => Some (true, rest)
              | String "F" rest => Some (false, rest)
              | _ => None
              end) _).
  by intros [|] rest.
Defined.

Definition c_pair {A B : Type} (c : Codec A) (d : Codec B) : Codec (A * B).
Proof.
  refine (MkCodec (fun x rest => enc c x.1 (enc d x.2 rest))
    (fun s => match dec c s with
              | Some (a, s) => match dec d s with Some (b, s) => Some ((a, b), s) | None => None end
              | None => None
              end) _).
  intros [a b] rest. simpl. rewrite enc_dec. simpl. by rewrite enc_dec.
Defined.

Definition c_option {A : Type} (c : Codec A) : Codec (option A).
Proof.
  refine (MkCodec (fun o rest => match o with Some a => String "S" (enc c a rest) | None => String "N" rest end)
    (fun s => match s with
              | String "S" rest => match dec c rest with Some (a, s) => Some (Some a, s) | None => None end
              | String "N" rest => Some (None, rest)
              | _ => None
              end) _).
  intros [a|] rest; simpl; [by rewrite enc_dec|done].
Defined.

(** The bits of a number, the lowest first, up to its highest. *)
Fixpoint enc_pos (p : positive) (rest : string) : string :=
  match p with
  | xI p => String "1" (enc_pos p rest)
  | xO p => String "0" (enc_pos p rest)
  | xH => String "." rest
  end.
Fixpoint dec_pos (s : string) : option (positive * string) :=
  match s with
  | String "1" s => match dec_pos s with Some (p, s) => Some (xI p, s) | None => None end
  | String "0" s => match dec_pos s with Some (p, s) => Some (xO p, s) | None => None end
  | String "." s => Some (xH, s)
  | _ => None
  end.
Definition c_pos : Codec positive.
Proof.
  refine (MkCodec enc_pos dec_pos _).
  intros p rest. induction p as [p IH|p IH|]; simpl; [by rewrite IH..|done].
Defined.

(** Each character after a [c], and an [e] at the end. *)
Fixpoint enc_text (text : string) (rest : string) : string :=
  match text with
  | String a text => String "c" (String a (enc_text text rest))
  | EmptyString => String "e" rest
  end.
Fixpoint dec_text (s : string) : option (string * string) :=
  match s with
  | String "c" (String a s) => match dec_text s with Some (text, s) => Some (String a text, s) | None => None end
  | String "e" s => Some (EmptyString, s)
  | _ => None
  end.
Definition c_text : Codec string.
Proof.
  refine (MkCodec enc_text dec_text _).
  intros text rest. induction text as [|a text IH]; simpl; [done|by rewrite IH].
Defined.

Definition c_N : Codec N.
Proof.
  refine (c_iso (c_option c_pos) (fun n => match n with N0 => None | Npos p => Some p end)
    (fun o => Some match o with Some p => Npos p | None => N0 end) _).
  by intros [|p].
Defined.

Definition c_nat : Codec nat.
Proof.
  refine (c_iso c_N N.of_nat (fun n => Some (N.to_nat n)) _).
  intros n. simpl. by rewrite Nat2N.id.
Defined.

Definition c_Z : Codec Z.
Proof.
  refine (c_iso (c_pair c_bool c_N) (fun z => (bool_decide (0 <= z)%Z, Z.to_N (Z.abs z)))
    (fun x => Some (if x.1 then Z.of_N x.2 else - Z.of_N x.2)%Z) _).
  intros z. simpl. case_bool_decide; f_equal; lia.
Defined.

Definition c_array (n : nat) : Codec (array n).
Proof.
  refine (c_iso c_text (fun a => of_bytes (arr a)) (fun s => array_try_from n (as_bytes s)) _).
  intros a. by rewrite as_bytes_of_bytes, array_try_from_arr.
Defined.
End Codecs.

(** ** The codec of the stored records *)

Module StorageExamples.
  Import Codecs RegistryExamples EntryExamples.
  #[local] Existing Instance toy_crypto.
  #[local] Existing Instance toy_serde.
  #[local] Existing Instance hyphenated.
  #[local] Existing Instance hyphenated_laws.
  #[local] Existing Instance ideal_store.
  #[local] Existing Instance ideal_laws.

Definition c_outcome : Codec AuditOutcome.
Proof.
  refine (c_iso (c_pair c_bool (c_option c_text))
    (fun o => match o with Success d => (true, d) | Failure e => (false, Some e) end)
    (fun x => match x with (true, d) => Some (Success d) | (false, Some e) => Some (Failure e) | _ => None end) _).
  by intros [].
Defined.

Definition c_actor : Codec AuditActor.
Proof.
  refine (c_iso (c_pair c_text (c_option (c_array 32))) (fun a => (capsule_id a, wasm_sha256 a)) (fun x => Some (MkAuditActor x.1 x.2)) _).
  by intros [].
Defined.

Definition c_seal : Codec EntryV2Seal.
Proof.
  refine (c_iso (c_pair (c_array 32) (c_pair c_N (c_pair c_N (c_pair (c_option (c_array 32)) (c_pair (c_option c_actor) (c_array 32))))))
    (fun s => (s_chain_id s, (s_seq s, (s_key_epoch s, (s_principal_uid s, (s_actor s, s_salt_key s))))))
    (fun '(a, (b, (c, (d, (e, f))))) => Some (MkEntryV2Seal a b c d e f)) _).
  by intros [].
Defined.

Definition c_entry : Codec AuditEntry.
Proof.
  refine (c_iso (c_pair (c_array 16) (c_pair c_Z (c_pair (c_array 16) (c_pair (c_option c_text) (c_pair c_nat (c_pair c_unit
          (c_pair c_outcome (c_pair (c_array 32) (c_pair (c_array 32) (c_pair (c_array 64) (c_option c_seal)))))))))))
    (fun e => (e_id e, (e_timestamp e, (e_session_id e, (e_principal e, (e_action e, (e_authorization e,
               (e_outcome e, (e_previous_hash e, (e_runtime_key e, (e_signature e, e_v2 e)))))))))))
    (fun '(a, (b, (c, (d, (e, (f, (g, (h, (i, (j, k)))))))))) => Some (MkAuditEntry _ a b c d e f g h i j k)) _).
  by intros [].
Defined.

Definition c_metadata : Codec ChainMetadata.
Proof.
  refine (c_iso (c_pair c_N (c_pair c_N (c_pair c_bool (c_pair c_N (c_pair c_N (c_pair (c_option (c_array 16)) (c_pair (c_array 32)
          (c_pair c_N (c_pair c_N (c_pair (c_option (c_array 16)) (c_pair (c_option c_N) (c_pair (c_option c_N) (c_option c_N)))))))))))))
    (fun m => (cm_schema m, (cm_segment m, (cm_sealed m, (cm_count m, (cm_bytes m, (cm_head m, (cm_head_hash m,
               (cm_segment_count m, (cm_segment_bytes m, (cm_segment_first m, (cm_seal_ordinal m,
               (cm_omitted_total m, cm_omitted_generation m)))))))))))))
    (fun '(a, (b, (c, (d, (e, (f, (g, (h, (i, (j, (k, (l, m)))))))))))) => Some (MkChainMetadata a b c d e f g h i j k l m)) _).
  by intros [].
Defined.

Definition c_global : Codec GlobalMetadata.
Proof.
  refine (c_iso (c_pair c_N (c_pair c_N (c_pair c_N (c_pair c_N (c_pair c_N (c_pair c_N (c_pair c_N (c_pair c_N (c_pair c_N
          (c_pair c_bool (c_pair (c_option c_text) (c_option c_text))))))))))))
    (fun g => (gm_schema g, (gm_total_count g, (gm_total_bytes g, (gm_sealed_segments g, (gm_segments g,
               (gm_eligible_segments g, (gm_next_seal_ordinal g, (gm_cap_entries g, (gm_cap_bytes g, (gm_degraded g,
               (gm_last_error g, gm_retention_hold g))))))))))))
    (fun '(a, (b, (c, (d, (e, (f, (g, (h, (i, (j, (k, l))))))))))) => Some (MkGlobalMetadata a b c d e f g h i j k l)) _).
  by intros [].
Defined.

Definition c_intent : Codec AppendIntent.
Proof.
  refine (c_iso (c_pair c_entry (c_pair c_text (c_pair c_text (c_pair (c_option c_text) (c_pair c_text (c_pair c_text
          (c_pair (c_option c_text) (c_pair (c_option c_text) (c_pair c_metadata (c_pair (c_option c_text)
          (c_pair c_global (c_option c_text))))))))))))
    (fun i => (i_entry i, (i_head_key i, (i_session_sequence_key i, (i_expected_session_sequence i,
               (i_next_session_sequence i, (i_session_index_key i, (i_expected_head i, (i_expected_metadata i,
               (i_next_metadata i, (i_expected_global i, (i_next_global i, i_segment_key i))))))))))))
    (fun '(a, (b, (c, (d, (e, (f, (g, (h, (i, (j, (k, l))))))))))) => Some (MkAppendIntent a b c d e f g h i j k l)) _).
  by intros [].
Defined.

Definition to_vec {A : Type} (c : Codec A) (a : A) : string := enc c a "".
Definition from_slice {A : Type} (c : Codec A) (s : string) : result A string :=
  match dec c s with Some (a, EmptyString) => Ok a | _ => Err "invalid" end.

Lemma slice_roundtrip {A : Type} (c : Codec A) (a : A) : from_slice c (to_vec c a) = Ok a.
Proof. unfold from_slice, to_vec. by rewrite enc_dec. Qed.

Definition prefix_codec : StorageCodec := {|
  entry_to_vec := fun e => Ok (to_vec c_entry e);
  entry_from_slice := from_slice c_entry;
  metadata_to_vec := to_vec c_metadata;
  metadata_from_slice := from_slice c_metadata;
  global_to_vec := to_vec c_global;
  global_from_slice := from_slice c_global;
  intent_to_vec := fun i => Ok (to_vec c_intent i);
  intent_from_slice := from_slice c_intent;
  ids_from_slice := fun _ => Err "invalid";
|}.
  #[local] Existing Instance prefix_codec.

Lemma prefix_codec_laws : StorageCodecLaws.
Proof.
  split.
  - intros e v Hv. change (Ok (E := string) (to_vec c_entry e) = Ok v) in Hv. assert (v = to_vec c_entry e) as -> by congruence. exact (slice_roundtrip c_entry e).
  - exact (slice_roundtrip c_metadata).
  - exact (slice_roundtrip c_global).
  - intros i v _ Hv. change (Ok (E := string) (to_vec c_intent i) = Ok v) in Hv. assert (v = to_vec c_intent i) as -> by congruence. exact (slice_roundtrip c_intent i).
Qed.

  #[local] Existing Instance prefix_codec_laws.

Definition listed : BatchIteration := {| iter_chains := map_to_list; iter_sequences := map_to_list |}.
  #[local] Existing Instance listed.
Lemma listed_laws : BatchIterationLaws.
Proof. by split. Qed.
  #[local] Existing Instance listed_laws.

(** ** Runs *)

Definition entry_at (n : N) (previous : ContentHash) : AuditEntry :=
  MkAuditEntry _ (uuid n) example_time (uuid 5) (Some "alice") 1 tt (Success None) previous (key 9)
    (sign (key 9) []) None.

Definition first_entry : AuditEntry := entry_at 9 ContentHash_zero.
Definition second_entry : AuditEntry := entry_at 3 (content_hash first_entry).
Definition new_log : AuditStore := MkAuditStore ∅ ∅.

Definition run_append := append_if_head_durable first_entry None MemoryKvStore_new.
Definition pair_entries : list (AuditEntry * option Uuid) := [(first_entry, None); (second_entry, Some (uuid 9))].
Definition run_batch := append_batch_if_heads_durable pair_entries MemoryKvStore_new.

Lemma fresh_in_new (entry : AuditEntry) : fresh_in new_log entry.
Proof. intros s p He. by apply elem_of_nil in He. Qed.

Lemma run_eq {A B} (x : A * B) : x = (x.1, x.2).
Proof. by destruct x. Qed.

Lemma run_batch_committed : run_batch.2 = Ok [true; true].
Proof. vm_compute. reflexivity. Qed.

Lemma durable_append_refines_witness :
  run_append.2 = Ok true /\ Consistent (mem_view run_append.1) /\
  match run_append.2 with
  | Ok committed => exists st', append_if_head new_log first_entry None = (st', Ok committed) /\
                    settle (mem_view run_append.1) = mem_view run_append.1 /\ stores 1 (mem_view run_append.1) st'
  | Err _ => stores 1 (settle (mem_view run_append.1)) new_log \/
             exists st', append_if_head new_log first_entry None = (st', Ok true) /\
               stores 1 (settle (mem_view run_append.1)) st'
  end.
Proof.
  split; [vm_compute; reflexivity|].
  apply (durable_append_refines MemoryKvStore_new run_append.1 new_log first_entry None run_append.2).
  - left. reflexivity.
  - rewrite settle_none by reflexivity. exact (stores_empty 1).
  - apply fresh_in_new.
  - exact (run_eq run_append).
Defined.


(** The store the batch leaves, read back. *)
Lemma pair_stored : stores 0 (mem_view run_batch.1) (put_all new_log pair_entries.*1).
Proof.
  assert (append_atomic pair_entries MemoryKvStore_new = (run_batch.1, Ok [true; true])) as Hrun.
  { rewrite <- run_batch_committed. exact (run_eq run_batch). }
  pose proof (append_atomic_triple ∅ pair_entries MemoryKvStore_new run_batch.1 (Ok [true; true])
    (conj (or_introl eq_refl) (settle_none ∅ eq_refl)) Hrun) as [_ [[_ Happ]|[Hf _]]]; [|done].
  apply (applied_stores ∅ new_log pair_entries); [apply stores_empty| |done|done].
  repeat constructor; apply fresh_in_new.
Qed.

Lemma reads_return_log_witness :
  let st := put_all new_log pair_entries.*1 in
  length (chain_of st (uuid 5, Some "alice")) = 2 /\ is_ok (get_session_entries run_batch.1 (uuid 5)) = true /\
  (forall l, get_session_entries run_batch.1 (uuid 5) = Ok l ->
     List.filter (fun e => bool_decide (e_principal e = Some "alice")) l = chain_of st (uuid 5, Some "alice")) /\
  (forall head, get_chain_head run_batch.1 (uuid 5) (Some "alice") = Ok head ->
     head = e_id <$> chain_head st (uuid 5, Some "alice")) /\
  (forall e found, e ∈ chain_of st (uuid 5, Some "alice") -> get run_batch.1 (e_id e) = Ok found -> found = Some e).
Proof.
  split; [vm_compute; reflexivity|]. split; [vm_compute; reflexivity|].
  apply (reads_return_log run_batch.1 0 (put_all new_log pair_entries.*1) (uuid 5) (Some "alice")).
  - apply N.le_0_l.
  - exact pair_stored.
Defined.

(** ** An interrupted append

    The process died after it had installed the intent of the first entry. *)

Definition no_plan : AppendPlan :=
  MkAppendPlan ChainMetadata_default (MkGlobalState None GlobalMetadata_default) None (MkSessionSequenceWrite "" None "" "").
Definition no_preparation : Preparation := MkPreparation "" None None ChainMetadata_default.
Definition first_preparation : Preparation :=
  match (prepare_append first_entry None (∅ : KvMap)).2 with Ok (Some p) => p | _ => no_preparation end.
Definition first_plan : AppendPlan :=
  match (plan_append first_entry first_preparation (∅ : KvMap)).2 with Ok p => p | _ => no_plan end.
Definition first_intent : AppendIntent := intent_of first_entry first_preparation first_plan.
Definition interrupted : KvMap := <[intent_key := to_vec c_intent first_intent]> ∅.

Lemma interrupted_consistent : Consistent interrupted.
Proof.
  right. exists ∅, first_intent, (to_vec c_entry first_entry), (to_vec c_intent first_intent). split; [|apply in_flight_start].
  split; vm_compute; reflexivity.
Qed.

Definition resumed := append_if_head_durable second_entry (Some (uuid 9)) interrupted.

Lemma append_crash_atomic_witness :
  resumed.2 = Ok true /\ recover_append_intents resumed.1 = (settle resumed.1, Ok tt) /\
  match resumed.2 with
  | Ok true => settle resumed.1 = resumed.1 /\ Committed second_entry (Some (uuid 9)) (settle interrupted) resumed.1
  | Ok false => resumed.1 = settle interrupted /\ Refused second_entry (Some (uuid 9)) (settle interrupted)
  | Err _ => NotAppended second_entry (Some (uuid 9)) (settle interrupted) (settle resumed.1) \/
             Committed second_entry (Some (uuid 9)) (settle interrupted) (settle resumed.1)
  end.
Proof.
  split; [vm_compute; reflexivity|].
  apply (append_crash_atomic (view := id) interrupted resumed.1 second_entry (Some (uuid 9)) resumed.2).
  - exact interrupted_consistent.
  - exact (run_eq resumed).
Defined.

(** Equal up to the proofs that arrays have their sizes. *)
Ltac evaluate := vm_compute; repeat first [reflexivity | apply (inj arr); reflexivity | f_equal].

Definition recovered := recover_append_intents interrupted.

Lemma recovery_restarts_witness :
  recovered.2 = Ok tt /\ get_chain_head interrupted (uuid 5) (Some "alice") = Ok None /\
  get_chain_head (settle interrupted) (uuid 5) (Some "alice") = Ok (Some (uuid 9)) /\
  Consistent recovered.1 /\ settle recovered.1 = settle interrupted /\
  match recovered.2 with Ok _ => recovered.1 = settle interrupted | Err _ => True end.
Proof.
  split; [evaluate|]. split; [evaluate|]. split; [evaluate|].
  apply (recovery_restarts (view := id) interrupted recovered.1 recovered.2).
  - exact interrupted_consistent.
  - exact (run_eq recovered).
Defined.

(** ** What the code does not recover from *)

Definition capped := set_global_caps 500 1000000 interrupted.
Definition conflict : AuditError := StorageError "durable audit append intent conflicts with canonical state".
Definition stuck : KvMap := (recover_append_intents capped.1).1.

Lemma capped_conflict : recover_append_intents capped.1 = (stuck, Err conflict).
Proof. rewrite (run_eq (recover_append_intents capped.1)). apply (f_equal2 pair); [reflexivity|]. vm_compute. reflexivity. Qed.
Lemma stuck_conflict : recover_append_intents stuck = (stuck, Err conflict).
Proof.
  rewrite (run_eq (recover_append_intents stuck)). apply (f_equal2 pair).
  - apply (bool_decide_unpack ((recover_append_intents stuck).1 = stuck)). vm_compute. exact I.
  - vm_compute. reflexivity.
Qed.

(** Setting the retention caps after a crash and before the next append
    makes the log refuse every append.  [set_global_caps] changes the global
    record without recovering first, so the intent of the interrupted append
    conflicts with it, and each later append fails in its recovery. *)
Theorem caps_after_crash_block_appends : forall entry expected,
  capped.2 = Ok tt /\ append_if_head_durable entry expected capped.1 = (stuck, Err conflict) /\
  append_if_head_durable entry expected stuck = (stuck, Err conflict).
Proof.
  intros entry expected. split; [vm_compute; reflexivity|]. unfold append_if_head_durable, eff_bind.
  by rewrite capped_conflict, stuck_conflict.
Qed.

Definition mixed : KvMap :=
  (append_batch_if_heads_durable [(second_entry, Some (uuid 9))] (append_if_head_durable first_entry None (∅ : KvMap)).1).1.

(** An append under an intent followed by a batched one is read back in
    the wrong order.  The first numbers its index key with the next sequence
    and the second with the current one, so the two entries share a number
    and their identifiers decide: the session's entries come back with the
    second before the first, though the chain's head is the second. *)
Theorem mixed_appends_reordered :
  get_chain_head mixed (uuid 5) (Some "alice") = Ok (Some (e_id second_entry)) /\
  get_session_entries mixed (uuid 5) = Ok [second_entry; first_entry].
Proof. split; evaluate. Qed.
End StorageExamples.
