(* ===== verification/AuditPrune.v ===== *)
(** * Pruning the audit storage

    [crates/astrid-audit/src/storage/prune_chain.rs], [prune_finish.rs],
    [receipt_history.rs], [anchor_marks.rs] and [paging_session.rs], the prune accounting of [metadata.rs], and of
    [storage.rs] the prune plan and the reads pruning uses.

    A prune removes the first entries of one chain, up to the cursor its
    signed receipt names, a page of 256 index keys per call.  Its plan is a
    record of the store, so a later call resumes it; the last call brings the
    chain and global records in line and installs the receipt.

    Receipts are JSON values the code reads field by field: reading one is
    [value_from_slice] of the class [PruneCodec], the fields are taken as the
    code takes them. *)

From stdpp Require Import sorting pretty.
From S2P Require Import Prelude Kv Bytes Cbor Crypto KeyRegistry AuditEntry AuditChain AuditLog.
From S2P Require Import AuditStorage.
From Stdlib Require Import Ascii.
Local Open Scope string_scope.
Local Open Scope list_scope.

Definition NS_PRUNE_RECEIPTS : string := "audit:prune_receipts".
Definition NS_PRUNE_PLANS : string := "audit:prune_plans".
Definition NS_RECEIPT_HISTORY : string := "audit:receipt_history".
Definition NS_ANCHOR_MARKS : string := "audit:anchor_marks".

(** ** JSON receipts *)

Definition value_get (name : string) (v : Value) : option Value :=
  match v with
  | VObject members => snd <$> List.find (fun member => String.eqb member.1 name) members
  | _ => None
  end.
Definition value_as_u64 (v : Value) : option N := match v with VNumber n => as_u64 n | _ => None end.
Definition value_as_str (v : Value) : option string := match v with VString text => Some text | _ => None end.

Definition field_u64 (v : Value) (name : string) : option N := value_get name v ≫= value_as_u64.
Definition field_str (v : Value) (name : string) : option string := value_get name v ≫= value_as_str.
Definition count_field (v : Value) (name : string) : N := default 0%N (field_u64 v name).

(** ** Prune accounting ([metadata.rs]) *)

Definition OMITTED_TOTAL_UNKNOWN : N := U64_MAX.

Record PruneGeneration : Type := MkPruneGeneration { pg_generation : N; pg_omitted_count : N }.

Definition PruneGeneration_from_value (receipt : Value) : AuditResult PruneGeneration :=
  let field name := ok_or (field_u64 receipt name) (StorageError ("audit prune receipt lacks " +:+ name)) in
  let? generation := field "generation" in
  let? omitted_count := field "omitted_count" in
  Ok (MkPruneGeneration generation omitted_count).

Definition uncounted_total_before (generation : N) (installed : option PruneGeneration) : N :=
  match generation, installed with
  | 0%N, _ => 0%N
  | 1%N, Some (MkPruneGeneration 0 omitted_count) => omitted_count
  | _, _ => OMITTED_TOTAL_UNKNOWN
  end.

Definition with_omitted (md : ChainMetadata) (total generation : option N) : ChainMetadata :=
  MkChainMetadata (cm_schema md) (cm_segment md) (cm_sealed md) (cm_count md) (cm_bytes md) (cm_head md)
    (cm_head_hash md) (cm_segment_count md) (cm_segment_bytes md) (cm_segment_first md) (cm_seal_ordinal md)
    total generation.

(** [u64::checked_sub]. *)
Definition checked_sub (a b : N) : option N := if (b <=? a)%N then Some (a - b)%N else None.

Definition count_prune (md : ChainMetadata) (pruned : PruneGeneration) (installed : option PruneGeneration)
    : ChainMetadata :=
  if bool_decide (cm_omitted_generation md = Some (pg_generation pruned)) then md
  else
    let before :=
      match cm_omitted_total md with
      | Some total =>
          if bool_decide (cm_omitted_generation md = checked_sub (pg_generation pruned) 1) then total
          else OMITTED_TOTAL_UNKNOWN
      | None => uncounted_total_before (pg_generation pruned) installed
      end in
    with_omitted md (Some (sat_add U64_MAX before (pg_omitted_count pruned))) (Some (pg_generation pruned)).

Definition resolved_omitted_total (md : ChainMetadata) (latest : option PruneGeneration) (prune_finishing : bool)
    : option N :=
  let total :=
    match cm_omitted_total md, latest with
    | Some total, _ => total
    | None, _ =>
        if prune_finishing then OMITTED_TOTAL_UNKNOWN
        else match latest with
             | None => 0%N
             | Some (MkPruneGeneration 0 omitted_count) => omitted_count
             | Some _ => OMITTED_TOTAL_UNKNOWN
             end
    end in
  if (total =? OMITTED_TOTAL_UNKNOWN)%N then None else Some total.

(** ** Stored records *)

Record PrunePlan : Type := MkPrunePlan {
  pp_receipt : string;
  pp_keep_entries : N;
  pp_after : option string;
  pp_complete : bool;
  pp_segment_key : option string;
  pp_segment_accounted : bool;
}.

Record AnchorMark : Type := MkAnchorMark {
  mk_schema : N;
  mk_position : N;
  mk_head_hash : ContentHash;
  mk_head : option Uuid;
  mk_cursor : option string;
  mk_evidence : Value;
  mk_recorded_at : Timestamp;
}.

Class PruneCodec : Type := {
  value_from_slice : string -> result Value string;
  plan_to_vec : PrunePlan -> string;
  plan_from_slice : string -> result PrunePlan string;
  mark_to_vec : AnchorMark -> result string string;
  mark_from_slice : string -> result AnchorMark string;
}.
Class PruneCodecLaws `{PruneCodec} : Prop := {
  plan_roundtrip plan : plan_from_slice (plan_to_vec plan) = Ok plan;
  mark_roundtrip mark v : mark_to_vec mark = Ok v -> mark_from_slice v = Ok mark;
}.

Record ReceiptDetails : Type := MkReceiptDetails {
  rd_cutoff : option string;
  rd_omitted_count : N;
  rd_segment : option N;
  rd_seal_ordinal : option N;
  rd_key_epoch : option N;
}.

Record ReceiptAccounting : Type := MkReceiptAccounting {
  ra_omitted_bytes : N;
  ra_retained_head : option Uuid;
  ra_pruned : PruneGeneration;
}.

Record ChainPositions : Type := MkChainPositions {
  cp_count : N;
  cp_omitted_total : option N;
  cp_receipt : option string;
  cp_prune_pending : bool;
}.

Inductive MarkInstall : Type := Installed | Pruned | MarkChanged.

(** [a > b] on strings. *)
Definition str_gt (a b : string) : bool := negb (bool_decide (String.le a b)).

Section Prune.
  Context {S : Type} `{KvStore S} `{Crypto} `{AuditSerde} `{UuidText} `{!StorageCodec} `{PruneCodec}.

Abbreviation storage A := (eff S AuditError A).
Implicit Types (session_id : Uuid) (principal : option string) (plan_key : string).

(** ** Pages *)

(** [KvStore::list_keys_with_prefix_page]. *)
Definition st_list_page (s : S) (ns prefix : string) (after : option string) (limit : nat) : AuditResult (list string) :=
  let? keys := map_err kv_failed (kv_list_keys_with_prefix s ns prefix) in
  Ok (take limit (List.filter (fun key => from_option (str_gt key) true after) (merge_sort String.le keys))).

(** [AuditEntryId]'s [Display]. *)
Definition entry_id_text (id : Uuid) : string := "audit:" +:+ String.substring 0 8 (uuid_to_string id).

Definition page_entry (s : S) (key : string) : AuditResult (string * AuditEntry) :=
  let? id := index_key_id key in
  let? found := get s id in
  let? entry := ok_or found (StorageError ("audit page points to missing entry " +:+ entry_id_text id)) in
  Ok (key, entry).

Fixpoint legacy_page (s : S) (index : N) (ids : list Uuid) : AuditResult (list (string * AuditEntry)) :=
  match ids with
  | [] => Ok []
  | id :: rest =>
      let? found := get s id in
      let? page := legacy_page s (index + 1) rest in
      Ok (match found with Some entry => ("legacy:" +:+ pad20 index, entry) :: page | None => page end)
  end.

Definition load_session_entries_page (s : S) (session_id : Uuid) (after : option string) (limit : nat)
    : AuditResult (list (string * AuditEntry)) :=
  let? keys := st_list_page s NS_SESSION_ENTRIES (uuid_to_string session_id +:+ ":") after limit in
  match keys with
  | _ :: _ => try_map (page_entry s) keys
  | [] =>
      match after with
      | Some _ => Ok []
      | None =>
          let? ids := get_legacy_session_entry_ids s session_id in
          legacy_page s 0 (take limit ids)
      end
  end.

(** ** Receipts and marks *)

Definition parse_value (receipt : string) : AuditResult Value := map_err SerializationError (value_from_slice receipt).

Definition PruneGeneration_parse (receipt : string) : AuditResult PruneGeneration :=
  let? value := parse_value receipt in PruneGeneration_from_value value.

Definition ReceiptDetails_parse (receipt : string) : AuditResult ReceiptDetails :=
  let? value := parse_value receipt in
  Ok (MkReceiptDetails (field_str value "cutoff_cursor") (count_field value "omitted_count")
        (field_u64 value "segment") (field_u64 value "seal_ordinal") (field_u64 value "key_epoch")).

Definition ReceiptAccounting_parse (receipt : string) : AuditResult ReceiptAccounting :=
  let? value := parse_value receipt in
  let? retained_head :=
    match field_str value "retained_head" with
    | None => Ok None
    | Some text => let? id := ok_or (uuid_parse_str text) (StorageError "invalid UUID") in Ok (Some id)
    end in
  let? pruned := PruneGeneration_from_value value in
  Ok (MkReceiptAccounting (count_field value "omitted_bytes") retained_head pruned).

Definition parse_installed (receipt : option string) : AuditResult (option PruneGeneration) :=
  match receipt with
  | None => Ok None
  | Some bytes => let? generation := PruneGeneration_parse bytes in Ok (Some generation)
  end.

Definition prune_receipt (s : S) session_id principal : AuditResult (option string) :=
  st_get s NS_PRUNE_RECEIPTS (chain_head_key session_id principal).

Definition anchor_mark (s : S) session_id principal : AuditResult (option string * option AnchorMark) :=
  let? bytes := st_get s NS_ANCHOR_MARKS (chain_head_key session_id principal) in
  match bytes with
  | Some data => let? mark := map_err SerializationError (mark_from_slice data) in Ok (bytes, Some mark)
  | None => Ok (None, None)
  end.

Definition install_anchor_mark session_id principal (expected_mark expected_receipt : option string) (mark : AnchorMark)
    : storage MarkInstall :=
  let key := chain_head_key session_id principal in
  do? bytes := eff_lift (map_err SerializationError (mark_to_vec mark)) in
  do? plan_pending := eff_read (fun s => st_exists s NS_PRUNE_PLANS key) in
  do? receipt := eff_read (fun s => st_get s NS_PRUNE_RECEIPTS key) in
  if plan_pending || negb (bool_decide (receipt = expected_receipt)) then eff_lift (Ok Pruned)
  else
    do? installed := st_cas NS_ANCHOR_MARKS key expected_mark bytes in
    eff_lift (Ok (if installed then Installed else MarkChanged)).

Definition past_mark session_id principal (mark : AnchorMark) : AuditError :=
  UnanchoredPrune ("chain " +:+ uuid_to_string session_id +:+ " " +:+ default "(system)" principal
    +:+ " is anchored through its first " +:+ pretty (mk_position mark)
    +:+ " entries, and the prune would remove entries past them").

Definition check_plan_against_watermark (s : S) session_id principal (omitted_count : N) : AuditResult unit :=
  if (omitted_count =? 0)%N then Ok tt
  else
    let? marked := anchor_mark s session_id principal in
    match marked.2 with
    | None => Ok tt
    | Some mark =>
        let? loaded := load_chain_metadata s session_id principal in
        let? receipt := prune_receipt s session_id principal in
        let? latest := parse_installed receipt in
        let omitted_before :=
          match loaded.2 with None => Some 0%N | Some metadata => resolved_omitted_total metadata latest false end in
        match omitted_before with
        | Some before =>
            if (sat_add U64_MAX before omitted_count <=? mk_position mark)%N then Ok tt
            else Err (past_mark session_id principal mark)
        | None => Err (past_mark session_id principal mark)
        end
    end.

Definition chain_positions (s : S) session_id principal : AuditResult (option ChainPositions) :=
  let key := chain_head_key session_id principal in
  let? loaded := load_chain_metadata s session_id principal in
  let? receipt := st_get s NS_PRUNE_RECEIPTS key in
  let? plan := st_get s NS_PRUNE_PLANS key in
  match loaded.2 with
  | None => Ok None
  | Some metadata =>
      let? prune_finishing :=
        match plan with
        | None => Ok false
        | Some bytes => let? plan := map_err SerializationError (plan_from_slice bytes) in Ok (pp_complete plan)
        end in
      let? latest := parse_installed receipt in
      Ok (Some (MkChainPositions (cm_count metadata) (resolved_omitted_total metadata latest prune_finishing)
                  receipt (bool_decide (is_Some plan))))
  end.

(** ** Receipt history *)

Definition history_key (chain_key : string) (generation : N) : string := chain_key +:+ "/" +:+ pad20 generation.

Definition record_receipt_history (chain_key receipt : string) : storage unit :=
  do? generation := eff_lift (PruneGeneration_parse receipt) in
  let key := history_key chain_key (pg_generation generation) in
  do? stored := eff_read (fun s => st_get s NS_RECEIPT_HISTORY key) in
  match stored with
  | Some stored =>
      eff_lift (if bool_decide (stored = receipt) then Ok tt
                else Err (StorageError ("audit prune receipt history already holds a different receipt for generation "
                            +:+ pretty (pg_generation generation))))
  | None => st_set NS_RECEIPT_HISTORY key receipt
  end.

Definition receipt_history_page (s : S) session_id principal (from : N) (limit : nat) : AuditResult (list string) :=
  let chain_key := chain_head_key session_id principal in
  let after := history_key chain_key <$> checked_sub from 1 in
  let? keys := st_list_page s NS_RECEIPT_HISTORY (chain_key +:+ "/") after limit in
  try_map (fun key =>
    let? receipt := st_get s NS_RECEIPT_HISTORY key in
    ok_or receipt (StorageError ("audit receipt history " +:+ key +:+ " disappeared"))) keys.

(** ** Prune plans *)

Definition persist_prune_plan plan_key (plan : PrunePlan) (conflict_message : string) : storage unit :=
  do? expected := eff_read (fun s => st_get s NS_PRUNE_PLANS plan_key) in
  st_cas_or NS_PRUNE_PLANS plan_key expected (plan_to_vec plan) (StorageError conflict_message).

Definition require_paged_session_projection (s : S) session_id : AuditResult unit :=
  let? paged := st_exists s NS_SESSION_SEQUENCE (uuid_to_string session_id) in
  if paged then Ok tt else Err (StorageError "audit prune requires a paged session projection").

Definition receipt_generation (v : Value) : AuditResult N :=
  ok_or (field_u64 v "generation") (StorageError "archive receipt lacks generation").

(** [blake3::hash(bytes).to_hex()]. *)
Definition receipt_hash (receipt : string) : string := of_bytes (hex_text (arr (blake3 (as_bytes receipt)))).

Definition validate_receipt_generation (s : S) plan_key (receipt : string) : AuditResult unit :=
  let? installed := st_get s NS_PRUNE_RECEIPTS plan_key in
  match installed with
  | None => Ok tt
  | Some current =>
      let? old := parse_value current in
      let? next := parse_value receipt in
      let? old_generation := receipt_generation old in
      let? next_generation := receipt_generation next in
      if bool_decide (next_generation = sat_add U64_MAX old_generation 1) &&
         bool_decide (field_str next "prior_receipt_hash" = Some (receipt_hash current))
      then Ok tt
      else Err (StorageError "audit prune receipt generation is not linked to the current anchor")
  end.

Definition segment_matches_receipt (s : S) (details : ReceiptDetails) (candidate : string) : AuditResult bool :=
  let? bytes := st_get s NS_SEGMENT_INDEX candidate in
  match bytes with
  | None => Ok false
  | Some data =>
      let? metadata := map_err SerializationError (metadata_from_slice data) in
      Ok (cm_sealed metadata && bool_decide (Some (cm_segment metadata) = rd_segment details)
          && bool_decide (cm_seal_ordinal metadata = rd_seal_ordinal details))
  end.

(** The first candidate of a page that is the receipt's segment. *)
Fixpoint find_in_page (s : S) (details : ReceiptDetails) (chain_marker : string) (page : list string)
    : AuditResult (option string) :=
  match page with
  | [] => Ok None
  | candidate :: rest =>
      if contains_str chain_marker candidate
      then let? matches := segment_matches_receipt s details candidate in
           if matches then Ok (Some candidate) else find_in_page s details chain_marker rest
      else find_in_page s details chain_marker rest
  end.

(** The loop of [find_pruned_segment]: each page starts after the last key of
    the one before. *)
Fixpoint find_pages (fuel : nat) (s : S) (details : ReceiptDetails) (chain_marker : string) (after : option string)
    : AuditResult (option string) :=
  match fuel with
  | O => Ok None
  | Datatypes.S fuel =>
      let? page := st_list_page s NS_SEGMENT_INDEX "" after 256 in
      match last page with
      | None => Ok None
      | Some last_key =>
          let? found := find_in_page s details chain_marker page in
          match found with
          | Some key => Ok (Some key)
          | None => find_pages fuel s details chain_marker (Some last_key)
          end
      end
  end.

(** Pages enough for the keys there are, and the empty one that ends the loop. *)
Definition find_pruned_segment (s : S) session_id principal (details : ReceiptDetails) : AuditResult (option string) :=
  if (rd_omitted_count details =? 0)%N then Ok None
  else
    let? keys := map_err kv_failed (kv_list_keys_with_prefix s NS_SEGMENT_INDEX "") in
    find_pages (Datatypes.S (length keys)) s details (":" +:+ chain_head_key session_id principal +:+ ":") None.

(** A new plan is checked before it is installed; an accepted plan is resumed
    as it is. *)
Definition new_prune_plan (s : S) session_id principal plan_key (keep_entries : N) (receipt : string)
    : AuditResult PrunePlan :=
  let? _ := validate_receipt_generation s plan_key receipt in
  let? details := ReceiptDetails_parse receipt in
  let? _ := check_plan_against_watermark s session_id principal (rd_omitted_count details) in
  let? _ := kv_check_receipt_signer s (rd_key_epoch details) in
  let? segment_key := find_pruned_segment s session_id principal details in
  Ok (MkPrunePlan receipt keep_entries None false segment_key false).

Definition load_or_create_prune_plan session_id principal plan_key (keep_entries : N) (receipt : string)
    : storage PrunePlan :=
  do? stored := eff_read (fun s => st_get s NS_PRUNE_PLANS plan_key) in
  match stored with
  | Some bytes => eff_lift (map_err SerializationError (plan_from_slice bytes))
  | None =>
      do? plan := eff_read (fun s => new_prune_plan s session_id principal plan_key keep_entries receipt) in
      do? _ := st_cas_or NS_PRUNE_PLANS plan_key None (plan_to_vec plan)
                 (StorageError "audit prune plan was concurrently installed; retry") in
      eff_lift (Ok plan)
  end.

(** ** Deleting a page *)

Definition delete_pruned_entry (cursor : string) (id : Uuid) : storage unit :=
  let entry_key := uuid_to_string id in
  do? _ := st_delete NS_ENTRIES entry_key in
  do? _ := st_delete NS_COMMITTED_ENTRIES entry_key in
  do? _ := st_delete NS_SESSION_ENTRIES cursor in
  eff_lift (Ok tt).

(** The loop of [delete_prune_page]: the last cursor seen, and whether the
    cutoff was reached. *)
Fixpoint delete_entries principal (cutoff : string) (last_cursor : option string) (page : list (string * AuditEntry))
    : storage (option string * bool) :=
  match page with
  | [] => eff_lift (Ok (last_cursor, false))
  | (cursor, entry) :: rest =>
      if str_gt cursor cutoff then eff_lift (Ok (last_cursor, true))
      else if negb (bool_decide (e_principal entry = principal)) then delete_entries principal cutoff (Some cursor) rest
      else
        do? _ := delete_pruned_entry cursor (e_id entry) in
        if bool_decide (cursor = cutoff) then eff_lift (Ok (Some cursor, true))
        else delete_entries principal cutoff (Some cursor) rest
  end.

Definition plan_progress (plan : PrunePlan) (after : option string) (complete : bool) : PrunePlan :=
  MkPrunePlan (pp_receipt plan) (pp_keep_entries plan) after complete (pp_segment_key plan) (pp_segment_accounted plan).

Definition delete_prune_page session_id principal plan_key (cutoff : string) (plan : PrunePlan) : storage PrunePlan :=
  do? page := eff_read (fun s => load_session_entries_page s session_id (pp_after plan) 256) in
  do? deleted := delete_entries principal cutoff (pp_after plan) page in
  let plan := plan_progress plan deleted.1 (deleted.2 || bool_decide (page = [])) in
  do? _ := persist_prune_plan plan_key plan "audit prune plan changed during bounded deletion" in
  eff_lift (Ok plan).

(** ** Finishing ([prune_finish.rs]) *)

(** The sizes of the surviving entries, added up. *)
Definition retained_size (survivors : list AuditEntry) : AuditResult N :=
  let? sizes := try_map serialized_len survivors in Ok (List.fold_left (sat_add U64_MAX) sizes 0%N).

Definition retained_metadata (metadata : ChainMetadata) (accounting : ReceiptAccounting) (installed : option PruneGeneration)
    (survivors : list AuditEntry) (bytes : N) : ChainMetadata :=
  let planned_head_still_current := bool_decide (cm_head metadata = ra_retained_head accounting) in
  let md := count_prune metadata (ra_pruned accounting) installed in
  let count := N.min (N.of_nat (length survivors)) U64_MAX in
  MkChainMetadata (cm_schema md) (cm_segment md)
    (if planned_head_still_current then true else cm_sealed md)
    count bytes (e_id <$> last survivors) (from_option content_hash ContentHash_zero (last survivors))
    (if planned_head_still_current then count else cm_segment_count md)
    (if planned_head_still_current then bytes else cm_segment_bytes md)
    (if planned_head_still_current then e_id <$> hd_error survivors else cm_segment_first md)
    (cm_seal_ordinal md) (cm_omitted_total md) (cm_omitted_generation md).

Definition update_retained_chain session_id principal (accounting : ReceiptAccounting) : storage unit :=
  do? entries := eff_read (fun s => get_session_entries s session_id) in
  let survivors := List.filter (fun entry => bool_decide (e_principal entry = principal)) entries in
  do? bytes := eff_lift (retained_size survivors) in
  do? loaded := eff_read (fun s => load_chain_metadata s session_id principal) in
  match loaded with
  | (metadata_bytes, Some metadata) =>
      do? installed :=
        match cm_omitted_total metadata with
        | None => eff_read (fun s => let? receipt := prune_receipt s session_id principal in parse_installed receipt)
        | Some _ => eff_lift (Ok None)
        end in
      st_cas_or NS_CHAIN_METADATA (chain_head_key session_id principal) metadata_bytes
        (metadata_to_vec (retained_metadata metadata accounting installed survivors bytes))
        (StorageError "audit chain metadata changed while pruning")
  | (_, None) => eff_lift (Ok tt)
  end.

Definition pruned_global (global : GlobalMetadata) (plan : PrunePlan) (accounting : ReceiptAccounting) : GlobalMetadata :=
  let total_count := sat_sub (gm_total_count global) (pg_omitted_count (ra_pruned accounting)) in
  let total_bytes := sat_sub (gm_total_bytes global) (ra_omitted_bytes accounting) in
  let count_segment := bool_decide (is_Some (pp_segment_key plan)) && negb (pp_segment_accounted plan) in
  let less n := if count_segment then sat_sub n 1 else n in
  let degraded := (gm_cap_entries global <? total_count)%N || (gm_cap_bytes global <? total_bytes)%N in
  MkGlobalMetadata (gm_schema global) total_count total_bytes (less (gm_sealed_segments global))
    (less (gm_segments global)) (less (gm_eligible_segments global)) (gm_next_seal_ordinal global)
    (gm_cap_entries global) (gm_cap_bytes global) degraded
    (if degraded then gm_last_error global else None) None.

Definition plan_accounted (plan : PrunePlan) : PrunePlan :=
  MkPrunePlan (pp_receipt plan) (pp_keep_entries plan) (pp_after plan) (pp_complete plan) (pp_segment_key plan) true.

Record GlobalAccountingWrite : Type := MkGlobalAccountingWrite {
  gw_expected_global : option string;
  gw_global : GlobalMetadata;
  gw_expected_plan : option string;
  gw_next_plan : string;
}.

Definition prepare_global_accounting (s : S) plan_key (plan : PrunePlan) (accounting : ReceiptAccounting)
    : AuditResult GlobalAccountingWrite :=
  let? loaded := load_global_metadata s in
  let? expected_plan := st_get s NS_PRUNE_PLANS plan_key in
  Ok (MkGlobalAccountingWrite loaded.1 (pruned_global loaded.2 plan accounting) expected_plan
        (plan_to_vec (plan_accounted plan))).

Definition persist_global_accounting_atomic plan_key (write : GlobalAccountingWrite) : storage unit :=
  do? plan_entry := eff_lift (kv_key NS_PRUNE_PLANS plan_key) in
  do? global_entry := eff_lift (kv_key NS_GLOBAL_METADATA GLOBAL_KEY) in
  do? batch := eff_lift (map_err kv_failed (KvMutationBatch_new
    [ValueEquals plan_entry (gw_expected_plan write); ValueEquals global_entry (gw_expected_global write)]
    [MutSet plan_entry (gw_next_plan write); MutSet global_entry (global_to_vec (gw_global write))])) in
  do? applied := st_apply_batch batch in
  eff_lift (if applied then Ok tt else Err (StorageError "audit prune plan or global metadata changed")).

Definition persist_global_accounting_cas plan_key (write : GlobalAccountingWrite) : storage unit :=
  do? _ := st_cas_or NS_GLOBAL_METADATA GLOBAL_KEY (gw_expected_global write) (global_to_vec (gw_global write))
             (StorageError "audit global metadata changed while pruning") in
  st_cas_or NS_PRUNE_PLANS plan_key (gw_expected_plan write) (gw_next_plan write)
    (StorageError "audit prune plan changed while accounting").

Definition account_pruned_entries plan_key (plan : PrunePlan) (accounting : ReceiptAccounting) : storage unit :=
  do? write := eff_read (fun s => prepare_global_accounting s plan_key plan accounting) in
  fun s => if supports_atomic_batch s then persist_global_accounting_atomic plan_key write s
           else persist_global_accounting_cas plan_key write s.

Definition remove_pruned_segment (plan : PrunePlan) : storage unit :=
  match pp_segment_key plan with
  | None => eff_lift (Ok tt)
  | Some segment_key => do? _ := st_delete NS_SEGMENT_INDEX segment_key in eff_lift (Ok tt)
  end.

Definition install_prune_receipt session_id principal plan_key (plan : PrunePlan) : storage unit :=
  let receipt_key := chain_head_key session_id principal in
  do? current := eff_read (fun s => st_get s NS_PRUNE_RECEIPTS receipt_key) in
  do? _ := match current with
           | Some current => record_receipt_history receipt_key current
           | None => eff_lift (Ok tt)
           end in
  do? _ := record_receipt_history receipt_key (pp_receipt plan) in
  do? _ := if bool_decide (current = Some (pp_receipt plan)) then eff_lift (Ok tt)
           else st_cas_or NS_PRUNE_RECEIPTS receipt_key current (pp_receipt plan)
                  (StorageError "audit prune receipt pointer changed during finalization") in
  do? _ := st_delete NS_PRUNE_PLANS plan_key in
  eff_lift (Ok tt).

Definition finish_prune_plan_durable session_id principal plan_key (plan : PrunePlan) : storage unit :=
  do? accounting := eff_lift (ReceiptAccounting_parse (pp_receipt plan)) in
  do? _ := update_retained_chain session_id principal accounting in
  do? _ := account_pruned_entries plan_key plan accounting in
  do? _ := remove_pruned_segment plan in
  install_prune_receipt session_id principal plan_key plan.

(** One call: a page of the plan, and its end when the page was the last. *)
Definition prune_chain_durable session_id principal (keep_entries : N) (receipt : string) : storage unit :=
  do? _ := eff_read (fun s => require_paged_session_projection s session_id) in
  let plan_key := chain_head_key session_id principal in
  do? plan := load_or_create_prune_plan session_id principal plan_key keep_entries receipt in
  if pp_complete plan then finish_prune_plan_durable session_id principal plan_key plan
  else
    do? details := eff_lift (ReceiptDetails_parse (pp_receipt plan)) in
    do? plan :=
      match rd_cutoff details with
      | Some cutoff => delete_prune_page session_id principal plan_key cutoff plan
      | None =>
          let plan := plan_progress plan (pp_after plan) true in
          do? _ := persist_prune_plan plan_key plan "audit prune plan changed during finalization" in
          eff_lift (Ok plan)
      end in
    if pp_complete plan then finish_prune_plan_durable session_id principal plan_key plan else eff_lift (Ok tt).
End Prune.
