(* ===== verification/AuditPruning.v ===== *)
(** * What pruning does

    Theorems about [AuditPrune]: the omitted total counts every generation
    once however finalization is resumed, the paged search for the pruned
    segment is the search over all keys, and a prune changes nothing but the
    chain's entries up to its cutoff and the records of the prune itself,
    whichever write fails. *)

From stdpp Require Import sorting pretty.
From S2P Require Import Prelude Kv Bytes Cbor Crypto KeyRegistry AuditEntry AuditChain AuditLog.
From S2P Require Import AuditStorage CrashLogic AuditDurability AuditHistory AuditBatch AuditPrune.
From Stdlib Require Import Ascii.
Local Open Scope string_scope.
Local Open Scope list_scope.

#[local] Existing Instance ideal_store.

(** ** Counting prunes *)

Section Counting.
  Implicit Types (md : ChainMetadata) (counts : list N) (done : list PruneGeneration).

Definition generations (from : N) counts : list PruneGeneration :=
  imap (fun i c => MkPruneGeneration (from + N.of_nat i) c) counts.

(** A run of finalizations: each generation once or more in a row.  The
    receipt stored when a generation is first counted is the one before it. *)
Inductive finalizations (stored : option PruneGeneration)
  : list PruneGeneration -> list (PruneGeneration * option PruneGeneration) -> Prop :=
| fin_nil : finalizations stored [] []
| fin_next done g runs :
    finalizations stored done runs ->
    finalizations stored (done ++ [g])
      (runs ++ [(g, match last done with Some previous => Some previous | None => stored end)])
| fin_again done g runs installed :
    finalizations stored (done ++ [g]) runs ->
    finalizations stored (done ++ [g]) (runs ++ [(g, installed)]).

Definition count_runs md (runs : list (PruneGeneration * option PruneGeneration)) : ChainMetadata :=
  List.fold_left (fun md run => count_prune md run.1 run.2) runs md.

Definition sum_counts counts : N := List.fold_right N.add 0%N counts.

Lemma generations_app from counts c :
  generations from (counts ++ [c]) = generations from counts ++ [MkPruneGeneration (from + N.of_nat (length counts)) c].
Proof. unfold generations. rewrite imap_app. simpl. by rewrite Nat.add_0_r. Qed.

Lemma generations_snoc from counts done g :
  generations from counts = done ++ [g] ->
  exists before, counts = before ++ [pg_omitted_count g] /\ done = generations from before /\
    pg_generation g = (from + N.of_nat (length before))%N.
Proof.
  destruct (decide (counts = [])) as [->|Hne]; [by destruct done|].
  destruct (exists_last Hne) as (before & c & ->). rewrite generations_app. intros [<- <-]%app_inj_tail. eauto.
Qed.

Lemma last_generations from counts c : last (generations from (counts ++ [c])) = Some (MkPruneGeneration (from + N.of_nat (length counts)) c).
Proof. by rewrite generations_app, last_snoc. Qed.

Lemma sum_counts_app counts c : sum_counts (counts ++ [c]) = (sum_counts counts + c)%N.
Proof. unfold sum_counts. induction counts as [|x counts IH]; simpl; [lia|]. rewrite IH. lia. Qed.

Lemma count_runs_total from stored md counts done runs :
  cm_omitted_total md = None -> cm_omitted_generation md = None ->
  finalizations stored done runs -> done = generations from counts ->
  match last done with
  | None => count_runs md runs = md
  | Some g => count_runs md runs =
      with_omitted md (Some (N.min (uncounted_total_before from stored + sum_counts counts) U64_MAX)) (Some (pg_generation g))
  end.
Proof.
  intros Ht Hg Hf. revert counts. induction Hf as [|done g runs Hf IH|done g runs installed Hf IH]; intros counts Hd; [done|..];
    unfold count_runs; rewrite fold_left_app; fold (count_runs md runs); cbn [List.fold_left fst snd]; rewrite last_snoc;
    symmetry in Hd; pose proof Hd as (before & -> & Hdone & Hgen)%generations_snoc.
  - specialize (IH before Hdone). destruct (decide (before = [])) as [->|Hne].
    + subst done. simpl in IH |- *. rewrite IH. unfold count_prune. rewrite Hg, Ht, bool_decide_eq_false_2 by done.
      simpl in Hgen. rewrite N.add_0_r in Hgen. rewrite Hgen. f_equal. f_equal. simpl. unfold sat_add. f_equal. lia.
    + destruct (exists_last Hne) as (earlier & c & ->). subst done. rewrite last_generations in IH |- *. rewrite IH.
      cbn [pg_generation] in *. rewrite length_app in Hgen. simpl in Hgen. unfold count_prune.
      cbn [with_omitted cm_omitted_generation cm_omitted_total]. rewrite bool_decide_eq_false_2 by (rewrite Hgen; intros [= Heq]; lia).
      rewrite bool_decide_eq_true_2.
      2:{ unfold checked_sub. rewrite (proj2 (N.leb_le _ _)) by (rewrite Hgen; lia). f_equal. rewrite Hgen. lia. }
      rewrite (sum_counts_app (earlier ++ [c])). unfold with_omitted. cbn. f_equal. f_equal. unfold sat_add. lia.
  - specialize (IH _ (eq_sym Hd)). rewrite last_snoc in IH. rewrite IH. unfold count_prune.
    by rewrite bool_decide_eq_true_2.
Qed.

(** C30: the omitted total of a chain counts every prune generation exactly
    once, however often finalizations are interrupted and resumed, starting
    from what the receipt stored before the counter existed says.  It is
    reported while it is below the largest integer and never lower than the
    truth: a total that cannot be known, or does not fit, is reported as
    unknown from then on.  Nothing else of the record changes. *)
Theorem omitted_total_exact from stored md counts runs latest finishing :
  cm_omitted_total md = None -> cm_omitted_generation md = None -> counts <> [] ->
  finalizations stored (generations from counts) runs ->
  let total := (uncounted_total_before from stored + sum_counts counts)%N in
  count_runs md runs =
    with_omitted md (Some (N.min total U64_MAX)) (Some (from + N.of_nat (length counts) - 1)%N) /\
  resolved_omitted_total (count_runs md runs) latest finishing = if (total <? U64_MAX)%N then Some total else None.
Proof.
  intros Ht Hg Hne Hf total. destruct (exists_last Hne) as (before & c & ->).
  pose proof (count_runs_total from stored md _ _ _ Ht Hg Hf eq_refl) as Hc. rewrite last_generations in Hc. cbn [pg_generation] in Hc.
  fold total in Hc. rewrite Hc. split.
  - f_equal. f_equal. rewrite length_app. simpl. lia.
  - unfold resolved_omitted_total, OMITTED_TOTAL_UNKNOWN. cbn [with_omitted cm_omitted_total].
    destruct (N.ltb_spec total U64_MAX) as [Hl|Hl].
    + rewrite N.min_l by lia. rewrite (proj2 (N.eqb_neq _ _)) by lia. done.
    + rewrite N.min_r by lia. by rewrite N.eqb_refl.
Qed.

Lemma omitted_total_exact_witness :
  let runs := [(MkPruneGeneration 0 3, None); (MkPruneGeneration 0 3, Some (MkPruneGeneration 0 3));
               (MkPruneGeneration 1 5, Some (MkPruneGeneration 0 3))] in
  count_runs ChainMetadata_default runs = with_omitted ChainMetadata_default (Some (N.min 8 U64_MAX)) (Some (0 + 2 - 1)%N) /\
  resolved_omitted_total (count_runs ChainMetadata_default runs) None true = if (8 <? U64_MAX)%N then Some 8%N else None.
Proof.
  intros runs. apply (omitted_total_exact 0 None ChainMetadata_default [3; 5]%N runs None true); [reflexivity|reflexivity|discriminate|].
  exact (fin_next None [MkPruneGeneration 0 3] (MkPruneGeneration 1 5)
           [(MkPruneGeneration 0 3, None); (MkPruneGeneration 0 3, Some (MkPruneGeneration 0 3))]
           (fin_again None [] (MkPruneGeneration 0 3) [(MkPruneGeneration 0 3, None)] (Some (MkPruneGeneration 0 3))
              (fin_next None [] (MkPruneGeneration 0 3) [] (fin_nil None)))).
Defined.
End Counting.

(** ** Pages of sorted keys *)

Lemma str_gt_le x y : str_gt x y = false <-> String.le x y.
Proof. unfold str_gt. rewrite negb_false_iff. apply bool_decide_eq_true. Qed.

Lemma str_gt_trans x y z : String.le y x -> str_gt y z = true -> str_gt x z = true.
Proof.
  intros Hxy Hyz. destruct (str_gt x z) eqn:Hxz; [done|]. apply str_gt_le in Hxz.
  assert (str_gt y z = false); [|congruence]. apply str_gt_le. by etrans.
Qed.

Definition after_key (after : option string) (key : string) : bool := from_option (str_gt key) true after.

(** Pages of a list sorted by keys without duplicates: what is left after a
    page is what comes after the key of its last element. *)
Section Pages.
  Context {A : Type} (f : A -> string).
Let le (x y : A) : Prop := String.le (f x) (f y).

Lemma sorted_suffix (after : option string) (l : list A) :
  StronglySorted le l -> exists before, l = before ++ List.filter (fun x => after_key after (f x)) l.
Proof.
  intros Hs. induction Hs as [|k l Hs [before IH] Hk]; [by exists []|]. cbn [List.filter].
  destruct (after_key after (f k)) eqn:Ha.
  - exists []. simpl. f_equal. clear IH Hs. induction Hk as [|x l Hx Hk IH]; [done|]. cbn [List.filter].
    replace (after_key after (f x)) with true; [by rewrite <- IH|]. destruct after as [a|]; [|done].
    symmetry. by apply (str_gt_trans (f x) (f k)).
  - exists (k :: before). simpl. by rewrite <- IH.
Qed.

Lemma sorted_after (before rest : list A) x :
  StronglySorted le (before ++ x :: rest) -> NoDup (f <$> before ++ x :: rest) ->
  List.filter (fun y => after_key (Some (f x)) (f y)) (before ++ x :: rest) = rest.
Proof.
  intros Hs Hnd. rewrite List.filter_app. rewrite fmap_app in Hnd. apply NoDup_app in Hnd as (_ & _ & Hnd).
  apply NoDup_cons in Hnd as [Hx _].
  assert (List.filter (fun y => after_key (Some (f x)) (f y)) before = []) as ->.
  { induction before as [|k before IH]; [done|]. apply StronglySorted_inv in Hs as [Hs Hk]. cbn [List.filter].
    rewrite Forall_forall in Hk. cbn [after_key from_option]. rewrite (proj2 (str_gt_le (f k) (f x))); [by apply IH|].
    apply Hk. apply elem_of_app. right. apply list_elem_of_here. }
  apply StronglySorted_app in Hs as (_ & _ & Hs). apply StronglySorted_inv in Hs as [_ Hk]. cbn [List.filter app after_key from_option].
  rewrite (proj2 (str_gt_le (f x) (f x))) by done. clear before.
  induction Hk as [|y rest Hy Hk IH]; [done|]. cbn [List.filter fmap list_fmap] in *. apply not_elem_of_cons in Hx as [Hne Hx].
  replace (str_gt (f y) (f x)) with true; [f_equal; by apply IH|]. symmetry. destruct (str_gt (f y) (f x)) eqn:Hg; [done|]. apply str_gt_le in Hg.
  exfalso. apply Hne. by apply (anti_symm String.le).
Qed.

Lemma page_rest (l : list A) (after : option string) (n : nat) x :
  StronglySorted le l -> NoDup (f <$> l) ->
  last (take n (List.filter (fun y => after_key after (f y)) l)) = Some x ->
  List.filter (fun y => after_key (Some (f x)) (f y)) l = drop n (List.filter (fun y => after_key after (f y)) l).
Proof.
  intros Hs Hnd Hl. destruct (sorted_suffix after l Hs) as [before Hk].
  set (rest := List.filter _ l) in *. apply last_Some in Hl as [page Hp].
  assert (l = (before ++ page) ++ x :: drop n rest) as Heq.
  { rewrite Hk. rewrite <- (take_drop n rest) at 1. rewrite Hp. by rewrite <- !app_assoc. }
  rewrite Heq. apply sorted_after; by rewrite <- Heq.
Qed.
End Pages.

(** The keys of a namespace a page is taken from. *)
Definition sorted_keys (m : KvMap) (ns prefix : string) : list string :=
  merge_sort String.le (List.filter (starts_with prefix) (map_keys m ns)).

Lemma sorted_keys_sorted m ns prefix : StronglySorted String.le (sorted_keys m ns prefix).
Proof. apply Sorted_StronglySorted; [apply _|]. apply (Sorted_merge_sort _). Qed.

Lemma sorted_keys_NoDup m ns prefix : NoDup (sorted_keys m ns prefix).
Proof.
  unfold sorted_keys. rewrite merge_sort_Permutation. apply NoDup_ListNoDup, List.NoDup_filter, NoDup_ListNoDup, map_keys_NoDup.
Qed.

Lemma elem_of_sorted_keys m ns prefix k :
  k ∈ sorted_keys m ns prefix <-> is_Some (m !! (ns, k)) /\ starts_with prefix k = true.
Proof.
  unfold sorted_keys. rewrite merge_sort_Permutation, list_elem_of_In, List.filter_In, <- list_elem_of_In, map_keys_elem. done.
Qed.

Section Search.
  Context `{Crypto} `{AuditSerde} `{UuidText} `{!StorageCodec} `{PruneCodec}.

Lemma st_list_page_ideal (m : KvMap) ns prefix after n :
  st_list_page m ns prefix after n = Ok (take n (List.filter (after_key after) (sorted_keys m ns prefix))).
Proof. done. Qed.

Lemma find_in_page_app (m : KvMap) details marker page rest :
  find_in_page m details marker (page ++ rest) =
  let? found := find_in_page m details marker page in
  match found with Some key => Ok (Some key) | None => find_in_page m details marker rest end.
Proof.
  induction page as [|k page IH]; [done|]. cbn [app find_in_page]. destruct (contains_str marker k); [|done].
  destruct (segment_matches_receipt m details k) as [[|]|]; [done|done|done].
Qed.

Lemma find_pages_all (m : KvMap) details marker : forall fuel after,
  let rest := List.filter (after_key after) (sorted_keys m NS_SEGMENT_INDEX "") in
  length rest < fuel ->
  find_pages fuel m details marker after = find_in_page m details marker rest.
Proof.
  induction fuel as [|fuel IH]; intros after rest Hl; [lia|]. cbn [find_pages]. rewrite st_list_page_ideal. cbn [rbind]. fold rest.
  destruct (last (take 256 rest)) as [x|] eqn:Hx.
  - rewrite <- (take_drop 256 rest) at 2. rewrite find_in_page_app. destruct (find_in_page m details marker (take 256 rest)) as [[k|]|]; [done| |done].
    cbn [rbind]. assert (List.filter (after_key (Some x)) (sorted_keys m NS_SEGMENT_INDEX "") = drop 256 rest) as Hr.
    { apply (page_rest id); [apply sorted_keys_sorted|rewrite list_fmap_id; apply sorted_keys_NoDup|done]. }
    rewrite <- Hr. apply IH. rewrite Hr, length_drop. destruct rest; [done|]. cbn [length] in *. lia.
  - apply last_None in Hx. destruct rest; [done|]. done.
Qed.

(** The search for the segment a prune covers, a page of 256 keys at a
    time, ends and finds what one search over all keys in seal order finds:
    the first segment of the chain that is sealed and is the one the receipt
    names, if there is one. *)
Theorem find_pruned_segment_exact (m : KvMap) session_id principal details :
  find_pruned_segment m session_id principal details =
  if (rd_omitted_count details =? 0)%N then Ok None
  else find_in_page m details (":" +:+ chain_head_key session_id principal +:+ ":") (sorted_keys m NS_SEGMENT_INDEX "").
Proof.
  unfold find_pruned_segment. destruct (_ =? 0)%N; [done|]. cbn [kv_list_keys_with_prefix ideal_store map_err rbind].
  rewrite find_pages_all.
  - f_equal. generalize (sorted_keys m NS_SEGMENT_INDEX ""). intros l. induction l as [|k l IH]; [done|]. cbn [List.filter]. by rewrite IH.
  - eapply Nat.lt_le_trans; [apply Nat.lt_succ_diag_r|]. apply le_n_S.
    assert (forall l, length (List.filter (after_key None) l) <= length l) as Hf
      by (induction l as [|k l IH]; simpl; lia).
    etrans; [apply Hf|]. unfold sorted_keys. by rewrite merge_sort_Permutation.
Qed.
End Search.

(** ** What a prune may change *)

Section Frame.
  Context {S : Type} `{KvStoreLaws S view} `{Crypto} `{AuditSerde} `{UuidText} `{!StorageCodec} `{PruneCodec}.
  Implicit Types (m : KvMap) (session_id : Uuid) (principal : option string) (plan : PrunePlan).

Lemma st_list_page_faithful ns prefix after n : faithful (view := view)
  (fun s => st_list_page s ns prefix after n) (fun m => st_list_page m ns prefix after n).
Proof.
  intros s page (keys & [Hnd Hk]%map_err_Ok%law_list & [= <-])%rbind_Ok. rewrite st_list_page_ideal. do 3 f_equal.
  apply (Sorted_unique String.le); [apply (Sorted_merge_sort _)..|]. unfold sorted_keys.
  rewrite !merge_sort_Permutation. apply NoDup_Permutation; [|done|].
  - apply NoDup_ListNoDup, List.NoDup_filter, NoDup_ListNoDup, map_keys_NoDup.
  - intros k. by rewrite list_elem_of_In, List.filter_In, <- list_elem_of_In, map_keys_elem, Hk.
Qed.
#[local] Hint Resolve st_list_page_faithful : faithful.

Lemma try_map_faithful {A B} (f : S -> A -> AuditResult B) (g : KvMap -> A -> AuditResult B) l :
  (forall x, faithful (view := view) (fun s => f s x) (fun m => g m x)) ->
  faithful (view := view) (fun s => try_map (f s) l) (fun m => try_map (g m) l).
Proof. intros Hf. induction l as [|x l IH]; cbn [try_map]; faithful_tac; done. Qed.

Lemma legacy_page_faithful ids : forall index, faithful (view := view)
  (fun s => legacy_page s index ids) (fun m => legacy_page m index ids).
Proof. induction ids as [|id ids IH]; intros index; cbn [legacy_page]; faithful_tac. Qed.
#[local] Hint Resolve legacy_page_faithful : faithful.

Lemma load_page_faithful session_id after n : faithful (view := view)
  (fun s => load_session_entries_page s session_id after n) (fun m => load_session_entries_page m session_id after n).
Proof.
  unfold load_session_entries_page, get_legacy_session_entry_ids.
  apply faithful_bind; [faithful_tac|]. intros [|k keys]; [faithful_tac|].
  apply try_map_faithful. intros x. unfold page_entry. faithful_tac.
Qed.

Lemma find_in_page_faithful details marker page : faithful (view := view)
  (fun s => find_in_page s details marker page) (fun m => find_in_page m details marker page).
Proof. induction page as [|k page IH]; cbn [find_in_page]; unfold segment_matches_receipt; faithful_tac. Qed.
#[local] Hint Resolve find_in_page_faithful : faithful.

Lemma find_pages_faithful details marker fuel : forall after, faithful (view := view)
  (fun s => find_pages fuel s details marker after) (fun m => find_pages fuel m details marker after).
Proof. induction fuel as [|fuel IH]; intros after; cbn [find_pages]; faithful_tac. Qed.
#[local] Hint Resolve find_pages_faithful : faithful.

Lemma find_pruned_segment_faithful session_id principal details : faithful (view := view)
  (fun s => find_pruned_segment s session_id principal details) (fun m => find_pruned_segment m session_id principal details).
Proof.
  intros s key. unfold find_pruned_segment. destruct (_ =? 0)%N; [done|].
  intros (keys & [Hnd Hk]%map_err_Ok%law_list & Hf%(find_pages_faithful _ _ _ _ s))%rbind_Ok.
  cbn [kv_list_keys_with_prefix ideal_store map_err rbind].
  replace (length _) with (length keys); [done|]. apply Permutation_length, NoDup_Permutation; [done| |].
  - apply NoDup_ListNoDup, List.NoDup_filter, NoDup_ListNoDup, map_keys_NoDup.
  - intros k. by rewrite (list_elem_of_In (List.filter _ _)), List.filter_In, <- list_elem_of_In, map_keys_elem, Hk.
Qed.
#[local] Hint Resolve find_pruned_segment_faithful : faithful.

Lemma new_prune_plan_faithful session_id principal key keep receipt : faithful (view := view)
  (fun s => new_prune_plan s session_id principal key keep receipt)
  (fun m => new_prune_plan m session_id principal key keep receipt).
Proof.
  unfold new_prune_plan, validate_receipt_generation, check_plan_against_watermark, anchor_mark, prune_receipt,
    kv_check_receipt_signer, kv_check_v1_open, kv_check_epoch_current, kv_registry_record_exists. faithful_tac.
Qed.

(** The records of one chain's prunes. *)
Record prune_records (T : string * string -> Prop) (key : string) : Prop := {
  rec_plan : T (NS_PRUNE_PLANS, key);
  rec_receipt : T (NS_PRUNE_RECEIPTS, key);
  rec_metadata : T (NS_CHAIN_METADATA, key);
  rec_global : T (NS_GLOBAL_METADATA, GLOBAL_KEY);
  rec_history g : T (NS_RECEIPT_HISTORY, history_key key g);
}.

(** What finishing and removing entries change, in any set of keys that has
    those records. *)
Section Records.
  Context (m : KvMap) (session_id : Uuid) (principal : option string) (T : string * string -> Prop).
Let key := chain_head_key session_id principal.
  Context (HT : prune_records T key).

Lemma st_set_keeps ns k v : T (ns, k) -> keeps (view := view) T m (st_set ns k v).
Proof. apply keeps_set. Qed.
Lemma st_cas_keeps ns k e v : T (ns, k) -> keeps (view := view) T m (st_cas ns k e v).
Proof. apply keeps_cas. Qed.
Lemma st_delete_keeps ns k : T (ns, k) -> keeps (view := view) T m (st_delete ns k).
Proof. apply keeps_delete. Qed.
#[local] Hint Resolve st_set_keeps st_cas_keeps st_delete_keeps : keeps.
#[local] Hint Extern 1 (T _) => first [apply (rec_plan _ _ HT) | apply (rec_receipt _ _ HT) | apply (rec_metadata _ _ HT)
  | apply (rec_global _ _ HT) | apply (rec_history _ _ HT)] : keeps.

Lemma st_cas_or_keeps ns k e v lost : T (ns, k) -> keeps (view := view) T m (st_cas_or ns k e v lost).
Proof. intros Hk. unfold st_cas_or. keeps_tac. Qed.
#[local] Hint Resolve st_cas_or_keeps : keeps.

Lemma record_history_keeps text : keeps (view := view) T m (record_receipt_history key text).
Proof. unfold record_receipt_history. keeps_tac. Qed.
#[local] Hint Resolve record_history_keeps : keeps.

Lemma persist_plan_keeps plan msg : keeps (view := view) T m (persist_prune_plan key plan msg).
Proof. unfold persist_prune_plan. keeps_tac. Qed.
#[local] Hint Resolve persist_plan_keeps : keeps.

Lemma accounting_atomic_keeps write : keeps (view := view) T m (persist_global_accounting_atomic key write).
Proof.
  unfold persist_global_accounting_atomic. apply frame_lift_bind. intros plan_entry [-> Hvp]%kv_key_Ok.
  apply frame_lift_bind. intros global_entry [-> Hvg]%kv_key_Ok. apply frame_lift_bind. intros b Hb%map_err_Ok.
  apply KvMutationBatch_new_Ok in Hb as (_ & _ & _ & _ & _ & ->); [|by repeat (apply Forall_cons_2; [assumption|])..].
  apply frame_bind; [|intros ?; apply frame_lift]. apply keeps_batch.
  - split; cbn [batch_conditions batch_mutations]; rewrite merge_sort_Permutation; by repeat (apply Forall_cons_2; [assumption|]).
  - cbn [batch_mutations]. rewrite merge_sort_Permutation.
    apply Forall_cons_2; [apply (rec_plan _ _ HT)|]. apply Forall_cons_2; [apply (rec_global _ _ HT)|done].
Qed.

Lemma accounting_keeps plan accounting : keeps (view := view) T m (account_pruned_entries key plan accounting).
Proof.
  unfold account_pruned_entries. apply frame_bind; [apply frame_read|]. intros write s s' r HP.
  destruct (supports_atomic_batch s).
  - by apply accounting_atomic_keeps.
  - assert (keeps (view := view) T m (persist_global_accounting_cas key write)) as Hk; [|by apply Hk].
    unfold persist_global_accounting_cas. keeps_tac.
Qed.

Lemma update_retained_keeps accounting : keeps (view := view) T m (update_retained_chain session_id principal accounting).
Proof. unfold update_retained_chain. keeps_tac. Qed.

Lemma finish_keeps plan :
  (forall k, pp_segment_key plan = Some k -> T (NS_SEGMENT_INDEX, k)) ->
  keeps (view := view) T m (finish_prune_plan_durable session_id principal key plan).
Proof.
  intros Hp. unfold finish_prune_plan_durable. apply frame_bind; [apply frame_lift|]. intros accounting.
  apply frame_bind; [apply update_retained_keeps|]. intros _.
  apply frame_bind; [apply accounting_keeps|]. intros _.
  apply frame_bind; [|intros _; unfold install_prune_receipt; keeps_tac].
  unfold remove_pruned_segment. destruct (pp_segment_key plan) as [k|] eqn:Hk; [|apply frame_lift].
  apply frame_bind; [|intros ?; apply frame_lift]. apply st_delete_keeps. by apply Hp.
Qed.

Lemma delete_entries_keeps cutoff page : forall last_cursor,
  (forall cursor e ns k, (cursor, e) ∈ page -> e_principal e = principal -> String.le cursor cutoff ->
     (ns, k) ∈ [(NS_ENTRIES, uuid_to_string (e_id e)); (NS_COMMITTED_ENTRIES, uuid_to_string (e_id e)); (NS_SESSION_ENTRIES, cursor)] ->
     T (ns, k)) ->
  keeps (view := view) T m (delete_entries principal cutoff last_cursor page).
Proof.
  induction page as [|[cursor e] page IH]; intros last_cursor HTp; cbn [delete_entries]; [apply frame_lift|].
  assert (forall cursor', keeps (view := view) T m (delete_entries principal cutoff cursor' page)) as Hrest.
  { intros cursor'. apply IH. intros c e' ns k Hin. apply (HTp c). by apply list_elem_of_further. }
  destruct (str_gt cursor cutoff) eqn:Hc; [apply frame_lift|]. apply str_gt_le in Hc.
  case_bool_decide as Hp; cbn [negb]; [|apply Hrest].
  assert (forall ns k, (ns, k) ∈ [(NS_ENTRIES, uuid_to_string (e_id e)); (NS_COMMITTED_ENTRIES, uuid_to_string (e_id e));
            (NS_SESSION_ENTRIES, cursor)] -> T (ns, k)) as HTe by (intros ns k; apply HTp; [apply list_elem_of_here|done|done]).
  apply frame_bind; [|intros _; case_bool_decide; [apply frame_lift|apply Hrest]].
  unfold delete_pruned_entry. repeat (apply frame_bind; [apply st_delete_keeps, HTe; set_solver|intros ?]). apply frame_lift.
Qed.

End Records.

(** The plan a call works on: the stored one, or a new one that passed the
    checks. *)
Definition in_force m session_id principal (keep : N) (receipt : string) plan : Prop :=
  let key := chain_head_key session_id principal in
  match m !! (NS_PRUNE_PLANS, key) with
  | Some bytes => plan_from_slice bytes = Ok plan
  | None => new_prune_plan m session_id principal key keep receipt = Ok plan
  end.

(** An entry of the chain on the plan's next page, up to the cutoff. *)
Definition removable m session_id principal plan (cursor : string) (e : AuditEntry) : Prop :=
  exists details cutoff page,
    ReceiptDetails_parse (pp_receipt plan) = Ok details /\ rd_cutoff details = Some cutoff /\
    load_session_entries_page m session_id (pp_after plan) 256 = Ok page /\ (cursor, e) ∈ page /\
    e_principal e = principal /\ String.le cursor cutoff.

Inductive prune_touches m session_id principal (keep : N) (receipt : string) : string * string -> Prop :=
| touch_plan : prune_touches m session_id principal keep receipt (NS_PRUNE_PLANS, chain_head_key session_id principal)
| touch_receipt : prune_touches m session_id principal keep receipt (NS_PRUNE_RECEIPTS, chain_head_key session_id principal)
| touch_metadata : prune_touches m session_id principal keep receipt (NS_CHAIN_METADATA, chain_head_key session_id principal)
| touch_global : prune_touches m session_id principal keep receipt (NS_GLOBAL_METADATA, GLOBAL_KEY)
| touch_history g :
    prune_touches m session_id principal keep receipt (NS_RECEIPT_HISTORY, history_key (chain_head_key session_id principal) g)
| touch_segment plan k :
    in_force m session_id principal keep receipt plan -> pp_segment_key plan = Some k ->
    prune_touches m session_id principal keep receipt (NS_SEGMENT_INDEX, k)
| touch_entry plan cursor e ns k :
    in_force m session_id principal keep receipt plan -> removable m session_id principal plan cursor e ->
    (ns, k) ∈ [(NS_ENTRIES, uuid_to_string (e_id e)); (NS_COMMITTED_ENTRIES, uuid_to_string (e_id e)); (NS_SESSION_ENTRIES, cursor)] ->
    prune_touches m session_id principal keep receipt (ns, k).

Section Call.
  Context (m : KvMap) (session_id : Uuid) (principal : option string) (keep : N) (receipt : string).
Let key := chain_head_key session_id principal.
Let T := prune_touches m session_id principal keep receipt.

Lemma touches_records : prune_records T key.
Proof. split; constructor. Qed.

(** The page a call reads does not depend on the plan. *)
Lemma sorted_keys_ext (m1 : KvMap) ns prefix :
  Within (eq (NS_PRUNE_PLANS, key)) m m1 -> ns <> NS_PRUNE_PLANS -> sorted_keys m1 ns prefix = sorted_keys m ns prefix.
Proof.
  intros Hw Hns. apply (Sorted_unique String.le); [apply (Sorted_merge_sort _)..|].
  apply NoDup_Permutation; [apply sorted_keys_NoDup..|]. intros k. rewrite !elem_of_sorted_keys.
  destruct (Hw (ns, k)) as [Hk| ->]; [congruence|done].
Qed.

Lemma load_page_ext (m1 : KvMap) after n :
  Within (eq (NS_PRUNE_PLANS, key)) m m1 ->
  load_session_entries_page m1 session_id after n = load_session_entries_page m session_id after n.
Proof.
  intros Hw. assert (forall ns k, ns <> NS_PRUNE_PLANS -> st_get m1 ns k = st_get m ns k) as Hget.
  { intros ns k Hns. unfold st_get. cbn [kv_get ideal_store]. destruct (Hw (ns, k)) as [Hk|Hk]; [congruence|by rewrite Hk]. }
  assert (forall id, get m1 id = get m id) as Hg by (intros id; unfold get; by rewrite Hget).
  unfold load_session_entries_page. rewrite !st_list_page_ideal, (sorted_keys_ext m1) by done. cbn [rbind].
  destruct (take n _) as [|k keys].
  - destruct after as [a|]; [done|]. unfold get_legacy_session_entry_ids. rewrite Hget by done.
    destruct (st_get m NS_SESSION_INDEX _) as [data|]; [|done]. cbn [rbind].
    generalize 0%N as i. match goal with |- context [take n ?ids] => generalize (take n ids) end.
    intros ids. induction ids as [|id ids IH]; intros i; cbn [legacy_page]; [done|]. by rewrite Hg, IH.
  - generalize (k :: keys) as l. intros l. induction l as [|x l IH]; cbn [try_map]; [done|].
    rewrite IH. f_equal. unfold page_entry. destruct (index_key_id x) as [id|]; [|done]. cbn [rbind]. by rewrite Hg.
Qed.

Lemma load_or_create_triple :
  triple (view := view) (eq m) (load_or_create_prune_plan session_id principal key keep receipt)
    (fun plan m1 => in_force m session_id principal keep receipt plan /\ Within (eq (NS_PRUNE_PLANS, key)) m m1)
    (Within (eq (NS_PRUNE_PLANS, key)) m).
Proof.
  unfold load_or_create_prune_plan.
  apply (triple_bind _ _ _ (fun stored m1 => m1 = m /\ stored = m !! (NS_PRUNE_PLANS, key))).
  { apply (triple_read _ _ (fun m => st_get m NS_PRUNE_PLANS key)); [faithful_tac| |intros ? <-; apply within_refl].
    intros ? a <- [= <-]. done. }
  intros [bytes|].
  - apply triple_lift. intros ? [ -> Hs]. destruct (plan_from_slice bytes) as [plan|] eqn:Hp; cbn [map_err]; [|apply within_refl].
    split; [|apply within_refl]. unfold in_force. fold key. by rewrite <- Hs.
  - apply (triple_bind _ _ _ (fun plan m1 => m1 = m /\ in_force m session_id principal keep receipt plan)).
    { eapply triple_read; [apply new_prune_plan_faithful| |intros ? [ -> _]; apply within_refl].
      intros ? plan [ -> Hs] Hn. split; [done|]. unfold in_force. fold key. by rewrite <- Hs. }
    intros plan. apply (triple_bind _ _ _ (fun _ m1 => in_force m session_id principal keep receipt plan /\
                                             Within (eq (NS_PRUNE_PLANS, key)) m m1)).
    + apply triple_pre. intros ? [ -> Hp].
      assert (keeps (view := view) (eq (NS_PRUNE_PLANS, key)) m (st_cas_or NS_PRUNE_PLANS key None (plan_to_vec plan)
          (StorageError "audit prune plan was concurrently installed; retry"))) as Hk
        by (unfold st_cas_or; apply frame_bind; [by apply keeps_cas|intros []; apply frame_lift]).
      eapply triple_conseq; [exact Hk|intros ? <-; apply within_refl|done|done].
    + intros _. apply triple_lift. done.
Qed.

Lemma plan_page_within (m1 : KvMap) : Within (eq (NS_PRUNE_PLANS, key)) m m1 -> Within T m m1.
Proof. intros Hw k. destruct (Hw k) as [<-|]; [left; apply touch_plan|by right]. Qed.

Lemma delete_page_triple plan details cutoff :
  in_force m session_id principal keep receipt plan -> ReceiptDetails_parse (pp_receipt plan) = Ok details ->
  rd_cutoff details = Some cutoff ->
  triple (view := view) (Within (eq (NS_PRUNE_PLANS, key)) m) (delete_prune_page session_id principal key cutoff plan)
    (fun plan' m1 => pp_segment_key plan' = pp_segment_key plan /\ Within T m m1) (Within T m).
Proof.
  intros Hp Hd Hc. unfold delete_prune_page.
  apply (triple_bind _ _ _ (fun page m1 => load_session_entries_page m session_id (pp_after plan) 256 = Ok page /\ Within T m m1)).
  { eapply triple_read; [apply load_page_faithful| |by apply plan_page_within].
    intros m1 page Hw Hl. cbn beta in Hl. rewrite load_page_ext in Hl by done. split; [done|]. by apply plan_page_within. }
  intros page. apply triple_pre. intros m1 [Hl Hw]. apply (triple_bind _ _ _ (fun _ => Within T m)).
  - eapply triple_conseq; [apply (delete_entries_keeps m session_id principal T touches_records cutoff page)|by intros ? <-|done|done].
    intros cursor e ns k Hin He Hle Hk. apply (touch_entry _ _ _ _ _ plan cursor e); [done| |done]. by exists details, cutoff, page.
  - intros deleted. apply (triple_bind _ _ _ (fun _ => Within T m)); [apply (persist_plan_keeps _ _ _ _ touches_records)|].
    intros _. by apply triple_lift.
Qed.

Lemma prune_chain_keeps :
  triple (view := view) (eq m) (prune_chain_durable session_id principal keep receipt) (fun _ => Within T m) (Within T m).
Proof.
  assert (forall plan', (exists plan, in_force m session_id principal keep receipt plan /\ pp_segment_key plan' = pp_segment_key plan) ->
    keeps (view := view) T m (finish_prune_plan_durable session_id principal key plan')) as Hfin.
  { intros plan' (plan & Hp & Hk). apply (finish_keeps _ _ _ _ touches_records). intros k Hs. apply (touch_segment _ _ _ _ _ plan); congruence. }
  unfold prune_chain_durable. fold key. apply (triple_bind _ _ _ (fun _ => eq m)).
  { intros s s' r -> [= <- <-]. destruct (require_paged_session_projection _ _); [done|apply within_refl]. }
  intros _. eapply triple_bind.
  { eapply triple_conseq; [apply load_or_create_triple|done|intros plan m1 Hp; exact Hp|apply plan_page_within]. }
  intros plan. apply triple_pre. intros m1 [Hp Hw].
  destruct (pp_complete plan).
  { eapply triple_conseq; [apply Hfin; by exists plan|intros ? <-; by apply plan_page_within|done|done]. }
  apply (triple_bind _ _ _ (fun details m2 => ReceiptDetails_parse (pp_receipt plan) = Ok details /\ m2 = m1)).
  { apply triple_lift. intros ? <-. destruct (ReceiptDetails_parse _); [done|by apply plan_page_within]. }
  intros details. apply (triple_bind _ _ _ (fun plan' m2 => pp_segment_key plan' = pp_segment_key plan /\ Within T m m2)).
  - apply triple_pre. intros ? [Hd ->]. destruct (rd_cutoff details) as [cutoff|] eqn:Hc.
    + eapply triple_conseq; [by eapply delete_page_triple|by intros ? <-|done|done].
    + apply (triple_bind _ _ _ (fun _ => Within T m)); [|intros _; by apply triple_lift].
      eapply triple_conseq; [apply (persist_plan_keeps m _ _ _ touches_records)|intros ? <-; by apply plan_page_within|done|done].
  - intros plan'. apply triple_pre. intros m2 [Hk Hm2]. destruct (pp_complete plan').
    + eapply triple_conseq; [apply Hfin; by exists plan|by intros ? <-|done|done].
    + apply triple_lift. by intros ? <-.
Qed.
End Call.

(** C14: whatever a prune call is interrupted by, it changes nothing but the
    chain's own plan, receipt, metadata and receipt history, the global
    counters, the segment its plan names, and the entries, commit marks and
    index keys of the chain's entries on the plan's next page at or before the
    receipt's cutoff.  The entries of other principals of the session, other
    sessions, heads and anchor marks stay as they are. *)
Theorem prune_changes_only_plan (s s' : S) session_id principal keep receipt r k :
  prune_chain_durable session_id principal keep receipt s = (s', r) ->
  prune_touches (view s) session_id principal keep receipt k \/ view s' !! k = view s !! k.
Proof.
  intros Hr. pose proof (prune_chain_keeps (view s) session_id principal keep receipt s s' r eq_refl Hr) as Hw.
  destruct r; apply Hw.
Qed.
End Frame.
