(* ===== verification/AuditRetention.v ===== *)
(** * Retention

    [crates/astrid-audit/src/prune.rs], [log/retention_guard.rs],
    [log/prune_oldest.rs], [log/archive.rs], the archive anchor of
    [log/verify_chain.rs], [log/anchor.rs], and of the storage
    [paging_principal.rs] and [sealed_segments.rs].

    A prune scans the session's pages, keeps the newest entries of one chain
    within a policy, signs a receipt for the rest, hands the rest to an
    archive and has the storage remove it.  A chain's anchored watermark
    bounds how far a prune may reach.

    The storage is a [KvStore]; the archive is a second state with the
    operations of the trait [AuditArchiver].  The JSON of a receipt is the
    class [ReceiptCodec]. *)

From stdpp Require Import sorting pretty.
From S2P Require Import Prelude Profile Kv Bytes Cbor Crypto KeyRegistry AuditEntry AuditChain AuditLog.
From S2P Require Import AuditStorage AuditPrune.
From Stdlib Require Import Ascii.
Local Open Scope string_scope.
Local Open Scope list_scope.

Definition MAX_RETENTION_RING : N := 8192.
Definition MAX_RESUME_PAGES : nat := N.to_nat 16384.
Definition ARCHIVE_READ_BATCH : nat := 64.
Definition SEGMENT_KEY_PAGE : nat := 256.
Definition WALK_PAGE : nat := 256.
Definition MAX_EVIDENCE_BYTES : N := 4096.
Definition DEFAULT_AUTO_RETENTION_ENTRIES : N := 1.

(** [str::split_once]. *)
Fixpoint split_once (c : ascii) (s : string) : option (string * string) :=
  match s with
  | EmptyString => None
  | String a r => if Ascii.eqb a c then Some (EmptyString, r) else (fun '(x, y) => (String a x, y)) <$> split_once c r
  end.

(** [ContentHash::to_hex]. *)
Definition to_hex (h : ContentHash) : string := of_bytes (hex_text (arr h)).

(** [SessionId]'s text. *)
Definition session_text `{UuidText} (session_id : Uuid) : string := "session:" +:+ uuid_to_string session_id.

(** ** Receipts ([prune.rs]) *)

Record AuditRetentionPolicy : Type := MkAuditRetentionPolicy {
  retain_entries : N;
  retain_bytes : option N;
}.

Record AuditPruneReceipt : Type := MkAuditPruneReceipt {
  pr_schema : N;
  pr_session : string;
  pr_principal : option string;
  pr_retained_count : N;
  pr_retained_bytes : N;
  pr_omitted_count : N;
  pr_omitted_bytes : N;
  pr_omitted_digest : string;
  pr_omitted_terminal_hash : string;
  pr_retained_head : option Uuid;
  pr_generation : N;
  pr_cutoff_cursor : option string;
  pr_first_retained : option Uuid;
  pr_first_retained_previous_hash : string;
  pr_prior_receipt_hash : option string;
  pr_segment : option N;
  pr_seal_ordinal : option N;
  pr_public_key : PublicKey;
  pr_key_epoch : option N;
  pr_signature : Signature;
}.

(** The fields a signature covers: all but the signature. *)
Record UnsignedReceipt : Type := MkUnsignedReceipt {
  ur_schema : N;
  ur_session : string;
  ur_principal : option string;
  ur_retained_count : N;
  ur_retained_bytes : N;
  ur_omitted_count : N;
  ur_omitted_bytes : N;
  ur_omitted_digest : string;
  ur_omitted_terminal_hash : string;
  ur_retained_head : option Uuid;
  ur_generation : N;
  ur_cutoff_cursor : option string;
  ur_first_retained : option Uuid;
  ur_first_retained_previous_hash : string;
  ur_prior_receipt_hash : option string;
  ur_segment : option N;
  ur_seal_ordinal : option N;
  ur_public_key : PublicKey;
  ur_key_epoch : option N;
}.

Definition unsigned (r : AuditPruneReceipt) : UnsignedReceipt :=
  MkUnsignedReceipt (pr_schema r) (pr_session r) (pr_principal r) (pr_retained_count r) (pr_retained_bytes r)
    (pr_omitted_count r) (pr_omitted_bytes r) (pr_omitted_digest r) (pr_omitted_terminal_hash r)
    (pr_retained_head r) (pr_generation r) (pr_cutoff_cursor r) (pr_first_retained r)
    (pr_first_retained_previous_hash r) (pr_prior_receipt_hash r) (pr_segment r) (pr_seal_ordinal r)
    (pr_public_key r) (pr_key_epoch r).

(** [serde_json] on receipts, and BLAKE3 keyed by a context
    ([Hasher::new_derive_key]) over the bytes it was fed. *)
Class ReceiptCodec : Type := {
  receipt_to_vec : AuditPruneReceipt -> result string string;
  receipt_from_slice : string -> result AuditPruneReceipt string;
  unsigned_to_vec : UnsignedReceipt -> result string string;
  value_size : Value -> result N string;
  derive_key_hash : string -> list byte -> array 32;
}.

(** The members of a receipt as the storage reads them. *)
Record receipt_members `{UuidText} (r : AuditPruneReceipt) (v : Value) : Prop := {
  rm_generation : field_u64 v "generation" = Some (pr_generation r);
  rm_omitted_count : field_u64 v "omitted_count" = Some (pr_omitted_count r);
  rm_omitted_bytes : field_u64 v "omitted_bytes" = Some (pr_omitted_bytes r);
  rm_cutoff : field_str v "cutoff_cursor" = pr_cutoff_cursor r;
  rm_retained_head : field_str v "retained_head" = uuid_to_string <$> pr_retained_head r;
  rm_prior : field_str v "prior_receipt_hash" = pr_prior_receipt_hash r;
  rm_segment : field_u64 v "segment" = pr_segment r;
  rm_seal_ordinal : field_u64 v "seal_ordinal" = pr_seal_ordinal r;
  rm_key_epoch : field_u64 v "key_epoch" = pr_key_epoch r;
}.

Class ReceiptCodecLaws `{ReceiptCodec, UuidText, PruneCodec} : Prop := {
  receipt_roundtrip r text : receipt_to_vec r = Ok text -> receipt_from_slice text = Ok r;
  receipt_value r text : receipt_to_vec r = Ok text -> exists v, value_from_slice text = Ok v /\ receipt_members r v;
}.

(** ** Sealed segments ([storage/sealed_segments.rs]) *)

Record SegmentChain : Type := MkSegmentChain {
  sc_session : Uuid;
  sc_principal : option string;
  sc_chain_key : string;
}.

Record SealedSegment : Type := MkSealedSegment {
  sg_segment_count : N;
  sg_segment : N;
  sg_seal_ordinal : option N;
}.

(** ** The traits of an archive ([log/archive.rs]) *)

Class AuditArchiver (A : Type) `{AuditSerde} : Type := {
  ArchiveWriter : Type;
  archive_begin : AuditPruneReceipt -> string -> eff A AuditError ArchiveWriter;
  archive_write : ArchiveWriter -> list AuditEntry -> eff A AuditError ArchiveWriter;
  archive_commit : ArchiveWriter -> eff A AuditError unit;
}.
Arguments ArchiveWriter A {_ _}.

(** What a prune uses of an [AuditLog]: its keys and the retention controls. *)
Record RetentionLog `{Crypto} : Type := MkRetentionLog {
  rl_runtime_key : KeyPair;
  rl_v2_signer : option V2Signer;
  rl_require_anchor : bool;
  rl_archiver : bool;
}.

Section Retention.
  Context {S : Type} `{KvStore S} `{Crypto} `{AuditSerde} `{UuidText} `{!StorageCodec} `{PruneCodec} `{ReceiptCodec}.

Abbreviation storage A := (eff S AuditError A).
Implicit Types (session_id : Uuid) (principal : option string) (log : RetentionLog) (policy : AuditRetentionPolicy).

Definition signing_bytes (r : AuditPruneReceipt) : AuditResult (list byte) :=
  let? text := map_err SerializationError (unsigned_to_vec (unsigned r)) in Ok (as_bytes text).

Definition verify_receipt (r : AuditPruneReceipt) : AuditResult unit :=
  if negb (pr_schema r =? 1)%N then Err (StorageError "unsupported audit prune receipt schema")
  else
    let? bytes := signing_bytes r in
    if verify (pr_public_key r) bytes (pr_signature r) then Ok tt else Err (CryptoError "signature verification failed").

(** [archive_signer] of [log/v2.rs]. *)
Definition archive_signer log : KeyPair * option N :=
  match rl_v2_signer log with
  | None => (rl_runtime_key log, None)
  | Some signer => (vs_key signer, Some (head_seq (vs_registry signer)))
  end.

(** ** A chain's pages ([storage/paging_principal.rs]) *)

(** The loop over one page of keys, up to the limit. *)
Fixpoint push_entries (s : S) principal (limit : nat) (result : list (string * AuditEntry)) (keys : list string)
    : AuditResult (list (string * AuditEntry)) :=
  match keys with
  | [] => Ok result
  | key :: rest =>
      let? found := page_entry s key in
      if bool_decide (e_principal found.2 = principal)
      then let result := result ++ [found] in
           if (length result =? limit)%nat then Ok result else push_entries s principal limit result rest
      else push_entries s principal limit result rest
  end.

(** The outer loop: a page is as long as what is missing, within 1 to 256. *)
Fixpoint principal_pages (fuel : nat) (s : S) (prefix : string) principal (limit : nat) (cursor : option string)
    (result : list (string * AuditEntry)) : AuditResult (list (string * AuditEntry)) :=
  match fuel with
  | O => Ok result
  | Datatypes.S fuel =>
      if (length result <? limit)%nat then
        let page_limit := Nat.min (Nat.max (limit - length result) 1) 256 in
        let? keys := st_list_page s NS_SESSION_ENTRIES prefix cursor page_limit in
        match last keys with
        | None => Ok result
        | Some last_key =>
            let? result := push_entries s principal limit result keys in
            if (length keys <? page_limit)%nat then Ok result
            else principal_pages fuel s prefix principal limit (Some last_key) result
        end
      else Ok result
  end.

Definition session_keys (s : S) session_id : AuditResult (list string) :=
  map_err kv_failed (kv_list_keys_with_prefix s NS_SESSION_ENTRIES (uuid_to_string session_id +:+ ":")).

(** A page more than there are keys. *)
Definition load_principal_entries_page (s : S) session_id principal (after : option string) (limit : nat)
    : AuditResult (list (string * AuditEntry)) :=
  let? keys := session_keys s session_id in
  principal_pages (Datatypes.S (length keys)) s (uuid_to_string session_id +:+ ":") principal limit after [].

(** [prune_in_progress] of [log/heads_export.rs]. *)
Definition prune_plan_pending (s : S) session_id principal : AuditResult bool :=
  st_exists s NS_PRUNE_PLANS (chain_head_key session_id principal).

(** ** The retention scan *)

Record Scan : Type := MkScan {
  sc_retained : list AuditEntry;
  sc_cursors : list string;
  sc_omitted_count : N;
  sc_omitted_bytes : N;
  sc_omitted_terminal_hash : ContentHash;
  sc_digested : list byte;
  sc_retained_bytes : N;
  sc_cutoff_cursor : option string;
}.

Definition scan_start : Scan := MkScan [] [] 0 0 ContentHash_zero [] 0 None.

Definition over_policy policy (st : Scan) : bool :=
  (retain_entries policy <? N.of_nat (length (sc_retained st)))%N
  || match retain_bytes policy with
     | Some limit => (limit <? sc_retained_bytes st)%N && (1 <? length (sc_retained st))%nat
     | None => false
     end.

(** The body of the inner loop: the oldest retained entry is omitted. *)
Definition omit_oldest (st : Scan) : AuditResult Scan :=
  match sc_cursors st, sc_retained st with
  | [], _ => Err (StorageError "audit retention cursor underflow")
  | _ :: _, [] => Err (StorageError "audit retention ring underflow")
  | old_cursor :: cursors, old :: retained =>
      let? old_bytes := map_err SerializationError (entry_to_vec old) in
      Ok (MkScan retained cursors (sat_add U64_MAX (sc_omitted_count st) 1)
            (sat_add U64_MAX (sc_omitted_bytes st) (str_len old_bytes)) (content_hash old)
            (sc_digested st ++ as_bytes old_bytes) (sat_sub (sc_retained_bytes st) (str_len old_bytes))
            (Some old_cursor))
  end.

Fixpoint omit_while (fuel : nat) policy (st : Scan) : AuditResult Scan :=
  match fuel with
  | O => Ok st
  | Datatypes.S fuel => if over_policy policy st then let? st := omit_oldest st in omit_while fuel policy st else Ok st
  end.

(** The ring holds one entry more than it has cursors while the loop runs. *)
Definition scan_entry principal policy (st : Scan) (found : string * AuditEntry) : AuditResult Scan :=
  if negb (bool_decide (e_principal found.2 = principal)) then Ok st
  else
    let? encoded := map_err SerializationError (entry_to_vec found.2) in
    let st := MkScan (sc_retained st ++ [found.2]) (sc_cursors st) (sc_omitted_count st) (sc_omitted_bytes st)
                (sc_omitted_terminal_hash st) (sc_digested st)
                (sat_add U64_MAX (sc_retained_bytes st) (str_len encoded)) (sc_cutoff_cursor st) in
    let? st := omit_while (Datatypes.S (length (sc_retained st))) policy st in
    Ok (MkScan (sc_retained st) (sc_cursors st ++ [found.1]) (sc_omitted_count st) (sc_omitted_bytes st)
          (sc_omitted_terminal_hash st) (sc_digested st) (sc_retained_bytes st) (sc_cutoff_cursor st)).

Fixpoint scan_page principal policy (st : Scan) (page : list (string * AuditEntry)) : AuditResult Scan :=
  match page with
  | [] => Ok st
  | found :: rest => let? st := scan_entry principal policy st found in scan_page principal policy st rest
  end.

Fixpoint scan_pages (fuel : nat) (s : S) session_id principal policy (after : option string) (st : Scan)
    : AuditResult Scan :=
  match fuel with
  | O => Ok st
  | Datatypes.S fuel =>
      let? page := load_session_entries_page s session_id after 256 in
      match last page with
      | None => Ok st
      | Some (next_after, _) =>
          let? st := scan_page principal policy st page in
          scan_pages fuel s session_id principal policy (Some next_after) st
      end
  end.

Record RetentionScan : Type := MkRetentionScan {
  rs_retained_count : N;
  rs_retained_bytes : N;
  rs_omitted_count : N;
  rs_omitted_bytes : N;
  rs_omitted_digest : string;
  rs_omitted_terminal_hash : string;
  rs_retained_head : option Uuid;
  rs_cutoff_cursor : option string;
  rs_first_retained : option Uuid;
  rs_first_retained_previous_hash : string;
}.

Definition ARCHIVE_CONTEXT : string := "astrid audit archive prefix v1".

Definition finish_scan (st : Scan) : RetentionScan :=
  MkRetentionScan (N.min (N.of_nat (length (sc_retained st))) U64_MAX) (sc_retained_bytes st) (sc_omitted_count st)
    (sc_omitted_bytes st) (to_hex (derive_key_hash ARCHIVE_CONTEXT (sc_digested st)))
    (to_hex (sc_omitted_terminal_hash st)) (e_id <$> last (sc_retained st)) (sc_cutoff_cursor st)
    (e_id <$> hd_error (sc_retained st))
    (to_hex (from_option e_previous_hash ContentHash_zero (hd_error (sc_retained st)))).

(** A page for each key, one for the legacy index and the empty one at the end. *)
Definition scan_retention (s : S) session_id principal policy : AuditResult RetentionScan :=
  let? keys := session_keys s session_id in
  let? st := scan_pages (length keys + 2) s session_id principal policy None scan_start in
  Ok (finish_scan st).

(** ** Watermarks ([log/retention_guard.rs]) *)

Record PruneLimit : Type := MkPruneLimit {
  pl_chain : string;
  pl_omitted_before : N;
  pl_anchored : option N;
}.

Definition max_omitted (limit : PruneLimit) : N := sat_sub (default 0%N (pl_anchored limit)) (pl_omitted_before limit).

Definition PruneLimit_check (limit : PruneLimit) (remove : N) : AuditResult unit :=
  if (remove <=? max_omitted limit)%N then Ok tt
  else
    let reach := pretty (sat_add U64_MAX (pl_omitted_before limit) remove) in
    Err (UnanchoredPrune
      match pl_anchored limit with
      | Some anchored => "chain " +:+ pl_chain limit +:+ " is anchored through its first " +:+ pretty anchored
                         +:+ " entries, but the prune would remove its first " +:+ reach
      | None => "chain " +:+ pl_chain limit +:+ " has no anchored watermark, and pruning requires one (the prune would remove its first "
                +:+ reach +:+ " entries)"
      end).

Definition chain_label session_id principal : string :=
  uuid_to_string session_id +:+ " " +:+ default "(system)" principal.

Definition prune_limit (s : S) log session_id principal (omitted_before : option N) : AuditResult (option PruneLimit) :=
  let? marked := anchor_mark s session_id principal in
  let anchored := mk_position <$> marked.2 in
  if bool_decide (anchored = None) && negb (rl_require_anchor log) then Ok None
  else
    match omitted_before with
    | None => Err (UnanchoredPrune ("chain " +:+ chain_label session_id principal
                +:+ ": the number of entries already pruned is unknown, so the prune cannot be checked against its anchored history"))
    | Some before => Ok (Some (MkPruneLimit (chain_label session_id principal) before anchored))
    end.

Definition check_prune_reach (s : S) log session_id principal (remove : N) : AuditResult unit :=
  if (remove =? 0)%N then Ok tt
  else
    let? positions := chain_positions s session_id principal in
    let omitted_before := match positions with None => Some 0%N | Some positions => cp_omitted_total positions end in
    let? limit := prune_limit s log session_id principal omitted_before in
    match limit with Some limit => PruneLimit_check limit remove | None => Ok tt end.

(** ** Signing a prune *)

Definition prior_receipt (s : S) session_id principal : AuditResult (N * option string) :=
  let? previous := prune_receipt s session_id principal in
  match previous with
  | None => Ok (0%N, None)
  | Some previous =>
      let? receipt := map_err SerializationError (receipt_from_slice previous) in
      let? _ := verify_receipt receipt in
      Ok (sat_add U64_MAX (pr_generation receipt) 1, Some (receipt_hash previous))
  end.

Definition check_policy policy : AuditResult unit :=
  if (retain_entries policy =? 0)%N then Err (StorageError "audit retention requires at least one retained entry")
  else if (MAX_RETENTION_RING <? retain_entries policy)%N
  then Err (StorageError ("audit retention exceeds bounded planner ring (" +:+ pretty MAX_RETENTION_RING +:+ " entries)"))
  else if bool_decide (retain_bytes policy = Some 0%N)
  then Err (StorageError "audit retention bytes must be greater than zero")
  else Ok tt.

Definition with_signature (r : AuditPruneReceipt) (signature : Signature) : AuditPruneReceipt :=
  MkAuditPruneReceipt (pr_schema r) (pr_session r) (pr_principal r) (pr_retained_count r) (pr_retained_bytes r)
    (pr_omitted_count r) (pr_omitted_bytes r) (pr_omitted_digest r) (pr_omitted_terminal_hash r)
    (pr_retained_head r) (pr_generation r) (pr_cutoff_cursor r) (pr_first_retained r)
    (pr_first_retained_previous_hash r) (pr_prior_receipt_hash r) (pr_segment r) (pr_seal_ordinal r)
    (pr_public_key r) (pr_key_epoch r) signature.

Definition sign_prune_receipt (s : S) log session_id principal policy (selected_segment : option (N * option N))
    : AuditResult AuditPruneReceipt :=
  let? _ := check_policy policy in
  let? scan := scan_retention s session_id principal policy in
  let? selected :=
    match selected_segment with
    | Some (segment, ordinal) => Ok (Some segment, ordinal)
    | None =>
        let? loaded := load_chain_metadata s session_id principal in
        Ok match loaded.2 with Some metadata => (Some (cm_segment metadata), cm_seal_ordinal metadata) | None => (None, None) end
    end in
  let? prior := prior_receipt s session_id principal in
  let? _ := check_prune_reach s log session_id principal (rs_omitted_count scan) in
  let '(signer, key_epoch) := archive_signer log in
  let receipt := MkAuditPruneReceipt 1 (session_text session_id) principal (rs_retained_count scan) (rs_retained_bytes scan)
                   (rs_omitted_count scan) (rs_omitted_bytes scan) (rs_omitted_digest scan) (rs_omitted_terminal_hash scan)
                   (rs_retained_head scan) prior.1 (rs_cutoff_cursor scan) (rs_first_retained scan)
                   (rs_first_retained_previous_hash scan) prior.2 selected.1 selected.2
                   (export_public_key signer) key_epoch (zero_array 64) in
  let? bytes := signing_bytes receipt in
  Ok (with_signature receipt (sign signer bytes)).

Definition verify_anchor (receipt : AuditPruneReceipt) (first_previous : ContentHash) : AuditResult bool :=
  let? _ := verify_receipt receipt in
  Ok (bool_decide (pr_omitted_terminal_hash receipt = to_hex first_previous)
      && bool_decide (pr_first_retained_previous_hash receipt = to_hex first_previous)).

(** ** The archive anchor ([log/verify_chain.rs]) *)

Definition receipt_key_registered (receipt : AuditPruneReceipt) (first : AuditEntry) (registry : option KeyRegistry) : bool :=
  match registry with
  | None => bool_decide (e_v2 first = None)
  | Some registry =>
      match pr_key_epoch receipt, e_v2 first with
      | Some epoch, Some seal => (s_key_epoch seal <=? epoch)%N && is_active registry Audit (pr_public_key receipt) epoch
      | Some epoch, None => is_active registry Audit (pr_public_key receipt) epoch
      | None, Some _ => false
      | None, None => was_registered registry AuditV1 (pr_public_key receipt)
      end
  end.

Definition verify_archive_anchor (s : S) (first : AuditEntry) (registry : option KeyRegistry) : AuditResult bool :=
  if is_zero (e_previous_hash first) then Ok true
  else
    let? raw := prune_receipt s (e_session_id first) (e_principal first) in
    match raw with
    | None => Ok false
    | Some raw =>
        let? receipt := map_err SerializationError (receipt_from_slice raw) in
        if negb (bool_decide (pr_session receipt = session_text (e_session_id first)))
           || negb (bool_decide (pr_principal receipt = e_principal first)) then Ok false
        else if negb (receipt_key_registered receipt first registry) then Ok false
        else verify_anchor receipt (e_previous_hash first)
    end.

(** ** Reading the segment index *)

Definition invalid_segment_key : AuditError := StorageError "invalid audit segment index key".

Definition segment_chain (index_key : string) : AuditResult SegmentChain :=
  let? outer := ok_or (split_once ":" index_key) invalid_segment_key in
  let? inner := ok_or (rsplit_once ":" outer.2) invalid_segment_key in
  let chain_key := inner.1 in
  let '(session, principal) :=
    match split_once ":" chain_key with
    | Some (session, principal) => (session, Some principal)
    | None => (chain_key, None)
    end in
  let? session := ok_or (uuid_parse_str session) (StorageError "invalid UUID") in
  let? principal :=
    match principal with
    | None => Ok None
    | Some id => let? p := map_err (fun _ => StorageError "invalid principal") (PrincipalId_new id) in Ok (Some (pid_str p))
    end in
  Ok (MkSegmentChain session principal chain_key).

Definition sealed_segment_keys (s : S) (after : option string) (limit : nat) : AuditResult (list string) :=
  st_list_page s NS_SEGMENT_INDEX "" after limit.

Definition sealed_segment (s : S) (index_key : string) : AuditResult (option SealedSegment) :=
  let? bytes := st_get s NS_SEGMENT_INDEX index_key in
  match bytes with
  | None => Ok None
  | Some bytes =>
      let? descriptor := map_err SerializationError (metadata_from_slice bytes) in
      Ok (Some (MkSealedSegment (cm_segment_count descriptor) (cm_segment descriptor) (cm_seal_ordinal descriptor)))
  end.

(** ** Choosing a segment *)

Record PrunableSegment : Type := MkPrunableSegment {
  ps_session : Uuid;
  ps_principal : option string;
  ps_segment : N;
  ps_seal_ordinal : option N;
  ps_retain_entries : N;
}.

Definition segment_prune (s : S) log (chain : SegmentChain) (segment_count : N) policy : AuditResult N :=
  let? positions := chain_positions s (sc_session chain) (sc_principal chain) in
  let? positions := ok_or positions (StorageError "oldest sealed segment has no chain metadata") in
  let suffix := sat_sub (cp_count positions) segment_count in
  let retain := N.max (retain_entries policy) suffix in
  let remove := sat_sub (cp_count positions) retain in
  let? _ :=
    if (remove =? 0)%N then Ok tt
    else
      let? limit := prune_limit s log (sc_session chain) (sc_principal chain) (cp_omitted_total positions) in
      match limit with Some limit => PruneLimit_check limit remove | None => Ok tt end in
  Ok retain.

(** What one page of the search leaves: the chains refused so far and the
    first refusal. *)
Definition Refusals : Type := list string * option AuditError.

Fixpoint select_keys (s : S) log policy (refused : Refusals) (keys : list string)
    : AuditResult (PrunableSegment + Refusals) :=
  match keys with
  | [] => Ok (inr refused)
  | key :: rest =>
      let? chain := segment_chain key in
      if bool_decide (sc_chain_key chain ∈ refused.1) then select_keys s log policy refused rest
      else
        let? segment := sealed_segment s key in
        match segment with
        | None => select_keys s log policy refused rest
        | Some segment =>
            match segment_prune s log chain (sg_segment_count segment) policy with
            | Ok retain =>
                Ok (inl (MkPrunableSegment (sc_session chain) (sc_principal chain) (sg_segment segment)
                           (sg_seal_ordinal segment) retain))
            | Err (UnanchoredPrune reason) =>
                select_keys s log policy
                  (sc_chain_key chain :: refused.1, Some (default (UnanchoredPrune reason) refused.2)) rest
            | Err error => Err error
            end
        end
  end.

Fixpoint select_pages (fuel : nat) (s : S) log policy (after : option string) (refused : Refusals)
    : AuditResult (option PrunableSegment) :=
  let finish := match refused.2 with None => Ok None | Some error => Err error end in
  match fuel with
  | O => finish
  | Datatypes.S fuel =>
      let? keys := sealed_segment_keys s after SEGMENT_KEY_PAGE in
      let? chosen := select_keys s log policy refused keys in
      match chosen with
      | inl segment => Ok (Some segment)
      | inr refused =>
          if (length keys <? SEGMENT_KEY_PAGE)%nat
          then match refused.2 with None => Ok None | Some error => Err error end
          else select_pages fuel s log policy (last keys) refused
      end
  end.

(** A page for each key, and the short one at the end. *)
Definition select_prunable_segment (s : S) log policy : AuditResult (option PrunableSegment) :=
  let? keys := map_err kv_failed (kv_list_keys_with_prefix s NS_SEGMENT_INDEX "") in
  select_pages (Datatypes.S (length keys)) s log policy None ([], None).

(** ** Anchoring a chain ([log/anchor.rs]) *)

Record AuditAnchorWatermark : Type := MkAuditAnchorWatermark {
  aw_position : N;
  aw_head_hash : ContentHash;
  aw_head : option Uuid;
  aw_evidence : Value;
  aw_recorded_at : Timestamp;
}.

Definition watermark_of (mark : AnchorMark) : AuditAnchorWatermark :=
  MkAuditAnchorWatermark (mk_position mark) (mk_head_hash mark) (mk_head mark) (mk_evidence mark) (mk_recorded_at mark).

Record AuditAnchorMarkResult : Type := MkAuditAnchorMarkResult {
  am_advanced : bool;
  am_watermark : AuditAnchorWatermark;
}.

Record Located : Type := MkLocated { lc_hash : ContentHash; lc_id : option Uuid; lc_cursor : option string }.

Definition check_evidence (evidence : Value) : result unit string :=
  match evidence with
  | VObject _ =>
      let? size := value_size evidence in
      if (MAX_EVIDENCE_BYTES <? size)%N
      then Err ("anchor evidence is " +:+ pretty size +:+ " bytes, above the " +:+ pretty MAX_EVIDENCE_BYTES +:+ "-byte limit")
      else Ok tt
  | _ => Err "anchor evidence must be a JSON object"
  end.

Definition compare_with_watermark (current : option AnchorMark) (position : N) (head_hash : ContentHash)
    : result (option AuditAnchorMarkResult) string :=
  match current with
  | None => Ok None
  | Some current =>
      if (position <? mk_position current)%N
      then Err ("position " +:+ pretty position +:+ " is below the anchored watermark " +:+ pretty (mk_position current))
      else if (mk_position current <? position)%N then Ok None
      else if negb (bool_decide (mk_head_hash current = head_hash))
      then Err ("head hash differs from the hash anchored at position " +:+ pretty position)
      else Ok (Some (MkAuditAnchorMarkResult false (watermark_of current)))
  end.

(** [hex::decode] and [ContentHash::from_hex]. *)
Definition hex_nibble (a : ascii) : option N :=
  let x := N_of_ascii a in
  if (48 <=? x)%N && (x <=? 57)%N then Some (x - 48)%N
  else if (97 <=? x)%N && (x <=? 102)%N then Some (x - 87)%N
  else if (65 <=? x)%N && (x <=? 70)%N then Some (x - 55)%N
  else None.

Fixpoint hex_decode (s : string) : option (list byte) :=
  match s with
  | EmptyString => Some []
  | String a (String b rest) =>
      match hex_nibble a, hex_nibble b, hex_decode rest with
      | Some hi, Some lo, Some l => Some (ascii_of_N (16 * hi + lo) :: l)
      | _, _, _ => None
      end
  | String _ EmptyString => None
  end.

Definition from_hex (s : string) : option ContentHash := hex_decode s ≫= array_try_from 32.

Definition cursor_id (cursor : string) : option Uuid :=
  match rsplit_once ":" cursor with Some (_, id) => uuid_parse_str id | None => None end.

Definition pruned_boundary (receipt : option string) : AuditResult Located :=
  let? receipt := ok_or receipt (AnchorRejected "the chain has pruned entries but no prune receipt") in
  let? receipt := map_err SerializationError (receipt_from_slice receipt) in
  let? _ := verify_receipt receipt in
  let? hash := ok_or (from_hex (pr_omitted_terminal_hash receipt)) (StorageError "audit prune receipt terminal hash") in
  Ok (MkLocated hash (pr_cutoff_cursor receipt ≫= cursor_id) (pr_cutoff_cursor receipt)).

(** The loop over one page: the entry, or where the walk stands. *)
Fixpoint walk_page (target next : N) (after : option string) (page : list (string * AuditEntry))
    : Located + (N * option string) :=
  match page with
  | [] => inr (next, after)
  | (cursor, entry) :: rest =>
      if (next =? target)%N then inl (MkLocated (content_hash entry) (Some (e_id entry)) (Some cursor))
      else walk_page target (sat_add U64_MAX next 1) (Some cursor) rest
  end.

Definition chain_ended (next position : N) : AuditError :=
  AnchorRejected ("the chain ended at position " +:+ pretty next +:+ " before position " +:+ pretty position +:+ "; retry").

Fixpoint walk_pages (fuel : nat) (s : S) session_id principal (position next : N) (after : option string)
    : AuditResult Located :=
  match fuel with
  | O => Err (chain_ended next position)
  | Datatypes.S fuel =>
      let? page := load_principal_entries_page s session_id principal after WALK_PAGE in
      match page with
      | [] => Err (chain_ended next position)
      | _ :: _ =>
          match walk_page (sat_sub position 1) next after page with
          | inl located => Ok located
          | inr (next, after) => walk_pages fuel s session_id principal position next after
          end
      end
  end.

Definition walk_start (omitted : N) (current : option AnchorMark) : N * option string :=
  match current with
  | Some mark =>
      if (omitted <=? mk_position mark)%N && bool_decide (is_Some (mk_cursor mark))
      then (mk_position mark, mk_cursor mark) else (omitted, None)
  | None => (omitted, None)
  end.

Definition locate_position (s : S) session_id principal (before : ChainPositions) (omitted : N)
    (current : option AnchorMark) (position : N) : AuditResult Located :=
  if (position <? omitted)%N
  then Err (AnchorRejected ("position " +:+ pretty position +:+ " is inside pruned history (the first " +:+ pretty omitted
              +:+ " entries were pruned)"))
  else if (position =? omitted)%N then pruned_boundary (cp_receipt before)
  else
    let? keys := session_keys s session_id in
    let '(next, after) := walk_start omitted current in
    walk_pages (Datatypes.S (length keys)) s session_id principal position next after.

Definition mark_rejected session_id principal (reason : string) : AuditError :=
  AnchorRejected ("chain " +:+ chain_label session_id principal +:+ ": " +:+ reason).

Definition relabel session_id principal (error : AuditError) : AuditError :=
  match error with AnchorRejected reason => mark_rejected session_id principal reason | other => other end.

(** The checks of [mark_anchored] up to the comparison with the watermark. *)
Definition mark_target (s : S) session_id principal (position : N) (head_hash : ContentHash) (evidence : Value)
    : AuditResult (ChainPositions * N * option string * option AnchorMark * option AuditAnchorMarkResult) :=
  let reject := mark_rejected session_id principal in
  let? _ := map_err reject (check_evidence evidence) in
  if (position =? 0)%N then Err (reject "position 0 anchors no entries")
  else
    let? before := chain_positions s session_id principal in
    let? before := ok_or before (reject "no such audit chain") in
    if cp_prune_pending before then Err (reject "a prune is in progress; retry once it finishes")
    else
      let? omitted := ok_or (cp_omitted_total before)
                        (reject "the number of pruned entries is unknown, so positions cannot be checked") in
      let ends := sat_add U64_MAX omitted (cp_count before) in
      if (ends <? position)%N
      then Err (reject ("position " +:+ pretty position +:+ " is past the chain head at position " +:+ pretty ends))
      else
        let? marked := anchor_mark s session_id principal in
        let? unchanged := map_err reject (compare_with_watermark marked.2 position head_hash) in
        Ok (before, omitted, marked.1, marked.2, unchanged).

Definition mark_anchored session_id principal (position : N) (head_hash : ContentHash) (evidence : Value) (now : Timestamp)
    : storage AuditAnchorMarkResult :=
  let reject := mark_rejected session_id principal in
  do? target := eff_read (fun s => mark_target s session_id principal position head_hash evidence) in
  let '(before, omitted, current_bytes, current, unchanged) := target in
  match unchanged with
  | Some unchanged => eff_lift (Ok unchanged)
  | None =>
      do? located := eff_read (fun s => map_err (relabel session_id principal)
                       (locate_position s session_id principal before omitted current position)) in
      if negb (bool_decide (lc_hash located = head_hash))
      then eff_lift (Err (reject ("head hash " +:+ to_hex head_hash +:+ " does not match the entry at position "
             +:+ pretty (sat_sub position 1) +:+ ", which hashes to " +:+ to_hex (lc_hash located))))
      else
        let mark := MkAnchorMark 1 position head_hash (lc_id located) (lc_cursor located) evidence now in
        do? installed := install_anchor_mark session_id principal current_bytes (cp_receipt before) mark in
        match installed with
        | Pruned => eff_lift (Err (reject "the chain was pruned during verification; retry"))
        | MarkChanged => eff_lift (Err (reject "the watermark changed concurrently; retry"))
        | Installed => fun s => ((set_retention_hold None s).1, Ok (MkAuditAnchorMarkResult true (watermark_of mark)))
        end
  end.

(** ** Archiving and removing *)

Section Archive.
  Context {A : Type} `{!AuditArchiver A}.

Definition on_store {B} (c : eff S AuditError B) : eff (S * A) AuditError B :=
  fun w => let '(s, r) := c w.1 in ((s, w.2), r).
Definition on_archive {B} (c : eff A AuditError B) : eff (S * A) AuditError B :=
  fun w => let '(a, r) := c w.2 in ((w.1, a), r).

Record ArchiveScan : Type := MkArchiveScan {
  as_digested : list byte;
  as_written : N;
  as_last_hash : option string;
  as_after : option string;
  as_reached : bool;
}.

Definition archive_start : ArchiveScan := MkArchiveScan [] 0 None None false.

(** One page: what goes to the archive, up to the cutoff. *)
Fixpoint archive_page (cutoff : string) (st : ArchiveScan) (batch : list AuditEntry) (page : list (string * AuditEntry))
    : AuditResult (ArchiveScan * list AuditEntry) :=
  match page with
  | [] => Ok (st, batch)
  | (cursor, entry) :: rest =>
      if str_gt cursor cutoff
      then Ok (MkArchiveScan (as_digested st) (as_written st) (as_last_hash st) (as_after st) true, batch)
      else
        let? encoded := map_err SerializationError (entry_to_vec entry) in
        let reached := bool_decide (cursor = cutoff) in
        let st := MkArchiveScan (as_digested st ++ as_bytes encoded) (sat_add U64_MAX (as_written st) 1)
                    (Some (to_hex (content_hash entry))) (Some cursor) reached in
        if reached then Ok (st, batch ++ [entry]) else archive_page cutoff st (batch ++ [entry]) rest
  end.

Fixpoint archive_pages (fuel : nat) (s : S) session_id principal (cutoff : string) (writer : ArchiveWriter A)
    (st : ArchiveScan) : eff A AuditError (ArchiveWriter A * ArchiveScan) :=
  match fuel with
  | O => eff_lift (Ok (writer, st))
  | Datatypes.S fuel =>
      if as_reached st then eff_lift (Ok (writer, st))
      else
        do? page := eff_lift (load_principal_entries_page s session_id principal (as_after st) ARCHIVE_READ_BATCH) in
        match page with
        | [] => eff_lift (Ok (writer, st))
        | _ :: _ =>
            do? next := eff_lift (archive_page cutoff st [] page) in
            do? writer := archive_write writer next.2 in
            archive_pages fuel s session_id principal cutoff writer next.1
        end
  end.

Definition archive_mismatch (written : N) (receipt : AuditPruneReceipt) : AuditError :=
  StorageError ("audit archive read " +:+ pretty written +:+ " entries that do not match the "
    +:+ pretty (pr_omitted_count receipt) +:+ " the prune removes; the chain changed, retry").

Definition archive_pruned (s : S) log session_id principal (receipt : AuditPruneReceipt) (receipt_bytes : string)
    : eff A AuditError unit :=
  if (pr_omitted_count receipt =? 0)%N then eff_lift (Ok tt)
  else if negb (rl_archiver log) then eff_lift (Ok tt)
  else
    do? pending := eff_lift (prune_plan_pending s session_id principal) in
    if pending : bool then eff_lift (Ok tt)
    else
      do? cutoff := eff_lift (ok_or (pr_cutoff_cursor receipt)
                      (StorageError "audit prune receipt omits entries but has no cutoff")) in
      do? writer := archive_begin receipt receipt_bytes in
      do? keys := eff_lift (session_keys s session_id) in
      do? done := archive_pages (Datatypes.S (length keys)) s session_id principal cutoff writer archive_start in
      let st := done.2 in
      if negb (as_written st =? pr_omitted_count receipt)%N
         || negb (bool_decide (to_hex (derive_key_hash ARCHIVE_CONTEXT (as_digested st)) = pr_omitted_digest receipt))
         || negb (bool_decide (as_last_hash st = Some (pr_omitted_terminal_hash receipt)))
      then eff_lift (Err (archive_mismatch (as_written st) receipt))
      else archive_commit done.1.

(** The loop of [persist_prune]: the plan is resumed until its receipt is
    installed. *)
Fixpoint resume_plan (pages : nat) session_id principal (keep_entries : N) (encoded : string) : storage AuditPruneReceipt :=
  match pages with
  | O => eff_lift (Err (StorageError "audit prune remains resumable after bounded page budget"))
  | Datatypes.S pages =>
      do? _ := prune_chain_durable session_id principal keep_entries encoded in
      do? current := eff_read (fun s => prune_receipt s session_id principal) in
      if bool_decide (current = Some encoded)
      then eff_lift (map_err SerializationError (receipt_from_slice encoded))
      else resume_plan pages session_id principal keep_entries encoded
  end.

Definition persist_prune log session_id principal (receipt : AuditPruneReceipt) : eff (S * A) AuditError AuditPruneReceipt :=
  do? encoded := eff_lift (map_err SerializationError (receipt_to_vec receipt)) in
  do? _ := (fun w => on_archive (archive_pruned w.1 log session_id principal receipt encoded) w) in
  on_store (resume_plan MAX_RESUME_PAGES session_id principal (N.min (pr_retained_count receipt) USIZE_MAX) encoded).

Definition prune_chain_segment log session_id principal policy (selected_segment : option (N * option N))
    : eff (S * A) AuditError AuditPruneReceipt :=
  do? receipt := eff_read (fun w => sign_prune_receipt w.1 log session_id principal policy selected_segment) in
  persist_prune log session_id principal receipt.

Definition prune_chain log session_id principal policy : eff (S * A) AuditError AuditPruneReceipt :=
  prune_chain_segment log session_id principal policy None.

(** [prune_oldest_impl] of [log/prune_oldest.rs]. *)
Definition prune_oldest log policy : eff (S * A) AuditError (option AuditPruneReceipt) :=
  do? selected := eff_read (fun w => select_prunable_segment w.1 log policy) in
  match selected with
  | None => eff_lift (Ok None)
  | Some selected =>
      do? receipt := prune_chain_segment log (ps_session selected) (ps_principal selected)
                       (MkAuditRetentionPolicy (ps_retain_entries selected) (retain_bytes policy))
                       (Some (ps_segment selected, ps_seal_ordinal selected)) in
      eff_lift (Ok (Some receipt))
  end.

Definition hold_reason (reason : string) : string :=
  "system audit retention cap reached; entries are kept over the cap because pruning would remove unanchored history: "
  +:+ reason.

Definition relieve_retention_cap log : eff (S * A) AuditError bool :=
  fun w =>
    match prune_oldest log (MkAuditRetentionPolicy DEFAULT_AUTO_RETENTION_ENTRIES None) w with
    | (w, Ok pruned) => (w, Ok (bool_decide (is_Some pruned)))
    | (w, Err (UnanchoredPrune reason)) =>
        on_store (do? _ := set_retention_hold (Some (hold_reason reason)) in eff_lift (Ok true)) w
    | (w, Err error) => (w, Err error)
    end.
End Archive.
End Retention.
