(* ===== verification/AuditKeeping.v ===== *)
(** * What retention keeps

    Theorems about [AuditRetention]: paging through a chain reads the chain,
    the scan keeps the longest suffix within the policy, a signed receipt
    anchors what it keeps, and the removal a receipt describes is the archive's
    contents and never reaches past the chain's watermark. *)

From stdpp Require Import sorting pretty.
From S2P Require Import Prelude Profile Kv Bytes Cbor Crypto KeyRegistry AuditEntry AuditChain AuditLog.
From S2P Require Import AuditStorage CrashLogic AuditDurability AuditHistory AuditPrune AuditPruning AuditRetention.
From Stdlib Require Import Ascii.
Local Open Scope string_scope.
Local Open Scope list_scope.

#[local] Existing Instance ideal_store.

Lemma StronglySorted_list_filter {A : Type} (R : A -> A -> Prop) (p : A -> bool) (l : list A) :
  StronglySorted R l -> StronglySorted R (List.filter p l).
Proof.
  intros Hs. induction Hs as [|x l Hs IH Hx]; [constructor|]. cbn. destruct (p x); [|done]. constructor; [done|].
  rewrite Forall_forall in *. intros y Hy. apply Hx. apply list_elem_of_In, filter_In in Hy as [Hy _]. by apply list_elem_of_In.
Qed.

Lemma filter_sorted_keys_ext (m m' : KvMap) ns prefix (p : string -> bool) :
  (forall k, p k = true -> m' !! (ns, k) = m !! (ns, k)) ->
  List.filter p (sorted_keys m' ns prefix) = List.filter p (sorted_keys m ns prefix).
Proof.
  intros Hp. apply (Sorted_unique String.le);
    [apply StronglySorted_Sorted, StronglySorted_list_filter, sorted_keys_sorted..|].
  apply NoDup_Permutation; [apply NoDup_ListNoDup, List.NoDup_filter, NoDup_ListNoDup, sorted_keys_NoDup..|].
  intros k. rewrite !list_elem_of_In, !filter_In, <- !list_elem_of_In, !elem_of_sorted_keys.
  split; intros [[Hk ?] Hpk]; rewrite (Hp k Hpk) in *; done.
Qed.

(** ** The session's listing *)

Section Listing.
  Context `{Crypto} `{AuditSerde} `{UuidText} `{!StorageCodec} `{PruneCodec} `{ReceiptCodec}.
  Implicit Types (m : KvMap) (session_id : Uuid) (principal : option string) (l : list (string * AuditEntry)).

Definition index_keys m session_id : list string := sorted_keys m NS_SESSION_ENTRIES (uuid_to_string session_id +:+ ":").

(** The session's entries under their index keys, in the order of the keys. *)
Definition listing m session_id : AuditResult (list (string * AuditEntry)) := try_map (page_entry m) (index_keys m session_id).

(** The entries of one chain. *)
Definition chain_part principal l : list (string * AuditEntry) :=
  List.filter (fun found => bool_decide (e_principal found.2 = principal)) l.

Definition after_cursor (after : option string) l : list (string * AuditEntry) :=
  List.filter (fun found => after_key after found.1) l.

Lemma page_entry_key m key found : page_entry m key = Ok found -> found.1 = key.
Proof. unfold page_entry. intros (id & _ & (o & _ & (e & _ & [= <-])%rbind_Ok)%rbind_Ok)%rbind_Ok. done. Qed.

Lemma entries_keys m keys l : try_map (page_entry m) keys = Ok l -> l.*1 = keys.
Proof. intros Hl%try_map_Ok. induction Hl as [|k found keys l Hk%page_entry_key _ IH]; [done|]. cbn. by rewrite Hk, IH. Qed.

Lemma entries_filter m (p : string -> bool) keys l :
  try_map (page_entry m) keys = Ok l ->
  try_map (page_entry m) (List.filter p keys) = Ok (List.filter (fun found => p found.1) l).
Proof.
  rewrite !try_map_Ok. intros Hl. induction Hl as [|k found keys l Hk _ IH]; [done|]. cbn [List.filter].
  rewrite (page_entry_key _ _ _ Hk). destruct (p k); [by constructor|done].
Qed.

Lemma entries_take m n keys l :
  try_map (page_entry m) keys = Ok l -> try_map (page_entry m) (take n keys) = Ok (take n l).
Proof. rewrite !try_map_Ok. apply Forall2_take. Qed.

Lemma listing_sorted m session_id l :
  listing m session_id = Ok l -> StronglySorted (fun x y => String.le x.1 y.1) l /\ NoDup l.*1.
Proof.
  intros Hl%entries_keys. unfold index_keys in Hl. split; [|rewrite Hl; apply sorted_keys_NoDup].
  pose proof (sorted_keys_sorted m NS_SESSION_ENTRIES (uuid_to_string session_id +:+ ":")) as Hs. rewrite <- Hl in Hs.
  clear Hl. induction l as [|x l IH]; [constructor|]. cbn in Hs. apply StronglySorted_inv in Hs as [Hs Hx].
  constructor; [by apply IH|]. by rewrite Forall_fmap in Hx.
Qed.

Lemma after_length after l : length (after_cursor after l) <= length l.
Proof. unfold after_cursor. induction l as [|x l IH]; [done|]. cbn. destruct (after_key _ _); cbn; lia. Qed.

(** The bound on the pages of a session: its keys. *)
Lemma listing_length m session_id l :
  listing m session_id = Ok l ->
  length (List.filter (starts_with (uuid_to_string session_id +:+ ":")) (map_keys m NS_SESSION_ENTRIES)) = length l.
Proof.
  intros Hl%entries_keys. rewrite <- (length_fmap fst l), Hl. unfold index_keys, sorted_keys. by rewrite merge_sort_Permutation.
Qed.

Lemma after_none l : after_cursor None l = l.
Proof. unfold after_cursor. induction l as [|x l IH]; [done|]. cbn [List.filter after_key from_option]. by f_equal. Qed.

(** The session has no index of the legacy form, or one in the form in use. *)
Definition paged m session_id : Prop :=
  index_keys m session_id <> [] \/ m !! (NS_SESSION_INDEX, uuid_to_string session_id) = None.

Lemma listing_page m session_id l after n :
  listing m session_id = Ok l -> paged m session_id -> 0 < n ->
  load_session_entries_page m session_id after n = Ok (take n (after_cursor after l)).
Proof.
  intros Hl Hlegacy Hn. unfold load_session_entries_page. rewrite st_list_page_ideal. cbn [rbind]. fold (index_keys m session_id).
  pose proof (entries_take m n _ _ (entries_filter m (after_key after) _ _ Hl)) as Hp. fold (after_cursor after l) in Hp.
  pose proof (entries_keys _ _ _ Hp) as Hk.
  destruct (take n (List.filter (after_key after) (index_keys m session_id))) as [|k keys] eqn:Hkeys; [|done].
  apply fmap_nil_inv in Hk. rewrite Hk. destruct after as [a|]; [done|]. rewrite after_none in Hk.
  assert (l = []) as -> by (destruct n, l; [lia|lia|done|done]). destruct Hlegacy as [Hne|Hnone].
  - apply entries_keys in Hl. by rewrite <- Hl in Hne.
  - unfold get_legacy_session_entry_ids, st_get. cbn [kv_get ideal_store map_err rbind]. rewrite Hnone. cbn [rbind]. by destruct n.
Qed.

(** ** Pages of a chain *)

Lemma push_entries_exact m principal limit keys : forall result l,
  try_map (page_entry m) keys = Ok l -> length result < limit ->
  push_entries m principal limit result keys = Ok (take limit (result ++ chain_part principal l)).
Proof.
  induction keys as [|k keys IH]; intros result l Hl Hlen.
  - injection Hl as <-. cbn. by rewrite app_nil_r, take_ge by lia.
  - apply try_map_Ok in Hl. inversion Hl as [|? found ? l' Hk Hr]; subst. apply try_map_Ok in Hr. cbn [push_entries]. rewrite Hk.
    cbn [rbind chain_part List.filter]. case_bool_decide; [|by apply IH].
    destruct (Nat.eqb_spec (length (result ++ [found])) limit) as [He|Hne].
    + rewrite <- He, <- (take_app_length (result ++ [found]) (chain_part principal l')) at 1. by rewrite <- app_assoc.
    + rewrite (IH _ l') by (done || (rewrite length_app in *; cbn in *; lia)). by rewrite <- app_assoc.
Qed.

Lemma chain_part_app principal l1 l2 : chain_part principal (l1 ++ l2) = chain_part principal l1 ++ chain_part principal l2.
Proof. apply List.filter_app. Qed.

Lemma chain_part_length principal l : length (chain_part principal l) <= length l.
Proof. unfold chain_part. induction l as [|x l IH]; [done|]. cbn. destruct (bool_decide _); cbn; lia. Qed.

Lemma take_app_take {A : Type} n (a b : list A) : take n (take n a ++ b) = take n (a ++ b).
Proof. rewrite !take_app, take_take, length_take, Nat.min_id. f_equal. f_equal. lia. Qed.

Lemma principal_pages_exact m session_id l principal limit :
  listing m session_id = Ok l -> forall fuel cursor result,
  length (after_cursor cursor l) < fuel -> length result <= limit ->
  principal_pages fuel m (uuid_to_string session_id +:+ ":") principal limit cursor result =
  Ok (take limit (result ++ chain_part principal (after_cursor cursor l))).
Proof.
  intros Hl fuel. destruct (listing_sorted _ _ _ Hl) as [Hsorted Hnd].
  induction fuel as [|fuel IH]; intros cursor result Hf Hr; [lia|]. cbn [principal_pages].
  destruct (Nat.ltb_spec (length result) limit) as [Hlt|Hge]; [|by rewrite take_app_le, take_ge by lia].
  set (n := Nat.min _ _). rewrite st_list_page_ideal. cbn [rbind]. fold (index_keys m session_id).
  pose proof (entries_take m n _ _ (entries_filter m (after_key cursor) _ _ Hl)) as Hp. fold (after_cursor cursor l) in Hp.
  pose proof (entries_keys _ _ _ Hp) as Hk. set (keys := take n (List.filter _ (index_keys _ _))) in *.
  assert (last keys = fst <$> last (take n (after_cursor cursor l))) as Hlast by (rewrite <- Hk; apply fmap_last).
  assert (length keys = length (take n (after_cursor cursor l))) as Hlen by (rewrite <- Hk; apply length_fmap).
  assert (0 < n) as Hn by lia. rewrite Hlast.
  destruct (last (take n (after_cursor cursor l))) as [[x e]|] eqn:Hx; cbn [fmap option_fmap option_map].
  - rewrite (push_entries_exact _ _ _ _ _ _ Hp Hlt). cbn [rbind]. destruct (Nat.ltb_spec (length keys) n) as [Hshort|_].
    + rewrite (take_ge (after_cursor cursor l)); [done|]. rewrite Hlen, length_take in Hshort. lia.
    + assert (after_cursor (Some x) l = drop n (after_cursor cursor l)) as Hrest by apply (page_rest fst l cursor n (x, e) Hsorted Hnd Hx).
      cbn [fst]. rewrite IH, Hrest, take_app_take, <- app_assoc, <- chain_part_app, take_drop; [done| |].
      * rewrite Hrest, length_drop. destruct (after_cursor cursor l); [by destruct n|]. cbn [length] in *. lia.
      * rewrite length_take. lia.
  - apply last_None in Hx. destruct (after_cursor cursor l); [|by destruct n; [lia|]]. cbn. by rewrite app_nil_r, take_ge by lia.
Qed.

Lemma principal_page_spec m session_id l principal after limit :
  listing m session_id = Ok l ->
  load_principal_entries_page m session_id principal after limit =
  Ok (take limit (chain_part principal (after_cursor after l))).
Proof.
  intros Hl. unfold load_principal_entries_page, session_keys. cbn [kv_list_keys_with_prefix ideal_store map_err rbind].
  rewrite (principal_pages_exact _ _ _ _ _ Hl); [done| |cbn; lia]. apply le_n_S.
  rewrite (listing_length _ _ _ Hl). apply after_length.
Qed.

(** Reading a page of a chain returns the chain's next entries: the
    entries of the principal among the session's that come after the cursor, in
    index order, up to the limit, however many pages of the session's index the
    read goes through. *)
Theorem principal_page_exact m session_id l principal after limit :
  listing m session_id = Ok l ->
  load_principal_entries_page m session_id principal after limit =
  Ok (take limit (chain_part principal (after_cursor after l))).
Proof. apply principal_page_spec. Qed.
End Listing.

(** ** The scan *)

Section Scanning.
  Context `{Crypto} `{AuditSerde} `{UuidText} `{!StorageCodec} `{PruneCodec} `{ReceiptCodec}.
  Context (principal : option string) (policy : AuditRetentionPolicy).
  Implicit Types (m : KvMap) (session_id : Uuid) (om kept l : list (string * AuditEntry)).

(** The JSON text of an entry, and of several. *)
Definition text (found : string * AuditEntry) : string := match entry_to_vec found.2 with Ok text => text | Err _ => "" end.
Definition texts l : list byte := List.concat ((fun found => as_bytes (text found)) <$> l).
Definition weights l : N := foldr (fun found n => (str_len (text found) + n)%N) 0%N l.

(** What the policy lets a chain keep. *)
Definition within kept : Prop :=
  (N.of_nat (length kept) <= retain_entries policy)%N /\
  match retain_bytes policy with Some limit => (weights kept <= limit)%N \/ length kept <= 1 | None => True end.

(** Nothing the scan counts overflows, and every entry has a text. *)
Definition countable l : Prop :=
  (N.of_nat (length l) <= U64_MAX)%N /\ (weights l <= U64_MAX)%N /\ Forall (fun found => is_ok (entry_to_vec found.2) = true) l.

(** The scan's state when it has omitted [om] and keeps [kept]. *)
Definition scan_of om kept : Scan :=
  MkScan kept.*2 kept.*1 (N.of_nat (length om)) (weights om) (from_option (fun found => content_hash found.2) ContentHash_zero (last om))
    (texts om) (weights kept) (fst <$> last om).

(** The same while an entry has been read and its cursor not stored yet. *)
Definition scan_reading om kept (x : string * AuditEntry) : Scan :=
  MkScan (kept ++ [x]).*2 kept.*1 (N.of_nat (length om)) (weights om)
    (from_option (fun found => content_hash found.2) ContentHash_zero (last om)) (texts om) (weights (kept ++ [x])) (fst <$> last om).

Lemma weights_cons x l : weights (x :: l) = (str_len (text x) + weights l)%N.
Proof. done. Qed.
Lemma weights_nil : weights [] = 0%N.
Proof. done. Qed.
#[local] Arguments weights : simpl never.
#[local] Arguments texts : simpl never.

Lemma weights_app l1 l2 : weights (l1 ++ l2) = (weights l1 + weights l2)%N.
Proof. induction l1 as [|x l1 IH]; [done|]. cbn [app]. rewrite !weights_cons, IH. lia. Qed.

Lemma texts_app l1 l2 : texts (l1 ++ l2) = texts l1 ++ texts l2.
Proof. unfold texts. by rewrite fmap_app, List.concat_app. Qed.

Lemma text_Ok found : is_ok (entry_to_vec found.2) = true -> entry_to_vec found.2 = Ok (text found).
Proof. unfold text. by destruct (entry_to_vec found.2). Qed.

Lemma over_policy_spec om kept x : over_policy policy (scan_reading om kept x) = false <-> within (kept ++ [x]).
Proof.
  unfold over_policy, within. cbn [sc_retained sc_retained_bytes scan_reading]. rewrite length_fmap, orb_false_iff, N.ltb_ge.
  destruct (retain_bytes policy) as [limit|]; [|naive_solver]. rewrite andb_false_iff, N.ltb_ge, Nat.ltb_ge. done.
Qed.

Lemma within_suffix l kept : within (l ++ kept) -> within kept.
Proof.
  intros [Hn Hb]. rewrite length_app in *. split; [lia|]. destruct (retain_bytes policy); [|done].
  rewrite weights_app in Hb. destruct Hb; [left|right]; lia.
Qed.

Lemma within_prefix l kept : kept <> [] -> within (kept ++ l) -> within kept.
Proof.
  intros Hne [Hn Hb]. rewrite length_app in *. split; [lia|]. destruct (retain_bytes policy); [|done].
  rewrite weights_app in Hb. destruct Hb; [left|right]; lia.
Qed.

Lemma omit_oldest_spec om o kept x :
  countable (om ++ (o :: kept) ++ [x]) ->
  omit_oldest (scan_reading om (o :: kept) x) = Ok (scan_reading (om ++ [o]) kept x).
Proof.
  intros (Hn & Hw & Ht). rewrite !Forall_app, Forall_cons in Ht. destruct Ht as (_ & [Ho _] & _).
  unfold omit_oldest, scan_reading. cbn [sc_cursors sc_retained fmap list_fmap app]. rewrite (text_Ok _ Ho). cbn [map_err rbind].
  assert (weights [o] = str_len (text o)) as Hwo by (rewrite weights_cons, weights_nil; lia).
  rewrite !length_app, !weights_app, weights_cons in *. cbn [length sc_omitted_count sc_omitted_bytes sc_retained_bytes sc_digested] in *.
  rewrite !sat_add_exact, last_snoc, texts_app by lia. cbn [from_option fmap option_fmap option_map]. f_equal.
  assert (texts [o] = as_bytes (text o)) as -> by (unfold texts; cbn; apply app_nil_r).
  f_equal; unfold sat_sub; rewrite ?weights_cons, ?weights_app, ?weights_cons, ?length_app; cbn [length]; lia.
Qed.

Lemma omit_while_spec x : (1 <= retain_entries policy)%N -> forall kept om fuel,
  countable (om ++ kept ++ [x]) -> length kept < fuel ->
  exists om2 kept2, kept = om2 ++ kept2 /\ omit_while fuel policy (scan_reading om kept x) = Ok (scan_reading (om ++ om2) kept2 x) /\
    within (kept2 ++ [x]) /\ (forall om' o, om2 = om' ++ [o] -> ~ within (o :: kept2 ++ [x])).
Proof.
  intros Hp. induction kept as [|o kept IH]; intros om fuel Hc Hf; (destruct fuel as [|fuel]; [lia|]); cbn [omit_while].
  - assert (within ([] ++ [x])) as Hw by (split; [cbn; lia|destruct (retain_bytes policy); [by right|done]]).
    rewrite (proj2 (over_policy_spec om [] x) Hw). exists [], [].
    split_and!; [done|by rewrite app_nil_r|done|]. intros om' o Ho. by destruct om'.
  - destruct (over_policy policy (scan_reading om (o :: kept) x)) eqn:Ho.
    + rewrite omit_oldest_spec by done. cbn [rbind].
      destruct (IH (om ++ [o]) fuel) as (om2 & kept2 & -> & Hr & Hw & Hmax); [by rewrite <- app_assoc|cbn in Hf; lia|].
      exists (o :: om2), kept2. split_and!; [done|by rewrite Hr, <- app_assoc|done|].
      intros om' y Hy. destruct om2 as [|o2 om2 _] using rev_ind.
      * destruct om' as [|? []]; [|done|done]. injection Hy as <-.
        rewrite app_comm_cons, <- (over_policy_spec om (o :: kept2)). cbn [app] in Ho. congruence.
      * rewrite app_comm_cons in Hy. apply app_inj_tail in Hy as [_ <-]. by apply (Hmax om2).
    + exists [], (o :: kept). split_and!; [done|by rewrite app_nil_r|by apply over_policy_spec in Ho|].
      intros om' y Hy. by destruct om'.
Qed.

(** Of the chain read so far, [kept] is what the policy keeps. *)
Definition scanned om kept : Prop := within kept /\ forall om' o, om = om' ++ [o] -> ~ within (o :: kept).

Lemma scan_entry_spec om kept x :
  (1 <= retain_entries policy)%N -> e_principal x.2 = principal -> countable (om ++ kept ++ [x]) -> scanned om kept ->
  exists om' kept', om ++ kept ++ [x] = om' ++ kept' /\ scan_entry principal policy (scan_of om kept) x = Ok (scan_of om' kept') /\
    scanned om' kept'.
Proof.
  intros Hp Hx Hc [_ Hmax]. destruct (omit_while_spec x Hp kept om (Datatypes.S (length (kept ++ [x]).*2)) Hc) as (om2 & kept2 & -> & Hr & Hw & Hom2).
  { rewrite length_fmap, length_app. lia. }
  exists (om ++ om2), (kept2 ++ [x]). split; [by rewrite <- !app_assoc|]. unfold scan_entry. rewrite bool_decide_true by done. cbn [negb].
  destruct Hc as (Hn & Hs & Ht). rewrite !Forall_app, !Forall_cons in Ht. destruct Ht as (_ & _ & Hx' & _).
  rewrite (text_Ok _ Hx'). cbn [map_err rbind].
  assert (sat_add U64_MAX (sc_retained_bytes (scan_of om (om2 ++ kept2))) (str_len (text x)) = weights ((om2 ++ kept2) ++ [x])) as Hsat.
  { cbn [sc_retained_bytes scan_of]. rewrite !weights_app, weights_cons, weights_nil in *. rewrite sat_add_exact by lia. lia. }
  rewrite Hsat. cbn [scan_of sc_retained sc_cursors sc_omitted_count sc_omitted_bytes sc_omitted_terminal_hash sc_digested sc_cutoff_cursor].
  change [x.2] with [x].*2. rewrite <- fmap_app. fold (scan_reading om (om2 ++ kept2) x). rewrite Hr. cbn [rbind].
  split; [unfold scan_of; by rewrite (fmap_app fst)|]. split; [done|]. intros om' o Ho Hwo.
  destruct om2 as [|o2 om2 _] using rev_ind.
  - rewrite app_nil_r in Ho. apply (Hmax om' o Ho). rewrite app_comm_cons in Hwo. by apply within_prefix in Hwo.
  - rewrite app_assoc in Ho. apply app_inj_tail in Ho as [_ <-]. by apply (Hom2 om2 o2).
Qed.

Lemma scan_page_spec page : (1 <= retain_entries policy)%N -> forall om kept,
  countable (om ++ kept ++ chain_part principal page) -> scanned om kept ->
  exists om' kept', om ++ kept ++ chain_part principal page = om' ++ kept' /\
    scan_page principal policy (scan_of om kept) page = Ok (scan_of om' kept') /\ scanned om' kept'.
Proof.
  intros Hp. induction page as [|x page IH]; intros om kept Hc Hs; cbn [scan_page].
  { exists om, kept. by rewrite app_nil_r. }
  cbn [chain_part List.filter] in *. case_bool_decide as Hx.
  - rewrite (list.cons_middle x), !app_assoc in Hc. destruct (scan_entry_spec om kept x) as (om1 & kept1 & Heq & Hr & Hs1); [done|done| |done|].
    { destruct Hc as (Hn & Hw & Ht). rewrite length_app, weights_app, Forall_app, <- !app_assoc in *.
      destruct Ht. split_and!; [lia|lia|done]. }
    rewrite Hr. cbn [rbind]. rewrite app_assoc in Heq. destruct (IH om1 kept1) as (om' & kept' & Heq' & Hr' & Hs'); [|done|].
    { by rewrite app_assoc, <- Heq. }
    exists om', kept'. split_and!; [|done|done]. etrans; [|exact Heq']. by rewrite (app_assoc om1), <- Heq, <- !app_assoc.
  - unfold scan_entry at 1. rewrite bool_decide_false by done. cbn [negb rbind]. by apply IH.
Qed.

Lemma scan_page_app page rest : forall st,
  scan_page principal policy st (page ++ rest) = let? st := scan_page principal policy st page in scan_page principal policy st rest.
Proof. induction page as [|x page IH]; intros st; [done|]. cbn [scan_page app]. destruct (scan_entry principal policy st x); [apply IH|done]. Qed.

Lemma scan_pages_spec m session_id l :
  listing m session_id = Ok l -> paged m session_id -> forall fuel after st,
  length (after_cursor after l) < fuel ->
  scan_pages fuel m session_id principal policy after st = scan_page principal policy st (after_cursor after l).
Proof.
  intros Hl Hpaged fuel. destruct (listing_sorted _ _ _ Hl) as [Hsorted Hnd].
  induction fuel as [|fuel IH]; intros after st Hf; [lia|]. cbn [scan_pages].
  rewrite (listing_page _ _ _ _ _ Hl Hpaged) by lia. cbn [rbind].
  destruct (last (take 256 (after_cursor after l))) as [[x e]|] eqn:Hx.
  - assert (after_cursor (Some x) l = drop 256 (after_cursor after l)) as Hrest by apply (page_rest fst l after 256 (x, e) Hsorted Hnd Hx).
    transitivity (let? st := scan_page principal policy st (take 256 (after_cursor after l)) in
                  scan_page principal policy st (drop 256 (after_cursor after l))).
    + destruct (scan_page principal policy st _) as [st'|]; [|done]. cbn [rbind]. rewrite <- Hrest. apply IH.
      rewrite Hrest, length_drop. destruct (after_cursor after l); [done|]. cbn [length] in *. lia.
    + by rewrite <- scan_page_app, take_drop.
  - apply last_None in Hx. by destruct (after_cursor after l).
Qed.

Lemma scan_retention_spec m session_id l :
  listing m session_id = Ok l -> paged m session_id -> (1 <= retain_entries policy)%N -> countable (chain_part principal l) ->
  exists om kept, chain_part principal l = om ++ kept /\
    scan_retention m session_id principal policy = Ok (finish_scan (scan_of om kept)) /\
    within kept /\ forall longer, longer `suffix_of` chain_part principal l -> within longer -> length longer <= length kept.
Proof.
  intros Hl Hpaged Hp Hc. destruct (scan_page_spec l Hp [] []) as (om & kept & Heq & Hr & Hw & Hmax); [done| |].
  { split; [split; [cbn; lia|destruct (retain_bytes policy); [right; cbn; lia|done]]|]. intros om' o Ho. by destruct om'. }
  exists om, kept. split_and!; [done| |done|].
  - unfold scan_retention, session_keys. cbn [kv_list_keys_with_prefix ideal_store map_err rbind].
    rewrite (scan_pages_spec _ _ _ Hl Hpaged), after_none; [by change scan_start with (scan_of [] []); rewrite Hr|].
    rewrite after_none, (listing_length _ _ _ Hl). lia.
  - intros longer Hsuf Hlong. cbn [app] in Heq. rewrite Heq in Hsuf. destruct om as [|o om _] using rev_ind; [by apply suffix_length in Hsuf|].
    rewrite <- app_assoc in Hsuf. destruct (decide (length longer <= length kept)) as [|Hgt]; [done|].
    destruct (suffix_weak_total (o :: kept) longer (om ++ o :: kept)) as [[x ->]|[x Hx]]; [by eexists|done| |].
    + by apply within_suffix, (Hmax om o eq_refl) in Hlong.
    + assert (x = []) as -> by (apply (f_equal length) in Hx; rewrite length_app in Hx; cbn in Hx; destruct x; [done|cbn in Hx; lia]).
      cbn in Hx. rewrite <- Hx in Hlong. by apply (Hmax om o eq_refl) in Hlong.
Qed.

(** C19: the retention scan keeps the longest suffix of the chain within the
    policy.  It goes through the session's pages once, never runs out of
    cursors, and what it reports is exactly that: the entries it omits are the
    rest of the chain, its counts, bytes and digest are theirs, the cutoff is
    the cursor of the last of them and the terminal hash its hash. *)
Theorem scan_keeps_longest_suffix m session_id l :
  listing m session_id = Ok l -> paged m session_id -> (1 <= retain_entries policy)%N -> countable (chain_part principal l) ->
  exists om kept, chain_part principal l = om ++ kept /\
    scan_retention m session_id principal policy = Ok (finish_scan (scan_of om kept)) /\
    within kept /\ forall longer, longer `suffix_of` chain_part principal l -> within longer -> length longer <= length kept.
Proof. apply scan_retention_spec. Qed.
End Scanning.

(** ** Receipts *)

Lemma hex_decode_text (bs : list byte) : hex_decode (of_bytes (hex_text bs)) = Some bs.
Proof.
  induction bs as [|b bs IH]; [done|]. change (hex_text (b :: bs)) with (hex_digits b ++ hex_text bs).
  unfold of_bytes in *. destruct b as [[] [] [] [] [] [] [] []]; cbn in *; by rewrite IH.
Qed.

Lemma from_to_hex (h : ContentHash) : from_hex (to_hex h) = Some h.
Proof. unfold from_hex, to_hex. rewrite hex_decode_text. apply array_try_from_arr. Qed.

#[local] Instance to_hex_inj : Inj (=) (=) to_hex.
Proof. intros h h' Heq. apply (inj Some). by rewrite <- !from_to_hex, Heq. Qed.

Section Receipts.
  Context `{CryptoLaws} `{AuditSerde} `{UuidText} `{!StorageCodec} `{PruneCodec} `{ReceiptCodec}.
  Implicit Types (m : KvMap) (session_id : Uuid) (principal : option string) (om kept l : list (string * AuditEntry)).

Lemma sign_prune_receipt_Ok m log session_id principal policy selected r :
  sign_prune_receipt m log session_id principal policy selected = Ok r ->
  exists scan, check_policy policy = Ok tt /\ scan_retention m session_id principal policy = Ok scan /\
    check_prune_reach m log session_id principal (rs_omitted_count scan) = Ok tt /\ verify_receipt r = Ok tt /\
    pr_omitted_count r = rs_omitted_count scan /\ pr_cutoff_cursor r = rs_cutoff_cursor scan /\
    pr_omitted_digest r = rs_omitted_digest scan /\ pr_omitted_terminal_hash r = rs_omitted_terminal_hash scan /\
    pr_first_retained_previous_hash r = rs_first_retained_previous_hash scan /\ pr_retained_head r = rs_retained_head scan /\
    prior_receipt m session_id principal = Ok (pr_generation r, pr_prior_receipt_hash r).
Proof.
  unfold sign_prune_receipt. intros ([] & Hp & (scan & Hs & (sel & _ & (prior & Hprior & ([] & Hreach & Hr)%rbind_Ok)%rbind_Ok)%rbind_Ok)%rbind_Ok)%rbind_Ok.
  destruct (archive_signer log) as [signer epoch]. apply rbind_Ok in Hr as (bytes & Hb & [= <-]). exists scan.
  split_and!; try done; [|by destruct prior].
  unfold verify_receipt. cbn [pr_schema with_signature N.eqb Pos.eqb negb].
  replace (signing_bytes _) with (Ok (E := AuditError) bytes) by (rewrite <- Hb; done). cbn [rbind pr_public_key pr_signature with_signature].
  by rewrite sign_verify.
Qed.

(** A receipt for a prune that omits [om] and keeps [kept]. *)
Record describes (r : AuditPruneReceipt) om kept : Prop := {
  ds_verified : verify_receipt r = Ok tt;
  ds_count : pr_omitted_count r = N.of_nat (length om);
  ds_cutoff : pr_cutoff_cursor r = fst <$> last om;
  ds_digest : pr_omitted_digest r = to_hex (derive_key_hash ARCHIVE_CONTEXT (texts om));
  ds_terminal : pr_omitted_terminal_hash r = to_hex (from_option (fun found => content_hash found.2) ContentHash_zero (last om));
  ds_first : pr_first_retained_previous_hash r =
    to_hex (from_option (fun found => e_previous_hash found.2) ContentHash_zero (hd_error kept));
  ds_head : pr_retained_head r = (fun found => e_id found.2) <$> last kept;
}.

Lemma receipt_of_scan m log session_id principal policy selected l r :
  listing m session_id = Ok l -> paged m session_id -> countable (chain_part principal l) ->
  sign_prune_receipt m log session_id principal policy selected = Ok r ->
  exists om kept, chain_part principal l = om ++ kept /\ within policy kept /\
    (forall longer, longer `suffix_of` chain_part principal l -> within policy longer -> length longer <= length kept) /\
    describes r om kept.
Proof.
  intros Hl Hpaged Hc (scan & Hp & Hs & _ & Hv & Hn & Hcut & Hdig & Hterm & Hfirst & Hhead & _)%sign_prune_receipt_Ok.
  assert (1 <= retain_entries policy)%N as Hpos.
  { unfold check_policy in Hp. destruct (N.eqb_spec (retain_entries policy) 0); [done|lia]. }
  destruct (scan_retention_spec principal policy m session_id l) as (om & kept & Heq & Hscan & Hw & Hmax); [done..|].
  assert (scan = finish_scan (scan_of om kept)) as -> by congruence.
  exists om, kept. split_and!; [done..|]. split; [done|done|done|done|done| |].
  - rewrite Hfirst. cbn [finish_scan rs_first_retained_previous_hash scan_of sc_retained]. f_equal. by destruct kept.
  - rewrite Hhead. cbn [finish_scan rs_retained_head scan_of sc_retained]. rewrite fmap_last. by destruct (last kept).
Qed.

Lemma anchor_spec r om first rest : describes r om (first :: rest) ->
  verify_anchor r (e_previous_hash first.2) =
  Ok match last om with Some o => follows first.2 o.2 | None => is_zero (e_previous_hash first.2) end.
Proof.
  intros Hd. unfold verify_anchor. rewrite (ds_verified _ _ _ Hd), (ds_terminal _ _ _ Hd), (ds_first _ _ _ Hd).
  cbn [rbind hd_error from_option].
  rewrite (bool_decide_true (to_hex (e_previous_hash first.2) = _)), andb_true_r by done. f_equal. unfold follows, is_zero.
  destruct (last om); apply bool_decide_ext; cbn [from_option]; (split; [by intros ?%(inj to_hex)|by intros ->]).
Qed.

(** A signed prune receipt anchors what the prune keeps.  The receipt
    verifies, it counts and ends at what the scan omits, and checking the first
    kept entry against it succeeds exactly when that entry follows the last
    omitted one, or starts its chain when the prune omits nothing. *)
Theorem receipt_anchors_kept m log session_id principal policy selected l r :
  listing m session_id = Ok l -> paged m session_id -> countable (chain_part principal l) ->
  sign_prune_receipt m log session_id principal policy selected = Ok r ->
  exists om kept, chain_part principal l = om ++ kept /\ within policy kept /\ describes r om kept /\
    forall first rest, kept = first :: rest ->
      verify_anchor r (e_previous_hash first.2) =
      Ok match last om with Some o => follows first.2 o.2 | None => is_zero (e_previous_hash first.2) end.
Proof.
  intros Hl Hpaged Hc Hr. destruct (receipt_of_scan _ _ _ _ _ _ _ _ Hl Hpaged Hc Hr) as (om & kept & Heq & Hw & _ & Hd).
  exists om, kept. split_and!; [done..|]. intros first rest ->. by apply (anchor_spec _ _ _ rest).
Qed.

(** C40: a prune that finds nothing to remove breaks the anchor of a chain
    that was pruned before.  Its receipt replaces the one that named the last
    removed entry, and names the zero hash instead, so the first kept entry no
    longer verifies against the installed receipt. *)
Theorem empty_prune_loses_anchor m log session_id principal policy selected l first rest r :
  listing m session_id = Ok l -> paged m session_id -> countable (chain_part principal l) ->
  chain_part principal l = first :: rest -> is_zero (e_previous_hash first.2) = false -> within policy (first :: rest) ->
  sign_prune_receipt m log session_id principal policy selected = Ok r ->
  pr_omitted_count r = 0%N /\ verify_anchor r (e_previous_hash first.2) = Ok false.
Proof.
  intros Hl Hpaged Hc Hch Hz Hall Hr. destruct (receipt_of_scan _ _ _ _ _ _ _ _ Hl Hpaged Hc Hr) as (om & kept & Heq & _ & Hmax & Hd).
  rewrite Hch in *. assert (om = []) as ->.
  { specialize (Hmax _ (reflexivity _) Hall). apply (f_equal length) in Heq. rewrite length_app in Heq. destruct om; [done|]. cbn in *. lia. }
  cbn [app] in Heq. subst kept. split; [apply (ds_count _ _ _ Hd)|]. rewrite (anchor_spec r [] first rest Hd). cbn [last]. by rewrite Hz.
Qed.
End Receipts.

(** ** The archive *)

Section Archived.
  Context `{Crypto} `{AuditSerde} `{UuidText} `{!StorageCodec} `{PruneCodec} `{ReceiptCodec} {A : Type} `{!AuditArchiver A}.
  Implicit Types (m : KvMap) (session_id : Uuid) (principal : option string) (l : list (string * AuditEntry)).

(** The entries at or before a cursor. *)
Definition upto (cutoff : string) l : list (string * AuditEntry) := List.filter (fun found => negb (str_gt found.1 cutoff)) l.

Definition cursor_sorted l : Prop := StronglySorted (fun x y => String.le x.1 y.1) l /\ NoDup l.*1.

Lemma filter_sorted (p : string * AuditEntry -> bool) l : cursor_sorted l -> cursor_sorted (List.filter p l).
Proof.
  intros [Hs Hnd]. split; [by apply StronglySorted_list_filter|]. clear Hs.
  induction l as [|x l IH]; [done|]. cbn in *. apply NoDup_cons in Hnd as [Hx Hnd]. destruct (p x); [|by apply IH].
  cbn. apply NoDup_cons. split; [|by apply IH]. intros Hin. apply Hx. apply list_elem_of_fmap in Hin as (y & -> & Hy).
  apply list_elem_of_fmap. exists y. split; [done|]. apply list_elem_of_In, filter_In in Hy as [Hy _]. by apply list_elem_of_In.
Qed.

Lemma sorted_app l1 l2 : cursor_sorted (l1 ++ l2) -> cursor_sorted l1 /\ cursor_sorted l2.
Proof.
  intros [Hs Hnd]. rewrite fmap_app in Hnd. apply NoDup_app in Hnd as (Hn1 & _ & Hn2). apply StronglySorted_app in Hs as (_ & Hs1 & Hs2). done.
Qed.

Lemma upto_none cutoff x l : cursor_sorted (x :: l) -> String.le cutoff x.1 -> upto cutoff l = [].
Proof.
  intros [Hs Hnd] Hx. apply StronglySorted_inv in Hs as [_ Hs]. cbn in Hnd. apply NoDup_cons in Hnd as [Hn _].
  unfold upto. induction Hs as [|y l Hy Hs IH]; [done|]. cbn in *. apply not_elem_of_cons in Hn as [Hne Hn].
  destruct (str_gt y.1 cutoff) eqn:Hg; cbn; [by apply IH|]. apply str_gt_le in Hg. exfalso. apply Hne.
  apply (anti_symm String.le); [done|]. by etrans.
Qed.

Lemma str_gt_ge x y : str_gt x y = true -> String.le y x.
Proof. intros Hg. destruct (total String.le x y) as [Hle|]; [|done]. apply str_gt_le in Hle. congruence. Qed.

(** One page: the entries at or before the cutoff, and when it is reached
    nothing later is. *)
Lemma archive_page_spec cutoff page : forall st batch st' batch' later,
  cursor_sorted (page ++ later) -> as_reached st = false -> archive_page cutoff st batch page = Ok (st', batch') ->
  batch' = batch ++ (upto cutoff page).*2 /\
  (if as_reached st' then upto cutoff later = [] else as_after st' = from_option (fun found => Some found.1) (as_after st) (last page)).
Proof.
  induction page as [|[cursor e] page IH]; intros st batch st' batch' later Hs Hr; cbn [archive_page].
  { intros [= <- <-]. cbn. by rewrite Hr, app_nil_r. }
  assert (forall c, String.le c cursor -> upto c (page ++ later) = []) as Hnone by (intros c; apply (upto_none c (cursor, e)); done).
  destruct (str_gt cursor cutoff) eqn:Hg.
  - intros [= <- <-]. specialize (Hnone cutoff (str_gt_ge _ _ Hg)). unfold upto in *. rewrite List.filter_app in Hnone.
    apply app_nil in Hnone as [Hp Hl]. cbn. rewrite Hg, Hp. cbn. by rewrite app_nil_r.
  - destruct (entry_to_vec e) as [encoded|]; [|done]. cbn [map_err rbind].
    assert (upto cutoff ((cursor, e) :: page) = (cursor, e) :: upto cutoff page) as Hu by (unfold upto; cbn; by rewrite Hg).
    case_bool_decide as Hc.
    + subst cutoff. intros [= <- <-]. specialize (Hnone cursor (reflexivity _)). unfold upto in Hnone. rewrite List.filter_app in Hnone.
      apply app_nil in Hnone as [Hp Hl]. rewrite Hu. unfold upto at 1. rewrite Hp. done.
    + intros Hrec. apply (IH _ _ _ _ later) in Hrec as [-> Hafter]; [|by apply (sorted_app [(cursor, e)])|done].
      rewrite Hu. split; [by rewrite <- app_assoc|]. destruct (as_reached st'); [done|]. rewrite Hafter. cbn [as_after].
      destruct page as [|y page]; [done|].
      change (last ((cursor, e) :: y :: page)) with (last (y :: page)). destruct (last (y :: page)) eqn:Hlast; [done|by apply last_None in Hlast].
Qed.

Lemma chain_after principal after l : chain_part principal (after_cursor after l) = after_cursor after (chain_part principal l).
Proof.
  unfold chain_part, after_cursor. induction l as [|x l IH]; [done|]. cbn.
  destruct (after_key after x.1) eqn:Ha, (bool_decide (e_principal x.2 = principal)) eqn:Hp; cbn; rewrite ?Ha, ?Hp, ?IH; done.
Qed.

(** The batches of an archive, in order. *)
Fixpoint write_all (writer : ArchiveWriter A) (batches : list (list AuditEntry)) : eff A AuditError (ArchiveWriter A) :=
  match batches with
  | [] => eff_lift (Ok writer)
  | batch :: batches => do? writer := archive_write writer batch in write_all writer batches
  end.

Lemma eff_bind_inv {St B C : Type} (c : eff St AuditError B) (k : B -> eff St AuditError C) s s' x :
  eff_bind c k s = (s', Ok x) -> exists s1 b, c s = (s1, Ok b) /\ k b s1 = (s', Ok x).
Proof. unfold eff_bind. destruct (c s) as [s1 [b|e]]; [by eauto|done]. Qed.

Lemma archive_pages_reached fuel m session_id principal cutoff writer st :
  as_reached st = true -> archive_pages fuel m session_id principal cutoff writer st = eff_lift (Ok (writer, st)).
Proof. intros Hr. destruct fuel; [done|]. cbn [archive_pages]. by rewrite Hr. Qed.

Lemma archive_pages_spec m session_id principal l cutoff :
  listing m session_id = Ok l -> forall fuel writer st a a' writer' st',
  length (after_cursor (as_after st) (chain_part principal l)) < fuel -> as_reached st = false ->
  archive_pages fuel m session_id principal cutoff writer st a = (a', Ok (writer', st')) ->
  exists batches, write_all writer batches a = (a', Ok writer') /\
    List.concat batches = (upto cutoff (after_cursor (as_after st) (chain_part principal l))).*2.
Proof.
  intros Hl. assert (cursor_sorted (chain_part principal l)) as Hs by apply filter_sorted, (listing_sorted _ _ _ Hl).
  induction fuel as [|fuel IH]; intros writer st a a' writer' st' Hf Hr; [lia|]. cbn [archive_pages]. rewrite Hr.
  rewrite (principal_page_spec _ _ _ _ _ _ Hl), chain_after. set (rest := after_cursor (as_after st) (chain_part principal l)) in *.
  unfold eff_bind at 1, eff_lift at 1.
  assert (rest = take ARCHIVE_READ_BATCH rest ++ drop ARCHIVE_READ_BATCH rest) as Hrest by (symmetry; apply take_drop).
  assert (cursor_sorted rest) as Hsr by (by apply filter_sorted). destruct (take ARCHIVE_READ_BATCH rest) as [|x p] eqn:Hpage.
  { intros [= <- <- _]. exists []. split; [done|]. by destruct rest. }
  set (page := x :: p) in *. intros (a1 & [next batch] & [= <- Hp] & (a2 & w2 & Hw & Hrun)%eff_bind_inv)%eff_bind_inv. cbn [fst snd] in *.
  rewrite Hrest in Hsr. apply (archive_page_spec cutoff page st [] next batch _ Hsr Hr) in Hp as [-> Hafter]. cbn [app] in Hw.
  assert (upto cutoff rest = upto cutoff page ++ upto cutoff (drop ARCHIVE_READ_BATCH rest)) as ->
    by (etrans; [exact (f_equal (upto cutoff) Hrest)|apply List.filter_app]). rewrite fmap_app.
  destruct (as_reached next) eqn:Hn.
  - rewrite archive_pages_reached in Hrun by done. injection Hrun as <- <- _. exists [(upto cutoff page).*2]. cbn [write_all].
    rewrite Hafter. split; [|done]. unfold eff_bind. by rewrite Hw.
  - destruct (last page) as [y|] eqn:Hlast; [|by apply last_None in Hlast]. cbn [from_option] in Hafter.
    assert (after_cursor (as_after next) (chain_part principal l) = drop ARCHIVE_READ_BATCH rest) as Hnext.
    { rewrite Hafter. apply (page_rest fst (chain_part principal l) (as_after st) ARCHIVE_READ_BATCH y); [apply Hs|apply Hs|].
      change (last (take ARCHIVE_READ_BATCH rest) = Some y). by rewrite Hpage. }
    apply IH in Hrun as (batches & Hb & Hc); [| |done].
    + exists ((upto cutoff page).*2 :: batches). cbn [write_all List.concat]. rewrite Hc, Hnext. split; [|done]. unfold eff_bind. by rewrite Hw.
    + rewrite Hnext, length_drop. destruct rest; [done|]. cbn [length] in *. unfold ARCHIVE_READ_BATCH. lia.
Qed.

Lemma upto_split cutoff om kept o :
  cursor_sorted (om ++ kept) -> last om = Some o -> cutoff = o.1 -> upto cutoff (om ++ kept) = om.
Proof.
  intros Hs (om' & ->)%last_Some ->. rewrite <- app_assoc in *. cbn [app] in *. unfold upto. rewrite List.filter_app. cbn [List.filter].
  rewrite (proj2 (str_gt_le o.1 o.1)) by done. cbn [negb]. destruct (sorted_app _ _ Hs) as [_ Ho].
  change (List.filter _ kept) with (upto o.1 kept). rewrite (upto_none o.1 o kept Ho) by done. f_equal.
  destruct Hs as [Hs _]. induction om' as [|x om' IH]; [done|]. cbn [app List.filter] in *. apply StronglySorted_inv in Hs as [Hs Hx].
  rewrite Forall_forall in Hx. rewrite (proj2 (str_gt_le x.1 o.1)); [cbn [negb]; f_equal; by apply IH|].
  apply Hx, elem_of_app. right. apply list_elem_of_here.
Qed.

(** C18: a prune is archived before it removes anything.  When the step
    before the removal succeeds with an archiver set and no plan under way, the
    archive was opened for the receipt, was given exactly the entries the
    receipt omits in chain order, and was committed. *)
Theorem archive_holds_omitted m log session_id principal l r bytes om kept (a a' : A) :
  listing m session_id = Ok l -> chain_part principal l = om ++ kept -> describes r om kept -> om <> [] ->
  rl_archiver log = true -> m !! (NS_PRUNE_PLANS, chain_head_key session_id principal) = None ->
  archive_pruned m log session_id principal r bytes a = (a', Ok tt) ->
  exists batches, List.concat batches = om.*2 /\
    (do? writer := archive_begin r bytes in do? writer := write_all writer batches in archive_commit writer) a = (a', Ok tt).
Proof.
  intros Hl Hch Hd Hom Harch Hplan. unfold archive_pruned. rewrite (ds_count _ _ _ Hd), Harch.
  destruct (N.eqb_spec (N.of_nat (length om)) 0) as [Hz|_]; [destruct om; [done|cbn in Hz; lia]|]. cbn [negb].
  unfold prune_plan_pending, st_exists. cbn [kv_exists ideal_store map_err]. rewrite Hplan, bool_decide_false by (by intros []).
  unfold eff_bind at 1, eff_lift at 1. rewrite (ds_cutoff _ _ _ Hd).
  destruct (last om) as [o|] eqn:Hlast; [|by apply last_None in Hlast]. cbn [fmap option_fmap option_map ok_or].
  unfold eff_bind at 1, eff_lift at 1. intros (a1 & writer & Hbegin & (a2 & keys & [= <- Hk] & (a3 & [w3 st] & Hpages & Hend)%eff_bind_inv)%eff_bind_inv)%eff_bind_inv.
  apply (archive_pages_spec _ _ _ _ _ Hl) in Hpages as (batches & Hw & Hc); [| |done].
  - exists batches. split.
    + rewrite Hc. cbn [archive_start as_after]. rewrite after_none, Hch. f_equal.
      apply (upto_split _ _ _ o); [|done|done]. rewrite <- Hch. apply filter_sorted, (listing_sorted _ _ _ Hl).
    + unfold eff_bind. rewrite Hbegin, Hw. cbn [fst snd] in Hend. by destruct (_ || _).
  - cbn [archive_start as_after]. rewrite after_none. apply le_n_S. etrans; [apply chain_part_length|].
    by rewrite <- (listing_length _ _ _ Hl), Hk.
Qed.
End Archived.
