(* ===== verification/AuditRemoval.v ===== *)
(** * What a prune removes

    The calls that resume a plan, taken together: when the receipt of a prune
    is installed, exactly the entries it omits are gone, with their commit
    marks and index keys, and nothing else of the log has changed. *)

From stdpp Require Import sorting pretty.
From S2P Require Import Prelude Profile Kv Bytes Cbor Crypto KeyRegistry AuditEntry AuditChain AuditLog.
From S2P Require Import AuditStorage CrashLogic AuditDurability AuditHistory AuditPrune AuditPruning AuditRetention AuditKeeping.
From Stdlib Require Import Ascii.
Local Open Scope string_scope.
Local Open Scope list_scope.

#[local] Existing Instance ideal_store.

Lemma NoDup_fmap_inj {A B : Type} (f : A -> B) (l : list A) x y : NoDup (f <$> l) -> x ∈ l -> y ∈ l -> f x = f y -> x = y.
Proof.
  intros Hnd [i Hi]%list_elem_of_lookup [j Hj]%list_elem_of_lookup Hf.
  assert (i = j) as ->; [|congruence]. apply (NoDup_lookup (f <$> l) i j (f x)); rewrite ?list_lookup_fmap; [done|by rewrite Hi|by rewrite Hj, Hf].
Qed.

Lemma list_filter_none {A : Type} (q : A -> bool) (l : list A) : (forall x, x ∈ l -> q x = false) -> List.filter q l = [].
Proof.
  intros Hq. induction l as [|x l IH]; [done|]. cbn. rewrite Hq by apply list_elem_of_here. apply IH.
  intros y Hy. apply Hq. by apply list_elem_of_further.
Qed.

Lemma list_filter_all {A : Type} (q : A -> bool) (l : list A) : (forall x, x ∈ l -> q x = true) -> List.filter q l = l.
Proof.
  intros Hq. induction l as [|x l IH]; [done|]. cbn. rewrite Hq by apply list_elem_of_here. f_equal. apply IH.
  intros y Hy. apply Hq. by apply list_elem_of_further.
Qed.

(** ** Maps without some keys *)

Definition delete_all (ks : list (string * string)) (m : KvMap) : KvMap := foldr delete m ks.

Lemma lookup_delete_all ks m k : delete_all ks m !! k = if bool_decide (k ∈ ks) then None else m !! k.
Proof.
  induction ks as [|x ks IH]; [by rewrite bool_decide_false by apply not_elem_of_nil|]. cbn [delete_all foldr].
  destruct (decide (k = x)) as [->|Hne].
  - by rewrite lookup_delete_eq, bool_decide_true by apply list_elem_of_here.
  - rewrite lookup_delete_ne by done. unfold delete_all in IH. rewrite IH. erewrite bool_decide_ext; [done|]. rewrite elem_of_cons. naive_solver.
Qed.

Lemma delete_all_app ks ks' m : delete_all (ks ++ ks') m = delete_all ks (delete_all ks' m).
Proof. unfold delete_all. apply foldr_app. Qed.

Lemma delete_all_ext ks ks' m : (forall k, k ∈ ks <-> k ∈ ks') -> delete_all ks m = delete_all ks' m.
Proof. intros Hk. apply map_eq. intros k. rewrite !lookup_delete_all. by rewrite (bool_decide_ext _ _ (Hk k)). Qed.

Lemma within_delete_both T m m' k : Within T m m' -> Within T (delete k m) (delete k m').
Proof.
  intros Hw k'. destruct (decide (k' = k)) as [->|Hne]; [right; by rewrite !lookup_delete_eq|]. rewrite !lookup_delete_ne by done. apply Hw.
Qed.

Lemma within_trans T m1 m2 m3 : Within T m1 m2 -> Within T m2 m3 -> Within T m1 m3.
Proof. intros H1 H2 k. destruct (H1 k), (H2 k); [by left..|]. right. congruence. Qed.

Lemma within_weaken (T T' : string * string -> Prop) m m' : (forall k, T k -> T' k) -> Within T m m' -> Within T' m m'.
Proof. intros HT Hw k. destruct (Hw k); [left; by apply HT|by right]. Qed.

Section Removal.
  Context {S : Type} `{KvStoreLaws S view} `{Crypto} `{AuditSerde} `{UuidTextLaws} `{!StorageCodec} `{PruneCodecLaws}.
  Implicit Types (m : KvMap) (session_id : Uuid) (principal : option string) (l : list (string * AuditEntry)).

(** The records of an entry that a prune removes. *)
Definition entry_keys (found : string * AuditEntry) : list (string * string) :=
  let id := uuid_to_string (e_id found.2) in [(NS_ENTRIES, id); (NS_COMMITTED_ENTRIES, id); (NS_SESSION_ENTRIES, found.1)].

Definition removed l : list (string * string) := l ≫= entry_keys.

(** The index names each entry of the session by its own identifier, once. *)
Definition well_indexed l : Prop :=
  Forall (fun found => index_key_id found.1 = Ok (e_id found.2)) l /\ NoDup ((fun found => e_id found.2) <$> l).

Definition chain_upto (cutoff : option string) principal l : list (string * AuditEntry) :=
  match cutoff with Some c => upto c (chain_part principal l) | None => [] end.

Lemma upto_chain c principal l : upto c (chain_part principal l) = chain_part principal (upto c l).
Proof.
  unfold upto, chain_part. induction l as [|x l IH]; [done|]. cbn.
  destruct (bool_decide (e_principal x.2 = principal)) eqn:Hp, (str_gt x.1 c) eqn:Hg; cbn; rewrite ?Hp, ?Hg, ?IH; done.
Qed.

Lemma chain_upto_app cutoff principal l1 l2 :
  chain_upto cutoff principal (l1 ++ l2) = chain_upto cutoff principal l1 ++ chain_upto cutoff principal l2.
Proof. destruct cutoff; [|done]. cbn [chain_upto]. rewrite chain_part_app. apply List.filter_app. Qed.

Lemma st_delete_within T m ns k :
  triple (view := view) (Within T m) (st_delete ns k) (fun _ => Within T (delete (ns, k) m)) (fun _ => True).
Proof. apply triple_delete; [|done]. intros m1. apply within_delete_both. Qed.

Lemma delete_entry_triple T m ks cursor e :
  triple (view := view) (Within T (delete_all ks m)) (delete_pruned_entry cursor (e_id e))
    (fun _ => Within T (delete_all (entry_keys (cursor, e) ++ ks) m)) (fun _ => True).
Proof.
  unfold delete_pruned_entry. set (X := delete_all ks m).
  do 3 (eapply triple_bind; [apply st_delete_within|intros ?; cbn beta]).
  apply triple_lift. intros m1 Hm. rewrite delete_all_app. fold X.
  rewrite (delete_all_ext _ [(NS_SESSION_ENTRIES, cursor); (NS_COMMITTED_ENTRIES, uuid_to_string (e_id e));
    (NS_ENTRIES, uuid_to_string (e_id e))]); [done|]. intros k. unfold entry_keys. cbn [fst snd]. set_solver.
Qed.

(** The loop over a page removes the chain's entries at or before the cutoff;
    where it stops early, nothing later is to be removed. *)
Lemma delete_entries_triple T m principal cutoff page later : cursor_sorted (page ++ later) -> forall ks last_cursor,
  triple (view := view) (Within T (delete_all ks m)) (delete_entries principal cutoff last_cursor page)
    (fun r m1 => Within T (delete_all (removed (upto cutoff (chain_part principal page)) ++ ks) m) m1 /\
       if r.2 then upto cutoff (chain_part principal later) = []
       else r.1 = from_option (fun found => Some found.1) last_cursor (last page)) (fun _ => True).
Proof.
  induction page as [|[cursor e] page IH]; intros Hs ks last_cursor; cbn [delete_entries].
  { apply triple_lift. done. }
  assert (forall c, String.le c cursor -> chain_part principal (upto c (page ++ later)) = []) as Hnone.
  { intros c Hc. by rewrite (upto_none c (cursor, e)). }
  assert (forall c, String.le c cursor -> upto c (chain_part principal page) = [] /\ upto c (chain_part principal later) = []) as Hstop.
  { intros c Hc. specialize (Hnone c Hc). rewrite <- upto_chain, chain_part_app in Hnone. unfold upto in *. rewrite List.filter_app in Hnone.
    by apply app_nil in Hnone. }
  specialize (IH (proj2 (sorted_app [(cursor, e)] _ Hs))).
  assert (forall found : option (string * AuditEntry), from_option (fun found => Some found.1) last_cursor
            (Some (default (cursor, e) found)) = from_option (fun found => Some found.1) (Some cursor) found) as Hlast by by intros [].
  assert (last ((cursor, e) :: page) = Some (default (cursor, e) (last page))) as ->.
  { destruct page as [|y page]; [done|]. change (last ((cursor, e) :: y :: page)) with (last (y :: page)).
    destruct (last (y :: page)) eqn:Hy; [done|by apply last_None in Hy]. }
  rewrite Hlast. destruct (str_gt cursor cutoff) eqn:Hg.
  - destruct (Hstop cutoff (str_gt_ge _ _ Hg)) as [Hp Hl]. apply triple_lift. intros m1 Hm. split; [|done].
    replace (upto cutoff (chain_part principal ((cursor, e) :: page))) with (@nil (string * AuditEntry)); [done|].
    cbn [chain_part List.filter]. destruct (bool_decide _); [|done]. unfold upto. cbn [List.filter fst]. by rewrite Hg.
  - case_bool_decide as He; cbn [negb]; cbn [chain_part List.filter snd].
    + rewrite (bool_decide_true (e_principal e = principal)) by done.
      assert (upto cutoff ((cursor, e) :: chain_part principal page) = (cursor, e) :: upto cutoff (chain_part principal page)) as Hu
        by (unfold upto; cbn [List.filter fst]; by rewrite Hg).
      fold (chain_part principal page). rewrite Hu. eapply triple_bind; [apply delete_entry_triple|]. intros ?. cbn beta.
      assert (forall ks', delete_all (removed (upto cutoff (chain_part principal page)) ++ entry_keys (cursor, e) ++ ks') m =
                delete_all (removed ((cursor, e) :: upto cutoff (chain_part principal page)) ++ ks') m) as Hks.
      { intros ks'. apply delete_all_ext. intros k. unfold removed. cbn [mbind list_bind]. rewrite !elem_of_app. tauto. }
      case_bool_decide as Hc.
      * subst cursor. destruct (Hstop cutoff (reflexivity _)) as [Hp Hl]. apply triple_lift. intros m1 Hm. rewrite Hp in *. done.
      * rewrite <- Hks. apply IH.
    + rewrite bool_decide_false by done. apply IH.
Qed.

(** ** Reading on after some entries are gone *)

Lemma elem_of_removed ns k l : (ns, k) ∈ removed l <->
  exists found, found ∈ l /\ (ns, k) ∈ entry_keys found.
Proof. unfold removed. rewrite list_elem_of_bind. naive_solver. Qed.

Lemma session_key_removed cursor l : (NS_SESSION_ENTRIES, cursor) ∈ removed l <-> cursor ∈ l.*1.
Proof.
  rewrite elem_of_removed, list_elem_of_fmap. split.
  - intros (found & Hin & Hk). exists found. split; [|done]. unfold entry_keys in Hk. set_solver.
  - intros (found & -> & Hin). exists found. split; [done|]. unfold entry_keys. set_solver.
Qed.

Lemma entry_key_removed id l : (NS_ENTRIES, uuid_to_string id) ∈ removed l <-> id ∈ (fun found => e_id found.2) <$> l.
Proof.
  rewrite elem_of_removed, list_elem_of_fmap. split.
  - intros (found & Hin & Hk). exists found. split; [|done]. unfold entry_keys in Hk.
    rewrite !elem_of_cons in Hk. destruct Hk as [Hk|[Hk|[Hk|Hk]]]; [|done|done|by apply elem_of_nil in Hk].
    injection Hk as Hk. by apply uuid_to_string_inj in Hk.
  - intros (found & -> & Hin). exists found. split; [done|]. unfold entry_keys. set_solver.
Qed.

Lemma listing_entry m session_id l found : listing m session_id = Ok l -> found ∈ l -> page_entry m found.1 = Ok found.
Proof.
  intros Hl%try_map_Ok Hin. apply list_elem_of_lookup in Hin as [i Hi]. destruct (Forall2_lookup_r _ _ _ _ _ Hl Hi) as (k & _ & Hk).
  by rewrite (page_entry_key _ _ _ Hk).
Qed.

(** The records of the prunes of a chain, and the segments of any chain. *)
Definition is_record (key : string) (k : string * string) : Prop :=
  k ∈ [(NS_PRUNE_PLANS, key); (NS_PRUNE_RECEIPTS, key); (NS_CHAIN_METADATA, key); (NS_GLOBAL_METADATA, GLOBAL_KEY)] \/
  k.1 = NS_SEGMENT_INDEX \/ exists g, k = (NS_RECEIPT_HISTORY, history_key key g).

Definition prune_namespaces : list string :=
  [NS_PRUNE_PLANS; NS_PRUNE_RECEIPTS; NS_CHAIN_METADATA; NS_GLOBAL_METADATA; NS_RECEIPT_HISTORY; NS_SEGMENT_INDEX].

Lemma record_namespace key k : is_record key k -> k.1 ∈ prune_namespaces.
Proof. unfold is_record, prune_namespaces. intros [Hk|[Hk|[g ->]]]; set_solver. Qed.

Section Resume.
  Context (m : KvMap) (session_id : Uuid) (principal : option string) (l : list (string * AuditEntry)).
Let key := chain_head_key session_id principal.
  Context (Hl : listing m session_id = Ok l) (Hpaged : paged m session_id) (Hwell : well_indexed l).
Let P := eq (NS_PRUNE_PLANS, key).

Lemma l_sorted : cursor_sorted l.
Proof. by apply (listing_sorted m session_id). Qed.

(** A store from which entries that come before the cursor are gone has the
    same pages after it. *)
Lemma page_after_removal m1 gone before after n :
  Within P (delete_all (removed gone) m) m1 -> (forall found, found ∈ gone -> found ∈ before) ->
  l = before ++ after_cursor after l -> 0 < n ->
  load_session_entries_page m1 session_id after n = Ok (take n (after_cursor after l)).
Proof.
  intros Hw Hsub Hsplit Hn. set (todo := after_cursor after l) in *. destruct l_sorted as [_ Hnd].
  assert (forall ns k, ns <> NS_PRUNE_PLANS -> m1 !! (ns, k) = if bool_decide ((ns, k) ∈ removed gone) then None else m !! (ns, k)) as Hm1.
  { intros ns k Hne. rewrite <- lookup_delete_all. destruct (Hw (ns, k)) as [Hk|Hk]; [unfold P in Hk; congruence|done]. }
  assert (forall x, after_key after x = true -> m1 !! (NS_SESSION_ENTRIES, x) = m !! (NS_SESSION_ENTRIES, x)) as Hkeys.
  { intros x Hx. rewrite Hm1 by done. rewrite bool_decide_false; [done|]. rewrite session_key_removed. intros (found & -> & Hin)%list_elem_of_fmap.
    apply Hsub in Hin. assert (found ∈ todo) as Ht.
    { apply list_elem_of_In, filter_In. split; [|done]. rewrite Hsplit. apply list_elem_of_In, elem_of_app. by left. }
    rewrite Hsplit, fmap_app in Hnd. apply NoDup_app in Hnd as (_ & Hnd & _).
    apply (Hnd found.1); apply list_elem_of_fmap; by exists found. }
  assert (List.filter (after_key after) (index_keys m1 session_id) = todo.*1) as Hidx.
  { pose proof (entries_keys _ _ _ (entries_filter m (after_key after) _ _ Hl)) as Hk. fold todo in Hk. fold (after_cursor after l) in Hk.
    fold todo in Hk. rewrite Hk. by apply filter_sorted_keys_ext. }
  assert (try_map (page_entry m1) (take n todo.*1) = Ok (take n todo)) as Hpage.
  { apply try_map_Ok. rewrite <- fmap_take. apply Forall2_fmap_l, Forall_Forall2_diag, Forall_take, Forall_forall. intros found Hin. unfold compose.
    assert (found ∈ l) as Hfl by (rewrite Hsplit; apply elem_of_app; by right).
    pose proof (listing_entry _ _ _ _ Hl Hfl) as Hp. unfold page_entry in *. destruct Hwell as [Hids Hnid]. rewrite Forall_forall in Hids.
    rewrite (Hids _ Hfl) in *. cbn [rbind] in *. unfold get, st_get in *. cbn [kv_get ideal_store map_err rbind] in *.
    rewrite Hm1, bool_decide_false; [done| |done]. rewrite entry_key_removed. intros (g & Hg & Hgin)%list_elem_of_fmap.
    apply Hsub in Hgin. rewrite Hsplit, fmap_app in Hnid. apply NoDup_app in Hnid as (_ & Hnid & _).
    apply (Hnid (e_id found.2)); apply list_elem_of_fmap; [by exists g|by exists found]. }
  unfold load_session_entries_page. rewrite st_list_page_ideal. cbn [rbind]. fold (index_keys m1 session_id). rewrite Hidx.
  destruct (take n todo.*1) as [|k keys] eqn:Hk; [|done]. rewrite <- Hpage. cbn [try_map]. destruct after as [a|]; [done|].
  assert (todo = []) as Htodo by (destruct n, todo; done || lia). unfold todo in Htodo. rewrite after_none in Htodo.
  assert (before = []) as -> by (rewrite Htodo in Hsplit; symmetry in Hsplit; by apply app_nil in Hsplit as [-> _]).
  unfold get_legacy_session_entry_ids, st_get. cbn [kv_get ideal_store map_err rbind]. rewrite Hm1 by done.
  destruct gone as [|g gone]; [|by specialize (Hsub g (list_elem_of_here _ _)); apply elem_of_nil in Hsub].
  rewrite bool_decide_false by (by intros ?%elem_of_nil). destruct Hpaged as [Hne| ->]; [|by destruct n].
  destruct Hne. rewrite <- (entries_keys _ _ _ Hl). by rewrite Htodo.
Qed.

(** ** One call *)

  Context (encoded : string) (details : ReceiptDetails) (keep : N).
  Context (Hdetails : ReceiptDetails_parse encoded = Ok details) (Hnoplan : m !! (NS_PRUNE_PLANS, key) = None).
Let cutoff := rd_cutoff details.

(** A plan that has removed the chain's entries up to its cursor. *)
Definition progress (plan : PrunePlan) (m1 : KvMap) : Prop :=
  pp_receipt plan = encoded /\ pp_complete plan = false /\
  exists before, l = before ++ after_cursor (pp_after plan) l /\
    Within P (delete_all (removed (chain_upto cutoff principal before)) m) m1.

(** The store between two calls. *)
Definition resumable (m1 : KvMap) : Prop :=
  m1 = m \/ exists plan, m1 !! (NS_PRUNE_PLANS, key) = Some (plan_to_vec plan) /\ progress plan m1.

Lemma persist_plan_triple X plan msg :
  triple (view := view) (Within P X) (persist_prune_plan key plan msg)
    (fun _ m1 => Within P X m1 /\ m1 !! (NS_PRUNE_PLANS, key) = Some (plan_to_vec plan)) (fun _ => True).
Proof.
  unfold persist_prune_plan, st_cas_or. apply (triple_bind _ _ _ (fun _ => Within P X)).
  { intros s s' r Hs [= <- <-]. by destruct (st_get _ _ _). }
  intros expected. apply (triple_bind _ _ _ (fun (won : bool) m1 => Within P X m1 /\ (won = true -> m1 !! (NS_PRUNE_PLANS, key) = Some (plan_to_vec plan)))).
  - apply triple_cas; [| |done].
    + intros m1 Hm1 _. split; [by apply within_insert|]. intros _. by rewrite lookup_insert_eq.
    + intros m1 Hm1 _. done.
  - intros []; apply triple_lift; intros m1 [? Hwon]; [|done]. split; [done|]. by apply Hwon.
Qed.

Lemma load_plan_triple :
  triple (view := view) resumable (load_or_create_prune_plan session_id principal key keep encoded)
    (fun plan => progress plan) (fun _ => True).
Proof.
  apply triple_pre. intros m1 Hm1.
  eapply triple_conseq; [apply (load_or_create_triple m1 session_id principal keep encoded)|done| |done].
  cbn beta. intros plan m2 [Hforce Hw]. destruct Hm1 as [-> |(p & Hp & Hprog)].
  - unfold in_force in Hforce. fold key in Hforce. rewrite Hnoplan in Hforce.
    unfold new_prune_plan in Hforce. repeat (apply rbind_Ok in Hforce as (? & ? & Hforce)). injection Hforce as <-.
    split; [done|]. split; [done|]. exists []. cbn [pp_after app]. rewrite after_none. split; [done|].
    replace (chain_upto cutoff principal []) with (@nil (string * AuditEntry)) by by destruct cutoff. done.
  - unfold in_force in Hforce. fold key in Hforce. rewrite Hp, plan_roundtrip in Hforce. injection Hforce as <-.
    destruct Hprog as (Hr & Hc & before & Hb & Hw'). split; [done|]. split; [done|]. exists before. split; [done|]. by eapply within_trans.
Qed.

(** Every entry the receipt covers is gone. *)
Definition cleared (T : string * string -> Prop) (m1 : KvMap) : Prop :=
  Within T (delete_all (removed (chain_upto cutoff principal l)) m) m1.

Lemma removed_app l1 l2 : removed (l1 ++ l2) = removed l1 ++ removed l2.
Proof. apply bind_app. Qed.

Lemma after_removal before page ks :
  Within P (delete_all (removed (chain_upto cutoff principal page) ++ removed (chain_upto cutoff principal before)) m) ks ->
  Within P (delete_all (removed (chain_upto cutoff principal (before ++ page))) m) ks.
Proof.
  rewrite chain_upto_app, removed_app. rewrite (delete_all_ext (_ ++ _)
    (removed (chain_upto cutoff principal before) ++ removed (chain_upto cutoff principal page))); [done|].
  intros k. rewrite !elem_of_app. tauto.
Qed.

Lemma delete_page_exact c plan : cutoff = Some c ->
  triple (view := view) (progress plan) (delete_prune_page session_id principal key c plan)
    (fun plan' m1 => pp_receipt plan' = encoded /\
       if pp_complete plan' then cleared P m1
       else progress plan' m1 /\ m1 !! (NS_PRUNE_PLANS, key) = Some (plan_to_vec plan')) (fun _ => True).
Proof.
  intros Hc. apply triple_pre. intros m1 (Hr & Hcomplete & before & Hsplit & Hw). unfold delete_prune_page.
  set (todo := after_cursor (pp_after plan) l) in *.
  apply (triple_bind _ _ _ (fun page m2 => page = take 256 todo /\ m2 = m1)).
  { eapply triple_read; [apply load_page_faithful| |done]. cbn beta. intros ? page <- Hp.
    rewrite (page_after_removal _ _ before _ _ Hw) in Hp; [|  |done|lia]; [by injection Hp as <-|].
    intros found Hin. unfold chain_upto in Hin. destruct cutoff; [|by apply elem_of_nil in Hin].
    apply list_elem_of_In, filter_In in Hin as [Hin _]. apply filter_In in Hin as [Hin _]. by apply list_elem_of_In. }
  intros page. apply triple_pre. intros ? [-> ->]. set (page := take 256 todo).
  assert (l = (before ++ page) ++ drop 256 todo) as Hl'.
  { etrans; [exact Hsplit|]. rewrite <- app_assoc. unfold page. by rewrite take_drop. }
  assert (cursor_sorted (page ++ drop 256 todo)) as Hsorted.
  { pose proof l_sorted as Hs. rewrite Hl', <- app_assoc in Hs. by destruct (sorted_app _ _ Hs). }
  eapply triple_bind.
  { eapply triple_conseq; [apply (delete_entries_triple P m principal c page _ Hsorted (removed (chain_upto cutoff principal before)))|by intros ? <-| |done].
    intros r m2 Hm2. exact Hm2. }
  intros [last_cursor reached]. cbn beta. apply triple_pre. intros m2 [Hm2 Hend]. cbn [fst snd] in *.
  replace (upto c (chain_part principal page)) with (chain_upto cutoff principal page) in Hm2 by by rewrite Hc.
  apply after_removal in Hm2. eapply triple_bind; [eapply triple_conseq; [apply persist_plan_triple|intros ? <-; exact Hm2|intros ? ? Hp; exact Hp|done]|].
  intros ?. apply triple_lift. intros m3 [Hm3 Hstored]. split; [done|]. cbn [plan_progress pp_complete] in *.
  destruct (reached || bool_decide (page = [])) eqn:Hdone.
  - unfold cleared. replace (chain_upto cutoff principal l) with (chain_upto cutoff principal (before ++ page)); [done|].
    rewrite Hl', (chain_upto_app _ _ (before ++ page)). apply orb_true_iff in Hdone as [-> |Hempty].
    + rewrite Hc at 3. cbn [chain_upto]. by rewrite Hend, app_nil_r.
    + apply bool_decide_eq_true in Hempty. assert (todo = []) as -> by (unfold page in Hempty; by destruct todo).
      replace (chain_upto cutoff principal (drop 256 [])) with (@nil (string * AuditEntry)) by by destruct cutoff. symmetry. apply app_nil_r.
  - split; [|done]. apply orb_false_iff in Hdone as [-> Hne%bool_decide_eq_false]. split; [done|]. split; [done|].
    exists (before ++ page). split; [|done]. cbn [plan_progress pp_after]. rewrite Hend.
    destruct (last page) as [x|] eqn:Hx; [|by apply last_None in Hx]. cbn [from_option].
    destruct l_sorted as [Hs Hnd]. etrans; [exact Hl'|]. f_equal. symmetry. by apply (page_rest fst l (pp_after plan) 256 x).
Qed.

Lemma is_record_records : prune_records (is_record key) key.
Proof. split; intros; [left; set_solver..|]. right. right. by exists g. Qed.

(** The records may change, the receipt is [current]. *)
Let J (X : KvMap) (current : option string) (m1 : KvMap) : Prop :=
  Within (is_record key) X m1 /\ m1 !! (NS_PRUNE_RECEIPTS, key) = current.

Lemma history_triple X current text :
  triple (view := view) (J X current) (record_receipt_history key text) (fun _ => J X current) (fun _ => True).
Proof.
  unfold record_receipt_history. apply (triple_bind _ _ _ (fun _ => J X current)); [apply triple_lift; by destruct (PruneGeneration_parse text)|].
  intros generation. apply (triple_bind _ _ _ (fun _ => J X current)).
  { intros s s' r Hs [= <- <-]. by destruct (st_get _ _ _). }
  intros [stored|]; [apply triple_lift; by case_bool_decide|]. apply triple_set; [|done]. intros m1 [Hw Hr]. split.
  - apply within_insert; [|done]. apply (rec_history _ _ is_record_records).
  - by rewrite lookup_insert_ne.
Qed.

Lemma install_receipt_triple X plan :
  triple (view := view) (Within (is_record key) X) (install_prune_receipt session_id principal key plan)
    (fun _ => J X (Some (pp_receipt plan))) (fun _ => True).
Proof.
  unfold install_prune_receipt. fold key. apply (triple_bind _ _ _ (J X)).
  { eapply triple_read; [apply (st_get_faithful (view := view) NS_PRUNE_RECEIPTS key)| |done]. intros m1 a Hm1 [= <-]. done. }
  intros current. apply (triple_bind _ _ _ (fun _ => J X current)); [destruct current; [apply history_triple|by apply triple_lift]|].
  intros _. apply (triple_bind _ _ _ (fun _ => J X current)); [apply history_triple|]. intros _.
  apply (triple_bind _ _ _ (fun _ => J X (Some (pp_receipt plan)))).
  - case_bool_decide as Hc; [by subst current; apply triple_lift|]. unfold st_cas_or.
    apply (triple_bind _ _ _ (fun (won : bool) => if won then J X (Some (pp_receipt plan)) else fun _ => True)).
    + apply triple_cas; [|done|done]. intros m1 [Hw _] _. split; [apply within_insert; [apply (rec_receipt _ _ is_record_records)|done]|].
      by rewrite lookup_insert_eq.
    + intros []; by apply triple_lift.
  - intros _. apply (triple_bind _ _ _ (fun _ => J X (Some (pp_receipt plan)))); [|intros _; by apply triple_lift].
    apply triple_delete; [|done]. intros m1 [Hw Hr]. split; [apply within_delete; [apply (rec_plan _ _ is_record_records)|done]|].
    by rewrite lookup_delete_ne.
Qed.

Lemma finish_triple X plan :
  triple (view := view) (Within (is_record key) X) (finish_prune_plan_durable session_id principal key plan)
    (fun _ => J X (Some (pp_receipt plan))) (fun _ => True).
Proof.
  unfold finish_prune_plan_durable.
  assert (forall {B : Type} (c : eff S AuditError B), keeps (view := view) (is_record key) X c ->
    triple (view := view) (Within (is_record key) X) c (fun _ => Within (is_record key) X) (fun _ => True)) as Hkeep
    by (intros B c Hk; by eapply triple_conseq).
  apply (triple_bind _ _ _ (fun _ => Within (is_record key) X)); [apply Hkeep, frame_lift|]. intros accounting.
  apply (triple_bind _ _ _ (fun _ => Within (is_record key) X)); [apply Hkeep|intros _].
  { apply (update_retained_keeps _ _ _ _ is_record_records). }
  apply (triple_bind _ _ _ (fun _ => Within (is_record key) X)); [apply Hkeep, (accounting_keeps _ _ _ _ is_record_records)|intros _].
  apply (triple_bind _ _ _ (fun _ => Within (is_record key) X)); [apply Hkeep|intros _; apply install_receipt_triple].
  unfold remove_pruned_segment. destruct (pp_segment_key plan) as [k|]; [|apply frame_lift].
  apply frame_bind; [|intros ?; apply frame_lift]. apply keeps_delete. right. by left.
Qed.

Lemma plan_is_record X m1 : Within P X m1 -> Within (is_record key) X m1.
Proof. apply within_weaken. intros k <-. apply (rec_plan _ _ is_record_records). Qed.

Lemma receipt_kept ks m1 l' : Within P (delete_all (removed l') m) m1 -> ks = (NS_PRUNE_RECEIPTS, key) -> m1 !! ks = m !! ks.
Proof.
  intros Hw ->. destruct (Hw (NS_PRUNE_RECEIPTS, key)) as [Hk|Hk]; [done|]. rewrite Hk, lookup_delete_all, bool_decide_false; [done|].
  intros (found & _ & Hin)%elem_of_removed. unfold entry_keys in Hin. set_solver.
Qed.

(** A call goes on, or ends with everything the receipt covers gone. *)
Lemma prune_call_triple :
  triple (view := view) resumable (prune_chain_durable session_id principal keep encoded)
    (fun _ m1 => resumable m1 /\ m1 !! (NS_PRUNE_RECEIPTS, key) = m !! (NS_PRUNE_RECEIPTS, key) \/
       cleared (is_record key) m1 /\ m1 !! (NS_PRUNE_RECEIPTS, key) = Some encoded) (fun _ => True).
Proof.
  assert (forall plan, pp_receipt plan = encoded -> triple (view := view) (cleared P) (finish_prune_plan_durable session_id principal key plan)
    (fun _ m1 => resumable m1 /\ m1 !! (NS_PRUNE_RECEIPTS, key) = m !! (NS_PRUNE_RECEIPTS, key) \/
       cleared (is_record key) m1 /\ m1 !! (NS_PRUNE_RECEIPTS, key) = Some encoded) (fun _ => True)) as Hfinish.
  { intros plan Hr. eapply triple_conseq; [apply (finish_triple (delete_all (removed (chain_upto cutoff principal l)) m) plan)|apply plan_is_record| |done].
    intros ? m1 [Hc Hrec]. right. rewrite Hrec, Hr. done. }
  unfold prune_chain_durable. fold key. apply (triple_bind _ _ _ (fun _ => resumable)).
  { intros s s' r Hs [= <- <-]. by destruct (require_paged_session_projection _ _). }
  intros _. eapply triple_bind; [apply load_plan_triple|]. intros plan. cbn beta. apply triple_pre. intros m1 Hprog.
  destruct Hprog as (Hr & Hcomplete & before & Hsplit & Hw) eqn:Hp. clear Hp. rewrite Hcomplete.
  apply (triple_bind _ _ _ (fun d m2 => d = details /\ m2 = m1)).
  { apply triple_lift. intros ? <-. by rewrite Hr, Hdetails. }
  intros d. apply triple_pre. intros ? [-> ->].
  apply (triple_bind _ _ _ (fun plan' m1 => pp_receipt plan' = encoded /\
       if pp_complete plan' then cleared P m1
       else progress plan' m1 /\ m1 !! (NS_PRUNE_PLANS, key) = Some (plan_to_vec plan'))).
  - fold cutoff. destruct cutoff as [c|] eqn:Hc.
    + eapply triple_conseq; [by apply (delete_page_exact c plan)|by intros ? <-|done|done].
    + eapply triple_bind; [eapply triple_conseq; [apply persist_plan_triple|intros ? <-; exact Hw|intros ? ? Hm; exact Hm|done]|].
      intros ?. apply triple_lift. intros m2 [Hm2 _]. split; [done|]. cbn [plan_progress pp_complete]. unfold cleared. rewrite Hc in *. done.
  - intros plan'. apply triple_pre. intros m2 [Hr' Hm2]. destruct (pp_complete plan') eqn:Hc'.
    + eapply triple_conseq; [by apply (Hfinish plan')|by intros ? <-|done|done].
    + apply triple_lift. intros ? <-. left. destruct Hm2 as [Hp Hs]. split; [right; by exists plan'|].
      destruct Hp as (_ & _ & b & _ & Hw'). by eapply receipt_kept.
Qed.

Lemma resume_triple `{!ReceiptCodec} n : m !! (NS_PRUNE_RECEIPTS, key) <> Some encoded ->
  triple (view := view) resumable (resume_plan n session_id principal keep encoded)
    (fun r m1 => cleared (is_record key) m1 /\ m1 !! (NS_PRUNE_RECEIPTS, key) = Some encoded /\ receipt_from_slice encoded = Ok r) (fun _ => True).
Proof.
  intros Hnew. induction n as [|n IH]; cbn [resume_plan]; [by apply triple_lift|].
  eapply triple_bind; [apply prune_call_triple|]. intros ?. cbn beta. apply triple_pre. intros m1 Hm1.
  apply (triple_bind _ _ _ (fun current m2 => current = m1 !! (NS_PRUNE_RECEIPTS, key) /\ m2 = m1)).
  { eapply triple_read; [apply (st_get_faithful (view := view) NS_PRUNE_RECEIPTS key)| |done]. by intros ? ? <- [= <-]. }
  intros current. apply triple_pre. intros ? [-> ->]. destruct Hm1 as [[Hres Hold]|[Hc Hrec]].
  - rewrite Hold, bool_decide_false by done. eapply triple_conseq; [exact IH|by intros ? <-|done|done].
  - rewrite Hrec, bool_decide_true by done. apply triple_lift. intros ? <-. by destruct (receipt_from_slice encoded).
Qed.

(** The listing without the entries that are gone. *)
Lemma listing_after m1 gone :
  Within (is_record key) (delete_all (removed gone) m) m1 -> (forall found, found ∈ gone -> found ∈ l) ->
  listing m1 session_id = Ok (List.filter (fun found => negb (bool_decide (found.1 ∈ gone.*1))) l).
Proof.
  intros Hw Hsub. destruct l_sorted as [_ Hnd].
  assert (forall ns k, ns ∉ prune_namespaces -> m1 !! (ns, k) = if bool_decide ((ns, k) ∈ removed gone) then None else m !! (ns, k)) as Hm1.
  { intros ns k Hns. rewrite <- lookup_delete_all. destruct (Hw (ns, k)) as [Hk%record_namespace|]; done. }
  set (q := fun k : string => negb (bool_decide (k ∈ gone.*1))).
  assert (index_keys m1 session_id = List.filter q (index_keys m session_id)) as Hidx.
  { apply (Sorted_unique String.le); [apply (Sorted_merge_sort _)|apply StronglySorted_Sorted, StronglySorted_list_filter, sorted_keys_sorted|].
    apply NoDup_Permutation; [apply sorted_keys_NoDup|apply NoDup_ListNoDup, List.NoDup_filter, NoDup_ListNoDup, sorted_keys_NoDup|].
    intros k. rewrite (list_elem_of_In (List.filter _ _)), filter_In, <- list_elem_of_In. unfold index_keys. rewrite !elem_of_sorted_keys.
    rewrite Hm1 by (unfold prune_namespaces; set_solver). unfold q. rewrite negb_true_iff, bool_decide_eq_false, <- session_key_removed.
    case_bool_decide; [|naive_solver]. split; [by intros [[] ?]|by intros [_ []]]. }
  unfold listing. rewrite Hidx, <- (entries_keys _ _ _ Hl). apply try_map_Ok.
  replace (List.filter q l.*1) with (List.filter (fun found => q found.1) l).*1.
  2:{ clear. induction l as [|x l' IH]; [done|]. cbn. destruct (q x.1); cbn; by rewrite IH. }
  apply Forall2_fmap_l, Forall_Forall2_diag, Forall_forall. intros found [Hfl Hq]%list_elem_of_In%filter_In. unfold compose.
  apply list_elem_of_In in Hfl. pose proof (listing_entry _ _ _ _ Hl Hfl) as Hp. unfold page_entry in *. destruct Hwell as [Hids Hnid].
  rewrite Forall_forall in Hids. rewrite (Hids _ Hfl) in *. cbn [rbind] in *. unfold get, st_get in *. cbn [kv_get ideal_store map_err rbind] in *.
  rewrite Hm1, bool_decide_false; [done| |unfold prune_namespaces; set_solver]. rewrite entry_key_removed.
  intros (g & Hg & Hgin)%list_elem_of_fmap. apply negb_true_iff, bool_decide_eq_false in Hq. apply Hq. apply list_elem_of_fmap.
  exists g. split; [|done]. f_equal. apply (NoDup_fmap_inj (fun found => e_id found.2) l); auto.
Qed.
End Resume.

(** ** The whole removal *)

Section Persist.
  Context `{!ReceiptCodec} `{!ReceiptCodecLaws} {A : Type} `{!AuditArchiver A}.

Lemma chain_part_filter (q : string * AuditEntry -> bool) principal l :
  chain_part principal (List.filter q l) = List.filter q (chain_part principal l).
Proof.
  unfold chain_part. induction l as [|x l IH]; [done|]. cbn.
  destruct (q x) eqn:Hq, (bool_decide (e_principal x.2 = principal)) eqn:Hp; cbn; rewrite ?Hq, ?Hp, ?IH; done.
Qed.

Lemma elem_of_chain_part principal l found : found ∈ chain_part principal l <-> found ∈ l /\ e_principal found.2 = principal.
Proof. unfold chain_part. rewrite list_elem_of_In, filter_In, <- list_elem_of_In, bool_decide_eq_true. done. Qed.

Lemma chain_parts_after l principal om kept p :
  NoDup l.*1 -> chain_part principal l = om ++ kept ->
  chain_part p (List.filter (fun found => negb (bool_decide (found.1 ∈ om.*1))) l) =
  if bool_decide (p = principal) then kept else chain_part p l.
Proof.
  intros Hnd Hch. rewrite chain_part_filter.
  assert (forall found, found ∈ l -> found.1 ∈ om.*1 -> found ∈ om) as Hin.
  { intros found Hf (o & Ho & Hom)%list_elem_of_fmap. replace found with o; [done|]. symmetry.
    assert (o ∈ l) by (apply (elem_of_chain_part principal); rewrite Hch; apply elem_of_app; by left).
    by apply (NoDup_fmap_inj fst l). }
  case_bool_decide as Hp.
  - subst p. rewrite Hch, List.filter_app.
    assert (NoDup (om ++ kept).*1) as Hnd'.
    { rewrite <- Hch. clear -Hnd. unfold chain_part. induction l as [|x l IH]; [done|]. cbn in *. apply NoDup_cons in Hnd as [Hx Hnd].
      destruct (bool_decide _); [|by apply IH]. cbn. apply NoDup_cons. split; [|by apply IH].
      intros (y & Hy & [Hin _]%list_elem_of_In%filter_In)%list_elem_of_fmap. apply Hx, list_elem_of_fmap. exists y. split; [done|]. by apply list_elem_of_In. }
    rewrite fmap_app in Hnd'. apply NoDup_app in Hnd' as (_ & Hdis & _).
    rewrite (list_filter_all _ kept).
    + replace (List.filter _ om) with (@nil (string * AuditEntry)); [done|]. symmetry. clear. apply list_filter_none.
      intros x Hx. rewrite negb_false_iff. apply bool_decide_eq_true, list_elem_of_fmap. by exists x.
    + intros x Hx. rewrite negb_true_iff, bool_decide_eq_false. intros Hom. apply (Hdis x.1); [done|]. apply list_elem_of_fmap. by exists x.
  - apply list_filter_all. intros x [Hx Hpx]%elem_of_chain_part. rewrite negb_true_iff, bool_decide_eq_false. intros Hom%Hin; [|done].
    assert (x ∈ chain_part principal l) as [_ ?]%elem_of_chain_part by (rewrite Hch; apply elem_of_app; by left). congruence.
Qed.

Lemma receipt_details r encoded om kept :
  receipt_to_vec r = Ok encoded -> describes r om kept ->
  exists details, ReceiptDetails_parse encoded = Ok details /\ rd_cutoff details = fst <$> last om.
Proof.
  intros (v & Hv & Hm)%receipt_value Hd. unfold ReceiptDetails_parse, parse_value. rewrite Hv. cbn [map_err rbind].
  eexists. split; [done|]. cbn [rd_cutoff]. by rewrite (rm_cutoff _ _ Hm), (ds_cutoff _ _ _ Hd).
Qed.

Lemma chain_upto_omitted principal l om kept :
  cursor_sorted l -> chain_part principal l = om ++ kept -> chain_upto (fst <$> last om) principal l = om.
Proof.
  intros Hs Hch. destruct (last om) as [o|] eqn:Ho; cbn [chain_upto fmap option_fmap option_map].
  - rewrite Hch. apply (upto_split _ _ _ o); [|done|done]. rewrite <- Hch. by apply filter_sorted.
  - apply last_None in Ho as ->. done.
Qed.

#[local] Opaque MAX_RESUME_PAGES.

Lemma persist_prune_run log session_id principal r encoded (s s' : S) (a a' : A) r' :
  receipt_to_vec r = Ok encoded -> persist_prune log session_id principal r (s, a) = ((s', a'), Ok r') ->
  exists pages keep, resume_plan pages session_id principal keep encoded s = (s', Ok r').
Proof.
  intros Henc Hrun. unfold persist_prune in Hrun. rewrite Henc in Hrun. apply eff_bind_inv in Hrun as (w1 & ? & [= <- <-] & Hrun).
  apply eff_bind_inv in Hrun as ([s1 a1] & ? & Harch & Hrun). unfold on_archive in Harch. cbn [fst snd] in Harch.
  destruct (archive_pruned _ _ _ _ _ _ a) as [a2 res]. injection Harch as <- <- _. unfold on_store in Hrun. cbn [fst snd] in Hrun.
  destruct (resume_plan _ _ _ _ _ s) as [s2 res'] eqn:Hres. injection Hrun as <- <- ->. eauto.
Qed.

(** What a finished prune leaves. *)
Record prune_done (m m' : KvMap) session_id principal l om kept (encoded : string) : Prop := {
  pd_receipt : m' !! (NS_PRUNE_RECEIPTS, chain_head_key session_id principal) = Some encoded;
  pd_frame ns k : is_record (chain_head_key session_id principal) (ns, k) \/
    m' !! (ns, k) = if bool_decide ((ns, k) ∈ removed om) then None else m !! (ns, k);
  pd_listing : exists l', listing m' session_id = Ok l' /\
    forall p, chain_part p l' = if bool_decide (p = principal) then kept else chain_part p l;
}.

Lemma persist_prune_prunes (s s' : S) (a a' : A) log session_id principal l om kept r r' encoded :
  let key := chain_head_key session_id principal in
  listing (view s) session_id = Ok l -> paged (view s) session_id -> well_indexed l ->
  chain_part principal l = om ++ kept -> describes r om kept -> receipt_to_vec r = Ok encoded ->
  view s !! (NS_PRUNE_PLANS, key) = None -> view s !! (NS_PRUNE_RECEIPTS, key) <> Some encoded ->
  persist_prune log session_id principal r (s, a) = ((s', a'), Ok r') ->
  r' = r /\ prune_done (view s) (view s') session_id principal l om kept encoded.
Proof.
  intros key Hl Hpaged Hwell Hch Hd Henc Hnoplan Hnew Hrun. destruct (listing_sorted _ _ _ Hl) as [Hs Hnd].
  destruct (receipt_details _ _ _ _ Henc Hd) as (details & Hdet & Hcut).
  destruct (persist_prune_run _ _ _ _ _ _ _ _ _ _ Henc Hrun) as (pages & keep & Hres).
  pose proof (resume_triple (view s) session_id principal l Hl Hpaged Hwell encoded details _ Hdet Hnoplan _ Hnew s s' (Ok r') (or_introl eq_refl) Hres)
    as (Hclear & Hrec & Hparse).
  unfold cleared in Hclear. rewrite Hcut, (chain_upto_omitted _ _ om kept) in Hclear by done.
  rewrite (receipt_roundtrip _ _ Henc) in Hparse. injection Hparse as <-. split; [done|]. split; [done| |].
  - intros ns k. rewrite <- lookup_delete_all. by destruct (Hclear (ns, k)) as [Hk|Hk]; [left|right].
  - eexists. split.
    + eapply (listing_after (view s) session_id principal l Hl Hpaged Hwell); [exact Hdet|exact Hnoplan|exact Hclear|].
      intros found Hin. apply (elem_of_chain_part principal). rewrite Hch. apply elem_of_app. by left.
    + intros p. by apply chain_parts_after.
Qed.

(** C5: a prune that reports success has removed what its receipt omits and
    nothing else.  Over however many calls the removal took, the receipt is
    installed and returned; outside the records of the chain's prunes, a key of
    the store is gone if it belongs to an omitted entry and unchanged otherwise;
    and the session's listing afterwards has of this chain the kept entries and
    of every other chain what it had. *)
Theorem prune_removes_omitted (s s' : S) (a a' : A) log session_id principal l om kept r r' encoded :
  let key := chain_head_key session_id principal in
  listing (view s) session_id = Ok l -> paged (view s) session_id -> well_indexed l ->
  chain_part principal l = om ++ kept -> describes r om kept -> receipt_to_vec r = Ok encoded ->
  view s !! (NS_PRUNE_PLANS, key) = None -> view s !! (NS_PRUNE_RECEIPTS, key) <> Some encoded ->
  persist_prune log session_id principal r (s, a) = ((s', a'), Ok r') ->
  r' = r /\ view s' !! (NS_PRUNE_RECEIPTS, key) = Some encoded /\
  (forall ns k, is_record key (ns, k) \/
     view s' !! (ns, k) = if bool_decide ((ns, k) ∈ removed om) then None else view s !! (ns, k)) /\
  exists l', listing (view s') session_id = Ok l' /\
    forall p, chain_part p l' = if bool_decide (p = principal) then kept else chain_part p l.
Proof.
  intros key Hl Hpaged Hwell Hch Hd Henc Hnoplan Hnew Hrun.
  destruct (persist_prune_prunes _ _ _ _ _ _ _ _ _ _ _ _ _ Hl Hpaged Hwell Hch Hd Henc Hnoplan Hnew Hrun) as [-> [Hrec Hframe Hlist]]. done.
Qed.
End Persist.
End Removal.
