(* ===== verification/AuditAnchoring.v ===== *)
(** * Watermarks

    Theorems about the anchored watermarks of [AuditRetention]: a signed
    prune keeps everything past the chain's watermark, a mark that is accepted
    names the entry at its position and raises the watermark, and the choice
    of a segment to prune does not depend on the pages it is made by. *)

From stdpp Require Import sorting pretty.
From S2P Require Import Prelude Profile Kv Bytes Cbor Crypto KeyRegistry AuditEntry AuditChain AuditLog.
From S2P Require Import AuditStorage CrashLogic AuditDurability AuditHistory AuditPrune AuditPruning AuditRetention AuditKeeping.
From Stdlib Require Import Ascii.
Local Open Scope string_scope.
Local Open Scope list_scope.

#[local] Existing Instance ideal_store.
#[local] Existing Instance ideal_laws.

(** ** What a prune may reach *)

Section Reach.
  Context `{CryptoLaws} `{AuditSerde} `{UuidText} `{!StorageCodec} `{PruneCodec} `{ReceiptCodec}.
  Implicit Types (m : KvMap) (session_id : Uuid) (principal : option string) (om kept l : list (string * AuditEntry)).

Lemma check_prune_reach_Ok m log session_id principal remove positions bytes mark :
  check_prune_reach m log session_id principal remove = Ok tt -> remove <> 0%N ->
  chain_positions m session_id principal = Ok (Some positions) -> anchor_mark m session_id principal = Ok (bytes, mark) ->
  match mark with
  | Some mark => exists before, cp_omitted_total positions = Some before /\ (before + remove <= mk_position mark)%N
  | None => rl_require_anchor log = false
  end.
Proof.
  intros Hc Hne Hp Hm. unfold check_prune_reach in Hc. rewrite (proj2 (N.eqb_neq remove 0) Hne), Hp in Hc. cbn [rbind] in Hc.
  unfold prune_limit in Hc. rewrite Hm in Hc. cbn [rbind snd] in Hc. destruct mark as [mark|]; cbn [fmap option_fmap option_map] in Hc.
  - rewrite bool_decide_false in Hc by done. cbn [andb] in Hc. destruct (cp_omitted_total positions) as [before|]; [|done]. exists before.
    split; [done|]. cbn [rbind] in Hc. unfold PruneLimit_check in Hc. destruct (N.leb_spec remove (max_omitted (MkPruneLimit (chain_label session_id principal) before (Some (mk_position mark))))) as [Hle|]; [|done].
    unfold max_omitted, sat_sub in Hle. cbn in Hle. lia.
  - rewrite bool_decide_true in Hc by done. cbn [andb] in Hc. destruct (rl_require_anchor log); [|done]. cbn [negb] in Hc.
    destruct (cp_omitted_total positions) as [before|]; [|done]. cbn [rbind] in Hc. unfold PruneLimit_check, max_omitted, sat_sub in Hc.
    cbn [pl_anchored pl_omitted_before default from_option] in Hc. destruct (N.leb_spec remove (0 - before)); [lia|done].
Qed.

(** The entries of a chain at or past the anchored position, [before] entries
    of it being gone. *)
Definition unanchored (before : N) (mark : AnchorMark) (chain : list (string * AuditEntry)) : list (string * AuditEntry) :=
  drop (N.to_nat (mk_position mark - before)) chain.

(** C9: a signed prune keeps everything past the chain's watermark.  The
    entries it omits, counted from the chain's first with those pruned before,
    all lie before the anchored position; and a chain without a watermark loses
    nothing while anchoring is required. *)
Theorem unanchored_history_kept m log session_id principal policy selected l r positions bytes mark :
  listing m session_id = Ok l -> paged m session_id -> countable (chain_part principal l) ->
  chain_positions m session_id principal = Ok (Some positions) -> anchor_mark m session_id principal = Ok (bytes, mark) ->
  sign_prune_receipt m log session_id principal policy selected = Ok r ->
  exists om kept, chain_part principal l = om ++ kept /\ describes r om kept /\
    (om <> [] ->
     match mark with
     | Some mark => exists before, cp_omitted_total positions = Some before /\
                    (before + N.of_nat (length om) <= mk_position mark)%N /\
                    unanchored before mark (chain_part principal l) `suffix_of` kept
     | None => rl_require_anchor log = false
     end).
Proof.
  intros Hl Hpaged Hc Hpos Hmark Hr. destruct (receipt_of_scan _ _ _ _ _ _ _ _ Hl Hpaged Hc Hr) as (om & kept & Heq & _ & _ & Hd).
  exists om, kept. split_and!; [done|done|]. intros Hne. apply sign_prune_receipt_Ok in Hr as (scan & _ & _ & Hreach & _ & Hn & _).
  rewrite <- Hn, (ds_count _ _ _ Hd) in Hreach.
  assert (N.of_nat (length om) <> 0%N) as Hz by (destruct om; [done|cbn; lia]).
  pose proof (check_prune_reach_Ok _ _ _ _ _ _ _ _ Hreach Hz Hpos Hmark) as Hlim. destruct mark as [mark|]; [|done].
  destruct Hlim as (before & Hb & Hle). exists before. split_and!; [done|done|]. unfold unanchored. rewrite Heq, drop_app_ge by lia.
  eexists (take _ kept). by rewrite take_drop.
Qed.
End Reach.

(** ** Marks *)

Section Marks.
  Context `{Crypto} `{AuditSerde} `{UuidText} `{!StorageCodec} `{PruneCodecLaws} `{ReceiptCodec}.
  Implicit Types (m : KvMap) (session_id : Uuid) (principal : option string) (l : list (string * AuditEntry)).

Definition located_at (found : string * AuditEntry) : Located :=
  MkLocated (content_hash found.2) (Some (e_id found.2)) (Some found.1).

Lemma walk_page_spec target page : forall next after,
  (next <= target)%N -> (target < U64_MAX)%N ->
  walk_page target next after page =
  match page !! N.to_nat (target - next) with
  | Some found => inl (located_at found)
  | None => inr ((next + N.of_nat (length page))%N, from_option (fun found => Some found.1) after (last page))
  end.
Proof.
  induction page as [|[cursor e] page IH]; intros next after Hn Hu; cbn [walk_page].
  { rewrite lookup_nil. cbn. by rewrite N.add_0_r. }
  destruct (N.eqb_spec next target) as [->|Hne].
  { by rewrite N.sub_diag. }
  rewrite sat_add_exact by lia. rewrite IH by lia.
  replace (N.to_nat (target - next)) with (Datatypes.S (N.to_nat (target - (next + 1)))) by lia. cbn [lookup list_lookup].
  fold (page !! N.to_nat (target - (next + 1))). destruct (page !! _); [done|]. cbn [length]. f_equal. f_equal; [lia|].
  destruct page as [|y page]; [done|]. change (last ((cursor, e) :: y :: page)) with (last (y :: page)).
  destruct (last (y :: page)) eqn:Hy; [done|by apply last_None in Hy].
Qed.

Lemma walk_pages_spec m session_id principal l position :
  listing m session_id = Ok l -> (0 < position <= U64_MAX)%N -> forall fuel next after,
  (next < position)%N -> length (after_cursor after (chain_part principal l)) < fuel ->
  walk_pages fuel m session_id principal position next after =
  match after_cursor after (chain_part principal l) !! N.to_nat (position - 1 - next) with
  | Some found => Ok (located_at found)
  | None => Err (chain_ended (next + N.of_nat (length (after_cursor after (chain_part principal l)))) position)
  end.
Proof.
  intros Hl Hpos. assert (cursor_sorted (chain_part principal l)) as [Hs Hnd] by apply filter_sorted, (listing_sorted _ _ _ Hl).
  induction fuel as [|fuel IH]; intros next after Hn Hf; [lia|]. cbn [walk_pages].
  rewrite (principal_page_spec _ _ _ _ _ _ Hl), chain_after. cbn [rbind]. set (rest := after_cursor after (chain_part principal l)) in *.
  destruct (take WALK_PAGE rest) as [|x page] eqn:Hpage.
  { assert (rest = []) as -> by by destruct rest. rewrite lookup_nil. cbn. by rewrite N.add_0_r. }
  unfold sat_sub. rewrite walk_page_spec by lia. set (pg := x :: page) in *.
  assert (rest = pg ++ drop WALK_PAGE rest) as Hrest by (rewrite <- Hpage; symmetry; apply take_drop).
  destruct (pg !! N.to_nat (position - 1 - next)) as [found|] eqn:Hi.
  - rewrite Hrest. by rewrite (lookup_app_l_Some _ _ _ _ Hi).
  - apply lookup_ge_None in Hi. destruct (last pg) as [y|] eqn:Hy; [|by apply last_None in Hy]. cbn [from_option].
    assert (after_cursor (Some y.1) (chain_part principal l) = drop WALK_PAGE rest) as Hnext.
    { apply (page_rest fst (chain_part principal l) after WALK_PAGE y Hs Hnd). change (last (take WALK_PAGE rest) = Some y). by rewrite Hpage. }
    assert (rest !! N.to_nat (position - 1 - next) = drop WALK_PAGE rest !! N.to_nat (position - 1 - (next + N.of_nat (length pg)))) as ->.
    { rewrite Hrest at 1. rewrite lookup_app_r by done. f_equal. lia. }
    assert (length rest = length pg + length (drop WALK_PAGE rest)) as Hlen by (rewrite Hrest at 1; apply length_app).
    rewrite IH by (rewrite ?Hnext; cbn [length pg] in *; lia). rewrite Hnext, Hlen. destruct (drop WALK_PAGE rest !! _); [done|]. do 2 f_equal. lia.
Qed.

(** The mark's cursor is where its position is. *)
Definition mark_aligned (omitted : N) (chain : list (string * AuditEntry)) (mark : AnchorMark) : Prop :=
  (omitted <= mk_position mark)%N -> is_Some (mk_cursor mark) ->
  after_cursor (mk_cursor mark) chain = drop (N.to_nat (mk_position mark - omitted)) chain.

Lemma locate_position_spec m session_id principal l before omitted current position located :
  listing m session_id = Ok l -> (omitted < position <= U64_MAX)%N ->
  (forall mark, current = Some mark -> mark_aligned omitted (chain_part principal l) mark /\ (mk_position mark < position)%N) ->
  locate_position m session_id principal before omitted current position = Ok located ->
  exists found, chain_part principal l !! N.to_nat (position - omitted - 1) = Some found /\ located = located_at found.
Proof.
  intros Hl Hp Hcur. unfold locate_position. destruct (N.ltb_spec position omitted); [lia|]. destruct (N.eqb_spec position omitted); [lia|].
  unfold session_keys. cbn [kv_list_keys_with_prefix ideal_store map_err rbind].
  assert (forall after, length (after_cursor after (chain_part principal l)) <
    Datatypes.S (length (List.filter (starts_with (uuid_to_string session_id +:+ ":")) (map_keys m NS_SESSION_ENTRIES)))) as Hfuel.
  { intros after. rewrite (listing_length _ _ _ Hl). apply le_n_S. etrans; [apply after_length|]. apply chain_part_length. }
  assert (exists next after, walk_start omitted current = (next, after) /\ (omitted <= next < position)%N /\
    after_cursor after (chain_part principal l) = drop (N.to_nat (next - omitted)) (chain_part principal l)) as (next & after & -> & Hn & Hafter).
  { unfold walk_start. destruct current as [mark|]; [|exists omitted, None; rewrite after_none, N.sub_diag; split_and!; [done|lia|lia|done]].
    destruct (Hcur mark eq_refl) as [Hal Hlt]. destruct (N.leb_spec omitted (mk_position mark)) as [Hle|]; cbn [andb].
    - case_bool_decide as Hc; [|exists omitted, None; rewrite after_none, N.sub_diag; split_and!; [done|lia|lia|done]].
      exists (mk_position mark), (mk_cursor mark). split_and!; [done|lia|lia|by apply Hal].
    - exists omitted, None. rewrite after_none, N.sub_diag. split_and!; [done|lia|lia|done]. }
  rewrite (walk_pages_spec _ _ _ _ _ Hl) by (done || lia). rewrite Hafter, lookup_drop.
  replace (N.to_nat (next - omitted) + N.to_nat (position - 1 - next)) with (N.to_nat (position - omitted - 1)) by lia.
  destruct (chain_part principal l !! _) as [found|]; [|done]. intros [= <-]. by exists found.
Qed.

(** Releasing the retention hold, and the recovery before it, leave marks alone. *)
Definition not_marks (k : string * string) : Prop := k.1 <> NS_ANCHOR_MARKS.

Lemma st_cas_not_marks m ns k e v : ns <> NS_ANCHOR_MARKS -> keeps (view := id) not_marks m (st_cas ns k e v).
Proof. intros Hns. by apply keeps_cas. Qed.
Lemma st_set_not_marks m ns k v : ns <> NS_ANCHOR_MARKS -> keeps (view := id) not_marks m (st_set ns k v).
Proof. intros Hns. by apply keeps_set. Qed.
Lemma st_delete_not_marks m ns k : ns <> NS_ANCHOR_MARKS -> keeps (view := id) not_marks m (st_delete ns k).
Proof. intros Hns. by apply keeps_delete. Qed.
#[local] Hint Resolve st_cas_not_marks st_set_not_marks st_delete_not_marks : keeps.
#[local] Hint Extern 1 (_ <> NS_ANCHOR_MARKS) => done : keeps.

Lemma hold_not_marks m reason : keeps (view := id) not_marks m (set_retention_hold reason).
Proof.
  unfold set_retention_hold, recover_append_intents, recover_writes, recover_cas, commit_entry_projection, mark_committed,
    persist_sealed_segment, remove_append_intent, st_cas_or. keeps_tac.
Qed.

Lemma compare_None current position hash mark :
  compare_with_watermark current position hash = Ok None -> current = Some mark -> (mk_position mark < position)%N.
Proof.
  intros Hc ->. unfold compare_with_watermark in Hc. destruct (N.ltb_spec position (mk_position mark)); [done|].
  destruct (N.ltb_spec (mk_position mark) position); [done|]. by destruct (negb _).
Qed.

Lemma mark_target_Ok m session_id principal position hash evidence before omitted bytes current unchanged :
  mark_target m session_id principal position hash evidence = Ok (before, omitted, bytes, current, unchanged) ->
  chain_positions m session_id principal = Ok (Some before) /\ cp_omitted_total before = Some omitted /\
  anchor_mark m session_id principal = Ok (bytes, current) /\ compare_with_watermark current position hash = Ok unchanged.
Proof.
  unfold mark_target. intros (? & _ & Hr)%rbind_Ok. destruct (position =? 0)%N; [done|].
  apply rbind_Ok in Hr as (b & Hb & (b' & ->%ok_or_Ok & Hr)%rbind_Ok). destruct (cp_prune_pending b'); [done|].
  apply rbind_Ok in Hr as (o & Ho%ok_or_Ok & Hr). destruct (_ <? _)%N; [done|].
  apply rbind_Ok in Hr as ([mb mc] & Hm & (u & Hu%map_err_Ok & [= <- <- <- <- <-])%rbind_Ok). done.
Qed.

Lemma install_mark_Ok m session_id principal expected receipt mark m' :
  install_anchor_mark session_id principal expected receipt mark m = (m', Ok Installed) ->
  exists bytes, mark_to_vec mark = Ok bytes /\ m' = <[(NS_ANCHOR_MARKS, chain_head_key session_id principal) := bytes]> m.
Proof.
  unfold install_anchor_mark. intros (m1 & bytes & [= <- Hb%map_err_Ok] & (m2 & pending & [= <- _] & (m3 & r & [= <- _] & Hr)%eff_bind_inv)%eff_bind_inv)%eff_bind_inv.
  destruct (_ || _); [done|]. apply eff_bind_inv in Hr as (m4 & won & Hcas & Hr). exists bytes. split; [done|].
  unfold st_cas in Hcas. cbn [kv_compare_and_swap ideal_store] in Hcas. case_bool_decide; injection Hcas as <- <-; [|done]. by injection Hr as <-.
Qed.

Lemma aligned_at omitted position (chain : list (string * AuditEntry)) found mark :
  cursor_sorted chain -> chain !! N.to_nat (position - omitted - 1) = Some found -> (omitted < position)%N ->
  mk_position mark = position -> mk_cursor mark = Some found.1 -> mark_aligned omitted chain mark.
Proof.
  intros [Hs Hnd] Hi Hlt Hp Hc _ _. rewrite Hp, Hc. apply list_elem_of_split_length in Hi as (l1 & l2 & -> & Hlen).
  etrans; [apply (sorted_after fst l1 l2 found Hs Hnd)|]. rewrite drop_app_ge by lia.
  replace (N.to_nat (position - omitted) - length l1) with 1 by lia. done.
Qed.

End Marks.

(** ** The segment index *)

Lemma split_once_app c x y : contains_char c x = false -> split_once c (x +:+ String c y) = Some (x, y).
Proof.
  intros Hx. induction x as [|a x IH].
  - change ("" +:+ String c y) with (String c y). cbn [split_once]. by rewrite Ascii.eqb_refl.
  - change (String a x +:+ String c y) with (String a (x +:+ String c y)). apply orb_false_iff in Hx as [Ha Hx].
    cbn [split_once]. by rewrite Ha, IH.
Qed.

Lemma split_once_None c s : contains_char c s = false -> split_once c s = None.
Proof. induction s as [|a s IH]; [done|]. cbn. intros [-> Hs]%orb_false_iff. by rewrite IH. Qed.

Lemma decimal_no_colon w : forall n, (n < 10 ^ N.of_nat w)%N -> contains_char ":" (decimal w n) = false.
Proof.
  induction w as [|w IH]; intros n Hn; [done|]. cbn [decimal contains_char]. rewrite pow_10_S in Hn. set (P := (10 ^ N.of_nat w)%N) in *.
  assert (P <> 0)%N by (unfold P; lia). apply orb_false_iff. split; [|apply IH, N.mod_lt; done].
  assert (n / P < 10)%N as Hq by (apply N.Div0.div_lt_upper_bound; lia).
  apply Ascii.eqb_neq. intros Heq. apply (f_equal N_of_ascii) in Heq. rewrite decimal_digit in Heq by done. cbn in Heq. lia.
Qed.

Section Segments.
  Context `{Crypto} `{AuditSerde} `{UuidTextLaws} `{!StorageCodec} `{PruneCodec}.

(** The key a sealed segment is stored under gives back the chain it belongs
    to. *)
Lemma segment_key_roundtrip ordinal session_id principal segment :
  (ordinal <= U64_MAX)%N -> (segment <= U64_MAX)%N ->
  (forall p, principal = Some p -> PrincipalId_new p = Ok (MkPrincipalId p)) ->
  segment_chain (segment_index_key ordinal (chain_head_key session_id principal) segment) =
  Ok (MkSegmentChain session_id principal (chain_head_key session_id principal)).
Proof.
  intros Ho Hs Hp. unfold segment_chain, segment_index_key.
  assert (forall t, ":" +:+ t = String ":" t) as Hcolon by done. rewrite !Hcolon.
  rewrite (split_once_app ":" (pad20 ordinal)) by (apply decimal_no_colon, u64_digits; done). cbn [ok_or rbind snd].
  rewrite (rsplit_once_app ":" (chain_head_key session_id principal) (pad20 segment)) by (apply decimal_no_colon, u64_digits; done).
  cbn [ok_or rbind fst]. destruct principal as [p|]; cbn [chain_head_key].
  - rewrite Hcolon, split_once_app by (by apply uuid_avoids). rewrite uuid_roundtrip. cbn [ok_or rbind].
    by rewrite (Hp p eq_refl).
  - rewrite split_once_None by (by apply uuid_avoids). by rewrite uuid_roundtrip.
Qed.

(** The search a page at a time is the search over all keys. *)
Lemma select_keys_app {St : Type} `{KvStore St} (s : St) log policy page rest : forall refused,
  select_keys s log policy refused (page ++ rest) =
  let? chosen := select_keys s log policy refused page in
  match chosen with inl segment => Ok (inl segment) | inr refused => select_keys s log policy refused rest end.
Proof.
  induction page as [|key page IH]; intros refused; [done|]. cbn [app select_keys]. destruct (segment_chain key) as [chain|]; [|done]. cbn [rbind].
  case_bool_decide; [apply IH|]. destruct (sealed_segment s key) as [[segment|]|]; [|apply IH|done]. cbn [rbind].
  destruct (segment_prune _ _ _ _ _) as [retain|e]; [done|]. by destruct e.
Qed.

Definition search_result (chosen : PrunableSegment + Refusals) : AuditResult (option PrunableSegment) :=
  match chosen with
  | inl segment => Ok (Some segment)
  | inr refused => match refused.2 with None => Ok None | Some error => Err error end
  end.

Lemma select_pages_spec (m : KvMap) log policy : forall fuel after refused,
  length (List.filter (after_key after) (sorted_keys m NS_SEGMENT_INDEX "")) < fuel ->
  select_pages fuel m log policy after refused =
  let? chosen := select_keys m log policy refused (List.filter (after_key after) (sorted_keys m NS_SEGMENT_INDEX "")) in search_result chosen.
Proof.
  induction fuel as [|fuel IH]; intros after refused Hf; [lia|]. cbn [select_pages]. unfold sealed_segment_keys. rewrite st_list_page_ideal.
  cbn [rbind]. set (rest := List.filter _ _) in *.
  replace (select_keys m log policy refused rest) with (select_keys m log policy refused (take SEGMENT_KEY_PAGE rest ++ drop SEGMENT_KEY_PAGE rest))
    by by rewrite take_drop.
  rewrite select_keys_app.
  destruct (select_keys m log policy refused (take SEGMENT_KEY_PAGE rest)) as [[segment|refused']|]; [done| |done]. cbn [rbind].
  destruct (Nat.ltb_spec (length (take SEGMENT_KEY_PAGE rest)) SEGMENT_KEY_PAGE) as [Hs|Hs]; rewrite length_take in Hs.
  - rewrite drop_ge by lia. by destruct refused' as [b [e|]].
  - destruct (last (take SEGMENT_KEY_PAGE rest)) as [x|] eqn:Hx.
    + assert (List.filter (after_key (Some x)) (sorted_keys m NS_SEGMENT_INDEX "") = drop SEGMENT_KEY_PAGE rest) as Hr.
      { apply (page_rest id); [apply sorted_keys_sorted|rewrite list_fmap_id; apply sorted_keys_NoDup|done]. }
      rewrite <- Hr. apply IH. rewrite Hr, length_drop. unfold SEGMENT_KEY_PAGE in *. lia.
    + apply last_None, (f_equal length) in Hx. rewrite length_take in Hx. unfold SEGMENT_KEY_PAGE in *. cbn [length] in Hx. lia.
Qed.

(** Choosing a segment to prune, 256 index keys at a time, ends and
    chooses what one pass over the whole index in seal order chooses: the
    oldest segment whose removal is allowed among the chains of which no older
    segment was refused, and otherwise the refusal of the oldest. *)
Theorem select_segment_exact (m : KvMap) log policy :
  select_prunable_segment m log policy =
  let? chosen := select_keys m log policy ([], None) (sorted_keys m NS_SEGMENT_INDEX "") in search_result chosen.
Proof.
  unfold select_prunable_segment. cbn [kv_list_keys_with_prefix ideal_store map_err rbind].
  assert (List.filter (after_key None) (sorted_keys m NS_SEGMENT_INDEX "") = sorted_keys m NS_SEGMENT_INDEX "") as Hall.
  { generalize (sorted_keys m NS_SEGMENT_INDEX ""). intros l. induction l as [|k l IH]; [done|]. cbn [List.filter after_key from_option]. by f_equal. }
  rewrite select_pages_spec, Hall; [done|]. rewrite Hall. unfold sorted_keys. rewrite merge_sort_Permutation. lia.
Qed.
End Segments.
