(* ===== verification/AuditVerify.v ===== *)
(** * Verifying the stored chains

    [crates/astrid-audit/src/log/verify_chain.rs],
    [log/verify_legacy_chain.rs], the registry a log verifies against
    ([log/v2.rs], [storage/key_registry.rs]) and
    [storage/paging_chains.rs].

    A session is verified chain by chain: the chains are the session's
    metadata records, read in pages, and each chain is read in pages of
    entries.  Every entry is checked against the one before; the first must
    start its chain or follow what a prune receipt omitted.  A session
    without metadata records is verified from its index.

    Issues are reported in the order they are found, up to a limit.  The
    order in which a hash map yields the chains of such a session is the class
    [ChainIteration]; the JSON of a registry record is the class
    [RegistryCodec]. *)

From stdpp Require Import sorting pretty.
From S2P Require Import Prelude Profile Kv Bytes Cbor Crypto KeyRegistry AuditEntry AuditChain AuditLog.
From S2P Require Import AuditStorage AuditPrune AuditRetention.
From Stdlib Require Import Ascii.
Local Open Scope string_scope.
Local Open Scope list_scope.

Definition PAGE_SIZE : nat := 256.
Definition MAX_ISSUES : nat := 1024.
Definition RECORD_PREFIX : string := "record:".

Record VerificationState : Type := MkVerificationState {
  ver_entries : N;
  ver_issues : list ChainIssue;
}.

Definition VerificationState_new : VerificationState := MkVerificationState 0 [].

Definition push_issue (state : VerificationState) (issue : ChainIssue) : VerificationState :=
  if (length (ver_issues state) <? MAX_ISSUES)%nat
  then MkVerificationState (ver_entries state) (ver_issues state ++ [issue])
  else state.

Definition count_verified (state : VerificationState) : VerificationState :=
  MkVerificationState (sat_add USIZE_MAX (ver_entries state) 1) (ver_issues state).

Definition no_issues (issues : list ChainIssue) : bool := match issues with [] => true | _ :: _ => false end.

Definition finish_verification (state : VerificationState) : ChainVerificationResult :=
  MkChainVerificationResult (no_issues (ver_issues state)) (N.to_nat (ver_entries state)) (ver_issues state).

Class RegistryCodec `{Crypto} : Type := { record_from_slice : string -> result KeyRegistryRecord string }.

Class ChainIteration `{AuditSerde} : Type := {
  iter_legacy_chains : gmap (option string) (list AuditEntry) -> list (option string * list AuditEntry);
}.
Class ChainIterationLaws `{ChainIteration} : Prop := {
  iter_legacy_chains_perm m : iter_legacy_chains m ≡ₚ map_to_list m;
}.

Section Verify.
  Context {S : Type} `{KvStore S} `{Crypto} `{AuditSerde} `{UuidText} `{!StorageCodec} `{PruneCodec} `{ReceiptCodec}.
  Context `{!RegistryCodec} `{!ChainIteration}.

Implicit Types (session_id : Uuid) (principal : option string) (log : RetentionLog) (registry : option KeyRegistry).

(** ** The registry *)

(** [load_key_registry_records] of the storage. *)
Definition kv_load_key_registry_records (s : S) : AuditResult (list string) :=
  let? keys := map_err kv_failed (kv_list_keys_with_prefix s NS_KEY_REGISTRY RECORD_PREFIX) in
  try_map (fun key =>
    let? bytes := st_get s NS_KEY_REGISTRY key in
    ok_or bytes (StorageError "audit key registry record disappeared")) (merge_sort String.le keys).

Definition kv_load_key_registry (s : S) : AuditResult (option KeyRegistry) :=
  let? raw := kv_load_key_registry_records s in
  match raw with
  | [] => Ok None
  | _ :: _ =>
      let? records := map_err KeyRegistryMessage (try_map record_from_slice raw) in
      let? loaded := lift_registry (from_records records) in
      Ok (Some loaded)
  end.

Definition kv_verification_registry (s : S) log : AuditResult (option KeyRegistry) :=
  match rl_v2_signer log with
  | Some signer => Ok (Some (vs_registry signer))
  | None => kv_load_key_registry s
  end.

(** ** One entry *)

(** The issues reported for one entry, in order. *)
Definition verify_stored_entry (s : S) (entry : AuditEntry) (previous : option AuditEntry) registry : AuditResult (list ChainIssue) :=
  let? genesis :=
    match previous with
    | Some _ => Ok []
    | None => let? anchored := verify_archive_anchor s entry registry in
              Ok (report (negb anchored) (InvalidGenesis (e_id entry)))
    end in
  Ok (genesis ++ check_entry (new_verifier registry) entry previous).

(** ** One chain *)

Fixpoint verify_page (s : S) registry (previous : option AuditEntry) (state : VerificationState)
    (entries : list (string * AuditEntry)) : AuditResult (option AuditEntry * VerificationState) :=
  match entries with
  | [] => Ok (previous, state)
  | (_, entry) :: rest =>
      let? issues := verify_stored_entry s entry previous registry in
      verify_page s registry (Some entry) (count_verified (fold_left push_issue issues state)) rest
  end.

Fixpoint verify_pages (fuel : nat) (s : S) session_id principal registry (cursor : option string)
    (previous : option AuditEntry) (state : VerificationState) : AuditResult VerificationState :=
  match fuel with
  | O => Ok state
  | Datatypes.S fuel =>
      let? entries := load_principal_entries_page s session_id principal cursor PAGE_SIZE in
      match last entries with
      | None => Ok state
      | Some last_entry =>
          let? next := verify_page s registry previous state entries in
          verify_pages fuel s session_id principal registry (Some last_entry.1) next.1 next.2
      end
  end.

(** A page for each key, and the empty one that ends the loop. *)
Definition verify_indexed_chain (s : S) session_id principal registry (state : VerificationState)
    : AuditResult VerificationState :=
  let? keys := session_keys s session_id in
  verify_pages (Datatypes.S (length keys)) s session_id principal registry None None state.

(** ** The chains of a session ([storage/paging_chains.rs]) *)

Definition chain_of_key (prefix key : string) : AuditResult (string * option string) :=
  let? name := ok_or (strip_prefix prefix key) (StorageError "invalid chain metadata key") in
  let? named := map_err (fun _ => StorageError "invalid principal") (PrincipalId_new name) in
  Ok (key, Some (pid_str named)).

Definition load_session_chains_page (s : S) session_id (after : option string) (limit : nat)
    : AuditResult (list (string * option string)) :=
  let session_key := uuid_to_string session_id in
  let prefix := session_key +:+ ":" in
  let key_limit := match after with None => limit - 1 | Some _ => limit end in
  let? keys := st_list_page s NS_CHAIN_METADATA prefix after key_limit in
  let? result := try_map (chain_of_key prefix) keys in
  if bool_decide (after = None) && (length result <? limit)%nat then
    let? system := st_exists s NS_CHAIN_METADATA session_key in
    Ok (if system : bool then take limit ((session_key, None) :: result) else result)
  else Ok result.

(** ** A session *)

Fixpoint verify_chains (s : S) session_id registry (state : VerificationState) (chains : list (string * option string))
    : AuditResult VerificationState :=
  match chains with
  | [] => Ok state
  | (_, principal) :: rest =>
      let? state := verify_indexed_chain s session_id principal registry state in
      verify_chains s session_id registry state rest
  end.

Definition session_has_entries (s : S) session_id : AuditResult bool :=
  let? page := load_session_entries_page s session_id None 1 in
  Ok (negb (bool_decide (length page = 0))).

Fixpoint verify_legacy_entries (s : S) registry (previous : option AuditEntry) (entries : list AuditEntry)
    : AuditResult (list ChainIssue) :=
  match entries with
  | [] => Ok []
  | entry :: rest =>
      let? issues := verify_stored_entry s entry previous registry in
      let? more := verify_legacy_entries s registry (Some entry) rest in
      Ok (issues ++ more)
  end.

(** The entries by principal, in the order of the session. *)
Definition legacy_chains (entries : list AuditEntry) : gmap (option string) (list AuditEntry) :=
  fold_left (fun chains entry => <[e_principal entry := default [] (chains !! e_principal entry) ++ [entry]]> chains) entries ∅.

Definition verify_legacy_chain (s : S) log session_id : AuditResult ChainVerificationResult :=
  let? registry := kv_verification_registry s log in
  let? entries := get_session_entries s session_id in
  let chains := iter_legacy_chains (legacy_chains entries) in
  let? found := try_map (fun chain => verify_legacy_entries s registry None chain.2) chains in
  let issues := List.concat found in
  let verified := fold_left (fun total chain => sat_add USIZE_MAX total (N.of_nat (length chain.2))) chains 0%N in
  Ok (MkChainVerificationResult (no_issues issues) (N.to_nat verified) issues).

(** What the loop over the pages of chains ends with: the state, or the
    fallback to the index for a session without chains. *)
Fixpoint chain_pages (fuel : nat) (s : S) session_id registry (after : option string) (state : VerificationState)
    : AuditResult (option VerificationState) :=
  match fuel with
  | O => Ok (Some state)
  | Datatypes.S fuel =>
      let? chains := load_session_chains_page s session_id after PAGE_SIZE in
      match last chains with
      | None =>
          if bool_decide (after = None) then
            let? has_entries := session_has_entries s session_id in
            Ok (if has_entries : bool then None else Some state)
          else Ok (Some state)
      | Some last_chain =>
          let? state := verify_chains s session_id registry state chains in
          if (length chains <? PAGE_SIZE)%nat then Ok (Some state)
          else chain_pages fuel s session_id registry (Some last_chain.1) state
      end
  end.

(** A page for each metadata record, one for the system chain and the last. *)
Definition verify_chain (s : S) log session_id : AuditResult ChainVerificationResult :=
  let? registry := kv_verification_registry s log in
  let? keys := map_err kv_failed (kv_list_keys_with_prefix s NS_CHAIN_METADATA (uuid_to_string session_id +:+ ":")) in
  let? done := chain_pages (length keys + 2) s session_id registry None VerificationState_new in
  match done with
  | Some state => Ok (finish_verification state)
  | None => verify_legacy_chain s log session_id
  end.

(** [verify_principal_chain_impl]. *)
Definition verify_principal_chain (s : S) log session_id principal : AuditResult ChainVerificationResult :=
  let? registry := kv_verification_registry s log in
  let? all := get_session_entries s session_id in
  let entries := List.filter (fun entry => bool_decide (e_principal entry = principal)) all in
  let? issues := verify_legacy_entries s registry None entries in
  Ok (MkChainVerificationResult (no_issues issues) (length entries) issues).
End Verify.
