(* ===== verification/AuditVerification.v ===== *)
(** * What verification finds

    Theorems about [AuditVerify]: paging through the chains of a session and
    the entries of a chain reports exactly the issues of each chain, of which
    chains, and that the chains of a session still verify after a prune. *)

From stdpp Require Import sorting pretty.
From S2P Require Import Prelude Profile Kv Bytes Cbor Crypto KeyRegistry AuditEntry AuditChain AuditLog.
From S2P Require Import AuditStorage CrashLogic AuditDurability AuditHistory AuditPrune AuditPruning AuditRetention AuditKeeping.
From S2P Require Import AuditRemoval AuditVerify.
From Stdlib Require Import Ascii.
Local Open Scope string_scope.
Local Open Scope list_scope.

#[local] Existing Instance ideal_store.

(** ** The state of a verification *)

(** The state after [n] entries and these issues. *)
Definition reported (issues : list ChainIssue) (n : nat) : VerificationState :=
  MkVerificationState (N.min (N.of_nat n) USIZE_MAX) (take MAX_ISSUES issues).

Lemma push_reported issues n issue : push_issue (reported issues n) issue = reported (issues ++ [issue]) n.
Proof.
  unfold push_issue, reported. cbn [ver_issues ver_entries]. rewrite length_take.
  destruct (Nat.ltb_spec (Nat.min MAX_ISSUES (length issues)) MAX_ISSUES) as [Hlt|Hge]; f_equal.
  - rewrite !take_ge; [done|rewrite length_app; cbn|]; lia.
  - symmetry. apply take_app_le. lia.
Qed.

Lemma push_all more : forall issues n, fold_left push_issue more (reported issues n) = reported (issues ++ more) n.
Proof.
  induction more as [|issue more IH]; intros issues n; cbn [fold_left]; [by rewrite app_nil_r|].
  by rewrite push_reported, IH, <- app_assoc.
Qed.

Lemma count_reported issues n : count_verified (reported issues n) = reported issues (S n).
Proof. unfold count_verified, reported, sat_add. cbn [ver_entries ver_issues]. f_equal. lia. Qed.

Lemma reported_ok issues n : no_issues (ver_issues (reported issues n)) = no_issues issues.
Proof. by destruct issues. Qed.

Section Chains.
  Context `{Crypto} `{AuditSerde} `{UuidText} `{!StorageCodec} `{PruneCodec} `{ReceiptCodec}.
  Implicit Types (m : KvMap) (session_id : Uuid) (principal : option string) (registry : option KeyRegistry).

(** ** One chain *)

(** The issues of a chain, its start included. *)
Definition chain_issues m registry (chain : list AuditEntry) : AuditResult (list ChainIssue) :=
  let? start :=
    match chain with
    | [] => Ok []
    | first :: _ => let? anchored := verify_archive_anchor m first registry in
                    Ok (report (negb anchored) (InvalidGenesis (e_id first)))
    end in
  Ok (start ++ check_run (new_verifier registry) chain None).

(** The issues of the entries that follow [previous]. *)
Definition issues_after m registry (previous : option AuditEntry) (entries : list AuditEntry) : AuditResult (list ChainIssue) :=
  match previous with
  | None => chain_issues m registry entries
  | Some _ => Ok (check_run (new_verifier registry) entries previous)
  end.

Definition last_of (previous : option AuditEntry) (entries : list AuditEntry) : option AuditEntry :=
  match last entries with Some e => Some e | None => previous end.

Lemma last_of_cons previous e entries : last_of previous (e :: entries) = last_of (Some e) entries.
Proof.
  unfold last_of. destruct entries as [|y entries]; [done|]. change (last (e :: y :: entries)) with (last (y :: entries)).
  by destruct (last (y :: entries)) eqn:Hl; [|apply last_None in Hl].
Qed.

Lemma issues_nil m registry previous : issues_after m registry previous [] = Ok [].
Proof. by destruct previous. Qed.

Lemma issues_cons m registry previous e entries :
  issues_after m registry previous (e :: entries) =
  let? found := verify_stored_entry m e previous registry in
  let? more := issues_after m registry (Some e) entries in Ok (found ++ more).
Proof.
  unfold issues_after, verify_stored_entry, chain_issues. destruct previous as [p|]; [done|].
  destruct (verify_archive_anchor m e registry) as [b|]; [|done]. cbn [rbind check_run]. by rewrite app_assoc.
Qed.

Lemma issues_app m registry l1 : forall previous l2,
  issues_after m registry previous (l1 ++ l2) =
  let? found := issues_after m registry previous l1 in
  let? more := issues_after m registry (last_of previous l1) l2 in Ok (found ++ more).
Proof.
  induction l1 as [|e l1 IH]; intros previous l2.
  { rewrite issues_nil. cbn [app rbind last_of last]. by destruct (issues_after m registry previous l2). }
  cbn [app]. rewrite !issues_cons, IH, last_of_cons. destruct (verify_stored_entry m e previous registry) as [found|]; [|done]. cbn [rbind].
  destruct (issues_after m registry (Some e) l1) as [more|]; [|done]. cbn [rbind].
  destruct (issues_after m registry (last_of (Some e) l1) l2) as [rest|]; [|done]. cbn [rbind]. by rewrite app_assoc.
Qed.

Lemma verify_page_spec m registry page : forall previous issues n,
  verify_page m registry previous (reported issues n) page =
  let? more := issues_after m registry previous page.*2 in
  Ok (last_of previous page.*2, reported (issues ++ more) (n + length page)).
Proof.
  induction page as [|[cursor e] page IH]; intros previous issues n; cbn [verify_page].
  { cbn [fmap list_fmap length]. rewrite issues_nil. cbn [rbind]. by rewrite app_nil_r, Nat.add_0_r. }
  cbn [fmap list_fmap snd]. rewrite issues_cons, last_of_cons. destruct (verify_stored_entry m e previous registry) as [found|]; [|done].
  cbn [rbind]. rewrite push_all, count_reported, IH. destruct (issues_after m registry (Some e) page.*2) as [more|]; [|done].
  cbn [rbind length]. rewrite <- app_assoc. do 3 f_equal. lia.
Qed.

Lemma verify_pages_spec m session_id l principal registry : listing m session_id = Ok l -> forall fuel cursor previous issues n,
  let rest := after_cursor cursor (chain_part principal l) in
  length rest < fuel ->
  verify_pages fuel m session_id principal registry cursor previous (reported issues n) =
  let? more := issues_after m registry previous rest.*2 in Ok (reported (issues ++ more) (n + length rest)).
Proof.
  intros Hl. assert (cursor_sorted (chain_part principal l)) as [Hs Hnd] by apply filter_sorted, (listing_sorted _ _ _ Hl).
  induction fuel as [|fuel IH]; intros cursor previous issues n rest Hf; [lia|]. cbn [verify_pages].
  rewrite (principal_page_spec _ _ _ _ _ _ Hl), chain_after. fold rest. cbn [rbind].
  destruct (last (take PAGE_SIZE rest)) as [y|] eqn:Hy.
  - assert (after_cursor (Some y.1) (chain_part principal l) = drop PAGE_SIZE rest) as Hnext
      by by apply (page_rest fst (chain_part principal l) cursor PAGE_SIZE y Hs Hnd).
    assert (length rest = length (take PAGE_SIZE rest) + length (drop PAGE_SIZE rest)) as Hlen by by rewrite <- length_app, take_drop.
    assert (0 < length (take PAGE_SIZE rest)) as Hpos by (destruct (take PAGE_SIZE rest); [done|cbn; lia]).
    rewrite verify_page_spec, Hlen. replace rest.*2 with ((take PAGE_SIZE rest).*2 ++ (drop PAGE_SIZE rest).*2)
      by by rewrite <- fmap_app, take_drop.
    rewrite issues_app. destruct (issues_after m registry previous (take PAGE_SIZE rest).*2) as [found|]; [|done]. cbn [rbind fst snd].
    rewrite IH, Hnext by (rewrite Hnext; lia). destruct (issues_after _ _ _ (drop PAGE_SIZE rest).*2) as [more|]; [|done]. cbn [rbind].
    by rewrite <- app_assoc, Nat.add_assoc.
  - apply last_None in Hy. assert (rest = []) as -> by by destruct rest.
    cbn [fmap list_fmap length]. rewrite issues_nil. cbn [rbind]. by rewrite app_nil_r, Nat.add_0_r.
Qed.

(** Verifying a chain reports its issues. *)
Lemma indexed_chain_spec m session_id l principal registry issues n :
  listing m session_id = Ok l ->
  verify_indexed_chain m session_id principal registry (reported issues n) =
  let? more := chain_issues m registry (chain_part principal l).*2 in
  Ok (reported (issues ++ more) (n + length (chain_part principal l))).
Proof.
  intros Hl. unfold verify_indexed_chain, session_keys. cbn [kv_list_keys_with_prefix ideal_store map_err rbind].
  rewrite (verify_pages_spec _ _ _ _ _ Hl); rewrite after_none; [done|].
  rewrite (listing_length _ _ _ Hl). apply le_n_S, chain_part_length.
Qed.

(** ** The chains of a session *)

Definition session_prefix session_id : string := uuid_to_string session_id +:+ ":".

(** The chains with a principal, in the order of their metadata records. *)
Definition named_chains m session_id : AuditResult (list (string * option string)) :=
  try_map (chain_of_key (session_prefix session_id)) (sorted_keys m NS_CHAIN_METADATA (session_prefix session_id)).

Definition has_system m session_id : bool := bool_decide (is_Some (m !! (NS_CHAIN_METADATA, uuid_to_string session_id))).

(** The chains a verification reads: without a system chain it stops after
    the first page, which is one key short. *)
Definition visited m session_id (named : list (string * option string)) : list (string * option string) :=
  if has_system m session_id then (uuid_to_string session_id, None) :: named else take (PAGE_SIZE - 1) named.

Definition chains_issues m registry (l : list (string * AuditEntry)) (chains : list (string * option string))
    : AuditResult (list (list ChainIssue)) :=
  try_map (fun chain => chain_issues m registry (chain_part chain.2 l).*2) chains.

Definition chains_size (l : list (string * AuditEntry)) (chains : list (string * option string)) : nat :=
  sum_list_with (fun chain => length (chain_part chain.2 l)) chains.

Lemma verify_chains_spec m session_id l registry chains : listing m session_id = Ok l -> forall issues n,
  verify_chains m session_id registry (reported issues n) chains =
  let? found := chains_issues m registry l chains in
  Ok (reported (issues ++ List.concat found) (n + chains_size l chains)).
Proof.
  intros Hl. induction chains as [|[key principal] chains IH]; intros issues n; cbn [verify_chains].
  { cbn. by rewrite app_nil_r, Nat.add_0_r. }
  rewrite (indexed_chain_spec _ _ _ _ _ _ _ Hl). unfold chains_issues. cbn [try_map snd].
  destruct (chain_issues m registry (chain_part principal l).*2) as [found|]; [|done]. cbn [rbind]. rewrite IH.
  fold (chains_issues m registry l chains). destruct (chains_issues m registry l chains) as [more|]; [|done]. cbn [rbind List.concat].
  unfold chains_size. cbn [sum_list_with snd]. by rewrite <- app_assoc, Nat.add_assoc.
Qed.

Lemma verify_chains_app m session_id registry l1 : forall l2 state,
  verify_chains m session_id registry state (l1 ++ l2) =
  let? state := verify_chains m session_id registry state l1 in verify_chains m session_id registry state l2.
Proof.
  induction l1 as [|[key principal] l1 IH]; intros l2 state; [done|]. cbn [app verify_chains].
  destruct (verify_indexed_chain m session_id principal registry state) as [state'|]; [|done]. cbn [rbind]. apply IH.
Qed.

Lemma chain_of_key_fst prefix key chain : chain_of_key prefix key = Ok chain -> chain.1 = key.
Proof. unfold chain_of_key. by intros (name & _ & (named & _ & [= <-])%rbind_Ok)%rbind_Ok. Qed.

Lemma named_keys prefix keys named : try_map (chain_of_key prefix) keys = Ok named -> named.*1 = keys.
Proof. intros Hn%try_map_Ok. induction Hn as [|k c keys named Hk%chain_of_key_fst _ IH]; [done|]. cbn. by rewrite Hk, IH. Qed.

Lemma named_filter prefix (p : string -> bool) keys named :
  try_map (chain_of_key prefix) keys = Ok named ->
  try_map (chain_of_key prefix) (List.filter p keys) = Ok (List.filter (fun chain => p chain.1) named).
Proof.
  rewrite !try_map_Ok. intros Hn. induction Hn as [|k c keys named Hk _ IH]; [done|]. cbn [List.filter].
  rewrite (chain_of_key_fst _ _ _ Hk). destruct (p k); [by constructor|done].
Qed.

Lemma named_take prefix n keys named :
  try_map (chain_of_key prefix) keys = Ok named -> try_map (chain_of_key prefix) (take n keys) = Ok (take n named).
Proof. rewrite !try_map_Ok. apply Forall2_take. Qed.

Lemma named_sorted m session_id named :
  named_chains m session_id = Ok named -> StronglySorted (fun x y => String.le x.1 y.1) named /\ NoDup named.*1.
Proof.
  intros Hn%named_keys. split; [|rewrite Hn; apply sorted_keys_NoDup].
  pose proof (sorted_keys_sorted m NS_CHAIN_METADATA (session_prefix session_id)) as Hs. rewrite <- Hn in Hs.
  clear Hn. induction named as [|x named IH]; [constructor|]. cbn in Hs. apply StronglySorted_inv in Hs as [Hs Hx].
  constructor; [by apply IH|]. by rewrite Forall_fmap in Hx.
Qed.

(** The chains after a cursor. *)
Definition chains_after (after : string) (named : list (string * option string)) : list (string * option string) :=
  List.filter (fun chain => after_key (Some after) chain.1) named.

Lemma next_chains m session_id named after :
  named_chains m session_id = Ok named ->
  load_session_chains_page m session_id (Some after) PAGE_SIZE = Ok (take PAGE_SIZE (chains_after after named)).
Proof.
  intros Hn. unfold load_session_chains_page. rewrite st_list_page_ideal. cbn [rbind]. fold (session_prefix session_id).
  rewrite (named_take _ _ _ _ (named_filter _ (after_key (Some after)) _ _ Hn)). cbn [rbind]. by rewrite bool_decide_false.
Qed.

Lemma filter_after_none (keys : list string) : List.filter (after_key None) keys = keys.
Proof. induction keys as [|k keys IH]; [done|]. cbn [List.filter after_key from_option]. by f_equal. Qed.

Lemma first_chains m session_id named :
  named_chains m session_id = Ok named ->
  load_session_chains_page m session_id None PAGE_SIZE =
  Ok (if has_system m session_id then (uuid_to_string session_id, None) :: take (PAGE_SIZE - 1) named else take (PAGE_SIZE - 1) named).
Proof.
  intros Hn. unfold load_session_chains_page. rewrite st_list_page_ideal, filter_after_none. cbn [rbind]. fold (session_prefix session_id).
  rewrite (named_take _ _ _ _ Hn). cbn [rbind]. rewrite bool_decide_true by done. cbn [andb].
  destruct (Nat.ltb_spec (length (take (PAGE_SIZE - 1) named)) PAGE_SIZE) as [_|Hge].
  2:{ rewrite length_take in Hge. unfold PAGE_SIZE in Hge. lia. }
  unfold st_exists. cbn [kv_exists ideal_store map_err rbind]. fold (has_system m session_id).
  destruct (has_system m session_id); [|done]. f_equal. apply take_ge. cbn [length]. rewrite length_take. unfold PAGE_SIZE. lia.
Qed.

Lemma later_pages_spec m session_id registry named : named_chains m session_id = Ok named -> forall fuel after state,
  length (chains_after after named) < fuel ->
  chain_pages fuel m session_id registry (Some after) state =
  let? state := verify_chains m session_id registry state (chains_after after named) in Ok (Some state).
Proof.
  intros Hn. destruct (named_sorted _ _ _ Hn) as [Hs Hnd].
  induction fuel as [|fuel IH]; intros after state Hf; [lia|]. cbn [chain_pages]. rewrite (next_chains _ _ _ _ Hn). cbn [rbind].
  set (rest := chains_after after named) in *. destruct (last (take PAGE_SIZE rest)) as [y|] eqn:Hy.
  - assert (chains_after y.1 named = drop PAGE_SIZE rest) as Hnext by by apply (page_rest fst named (Some after) PAGE_SIZE y Hs Hnd).
    replace (verify_chains m session_id registry state rest)
      with (verify_chains m session_id registry state (take PAGE_SIZE rest ++ drop PAGE_SIZE rest)) by by rewrite take_drop.
    rewrite verify_chains_app. destruct (verify_chains m session_id registry state (take PAGE_SIZE rest)) as [state'|]; [|done]. cbn [rbind].
    destruct (Nat.ltb_spec (length (take PAGE_SIZE rest)) PAGE_SIZE) as [Hlt|Hge]; rewrite length_take in *.
    + by rewrite drop_ge by lia.
    + rewrite <- Hnext. apply IH. rewrite Hnext, length_drop. unfold PAGE_SIZE in *. lia.
  - apply last_None in Hy. assert (rest = []) as -> by by destruct rest. by rewrite bool_decide_false.
Qed.

Lemma chain_pages_spec m session_id registry named state fuel :
  named_chains m session_id = Ok named -> visited m session_id named <> [] -> length named + 2 <= fuel ->
  chain_pages fuel m session_id registry None state =
  let? state := verify_chains m session_id registry state (visited m session_id named) in Ok (Some state).
Proof.
  intros Hn Hne Hf. destruct fuel as [|fuel]; [lia|]. cbn [chain_pages]. rewrite (first_chains _ _ _ Hn). cbn [rbind].
  unfold visited in *. destruct (has_system m session_id).
  - set (system := (uuid_to_string session_id, None)). set (page := take (PAGE_SIZE - 1) named).
    assert (last (system :: page) = Some (default system (last page))) as ->.
    { destruct page as [|y page]; [done|]. change (last (system :: y :: page)) with (last (y :: page)).
      by destruct (last (y :: page)) eqn:Hy; [|apply last_None in Hy]. }
    replace (system :: named) with ((system :: page) ++ drop (PAGE_SIZE - 1) named) by (cbn [app]; unfold page; by rewrite take_drop).
    rewrite verify_chains_app. destruct (verify_chains m session_id registry state (system :: page)) as [state'|]; [|done]. cbn [rbind].
    destruct (Nat.ltb_spec (length (system :: page)) PAGE_SIZE) as [Hlt|Hge]; cbn [length] in *; unfold page in *; rewrite length_take in *.
    + by rewrite drop_ge by (unfold PAGE_SIZE in *; lia).
    + destruct (named_sorted _ _ _ Hn) as [Hs Hnd]. destruct (last (take (PAGE_SIZE - 1) named)) as [y|] eqn:Hy.
      2:{ apply last_None, (f_equal length) in Hy. rewrite length_take in Hy. unfold PAGE_SIZE in *. cbn [length] in Hy. lia. }
      assert (chains_after y.1 named = drop (PAGE_SIZE - 1) named) as Hnext.
      { replace (drop (PAGE_SIZE - 1) named) with (drop (PAGE_SIZE - 1) (List.filter (fun c => after_key None c.1) named))
          by (f_equal; by apply list_filter_all). apply (page_rest fst named None (PAGE_SIZE - 1) y Hs Hnd). by rewrite list_filter_all. }
      cbn [default]. rewrite <- Hnext. apply (later_pages_spec _ _ _ _ Hn). rewrite Hnext, length_drop. unfold PAGE_SIZE in *. lia.
  - destruct (last (take (PAGE_SIZE - 1) named)) as [y|] eqn:Hy; [|by apply last_None in Hy].
    destruct (verify_chains m session_id registry state (take (PAGE_SIZE - 1) named)) as [state'|]; [|done]. cbn [rbind].
    destruct (Nat.ltb_spec (length (take (PAGE_SIZE - 1) named)) PAGE_SIZE) as [_|Hge]; [done|].
    rewrite length_take in Hge. unfold PAGE_SIZE in Hge. lia.
Qed.
End Chains.

Section Sessions.
  Context `{Crypto} `{AuditSerde} `{UuidText} `{!StorageCodec} `{PruneCodec} `{ReceiptCodec} `{!RegistryCodec} `{!ChainIteration}.
  Implicit Types (m : KvMap) (session_id : Uuid) (principal : option string) (registry : option KeyRegistry).

Lemma verify_chain_spec m log session_id registry l named :
  listing m session_id = Ok l -> named_chains m session_id = Ok named -> kv_verification_registry m log = Ok registry ->
  visited m session_id named <> [] ->
  verify_chain m log session_id =
  let? found := chains_issues m registry l (visited m session_id named) in
  let issues := List.concat found in
  Ok (MkChainVerificationResult (no_issues issues)
        (N.to_nat (N.min (N.of_nat (chains_size l (visited m session_id named))) USIZE_MAX)) (take MAX_ISSUES issues)).
Proof.
  intros Hl Hn Hreg Hne. unfold verify_chain. rewrite Hreg. cbn [kv_list_keys_with_prefix ideal_store map_err rbind].
  rewrite (chain_pages_spec _ _ _ _ _ _ Hn Hne).
  2:{ apply Nat.add_le_mono_r. apply named_keys in Hn. rewrite <- (length_fmap fst named), Hn. unfold sorted_keys.
      by rewrite merge_sort_Permutation. }
  change VerificationState_new with (reported [] 0). rewrite (verify_chains_spec _ _ _ _ _ Hl).
  destruct (chains_issues m registry l (visited m session_id named)) as [found|]; [|done]. cbn [rbind app Nat.add].
  unfold finish_verification. by rewrite reported_ok.
Qed.

(** C21: verifying a session returns, and reports exactly the issues of the
    chains it reads, chain after chain, each from its start, with the number of
    their entries; a limit applies to the issues listed, not to the verdict.
    It reads the system chain and every other chain of the session when there
    is a system chain, and otherwise the first 255 chains. *)
Theorem verify_chain_exact m log session_id registry l named :
  listing m session_id = Ok l -> named_chains m session_id = Ok named -> kv_verification_registry m log = Ok registry ->
  visited m session_id named <> [] ->
  verify_chain m log session_id =
  let? found := chains_issues m registry l (visited m session_id named) in
  let issues := List.concat found in
  Ok (MkChainVerificationResult (no_issues issues)
        (N.to_nat (N.min (N.of_nat (chains_size l (visited m session_id named))) USIZE_MAX)) (take MAX_ISSUES issues)).
Proof. apply verify_chain_spec. Qed.

Lemma chains_clean m registry l chains :
  (forall chain, chain ∈ chains -> chain_issues m registry (chain_part chain.2 l).*2 = Ok []) ->
  exists found, chains_issues m registry l chains = Ok found /\ List.concat found = [].
Proof.
  intros Hc. induction chains as [|chain chains IH]; [by exists []|]. unfold chains_issues. cbn [try_map].
  rewrite (Hc chain) by apply list_elem_of_here. cbn [rbind]. fold (chains_issues m registry l chains).
  destruct IH as (found & -> & Hf); [intros c Hin; apply Hc; by apply list_elem_of_further|]. by exists ([] :: found).
Qed.

(** A session whose chains are clean is valid. *)
Lemma clean_session_valid m log session_id registry l named :
  listing m session_id = Ok l -> named_chains m session_id = Ok named -> kv_verification_registry m log = Ok registry ->
  visited m session_id named <> [] -> (forall p, chain_issues m registry (chain_part p l).*2 = Ok []) ->
  exists n, verify_chain m log session_id = Ok (MkChainVerificationResult true n []).
Proof.
  intros Hl Hn Hreg Hne Hclean. destruct (chains_clean m registry l (visited m session_id named)) as (found & Hf & Hcat); [by intros|].
  rewrite (verify_chain_spec _ _ _ _ _ _ Hl Hn Hreg Hne), Hf. cbn [rbind]. rewrite Hcat. by eexists.
Qed.

(** In a session without a system chain the chains after the first 255
    are never verified.  Whatever is wrong with one of them, the session is
    reported as valid when nothing is wrong with the first 255. *)
Theorem late_chain_unverified m log session_id registry l named i chain issue more :
  listing m session_id = Ok l -> named_chains m session_id = Ok named -> kv_verification_registry m log = Ok registry ->
  has_system m session_id = false -> named !! i = Some chain -> 255 <= i ->
  chain_issues m registry (chain_part chain.2 l).*2 = Ok (issue :: more) ->
  (forall j c, named !! j = Some c -> j < 255 -> chain_issues m registry (chain_part c.2 l).*2 = Ok []) ->
  exists n, verify_chain m log session_id = Ok (MkChainVerificationResult true n []).
Proof.
  intros Hl Hn Hreg Hsys Hi Hge _ Hfirst. apply lookup_lt_Some in Hi.
  assert (visited m session_id named = take 255 named) as Hv by (unfold visited; by rewrite Hsys).
  destruct (chains_clean m registry l (take 255 named)) as (found & Hf & Hcat).
  { intros c [j Hj]%list_elem_of_lookup. pose proof (lookup_lt_Some _ _ _ Hj) as Hlt. rewrite length_take in Hlt.
    apply (Hfirst j); [|lia]. by rewrite lookup_take_lt in Hj by lia. }
  rewrite (verify_chain_spec _ _ _ _ _ _ Hl Hn Hreg); rewrite Hv; [rewrite Hf; cbn [rbind]; rewrite Hcat; by eexists|].
  intros Hnil%(f_equal length). rewrite length_take in Hnil. cbn [length] in Hnil. lia.
Qed.
End Sessions.

(** ** After a prune *)

Section Backend.
  Context {S : Type} `{KvStoreLaws S view} `{Crypto} `{AuditSerde} `{UuidText} `{!StorageCodec} `{PruneCodec} `{ReceiptCodec}.
  Implicit Types (session_id : Uuid) (principal : option string) (log : RetentionLog).

#[local] Hint Resolve load_page_faithful : faithful.

Lemma scan_pages_faithful session_id principal policy fuel : forall after st, faithful (view := view)
  (fun s => scan_pages fuel s session_id principal policy after st) (fun m => scan_pages fuel m session_id principal policy after st).
Proof. induction fuel as [|fuel IH]; intros after st; cbn [scan_pages]; faithful_tac. Qed.

Lemma scan_retention_faithful session_id principal policy : faithful (view := view)
  (fun s => scan_retention s session_id principal policy) (fun m => scan_retention m session_id principal policy).
Proof.
  intros s scan (keys & [Hnd Hk]%map_err_Ok%law_list & (st & Hst%(scan_pages_faithful _ _ _ _ _ _ s) & Hscan)%rbind_Ok)%rbind_Ok.
  unfold scan_retention, session_keys. cbn [kv_list_keys_with_prefix ideal_store map_err rbind].
  replace (length _) with (length keys); [by rewrite Hst|]. apply Permutation_length, NoDup_Permutation; [done| |].
  - apply NoDup_ListNoDup, List.NoDup_filter, NoDup_ListNoDup, map_keys_NoDup.
  - intros k. by rewrite (list_elem_of_In (List.filter _ _)), List.filter_In, <- list_elem_of_In, map_keys_elem, Hk.
Qed.
#[local] Hint Resolve scan_retention_faithful : faithful.

Lemma sign_prune_receipt_faithful log session_id principal policy selected : faithful (view := view)
  (fun s => sign_prune_receipt s log session_id principal policy selected)
  (fun m => sign_prune_receipt m log session_id principal policy selected).
Proof.
  unfold sign_prune_receipt, prior_receipt, check_prune_reach, prune_limit, chain_positions, anchor_mark, prune_receipt,
    load_chain_metadata. faithful_tac.
Qed.
End Backend.

Section Pruned.
  Context {S : Type} `{KvStoreLaws S view} `{CryptoLaws} `{AuditSerde} `{UuidTextLaws} `{!StorageCodec} `{PruneCodecLaws}.
  Context `{!ReceiptCodec} `{!ReceiptCodecLaws} {A : Type} `{!AuditArchiver A} `{!RegistryCodec} `{!ChainIteration}.
  Implicit Types (m : KvMap) (session_id : Uuid) (principal : option string) (log : RetentionLog) (registry : option KeyRegistry).
  Implicit Types (l om kept : list (string * AuditEntry)).

(** The key a log signs receipts with is the registry's audit key; a log
    without format v2 has no registry to verify against. *)
Definition signer_registered log registry : Prop :=
  match registry with
  | Some reg => exists signer, rl_v2_signer log = Some signer /\ vs_registry signer = reg /\
                  is_active reg Audit (export_public_key (vs_key signer)) (head_seq reg) = true
  | None => rl_v2_signer log = None
  end.

Lemma sign_prune_receipt_names m log session_id principal policy selected r :
  sign_prune_receipt m log session_id principal policy selected = Ok r ->
  pr_session r = session_text session_id /\ pr_principal r = principal /\
  pr_public_key r = export_public_key (archive_signer log).1 /\ pr_key_epoch r = (archive_signer log).2.
Proof.
  unfold sign_prune_receipt. intros ([] & _ & (scan & _ & (sel & _ & (prior & _ & ([] & _ & Hr)%rbind_Ok)%rbind_Ok)%rbind_Ok)%rbind_Ok)%rbind_Ok.
  destruct (archive_signer log) as [signer epoch]. by apply rbind_Ok in Hr as (bytes & _ & [= <-]).
Qed.

(** An entry that follows another is one whose predecessor is unknown, where
    the hash of the predecessor is not the zero hash. *)
Lemma check_entry_detached v e o :
  check_entry v e (Some o) = [] -> is_zero (e_previous_hash e) = false -> check_entry v e None = [].
Proof.
  intros Hc Hz. destruct (e_v2 e) as [seal|] eqn:Hv2.
  - destruct (proj1 (check_v2_nil _ _ _ _ Hv2) Hc) as (reg & Hreg & Hg). apply (check_v2_nil _ _ _ _ Hv2). exists reg. split; [done|].
    destruct Hg. split; try done. unfold expected_seq. by rewrite Hz.
  - apply (check_v1_nil _ _ _ Hv2) in Hc as []. by apply (check_v1_nil _ _ _ Hv2).
Qed.

Lemma registered_for v log registry r e :
  signer_registered log registry -> v = new_verifier registry ->
  pr_public_key r = export_public_key (archive_signer log).1 -> pr_key_epoch r = (archive_signer log).2 ->
  (exists previous, check_entry v e previous = []) -> receipt_key_registered r e registry = true.
Proof.
  intros Hs -> Hkey Hepoch (previous & Hc). unfold receipt_key_registered, archive_signer in *. destruct registry as [reg|]; cbn in Hs.
  - destruct Hs as (signer & Hlog & <- & Hact). rewrite Hlog in *. cbn [fst snd] in *. rewrite Hepoch, Hkey, Hact.
    destruct (e_v2 e) as [seal|] eqn:Hv2; [|done]. destruct (proj1 (check_v2_nil _ _ _ _ Hv2) Hc) as (reg & Heq & Hg).
    injection Heq as <-. pose proof (vg_active _ _ _ _ Hg) as Ha. unfold is_active in Ha. apply andb_true_iff in Ha as [-> _]. done.
  - apply bool_decide_eq_true. destruct (e_v2 e) as [seal|] eqn:Hv2; [|done]. by destruct (proj1 (check_v2_nil _ _ _ _ Hv2) Hc) as (reg & ? & _).
Qed.

Lemma chain_clean m registry chain :
  chain_issues m registry chain = Ok [] <->
  check_run (new_verifier registry) chain None = [] /\ (forall e rest, chain = e :: rest -> verify_archive_anchor m e registry = Ok true).
Proof.
  unfold chain_issues. destruct chain as [|e rest]; [by split; [intros _; split; [|intros ? ? [=]]|]|].
  destruct (verify_archive_anchor m e registry) as [anchored|] eqn:Ha; cbn [rbind]; split.
  - intros [= [Hr Hc]%app_nil]. apply report_nil, negb_false_iff in Hr as ->. split; [done|]. by intros e' rest' [= <- <-].
  - intros [-> Hf]. specialize (Hf e rest eq_refl). rewrite Ha in Hf. by injection Hf as ->.
  - done.
  - intros [_ Hf]. specialize (Hf e rest eq_refl). congruence.
Qed.

(** What is kept of a clean chain is clean under the receipt of the rest. *)
Lemma kept_clean m m' log session_id principal policy selected registry om kept r encoded :
  sign_prune_receipt m log session_id principal policy selected = Ok r -> describes r om kept -> om <> [] ->
  receipt_to_vec r = Ok encoded -> m' !! (NS_PRUNE_RECEIPTS, chain_head_key session_id principal) = Some encoded ->
  signer_registered log registry ->
  Forall (fun found => e_session_id found.2 = session_id /\ e_principal found.2 = principal) kept ->
  Forall (fun found => content_hash found.2 <> ContentHash_zero) om ->
  chain_issues m registry (om ++ kept).*2 = Ok [] -> chain_issues m' registry kept.*2 = Ok [].
Proof.
  intros Hsign Hd Hne Henc Hrec Hreg Hown Hnz [Hrun _]%chain_clean. apply chain_clean.
  destruct kept as [|first rest]; [done|]. destruct (last om) as [o|] eqn:Ho; [|by apply last_None in Ho].
  rewrite fmap_app, check_run_app in Hrun. apply app_nil in Hrun as [_ Hrun]. rewrite fmap_last, Ho in Hrun. cbn in Hrun.
  apply app_nil in Hrun as [Hfirst Hrest]. pose proof (check_entry_link _ _ _ Hfirst) as Hlink. cbn in Hlink.
  assert (is_zero (e_previous_hash first.2) = false) as Hz.
  { unfold is_zero. apply bool_decide_eq_false. rewrite Hlink. rewrite Forall_forall in Hnz. apply Hnz.
    apply last_Some in Ho as [pre ->]. apply elem_of_app. right. apply list_elem_of_here. }
  split.
  - cbn [fmap list_fmap check_run]. rewrite (check_entry_detached _ _ _ Hfirst Hz). done.
  - cbn [fmap list_fmap]. intros e rest' [= <- _]. apply Forall_cons in Hown as [[Hs Hp] _].
    destruct (sign_prune_receipt_names _ _ _ _ _ _ _ Hsign) as (Hsess & Hprin & Hkey & Hepoch).
    unfold verify_archive_anchor, prune_receipt, st_get. rewrite Hz, Hs, Hp. cbn [kv_get ideal_store map_err rbind]. rewrite Hrec.
    rewrite (receipt_roundtrip _ _ Henc). cbn [map_err rbind]. rewrite Hsess, Hprin, !bool_decide_true by done. cbn [negb orb].
    rewrite (registered_for _ log registry r first.2 Hreg eq_refl Hkey Hepoch) by by exists (Some o.2). cbn [negb].
    rewrite (anchor_spec r om first rest Hd), Ho. unfold follows. by rewrite bool_decide_true.
Qed.

(** Another chain keeps its receipt. *)
Lemma other_clean m m' session_id principal l om kept encoded registry p chain :
  prune_done m m' session_id principal l om kept encoded -> p <> principal ->
  Forall (fun e => e_session_id e = session_id /\ e_principal e = p) chain ->
  chain_issues m registry chain = Ok [] -> chain_issues m' registry chain = Ok [].
Proof.
  intros Hdone Hne Hown [Hrun Hstart]%chain_clean. apply chain_clean. split; [done|]. intros e rest ->. specialize (Hstart e rest eq_refl).
  apply Forall_cons in Hown as [[Hs Hp] _]. rewrite <- Hstart. unfold verify_archive_anchor, prune_receipt, st_get.
  rewrite Hs, Hp. cbn [kv_get ideal_store map_err rbind].
  destruct (pd_frame _ _ _ _ _ _ _ _ Hdone NS_PRUNE_RECEIPTS (chain_head_key session_id p)) as [Hk| ->].
  - exfalso. destruct Hk as [Hk|[Hk|[g Hk]]]; [|done|done]. rewrite !elem_of_cons in Hk.
    destruct Hk as [Hk|[Hk|[Hk|[Hk|Hk]]]]; [done| |done|done|by apply elem_of_nil in Hk].
    injection Hk as Hk. by apply chain_head_key_inj in Hk as [_ ->].
  - rewrite bool_decide_false; [done|]. intros (found & _ & Hin)%elem_of_removed. unfold entry_keys in Hin. set_solver.
Qed.

(** A receipt that was just signed is not the installed one. *)
Lemma signed_is_new m log session_id principal policy selected r encoded :
  sign_prune_receipt m log session_id principal policy selected = Ok r -> receipt_to_vec r = Ok encoded ->
  (pr_generation r < U64_MAX)%N -> m !! (NS_PRUNE_RECEIPTS, chain_head_key session_id principal) <> Some encoded.
Proof.
  intros (scan & _ & _ & _ & _ & _ & _ & _ & _ & _ & _ & Hprior)%sign_prune_receipt_Ok Henc Hgen Hstored.
  unfold prior_receipt, prune_receipt, st_get in Hprior. cbn [kv_get ideal_store map_err rbind] in Hprior. rewrite Hstored in Hprior.
  cbn [rbind] in Hprior. rewrite (receipt_roundtrip _ _ Henc) in Hprior. cbn [map_err rbind] in Hprior.
  apply rbind_Ok in Hprior as ([] & _ & [= Hg _]). unfold sat_add in Hg. lia.
Qed.

Lemma prune_chain_run (s s' : S) (a a' : A) log session_id principal policy r :
  prune_chain log session_id principal policy (s, a) = ((s', a'), Ok r) ->
  exists r0 encoded, sign_prune_receipt (view s) log session_id principal policy None = Ok r0 /\ receipt_to_vec r0 = Ok encoded /\
    persist_prune log session_id principal r0 (s, a) = ((s', a'), Ok r).
Proof.
  unfold prune_chain, prune_chain_segment. intros (w & r0 & Hsign & Hrun)%eff_bind_inv. injection Hsign as <- Hsign. cbn [fst] in Hsign.
  apply sign_prune_receipt_faithful in Hsign. pose proof Hrun as Hrun'. unfold persist_prune in Hrun'.
  apply eff_bind_inv in Hrun' as (w & encoded & Henc & _). injection Henc as _ Henc. apply map_err_Ok in Henc. by exists r0, encoded.
Qed.

Lemma resume_plan_returns session_id principal keep encoded n : forall (s s' : S) r,
  resume_plan n session_id principal keep encoded s = (s', Ok r) -> receipt_from_slice encoded = Ok r.
Proof.
  induction n as [|n IH]; intros s s' r; cbn [resume_plan]; [done|].
  intros (s1 & [] & _ & (s2 & current & _ & Hrun)%eff_bind_inv)%eff_bind_inv. case_bool_decide; [|by apply IH in Hrun].
  injection Hrun as _ Hr. by apply map_err_Ok in Hr.
Qed.

(** C6: a session that verifies still verifies after a prune.  When a prune
    of one of its chains succeeds and removes something, the entries that are
    left are a suffix of that chain and all of every other chain, no chain of
    the session has an issue, and verifying the session reports it valid: the
    suffix starts at the entry the installed receipt anchors, under a key the
    registry holds. *)
Theorem pruned_session_verifies (s s' : S) (a a' : A) log session_id principal policy l r registry :
  listing (view s) session_id = Ok l -> paged (view s) session_id -> well_indexed l -> countable (chain_part principal l) ->
  Forall (fun found => e_session_id found.2 = session_id /\ content_hash found.2 <> ContentHash_zero) l ->
  signer_registered log registry -> view s !! (NS_PRUNE_PLANS, chain_head_key session_id principal) = None ->
  (forall p, chain_issues (view s) registry (chain_part p l).*2 = Ok []) ->
  prune_chain log session_id principal policy (s, a) = ((s', a'), Ok r) ->
  pr_omitted_count r <> 0%N -> (pr_generation r < U64_MAX)%N ->
  exists om kept l', chain_part principal l = om ++ kept /\ pr_omitted_count r = N.of_nat (length om) /\ within policy kept /\
    listing (view s') session_id = Ok l' /\
    (forall p, chain_part p l' = if bool_decide (p = principal) then kept else chain_part p l) /\
    (forall p, chain_issues (view s') registry (chain_part p l').*2 = Ok []) /\
    forall named, named_chains (view s') session_id = Ok named -> kv_verification_registry (view s') log = Ok registry ->
      visited (view s') session_id named <> [] ->
      exists n, verify_chain (view s') log session_id = Ok (MkChainVerificationResult true n []).
Proof.
  intros Hl Hpaged Hwell Hc Hown Hreg Hnoplan Hclean Hrun Hom Hgen.
  destruct (prune_chain_run _ _ _ _ _ _ _ _ _ Hrun) as (r0 & encoded & Hsign & Henc & Hpersist).
  destruct (receipt_of_scan _ _ _ _ _ _ _ _ Hl Hpaged Hc Hsign) as (om & kept & Heq & Hw & _ & Hd).
  assert (r = r0) as ->.
  { destruct (persist_prune_run _ _ _ _ _ _ _ _ _ _ Henc Hpersist) as (pages & keep & Hres%resume_plan_returns).
    rewrite (receipt_roundtrip _ _ Henc) in Hres. by injection Hres. }
  destruct (persist_prune_prunes _ _ _ _ _ _ _ _ _ _ _ _ _ Hl Hpaged Hwell Heq Hd Henc Hnoplan (signed_is_new _ _ _ _ _ _ _ _ Hsign Henc Hgen) Hpersist)
    as [_ Hdone]. destruct (pd_listing _ _ _ _ _ _ _ _ Hdone) as (l' & Hl' & Hparts).
  assert (forall p, chain_issues (view s') registry (chain_part p l').*2 = Ok []) as Hafter;
    [|exists om, kept, l'; split_and!; [done|apply (ds_count _ _ _ Hd)|done|done|done|done|];
      intros named Hn Hv Hne; by eapply clean_session_valid].
  assert (forall p, Forall (fun found => e_session_id found.2 = session_id /\ e_principal found.2 = p) (chain_part p l)) as Hof.
  { intros p. apply Forall_forall. intros found [Hin Hp]%elem_of_chain_part. rewrite Forall_forall in Hown. by destruct (Hown _ Hin). }
  intros p. rewrite Hparts. case_bool_decide as Hp.
  - subst p. eapply (kept_clean _ _ _ _ _ _ _ _ om); [exact Hsign|exact Hd| |exact Henc|apply (pd_receipt _ _ _ _ _ _ _ _ Hdone)|done| | |by rewrite <- Heq].
    + intros ->. by rewrite (ds_count _ _ _ Hd) in Hom.
    + specialize (Hof principal). rewrite Heq in Hof. by apply Forall_app in Hof as [_ Hof].
    + apply Forall_forall. intros found Hin. rewrite Forall_forall in Hown. apply Hown.
      apply (elem_of_chain_part principal). rewrite Heq. apply elem_of_app. by left.
  - eapply other_clean; [exact Hdone|exact Hp| |apply Hclean]. apply Forall_fmap. apply Hof.
Qed.
End Pruned.
