(* ===== verification/PruneExamples.v ===== *)
(** * Retention on concrete stores

    Codecs for plans, marks and receipts with their laws, an archive that
    remembers what was committed, and a store whose process dies after a given
    number of writes.  On them: the witnesses of the theorems about pruning and
    retention, and the runs that show what an interrupted prune leaves. *)

From stdpp Require Import sorting.
From S2P Require Import Prelude Profile Kv Bytes Cbor Crypto KeyRegistry AuditEntry AuditChain AuditLog.
From S2P Require Import AuditStorage CrashLogic AuditDurability AuditHistory AuditBatch StorageExamples AuditPrune AuditPruning.
From S2P Require Import AuditRetention AuditKeeping AuditRemoval AuditAnchoring.
Local Open Scope string_scope.
Local Open Scope list_scope.

Module PruneExamples.
  Import Codecs RegistryExamples EntryExamples StorageExamples.
  #[local] Existing Instance toy_crypto.
  #[local] Existing Instance toy_crypto_laws.
  #[local] Existing Instance toy_serde.
  #[local] Existing Instance hyphenated.
  #[local] Existing Instance hyphenated_laws.
  #[local] Existing Instance prefix_codec.
  #[local] Existing Instance prefix_codec_laws.
  #[local] Existing Instance listed.
  #[local] Existing Instance ideal_store.
  #[local] Existing Instance ideal_laws.

(** ** Plans, marks and receipts as text *)

Definition c_plan : Codec PrunePlan.
Proof.
  refine (c_iso (c_pair c_text (c_pair c_N (c_pair (c_option c_text) (c_pair c_bool (c_pair (c_option c_text) c_bool)))))
    (fun p => (pp_receipt p, (pp_keep_entries p, (pp_after p, (pp_complete p, (pp_segment_key p, pp_segment_accounted p))))))
    (fun '(a, (b, (c, (d, (e, f))))) => Some (MkPrunePlan a b c d e f)) _).
  by intros [].
Defined.

Definition c_mark : Codec (N * N * ContentHash * option Uuid * option string * Timestamp) :=
  c_pair (c_pair (c_pair (c_pair (c_pair c_N c_N) (c_array 32)) (c_option (c_array 16))) (c_option c_text)) c_Z.

Definition c_receipt : Codec AuditPruneReceipt.
Proof.
  refine (c_iso (c_pair c_N (c_pair c_text (c_pair (c_option c_text) (c_pair c_N (c_pair c_N (c_pair c_N (c_pair c_N (c_pair
          c_text (c_pair c_text (c_pair (c_option (c_array 16)) (c_pair c_N (c_pair (c_option c_text) (c_pair (c_option
          (c_array 16)) (c_pair c_text (c_pair (c_option c_text) (c_pair (c_option c_N) (c_pair (c_option c_N) (c_pair
          (c_array 32) (c_pair (c_option c_N) (c_array 64))))))))))))))))))))
    (fun r => (pr_schema r, (pr_session r, (pr_principal r, (pr_retained_count r, (pr_retained_bytes r, (pr_omitted_count r,
               (pr_omitted_bytes r, (pr_omitted_digest r, (pr_omitted_terminal_hash r, (pr_retained_head r, (pr_generation r,
               (pr_cutoff_cursor r, (pr_first_retained r, (pr_first_retained_previous_hash r, (pr_prior_receipt_hash r,
               (pr_segment r, (pr_seal_ordinal r, (pr_public_key r, (pr_key_epoch r, pr_signature r))))))))))))))))))))
    (fun '(x0, (x1, (x2, (x3, (x4, (x5, (x6, (x7, (x8, (x9, (x10, (x11, (x12, (x13, (x14, (x15, (x16, (x17, (x18, x19))))))))))))))))))) =>
       Some (MkAuditPruneReceipt x0 x1 x2 x3 x4 x5 x6 x7 x8 x9 x10 x11 x12 x13 x14 x15 x16 x17 x18 x19)) _).
  by intros [].
Defined.

(** The members of a receipt the storage reads; absent ones are left out. *)
Definition number_member (name : string) (n : option N) : list (string * Value) :=
  match n with Some n => [(name, VNumber (PosInt n))] | None => [] end.
Definition text_member (name : string) (t : option string) : list (string * Value) :=
  match t with Some t => [(name, VString t)] | None => [] end.

Definition receipt_object (r : AuditPruneReceipt) : Value :=
  VObject (number_member "generation" (Some (pr_generation r)) ++ number_member "omitted_count" (Some (pr_omitted_count r))
    ++ number_member "omitted_bytes" (Some (pr_omitted_bytes r)) ++ text_member "cutoff_cursor" (pr_cutoff_cursor r)
    ++ text_member "retained_head" (uuid_to_string <$> pr_retained_head r)
    ++ text_member "prior_receipt_hash" (pr_prior_receipt_hash r) ++ number_member "segment" (pr_segment r)
    ++ number_member "seal_ordinal" (pr_seal_ordinal r) ++ number_member "key_epoch" (pr_key_epoch r)).

(** Marks with empty evidence are stored. *)
Definition prune_codec : PruneCodec := {|
  value_from_slice := fun s => rmap receipt_object (from_slice c_receipt s);
  plan_to_vec := to_vec c_plan;
  plan_from_slice := from_slice c_plan;
  mark_to_vec := fun mark =>
    match mk_evidence mark with
    | VObject [] => Ok (to_vec c_mark (mk_schema mark, mk_position mark, mk_head_hash mark, mk_head mark, mk_cursor mark, mk_recorded_at mark))
    | _ => Err "evidence"
    end;
  mark_from_slice := fun s =>
    rmap (fun '(a, b, c, d, e, f) => MkAnchorMark a b c d e (VObject []) f) (from_slice c_mark s);
|}.
  #[local] Existing Instance prune_codec.

Lemma Ok_inj {A E : Type} (a b : A) : Ok (E := E) a = Ok b -> a = b.
Proof. by intros [=]. Qed.

#[local] Opaque to_vec from_slice.
Lemma prune_codec_laws : PruneCodecLaws.
Proof.
  split; [exact (slice_roundtrip c_plan)|]. intros mark v Hv. cbn [mark_to_vec prune_codec] in Hv. destruct mark as [a b c d e evidence f].
  cbn [mk_evidence mk_schema mk_position mk_head_hash mk_head mk_cursor mk_recorded_at] in Hv.
  destruct evidence as [| | | | |[|]]; try done. apply Ok_inj in Hv as <-.
  change (rmap (fun '(a, b, c, d, e, f) => MkAnchorMark a b c d e (VObject []) f) (from_slice c_mark (to_vec c_mark (a, b, c, d, e, f))) =
    Ok (MkAnchorMark a b c d e (VObject []) f)). by rewrite (slice_roundtrip c_mark (a, b, c, d, e, f)).
Qed.
  #[local] Existing Instance prune_codec_laws.

Definition receipt_codec : ReceiptCodec := {|
  receipt_to_vec := fun r => Ok (to_vec c_receipt r);
  receipt_from_slice := from_slice c_receipt;
  unsigned_to_vec := fun u => Ok (to_vec c_receipt (MkAuditPruneReceipt (ur_schema u) (ur_session u) (ur_principal u) (ur_retained_count u) (ur_retained_bytes u) (ur_omitted_count u) (ur_omitted_bytes u) (ur_omitted_digest u) (ur_omitted_terminal_hash u) (ur_retained_head u) (ur_generation u) (ur_cutoff_cursor u) (ur_first_retained u) (ur_first_retained_previous_hash u) (ur_prior_receipt_hash u) (ur_segment u) (ur_seal_ordinal u) (ur_public_key u) (ur_key_epoch u) (zero_array 64)));
  value_size := fun _ => Ok 2%N;
  derive_key_hash := fun context data => blake3 (as_bytes context ++ data);
|}.
  #[local] Existing Instance receipt_codec.

Lemma receipt_codec_laws : ReceiptCodecLaws.
Proof.
  split.
  - intros r text Ht. apply Ok_inj in Ht as <-. apply slice_roundtrip.
  - intros r text Ht. apply Ok_inj in Ht as <-. exists (receipt_object r). split.
    + change (rmap receipt_object (from_slice c_receipt (to_vec c_receipt r)) = Ok (receipt_object r)). by rewrite (slice_roundtrip c_receipt r).
    + destruct r as [a b c d e f g h i j k l m n o p q r s t].
      split; destruct j, l, o, p, q, s; reflexivity.
Qed.
  #[local] Existing Instance receipt_codec_laws.
#[local] Transparent to_vec from_slice.

(** ** An archive *)

Definition memory_archive : AuditArchiver (list (list AuditEntry)) := {|
  ArchiveWriter := list AuditEntry;
  archive_begin := fun _ _ => eff_lift (Ok []);
  archive_write := fun writer entries => eff_lift (Ok (writer ++ entries));
  archive_commit := fun writer archives => (archives ++ [writer], Ok tt);
|}.
  #[local] Existing Instance memory_archive.

(** ** A store that dies *)

Record Dying : Type := MkDying { d_map : KvMap; d_writes : nat }.

Definition dying_write {A : Type} (f : KvMap -> KvMap * result A Kv.StorageError) (s : Dying) : Dying * result A Kv.StorageError :=
  match d_writes s with
  | O => (s, Err (Connection "the process died"))
  | S n => let '(m, r) := f (d_map s) in (MkDying m n, r)
  end.

Definition dying_store : KvStore Dying :=
  let _ := ideal_store in {|
  supports_atomic_batch s := true;
  kv_get s := kv_get (d_map s);
  kv_set s ns k v := dying_write (fun m => kv_set m ns k v) s;
  kv_delete s ns k := dying_write (fun m => kv_delete m ns k) s;
  kv_exists s := kv_exists (d_map s);
  kv_list_keys s := kv_list_keys (d_map s);
  kv_list_keys_with_prefix s := kv_list_keys_with_prefix (d_map s);
  kv_compare_and_swap s ns k e v := dying_write (fun m => kv_compare_and_swap m ns k e v) s;
  kv_apply_batch s b := dying_write (fun m => kv_apply_batch m b) s;
  kv_clear_namespace s ns := dying_write (fun m => kv_clear_namespace m ns) s;
  kv_clear_prefix s ns p := dying_write (fun m => kv_clear_prefix m ns p) s;
|}.
  #[local] Existing Instance dying_store.

Lemma dying_Ok {A} (f : KvMap -> KvMap * result A Kv.StorageError) s s' a :
  dying_write f s = (s', Ok a) -> f (d_map s) = (d_map s', Ok a).
Proof. unfold dying_write. destruct (d_writes s); [done|]. destruct (f (d_map s)) as [m r]. by intros [= <- ->]. Qed.
Lemma dying_Err {A} (f : KvMap -> KvMap * result A Kv.StorageError) s s' e :
  dying_write f s = (s', Err e) -> d_map s' = d_map s \/ f (d_map s) = (d_map s', Err e).
Proof.
  unfold dying_write. destruct (d_writes s); [intros [= <- _]; by left|]. destruct (f (d_map s)) as [m r]. intros [= <- ->]. by right.
Qed.

Lemma dying_laws : KvStoreLaws Dying d_map.
Proof.
  pose proof ideal_laws as Hl. destruct Hl as [H1 H2 H3 H4 H5 H6 H7 H8 H9 H10 H11 H12].
  split; intros s;
    [exact (H1 _)|exact (H2 _)
    |intros b s' o Hb Hr%dying_Ok; by apply H3
    |intros b s' e Hb [Hr|Hr]%dying_Err; [by left|by eapply H4]
    |intros ns k v s' Hr%dying_Ok; by apply H5
    |intros ns k s' b Hr%dying_Ok; by apply H6
    |intros ns k e v s' b Hr%dying_Ok; by apply H7
    |intros ns k v s' e [Hr|Hr]%dying_Err; [by left|by eapply H8]
    |intros ns k s' e [Hr|Hr]%dying_Err; [by left|by eapply H9]
    |intros ns k e v s' err [Hr|Hr]%dying_Err; [by left|by eapply H10]
    |exact (H11 _)|exact (H12 _)].
Qed.

(** ** A prune of the older of two entries *)

Definition two_entries : KvMap := mem_view run_batch.1.
Definition alice : option string := Some "alice".
Definition log : RetentionLog := MkRetentionLog _ (key 9) None false true.
Definition keep_one : AuditRetentionPolicy := MkAuditRetentionPolicy 1 None.

Definition value_of {A E : Type} (d : A) (r : result A E) : A := match r with Ok a => a | Err _ => d end.
Lemma value_of_Ok {A E : Type} (d : A) (r : result A E) : is_ok r = true -> r = Ok (value_of d r).
Proof. by destruct r. Qed.

Definition no_receipt : AuditPruneReceipt :=
  MkAuditPruneReceipt 0 "" None 0 0 0 0 "" "" None 0 None None "" None None None (key 0) None (zero_array 64).
Definition receipt0 : AuditPruneReceipt :=
  value_of no_receipt (sign_prune_receipt two_entries log (uuid 5) alice keep_one None).
Definition text0 : string := to_vec c_receipt receipt0.


Lemma signed0 : sign_prune_receipt two_entries log (uuid 5) alice keep_one None = Ok receipt0.
Proof. refine (value_of_Ok no_receipt _ _). vm_compute. reflexivity. Qed.

Definition cursor1 : string := "00000000-0000-0000-0000-000000000005:00000000000000000000:00000000-0000-0000-0000-000000000009".
Definition cursor2 : string := "00000000-0000-0000-0000-000000000005:00000000000000000001:00000000-0000-0000-0000-000000000003".
Definition both : list (string * AuditEntry) := [(cursor1, first_entry); (cursor2, second_entry)].

Lemma both_listed : listing two_entries (uuid 5) = Ok both.
Proof. evaluate. Qed.
Lemma both_chain : chain_part alice both = both.
Proof. reflexivity. Qed.
Lemma both_paged : paged two_entries (uuid 5).
Proof. right. vm_compute. reflexivity. Qed.
Lemma both_countable : countable (chain_part alice both).
Proof. rewrite both_chain. split; [vm_compute; discriminate|]. split; [vm_compute; discriminate|]. by repeat constructor. Qed.
Lemma both_indexed : well_indexed both.
Proof. split; [repeat constructor; evaluate|]. apply (bool_decide_unpack _). vm_compute. exact I. Qed.

(** ** Witnesses *)

Lemma principal_page_exact_witness :
  listing two_entries (uuid 5) = Ok both /\
  load_principal_entries_page two_entries (uuid 5) alice None 1 = Ok (take 1 (chain_part alice (after_cursor None both))) /\
  chain_part alice (after_cursor None both) = both.
Proof.
  split; [exact both_listed|]. split; [|reflexivity]. apply (principal_page_exact two_entries (uuid 5) both alice None 1). exact both_listed.
Defined.

Lemma scan_keeps_longest_suffix_witness :
  exists om kept, chain_part alice both = om ++ kept /\
    scan_retention two_entries (uuid 5) alice keep_one = Ok (finish_scan (scan_of om kept)) /\
    within keep_one kept /\ forall longer, longer `suffix_of` chain_part alice both -> within keep_one longer -> length longer <= length kept.
Proof.
  apply (scan_keeps_longest_suffix alice keep_one two_entries (uuid 5) both);
    [exact both_listed|exact both_paged|vm_compute; discriminate|exact both_countable].
Defined.

Lemma receipt_anchors_kept_witness :
  sign_prune_receipt two_entries log (uuid 5) alice keep_one None = Ok receipt0 /\ pr_omitted_count receipt0 = 1%N /\
  exists om kept, chain_part alice both = om ++ kept /\ within keep_one kept /\ describes receipt0 om kept /\
    forall first rest, kept = first :: rest ->
      verify_anchor receipt0 (e_previous_hash first.2) =
      Ok match last om with Some o => follows first.2 o.2 | None => is_zero (e_previous_hash first.2) end.
Proof.
  split; [exact signed0|]. split; [vm_compute; reflexivity|].
  apply (receipt_anchors_kept two_entries log (uuid 5) alice keep_one None both receipt0);
    [exact both_listed|exact both_paged|exact both_countable|exact signed0].
Defined.

Lemma omits_first om kept : describes receipt0 om kept -> om <> [].
Proof. intros Hd ->. pose proof (ds_count _ _ _ Hd) as Hn. vm_compute in Hn. discriminate. Qed.

Definition archived := archive_pruned two_entries log (uuid 5) alice receipt0 text0 [].

Lemma archive_holds_omitted_witness :
  archived.2 = Ok tt /\
  exists om kept, chain_part alice both = om ++ kept /\ om <> [] /\
  exists batches, List.concat batches = om.*2 /\
    (do? writer := archive_begin receipt0 text0 in do? writer := write_all writer batches in archive_commit writer) [] = (archived.1, Ok tt).
Proof.
  assert (archived.2 = Ok tt) as Ha by (vm_compute; reflexivity). split; [exact Ha|].
  destruct (receipt_of_scan _ _ _ _ _ _ _ _ both_listed both_paged both_countable signed0) as (om & kept & Heq & _ & _ & Hd).
  exists om, kept. split; [exact Heq|]. split; [exact (omits_first _ _ Hd)|].
  apply (archive_holds_omitted two_entries log (uuid 5) alice both receipt0 text0 om kept [] archived.1);
    [exact both_listed|exact Heq|exact Hd|exact (omits_first _ _ Hd)|reflexivity|vm_compute; reflexivity|].
  rewrite <- Ha. exact (run_eq archived).
Defined.

Definition pruned := persist_prune log (uuid 5) alice receipt0 (MkDying two_entries 100, []).
Definition returned : AuditPruneReceipt := value_of no_receipt pruned.2.

Lemma pruned_run : persist_prune log (uuid 5) alice receipt0 (MkDying two_entries 100, []) = ((pruned.1.1, pruned.1.2), Ok returned).
Proof.
  assert (pruned.2 = Ok returned) as <- by (refine (value_of_Ok no_receipt _ _); vm_compute; reflexivity).
  unfold pruned. by destruct (persist_prune _ _ _ _ _) as [[] ?].
Qed.

Lemma prune_removes_omitted_witness :
  exists om kept, chain_part alice both = om ++ kept /\ om <> [] /\
  returned = receipt0 /\ d_map pruned.1.1 !! (NS_PRUNE_RECEIPTS, chain_head_key (uuid 5) alice) = Some text0 /\
  (forall ns k, is_record (chain_head_key (uuid 5) alice) (ns, k) \/
     d_map pruned.1.1 !! (ns, k) = if bool_decide ((ns, k) ∈ removed om) then None else two_entries !! (ns, k)) /\
  exists l', listing (d_map pruned.1.1) (uuid 5) = Ok l' /\
    forall p, chain_part p l' = if bool_decide (p = alice) then kept else chain_part p both.
Proof.
  destruct (receipt_of_scan _ _ _ _ _ _ _ _ both_listed both_paged both_countable signed0) as (om & kept & Heq & _ & _ & Hd).
  exists om, kept. split; [exact Heq|]. split; [exact (omits_first _ _ Hd)|].
  apply (prune_removes_omitted (H0 := dying_laws) (MkDying two_entries 100) pruned.1.1 [] pruned.1.2 log (uuid 5) alice both om kept receipt0
           returned text0);
    [exact both_listed|exact both_paged|exact both_indexed|exact Heq|exact Hd|reflexivity|vm_compute; reflexivity|vm_compute; discriminate|exact pruned_run].
Defined.

Definition called := prune_chain_durable (uuid 5) alice 1 text0 (MkDying two_entries 100).

Lemma prune_changes_only_plan_witness :
  called.2 = Ok tt /\
  (prune_touches two_entries (uuid 5) alice 1 text0 (NS_ENTRIES, uuid_to_string (uuid 3)) \/
   d_map called.1 !! (NS_ENTRIES, uuid_to_string (uuid 3)) = two_entries !! (NS_ENTRIES, uuid_to_string (uuid 3))).
Proof.
  split; [vm_compute; reflexivity|].
  apply (prune_changes_only_plan (H0 := dying_laws) (MkDying two_entries 100) called.1 (uuid 5) alice 1 text0 called.2
           (NS_ENTRIES, uuid_to_string (uuid 3))).
  exact (run_eq called).
Defined.
(** ** Anchored chains *)

Definition no_mark : AuditAnchorMarkResult := MkAuditAnchorMarkResult false (MkAuditAnchorWatermark 0 ContentHash_zero None VNull example_time).
Definition marking := mark_anchored (uuid 5) alice 1 (content_hash first_entry) (VObject []) example_time two_entries.
Definition marked_result : AuditAnchorMarkResult := value_of no_mark marking.2.
Definition no_positions : ChainPositions := MkChainPositions 0 None None false.
Definition positions : ChainPositions := default no_positions (value_of None (chain_positions two_entries (uuid 5) alice)).

Lemma marking_run : mark_anchored (uuid 5) alice 1 (content_hash first_entry) (VObject []) example_time two_entries = (marking.1, Ok marked_result).
Proof.
  assert (marking.2 = Ok marked_result) as <- by (refine (value_of_Ok no_mark _ _); vm_compute; reflexivity). exact (run_eq marking).
Qed.


Definition anchored : KvMap := marking.1.
Definition anchored_positions : ChainPositions := default no_positions (value_of None (chain_positions anchored (uuid 5) alice)).
Definition anchored_mark : option string * option AnchorMark := value_of (None, None) (anchor_mark anchored (uuid 5) alice).
Definition receipt1 : AuditPruneReceipt := value_of no_receipt (sign_prune_receipt anchored log (uuid 5) alice keep_one None).

Lemma anchored_listed : listing anchored (uuid 5) = Ok both.
Proof. evaluate. Qed.

Lemma unanchored_history_kept_witness :
  pr_omitted_count receipt1 = 1%N /\ mk_position <$> anchored_mark.2 = Some 1%N /\
  exists om kept, chain_part alice both = om ++ kept /\ describes receipt1 om kept /\
    (om <> [] ->
     match anchored_mark.2 with
     | Some mark => exists before, cp_omitted_total anchored_positions = Some before /\
                    (before + N.of_nat (length om) <= mk_position mark)%N /\
                    unanchored before mark (chain_part alice both) `suffix_of` kept
     | None => rl_require_anchor log = false
     end).
Proof.
  split; [vm_compute; reflexivity|]. split; [vm_compute; reflexivity|].
  apply (unanchored_history_kept anchored log (uuid 5) alice keep_one None both receipt1 anchored_positions anchored_mark.1 anchored_mark.2).
  - exact anchored_listed.
  - right. vm_compute. reflexivity.
  - exact both_countable.
  - evaluate.
  - rewrite <- (run_eq anchored_mark). refine (value_of_Ok (None, None) _ _). vm_compute. reflexivity.
  - refine (value_of_Ok no_receipt _ _). vm_compute. reflexivity.
Defined.

(** ** A prune with nothing to remove *)

Definition one_entry : KvMap := d_map called.1.
Definition receipt2 : AuditPruneReceipt := value_of no_receipt (sign_prune_receipt one_entry log (uuid 5) alice keep_one None).

Lemma one_listed : listing one_entry (uuid 5) = Ok [(cursor2, second_entry)].
Proof. evaluate. Qed.

Lemma empty_prune_loses_anchor_witness :
  prune_receipt one_entry (uuid 5) alice = Ok (Some text0) /\
  verify_anchor receipt0 (e_previous_hash second_entry) = Ok true /\
  pr_omitted_count receipt2 = 0%N /\ verify_anchor receipt2 (e_previous_hash second_entry) = Ok false.
Proof.
  split; [vm_compute; reflexivity|]. split; [vm_compute; reflexivity|].
  apply (empty_prune_loses_anchor one_entry log (uuid 5) alice keep_one None [(cursor2, second_entry)] (cursor2, second_entry) [] receipt2).
  - exact one_listed.
  - right. vm_compute. reflexivity.
  - split; [vm_compute; discriminate|]. split; [vm_compute; discriminate|]. by repeat constructor.
  - reflexivity.
  - vm_compute. reflexivity.
  - split; [vm_compute; discriminate|done].
  - refine (value_of_Ok no_receipt _ _). vm_compute. reflexivity.
Defined.

(** ** Interrupted prunes *)

Definition gone : AuditError := StorageError "audit page points to missing entry audit:00000000".

(** The process died between the plan and the end of the first entry's
    removal. *)
Definition killed := prune_chain_durable (uuid 5) alice 1 text0 (MkDying two_entries 2).

Definition first_prune : PrunePlan := MkPrunePlan text0 1 None false None false.
Definition first_details : ReceiptDetails := MkReceiptDetails (Some cursor1) 1 (Some 0%N) None None.

(** A call whose plan has a page that cannot be read stops there. *)
Lemma prune_blocked {S} `{KvStore S} (s : S) session_id principal keep receipt bytes plan details cutoff e :
  require_paged_session_projection s session_id = Ok tt ->
  st_get s NS_PRUNE_PLANS (chain_head_key session_id principal) = Ok (Some bytes) ->
  plan_from_slice bytes = Ok plan -> pp_complete plan = false ->
  ReceiptDetails_parse (pp_receipt plan) = Ok details -> rd_cutoff details = Some cutoff ->
  load_session_entries_page s session_id (pp_after plan) 256 = Err e ->
  prune_chain_durable session_id principal keep receipt s = (s, Err e).
Proof.
  intros Hr Hg Hp Hc Hd Hcut Hl. unfold prune_chain_durable, eff_bind at 1, eff_read at 1. rewrite Hr.
  unfold load_or_create_prune_plan, eff_bind at 1, eff_bind at 1, eff_read at 1. rewrite Hg. cbn [eff_lift]. rewrite Hp. cbn [map_err].
  rewrite Hc. unfold eff_bind at 1, eff_lift at 1. rewrite Hd. unfold eff_bind at 1. rewrite Hcut.
  unfold delete_prune_page, eff_bind at 1, eff_read at 1. by rewrite Hl.
Qed.


(** The process died after the pruned entries had been taken off the global
    counters, and the next call finished the prune. *)
Definition killed_late := prune_chain_durable (uuid 5) alice 1 text0 (MkDying two_entries 7).
Definition finished := prune_chain_durable (uuid 5) alice 1 text0 (MkDying (d_map killed_late.1) 100).

Definition global_count (s : Dying) : option N := match load_global_metadata s with Ok (_, g) => Some (gm_total_count g) | Err _ => None end.

(** A prune that is resumed after its accounting takes the removed
    entries off the global count a second time: the finished prune leaves one
    entry of two and a global count of zero, where the same prune without an
    interruption leaves a count of one. *)
Theorem resumed_prune_counts_twice :
  killed_late.2 = Err (StorageError "connection error: the process died") /\ finished.2 = Ok tt /\
  rmap length (get_session_entries finished.1 (uuid 5)) = Ok 1 /\ global_count finished.1 = Some 0%N /\
  called.2 = Ok tt /\ global_count called.1 = Some 1%N.
Proof. split_and!; vm_compute; reflexivity. Qed.
End PruneExamples.
