(* ===== verification/VerifyExamples.v ===== *)
(** * Verification on concrete stores

    A store with two format-v2 entries, a prune of the older one and the
    verification of what is left; and a session with 256 chains of which the
    last is not verified. *)

From stdpp Require Import sorting pretty.
From S2P Require Import Prelude Profile Kv Bytes Cbor Crypto KeyRegistry AuditEntry AuditChain AuditLog.
From S2P Require Import AuditStorage CrashLogic AuditDurability AuditHistory AuditBatch StorageExamples AuditPrune AuditPruning.
From S2P Require Import AuditRetention AuditKeeping AuditRemoval AuditAnchoring PruneExamples AuditVerify AuditVerification.
Local Open Scope string_scope.
Local Open Scope list_scope.

Module VerifyExamples.
  Import Codecs RegistryExamples EntryExamples ChainExamples StorageExamples PruneExamples.
  #[local] Existing Instance toy_crypto.
  #[local] Existing Instance toy_crypto_laws.
  #[local] Existing Instance toy_serde.
  #[local] Existing Instance hyphenated.
  #[local] Existing Instance hyphenated_laws.
  #[local] Existing Instance prefix_codec.
  #[local] Existing Instance prefix_codec_laws.
  #[local] Existing Instance listed.
  #[local] Existing Instance ideal_store.
  #[local] Existing Instance ideal_laws.
  #[local] Existing Instance prune_codec.
  #[local] Existing Instance prune_codec_laws.
  #[local] Existing Instance receipt_codec.
  #[local] Existing Instance receipt_codec_laws.
  #[local] Existing Instance memory_archive.
  #[local] Existing Instance dying_store.

(** The genesis record of the registry, by name. *)
Definition named_record : RegistryCodec := {|
  record_from_slice := fun text => if String.eqb text "genesis" then Ok (record_or_empty example_genesis) else Err "invalid record";
|}.
  #[local] Existing Instance named_record.
Definition in_key_order : ChainIteration := {| iter_legacy_chains := map_to_list |}.
  #[local] Existing Instance in_key_order.

(** ** A pruned session *)

Definition with_registry := kv_insert_key_registry_record 0 "genesis" MemoryKvStore_new.
Definition sealed_pair : list (AuditEntry * option Uuid) := [(entry1, None); (entry2, Some (e_id entry1))].
Definition sealed_batch := append_batch_if_heads_durable sealed_pair with_registry.1.
Definition sealed : KvMap := mem_view sealed_batch.1.
Definition v2_log : RetentionLog := MkRetentionLog _ (key 9) (Some (MkV2Signer (key 1) example_registry None)) false true.
Definition run_prune := prune_chain v2_log (uuid 5) alice keep_one (MkDying sealed 100, []).
Definition prune_answer : AuditPruneReceipt := value_of no_receipt run_prune.2.

Lemma prune_answered : run_prune.2 = Ok prune_answer.
Proof. refine (value_of_Ok no_receipt _ _). vm_compute. reflexivity. Qed.

Lemma prune_ran : prune_chain v2_log (uuid 5) alice keep_one (MkDying sealed 100, []) = ((run_prune.1.1, run_prune.1.2), Ok prune_answer).
Proof.
  rewrite <- prune_answered. unfold run_prune. by destruct (prune_chain _ _ _ _ _) as [[] ?].
Qed.

Definition cursor_of (sequence id : string) : string :=
  "00000000-0000-0000-0000-000000000005:0000000000000000000" +:+ sequence +:+ ":00000000-0000-0000-0000-0000000000" +:+ id.
Definition pair : list (string * AuditEntry) := [(cursor_of "0" "65", entry1); (cursor_of "1" "66", entry2)].

Lemma pair_listed : listing sealed (uuid 5) = Ok pair.
Proof. evaluate. Qed.
Lemma pair_chain : chain_part alice pair = pair.
Proof. reflexivity. Qed.
Lemma pair_indexed : well_indexed pair.
Proof. split; [repeat constructor; evaluate|]. apply (bool_decide_unpack _). vm_compute. exact I. Qed.
Lemma pair_countable : countable (chain_part alice pair).
Proof. rewrite pair_chain. split; [vm_compute; discriminate|]. split; [vm_compute; discriminate|]. by repeat constructor. Qed.

Lemma pair_clean p : chain_issues sealed (Some example_registry) (chain_part p pair).*2 = Ok [].
Proof.
  destruct (decide (p = alice)) as [->|Hne]; [rewrite pair_chain; evaluate|].
  assert (chain_part p pair = []) as ->; [|done]. unfold chain_part, pair. cbn [List.filter snd].
  rewrite !bool_decide_false; [done|intros Hp; by apply Hne; rewrite <- Hp..].
Qed.

Lemma pruned_session_verifies_witness :
  run_prune.2 = Ok prune_answer /\
  exists om kept l', chain_part alice pair = om ++ kept /\ pr_omitted_count prune_answer = N.of_nat (length om) /\ within keep_one kept /\
    listing (d_map run_prune.1.1) (uuid 5) = Ok l' /\
    (forall p, chain_part p l' = if bool_decide (p = alice) then kept else chain_part p pair) /\
    (forall p, chain_issues (d_map run_prune.1.1) (Some example_registry) (chain_part p l').*2 = Ok []) /\
    forall named, named_chains (d_map run_prune.1.1) (uuid 5) = Ok named ->
      kv_verification_registry (d_map run_prune.1.1) v2_log = Ok (Some example_registry) ->
      visited (d_map run_prune.1.1) (uuid 5) named <> [] ->
      exists n, verify_chain (d_map run_prune.1.1) v2_log (uuid 5) = Ok (MkChainVerificationResult true n []).
Proof.
  split; [exact prune_answered|].
  apply (pruned_session_verifies (H0 := dying_laws) (MkDying sealed 100) run_prune.1.1 [] run_prune.1.2 v2_log (uuid 5) alice keep_one pair
           prune_answer (Some example_registry)).
  - exact pair_listed.
  - right. vm_compute. reflexivity.
  - exact pair_indexed.
  - exact pair_countable.
  - repeat constructor; try reflexivity; apply (bool_decide_unpack _); vm_compute; exact I.
  - eexists. split; [reflexivity|]. split; [reflexivity|]. vm_compute. reflexivity.
  - vm_compute. reflexivity.
  - exact pair_clean.
  - exact prune_ran.
  - vm_compute. discriminate.
  - vm_compute. reflexivity.
Defined.

(** The verification of what is left. *)
Lemma pruned_session_valid :
  verify_chain (d_map run_prune.1.1) v2_log (uuid 5) = Ok (MkChainVerificationResult true 1 []).
Proof. vm_compute. reflexivity. Qed.

Lemma verify_chain_exact_witness :
  visited sealed (uuid 5) [(chain_head_key (uuid 5) alice, alice)] = [(chain_head_key (uuid 5) alice, alice)] /\
  verify_chain sealed v2_log (uuid 5) =
  let? found := chains_issues sealed (Some example_registry) pair (visited sealed (uuid 5) [(chain_head_key (uuid 5) alice, alice)]) in
  let issues := List.concat found in
  Ok (MkChainVerificationResult (no_issues issues)
        (N.to_nat (N.min (N.of_nat (chains_size pair (visited sealed (uuid 5) [(chain_head_key (uuid 5) alice, alice)]))) USIZE_MAX))
        (take MAX_ISSUES issues)).
Proof.
  split; [vm_compute; reflexivity|].
  apply (verify_chain_exact sealed v2_log (uuid 5) (Some example_registry) pair [(chain_head_key (uuid 5) alice, alice)]).
  - exact pair_listed.
  - vm_compute. reflexivity.
  - reflexivity.
  - vm_compute. discriminate.
Defined.

(** ** A session with 256 chains *)

Definition empty_chain (n : nat) : string * string :=
  (NS_CHAIN_METADATA, "00000000-0000-0000-0000-000000000005:a" +:+ pretty (N.of_nat n)).

(** The chain of alice, whose entries are not signed correctly, comes last. *)
Definition crowded : KvMap := foldr (fun n m => <[empty_chain n := EmptyString]> m) two_entries (seq 0 255).
Definition crowd : list (string * option string) := value_of [] (named_chains crowded (uuid 5)).

Lemma crowded_listed : listing crowded (uuid 5) = Ok both.
Proof. evaluate. Qed.
Lemma crowd_named : named_chains crowded (uuid 5) = Ok crowd.
Proof. refine (value_of_Ok [] _ _). vm_compute. reflexivity. Qed.
Lemma crowd_last : crowd !! 255 = Some (chain_head_key (uuid 5) alice, alice).
Proof. vm_compute. reflexivity. Qed.

Lemma crowd_others j c : crowd !! j = Some c -> j < 255 -> chain_issues crowded None (chain_part c.2 both).*2 = Ok [].
Proof.
  intros Hj Hlt. assert (forallb (fun c => negb (bool_decide (c.2 = alice))) (take 255 crowd) = true) as Hall by (vm_compute; reflexivity).
  rewrite forallb_forall in Hall. assert (c ∈ take 255 crowd) as Hin by (apply list_elem_of_lookup; exists j; by rewrite lookup_take_lt).
  specialize (Hall c (proj1 (list_elem_of_In _ _) Hin)). apply negb_true_iff, bool_decide_eq_false in Hall.
  assert (chain_part c.2 both = []) as ->; [|done]. unfold chain_part, both. cbn [List.filter snd].
  rewrite !bool_decide_false; [done|intros Hp; by apply Hall; rewrite <- Hp..].
Qed.

Definition late_issues : list ChainIssue := value_of [] (chain_issues crowded None (chain_part alice both).*2).

Lemma late_chain_unverified_witness :
  exists n, verify_chain crowded log (uuid 5) = Ok (MkChainVerificationResult true n []).
Proof.
  destruct late_issues as [|issue more] eqn:Hlate; [vm_compute in Hlate; discriminate|].
  apply (late_chain_unverified crowded log (uuid 5) None both crowd 255 (chain_head_key (uuid 5) alice, alice) issue more).
  - exact crowded_listed.
  - exact crowd_named.
  - vm_compute. reflexivity.
  - vm_compute. reflexivity.
  - exact crowd_last.
  - apply le_n.
  - rewrite <- Hlate. refine (value_of_Ok [] _ _). vm_compute. reflexivity.
  - exact crowd_others.
Defined.
End VerifyExamples.
