(* ===== verification/CapTokens.v ===== *)
(** * Capability tokens

    [crates/astrid-capabilities/src/{pattern, token}.rs]: resource patterns and
    the signed tokens that grant permissions on the resources they match.

    The [globset] crate is the class [Globset]; Ed25519 and BLAKE3 are the
    class [Crypto].  A JSON document of a token is read and written field by
    field: [TokenWire] is the token with the fields whose types have their own
    text form, and [TokenCodec] is [serde_json] on it.  The range of chrono's
    dates and durations is the class [Chrono]; a computation that leaves it
    panics and is [None].  The clock is an argument. *)

From S2P Require Import Prelude CapabilityGrammar Profile Kv Bytes Crypto.
From Stdlib Require Import Ascii.
Local Open Scope string_scope.
Local Open Scope list_scope.

(** ** Errors ([error.rs])

    A storage error is a failed call of the backend, a message of the store
    itself, or the list of the deletions that failed. *)
Inductive CapabilityError : Type :=
| TokenExpired (token_id : Uuid)
| TokenRevoked (token_id : Uuid)
| TokenNotFound (token_id : Uuid)
| TokenAlreadyUsed (token_id : Uuid)
| InsufficientPermission (required resource : string)
| InvalidTokenSignature
| InvalidPattern (pattern reason : string)
| CapStorageError (cause : StorageError)
| CapStorageMessage (reason : string)
| CapStorageFailures (failures : list (string * string * StorageError))
| CapCryptoError (reason : string)
| CapSerializationError (reason : string).

Abbreviation CapabilityResult A := (result A CapabilityError).

(** ** Resource patterns ([pattern.rs]) *)

Class Globset : Type := {
  GlobMatcher : Type;
  Glob_new : string -> result GlobMatcher string;
  is_match : GlobMatcher -> string -> bool;
}.

(** [str::split_once] with a text separator. *)
Fixpoint split_once_str (pat s : string) : option (string * string) :=
  match strip_prefix pat s with
  | Some rest => Some ("", rest)
  | None =>
      match s with
      | EmptyString => None
      | String a r => (fun '(x, y) => (String a x, y)) <$> split_once_str pat r
      end
  end.

Definition contains_path_traversal (s : string) : bool :=
  let path := match split_once_str "://" s with Some (_, rest) => rest | None => s end in
  existsb (fun segment => String.eqb segment "..") (split_on "/" path).

Definition TRAVERSAL_REASON : string := "path traversal detected: pattern contains '..' segment".

Section Patterns.
  Context `{Globset}.

Record ResourcePattern : Type := MkResourcePattern {
  rp_pattern : string;
  rp_matcher : option GlobMatcher;
}.

Definition has_glob_char (pattern : string) : bool :=
  contains_char "*" pattern || contains_char "?" pattern || contains_char "[" pattern.

Definition ResourcePattern_new (pattern : string) : CapabilityResult ResourcePattern :=
  if contains_path_traversal pattern then Err (InvalidPattern pattern TRAVERSAL_REASON)
  else if has_glob_char pattern
  then let? matcher := map_err (InvalidPattern pattern) (Glob_new pattern) in
       Ok (MkResourcePattern pattern (Some matcher))
  else Ok (MkResourcePattern pattern None).

Definition ResourcePattern_exact (pattern : string) : CapabilityResult ResourcePattern :=
  if contains_path_traversal pattern then Err (InvalidPattern pattern TRAVERSAL_REASON)
  else Ok (MkResourcePattern pattern None).

Definition file_dir (path : string) : CapabilityResult ResourcePattern :=
  ResourcePattern_new ("file://" +:+ path +:+ "/**").
Definition file_exact (path : string) : CapabilityResult ResourcePattern :=
  ResourcePattern_exact ("file://" +:+ path).
Definition mcp_tool (server tool : string) : CapabilityResult ResourcePattern :=
  ResourcePattern_exact ("mcp://" +:+ server +:+ ":" +:+ tool).
Definition mcp_server (server : string) : CapabilityResult ResourcePattern :=
  ResourcePattern_new ("mcp://" +:+ server +:+ ":*").

(** [ResourcePattern::matches]. *)
Definition pattern_matches (p : ResourcePattern) (resource : string) : bool :=
  if contains_path_traversal resource then false
  else match rp_matcher p with
       | Some matcher => is_match matcher resource
       | None => String.eqb (rp_pattern p) resource
       end.
End Patterns.

(** ** Tokens ([token.rs]) *)

(** [Permission] of [astrid-core/src/types.rs] and its text. *)
Inductive Permission : Type := Read | Write | Execute | Delete | Invoke | PermList | Create.

#[export] Instance Permission_eq_dec : EqDecision Permission.
Proof. solve_decision. Defined.

Definition permission_to_string (p : Permission) : string :=
  match p with
  | Read => "read" | Write => "write" | Execute => "execute" | Delete => "delete"
  | Invoke => "invoke" | PermList => "list" | Create => "create"
  end.

Inductive TokenScope : Type := Session | Persistent.

#[export] Instance TokenScope_eq_dec : EqDecision TokenScope.
Proof. solve_decision. Defined.

Definition scope_to_string (s : TokenScope) : string :=
  match s with Session => "session" | Persistent => "persistent" end.

Definition SIGNING_DATA_VERSION : N := 2.
Definition DEFAULT_CLOCK_SKEW_SECS : Z := 30.

(** The length is cast to [u32]. *)
Definition length_prefixed (data : list byte) : list byte :=
  to_le_bytes 4 (N.of_nat (length data) mod 2 ^ 32)%N ++ data.

Definition flag (b : bool) : list byte := [ascii_of_N (if b then 1 else 0)].

Class Chrono : Type := { duration_max_secs : Z; datetime_max : Timestamp }.

(** [Duration::try_seconds], as nanoseconds, and the addition of a duration to
    a date, which panics past the last representable one. *)
Definition try_seconds `{Chrono} (secs : Z) : option Z :=
  if bool_decide (- duration_max_secs <= secs <= duration_max_secs)%Z then Some (secs * 1000000000)%Z else None.
Definition datetime_add `{Chrono} (t : Timestamp) (d : Z) : option Timestamp :=
  if bool_decide (t + d <= datetime_max)%Z then Some (t + d)%Z else None.

Section Tokens.
  Context `{Globset, Crypto}.

Record CapabilityToken : Type := MkCapabilityToken {
  t_id : Uuid;
  t_resource : ResourcePattern;
  t_permissions : list Permission;
  t_issued_at : Timestamp;
  t_expires_at : option Timestamp;
  t_scope : TokenScope;
  t_issuer : PublicKey;
  t_user_id : array 8;
  t_approval_audit_id : Uuid;
  t_single_use : bool;
  t_principal : PrincipalId;
  t_signature : Signature;
}.

Definition token_with_signature (t : CapabilityToken) (signature : Signature) : CapabilityToken :=
  MkCapabilityToken (t_id t) (t_resource t) (t_permissions t) (t_issued_at t) (t_expires_at t) (t_scope t)
    (t_issuer t) (t_user_id t) (t_approval_audit_id t) (t_single_use t) (t_principal t) signature.

(** [CapabilityToken::signing_data]. *)
Definition token_signing_data (t : CapabilityToken) : list byte :=
  [ascii_of_N SIGNING_DATA_VERSION]
    ++ length_prefixed (arr (t_id t))
    ++ length_prefixed (as_bytes (rp_pattern (t_resource t)))
    ++ to_le_bytes 4 (N.of_nat (length (t_permissions t)) mod 2 ^ 32)%N
    ++ List.concat ((fun p => length_prefixed (as_bytes (permission_to_string p))) <$> t_permissions t)
    ++ seconds_le_bytes (t_issued_at t)
    ++ match t_expires_at t with
       | Some expires => flag true ++ seconds_le_bytes expires
       | None => flag false
       end
    ++ length_prefixed (as_bytes (scope_to_string (t_scope t)))
    ++ arr (t_issuer t)
    ++ arr (t_user_id t)
    ++ length_prefixed (arr (t_approval_audit_id t))
    ++ flag (t_single_use t)
    ++ length_prefixed (as_bytes (pid_str (t_principal t))).

Definition token_verify_signature (t : CapabilityToken) : CapabilityResult unit :=
  if verify (t_issuer t) (token_signing_data t) (t_signature t) then Ok tt else Err InvalidTokenSignature.

Definition is_expired_with_skew (now : Timestamp) (skew_secs : Z) (t : CapabilityToken) : bool :=
  match t_expires_at t with
  | Some expires => (expires + skew_secs * 1000000000 <? now)%Z
  | None => false
  end.

Definition is_expired (now : Timestamp) (t : CapabilityToken) : bool := is_expired_with_skew now 0 t.

Definition validate_with_skew (now : Timestamp) (skew_secs : Z) (t : CapabilityToken) : CapabilityResult unit :=
  if is_expired_with_skew now skew_secs t then Err (TokenExpired (t_id t)) else token_verify_signature t.

(** [CapabilityToken::validate]. *)
Definition token_validate (now : Timestamp) (t : CapabilityToken) : CapabilityResult unit :=
  validate_with_skew now DEFAULT_CLOCK_SKEW_SECS t.

(** [CapabilityToken::grants]. *)
Definition token_grants (t : CapabilityToken) (resource : string) (permission : Permission) : bool :=
  pattern_matches (t_resource t) resource && contains permission (t_permissions t).

Definition token_content_hash (t : CapabilityToken) : ContentHash := ContentHash_hash (token_signing_data t).

(** [create_with_options]; the identifier is drawn and the clock read twice. *)
Definition create_with_options `{Chrono} (id : Uuid) (now now' : Timestamp) (resource : ResourcePattern)
    (permissions : list Permission) (scope : TokenScope) (user_id : array 8) (approval_audit_id : Uuid)
    (runtime_key : KeyPair) (ttl : option Z) (single_use : bool) (principal : PrincipalId)
    : option CapabilityToken :=
  expires_at ← match ttl with
               | None => Some None
               | Some d => Some <$> datetime_add now' d
               end;
  let token := MkCapabilityToken id resource permissions now expires_at scope (export_public_key runtime_key)
                 user_id approval_audit_id single_use principal (zero_array 64) in
  Some (token_with_signature token (sign runtime_key (token_signing_data token))).

(** [CapabilityToken::create]. *)
Definition token_create `{Chrono} (id : Uuid) (now now' : Timestamp) (resource : ResourcePattern)
    (permissions : list Permission) (scope : TokenScope) (user_id : array 8) (approval_audit_id : Uuid)
    (runtime_key : KeyPair) (ttl : option Z) (principal : PrincipalId) : option CapabilityToken :=
  create_with_options id now now' resource permissions scope user_id approval_audit_id runtime_key ttl false
    principal.

(** ** JSON *)

Record TokenWire : Type := MkTokenWire {
  w_id : Uuid;
  w_resource : string;
  w_permissions : list Permission;
  w_issued_at : Timestamp;
  w_expires_at : option Timestamp;
  w_scope : TokenScope;
  w_issuer : PublicKey;
  w_user_id : array 8;
  w_approval_audit_id : Uuid;
  w_single_use : bool;
  w_principal : string;
  w_signature : Signature;
}.
End Tokens.

Class TokenCodec : Type := {
  wire_to_vec : TokenWire -> result string string;
  wire_from_slice : string -> result TokenWire string;
}.

Class TokenCodecLaws `{TokenCodec} : Prop := {
  wire_roundtrip w v : wire_to_vec w = Ok v -> wire_from_slice v = Ok w;
}.

Section TokenJson.
  Context `{Globset, Crypto, TokenCodec}.

Definition to_wire (t : CapabilityToken) : TokenWire :=
  MkTokenWire (t_id t) (rp_pattern (t_resource t)) (t_permissions t) (t_issued_at t) (t_expires_at t) (t_scope t)
    (t_issuer t) (t_user_id t) (t_approval_audit_id t) (t_single_use t) (pid_str (t_principal t)) (t_signature t).

(** [Deserialize] of [ResourcePattern] is [ResourcePattern::new], that of
    [PrincipalId] is [PrincipalId::new]. *)
Definition of_wire (w : TokenWire) : CapabilityResult CapabilityToken :=
  let? resource := map_err (fun _ => CapSerializationError "resource") (ResourcePattern_new (w_resource w)) in
  let? principal := map_err (fun _ => CapSerializationError "principal") (PrincipalId_new (w_principal w)) in
  Ok (MkCapabilityToken (w_id w) resource (w_permissions w) (w_issued_at w) (w_expires_at w) (w_scope w)
        (w_issuer w) (w_user_id w) (w_approval_audit_id w) (w_single_use w) principal (w_signature w)).

Definition token_to_vec (t : CapabilityToken) : CapabilityResult string :=
  map_err CapSerializationError (wire_to_vec (to_wire t)).

Definition token_from_slice (data : string) : CapabilityResult CapabilityToken :=
  let? w := map_err CapSerializationError (wire_from_slice data) in of_wire w.
End TokenJson.

(** ** What a signature binds *)

Lemma length_prefixed_app a b x y :
  (N.of_nat (length a) < 2 ^ 32)%N -> (N.of_nat (length b) < 2 ^ 32)%N ->
  length_prefixed a ++ x = length_prefixed b ++ y -> a = b /\ x = y.
Proof.
  unfold length_prefixed. intros Ha Hb. rewrite <- !(assoc_L (++)). intros [Hl Hr]%app_inj_length;
    [|by rewrite !length_to_le_bytes].
  apply to_le_bytes_inj in Hl; [|apply N.mod_lt; lia..].
  rewrite !N.mod_small in Hl by done. apply app_inj_length; [lia|done].
Qed.

Lemma flag_app a b (x y : list byte) : flag a ++ x = flag b ++ y -> a = b /\ x = y.
Proof. by destruct a, b; intros [= ->]. Qed.

Lemma seconds_app s t x y :
  (- 2 ^ 63 <= s / 1000000000 < 2 ^ 63)%Z -> (- 2 ^ 63 <= t / 1000000000 < 2 ^ 63)%Z ->
  seconds_le_bytes s ++ x = seconds_le_bytes t ++ y -> (s / 1000000000 = t / 1000000000)%Z /\ x = y.
Proof.
  unfold seconds_le_bytes. set (a := (s / _)%Z). set (b := (t / _)%Z). intros Ha Hb [Hs Hr]%app_inj_length;
    [|by rewrite !length_to_le_bytes].
  split; [|done].
  assert (forall z, (Z.to_N (z mod 2 ^ 64) < 256 ^ N.of_nat 8)%N) as Hlt.
  { intros z. pose proof (Z.mod_pos_bound z (2 ^ 64) ltac:(lia)).
    change (256 ^ N.of_nat 8)%N with 18446744073709551616%N. change (2 ^ 64)%Z with 18446744073709551616%Z in *. lia. }
  apply to_le_bytes_inj in Hs; [|apply Hlt..]. clear Hlt.
  pose proof (Z.mod_pos_bound a (2 ^ 64) ltac:(lia)). pose proof (Z.mod_pos_bound b (2 ^ 64) ltac:(lia)).
  apply (f_equal Z.of_N) in Hs. rewrite !Z2N.id in Hs by lia.
  pose proof (Z.div_mod a (2 ^ 64) ltac:(lia)). pose proof (Z.div_mod b (2 ^ 64) ltac:(lia)). nia.
Qed.

#[export] Instance permission_to_string_inj : Inj (=) (=) permission_to_string.
Proof. by intros [] []. Qed.
#[export] Instance scope_to_string_inj : Inj (=) (=) scope_to_string.
Proof. by intros [] []. Qed.

Lemma permission_text_short p : (N.of_nat (length (as_bytes (permission_to_string p))) < 2 ^ 32)%N.
Proof. by destruct p. Qed.
Lemma scope_text_short s : (N.of_nat (length (as_bytes (scope_to_string s))) < 2 ^ 32)%N.
Proof. by destruct s. Qed.

Lemma permissions_app ps qs x y :
  length ps = length qs ->
  List.concat ((fun p => length_prefixed (as_bytes (permission_to_string p))) <$> ps) ++ x
  = List.concat ((fun p => length_prefixed (as_bytes (permission_to_string p))) <$> qs) ++ y ->
  ps = qs /\ x = y.
Proof.
  revert qs; induction ps as [|p ps IH]; intros [|q qs] Hlen; try done. simpl. rewrite <- !(assoc_L (++)).
  intros [Hp Hr]%length_prefixed_app; [|apply permission_text_short..].
  apply (inj as_bytes) in Hp. apply (inj permission_to_string) in Hp as ->.
  destruct (IH qs) as [-> ->]; [by injection Hlen|done|done].
Qed.

Section Signing.
  Context `{Globset, Crypto}.

(** Fields whose lengths and times fit the fixed-width numbers that carry them. *)
Record token_ok (t : CapabilityToken) : Prop := MkTokenOk {
  tk_resource : (N.of_nat (String.length (rp_pattern (t_resource t))) < 2 ^ 32)%N;
  tk_permissions : (N.of_nat (length (t_permissions t)) < 2 ^ 32)%N;
  tk_principal : (N.of_nat (String.length (pid_str (t_principal t))) < 2 ^ 32)%N;
  tk_issued : (- 2 ^ 63 <= t_issued_at t / 1000000000 < 2 ^ 63)%Z;
  tk_expires : forall e, t_expires_at t = Some e -> (- 2 ^ 63 <= e / 1000000000 < 2 ^ 63)%Z;
}.

(** What the signed bytes of a token determine: everything but the matcher
    and the fractions of a second. *)
Record same_grant (t1 t2 : CapabilityToken) : Prop := MkSameGrant {
  sg_id : t_id t1 = t_id t2;
  sg_resource : rp_pattern (t_resource t1) = rp_pattern (t_resource t2);
  sg_permissions : t_permissions t1 = t_permissions t2;
  sg_issued : (t_issued_at t1 / 1000000000 = t_issued_at t2 / 1000000000)%Z;
  sg_expires : (fun e => (e / 1000000000)%Z) <$> t_expires_at t1 = (fun e => (e / 1000000000)%Z) <$> t_expires_at t2;
  sg_scope : t_scope t1 = t_scope t2;
  sg_issuer : t_issuer t1 = t_issuer t2;
  sg_user : t_user_id t1 = t_user_id t2;
  sg_approval : t_approval_audit_id t1 = t_approval_audit_id t2;
  sg_single_use : t_single_use t1 = t_single_use t2;
  sg_principal : t_principal t1 = t_principal t2;
}.

Lemma arr_app {n} (a b : array n) x y : arr a ++ x = arr b ++ y -> a = b /\ x = y.
Proof. intros [Ha Hx]%app_inj_length; [|by rewrite !arr_length]. by apply (inj arr) in Ha as ->. Qed.

Lemma arr_short {n} (a : array n) : n <= 64 -> (N.of_nat (length (arr a)) < 2 ^ 32)%N.
Proof. rewrite arr_length. lia. Qed.

Lemma expires_app (e1 e2 : option Timestamp) x y :
  (forall e, e1 = Some e -> (- 2 ^ 63 <= e / 1000000000 < 2 ^ 63)%Z) ->
  (forall e, e2 = Some e -> (- 2 ^ 63 <= e / 1000000000 < 2 ^ 63)%Z) ->
  match e1 with Some e => flag true ++ seconds_le_bytes e | None => flag false end ++ x
  = match e2 with Some e => flag true ++ seconds_le_bytes e | None => flag false end ++ y ->
  (fun e => (e / 1000000000)%Z) <$> e1 = (fun e => (e / 1000000000)%Z) <$> e2 /\ x = y.
Proof.
  intros H1 H2. destruct e1 as [e1|], e2 as [e2|]; rewrite <- ?(assoc_L (++));
    intros [Hf Hr]%flag_app; try done.
  apply seconds_app in Hr as [Hs ->]; [|by auto..]. simpl. by rewrite Hs.
Qed.

(** C25: The signed bytes of a token determine what it grants: two tokens of
    bounded size with the same signing data agree on the id, the pattern
    text, the permissions, the times to the second, scope, issuer, approval,
    single use and principal, so no token can be passed off as another one. *)
Theorem signing_data_binds t1 t2 :
  token_ok t1 -> token_ok t2 -> token_signing_data t1 = token_signing_data t2 -> same_grant t1 t2.
Proof.
  intros [R1 P1 N1 I1 E1] [R2 P2 N2 I2 E2]. unfold token_signing_data. intros Heq.
  apply app_inj_length in Heq as [_ Heq]; [|done].
  apply length_prefixed_app in Heq as [Hid Heq]; [|apply arr_short; lia..].
  apply length_prefixed_app in Heq as [Hres Heq]; [|by rewrite length_as_bytes..].
  apply app_inj_length in Heq as [Hcount Heq]; [|by rewrite !length_to_le_bytes].
  apply to_le_bytes_inj in Hcount; [|apply N.mod_lt; lia..]. rewrite !N.mod_small in Hcount by done.
  apply permissions_app in Heq as [Hperm Heq]; [|lia].
  apply seconds_app in Heq as [Hiss Heq]; [|done..].
  apply expires_app in Heq as [Hexp Heq]; [|done..].
  apply length_prefixed_app in Heq as [Hscope Heq]; [|apply scope_text_short..].
  apply arr_app in Heq as [Hissuer Heq]. apply arr_app in Heq as [Huser Heq].
  apply length_prefixed_app in Heq as [Haudit Heq]; [|apply arr_short; lia..].
  apply flag_app in Heq as [Hsingle Heq].
  rewrite <- (app_nil_r (length_prefixed _)), <- (app_nil_r (length_prefixed (as_bytes (pid_str (t_principal t2))))) in Heq.
  apply length_prefixed_app in Heq as [Hprin _]; [|by rewrite length_as_bytes..].
  split; try done; [by apply (inj arr)|by apply (inj as_bytes)|by apply (inj scope_to_string), (inj as_bytes)
    |by apply (inj arr)|].
  apply (inj as_bytes) in Hprin. destruct (t_principal t1), (t_principal t2). simpl in Hprin. by subst.
Qed.
End Signing.

(** ** Patterns and their JSON form *)

Section PatternFacts.
  Context `{Globset}.

Lemma ResourcePattern_new_Ok pattern p :
  ResourcePattern_new pattern = Ok p ->
  rp_pattern p = pattern /\ contains_path_traversal pattern = false /\
  (has_glob_char pattern = false -> rp_matcher p = None).
Proof. unfold ResourcePattern_new. intros Hp. inv_ok. destruct (has_glob_char pattern); inv_ok; done. Qed.

Lemma ResourcePattern_new_again pattern p : ResourcePattern_new pattern = Ok p -> ResourcePattern_new (rp_pattern p) = Ok p.
Proof. intros Hp. by rewrite (proj1 (ResourcePattern_new_Ok _ _ Hp)). Qed.

(** A pattern without glob characters is read back as it was written; an exact
    pattern with one is read back as a glob. *)
Lemma exact_pattern_reread pattern p :
  ResourcePattern_exact pattern = Ok p ->
  ResourcePattern_new (rp_pattern p)
  = if has_glob_char pattern
    then let? matcher := map_err (InvalidPattern pattern) (Glob_new pattern) in
         Ok (MkResourcePattern pattern (Some matcher))
    else Ok p.
Proof. unfold ResourcePattern_exact, ResourcePattern_new. intros Hp. inv_ok. simpl. by rewrite Heqb. Qed.

(** No pattern matches a resource with a parent-directory segment. *)
Lemma pattern_matches_clean p resource : pattern_matches p resource = true -> contains_path_traversal resource = false.
Proof. unfold pattern_matches. by destruct (contains_path_traversal resource). Qed.
End PatternFacts.

Lemma PrincipalId_new_Ok s p : PrincipalId_new s = Ok p -> p = MkPrincipalId s.
Proof. unfold PrincipalId_new. intros Hp. repeat case_match; inv_ok; done. Qed.

(** A principal built by [PrincipalId::new], as every one is. *)
Definition principal_ok (p : PrincipalId) : Prop := PrincipalId_new (pid_str p) = Ok p.

Lemma identifier_text s :
  Forall identifier_char (chars s) -> contains_char "/" s = false /\ contains_char NUL s = false.
Proof.
  intros Hs. split; apply not_true_iff_false; rewrite contains_char_bytes;
    rewrite <- chars_ascii by (eapply Forall_impl; [done|]; apply identifier_char_ascii);
    intros Hin; rewrite Forall_forall in Hs; specialize (Hs _ Hin); vm_compute in Hs; by intuition.
Qed.

Lemma principal_ok_text p :
  principal_ok p -> contains_char "/" (pid_str p) = false /\ contains_char NUL (pid_str p) = false.
Proof.
  unfold principal_ok, PrincipalId_new. intros Hp. inv_ok. destruct (List.find _ _) eqn:Hf; [done|].
  by apply identifier_text, find_bad_None.
Qed.

Section TokenRoundtrip.
  Context `{Globset, Crypto, TokenCodecLaws}.

(** A stored token is read back as it was, when its pattern is one
    [ResourcePattern::new] builds. *)
Lemma token_roundtrip t v :
  principal_ok (t_principal t) -> ResourcePattern_new (rp_pattern (t_resource t)) = Ok (t_resource t) ->
  token_to_vec t = Ok v -> token_from_slice v = Ok t.
Proof.
  intros Hp Hr Hv. unfold token_to_vec in Hv. inv_ok. unfold token_from_slice.
  rewrite (wire_roundtrip _ _ Hv). simpl. unfold of_wire. simpl. rewrite Hr. simpl.
  rewrite Hp. simpl. by destruct t.
Qed.
End TokenRoundtrip.

(** ** Example

    A glob is a text, or a prefix followed by a star. *)
Module TokenExamples.

Definition toy_globset : Globset := {|
  GlobMatcher := string;
  Glob_new := fun pattern => Ok pattern;
  is_match := fun pattern resource =>
    match strip_suffix "*" pattern with
    | Some prefix => starts_with prefix resource
    | None => String.eqb pattern resource
    end;
|}.

#[local] Existing Instance toy_globset.
#[local] Existing Instance toy_crypto.

Definition example_token (issued : Timestamp) : CapabilityToken :=
  MkCapabilityToken (int_array 16 1) (MkResourcePattern "mcp://fs:*" (Some "mcp://fs:*")) [Invoke; Read] issued (Some (issued + 5)%Z)
    Persistent (int_array 32 1) (int_array 8 0) (int_array 16 0) true (MkPrincipalId "alice") (zero_array 64).

Lemma example_token_ok issued : (0 <= issued < 2 ^ 62)%Z -> token_ok (example_token issued).
Proof.
  intros Hi.
  assert (forall z, (0 <= z < 2 ^ 62 + 5)%Z -> (- 2 ^ 63 <= z / 1000000000 < 2 ^ 63)%Z) as Hz.
  { intros z Hz. assert (0 <= z / 1000000000 <= z)%Z; [|lia].
    split; [apply Z.div_pos; lia|]. apply Z.div_le_upper_bound; lia. }
  split; [done..| |]; simpl; [apply Hz; lia|]. intros e [= <-]. apply Hz. lia.
Qed.

Lemma signing_data_binds_witness : same_grant (example_token 1700000000000000000) (example_token 1700000000000000001).
Proof.
  apply (signing_data_binds (example_token 1700000000000000000) (example_token 1700000000000000001)).
  - apply example_token_ok. lia.
  - apply example_token_ok. lia.
  - vm_compute. reflexivity.
Defined.
End TokenExamples.
