(* ===== verification/CapStore.v ===== *)
(** * The capability store

    [crates/astrid-capabilities/src/{store, validator}.rs], the authorization
    check of the secure MCP client ([astrid-mcp/src/secure.rs]) and the
    token handlers of the admin router
    ([astrid-kernel/src/kernel_router/admin/caps_tokens.rs]).

    The persistent half of the store is any backend of [KvStore].  The text of
    a UUID is the class [UuidText], and the order in which a hash map yields
    its values the class [HashIteration].  An operation reads the clock once;
    [check_authorization] reads it again when it consumes the token.  A lock
    that cannot be poisoned is not modelled, and log messages are omitted. *)

From S2P Require Import Prelude CapabilityGrammar Profile Kv Bytes Crypto CapTokens.
From Stdlib Require Import Ascii.
Local Open Scope string_scope.
Local Open Scope list_scope.

Class HashIteration `{Globset} : Type := {
  iter_principals : gmap PrincipalId (gmap Uuid CapabilityToken) -> list (gmap Uuid CapabilityToken);
  iter_tokens : gmap Uuid CapabilityToken -> list CapabilityToken;
  iter_ids : gset Uuid -> list Uuid;
}.

Class HashIterationLaws `{HashIteration} : Prop := {
  iter_principals_perm m : iter_principals m ≡ₚ (map_to_list m).*2;
  iter_tokens_perm m : iter_tokens m ≡ₚ (map_to_list m).*2;
  iter_ids_perm ids : iter_ids ids ≡ₚ elements ids;
}.

Definition NS_TOKENS : string := "caps:tokens".
Definition NS_TOKEN_INDEX : string := "caps:token_index".
Definition NS_REVOKED : string := "caps:revoked".
Definition NS_USED : string := "caps:used".

(** The one-byte marker [[1]]. *)
Definition PRESENCE_MARKER : string := String "001" "".

Section Store.
  Context {S : Type} `{KvStore S} `{Globset} `{Crypto} `{TokenCodec} `{UuidText} `{!HashIteration}.

Definition token_key (principal : PrincipalId) (token_id : Uuid) : string :=
  pid_str principal +:+ "/" +:+ uuid_to_string token_id.
Definition token_key_prefix (principal : PrincipalId) : string := pid_str principal +:+ "/".

Record CapabilityStore : Type := MkCapabilityStore {
  retiring_principals : gset PrincipalId;
  session_tokens : gmap PrincipalId (gmap Uuid CapabilityToken);
  persistent_store : option S;
  revoked : gset Uuid;
  used_tokens : gset Uuid;
}.

Definition with_session (st : CapabilityStore) (tokens : gmap PrincipalId (gmap Uuid CapabilityToken))
    : CapabilityStore :=
  MkCapabilityStore (retiring_principals st) tokens (persistent_store st) (revoked st) (used_tokens st).
Definition with_backend (st : CapabilityStore) (s : S) : CapabilityStore :=
  MkCapabilityStore (retiring_principals st) (session_tokens st) (Some s) (revoked st) (used_tokens st).

(** ** Calls of the backend *)

Abbreviation backend A := (eff S CapabilityError A).
Abbreviation store_op A := (eff CapabilityStore CapabilityError A).

Definition kv_read (ns key : string) : backend (option string) :=
  eff_read (fun s => map_err CapStorageError (kv_get s ns key)).
Definition kv_put (ns key value : string) : backend unit :=
  fun s => let '(s', r) := kv_set s ns key value in (s', map_err CapStorageError r).

(** [let _ = store.delete(..).await]. *)
Definition kv_forget (ns key : string) (s : S) : S := (kv_delete s ns key).1.

(** [if let Some(store) = &self.persistent_store], with the result otherwise. *)
Definition on_persistent {A} (c : backend A) (absent : CapabilityResult A) : store_op A :=
  fun st => match persistent_store st with
            | None => (st, absent)
            | Some s => let '(s', r) := c s in (with_backend st s', r)
            end.

(** ** Opening *)

Definition in_memory : CapabilityStore := MkCapabilityStore ∅ ∅ None ∅ ∅.

Definition load_ids (ns : string) (s : S) : CapabilityResult (gset Uuid) :=
  let? keys := map_err CapStorageError (kv_list_keys s ns) in
  Ok (list_to_set (omap uuid_parse_str keys)).

Definition with_kv_store (s : S) : CapabilityResult CapabilityStore :=
  let? revoked := load_ids NS_REVOKED s in
  let? used := load_ids NS_USED s in
  Ok (MkCapabilityStore ∅ ∅ (Some s) revoked used).

(** ** Adding and reading *)

Definition insert_session (st : CapabilityStore) (token : CapabilityToken) : CapabilityStore :=
  let inner := default ∅ (session_tokens st !! t_principal token) in
  with_session st (<[t_principal token := <[t_id token := token]> inner]> (session_tokens st)).

Definition persist_token (token : CapabilityToken) : backend unit :=
  do? serialized := eff_lift (token_to_vec token) in
  do? _ := kv_put NS_TOKENS (token_key (t_principal token) (t_id token)) serialized in
  kv_put NS_TOKEN_INDEX (uuid_to_string (t_id token)) (pid_str (t_principal token)).

Definition add (now : Timestamp) (token : CapabilityToken) : store_op unit :=
  fun st =>
  if bool_decide (t_principal token ∈ retiring_principals st)
  then (st, Err (CapStorageMessage ("principal " +:+ pid_str (t_principal token) +:+ " is retiring")))
  else match token_validate now token with
       | Err e => (st, Err e)
       | Ok _ =>
           match t_scope token, persistent_store st with
           | Persistent, Some _ => on_persistent (persist_token token) (Ok tt) st
           | _, _ => (insert_session st token, Ok tt)
           end
       end.

Definition decode_valid (now : Timestamp) (data : string) : CapabilityResult CapabilityToken :=
  let? token := token_from_slice data in
  let? _ := token_validate now token in
  Ok token.

(** The legacy flat key of [read_persistent_token_any_principal]. *)
Definition read_legacy_token (now : Timestamp) (token_id : Uuid) : backend (option CapabilityToken) :=
  do? found := kv_read NS_TOKENS (uuid_to_string token_id) in
  match found with
  | Some data => do? token := eff_lift (decode_valid now data) in eff_lift (Ok (Some token))
  | None => eff_lift (Ok None)
  end.

Definition read_persistent_token_any_principal (now : Timestamp) (token_id : Uuid)
    : backend (option CapabilityToken) :=
  let token_id_str := uuid_to_string token_id in
  do? indexed := kv_read NS_TOKEN_INDEX token_id_str in
  match indexed with
  | None => read_legacy_token now token_id
  | Some principal_str =>
      do? _ := eff_lift (if utf8_valid principal_str then Ok tt
                         else Err (CapStorageMessage "corrupt token index entry")) in
      do? principal := eff_lift (map_err (fun _ => CapStorageMessage "invalid principal in token index")
                                   (PrincipalId_new principal_str)) in
      do? found := kv_read NS_TOKENS (token_key principal token_id) in
      match found with
      | Some data => do? token := eff_lift (decode_valid now data) in eff_lift (Ok (Some token))
      | None => fun s => read_legacy_token now token_id (kv_forget NS_TOKEN_INDEX token_id_str s)
      end
  end.

(** The first principal's map that holds the token, in iteration order. *)
Definition session_get (st : CapabilityStore) (token_id : Uuid) : option CapabilityToken :=
  List.hd_error (omap (fun inner => inner !! token_id) (iter_principals (session_tokens st))).

Definition unless_retiring (st : CapabilityStore) (token : CapabilityToken) : option CapabilityToken :=
  if bool_decide (t_principal token ∈ retiring_principals st) then None else Some token.

Definition get (now : Timestamp) (token_id : Uuid) : store_op (option CapabilityToken) :=
  fun st =>
  if bool_decide (token_id ∈ revoked st) then (st, Err (TokenRevoked token_id))
  else match session_get st token_id with
       | Some token => (st, Ok (unless_retiring st token))
       | None =>
           (do? found := on_persistent (read_persistent_token_any_principal now token_id) (Ok None) in
            eff_lift (Ok (found ≫= unless_retiring st))) st
       end.

(** ** Finding a grant *)

Definition is_consumed_single_use (st : CapabilityStore) (token : CapabilityToken) : bool :=
  t_single_use token && bool_decide (t_id token ∈ used_tokens st).

Definition session_candidate (now : Timestamp) (principal : PrincipalId) (resource : string)
    (permission : Permission) (token : CapabilityToken) : bool :=
  bool_decide (t_principal token = principal) && negb (is_expired now token)
  && token_grants token resource permission.

Definition find_session (now : Timestamp) (st : CapabilityStore) (principal : PrincipalId) (resource : string)
    (permission : Permission) : option CapabilityToken :=
  List.find (fun token => negb (is_consumed_single_use st token))
    (List.filter (session_candidate now principal resource permission)
       (iter_tokens (default ∅ (session_tokens st !! principal)))).

(** One key of the scan of [find_capability]. *)
Definition persistent_candidate (now : Timestamp) (st : CapabilityStore) (s : S) (principal : PrincipalId)
    (resource : string) (permission : Permission) (key : string) : option CapabilityToken :=
  match kv_get s NS_TOKENS key with
  | Ok (Some data) =>
      match token_from_slice data with
      | Ok token =>
          if negb (is_ok (token_validate now token)) then None
          else if negb (bool_decide (t_principal token = principal)) then None
          else if bool_decide (t_id token ∈ revoked st) then None
          else if token_grants token resource permission && negb (is_consumed_single_use st token)
          then Some token else None
      | Err _ => None
      end
  | _ => None
  end.

Definition find_persistent (now : Timestamp) (st : CapabilityStore) (principal : PrincipalId) (resource : string)
    (permission : Permission) : option CapabilityToken :=
  match persistent_store st with
  | None => None
  | Some s =>
      match kv_list_keys_with_prefix s NS_TOKENS (token_key_prefix principal) with
      | Ok keys => List.hd_error (omap (persistent_candidate now st s principal resource permission) keys)
      | Err _ => None
      end
  end.

Definition find_capability (now : Timestamp) (st : CapabilityStore) (principal : PrincipalId) (resource : string)
    (permission : Permission) : option CapabilityToken :=
  if bool_decide (principal ∈ retiring_principals st) then None
  else match find_session now st principal resource permission with
       | Some token => Some token
       | None => find_persistent now st principal resource permission
       end.

Definition has_capability (now : Timestamp) (st : CapabilityStore) (principal : PrincipalId) (resource : string)
    (permission : Permission) : bool :=
  bool_decide (is_Some (find_capability now st principal resource permission)).

(** ** Retirement *)

Definition with_retiring (st : CapabilityStore) (retiring : gset PrincipalId) : CapabilityStore :=
  MkCapabilityStore retiring (session_tokens st) (persistent_store st) (revoked st) (used_tokens st).

Definition begin_principal_retirement (principal : PrincipalId) (st : CapabilityStore) : CapabilityStore :=
  with_retiring st ({[principal]} ∪ retiring_principals st).
Definition is_principal_retiring (principal : PrincipalId) (st : CapabilityStore) : bool :=
  bool_decide (principal ∈ retiring_principals st).
Definition finish_principal_retirement (principal : PrincipalId) (st : CapabilityStore) : CapabilityStore :=
  with_retiring st (retiring_principals st ∖ {[principal]}).

(** ** Revoking, clearing and purging *)

(** The row the index points at; every failure here is ignored. *)
Definition forget_indexed (token_id : Uuid) (s : S) : S :=
  match kv_get s NS_TOKEN_INDEX (uuid_to_string token_id) with
  | Ok (Some principal_str) =>
      if utf8_valid principal_str
      then match PrincipalId_new principal_str with
           | Ok principal => kv_forget NS_TOKENS (token_key principal token_id) s
           | Err _ => s
           end
      else s
  | _ => s
  end.

Definition revoke_persistent (token_id : Uuid) : backend unit :=
  let token_id_str := uuid_to_string token_id in
  do? _ := kv_put NS_REVOKED token_id_str PRESENCE_MARKER in
  fun s => (kv_forget NS_TOKENS token_id_str
              (kv_forget NS_TOKEN_INDEX token_id_str (forget_indexed token_id s)), Ok tt).

Definition revoke (token_id : Uuid) : store_op unit :=
  do? _ := on_persistent (revoke_persistent token_id) (Ok tt) in
  fun st =>
  (MkCapabilityStore (retiring_principals st)
     (filter (fun '(_, inner) => inner <> ∅) (delete token_id <$> session_tokens st))
     (persistent_store st) ({[token_id]} ∪ revoked st) (used_tokens st), Ok tt).

Definition clear_session (st : CapabilityStore) : CapabilityStore := with_session st ∅.
Definition clear_session_for (principal : PrincipalId) (st : CapabilityStore) : CapabilityStore :=
  with_session st (delete principal (session_tokens st)).

(** The ids a purge removes: those of the principal's rows, and those the
    index gives to the principal. *)
Definition row_id (prefix key : string) : option Uuid := strip_prefix prefix key ≫= uuid_parse_str.

Fixpoint indexed_ids (principal : PrincipalId) (keys : list string) (s : S) : CapabilityResult (list Uuid) :=
  match keys with
  | [] => Ok []
  | raw_id :: rest =>
      let? owner := map_err CapStorageError (kv_get s NS_TOKEN_INDEX raw_id) in
      let? ids := indexed_ids principal rest s in
      Ok (if bool_decide (owner = Some (pid_str principal)) then option_list (uuid_parse_str raw_id) ++ ids
          else ids)
  end.

(** Delete every key, collecting the failures. *)
Fixpoint delete_all (ns : string) (keys : list string) (s : S) : S * list (string * string * StorageError) :=
  match keys with
  | [] => (s, [])
  | key :: rest =>
      let '(s', r) := kv_delete s ns key in
      let '(s'', failures) := delete_all ns rest s' in
      (s'', match r with Ok _ => failures | Err e => (ns, key, e) :: failures end)
  end.

Definition purge_persistent (principal : PrincipalId) : backend unit :=
  let prefix := token_key_prefix principal in
  do? primary_keys := eff_read (fun s => map_err CapStorageError (kv_list_keys_with_prefix s NS_TOKENS prefix)) in
  do? index_keys := eff_read (fun s => map_err CapStorageError (kv_list_keys s NS_TOKEN_INDEX)) in
  do? indexed := eff_read (indexed_ids principal index_keys) in
  let token_ids := iter_ids (list_to_set (omap (row_id prefix) primary_keys ++ indexed)) in
  fun s =>
  let '(s1, failures1) := delete_all NS_TOKENS primary_keys s in
  let '(s2, failures2) := delete_all NS_TOKEN_INDEX (uuid_to_string <$> token_ids) s1 in
  (s2, match failures1 ++ failures2 with [] => Ok tt | failures => Err (CapStorageFailures failures) end).

Definition purge_principal (principal : PrincipalId) : store_op unit :=
  fun st => on_persistent (purge_persistent principal) (Ok tt) (clear_session_for principal st).

(** ** Consuming *)

Definition mark_used (token_id : Uuid) : store_op unit :=
  fun st =>
  if bool_decide (token_id ∈ used_tokens st) then (st, Err (TokenAlreadyUsed token_id))
  else
    (do? _ := on_persistent (kv_put NS_USED (uuid_to_string token_id) PRESENCE_MARKER) (Ok tt) in
     fun st =>
     (MkCapabilityStore (retiring_principals st) (session_tokens st) (persistent_store st) (revoked st)
        ({[token_id]} ∪ used_tokens st), Ok tt)) st.

Definition is_used (st : CapabilityStore) (token_id : Uuid) : bool := bool_decide (token_id ∈ used_tokens st).

Definition use_token (now : Timestamp) (token_id : Uuid) : store_op CapabilityToken :=
  do? found := get now token_id in
  do? token := eff_lift (ok_or found (TokenNotFound token_id)) in
  do? _ := eff_lift (token_validate now token) in
  do? _ := if t_single_use token then mark_used token_id else eff_lift (Ok tt) in
  eff_lift (Ok token).

(** ** Listing and clean-up *)

Definition listed (now : Timestamp) (st : CapabilityStore) (s : S) (key : string) : option CapabilityToken :=
  match kv_get s NS_TOKENS key with
  | Ok (Some data) =>
      match token_from_slice data with
      | Ok token => if negb (bool_decide (t_id token ∈ revoked st)) && negb (is_expired now token)
                    then Some token else None
      | Err _ => None
      end
  | _ => None
  end.

Definition list_tokens (now : Timestamp) (st : CapabilityStore) : CapabilityResult (list CapabilityToken) :=
  let session := List.filter (fun token => negb (is_expired now token))
                   (List.concat (iter_tokens <$> iter_principals (session_tokens st))) in
  match persistent_store st with
  | None => Ok session
  | Some s =>
      let? keys := map_err CapStorageError (kv_list_keys s NS_TOKENS) in
      Ok (session ++ omap (listed now st s) keys)
  end.

Fixpoint cleanup_keys (now : Timestamp) (keys : list string) (removed : N) (s : S) : S * N :=
  match keys with
  | [] => (s, removed)
  | key :: rest =>
      match kv_get s NS_TOKENS key with
      | Ok (Some data) =>
          match token_from_slice data with
          | Ok token =>
              if is_expired now token
              then cleanup_keys now rest (sat_add USIZE_MAX removed 1)
                     (kv_forget NS_TOKEN_INDEX (uuid_to_string (t_id token)) (kv_forget NS_TOKENS key s))
              else cleanup_keys now rest removed s
          | Err _ => cleanup_keys now rest removed s
          end
      | _ => cleanup_keys now rest removed s
      end
  end.

Definition cleanup_expired (now : Timestamp) : store_op N :=
  on_persistent
    (do? keys := eff_read (fun s => map_err CapStorageError (kv_list_keys s NS_TOKENS)) in
     fun s => let '(s', removed) := cleanup_keys now keys 0 s in (s', Ok removed))
    (Ok 0%N).
End Store.

Arguments CapabilityStore S {_}.

(** ** The validator ([validator.rs]) *)

Section Validator.
  Context {S : Type} `{KvStore S} `{Globset} `{Crypto} `{TokenCodec} `{UuidText} `{!HashIteration}.

Inductive AuthorizationResult : Type :=
| Authorized (token : CapabilityToken)
| RequiresApproval (resource : string) (permission : Permission).

Definition validate_token (now : Timestamp) (trusted_issuers : list PublicKey) (token : CapabilityToken)
    : CapabilityResult unit :=
  if is_expired now token then Err (TokenExpired (t_id token))
  else
    let? _ := token_verify_signature token in
    if negb (bool_decide (trusted_issuers = [])) && negb (contains (t_issuer token) trusted_issuers)
    then Err InvalidTokenSignature
    else Ok tt.

(** [CapabilityValidator::check]. *)
Definition check (now : Timestamp) (trusted_issuers : list PublicKey) (st : CapabilityStore S)
    (principal : PrincipalId) (resource : string) (permission : Permission) : AuthorizationResult :=
  match find_capability now st principal resource permission with
  | Some token =>
      if is_ok (validate_token now trusted_issuers token) then Authorized token
      else RequiresApproval resource permission
  | None => RequiresApproval resource permission
  end.

Definition validate_by_id (now : Timestamp) (trusted_issuers : list PublicKey) (principal : PrincipalId)
    (token_id : Uuid) : eff (CapabilityStore S) CapabilityError unit :=
  do? found := get now token_id in
  do? token := eff_lift (ok_or found (TokenNotFound token_id)) in
  eff_lift (if negb (bool_decide (t_principal token = principal)) then Err InvalidTokenSignature
            else validate_token now trusted_issuers token).

(** ** The secure MCP client ([secure.rs]) *)

(** [McpError], as far as [check_authorization] returns it. *)
Inductive McpError : Type :=
| AuthorizationFailed (reason : string)
| TransportError (cause : CapabilityError).

(** The proof names a token by its id and the hash of its signed bytes. *)
Inductive ToolAuthorization : Type :=
| ToolAuthorized (token_id : Uuid) (token_hash : ContentHash)
| ToolRequiresApproval (server tool resource : string).

Definition tool_resource (server tool : string) : string := "mcp://" +:+ server +:+ ":" +:+ tool.

(** Errors of [use_token] that only mean the token is gone. *)
Definition token_gone (e : CapabilityError) : bool :=
  match e with TokenAlreadyUsed _ | TokenExpired _ | TokenRevoked _ => true | _ => false end.

Definition check_authorization (now now' : Timestamp) (runtime_key : PublicKey) (principal : PrincipalId)
    (server tool : string) : eff (CapabilityStore S) McpError ToolAuthorization :=
  fun st =>
  let resource := tool_resource server tool in
  let needs_approval := Ok (ToolRequiresApproval server tool resource) in
  match check now [runtime_key] st principal resource Invoke with
  | RequiresApproval _ _ => (st, needs_approval)
  | Authorized found_token =>
      match use_token now' (t_id found_token) st with
      | (st', Ok token) =>
          (st', if bool_decide (t_issuer token = runtime_key)
                then Ok (ToolAuthorized (t_id token) (token_content_hash token))
                else Err (AuthorizationFailed "token issuer is not the trusted runtime key"))
      | (st', Err e) => (st', if token_gone e then needs_approval else Err (TransportError e))
      end
  end.

(** ** The admin handlers ([caps_tokens.rs])

    [principal_exists] is the profile file's presence.  A response carries
    what the JSON of the source is built from; a panicking handler is [None]. *)

Inductive TokenResponse : Type :=
| TokenMinted (token : CapabilityToken)
| TokenRevokedId (token_id : string)
| TokensListed (principal : PrincipalId) (tokens : list CapabilityToken)
| BadPermission (text : string)
| BadResource (text : string) (cause : CapabilityError)
| UnknownPrincipal (principal : PrincipalId)
| BadTtl (ttl_secs : N)
| BadTokenId (text : string)
| InternalFailure (cause : CapabilityError).

Definition parse_permission (permission : option string) : result Permission TokenResponse :=
  match permission with
  | None => Ok Invoke
  | Some raw =>
      let text := to_ascii_lowercase (trim raw) in
      if String.eqb text "read" then Ok Read
      else if String.eqb text "write" then Ok Write
      else if String.eqb text "execute" then Ok Execute
      else if String.eqb text "delete" then Ok Delete
      else if String.eqb text "invoke" then Ok Invoke
      else if String.eqb text "list" then Ok PermList
      else if String.eqb text "create" then Ok Create
      else Err (BadPermission text)
  end.

(** [i64::try_from(secs).ok().and_then(Duration::try_seconds)]. *)
Definition parse_ttl `{Chrono} (ttl_secs : option N) : result (option Z) TokenResponse :=
  match ttl_secs with
  | None => Ok None
  | Some secs =>
      if (secs <=? I64_MAX)%N
      then let? d := ok_or (try_seconds (Z.of_N secs)) (BadTtl secs) in Ok (Some d)
      else Err (BadTtl secs)
  end.

(** What a mint draws: the token id, the audit id and two clock readings. *)
Record MintDraw : Type := MkMintDraw {
  md_id : Uuid; md_audit_id : Uuid; md_now : Timestamp; md_now' : Timestamp; md_added_at : Timestamp;
}.

Definition caps_token_mint `{Chrono} (principal_exists : PrincipalId -> bool) (runtime_key : KeyPair)
    (key_id : array 8) (draw : MintDraw) (principal : PrincipalId) (resource : string)
    (permission : option string) (ttl_secs : option N) (st : CapabilityStore S)
    : CapabilityStore S * option TokenResponse :=
  match parse_permission permission with
  | Err response => (st, Some response)
  | Ok permission =>
      match ResourcePattern_new resource with
      | Err e => (st, Some (BadResource resource e))
      | Ok pattern =>
          if negb (principal_exists principal) then (st, Some (UnknownPrincipal principal))
          else match parse_ttl ttl_secs with
               | Err response => (st, Some response)
               | Ok ttl =>
                   match token_create (md_id draw) (md_now draw) (md_now' draw) pattern [permission] Persistent
                           key_id (md_audit_id draw) runtime_key ttl principal with
                   | None => (st, None)
                   | Some token =>
                       match add (md_added_at draw) token st with
                       | (st', Err e) => (st', Some (InternalFailure e))
                       | (st', Ok _) => (st', Some (TokenMinted token))
                       end
                   end
               end
      end
  end.

Definition caps_token_revoke (now : Timestamp) (token_id : string) (st : CapabilityStore S)
    : CapabilityStore S * TokenResponse :=
  match uuid_parse_str (trim token_id) with
  | None => (st, BadTokenId token_id)
  | Some parsed =>
      let '(st1, _) := get now parsed st in
      match revoke parsed st1 with
      | (st2, Err e) => (st2, InternalFailure e)
      | (st2, Ok _) => (st2, TokenRevokedId token_id)
      end
  end.

Definition caps_token_list (now : Timestamp) (principal : PrincipalId) (st : CapabilityStore S) : TokenResponse :=
  match list_tokens now st with
  | Err e => InternalFailure e
  | Ok all => TokensListed principal (List.filter (fun t => bool_decide (t_principal t = principal)) all)
  end.
End Validator.

(** ** Frames: no operation takes a revocation or a used mark back *)

Section Frames.
  Context {S : Type} `{KvStoreLaws S view} `{Globset} `{Crypto} `{TokenCodec} `{UuidText} `{!HashIteration}.

Definition mark_namespace (ns : string) : Prop := ns = NS_USED \/ ns = NS_REVOKED.

(** Marks of [s] are marks of [s']. *)
Definition kept (s s' : S) : Prop :=
  forall ns k, mark_namespace ns -> is_Some (view s !! (ns, k)) -> is_Some (view s' !! (ns, k)).

#[local] Instance kept_preorder : PreOrder kept.
Proof. split; [intros s ns k _ Hs; exact Hs|]. intros a b c Hab Hbc ns k Hn Hs. eauto. Qed.

(** A backend computation that keeps the marks. *)
Definition keeps {A} (c : eff S CapabilityError A) : Prop := forall s, kept s (c s).1.

Lemma keeps_lift {A} (r : CapabilityResult A) : keeps (eff_lift r).
Proof. intros s. simpl. reflexivity. Qed.
Lemma keeps_read {A} (f : S -> CapabilityResult A) : keeps (eff_read f).
Proof. intros s. simpl. reflexivity. Qed.
Lemma keeps_bind {A B} (c : eff S CapabilityError A) (k : A -> eff S CapabilityError B) :
  keeps c -> (forall a, keeps (k a)) -> keeps (eff_bind c k).
Proof.
  intros Hc Hk s. specialize (Hc s). unfold eff_bind. destruct (c s) as [s1 [a|e]]; [|done].
  simpl in Hc. etrans; [exact Hc|apply Hk].
Qed.

Lemma kv_set_kept s ns k v : kept s (kv_set s ns k v).1.
Proof.
  destruct (kv_set s ns k v) as [s' [[]|e]] eqn:Hset; intros ns' k' _ Hs; simpl.
  - rewrite (law_set _ _ _ _ _ Hset). destruct (decide ((ns, k) = (ns', k'))) as [->|Hne];
      [rewrite lookup_insert_eq; eauto|by rewrite lookup_insert_ne].
  - destruct (law_set_err _ _ _ _ _ _ Hset) as [->| ->]; [done|].
    destruct (decide ((ns, k) = (ns', k'))) as [->|Hne];
      [rewrite lookup_insert_eq; eauto|by rewrite lookup_insert_ne].
Qed.

Lemma kv_delete_kept s ns k : ~ mark_namespace ns -> kept s (kv_delete s ns k).1.
Proof.
  intros Hn. destruct (kv_delete s ns k) as [s' [b|e]] eqn:Hdel; intros ns' k' Hn' Hs; simpl.
  - rewrite (proj2 (law_delete _ _ _ _ _ Hdel)), lookup_delete_ne; [done|congruence].
  - destruct (law_delete_err _ _ _ _ _ Hdel) as [->| ->]; [done|]. rewrite lookup_delete_ne; [done|congruence].
Qed.

Lemma tokens_not_mark : ~ mark_namespace NS_TOKENS /\ ~ mark_namespace NS_TOKEN_INDEX.
Proof. split; intros [[=]|[=]]. Qed.

Lemma kv_put_keeps ns k v : keeps (kv_put ns k v).
Proof. intros s. unfold kv_put. pose proof (kv_set_kept s ns k v). by destruct (kv_set s ns k v). Qed.

Lemma kv_forget_kept ns k s : ~ mark_namespace ns -> kept s (kv_forget ns k s).
Proof. apply kv_delete_kept. Qed.

Lemma persist_token_keeps token : keeps (persist_token token).
Proof. unfold persist_token. repeat first [apply keeps_bind; [|intros ?] | apply keeps_lift | apply kv_put_keeps]. Qed.

Lemma read_legacy_keeps now id : keeps (read_legacy_token now id).
Proof.
  unfold read_legacy_token, kv_read. apply keeps_bind; [apply keeps_read|]. intros [data|]; [|apply keeps_lift].
  apply keeps_bind; [apply keeps_lift|intros ?; apply keeps_lift].
Qed.

Lemma read_persistent_keeps now id : keeps (read_persistent_token_any_principal now id).
Proof.
  unfold read_persistent_token_any_principal, kv_read. apply keeps_bind; [apply keeps_read|].
  intros [p|]; [|apply read_legacy_keeps].
  apply keeps_bind; [apply keeps_lift|]. intros _. apply keeps_bind; [apply keeps_lift|]. intros q.
  apply keeps_bind; [apply keeps_read|]. intros [data|].
  - apply keeps_bind; [apply keeps_lift|intros ?; apply keeps_lift].
  - intros s. etrans; [apply kv_forget_kept, tokens_not_mark|apply read_legacy_keeps].
Qed.

Lemma forget_indexed_kept id s : kept s (forget_indexed id s).
Proof. unfold forget_indexed. repeat case_match; try reflexivity. apply kv_forget_kept, tokens_not_mark. Qed.

Lemma revoke_persistent_keeps id : keeps (revoke_persistent id).
Proof.
  apply keeps_bind; [apply kv_put_keeps|]. intros _ s. simpl. etrans; [apply forget_indexed_kept|].
  etrans; apply kv_forget_kept, tokens_not_mark.
Qed.

Lemma delete_all_kept ns keys s : ~ mark_namespace ns -> kept s (delete_all ns keys s).1.
Proof.
  intros Hn. revert s; induction keys as [|k keys IH]; intros s; simpl; [reflexivity|].
  pose proof (kv_delete_kept s ns k Hn) as Hd. destruct (kv_delete s ns k) as [s1 r].
  specialize (IH s1). destruct (delete_all ns keys s1) as [s2 fs]. by etrans.
Qed.

Lemma purge_persistent_keeps p : keeps (purge_persistent p).
Proof.
  unfold purge_persistent. do 3 (apply keeps_bind; [apply keeps_read|intros ?]). intros s.
  match goal with |- context [delete_all NS_TOKENS ?l s] =>
    pose proof (delete_all_kept NS_TOKENS l s (proj1 tokens_not_mark)) as Hd1; destruct (delete_all NS_TOKENS l s) as [s1 f1] end.
  match goal with |- context [delete_all NS_TOKEN_INDEX ?l s1] =>
    pose proof (delete_all_kept NS_TOKEN_INDEX l s1 (proj2 tokens_not_mark)) as Hd2;
    destruct (delete_all NS_TOKEN_INDEX l s1) as [s2 f2] end.
  simpl in *. by etrans.
Qed.

Lemma cleanup_keys_kept now keys n s : kept s (cleanup_keys now keys n s).1.
Proof.
  revert n s; induction keys as [|k keys IH]; intros n s; simpl; [reflexivity|].
  repeat case_match; try apply IH. etrans; [|apply IH].
  etrans; [|apply kv_forget_kept, tokens_not_mark]. apply kv_forget_kept, tokens_not_mark.
Qed.
End Frames.

(** ** Histories of a store

    Each operation holds its lock for its whole effect on the store, apart
    from [use_token], which reads the token and marks it in two steps.  A
    restart opens the backend again and loses everything in memory.  The
    label of a step is the token it consumes. *)

Section Machine.
  Context {S : Type} `{KvStoreLaws S view} `{Globset} `{Crypto} `{TokenCodec} `{UuidTextLaws} `{!HashIteration}.

Inductive step : CapabilityStore S -> option Uuid -> CapabilityStore S -> Prop :=
| step_add now token st : step st None (add now token st).1
| step_get now id st : step st None (get now id st).1
| step_mark_used id st st' : mark_used id st = (st', Ok tt) -> step st (Some id) st'
| step_mark_failed id st st' e : mark_used id st = (st', Err e) -> step st None st'
| step_revoke id st : step st None (revoke id st).1
| step_clear_session st : step st None (clear_session st)
| step_clear_session_for p st : step st None (clear_session_for p st)
| step_purge p st : step st None (purge_principal p st).1
| step_cleanup now st : step st None (cleanup_expired now st).1
| step_begin_retirement p st : step st None (begin_principal_retirement p st)
| step_finish_retirement p st : step st None (finish_principal_retirement p st)
| step_restart st s st' : persistent_store st = Some s -> with_kv_store s = Ok st' -> step st None st'.

Inductive run : CapabilityStore S -> list (option Uuid) -> CapabilityStore S -> Prop :=
| run_nil st : run st [] st
| run_cons st l st' ls st'' : step st l st' -> run st' ls st'' -> run st (l :: ls) st''.

(** The backend holds a mark for the token, under any text of its id. *)
Definition marked (ns : string) (s : S) (id : Uuid) : Prop :=
  exists key, is_Some (view s !! (ns, key)) /\ uuid_parse_str key = Some id.

(** Every mark in memory is in the backend. *)
Definition durable (st : CapabilityStore S) : Prop :=
  forall s id, persistent_store st = Some s ->
    (id ∈ used_tokens st -> marked NS_USED s id) /\ (id ∈ revoked st -> marked NS_REVOKED s id).

Lemma marked_kept ns s s' id : mark_namespace ns -> kept (view := view) s s' -> marked ns s id -> marked ns s' id.
Proof. intros Hn Hk (key & Hs & Hp). exists key. split; [by apply Hk|done]. Qed.

Lemma marked_canonical ns s id : is_Some (view s !! (ns, uuid_to_string id)) -> marked ns s id.
Proof. intros Hs. exists (uuid_to_string id). split; [done|apply uuid_roundtrip]. Qed.

(** Marks only accumulate. *)
Definition grows (st st' : CapabilityStore S) : Prop :=
  used_tokens st ⊆ used_tokens st' /\ revoked st ⊆ revoked st'.

Definition safe_op {A} (c : eff (CapabilityStore S) CapabilityError A) : Prop :=
  forall st, durable st -> durable (c st).1 /\ grows st (c st).1.

#[local] Instance grows_preorder : PreOrder grows.
Proof. split; [by intros st; split|]. intros a b c [? ?] [? ?]. split; by etrans. Qed.

Lemma grows_same st st' : used_tokens st' = used_tokens st -> revoked st' = revoked st -> grows st st'.
Proof. intros Hu Hr. unfold grows. by rewrite Hu, Hr. Qed.

Lemma safe_bind {A B} (c : eff (CapabilityStore S) CapabilityError A) (k : A -> eff (CapabilityStore S) CapabilityError B) :
  safe_op c -> (forall a, safe_op (k a)) -> safe_op (eff_bind c k).
Proof.
  intros Hc Hk st Hd. destruct (Hc st Hd) as [Hd1 Hg1]. unfold eff_bind.
  destruct (c st) as [st1 [a|e]]; [|done]. simpl in *. destruct (Hk a st1 Hd1) as [Hd2 Hg2]. split; [done|by etrans].
Qed.

Lemma safe_lift {A} (r : CapabilityResult A) : safe_op (eff_lift r).
Proof. by intros st Hd. Qed.

Lemma durable_same st st' :
  persistent_store st' = persistent_store st -> used_tokens st' = used_tokens st -> revoked st' = revoked st ->
  durable st -> durable st'.
Proof. unfold durable. by intros -> -> ->. Qed.

Lemma on_persistent_safe {A} (c : eff S CapabilityError A) absent :
  keeps (view := view) c -> safe_op (on_persistent c absent).
Proof.
  intros Hc st Hd. unfold on_persistent. destruct (persistent_store st) as [s|] eqn:Hs; [|done].
  specialize (Hc s). destruct (c s) as [s' r]. simpl in *. split; [|by apply grows_same].
  intros s1 id [= <-]. simpl. destruct (Hd s id Hs) as [Hu Hr].
  split; intros Hin; eapply marked_kept; eauto; [by left|by right].
Qed.

Lemma add_safe now token : safe_op (add now token).
Proof.
  intros st Hd. unfold add. case_bool_decide; [done|]. destruct (token_validate now token); [|done].
  destruct (t_scope token); [|destruct (persistent_store st) eqn:Hs].
  - split; [by apply (durable_same st)|by apply grows_same].
  - by apply on_persistent_safe; [apply persist_token_keeps|].
  - split; [by apply (durable_same st)|by apply grows_same].
Qed.

Lemma get_safe now id : safe_op (get now id).
Proof.
  intros st Hd. unfold get. case_bool_decide; [done|]. destruct (session_get st id); [done|].
  apply safe_bind; [|intros ?; apply safe_lift|done]. apply on_persistent_safe, read_persistent_keeps.
Qed.

Lemma on_persistent_Ok {A} (c : eff S CapabilityError A) absent st st' a :
  on_persistent c absent st = (st', Ok a) ->
  (persistent_store st = None /\ st' = st /\ absent = Ok a) \/
  (exists s s', persistent_store st = Some s /\ c s = (s', Ok a) /\ st' = with_backend st s').
Proof.
  unfold on_persistent. destruct (persistent_store st) as [s|]; [|intros [= <- ->]; by left].
  destruct (c s) as [s' r] eqn:Hc. intros [= <- ->]. right. eauto.
Qed.

Lemma kv_put_Ok ns k v s s' : kv_put ns k v s = (s', Ok tt) -> view s' = <[(ns, k) := v]> (view s).
Proof.
  unfold kv_put. destruct (kv_set s ns k v) as [s1 [[]|e]] eqn:Hset; intros [= <-]. by apply (law_set _ _ _ _ _ Hset).
Qed.

Lemma revoke_store_Ok id st st' :
  revoke id st = (st', Ok tt) ->
  id ∈ revoked st' /\
  (forall s', persistent_store st' = Some s' -> marked NS_REVOKED s' id).
Proof.
  unfold revoke. rewrite eff_bind_Ok. intros (st1 & [] & H1' & [= <-]). simpl. split; [set_solver|].
  intros s' Hs'. apply on_persistent_Ok in H1' as [(Hn & -> & _)|(s & s1 & Hs & Hc & ->)]; [congruence|].
  simpl in Hs'. injection Hs' as <-. unfold revoke_persistent in Hc.
  apply eff_bind_Ok in Hc as (s2 & [] & Hput & [= <-]). apply marked_canonical.
  apply kv_forget_kept; [apply tokens_not_mark|by right|]. apply kv_forget_kept; [apply tokens_not_mark|by right|].
  apply forget_indexed_kept; [by right|]. rewrite (kv_put_Ok _ _ _ _ _ Hput), lookup_insert_eq. eauto.
Qed.

Lemma revoke_safe id : safe_op (revoke id).
Proof.
  intros st Hd. destruct (revoke id st) as [st' [[]|e]] eqn:Hr.
  - destruct (revoke_store_Ok _ _ _ Hr) as [Hin Hmark]. revert Hr Hin Hmark. unfold revoke.
    rewrite eff_bind_Ok. intros (st1 & [] & H1' & [= <-]) Hin Hmark. simpl in *.
    destruct (on_persistent_safe (revoke_persistent id) (Ok tt) (revoke_persistent_keeps id) st Hd) as [Hd1 [Hu Hrv]].
    rewrite H1' in Hd1, Hu, Hrv. simpl in *. split; [|split; [done|set_solver]].
    intros s id' Hs. simpl in *. destruct (Hd1 s id' Hs) as [Hu' Hr']. split; [done|].
    intros [->%elem_of_singleton|Hin']%elem_of_union; auto.
  - revert Hr. unfold revoke. rewrite eff_bind_Err. intros [H1'|(st1 & [] & _ & [=])].
    pose proof (on_persistent_safe (revoke_persistent id) (Ok tt) (revoke_persistent_keeps id) st Hd) as Hsafe.
    by rewrite H1' in Hsafe.
Qed.

Lemma purge_safe p : safe_op (purge_principal p).
Proof.
  intros st Hd. unfold purge_principal.
  apply (on_persistent_safe (purge_persistent p) (Ok tt) (purge_persistent_keeps p) (clear_session_for p st)).
  by apply (durable_same st).
Qed.

Lemma cleanup_safe now : safe_op (cleanup_expired now).
Proof.
  apply on_persistent_safe, keeps_bind; [apply keeps_read|]. intros keys s.
  pose proof (cleanup_keys_kept now keys 0 s) as Hk. by destruct (cleanup_keys now keys 0 s).
Qed.

Lemma mark_used_Ok id st st' :
  mark_used id st = (st', Ok tt) ->
  (id ∉ used_tokens st) /\ used_tokens st' = {[id]} ∪ used_tokens st /\ revoked st' = revoked st /\
  session_tokens st' = session_tokens st /\ retiring_principals st' = retiring_principals st /\
  match persistent_store st, persistent_store st' with
  | None, None => True
  | Some s, Some s' => view s' = <[(NS_USED, uuid_to_string id) := PRESENCE_MARKER]> (view s)
  | _, _ => False
  end.
Proof.
  unfold mark_used. case_bool_decide as Hin; [done|]. rewrite eff_bind_Ok. intros (st1 & [] & H1' & [= <-]).
  split; [done|]. apply on_persistent_Ok in H1' as [(Hn & -> & _)|(s & s1 & Hs & Hc & ->)]; simpl.
  - by rewrite Hn.
  - rewrite Hs. repeat split. by apply kv_put_Ok.
Qed.

Lemma mark_used_safe id : safe_op (mark_used id).
Proof.
  intros st Hd. destruct (mark_used id st) as [st' [[]|e]] eqn:Hm; simpl.
  - destruct (mark_used_Ok _ _ _ Hm) as (_ & Hu & Hr & _ & _ & Hs). split; [|split; [set_solver|by rewrite Hr]].
    intros s' id' Hs'. rewrite Hs' in Hs. destruct (persistent_store st) as [s|] eqn:Hst; [|done].
    destruct (Hd s id' Hst) as [Hu' Hr']. rewrite Hu, Hr.
    assert (kept (view := view) s s') as Hk.
    { intros ns k _ Hin. rewrite Hs. by apply lookup_insert_is_Some'; right. }
    split.
    + intros [->%elem_of_singleton|Hin%Hu']%elem_of_union; [|by eapply marked_kept; [left| |]].
      apply marked_canonical. rewrite Hs, lookup_insert_eq. eauto.
    + intros Hin%Hr'. by eapply marked_kept; [right| |].
  - revert Hm. unfold mark_used. case_bool_decide; [by intros [= <- _]|]. rewrite eff_bind_Err.
    intros [H1'|(st1 & [] & _ & [=])].
    pose proof (on_persistent_safe (kv_put NS_USED (uuid_to_string id) PRESENCE_MARKER) (Ok tt)
                  (kv_put_keeps _ _ _) st Hd) as Hsafe. by rewrite H1' in Hsafe.
Qed.

Lemma load_ids_Ok ns s ids id : load_ids ns s = Ok ids -> id ∈ ids <-> marked ns s id.
Proof.
  unfold load_ids, marked. destruct (kv_list_keys s ns) as [keys|e] eqn:Hk; [|done]. intros [= <-].
  rewrite elem_of_list_to_set, list_elem_of_omap. by setoid_rewrite (proj2 (law_list_keys _ _ _ Hk)).
Qed.

Lemma with_kv_store_Ok s st :
  with_kv_store s = Ok st ->
  persistent_store st = Some s /\ session_tokens st = ∅ /\ retiring_principals st = ∅ /\
  forall id, (id ∈ used_tokens st <-> marked NS_USED s id) /\ (id ∈ revoked st <-> marked NS_REVOKED s id).
Proof.
  unfold with_kv_store. intros Hw. inv_ok. repeat split; intros; by eapply load_ids_Ok.
Qed.

Lemma step_safe st l st' : durable st -> step st l st' -> durable st' /\ grows st st'.
Proof.
  intros Hd. destruct 1 as [now t st|now id st|id st st' Hm|id st st' e Hm|id st|st|p st|p st|now st|p st|p st|st s st' Hs Hw].
  - by apply add_safe.
  - by apply get_safe.
  - pose proof (mark_used_safe id st Hd) as Hsafe. by rewrite Hm in Hsafe.
  - pose proof (mark_used_safe id st Hd) as Hsafe. by rewrite Hm in Hsafe.
  - by apply revoke_safe.
  - split; [by apply (durable_same st)|by apply grows_same].
  - split; [by apply (durable_same st)|by apply grows_same].
  - by apply purge_safe.
  - by apply cleanup_safe.
  - split; [by apply (durable_same st)|by apply grows_same].
  - split; [by apply (durable_same st)|by apply grows_same].
  - destruct (with_kv_store_Ok _ _ Hw) as (Hs' & _ & _ & Hids). split.
    + intros s1 id Hs1. assert (s1 = s) as -> by congruence. destruct (Hids id) as [Hu Hr]. by rewrite Hu, Hr.
    + split; intros id Hin; destruct (Hids id) as [Hu Hr]; destruct (Hd s id Hs) as [Hu' Hr'];
        [apply Hu|apply Hr]; auto.
Qed.

Lemma run_safe st ls st' : durable st -> run st ls st' -> durable st' /\ grows st st'.
Proof.
  intros Hd Hrun. revert Hd. induction Hrun as [|st l st1 ls st2 Hstep _ IH]; intros Hd; [by split|].
  destruct (step_safe _ _ _ Hd Hstep) as [Hd1 Hg1]. destruct (IH Hd1) as [Hd2 Hg2]. split; [done|by etrans].
Qed.

Lemma step_consumes st id st' : step st (Some id) st' -> mark_used id st = (st', Ok tt).
Proof. inversion 1. by simplify_eq. Qed.

Lemma run_consumed st ls st' id : durable st -> run st ls st' -> Some id ∈ ls -> id ∈ used_tokens st'.
Proof.
  intros Hd Hrun. revert Hd. induction Hrun as [|st l st1 ls st2 Hstep Hrun IH]; intros Hd; [by intros ?%not_elem_of_nil|].
  destruct (step_safe _ _ _ Hd Hstep) as [Hd1 _]. intros [<-|Hin]%elem_of_cons; [|by apply IH].
  destruct (run_safe _ _ _ Hd1 Hrun) as [_ [Hu _]]. apply Hu.
  destruct (mark_used_Ok _ _ _ (step_consumes _ _ _ Hstep)) as (_ & -> & _). set_solver.
Qed.

(** Once used, a token is not consumed again. *)
Lemma run_not_consumed st ls st' id : durable st -> run st ls st' -> id ∈ used_tokens st -> Some id ∉ ls.
Proof.
  intros Hd Hrun. revert Hd. induction Hrun as [|st l st1 ls st2 Hstep Hrun IH]; intros Hd Hin; [apply not_elem_of_nil|].
  destruct (step_safe _ _ _ Hd Hstep) as [Hd1 [Hu _]]. apply not_elem_of_cons. split; [|by apply IH; [|apply Hu]].
  intros <-. by destruct (mark_used_Ok _ _ _ (step_consumes _ _ _ Hstep)) as (Hnot & _).
Qed.

Lemma run_consumed_once st ls st' id : durable st -> run st ls st' -> count_occ option_eq_dec ls (Some id) <= 1.
Proof.
  intros Hd Hrun. revert Hd. induction Hrun as [|st l st1 ls st2 Hstep Hrun IH]; intros Hd; simpl; [lia|].
  destruct (step_safe _ _ _ Hd Hstep) as [Hd1 _]. specialize (IH Hd1).
  destruct (option_eq_dec l (Some id)) as [->|_]; [|done].
  destruct (mark_used_Ok _ _ _ (step_consumes _ _ _ Hstep)) as (_ & Hu & _).
  rewrite (proj1 (count_occ_not_In _ _ _)); [lia|]. intros Hin%list_elem_of_In. revert Hin.
  apply (run_not_consumed _ _ _ _ Hd1 Hrun). set_solver.
Qed.
End Machine.

(** ** Tokens are kept under their own names *)

Lemma slash_app_inj a b x y :
  contains_char "/" a = false -> contains_char "/" b = false ->
  a +:+ "/" +:+ x = b +:+ "/" +:+ y -> a = b /\ x = y.
Proof.
  revert b; induction a as [|c a IH]; intros [|d b]; simpl; intros Ha Hb Heq.
  - by injection Heq.
  - injection Heq as <- _. apply orb_false_iff in Hb as [Hb _]. by vm_compute in Hb.
  - injection Heq as -> _. apply orb_false_iff in Ha as [Ha _]. by vm_compute in Ha.
  - injection Heq as <- Heq. apply orb_false_iff in Ha as [_ Ha], Hb as [_ Hb].
    by destruct (IH b Ha Hb Heq) as [-> ->].
Qed.

Section Names.
  Context {S : Type} `{KvStoreLaws S view} `{Globset} `{Crypto} `{TokenCodecLaws} `{UuidTextLaws} `{!HashIteration}.

Lemma uuid_text u : contains_char "/" (uuid_to_string u) = false /\ valid_key (uuid_to_string u).
Proof.
  split; [by apply uuid_avoids|]. unfold valid_key, validate_key. rewrite (uuid_avoids u NUL) by done.
  pose proof (uuid_length u) as Hlen. by destruct (uuid_to_string u).
Qed.

Lemma token_key_inj p q u v :
  principal_ok p -> principal_ok q -> token_key p u = token_key q v -> p = q /\ u = v.
Proof.
  intros [Hp _]%principal_ok_text [Hq _]%principal_ok_text [Heq Hu%uuid_to_string_inj]%slash_app_inj; [|done..].
  by destruct p, q; simpl in Heq; subst.
Qed.

Lemma token_key_not_uuid p u v : token_key p u <> uuid_to_string v.
Proof.
  intros Heq. destruct (uuid_text v) as [Hv _]. rewrite <- Heq in Hv. unfold token_key in Hv.
  rewrite contains_char_app in Hv. simpl in Hv. by rewrite orb_true_r in Hv.
Qed.

Lemma token_key_valid p u : principal_ok p -> valid_key (token_key p u).
Proof.
  intros [_ Hp]%principal_ok_text. destruct (uuid_text u) as [_ Hu]. unfold valid_key, validate_key in *.
  destruct (is_empty (uuid_to_string u)); [done|]. destruct (contains_char NUL (uuid_to_string u)) eqn:Hn; [done|].
  assert (is_empty (token_key p u) = false) as ->.
  { apply is_empty_false. unfold token_key. by destruct (pid_str p). }
  unfold token_key. rewrite !contains_char_app, Hp, Hn. done.
Qed.

Lemma token_key_prefix_iff p q u :
  principal_ok p -> principal_ok q -> starts_with (token_key_prefix p) (token_key q u) = true <-> p = q.
Proof.
  intros Hp Hq. rewrite starts_with_spec. unfold token_key, token_key_prefix. split.
  - intros [r Heq]. rewrite <- string_app_assoc in Heq.
    apply slash_app_inj in Heq as [Heq _]; [|by apply principal_ok_text..].
    by destruct p, q; simpl in Heq; subst.
  - intros ->. exists (uuid_to_string u). by rewrite <- string_app_assoc.
Qed.

Lemma token_from_slice_principal v t : token_from_slice v = Ok t -> principal_ok (t_principal t).
Proof.
  unfold token_from_slice, of_wire. intros Ht. destruct (wire_from_slice v) as [w|]; [|done]. simpl in Ht.
  destruct (ResourcePattern_new _); [|done]. simpl in Ht.
  destruct (PrincipalId_new (w_principal w)) as [p|] eqn:Hp; [|done]. injection Ht as <-. simpl.
  unfold principal_ok. rewrite (PrincipalId_new_Ok _ _ Hp) in Hp |- *. done.
Qed.

(** What is read back from a written token has its names. *)
Lemma written_token_names t v t' :
  token_to_vec t = Ok v -> token_from_slice v = Ok t' -> t_id t' = t_id t /\ t_principal t' = t_principal t.
Proof.
  unfold token_to_vec, token_from_slice. destruct (wire_to_vec (to_wire t)) as [v1|] eqn:Hv; [|done].
  intros [= ->]. rewrite (wire_roundtrip _ _ Hv). simpl. unfold of_wire. simpl.
  destruct (ResourcePattern_new _); [|done]. simpl.
  destruct (PrincipalId_new (pid_str (t_principal t))) as [p|] eqn:Hp; [|done]. intros [= <-]. simpl.
  split; [done|]. apply PrincipalId_new_Ok in Hp as ->. by destruct (t_principal t).
Qed.

(** A row holds the token its key names; the index is keyed by token ids. *)
Record backend_ok (s : S) : Prop := MkBackendOk {
  bo_rows : forall key v t, view s !! (NS_TOKENS, key) = Some v -> token_from_slice v = Ok t ->
    key = token_key (t_principal t) (t_id t);
  bo_index : forall key v, view s !! (NS_TOKEN_INDEX, key) = Some v -> exists id, key = uuid_to_string id;
}.

Record store_ok (st : CapabilityStore S) : Prop := MkStoreOk {
  so_session : forall p inner id t, session_tokens st !! p = Some inner -> inner !! id = Some t ->
    t_id t = id /\ t_principal t = p;
  so_backend : forall s, persistent_store st = Some s -> backend_ok s;
}.

Definition names {A} (c : eff S CapabilityError A) : Prop := forall s, backend_ok s -> backend_ok (c s).1.

Lemma names_lift {A} (r : CapabilityResult A) : names (eff_lift r).
Proof. by intros s Hs. Qed.
Lemma names_read {A} (f : S -> CapabilityResult A) : names (eff_read f).
Proof. by intros s Hs. Qed.
Lemma names_bind {A B} (c : eff S CapabilityError A) (k : A -> eff S CapabilityError B) :
  names c -> (forall a, names (k a)) -> names (eff_bind c k).
Proof.
  intros Hc Hk s Hs. specialize (Hc s Hs). unfold eff_bind. destruct (c s) as [s1 [a|e]]; [|done].
  by apply Hk.
Qed.

(** A write that respects the naming. *)
Definition named_write (ns key value : string) : Prop :=
  (ns = NS_TOKENS -> forall t, token_from_slice value = Ok t -> key = token_key (t_principal t) (t_id t)) /\
  (ns = NS_TOKEN_INDEX -> exists id, key = uuid_to_string id).

Lemma insert_ok s s' ns k v :
  named_write ns k v -> view s' = <[(ns, k) := v]> (view s) -> backend_ok s -> backend_ok s'.
Proof.
  intros [Hrow Hidx] Hv [Hrows Hindex]. split; rewrite Hv.
  - intros key v' t [[[= -> ->] ->]|[_ Hl]]%lookup_insert_Some Ht; [by apply Hrow|by eapply Hrows].
  - intros key v' [[[= -> ->] ->]|[_ Hl]]%lookup_insert_Some; [by apply Hidx|by eapply Hindex].
Qed.

Lemma delete_ok s s' ns k : view s' = delete (ns, k) (view s) -> backend_ok s -> backend_ok s'.
Proof.
  intros Hv [Hrows Hindex]. split; rewrite Hv.
  - intros key v t [_ Hl]%lookup_delete_Some. by apply Hrows.
  - intros key v [_ Hl]%lookup_delete_Some. by eapply Hindex.
Qed.

Lemma same_view_ok s s' : view s' = view s -> backend_ok s -> backend_ok s'.
Proof. intros Hv [Hrows Hindex]. by split; rewrite Hv. Qed.

Lemma kv_put_names ns k v : named_write ns k v -> names (kv_put ns k v).
Proof.
  intros Hn s Hs. unfold kv_put. destruct (kv_set s ns k v) as [s' [[]|e]] eqn:Hset; simpl.
  - by eapply insert_ok; [|apply (law_set _ _ _ _ _ Hset)|].
  - destruct (law_set_err _ _ _ _ _ _ Hset) as [Hv|Hv]; [by eapply same_view_ok|by eapply insert_ok].
Qed.

Lemma kv_delete_names s ns k : backend_ok s -> backend_ok (kv_delete s ns k).1.
Proof.
  intros Hs. destruct (kv_delete s ns k) as [s' [b|e]] eqn:Hdel; simpl.
  - by eapply delete_ok; [apply (law_delete _ _ _ _ _ Hdel)|].
  - destruct (law_delete_err _ _ _ _ _ Hdel) as [Hv|Hv]; [by eapply same_view_ok|by eapply delete_ok].
Qed.

Lemma kv_forget_names ns k s : backend_ok s -> backend_ok (kv_forget ns k s).
Proof. apply kv_delete_names. Qed.

Lemma persist_token_names token : names (persist_token token).
Proof.
  intros s Hs. unfold persist_token, eff_lift, eff_bind at 1. destruct (token_to_vec token) as [v|] eqn:Hv; [|done].
  apply names_bind; [|intros _|done].
  - apply kv_put_names. split; [|by intros [=]]. intros _ t Ht.
    by destruct (written_token_names _ _ _ Hv Ht) as [-> ->].
  - apply kv_put_names. split; [by intros [=]|]. eauto.
Qed.

Lemma read_legacy_names now id : names (read_legacy_token now id).
Proof.
  unfold read_legacy_token, kv_read. apply names_bind; [apply names_read|]. intros [data|]; [|apply names_lift].
  apply names_bind; [apply names_lift|intros ?; apply names_lift].
Qed.

Lemma read_persistent_names now id : names (read_persistent_token_any_principal now id).
Proof.
  unfold read_persistent_token_any_principal, kv_read. apply names_bind; [apply names_read|].
  intros [p|]; [|apply read_legacy_names].
  apply names_bind; [apply names_lift|]. intros _. apply names_bind; [apply names_lift|]. intros q.
  apply names_bind; [apply names_read|]. intros [data|].
  - apply names_bind; [apply names_lift|intros ?; apply names_lift].
  - intros s Hs. by apply read_legacy_names, kv_forget_names.
Qed.

Lemma forget_indexed_names id s : backend_ok s -> backend_ok (forget_indexed id s).
Proof. intros Hs. unfold forget_indexed. repeat case_match; try done. by apply kv_forget_names. Qed.

Lemma mark_named ns k v : mark_namespace ns -> named_write ns k v.
Proof. intros Hn. split; intros ->; destruct Hn as [[=]|[=]]. Qed.

Lemma revoke_persistent_names id : names (revoke_persistent id).
Proof.
  apply names_bind; [apply kv_put_names, mark_named; by right|]. intros _ s Hs. simpl.
  by do 2 apply kv_forget_names; apply forget_indexed_names.
Qed.

Lemma delete_all_names ns keys s : backend_ok s -> backend_ok (delete_all ns keys s).1.
Proof.
  revert s; induction keys as [|k keys IH]; intros s Hs; simpl; [done|].
  pose proof (kv_delete_names s ns k Hs) as Hd. destruct (kv_delete s ns k) as [s1 r].
  specialize (IH s1 Hd). by destruct (delete_all ns keys s1).
Qed.

Lemma purge_persistent_names p : names (purge_persistent p).
Proof.
  unfold purge_persistent. do 3 (apply names_bind; [apply names_read|intros ?]). intros s Hs.
  match goal with |- context [delete_all NS_TOKENS ?l s] =>
    pose proof (delete_all_names NS_TOKENS l s Hs) as Hd1; destruct (delete_all NS_TOKENS l s) as [s1 f1] end.
  match goal with |- context [delete_all NS_TOKEN_INDEX ?l s1] =>
    pose proof (delete_all_names NS_TOKEN_INDEX l s1 Hd1) as Hd2; destruct (delete_all NS_TOKEN_INDEX l s1) end.
  done.
Qed.

Lemma cleanup_keys_names now keys n s : backend_ok s -> backend_ok (cleanup_keys now keys n s).1.
Proof.
  revert n s; induction keys as [|k keys IH]; intros n s Hs; simpl; [done|].
  repeat case_match; try by apply IH. by apply IH, kv_forget_names, kv_forget_names.
Qed.

(** ** The naming is kept by every step *)

Definition named_op {A} (c : eff (CapabilityStore S) CapabilityError A) : Prop :=
  forall st, store_ok st -> store_ok (c st).1.

Lemma named_bind {A B} (c : eff (CapabilityStore S) CapabilityError A) (k : A -> eff (CapabilityStore S) CapabilityError B) :
  named_op c -> (forall a, named_op (k a)) -> named_op (eff_bind c k).
Proof.
  intros Hc Hk st Hs. specialize (Hc st Hs). unfold eff_bind. destruct (c st) as [st1 [a|e]]; [|done].
  by apply Hk.
Qed.

Lemma on_persistent_named {A} (c : eff S CapabilityError A) absent : names c -> named_op (on_persistent c absent).
Proof.
  intros Hc st Hst. unfold on_persistent. destruct (persistent_store st) as [s|] eqn:Hs; [|exact Hst].
  destruct Hst as [Hses Hback]. specialize (Hc s (Hback s Hs)). destruct (c s) as [s' r]. simpl in *. split; [exact Hses|]. intros s1 [= <-]. exact Hc.
Qed.

(** Changing only the marks or the fences, or dropping session tokens. *)
Lemma store_ok_sub st st' :
  persistent_store st' = persistent_store st ->
  (forall p inner id t, session_tokens st' !! p = Some inner -> inner !! id = Some t ->
     exists inner', session_tokens st !! p = Some inner' /\ inner' !! id = Some t) ->
  store_ok st -> store_ok st'.
Proof.
  intros Hp Hsub [Hses Hback]. split; [|by rewrite Hp].
  intros p inner id t Hl Hi. destruct (Hsub _ _ _ _ Hl Hi) as (inner' & Hl' & Hi'). by eapply Hses.
Qed.

Lemma insert_session_ok st token : store_ok st -> store_ok (insert_session st token).
Proof.
  intros [Hses Hback]. split; [|done]. simpl. intros p inner id t.
  intros [[<- <-]|[_ Hl]]%lookup_insert_Some Hi; [|by eapply Hses].
  apply lookup_insert_Some in Hi as [[<- <-]|[_ Hi]]; [done|].
  destruct (session_tokens st !! t_principal token) as [inner|] eqn:Hl; simpl in Hi; [by eapply Hses|].
  by rewrite lookup_empty in Hi.
Qed.

Lemma add_named now token : named_op (add now token).
Proof.
  intros st Hs. unfold add. case_bool_decide; [done|]. destruct (token_validate now token); [|done].
  destruct (t_scope token), (persistent_store st) eqn:Hp; try (by apply insert_session_ok).
  by apply on_persistent_named; [apply persist_token_names|].
Qed.

Lemma get_named now id : named_op (get now id).
Proof.
  intros st Hs. unfold get. case_bool_decide; [done|]. destruct (session_get st id); [done|].
  apply named_bind; [|by intros ? ? ?|done]. apply on_persistent_named, read_persistent_names.
Qed.

Lemma revoke_named id : named_op (revoke id).
Proof.
  apply named_bind; [apply on_persistent_named, revoke_persistent_names|]. intros _ st Hs. simpl.
  apply (store_ok_sub st); [done| |done]. simpl. intros p inner id' t [Hl _]%map_lookup_filter_Some Hi.
  rewrite lookup_fmap in Hl. destruct (session_tokens st !! p) as [inner'|] eqn:Hp; [|done].
  injection Hl as <-. apply lookup_delete_Some in Hi as [_ Hi]. eauto.
Qed.

Lemma mark_used_named id : named_op (mark_used id).
Proof.
  intros st Hs. unfold mark_used. case_bool_decide; [done|].
  apply named_bind; [|intros _ st1 Hs1|done].
  - apply on_persistent_named, kv_put_names, mark_named. by left.
  - by apply (store_ok_sub st1); [|eauto|].
Qed.

Lemma purge_named p : named_op (purge_principal p).
Proof.
  intros st Hs. apply on_persistent_named; [apply purge_persistent_names|].
  apply (store_ok_sub st); [done| |done]. simpl. intros q inner id t [_ Hl]%lookup_delete_Some Hi. eauto.
Qed.

Lemma cleanup_named now : named_op (cleanup_expired now).
Proof.
  apply on_persistent_named, names_bind; [apply names_read|]. intros keys s Hs.
  pose proof (cleanup_keys_names now keys 0 s Hs) as Hk. by destruct (cleanup_keys now keys 0 s).
Qed.

Lemma step_named st l st' : store_ok st -> step st l st' -> store_ok st'.
Proof.
  intros Hs. destruct 1 as [now t st|now id st|id st st' Hm|id st st' e Hm|id st|st|p st|p st|now st|p st|p st|st s st' Hp Hw].
  - by apply add_named.
  - by apply get_named.
  - pose proof (mark_used_named id st Hs) as Hn. by rewrite Hm in Hn.
  - pose proof (mark_used_named id st Hs) as Hn. by rewrite Hm in Hn.
  - by apply revoke_named.
  - apply (store_ok_sub st); [done| |done]. simpl. intros p inner id t. by rewrite lookup_empty.
  - apply (store_ok_sub st); [done| |done]. simpl. intros q inner id t [_ Hl]%lookup_delete_Some Hi. eauto.
  - by apply purge_named.
  - by apply cleanup_named.
  - by apply (store_ok_sub st); [|eauto|].
  - by apply (store_ok_sub st); [|eauto|].
  - destruct (with_kv_store_Ok _ _ Hw) as (Hs' & Hses & _). split.
    + intros q inner id t. by rewrite Hses, lookup_empty.
    + intros s1 Hs1. assert (s1 = s) as -> by congruence. by apply (so_backend _ Hs).
Qed.

Lemma run_named st ls st' : store_ok st -> run st ls st' -> store_ok st'.
Proof.
  intros Hs Hrun. revert Hs. induction Hrun as [|st l st1 ls st2 Hstep _ IH]; intros Hs; [done|].
  by apply IH, (step_named _ _ _ Hs Hstep).
Qed.
End Names.

(** ** What a lookup returns *)

Section Lookups.
  Context {S : Type} `{KvStoreLaws S view} `{Globset} `{Crypto} `{TokenCodecLaws} `{UuidTextLaws} `{!HashIteration} {HIL : HashIterationLaws}.

#[local] Abbreviation backend_ok := (backend_ok (view := view)).
#[local] Abbreviation store_ok := (store_ok (view := view)).

(** The tokens of a store, in memory and in the backend. *)
Definition held (st : CapabilityStore S) (t : CapabilityToken) : Prop :=
  (exists p inner id, session_tokens st !! p = Some inner /\ inner !! id = Some t) \/
  (exists s key v, persistent_store st = Some s /\ view s !! (NS_TOKENS, key) = Some v /\ token_from_slice v = Ok t).

Lemma hd_omap {A B} (f : A -> option B) l b : List.hd_error (omap f l) = Some b -> exists a, a ∈ l /\ f a = Some b.
Proof.
  intros Hb. apply list_elem_of_omap. destruct (omap f l); [done|]. injection Hb as ->. by left.
Qed.

Lemma session_get_Some (st : CapabilityStore S) id t :
  session_get st id = Some t -> exists p inner, session_tokens st !! p = Some inner /\ inner !! id = Some t.
Proof.
  unfold session_get. intros (inner & Hin & Hi)%hd_omap. rewrite iter_principals_perm in Hin.
  apply list_elem_of_fmap in Hin as ([p inner'] & -> & Hin%elem_of_map_to_list). eauto.
Qed.

Lemma find_session_Some now (st : CapabilityStore S) p r perm t :
  find_session now st p r perm = Some t ->
  held st t /\ t_principal t = p /\ is_expired now t = false /\ token_grants t r perm = true /\
  is_consumed_single_use st t = false.
Proof.
  unfold find_session. intros [[Hin Hc]%filter_In Hn%negb_true_iff]%find_some.
  apply list_elem_of_In in Hin. rewrite iter_tokens_perm in Hin.
  apply list_elem_of_fmap in Hin as ([id t'] & -> & Hin%elem_of_map_to_list).
  unfold session_candidate in Hc. bool_prop. split; [|done].
  destruct (session_tokens st !! p) as [inner|] eqn:Hp; [|simpl in Hin; by rewrite lookup_empty in Hin]. left. eauto 6.
Qed.

Lemma validate_not_expired now t : token_validate now t = Ok tt -> is_expired_with_skew now DEFAULT_CLOCK_SKEW_SECS t = false.
Proof. unfold token_validate, validate_with_skew. by destruct (is_expired_with_skew _ _ _). Qed.

Lemma validate_signed now t : token_validate now t = Ok tt -> verify (t_issuer t) (token_signing_data t) (t_signature t) = true.
Proof.
  unfold token_validate, validate_with_skew, token_verify_signature. destruct (is_expired_with_skew _ _ _); [done|].
  by destruct (verify _ _ _).
Qed.

Lemma is_ok_unit {E} (c : result unit E) : is_ok c = true -> c = Ok tt.
Proof. by destruct c as [[]|]. Qed.

Lemma persistent_candidate_Some now (st : CapabilityStore S) s p r perm key t :
  persistent_candidate now st s p r perm key = Some t ->
  exists v, view s !! (NS_TOKENS, key) = Some v /\ token_from_slice v = Ok t /\ token_validate now t = Ok tt /\
    t_principal t = p /\ (t_id t ∉ revoked st) /\ token_grants t r perm = true /\ is_consumed_single_use st t = false.
Proof.
  unfold persistent_candidate. destruct (kv_get s NS_TOKENS key) as [[v|]|] eqn:Hget; [|done..].
  destruct (token_from_slice v) as [t'|] eqn:Hv; [|done]. destruct (is_ok _) eqn:Hok; [|done]. simpl.
  destruct (bool_decide (t_principal t' = p)) eqn:Hp; [|done]. simpl.
  destruct (bool_decide (t_id t' ∈ _)) eqn:Hr; [done|].
  destruct (token_grants t' r perm && _) eqn:Hg; [|done]. intros [= <-]. bool_prop.
  exists v. split_and!; try done; [by apply (law_get _ _ _ _ Hget)|by apply is_ok_unit].
Qed.

Lemma find_persistent_Some now (st : CapabilityStore S) p r perm t :
  find_persistent now st p r perm = Some t ->
  held st t /\ t_principal t = p /\ token_validate now t = Ok tt /\ (t_id t ∉ revoked st) /\
  token_grants t r perm = true /\ is_consumed_single_use st t = false.
Proof.
  unfold find_persistent. destruct (persistent_store st) as [s|] eqn:Hs; [|done].
  destruct (kv_list_keys_with_prefix _ _ _); [|done]. intros (key & _ & Hc)%hd_omap.
  destruct (persistent_candidate_Some _ _ _ _ _ _ _ _ Hc) as (v & Hl & Hv & Hval & Hp & Hr & Hg & Hn).
  split_and!; try done. right. eauto 6.
Qed.

Lemma find_capability_Some now (st : CapabilityStore S) p r perm t :
  find_capability now st p r perm = Some t ->
  held st t /\ t_principal t = p /\ (p ∉ retiring_principals st) /\ token_grants t r perm = true /\
  is_consumed_single_use st t = false.
Proof.
  unfold find_capability. case_bool_decide as Hret; [done|].
  destruct (find_session now st p r perm) as [t'|] eqn:Hf; intros Ht.
  - injection Ht as ->. apply find_session_Some in Hf as (? & ? & _ & ? & ?). done.
  - apply find_persistent_Some in Ht as (? & ? & _ & _ & ? & ?). done.
Qed.

Lemma kv_read_Ok ns k s s' v : kv_read ns k s = (s', Ok v) -> s' = s /\ view s !! (ns, k) = v.
Proof.
  unfold kv_read, eff_read. destruct (kv_get s ns k) as [v'|] eqn:Hg; intros [= <- <-].
  split; [done|]. by apply (law_get _ _ _ _ Hg).
Qed.

Lemma decode_valid_Ok now v t : decode_valid now v = Ok t -> token_from_slice v = Ok t /\ token_validate now t = Ok tt.
Proof.
  unfold decode_valid. destruct (token_from_slice v) as [t'|]; [|done]. simpl.
  destruct (token_validate now t') as [[]|] eqn:Hv; [|done]. by intros [= <-].
Qed.

Lemma read_legacy_None now id s s' t : backend_ok s -> read_legacy_token now id s <> (s', Ok (Some t)).
Proof.
  intros Hok Hr. unfold read_legacy_token in Hr. apply eff_bind_Ok in Hr as (s1 & [data|] & Hread & Hr); [|done].
  apply eff_bind_Ok in Hr as (s2 & t' & [= <- Hd] & _).
  apply kv_read_Ok in Hread as [-> Hl]. apply decode_valid_Ok in Hd as [Hv _].
  by destruct (token_key_not_uuid (t_principal t') (t_id t') id); rewrite <- (bo_rows _ Hok _ _ _ Hl Hv).
Qed.

Lemma read_persistent_Ok now id s s' t :
  backend_ok s -> read_persistent_token_any_principal now id s = (s', Ok (Some t)) ->
  t_id t = id /\ token_validate now t = Ok tt /\
  exists key v, view s !! (NS_TOKENS, key) = Some v /\ token_from_slice v = Ok t.
Proof.
  intros Hok Hr. unfold read_persistent_token_any_principal in Hr.
  apply eff_bind_Ok in Hr as (s1 & [p|] & Hread & Hr); apply kv_read_Ok in Hread as [-> _];
    [|by apply read_legacy_None in Hr].
  apply eff_bind_Ok in Hr as (s2 & [] & [= <- _] & Hr). apply eff_bind_Ok in Hr as (s3 & q & [= <- Hq] & Hr).
  apply map_err_Ok in Hq. apply eff_bind_Ok in Hr as (s4 & [v|] & Hread & Hr); apply kv_read_Ok in Hread as [-> Hl].
  - apply eff_bind_Ok in Hr as (s5 & t' & [= <- Hd] & [= _ ->]).
    apply decode_valid_Ok in Hd as [Hv Hval]. pose proof (bo_rows _ Hok _ _ _ Hl Hv) as Hkey.
    apply token_key_inj in Hkey as [_ Hid].
    + split_and!; [done|done|eauto].
    + unfold principal_ok. pose proof (PrincipalId_new_Ok _ _ Hq) as ->. done.
    + by apply (token_from_slice_principal _ _ Hv).
  - apply read_legacy_None in Hr as []. by apply kv_forget_names.
Qed.

(** The parts of a store a read leaves alone. *)
Definition same_memory (st st' : CapabilityStore S) : Prop :=
  session_tokens st' = session_tokens st /\ retiring_principals st' = retiring_principals st /\
  revoked st' = revoked st /\ used_tokens st' = used_tokens st.

Lemma on_persistent_memory {A} (c : eff S CapabilityError A) absent (st : CapabilityStore S) :
  same_memory st (on_persistent c absent st).1.
Proof. unfold on_persistent. destruct (persistent_store st) as [s|]; [|done]. by destruct (c s). Qed.

Lemma get_memory now id (st : CapabilityStore S) : same_memory st (get now id st).1.
Proof.
  unfold get. case_bool_decide; [done|]. destruct (session_get st id); [done|]. unfold eff_bind.
  pose proof (on_persistent_memory (read_persistent_token_any_principal now id) (Ok None) st) as Hm.
  by destruct (on_persistent _ _ st) as [st1 [a|e]].
Qed.

Lemma unless_retiring_Some (st : CapabilityStore S) t t' :
  unless_retiring st t = Some t' -> t' = t /\ (t_principal t ∉ retiring_principals st).
Proof. unfold unless_retiring. case_bool_decide; [done|]. by intros [= <-]. Qed.

Lemma get_Ok now id (st : CapabilityStore S) st' t :
  store_ok st -> get now id st = (st', Ok (Some t)) ->
  t_id t = id /\ held st t /\ (id ∉ revoked st) /\ (t_principal t ∉ retiring_principals st).
Proof.
  intros Hok. unfold get. case_bool_decide as Hrev; [done|].
  destruct (session_get st id) as [t'|] eqn:Hses.
  - intros [= <- [-> Hret]%unless_retiring_Some]. apply session_get_Some in Hses as (p & inner & Hp & Hi).
    destruct (so_session _ Hok _ _ _ _ Hp Hi) as [Hid _]. split_and!; try done. left. eauto 6.
  - intros (st1 & found & H1' & [= _ Hf])%eff_bind_Ok.
    destruct found as [t'|]; [|done]. apply unless_retiring_Some in Hf as [-> Hret].
    apply on_persistent_Ok in H1' as [(_ & _ & [=])|(s & s' & Hs & Hc & ->)].
    destruct (read_persistent_Ok _ _ _ _ _ (so_backend _ Hok _ Hs) Hc) as (Hid & _ & key & v & Hl & Hv).
    split_and!; try done. right. eauto 6.
Qed.

Lemma use_token_Ok now id (st : CapabilityStore S) st' t :
  store_ok st -> use_token now id st = (st', Ok t) ->
  t_id t = id /\ held st t /\ (id ∉ revoked st) /\ (t_principal t ∉ retiring_principals st) /\
  token_validate now t = Ok tt /\
  (t_single_use t = true -> (id ∉ used_tokens st) /\ id ∈ used_tokens st').
Proof.
  intros Hok (st1 & found & Hget & Hrest)%eff_bind_Ok.
  apply eff_bind_Ok in Hrest as (st2 & t' & [= <- ->%ok_or_Ok] & Hrest).
  apply eff_bind_Ok in Hrest as (st3 & [] & [= <- Hval] & Hrest).
  apply eff_bind_Ok in Hrest as (st4 & [] & Hmark & [= -> ->]).
  destruct (get_Ok _ _ _ _ _ Hok Hget) as (Hid & Hheld & Hrev & Hret). split_and!; try done.
  pose proof (get_memory now id st) as (_ & _ & _ & Hu). rewrite Hget in Hu. simpl in Hu.
  intros Hsu. rewrite Hsu in Hmark. destruct (mark_used_Ok _ _ _ Hmark) as (Hnot & Hu' & _).
  rewrite Hu in Hnot, Hu'. split; [done|]. rewrite Hu'. set_solver.
Qed.

(** The two steps of a use of a single-use token. *)
Lemma use_token_run now id (st : CapabilityStore S) st' t :
  use_token now id st = (st', Ok t) -> t_single_use t = true -> run st [None; Some id] st'.
Proof.
  intros (st1 & found & Hget & Hrest)%eff_bind_Ok Hsu.
  apply eff_bind_Ok in Hrest as (st2 & t' & [= <- ->%ok_or_Ok] & Hrest).
  apply eff_bind_Ok in Hrest as (st3 & [] & [= <- _] & Hrest).
  apply eff_bind_Ok in Hrest as (st4 & [] & Hmark & [= -> ->]). rewrite Hsu in Hmark.
  pose proof (step_get now id st) as Hstep. rewrite Hget in Hstep.
  eapply run_cons; [exact Hstep|]. eapply run_cons; [by apply step_mark_used|]. constructor.
Qed.

Lemma validate_token_Ok now issuer t :
  validate_token now [issuer] t = Ok tt ->
  is_expired now t = false /\ t_issuer t = issuer /\ verify issuer (token_signing_data t) (t_signature t) = true.
Proof.
  unfold validate_token, token_verify_signature. destruct (is_expired now t); [done|].
  destruct (verify _ _ _) eqn:Hv; [|done]. simpl. destruct (contains _ _) eqn:Hc; [|done]. intros _.
  apply contains_spec, list_elem_of_singleton in Hc. by rewrite <- Hc.
Qed.

Lemma check_Authorized now issuer (st : CapabilityStore S) p r perm t :
  check now [issuer] st p r perm = Authorized t ->
  find_capability now st p r perm = Some t /\ validate_token now [issuer] t = Ok tt.
Proof.
  unfold check. destruct (find_capability now st p r perm) as [t'|]; [|done].
  destruct (is_ok _) eqn:Hok; [|done]. intros [= <-]. split; [done|by apply is_ok_unit].
Qed.

Lemma check_authorization_Ok now now' issuer p server tool (st : CapabilityStore S) st' id hash :
  check_authorization now now' issuer p server tool st = (st', Ok (ToolAuthorized id hash)) ->
  exists found t, check now [issuer] st p (tool_resource server tool) Invoke = Authorized found /\
    use_token now' (t_id found) st = (st', Ok t) /\ t_issuer t = issuer /\ id = t_id t /\ hash = token_content_hash t.
Proof.
  unfold check_authorization. destruct (check _ _ _ _ _ _) as [found|]; [|done].
  destruct (use_token now' (t_id found) st) as [st1 [t|e]] eqn:Hu; [|by destruct (token_gone e)].
  case_bool_decide; [|done]. intros [= <- <- <-]. eauto 10.
Qed.

(** Token ids are drawn fresh, so a store holds one token per id. *)
Definition ids_unique (st : CapabilityStore S) : Prop :=
  forall t1 t2, held st t1 -> held st t2 -> t_id t1 = t_id t2 -> t1 = t2.
End Lookups.

(** ** Purging and minting *)

Section Purge.
  Context {S : Type} `{KvStoreLaws S view} `{Globset} `{Crypto} `{TokenCodecLaws} `{UuidTextLaws} `{!HashIteration}
    {HIL : HashIterationLaws}.

Lemma delete_all_Ok ns keys s s' :
  delete_all ns keys s = (s', []) ->
  forall ns' k, view s' !! (ns', k) = if bool_decide (ns' = ns /\ k ∈ keys) then None else view s !! (ns', k).
Proof.
  revert s; induction keys as [|key keys IH]; intros s; simpl.
  - intros [= <-] ns' k. rewrite bool_decide_false; [done|]. by intros [_ ?%not_elem_of_nil].
  - destruct (kv_delete s ns key) as [s1 [b|e]] eqn:Hdel; destruct (delete_all ns keys s1) as [s2 fs] eqn:Hall; [|done].
    intros [= <- ->] ns' k. rewrite (IH _ Hall). rewrite (proj2 (law_delete _ _ _ _ _ Hdel)).
    destruct (decide (ns' = ns)) as [->|Hns].
    + destruct (decide (k = key)) as [->|Hk].
      * rewrite lookup_delete_eq. rewrite (bool_decide_true (ns = ns /\ key ∈ key :: keys)) by set_solver.
        by case_bool_decide.
      * rewrite lookup_delete_ne by congruence.
        rewrite (bool_decide_ext (ns = ns /\ k ∈ key :: keys) (ns = ns /\ k ∈ keys)); [done|set_solver].
    + rewrite lookup_delete_ne by congruence. rewrite !bool_decide_false by naive_solver. done.
Qed.

Lemma indexed_ids_Ok p keys s ids :
  indexed_ids p keys s = Ok ids ->
  forall id, id ∈ ids <-> exists k, k ∈ keys /\ view s !! (NS_TOKEN_INDEX, k) = Some (pid_str p) /\ uuid_parse_str k = Some id.
Proof.
  revert ids; induction keys as [|key keys IH]; intros ids; simpl.
  - intros [= <-] id. split; [by intros ?%not_elem_of_nil|]. by intros (k & ?%not_elem_of_nil & _).
  - destruct (kv_get s NS_TOKEN_INDEX key) as [owner|] eqn:Hget; [|done]. simpl.
    apply law_get in Hget. destruct (indexed_ids p keys s) as [ids'|]; [|done]. intros [= <-] id.
    specialize (IH ids' eq_refl id).
    assert ((exists k, k ∈ key :: keys /\ view s !! (NS_TOKEN_INDEX, k) = Some (pid_str p) /\ uuid_parse_str k = Some id)
            <-> (owner = Some (pid_str p) /\ uuid_parse_str key = Some id) \/ id ∈ ids') as ->.
    { rewrite IH. setoid_rewrite elem_of_cons. split; [|intros [?|(k & ?)]; [exists key|exists k]; naive_solver].
      intros (k & [->|Hin] & Hv & Hp); [left; by rewrite Hv in Hget|right; eauto]. }
    case_bool_decide as Ho; [|naive_solver].
    rewrite elem_of_app. destruct (uuid_parse_str key) as [u|]; simpl; [|naive_solver set_solver].
    rewrite list_elem_of_singleton. naive_solver.
Qed.

(** What a successful purge of the backend deletes. *)
Lemma purge_persistent_Ok p s s' :
  backend_ok (view := view) s -> purge_persistent p s = (s', Ok tt) ->
  (forall key, view s' !! (NS_TOKENS, key)
     = if starts_with (token_key_prefix p) key then None else view s !! (NS_TOKENS, key)) /\
  (forall key v, view s' !! (NS_TOKEN_INDEX, key) = Some v ->
     view s !! (NS_TOKEN_INDEX, key) = Some v /\ v <> pid_str p).
Proof.
  intros Hok (s1 & rows & [= <- Hrows%map_err_Ok] & Hp)%eff_bind_Ok.
  apply eff_bind_Ok in Hp as (s2 & keys & [= <- Hkeys%map_err_Ok] & Hp).
  apply eff_bind_Ok in Hp as (s3 & ids & [= <- Hids] & Hp).
  cbv beta zeta in Hp. destruct (delete_all NS_TOKENS rows s) as [s4 f1] eqn:H1'.
  destruct (delete_all NS_TOKEN_INDEX _ s4) as [s5 f2] eqn:H2'.
  destruct (f1 ++ f2) eqn:Hf; [|done]. apply app_eq_nil in Hf as [-> ->]. injection Hp as <-.
  pose proof (proj2 (law_list _ _ _ _ Hrows)) as Hin.
  split.
  - intros key. rewrite (delete_all_Ok _ _ _ _ H2'), (delete_all_Ok _ _ _ _ H1'), bool_decide_false by (by intros [[=] _]).
    destruct (starts_with (token_key_prefix p) key) eqn:Hsw.
    + case_bool_decide as Hd; [done|]. destruct (view s !! (NS_TOKENS, key)) eqn:Hl; [|done].
      destruct Hd. split; [done|]. apply Hin. eauto.
    + rewrite bool_decide_false; [done|]. intros [_ [_ Hc]%Hin]. congruence.
  - intros key v. rewrite (delete_all_Ok _ _ _ _ H2'). case_bool_decide as Hd; [done|].
    rewrite (delete_all_Ok _ _ _ _ H1'), bool_decide_false by (by intros [[=] _]). intros Hl. split; [done|].
    intros ->. destruct Hd. split; [done|]. destruct (bo_index _ Hok _ _ Hl) as [id ->].
    apply list_elem_of_fmap. exists id. split; [done|]. rewrite iter_ids_perm, elem_of_elements, elem_of_list_to_set, elem_of_app.
    right. apply (indexed_ids_Ok _ _ _ _ Hids). exists (uuid_to_string id). rewrite uuid_roundtrip. split_and!; try done.
    apply (law_list_keys _ _ _ Hkeys). eauto.
Qed.

Lemma purge_held p (st : CapabilityStore S) st' t :
  principal_ok p -> store_ok (view := view) st -> purge_principal p st = (st', Ok tt) ->
  held (view := view) st' t <-> held (view := view) st t /\ t_principal t <> p.
Proof.
  intros Hp Hok Hpurge. unfold purge_principal in Hpurge.
  apply on_persistent_Ok in Hpurge as [(Hn & -> & _)|(s & s' & Hs & Hc & ->)]; unfold held; simpl in *.
  - rewrite Hn. split.
    + intros [(q & inner & id & [Hne Hl]%lookup_delete_Some & Hi)|(s & _ & _ & [=] & _)].
      split; [left; eauto 6|]. destruct (so_session _ Hok _ _ _ _ Hl Hi) as [_ ->]. congruence.
    + intros [[(q & inner & id & Hl & Hi)|(s & _ & _ & [=] & _)] Hne]. left. exists q, inner, id.
      rewrite lookup_delete_ne; [done|]. destruct (so_session _ Hok _ _ _ _ Hl Hi) as [_ <-]. congruence.
  - destruct (purge_persistent_Ok _ _ _ (so_backend _ Hok _ Hs) Hc) as [Hrow _]. split.
    + intros [(q & inner & id & [Hne Hl]%lookup_delete_Some & Hi)|(s1 & key & v & [= <-] & Hl & Hv)].
      * split; [left; eauto 6|]. destruct (so_session _ Hok _ _ _ _ Hl Hi) as [_ ->]. congruence.
      * rewrite Hrow in Hl. destruct (starts_with _ key) eqn:Hsw; [done|]. split; [right; eauto 8|]. intros <-.
        rewrite (bo_rows _ (so_backend _ Hok _ Hs) _ _ _ Hl Hv) in Hsw.
        rewrite (proj2 (token_key_prefix_iff _ _ _ Hp Hp) eq_refl) in Hsw. done.
    + intros [[(q & inner & id & Hl & Hi)|(s1 & key & v & Hs1 & Hl & Hv)] Hne].
      * left. exists q, inner, id. rewrite lookup_delete_ne; [done|].
        destruct (so_session _ Hok _ _ _ _ Hl Hi) as [_ <-]. congruence.
      * right. assert (s1 = s) as -> by congruence. exists s', key, v. split_and!; [done| |done]. rewrite Hrow.
        destruct (starts_with _ key) eqn:Hsw; [|done]. destruct Hne.
        rewrite (bo_rows _ (so_backend _ Hok _ Hs) _ _ _ Hl Hv) in Hsw.
        symmetry. by apply (token_key_prefix_iff p _ (t_id t) Hp (token_from_slice_principal _ _ Hv)).
Qed.

Lemma persist_token_Ok t s s' :
  persist_token t s = (s', Ok tt) ->
  exists v, token_to_vec t = Ok v /\ view s' !! (NS_TOKENS, token_key (t_principal t) (t_id t)) = Some v.
Proof.
  intros (s1 & v & [= <- Hv] & Hp)%eff_bind_Ok. exists v. split; [done|].
  apply eff_bind_Ok in Hp as (s2 & [] & Hput1 & Hput2). rewrite (kv_put_Ok _ _ _ _ _ Hput2), lookup_insert_ne by (by intros [=]).
  by rewrite (kv_put_Ok _ _ _ _ _ Hput1), lookup_insert_eq.
Qed.

Lemma add_persistent_Ok now t (st : CapabilityStore S) st' s :
  t_scope t = Persistent -> persistent_store st = Some s -> add now t st = (st', Ok tt) ->
  exists s', persist_token t s = (s', Ok tt) /\ st' = with_backend st s' /\
    (t_principal t ∉ retiring_principals st).
Proof.
  intros Hsc Hs. unfold add. case_bool_decide as Hret; [done|]. destruct (token_validate now t) as [[]|]; [|done].
  rewrite Hsc, Hs. unfold on_persistent. rewrite Hs. destruct (persist_token t s) as [s' r].
  intros [= <- ->]. eauto.
Qed.

(** Reads of the backend that do not fail. *)
Definition reads_succeed (s : S) (p : PrincipalId) : Prop :=
  (exists keys, kv_list_keys_with_prefix s NS_TOKENS (token_key_prefix p) = Ok keys) /\
  forall id, exists v, kv_get s NS_TOKENS (token_key p id) = Ok v.

Lemma hd_error_omap_is_Some {A B} (f : A -> option B) l a : a ∈ l -> is_Some (f a) -> is_Some (List.hd_error (omap f l)).
Proof.
  intros Hin [b Hb]. destruct (omap f l) as [|c l'] eqn:Ho; [|by eexists].
  assert (b ∈ omap f l) as Hbad by (apply list_elem_of_omap; eauto). rewrite Ho in Hbad. by apply not_elem_of_nil in Hbad.
Qed.

Lemma persistent_found now (st : CapabilityStore S) s p r perm t v :
  persistent_store st = Some s -> reads_succeed s p -> t_principal t = p -> principal_ok p ->
  view s !! (NS_TOKENS, token_key p (t_id t)) = Some v -> token_from_slice v = Ok t ->
  token_validate now t = Ok tt -> (t_id t ∉ revoked st) -> token_grants t r perm = true ->
  is_consumed_single_use st t = false -> is_Some (find_persistent now st p r perm).
Proof.
  intros Hs [[keys Hkeys] Hget] Hp Hpok Hl Hv Hval Hrev Hg Hn. unfold find_persistent. rewrite Hs, Hkeys.
  apply (hd_error_omap_is_Some _ _ (token_key p (t_id t))).
  - apply (proj2 (law_list _ _ _ _ Hkeys)). split; [eauto|]. by apply token_key_prefix_iff.
  - unfold persistent_candidate. destruct (Hget (t_id t)) as [v' Hv']. rewrite Hv'.
    apply law_get in Hv'. rewrite Hl in Hv'. subst v'. rewrite Hv, Hval. simpl.
    rewrite bool_decide_true by done. simpl. rewrite bool_decide_false by done. rewrite Hg, Hn. by eexists.
Qed.

Lemma parse_permission_Err o r : parse_permission o = Err r -> exists text, r = BadPermission text.
Proof. unfold parse_permission. destruct o; [|done]. cbv zeta. repeat case_match; intros [= <-]. eauto. Qed.

Lemma parse_ttl_Err `{Chrono} o r : parse_ttl o = Err r -> exists secs, r = BadTtl secs.
Proof.
  unfold parse_ttl. destruct o as [secs|]; [|done]. destruct (secs <=? I64_MAX)%N; [|intros [= <-]; eauto].
  destruct (try_seconds _); [done|]. intros [= <-]. eauto.
Qed.
End Purge.

(** ** The claims *)

Section Claims.
  Context {S : Type} `{KvStoreLaws S view} `{Globset} `{Crypto} `{TokenCodecLaws} `{UuidTextLaws} `{!HashIteration}
    {HIL : HashIterationLaws}.

(** C8: A tool call the secure client authorizes is covered by one token of
    the store: minted for the calling principal, which is not being retired,
    granting invocation of that tool, signed by the runtime key, not
    expired, not revoked, and, when it is for single use, never used before
    and used now. *)
Theorem authorization_sound now now' issuer principal server tool (st : CapabilityStore S) st' id hash :
  store_ok (view := view) st -> ids_unique (view := view) st ->
  check_authorization now now' issuer principal server tool st = (st', Ok (ToolAuthorized id hash)) ->
  exists t, held (view := view) st t /\ t_id t = id /\ token_content_hash t = hash /\
    t_principal t = principal /\ (principal ∉ retiring_principals st) /\
    token_grants t (tool_resource server tool) Invoke = true /\
    contains_path_traversal (tool_resource server tool) = false /\
    t_issuer t = issuer /\ verify issuer (token_signing_data t) (t_signature t) = true /\
    is_expired now t = false /\ (id ∉ revoked st) /\
    (t_single_use t = true -> (id ∉ used_tokens st) /\ id ∈ used_tokens st').
Proof.
  intros Hok Huniq (found & t & Hcheck & Huse & Hissuer & -> & ->)%check_authorization_Ok.
  apply check_Authorized in Hcheck as [Hfind Hvalid].
  destruct (find_capability_Some _ _ _ _ _ _ Hfind) as (Hheld & Hp & Hret & Hg & _).
  destruct (use_token_Ok _ _ _ _ _ Hok Huse) as (Hid & Hheld' & Hrev & _ & _ & Hsu).
  assert (t = found) as -> by (by apply Huniq).
  destruct (validate_token_Ok _ _ _ Hvalid) as (Hexp & _ & Hver).
  exists found. split_and!; try done.
  unfold token_grants in Hg. apply andb_true_iff in Hg as [Hm _]. by apply pattern_matches_clean in Hm.
Qed.

(** C11: A single-use token is consumed at most once over any history of a
    store, whatever else is added, revoked, purged or cleaned up between the
    steps of its uses, whichever writes fail, and across restarts from the
    same backend; and every successful use of one consumes it. *)
Theorem single_use_once (st : CapabilityStore S) :
  durable (view := view) st ->
  (forall history st' id, run st history st' -> count_occ option_eq_dec history (Some id) <= 1) /\
  (forall history st' now id t st'', run st history st' -> use_token now id st' = (st'', Ok t) ->
     t_single_use t = true -> (Some id ∉ history) /\ run st (history ++ [None; Some id]) st'').
Proof.
  intros Hd. split; [intros; by eapply run_consumed_once|].
  intros history st' now id t st'' Hrun Huse Hsu. pose proof (use_token_run _ _ _ _ _ Huse Hsu) as Htwo.
  assert (run st (history ++ [None; Some id]) st'') as Hall.
  { clear Hd Huse. induction Hrun as [|st l st1 ls st2 Hstep _ IH]; [done|]. simpl.
    eapply run_cons; [exact Hstep|]. by apply IH. }
  split; [|done]. pose proof (run_consumed_once _ _ _ id Hd Hall) as Hone.
  rewrite count_occ_app, count_occ_cons_neq, count_occ_cons_eq in Hone by done.
  intros Hin%list_elem_of_In%(count_occ_In option_eq_dec). lia.
Qed.

(** Revocation is final: once [revoke] has succeeded, after any further
    history, restarts included, the token cannot be read, validated or used
    by its id and no tool call is authorized by it, even if it is added
    again. *)
Theorem revocation_final (st : CapabilityStore S) st1 history st2 id :
  durable (view := view) st -> store_ok (view := view) st ->
  revoke id st = (st1, Ok tt) -> run st1 history st2 ->
  (forall now, get now id st2 = (st2, Err (TokenRevoked id))) /\
  (forall now, use_token now id st2 = (st2, Err (TokenRevoked id))) /\
  (forall now issuers p, validate_by_id now issuers p id st2 = (st2, Err (TokenRevoked id))) /\
  (forall now now' issuer p server tool st3 hash,
     check_authorization now now' issuer p server tool st2 <> (st3, Ok (ToolAuthorized id hash))).
Proof.
  intros Hd Hok Hrev Hrun.
  pose proof (revoke_safe id st Hd) as [Hd1 _]. rewrite Hrev in Hd1. simpl in Hd1.
  pose proof (revoke_named id st Hok) as Hok1. rewrite Hrev in Hok1. simpl in Hok1.
  destruct (revoke_store_Ok _ _ _ Hrev) as [Hin _].
  destruct (run_safe _ _ _ Hd1 Hrun) as [_ [_ Hsub]]. specialize (Hsub id Hin).
  assert (forall now, get now id st2 = (st2, Err (TokenRevoked id))) as Hget.
  { intros now. unfold get. by rewrite bool_decide_true. }
  split_and!; [done| | |].
  - intros now. unfold use_token, eff_bind. by rewrite Hget.
  - intros now issuers p. unfold validate_by_id, eff_bind. by rewrite Hget.
  - intros now now' issuer p server tool st3 hash (found & t & _ & Huse & _ & -> & _)%check_authorization_Ok.
    pose proof (run_named _ _ _ Hok1 Hrun) as Hok2.
    destruct (use_token_Ok _ _ _ _ _ Hok2 Huse) as (Hid & _ & Hnot & _). by rewrite Hid in Hsub.
Qed.

(** A successful purge removes every token of the principal, in memory and
    in the backend, and its index rows; it removes no other principal's
    token, leaves all revocations and used marks, and nothing is granted to
    the principal afterwards. *)
Theorem purge_complete p (st : CapabilityStore S) st' :
  principal_ok p -> store_ok (view := view) st -> purge_principal p st = (st', Ok tt) ->
  (forall t, held (view := view) st' t <-> held (view := view) st t /\ t_principal t <> p) /\
  (forall now resource permission, find_capability now st' p resource permission = None) /\
  (forall s' key, persistent_store st' = Some s' -> view s' !! (NS_TOKEN_INDEX, key) <> Some (pid_str p)) /\
  used_tokens st' = used_tokens st /\ revoked st' = revoked st.
Proof.
  intros Hp Hok Hpurge. pose proof (fun t => purge_held p st st' t Hp Hok Hpurge) as Hheld.
  split; [exact Hheld|]. split; [|split].
  - intros now r perm. destruct (find_capability now st' p r perm) as [t|] eqn:Hf; [|done].
    apply find_capability_Some in Hf as (Hh & Hpr & _). by apply Hheld in Hh as [_ Hne].
  - intros s' key Hs'. unfold purge_principal in Hpurge.
    apply on_persistent_Ok in Hpurge as [(Hn & -> & _)|(s & s1 & Hs & Hc & ->)]; simpl in *; [congruence|].
    injection Hs' as ->. intros Hl.
    by destruct (proj2 (purge_persistent_Ok _ _ _ (so_backend _ Hok _ Hs) Hc) _ _ Hl) as [_ Hne].
  - unfold purge_principal in Hpurge.
    pose proof (on_persistent_memory (purge_persistent p) (Ok tt) (clear_session_for p st)) as Hm.
    rewrite Hpurge in Hm. destruct Hm as (_ & _ & Hr & Hu). by split.
Qed.

(** A mint takes effect: a token the handler reports as minted is in the
    backend under its principal, signed by the runtime key, and from then on,
    while it is neither expired nor revoked and the principal is not being
    retired, the store grants its permission on every resource its pattern
    matches. *)
Theorem minted_token_grants `{Chrono} (laws : CryptoLaws) exists_ key key_id draw p resource permission ttl
    (st : CapabilityStore S) st' s t :
  principal_ok p -> persistent_store st = Some s ->
  caps_token_mint exists_ key key_id draw p resource permission ttl st = (st', Some (TokenMinted t)) ->
  exists s', persistent_store st' = Some s' /\ t_principal t = p /\ t_issuer t = export_public_key key /\
    verify (export_public_key key) (token_signing_data t) (t_signature t) = true /\
    rp_pattern (t_resource t) = resource /\
    (reads_succeed s' p -> (t_id t ∉ revoked st) ->
     forall now target perm, is_expired_with_skew now DEFAULT_CLOCK_SKEW_SECS t = false ->
       parse_permission permission = Ok perm -> pattern_matches (t_resource t) target = true ->
       has_capability now st' p target perm = true).
Proof.
  intros Hp Hs. unfold caps_token_mint. destruct (parse_permission permission) as [perm|r] eqn:Hperm.
  2: { apply parse_permission_Err in Hperm as [text ->]. by intros [=]. }
  destruct (ResourcePattern_new resource) as [pattern|] eqn:Hpat; [|by intros [=]].
  destruct (exists_ p); [|by intros [=]]. simpl. destruct (parse_ttl ttl) as [ttl'|r'] eqn:Httl.
  2: { apply parse_ttl_Err in Httl as [secs ->]. by intros [=]. }
  destruct (token_create _ _ _ _ _ _ _ _ _ _ _) as [t'|] eqn:Hcreate; [|by intros [=]].
  destruct (add _ t' st) as [st1 [[]|e]] eqn:Hadd; [|by intros [=]]. intros [= <- <-].
  apply bind_Some in Hcreate as (expires & _ & [= <-]).
  set (t0 := MkCapabilityToken _ _ _ _ _ _ _ _ _ _ _ _) in Hadd |- *.
  set (t := token_with_signature _ _) in Hadd |- *.
  assert (t_scope t = Persistent) as Hsc by done.
  destruct (add_persistent_Ok _ _ _ _ _ Hsc Hs Hadd) as (s' & Hpersist & -> & Hret).
  assert (verify (export_public_key key) (token_signing_data t) (t_signature t) = true) as Hver.
  { change (token_signing_data t) with (token_signing_data t0). apply sign_verify. }
  exists s'. split_and!; try done; [exact (proj1 (ResourcePattern_new_Ok _ _ Hpat))|].
  intros Hreads Hrev now target perm' Hexp Hperm' Hmatch. assert (perm' = perm) as -> by congruence.
  destruct (persist_token_Ok _ _ _ Hpersist) as (v & Hvec & Hl).
  unfold has_capability. apply bool_decide_eq_true. unfold find_capability. rewrite bool_decide_false by done.
  destruct (find_session _ _ _ _ _); [by eexists|].
  apply (persistent_found _ _ s' _ _ _ t v); try done.
  - apply token_roundtrip; [done| |done]. by apply (ResourcePattern_new_again resource).
  - unfold token_validate, validate_with_skew, token_verify_signature. rewrite Hexp.
    change (t_issuer t) with (export_public_key key). by rewrite Hver.
  - unfold token_grants. rewrite Hmatch. apply andb_true_iff. split; [done|]. apply contains_spec. by left.
Qed.
End Claims.

(** ** Examples

    Instances of the interfaces for evaluation: globs with one trailing [*],
    hyphenated UUIDs, hash maps iterated in key
    order, a codec that knows the tokens of a table, and chrono's documented
    range. *)
Module CapExamples.

Definition toy_iteration `{Globset} : HashIteration := {|
  iter_principals := fun m => (map_to_list m).*2;
  iter_tokens := fun m => (map_to_list m).*2;
  iter_ids := fun ids => elements ids;
|}.

Lemma toy_iteration_laws `{Globset} : @HashIterationLaws _ toy_iteration.
Proof. by split. Qed.

#[export] Instance TokenWire_eq_dec : EqDecision TokenWire.
Proof. solve_decision. Defined.

Definition table_codec (table : list (string * TokenWire)) : TokenCodec := {|
  wire_to_vec := fun w => ok_or (fst <$> List.find (fun e => bool_decide (e.2 = w)) table) "unknown";
  wire_from_slice := fun v => ok_or (snd <$> List.find (fun e => String.eqb e.1 v) table) "unknown";
|}.

Lemma table_codec_laws table : NoDup table.*1 -> @TokenCodecLaws (table_codec table).
Proof.
  intros Hnd. split. simpl. intros w v (e & Hf & ->)%ok_or_Ok%fmap_Some. apply find_some in Hf as [Hin Hw%bool_decide_eq_true].
  apply ok_or_Ok. destruct (List.find (fun e' => String.eqb e'.1 e.1) table) as [e'|] eqn:Hf'.
  - apply find_some in Hf' as [Hin' Heq%String.eqb_eq]. simpl. f_equal. rewrite <- Hw. f_equal.
    apply list_elem_of_In in Hin, Hin'. apply list_elem_of_lookup in Hin as [i Hi], Hin' as [j Hj].
    assert (j = i) as ->; [|congruence].
    apply (NoDup_lookup table.*1 _ _ e.1 Hnd); rewrite list_lookup_fmap; [by rewrite Hj; simpl; rewrite Heq|by rewrite Hi].
  - apply (find_none _ _ Hf') in Hin. by rewrite String.eqb_refl in Hin.
Qed.

(** [Duration] holds [i64::MAX] milliseconds, a date ends with the year 262142. *)
Definition chrono_range : Chrono := {|
  duration_max_secs := 9223372036854775;
  datetime_max := 8210266876799999999999;
|}.

#[local] Existing Instance TokenExamples.toy_globset.
#[local] Existing Instance toy_crypto.
#[local] Existing Instance hyphenated.
#[local] Existing Instance toy_iteration.
#[local] Existing Instance chrono_range.

Definition key (n : N) : array 32 := int_array 32 n.
Definition uuid (n : N) : Uuid := int_array 16 n.
Definition alice : PrincipalId := MkPrincipalId "alice".
Definition noon : Timestamp := 1700000000000000000%Z.

Definition pattern_of (c : CapabilityResult ResourcePattern) : ResourcePattern :=
  match c with Ok p => p | Err _ => MkResourcePattern "" None end.

Definition signed_token (id : N) (resource : ResourcePattern) (scope : TokenScope) (expires : option Timestamp)
    (single_use : bool) : CapabilityToken :=
  let t := MkCapabilityToken (uuid id) resource [Invoke] noon expires scope (key 1) (int_array 8 0) (uuid 0)
             single_use alice (zero_array 64) in
  token_with_signature t (sign (key 1) (token_signing_data t)).

Definition any_tool : ResourcePattern := pattern_of (mcp_server "fs").
Definition once : CapabilityToken := signed_token 1 any_tool Session None true.
(** Expired ten seconds before noon. *)
Definition lapsed : CapabilityToken := signed_token 3 any_tool Persistent (Some (noon - 10000000000)%Z) false.
Definition good : CapabilityToken := signed_token 2 any_tool Persistent None false.
(** Granted for the one tool named [*]. *)
Definition exact_star : CapabilityToken := signed_token 4 (pattern_of (mcp_tool "fs" "*")) Persistent None false.

Definition codec : TokenCodec :=
  table_codec [("lapsed", to_wire lapsed); ("good", to_wire good); ("star", to_wire exact_star)].
#[local] Existing Instance codec.

Lemma codec_laws : TokenCodecLaws.
Proof. apply table_codec_laws. by apply (bool_decide_unpack _). Qed.
#[local] Existing Instance codec_laws.
#[local] Existing Instance hyphenated_laws.
#[local] Existing Instance toy_iteration_laws.

Definition memory : CapabilityStore MemoryKvStore := in_memory.
Definition with_once : CapabilityStore MemoryKvStore := (add noon once memory).1.

Lemma memory_ok : store_ok (view := mem_view) memory /\ durable (view := mem_view) memory.
Proof. split; [split|]; intros *; simpl; [by rewrite lookup_empty|done|done]. Qed.

Lemma with_once_session : session_tokens with_once = {[alice := {[uuid 1 := once]}]}.
Proof. reflexivity. Qed.

Lemma with_once_ok : store_ok (view := mem_view) with_once /\ durable (view := mem_view) with_once.
Proof.
  destruct memory_ok as [Hok Hd]. split; [by apply add_named|]. by apply add_safe.
Qed.

Lemma with_once_unique : ids_unique (view := mem_view) with_once.
Proof.
  assert (forall t, held (view := mem_view) with_once t -> t = once) as Hone.
  { intros t [(p & inner & id & Hp & Hi)|(s & k & v & Hs & _)]; [|by vm_compute in Hs].
    rewrite with_once_session in Hp. apply lookup_singleton_Some in Hp as [_ <-].
    by apply lookup_singleton_Some in Hi as [_ <-]. }
  intros t1 t2 ->%Hone ->%Hone. done.
Qed.

Definition authorized (c : CapabilityStore MemoryKvStore * result ToolAuthorization McpError)
    : option (Uuid * ContentHash) :=
  match c.2 with Ok (ToolAuthorized id hash) => Some (id, hash) | _ => None end.

Lemma authorized_eta c id hash :
  bool_decide (authorized c = Some (id, hash)) = true -> c = (c.1, Ok (ToolAuthorized id hash)).
Proof.
  intros Hb%bool_decide_eq_true. destruct c as [st [[id' hash'|]|]]; try done. injection Hb as -> ->. done.
Qed.

Definition call_read (st : CapabilityStore MemoryKvStore)
    : CapabilityStore MemoryKvStore * result ToolAuthorization McpError :=
  check_authorization noon noon (key 1) alice "fs" "read" st.

Lemma authorization_sound_witness :
  exists t, t_id t = uuid 1 /\ t_principal t = alice /\ token_grants t "mcp://fs:read" Invoke = true.
Proof.
  destruct (authorization_sound noon noon (key 1) alice "fs" "read" with_once (call_read with_once).1 (uuid 1)
              (token_content_hash once) (proj1 with_once_ok) with_once_unique)
    as (t & _ & Hid & _ & Hp & _ & Hg & _).
  - apply (authorized_eta (call_read with_once)). vm_compute. reflexivity.
  - exists t. split; [exact Hid|]. split; [exact Hp|exact Hg].
Defined.

Lemma single_use_once_witness : count_occ option_eq_dec [None; Some (uuid 1)] (Some (uuid 1)) <= 1.
Proof.
  apply (proj1 (single_use_once with_once (proj2 with_once_ok)) [None; Some (uuid 1)]
           (use_token noon (uuid 1) with_once).1).
  destruct (use_token noon (uuid 1) with_once) as [st' [t|e]] eqn:Hu.
  - apply (use_token_run noon (uuid 1) with_once st' t Hu).
    assert (option_map t_single_use (res_ok (use_token noon (uuid 1) with_once).2) = Some true) as Hs by reflexivity.
    rewrite Hu in Hs. by injection Hs.
  - assert (is_ok (use_token noon (uuid 1) with_once).2 = true) as Hs by reflexivity. by rewrite Hu in Hs.
Defined.

Lemma pair_Ok_eta {A} (c : CapabilityStore MemoryKvStore * CapabilityResult A) a : c.2 = Ok a -> c = (c.1, Ok a).
Proof. destruct c. simpl. by intros ->. Qed.

Definition revoked_once : CapabilityStore MemoryKvStore := (revoke (uuid 1) with_once).1.
(** The revoked token is added again. *)
Definition readded : CapabilityStore MemoryKvStore := (add noon once revoked_once).1.

Lemma revocation_final_witness : get noon (uuid 1) readded = (readded, Err (TokenRevoked (uuid 1))).
Proof.
  apply (revocation_final with_once revoked_once [None] readded (uuid 1) (proj2 with_once_ok) (proj1 with_once_ok)).
  - apply (pair_Ok_eta (revoke (uuid 1) with_once)). reflexivity.
  - eapply run_cons; [apply (step_add noon once revoked_once)|constructor].
Defined.

(** The lookup by resource does not consult the revocations for session
    tokens: a revoked session token that is added again is granted, and the
    validator authorizes it. *)
Lemma readded_token_granted :
  bool_decide (uuid 1 ∈ revoked readded) = true /\
  has_capability noon readded alice "mcp://fs:read" Invoke = true /\
  match check noon [key 1] readded alice "mcp://fs:read" Invoke with Authorized _ => true | _ => false end = true.
Proof. split_and!; vm_compute; reflexivity. Qed.

Definition durable_store : CapabilityStore MemoryKvStore := MkCapabilityStore ∅ ∅ (Some MemoryKvStore_new) ∅ ∅.
Definition two_tokens : CapabilityStore MemoryKvStore := (add noon good (add noon lapsed durable_store).1).1.

(** A persistent token that expired within the clock-skew tolerance is still
    returned by the lookup and then refused by the validator, which does not
    look further: a valid token for the same resource is not used. *)
Lemma lapsed_token_masks :
  has_capability noon two_tokens alice "mcp://fs:read" Invoke = true /\
  is_ok (validate_token noon [key 1] good) && token_grants good "mcp://fs:read" Invoke = true /\
  match get noon (uuid 2) two_tokens with (_, Ok (Some _)) => true | _ => false end = true /\
  match check noon [key 1] two_tokens alice "mcp://fs:read" Invoke with Authorized _ => true | _ => false end = false.
Proof. split_and!; vm_compute; reflexivity. Qed.

(** An exact pattern with a glob character is read back from the store as a
    glob: the stored token is still validly signed and grants more. *)
Definition star_store : CapabilityStore MemoryKvStore := (add noon exact_star durable_store).1.
Lemma stored_exact_pattern_widens :
  token_grants exact_star "mcp://fs:read" Invoke = false /\
  has_capability noon star_store alice "mcp://fs:read" Invoke = true.
Proof. split; vm_compute; reflexivity. Qed.

Lemma durable_store_ok : store_ok (view := mem_view) durable_store.
Proof.
  split; intros *; simpl; [by rewrite lookup_empty|]. intros [= <-].
  split; intros *; change (mem_view MemoryKvStore_new) with (∅ : KvMap); by rewrite lookup_empty.
Qed.

Lemma purge_complete_witness : find_capability noon (purge_principal alice two_tokens).1 alice "mcp://fs:read" Invoke = None.
Proof.
  apply (purge_complete alice two_tokens (purge_principal alice two_tokens).1).
  - reflexivity.
  - apply add_named, add_named, durable_store_ok.
  - apply pair_Ok_eta. reflexivity.
Defined.

Definition draw : MintDraw := MkMintDraw (uuid 2) (uuid 0) noon noon noon.
Definition minted : CapabilityStore MemoryKvStore * option TokenResponse :=
  caps_token_mint (fun _ => true) (key 1) (int_array 8 0) draw alice "mcp://fs:*" None None durable_store.

Lemma minted_token_grants_witness : has_capability noon minted.1 alice "mcp://fs:read" Invoke = true.
Proof.
  destruct (minted_token_grants toy_crypto_laws (fun _ => true) (key 1) (int_array 8 0) draw alice "mcp://fs:*" None None
              durable_store minted.1 MemoryKvStore_new good) as (s' & _ & _ & _ & _ & _ & Hgrants).
  - reflexivity.
  - reflexivity.
  - assert (minted.2 = Some (TokenMinted good)) as Hm by reflexivity.
    unfold minted in *. destruct (caps_token_mint _ _ _ _ _ _ _ _ _) as [st r]. simpl in *. by rewrite Hm.
  - apply Hgrants.
    + split; [eexists; reflexivity|]. intros id. exists (mem_view s' !! (NS_TOKENS, token_key alice id)).
      apply mem_get_total; [reflexivity|]. by apply token_key_valid.
    + by vm_compute.
    + reflexivity.
    + reflexivity.
    + reflexivity.
Defined.

(** A time to live that chrono accepts as a duration but that ends after the
    last representable date makes the handler panic. *)
Lemma mint_ttl_panics :
  (caps_token_mint (fun _ => true) (key 1) (int_array 8 0) draw alice "mcp://fs:*" None (Some 1000000000000000%N)
     durable_store).2 = None.
Proof. vm_compute. reflexivity. Qed.
End CapExamples.
