(* ===== verification/Allowances.v ===== *)
(** * Allowances: pre-approved actions

    [astrid-approval/src/{action, error}.rs], [allowance/{mod, pattern,
    store}.rs]: sensitive actions, the patterns that cover them, and the
    in-memory store of allowances a principal was granted.

    A path is its text; it is compared by components, as [std::path::Path] is
    on Unix.  A clock reading is an argument.  The hash maps of the store are
    [gmap]s whose iteration order is the class [AllowanceIteration].  Locks
    are not poisoned. *)

From S2P Require Import Prelude.
From S2P Require Import Profile.
From S2P Require Import Bytes.
From S2P Require Import Crypto.
From S2P Require Import CapTokens.
From Stdlib Require Import Ascii.
Local Open Scope string_scope.
Local Open Scope list_scope.

(** ** Paths *)

Inductive Component : Type :=
| RootDir
| CurDir
| ParentDir
| Normal (name : string).

#[export] Instance Component_eq_dec : EqDecision Component.
Proof. solve_decision. Defined.

Definition segment_component (segment : string) : option Component :=
  if String.eqb segment "" || String.eqb segment "." then None
  else if String.eqb segment ".." then Some ParentDir
  else Some (Normal segment).

(** [Path::components]: empty and [.] segments vanish, except a leading [.]. *)
Definition components (path : string) : list Component :=
  let segments := split_on "/" path in
  match segments with
  | first :: _ :: _ => if String.eqb first "" then [RootDir] else if String.eqb first "." then [CurDir] else []
  | [first] => if String.eqb first "." then [CurDir] else []
  | [] => []
  end ++ omap segment_component segments.

(** [Path == Path] and [Path::starts_with]. *)
Definition path_eq (a b : string) : bool := bool_decide (components a = components b).
Definition path_starts_with (path base : string) : bool :=
  bool_decide (take (length (components base)) (components path) = components base).

(** ** Actions ([action.rs]) *)

Inductive SensitiveAction : Type :=
| FileRead (path : string)
| FileDelete (path : string)
| FileWriteOutsideSandbox (path : string)
| ExecuteCommand (command : string) (args : list string)
| NetworkRequest (capsule_id host : string) (port : N)
| TransmitData (destination data_type : string)
| FinancialTransaction (amount recipient : string)
| AccessControlChange (resource change : string)
| CapabilityGrant (resource_pattern : string) (permissions : list Permission)
| McpToolCall (server tool : string)
| CapsuleExecution (capsule_id capability : string)
| CapsuleHttpRequest (capsule_id url method : string)
| CapsuleFileAccess (capsule_id path : string) (mode : Permission)
| CapsuleNetBind (capsule_id : string).

Definition action_type (action : SensitiveAction) : string :=
  match action with
  | FileRead _ => "file_read"
  | FileDelete _ => "file_delete"
  | FileWriteOutsideSandbox _ => "file_write_outside_sandbox"
  | ExecuteCommand _ _ => "execute_command"
  | NetworkRequest _ _ _ => "network_request"
  | TransmitData _ _ => "transmit_data"
  | FinancialTransaction _ _ => "financial_transaction"
  | AccessControlChange _ _ => "access_control_change"
  | CapabilityGrant _ _ => "capability_grant"
  | McpToolCall _ _ => "mcp_tool_call"
  | CapsuleExecution _ _ => "capsule_execution"
  | CapsuleHttpRequest _ _ _ => "capsule_http_request"
  | CapsuleFileAccess _ _ _ => "capsule_file_access"
  | CapsuleNetBind _ => "capsule_net_bind"
  end.

(** ** Patterns ([allowance/pattern.rs]) *)

Inductive AllowancePattern : Type :=
| ExactTool (server tool : string)
| ServerTools (server : string)
| FilePattern (pattern : string) (permission : Permission)
| NetworkHost (capsule_id host : string) (ports : option (list N))
| CommandPattern (command : string)
| WorkspaceRelative (pattern : string) (permission : Permission)
| Custom (pattern : string)
| CapsuleCapability (capsule_id capability : string)
| CapsuleWildcard (capsule_id : string).

Definition path_in_workspace (path : string) (workspace_root : option string) : bool :=
  match workspace_root with
  | None => true
  | Some root => path_starts_with path root
  end.

Definition contains_shell_operators (cmd : string) : bool :=
  contains_char ";" cmd || contains_char "&" cmd || contains_str "&&" cmd || contains_str "||" cmd
  || contains_char "|" cmd || contains_str "$(" cmd || contains_char "`" cmd || contains_char "010" cmd
  || contains_char ">" cmd || contains_char "<" cmd.

(** [args.join(" ")]. *)
Fixpoint join (sep : string) (l : list string) : string :=
  match l with
  | [] => ""
  | [x] => x
  | x :: rest => x +:+ sep +:+ join sep rest
  end.

Definition full_command (command : string) (args : list string) : string :=
  match args with
  | [] => command
  | _ => command +:+ " " +:+ join " " args
  end.

(** The name a file access goes by in [CapsuleCapability]. *)
Definition file_capability (mode : Permission) : option string :=
  match mode with
  | Read => Some "file_read"
  | Write => Some "file_write"
  | Delete => Some "file_delete"
  | _ => None
  end.

(** The arms of [matches] for patterns tied to a capsule's own actions. *)
Definition capsule_pattern_matches (p : AllowancePattern) (action : SensitiveAction) : bool :=
  match p, action with
  | CapsuleCapability capsule_id capability, CapsuleExecution capsule_id' capability' =>
      String.eqb capsule_id capsule_id' && String.eqb capability capability'
  | CapsuleCapability capsule_id capability, CapsuleHttpRequest capsule_id' _ _ =>
      String.eqb capsule_id capsule_id' && String.eqb capability "http_request"
  | CapsuleCapability capsule_id capability, CapsuleFileAccess capsule_id' _ mode =>
      String.eqb capsule_id capsule_id' && bool_decide (Some capability = file_capability mode)
  | CapsuleWildcard capsule_id, (CapsuleExecution capsule_id' _ | CapsuleHttpRequest capsule_id' _ _
                                | CapsuleFileAccess capsule_id' _ _) => String.eqb capsule_id capsule_id'
  | _, _ => false
  end.

Section Patterns.
  Context `{Globset}.

Definition matches_file_glob (pattern path : string) : bool :=
  if existsb (fun c => bool_decide (c = ParentDir)) (components path) then false
  else match Glob_new pattern with
       | Ok glob => is_match glob path
       | Err _ => false
       end.

Definition command_matches (pattern : string) (full_cmd : string) : bool :=
  if contains_shell_operators full_cmd then false
  else if matches_file_glob pattern full_cmd then true
  else match strip_suffix " *" pattern with
       | Some prefix => String.eqb full_cmd prefix
       | None => false
       end.

Definition AllowancePattern_matches (p : AllowancePattern) (action : SensitiveAction)
    (workspace_root : option string) : bool :=
  match p, action with
  | ExactTool server tool, McpToolCall server' tool' => String.eqb server server' && String.eqb tool tool'
  | ServerTools server, McpToolCall server' _ => String.eqb server server'
  | FilePattern pattern Delete, FileDelete path
  | FilePattern pattern Write, FileWriteOutsideSandbox path
  | FilePattern pattern Read, FileRead path => matches_file_glob pattern path
  | WorkspaceRelative pattern Delete, FileDelete path
  | WorkspaceRelative pattern Write, FileWriteOutsideSandbox path
  | WorkspaceRelative pattern Read, FileRead path =>
      path_in_workspace path workspace_root && matches_file_glob pattern path
  | NetworkHost capsule_id host ports, NetworkRequest capsule_id' host' port =>
      String.eqb capsule_id capsule_id' && String.eqb host host'
      && match ports with None => true | Some allowed => bool_decide (port ∈ allowed) end
  | WorkspaceRelative pattern Invoke, McpToolCall server tool =>
      bool_decide (is_Some workspace_root) && matches_file_glob pattern (server +:+ "/" +:+ tool)
  | WorkspaceRelative pattern Execute, ExecuteCommand command args =>
      let full_cmd := full_command command args in
      bool_decide (is_Some workspace_root) && negb (contains_shell_operators full_cmd)
      && matches_file_glob pattern full_cmd
  | CommandPattern pattern, ExecuteCommand command args => command_matches pattern (full_command command args)
  | _, _ => capsule_pattern_matches p action
  end.
End Patterns.

(** ** Allowances ([allowance/mod.rs]) *)

Record Allowance : Type := MkAllowance {
  al_id : Uuid;
  al_principal : PrincipalId;
  al_action_pattern : AllowancePattern;
  al_created_at : Timestamp;
  al_expires_at : option Timestamp;
  al_max_uses : option N;
  al_uses_remaining : option N;
  al_session_only : bool;
  al_workspace_root : option string;
  al_signature : Signature;
}.

Definition with_uses (a : Allowance) (uses : option N) : Allowance :=
  MkAllowance (al_id a) (al_principal a) (al_action_pattern a) (al_created_at a) (al_expires_at a)
    (al_max_uses a) uses (al_session_only a) (al_workspace_root a) (al_signature a).

Definition allowance_is_expired (now : Timestamp) (a : Allowance) : bool :=
  match al_expires_at a with Some t => (t <? now)%Z | None => false end.

Definition has_uses_remaining (a : Allowance) : bool :=
  match al_uses_remaining a with None => true | Some r => (0 <? r)%N end.

Definition allowance_is_valid (now : Timestamp) (a : Allowance) : bool :=
  negb (allowance_is_expired now a) && has_uses_remaining a.

(** ** The store ([allowance/store.rs]) *)

(** What a storage error says. *)
Inductive StorageFault : Type :=
| PrincipalRetiring (principal : PrincipalId)
| NoAllowancesFor (principal : PrincipalId) (allowance_id : Uuid)
| AllowanceNotFound (allowance_id : Uuid)
| ResolutionNotFound (id : Uuid).

(** [error.rs]. *)
Inductive ApprovalError : Type :=
| ApprovalDenied (reason : string)
| ApprovalTimeout (timeout_ms : N)
| ApprovalDeferred
| PolicyBlocked (tool reason : string)
| ApprovalStorage (fault : StorageFault)
| ApprovalInternal (reason : string)
| ApprovalAuditFailed (reason : string).

Abbreviation ApprovalResult A := (result A ApprovalError).

(** The order in which a principal's allowances are iterated. *)
Class AllowanceIteration : Type := { iter_allowances : gmap Uuid Allowance -> list Allowance }.
Class AllowanceIterationLaws `{AllowanceIteration} : Prop := {
  iter_allowances_perm m : iter_allowances m ≡ₚ (map_to_list m).*2;
}.

Record AllowanceStore : Type := MkAllowanceStore {
  retiring : gset PrincipalId;
  allowances : gmap PrincipalId (gmap Uuid Allowance);
}.

Definition AllowanceStore_new : AllowanceStore := MkAllowanceStore ∅ ∅.

Definition with_allowances (st : AllowanceStore) (m : gmap PrincipalId (gmap Uuid Allowance)) : AllowanceStore :=
  MkAllowanceStore (retiring st) m.

(** [store.entry(principal).or_default().insert(id, allowance)]. *)
Definition insert_allowance (a : Allowance) (m : gmap PrincipalId (gmap Uuid Allowance))
    : gmap PrincipalId (gmap Uuid Allowance) :=
  <[al_principal a := <[al_id a := a]> (default ∅ (m !! al_principal a))]> m.

(** [store.retain(|_, m| !m.is_empty())]. *)
Definition drop_empty (m : gmap PrincipalId (gmap Uuid Allowance)) : gmap PrincipalId (gmap Uuid Allowance) :=
  filter (fun '(_, inner) => inner <> ∅) m.

Definition retain (keep : Allowance -> bool) (m : gmap Uuid Allowance) : gmap Uuid Allowance :=
  filter (fun '(_, a) => keep a = true) m.

Definition add_allowance (a : Allowance) : eff AllowanceStore ApprovalError unit :=
  fun st =>
  if bool_decide (al_principal a ∈ retiring st)
  then (st, Err (ApprovalStorage (PrincipalRetiring (al_principal a))))
  else (with_allowances st (insert_allowance a (allowances st)), Ok tt).

(** The remaining uses after one more. *)
Definition consumed (a : Allowance) : Allowance := with_uses a ((fun r => sat_sub r 1) <$> al_uses_remaining a).

Definition consume_use (principal : PrincipalId) (allowance_id : Uuid) : eff AllowanceStore ApprovalError bool :=
  fun st =>
  match allowances st !! principal with
  | None => (st, Err (ApprovalStorage (NoAllowancesFor principal allowance_id)))
  | Some inner =>
      match inner !! allowance_id with
      | None => (st, Err (ApprovalStorage (AllowanceNotFound allowance_id)))
      | Some a =>
          (with_allowances st (<[principal := <[allowance_id := consumed a]> inner]> (allowances st)),
           Ok (has_uses_remaining (consumed a)))
      end
  end.

Definition cleanup_expired_allowances (now : Timestamp) (st : AllowanceStore) : AllowanceStore * N :=
  let kept := retain (fun a => negb (allowance_is_expired now a)) <$> allowances st in
  let removed := map_fold (fun p inner n =>
    sat_add USIZE_MAX n (sat_sub (N.of_nat (size inner)) (N.of_nat (size (default ∅ (kept !! p)))))) 0%N (allowances st) in
  (with_allowances st (drop_empty kept), removed).

Definition clear_session_allowances (principal : PrincipalId) (st : AllowanceStore) : AllowanceStore :=
  match allowances st !! principal with
  | None => st
  | Some inner =>
      let inner' := retain (fun a => negb (al_session_only a)) inner in
      with_allowances st (if bool_decide (inner' = ∅) then delete principal (allowances st)
                          else <[principal := inner']> (allowances st))
  end.

Definition clear_for_principal (principal : PrincipalId) (st : AllowanceStore) : AllowanceStore :=
  with_allowances st (delete principal (allowances st)).

Definition begin_allowance_retirement (principal : PrincipalId) (st : AllowanceStore) : AllowanceStore :=
  MkAllowanceStore ({[principal]} ∪ retiring st) (delete principal (allowances st)).

Definition finish_allowance_retirement (principal : PrincipalId) (st : AllowanceStore) : AllowanceStore :=
  MkAllowanceStore (retiring st ∖ {[principal]}) (allowances st).

Definition clear_all_session_allowances (st : AllowanceStore) : AllowanceStore :=
  with_allowances st (drop_empty (retain (fun a => negb (al_session_only a)) <$> allowances st)).

Definition count_for (principal : PrincipalId) (st : AllowanceStore) : nat :=
  match allowances st !! principal with None => 0 | Some inner => size inner end.

Definition count (st : AllowanceStore) : nat := map_fold (fun _ inner n => size inner + n) 0 (allowances st).

Definition import_allowances (now : Timestamp) (l : list Allowance) (st : AllowanceStore) : AllowanceStore :=
  with_allowances st (List.fold_left
    (fun m a => if allowance_is_valid now a then insert_allowance a m else m) l (allowances st)).

Section Store.
  Context `{Globset} `{AllowanceIteration}.

Definition allowance_matches (now : Timestamp) (action : SensitiveAction) (workspace_root : option string)
    (a : Allowance) : bool :=
  if negb (allowance_is_valid now a) then false
  else if match al_workspace_root a with
          | Some ws => negb (match workspace_root with Some root => path_eq root ws | None => false end)
          | None => false
          end then false
  else AllowancePattern_matches (al_action_pattern a) action workspace_root.

Definition find_matching (now : Timestamp) (principal : PrincipalId) (action : SensitiveAction)
    (workspace_root : option string) (st : AllowanceStore) : option Allowance :=
  if bool_decide (principal ∈ retiring st) then None
  else
    inner ← allowances st !! principal;
    List.find (allowance_matches now action workspace_root) (iter_allowances inner).

(** The clock is read by the retain pass ([now]) and again by the search. *)
Definition find_matching_and_consume (now now' : Timestamp) (principal : PrincipalId) (action : SensitiveAction)
    (workspace_root : option string) (st : AllowanceStore) : AllowanceStore * option Allowance :=
  if bool_decide (principal ∈ retiring st) then (st, None)
  else match allowances st !! principal with
  | None => (st, None)
  | Some inner =>
      let live := retain (fun a => negb (allowance_is_expired now a)) inner in
      let cleaned := with_allowances st (<[principal := live]> (allowances st)) in
      match List.find (allowance_matches now' action workspace_root) (iter_allowances live) with
      | None => (cleaned, None)
      | Some found =>
          match live !! al_id found with
          | None => (cleaned, None)
          | Some a =>
              (with_allowances st (<[principal := <[al_id found := consumed a]> live]> (allowances st)), Some a)
          end
      end
  end.

Definition export_session_allowances (now : Timestamp) (principal : PrincipalId) (st : AllowanceStore)
    : list Allowance :=
  match allowances st !! principal with
  | None => []
  | Some inner => List.filter (fun a => al_session_only a && allowance_is_valid now a) (iter_allowances inner)
  end.

Definition export_workspace_allowances (now : Timestamp) (principal : PrincipalId) (st : AllowanceStore)
    : list Allowance :=
  match allowances st !! principal with
  | None => []
  | Some inner =>
      List.filter (fun a => negb (al_session_only a) && bool_decide (is_Some (al_workspace_root a))
                            && allowance_is_valid now a) (iter_allowances inner)
  end.
End Store.

(** ** What a pattern can cover *)

Lemma path_starts_with_spec path base :
  path_starts_with path base = true <-> exists rest, components path = components base ++ rest.
Proof.
  unfold path_starts_with. rewrite bool_decide_eq_true. split.
  - intros Ht. exists (drop (length (components base)) (components path)).
    by rewrite <- Ht at 1; rewrite take_drop.
  - intros [rest ->]. apply take_app_length.
Qed.

(** The characters that chain or redirect shell commands. *)
Definition shell_operators : list ascii := [";"; "&"; "|"; "`"; "010"; ">"; "<"]%char.

Lemma no_shell_operators cmd :
  contains_shell_operators cmd = false ->
  contains_str "$(" cmd = false /\ Forall (fun op => contains_char op cmd = false) shell_operators.
Proof.
  unfold contains_shell_operators. rewrite !orb_false_iff. intros Hops. destruct_and! Hops.
  split; [done|]. by repeat constructor.
Qed.

(** The capsule a pattern is tied to. *)
Definition pattern_capsule (p : AllowancePattern) : option string :=
  match p with
  | NetworkHost capsule_id _ _ | CapsuleCapability capsule_id _ | CapsuleWildcard capsule_id => Some capsule_id
  | _ => None
  end.

Section Coverage.
  Context `{Globset}.

Lemma matches_file_glob_true pattern path :
  matches_file_glob pattern path = true ->
  (ParentDir ∉ components path) /\ exists glob, Glob_new pattern = Ok glob /\ is_match glob path = true.
Proof.
  unfold matches_file_glob. destruct (existsb _ _) eqn:He; [done|]. intros Hm. split.
  - intros Hin. apply not_true_iff_false in He. apply He, existsb_exists.
    exists ParentDir. split; [by apply list_elem_of_In|by apply bool_decide_eq_true].
  - destruct (Glob_new pattern) as [glob|]; [eauto|done].
Qed.

Lemma command_matches_true pattern full_cmd :
  command_matches pattern full_cmd = true -> contains_shell_operators full_cmd = false.
Proof. unfold command_matches. by destruct (contains_shell_operators full_cmd). Qed.

(** What any pattern that matches an action guarantees about the action. *)
Definition confined (p : AllowancePattern) (action : SensitiveAction) (workspace_root : option string) : Prop :=
  match action with
  | FileRead path | FileDelete path | FileWriteOutsideSandbox path =>
      (ParentDir ∉ components path) /\
      (forall pattern permission root, p = WorkspaceRelative pattern permission -> workspace_root = Some root ->
         exists rest, components path = components root ++ rest)
  | ExecuteCommand command args =>
      contains_str "$(" (full_command command args) = false /\
      Forall (fun op => contains_char op (full_command command args) = false) shell_operators
  | NetworkRequest capsule_id _ _ | CapsuleExecution capsule_id _ | CapsuleHttpRequest capsule_id _ _
  | CapsuleFileAccess capsule_id _ _ => pattern_capsule p = Some capsule_id
  | McpToolCall _ _ => pattern_capsule p = None
  | TransmitData _ _ | FinancialTransaction _ _ | AccessControlChange _ _ | CapabilityGrant _ _
  | CapsuleNetBind _ => False
  end.

(** A pattern only covers what it may: a file without [..] in its path and,
    for a workspace pattern, under the workspace; a command without shell
    operators; an action of the one capsule it names.  Transmissions,
    payments, access-control changes, capability grants and listening sockets
    are never covered in advance. *)
Theorem allowance_confinement p action workspace_root :
  AllowancePattern_matches p action workspace_root = true -> confined p action workspace_root.
Proof.
  unfold AllowancePattern_matches, capsule_pattern_matches, confined.
  destruct action, p as [s t|s|pat perm|c h ports|cmd|pat perm|pat|c cap|c]; try done;
    try (destruct perm; try done).
  all: rewrite ?andb_true_iff, ?String.eqb_eq, ?negb_true_iff; intros Hm;
    repeat match goal with Hm : _ /\ _ |- _ => destruct Hm as [Hm ?] end; subst; try done.
  all: try (by apply no_shell_operators; first [done|apply (command_matches_true cmd)]).
  all: match goal with Hm : matches_file_glob _ _ = true |- _ => apply matches_file_glob_true in Hm as [Hup _] end.
  all: split; [done|]; intros ??? Hp Hroot; simplify_eq/=; by apply path_starts_with_spec.
Qed.
End Coverage.

(** ** What each operation does to one allowance *)

Definition stored (st : AllowanceStore) (p : PrincipalId) (id : Uuid) : option Allowance :=
  allowances st !! p ≫= fun inner => inner !! id.

(** Every allowance is filed under its own principal and id. *)
Definition keyed (st : AllowanceStore) : Prop :=
  forall p id a, stored st p id = Some a -> al_principal a = p /\ al_id a = id.

Definition in_map (m : gmap PrincipalId (gmap Uuid Allowance)) (p : PrincipalId) (id : Uuid) : option Allowance :=
  m !! p ≫= fun inner => inner !! id.

Lemma stored_in_map st p id : stored st p id = in_map (allowances st) p id.
Proof. done. Qed.

Lemma in_map_Some m p id a :
  in_map m p id = Some a <-> exists inner, m !! p = Some inner /\ inner !! id = Some a.
Proof. unfold in_map. by rewrite bind_Some. Qed.

Lemma in_map_insert m q inner p id :
  in_map (<[q := inner]> m) p id = if bool_decide (p = q) then inner !! id else in_map m p id.
Proof.
  unfold in_map. case_bool_decide as Hp; [subst; by rewrite lookup_insert_eq|by rewrite lookup_insert_ne].
Qed.

Lemma in_map_insert_allowance a m p id :
  in_map (insert_allowance a m) p id
  = if bool_decide (p = al_principal a /\ id = al_id a) then Some a else in_map m p id.
Proof.
  unfold insert_allowance. rewrite in_map_insert. case_bool_decide as Hp; [subst p|].
  - rewrite lookup_insert. unfold in_map. case_decide as Hid; [subst; by rewrite bool_decide_true|].
    rewrite bool_decide_false by naive_solver.
    destruct (m !! al_principal a); simpl; [done|apply lookup_empty].
  - by rewrite bool_decide_false by naive_solver.
Qed.

Lemma in_map_delete m q p id :
  in_map (delete q m) p id = if bool_decide (p = q) then None else in_map m p id.
Proof.
  unfold in_map. case_bool_decide as Hp; [subst; by rewrite lookup_delete_eq|by rewrite lookup_delete_ne].
Qed.

Lemma in_map_drop_empty m p id : in_map (drop_empty m) p id = in_map m p id.
Proof.
  unfold in_map, drop_empty. rewrite map_lookup_filter.
  destruct (m !! p) as [inner|] eqn:Hm; [|done]. simpl.
  destruct (decide (inner = ∅)) as [->|Hne].
  - rewrite option_guard_False; [by rewrite lookup_empty|]. naive_solver.
  - by rewrite option_guard_True.
Qed.

Lemma retain_lookup keep m id :
  retain keep m !! id = a ← m !! id; if keep a then Some a else None.
Proof.
  unfold retain. rewrite map_lookup_filter. destruct (m !! id) as [a|]; [|done]. simpl.
  destruct (keep a) eqn:Hk; [by rewrite option_guard_True|]. rewrite option_guard_False; [done|congruence].
Qed.

Lemma in_map_retain keep m p id :
  in_map (retain keep <$> m) p id = a ← in_map m p id; if keep a then Some a else None.
Proof.
  unfold in_map. rewrite lookup_fmap. destruct (m !! p) as [inner|]; [|done]. simpl. apply retain_lookup.
Qed.

Lemma stored_add a st st' p id :
  add_allowance a st = (st', Ok tt) ->
  stored st' p id = if bool_decide (p = al_principal a /\ id = al_id a) then Some a else stored st p id.
Proof.
  unfold add_allowance. case_bool_decide; [done|]. intros [= <-]. apply in_map_insert_allowance.
Qed.

Lemma stored_clear_session q st p id :
  stored (clear_session_allowances q st) p id
  = if bool_decide (p = q) then a ← stored st p id; if al_session_only a then None else Some a else stored st p id.
Proof.
  unfold clear_session_allowances. rewrite !stored_in_map. destruct (allowances st !! q) as [inner|] eqn:Hq.
  2: { case_bool_decide; [subst|done]. unfold in_map. by rewrite Hq. }
  set (inner' := retain _ inner).
  assert (inner' !! id = a ← in_map (allowances st) q id; if al_session_only a then None else Some a) as Hin.
  { unfold inner'. rewrite retain_lookup. unfold in_map. rewrite Hq. simpl.
    destruct (inner !! id) as [a|]; [|done]. simpl. by destruct (al_session_only a). }
  simpl. case_bool_decide as He; rewrite ?in_map_delete, ?in_map_insert; case_bool_decide as Hp; try done; subst p.
  - by rewrite <- Hin, He, lookup_empty.
  - exact Hin.
Qed.

Lemma stored_consume_use q i st st' b p id :
  consume_use q i st = (st', Ok b) ->
  exists a, stored st q i = Some a /\
    stored st' p id = if bool_decide (p = q /\ id = i) then Some (consumed a) else stored st p id.
Proof.
  unfold consume_use. destruct (allowances st !! q) as [inner|] eqn:Hq; [|done].
  destruct (inner !! i) as [a|] eqn:Hi; [|done]. intros [= <- <-]. exists a.
  split; [apply in_map_Some; eauto|].
  rewrite !stored_in_map. simpl. rewrite in_map_insert. case_bool_decide as Hp; [subst p|].
  - rewrite lookup_insert. case_decide as Hid; [subst; by rewrite bool_decide_true|].
    rewrite bool_decide_false by naive_solver. unfold in_map. by rewrite Hq.
  - by rewrite bool_decide_false by naive_solver.
Qed.

Section Finding.
  Context `{Globset} `{AllowanceIterationLaws}.

Lemma elem_of_iter m a : a ∈ iter_allowances m <-> exists id, m !! id = Some a.
Proof.
  rewrite iter_allowances_perm, list_elem_of_fmap. split.
  - intros ([id b] & -> & Hin). exists id. by apply elem_of_map_to_list.
  - intros [id Hid]. exists (id, a). split; [done|]. by apply elem_of_map_to_list.
Qed.

Lemma find_iter_Some f m a : List.find f (iter_allowances m) = Some a -> f a = true /\ exists id, m !! id = Some a.
Proof. intros [Hin Hf]%find_some. split; [done|]. by apply elem_of_iter, list_elem_of_In. Qed.

Lemma find_iter_None f m id a : List.find f (iter_allowances m) = None -> m !! id = Some a -> f a = false.
Proof. intros Hn Hid. apply (find_none _ _ Hn), list_elem_of_In, elem_of_iter. eauto. Qed.

Lemma allowance_matches_spec now action ws a :
  allowance_matches now action ws a = true <->
  allowance_is_expired now a = false /\ has_uses_remaining a = true /\
  (forall scope, al_workspace_root a = Some scope -> exists root, ws = Some root /\ components root = components scope) /\
  AllowancePattern_matches (al_action_pattern a) action ws = true.
Proof.
  unfold allowance_matches, allowance_is_valid, path_eq.
  destruct (allowance_is_expired now a), (has_uses_remaining a); simpl; try naive_solver.
  destruct (al_workspace_root a) as [scope|]; [|naive_solver].
  destruct ws as [root|]; simpl; [|naive_solver].
  case_bool_decide; simpl; naive_solver.
Qed.

(** What [find_matching_and_consume] leaves of the allowance [(q, id)]. *)
Definition after_consume (now : Timestamp) (p : PrincipalId) (used : option Allowance) (q : PrincipalId) (id : Uuid)
    (old : option Allowance) : option Allowance :=
  if bool_decide (q = p)
  then a ← old; if allowance_is_expired now a then None
                else if bool_decide (al_id <$> used = Some id) then Some (consumed a) else Some a
  else old.

Lemma live_lookup now st p inner id :
  allowances st !! p = Some inner ->
  retain (fun a => negb (allowance_is_expired now a)) inner !! id
  = a ← stored st p id; if allowance_is_expired now a then None else Some a.
Proof.
  intros Hp. rewrite retain_lookup. unfold stored. rewrite Hp. simpl.
  destruct (inner !! id) as [a|]; [|done]. simpl. by destruct (allowance_is_expired now a).
Qed.

Lemma consume_insert now p st inner' used q id :
  (forall i, inner' !! i = after_consume now p used p i (stored st p i)) ->
  stored (with_allowances st (<[p := inner']> (allowances st))) q id = after_consume now p used q id (stored st q id).
Proof.
  intros Hin. rewrite stored_in_map. simpl. rewrite in_map_insert. case_bool_decide as Hq; [by subst|].
  unfold after_consume. by rewrite bool_decide_false.
Qed.

Lemma find_consume_Some now now' p action ws st st' a :
  keyed st -> find_matching_and_consume now now' p action ws st = (st', Some a) ->
  (p ∉ retiring st) /\ stored st p (al_id a) = Some a /\ al_principal a = p /\
  allowance_is_expired now a = false /\ allowance_matches now' action ws a = true /\
  (forall q id, stored st' q id = after_consume now p (Some a) q id (stored st q id)) /\ retiring st' = retiring st.
Proof.
  intros Hk. unfold find_matching_and_consume. case_bool_decide as Hr; [done|].
  destruct (allowances st !! p) as [inner|] eqn:Hp; [|done].
  pose proof (fun id => live_lookup now st p inner id Hp) as Hlive. set (live := retain _ inner) in *.
  destruct (List.find _ _) as [f|] eqn:Hf; [|done].
  destruct (find_iter_Some _ _ _ Hf) as [Hm [id Hid]].
  pose proof Hid as Hs. rewrite Hlive in Hs. apply bind_Some in Hs as (b & Hs & Hb).
  destruct (allowance_is_expired now b) eqn:He; [done|]. injection Hb as ->.
  destruct (Hk _ _ _ Hs) as [Hpa Hia]. rewrite Hia, Hid. intros [= <- <-]. rewrite Hia. split_and!; try done.
  intros q id'. apply consume_insert. intros i. unfold after_consume. rewrite bool_decide_true by done.
  change (al_id <$> Some f) with (Some (al_id f)). rewrite Hia, lookup_insert, Hlive.
  case_decide as Hi; [subst i|].
  - rewrite Hs. simpl. by rewrite He, bool_decide_true.
  - rewrite (bool_decide_false (Some id = Some i)) by congruence. done.
Qed.

Lemma find_consume_None now now' p action ws st st' :
  find_matching_and_consume now now' p action ws st = (st', None) -> keyed st ->
  (p ∈ retiring st \/ forall id a, stored st p id = Some a -> allowance_is_expired now a = false ->
     allowance_matches now' action ws a = false) /\
  ((p ∉ retiring st) -> forall q id, stored st' q id = after_consume now p None q id (stored st q id)) /\
  retiring st' = retiring st.
Proof.
  unfold find_matching_and_consume. case_bool_decide as Hr; [intros [= <-]; naive_solver|].
  destruct (allowances st !! p) as [inner|] eqn:Hp.
  2: { intros [= <-] _. assert (forall id, stored st p id = None) as Hn by (intros; unfold stored; by rewrite Hp).
       split_and!; [right; intros; congruence| |done].
       intros _ q id. unfold after_consume. case_bool_decide; [subst; by rewrite Hn|done]. }
  pose proof (fun id => live_lookup now st p inner id Hp) as Hlive. set (live := retain _ inner) in *.
  destruct (List.find _ _) as [f|] eqn:Hf.
  - destruct (find_iter_Some _ _ _ Hf) as [Hm [id Hid]]. intros Heq Hk.
    assert (al_id f = id) as Hia; [|by rewrite Hia, Hid in Heq].
    rewrite Hlive in Hid. apply bind_Some in Hid as (b & Hs & Hb).
    destruct (allowance_is_expired now b); [done|]. injection Hb as ->. by destruct (Hk _ _ _ Hs).
  - intros [= <-] _. split_and!; [right| |done].
    + intros id a Hs He. apply (find_iter_None _ live id a Hf). rewrite Hlive, Hs. simpl. by rewrite He.
    + intros _ q id. apply consume_insert. intros i. unfold after_consume.
      rewrite bool_decide_true, Hlive by done. done.
Qed.

(** The lookup the host consults is exact.  It returns an allowance
    exactly when the principal is not being retired and holds one that is not
    expired, has uses left, is for the current workspace and covers the
    action; it returns one of these, takes one use from it, drops the
    principal's expired allowances and touches nothing else. *)
Theorem find_consume_exact now now' p action ws st st' used :
  keyed st -> find_matching_and_consume now now' p action ws st = (st', used) ->
  (forall a, used = Some a ->
     stored st p (al_id a) = Some a /\ al_principal a = p /\ allowance_is_expired now a = false /\
     allowance_matches now' action ws a = true) /\
  (used = None <-> p ∈ retiring st \/
     forall id a, stored st p id = Some a -> allowance_is_expired now a = false ->
       allowance_matches now' action ws a = false) /\
  ((p ∉ retiring st) -> forall q id, stored st' q id = after_consume now p used q id (stored st q id)) /\
  retiring st' = retiring st.
Proof.
  intros Hk Hfind. destruct used as [a|].
  - destruct (find_consume_Some _ _ _ _ _ _ _ _ Hk Hfind) as (Hr & Hs & Hp & He & Hm & Hst & Hret).
    split_and!; [by intros ? [= <-]| |by intros _|done].
    split; [done|]. intros [?|Hno]; [done|]. by rewrite (Hno _ _ Hs He) in Hm.
  - destruct (find_consume_None _ _ _ _ _ _ _ Hfind Hk) as (Hno & Hst & Hret). by split_and!.
Qed.
End Finding.

(** ** Histories of a store *)

Inductive allowance_event : Type :=
| Granted (principal : PrincipalId) (id : Uuid)
| Inserted (l : list Allowance)
| Released (principal : PrincipalId)
| Quiet.

Section Machine.
  Context `{Globset} `{AllowanceIterationLaws}.

(** One call of the store.  Every call runs under the store's locks. *)
Inductive allowance_step : AllowanceStore -> allowance_event -> AllowanceStore -> Prop :=
| as_add st a st' : add_allowance a st = (st', Ok tt) -> allowance_step st (Inserted [a]) st'
| as_granted st now now' p action ws a st' :
    find_matching_and_consume now now' p action ws st = (st', Some a) -> allowance_step st (Granted p (al_id a)) st'
| as_refused st now now' p action ws st' :
    find_matching_and_consume now now' p action ws st = (st', None) -> allowance_step st Quiet st'
| as_consume st p id st' b : consume_use p id st = (st', Ok b) -> allowance_step st Quiet st'
| as_cleanup st now : allowance_step st Quiet (cleanup_expired_allowances now st).1
| as_clear_session st p : allowance_step st Quiet (clear_session_allowances p st)
| as_clear st p : allowance_step st Quiet (clear_for_principal p st)
| as_clear_all st : allowance_step st Quiet (clear_all_session_allowances st)
| as_begin st p : allowance_step st Quiet (begin_allowance_retirement p st)
| as_finish st p : allowance_step st (Released p) (finish_allowance_retirement p st)
| as_import st now l : allowance_step st (Inserted l) (import_allowances now l st).

Inductive allowance_run : AllowanceStore -> list allowance_event -> AllowanceStore -> Prop :=
| ar_nil st : allowance_run st [] st
| ar_cons st ev st1 evs st2 : allowance_step st ev st1 -> allowance_run st1 evs st2 -> allowance_run st (ev :: evs) st2.

(** *** What a step leaves of one allowance *)

(** The entry is gone, kept, used once, or was inserted. *)
Inductive entry_change (ev : allowance_event) (p : PrincipalId) (id : Uuid)
    : option Allowance -> option Allowance -> Prop :=
| ec_gone old : entry_change ev p id old None
| ec_kept old : entry_change ev p id old old
| ec_used a : entry_change ev p id (Some a) (Some (consumed a))
| ec_inserted old l a :
    ev = Inserted l -> a ∈ l -> al_principal a = p -> al_id a = id -> entry_change ev p id old (Some a).

Lemma entry_retain ev p id keep m :
  entry_change ev p id (in_map m p id) (in_map (retain keep <$> m) p id).
Proof. rewrite in_map_retain. destruct (in_map m p id) as [a|]; simpl; [destruct (keep a)|]; constructor. Qed.

Lemma entry_after_consume ev now q used p id old : entry_change ev p id old (after_consume now q used p id old).
Proof.
  unfold after_consume. case_bool_decide; [|constructor]. destruct old as [a|]; simpl; [|constructor].
  destruct (allowance_is_expired now a); [constructor|]. case_bool_decide; constructor.
Qed.

Lemma in_map_import now l m p id :
  entry_change (Inserted l) p id (in_map m p id)
    (in_map (List.fold_left (fun m a => if allowance_is_valid now a then insert_allowance a m else m) l m) p id).
Proof.
  assert (forall l', (forall a, a ∈ l -> a ∈ l') -> forall m0, entry_change (Inserted l') p id (in_map m0 p id) (in_map m p id) ->
    entry_change (Inserted l') p id (in_map m0 p id)
      (in_map (List.fold_left (fun m a => if allowance_is_valid now a then insert_allowance a m else m) l m) p id)) as Hgen.
  2: { apply Hgen; [done|constructor]. }
  intros l'. revert m. induction l as [|a l IH]; intros m Hsub m0 Hm; simpl; [done|].
  apply IH; [set_solver|]. destruct (allowance_is_valid now a); [|done].
  rewrite in_map_insert_allowance. case_bool_decide as Ha; [|done]. destruct Ha as [-> ->].
  eapply ec_inserted; [done| |done..]. set_solver.
Qed.

Lemma step_entry st ev st' p id :
  keyed st -> allowance_step st ev st' -> entry_change ev p id (stored st p id) (stored st' p id).
Proof.
  intros Hk Hstep. destruct Hstep as [st a st' Hadd|st now now' q action ws a st' Hf|st now now' q action ws st' Hf
    |st q i st' b Hc| | | | | | |]; rewrite !stored_in_map; simpl.
  - rewrite <- !stored_in_map, (stored_add _ _ _ _ _ Hadd). case_bool_decide as Ha; [|constructor].
    destruct Ha as [-> ->]. by eapply ec_inserted; [|apply list_elem_of_singleton| |].
  - destruct (find_consume_Some _ _ _ _ _ _ _ _ Hk Hf) as (_ & _ & _ & _ & _ & Hst & _).
    rewrite <- !stored_in_map, Hst. apply entry_after_consume.
  - destruct (find_consume_None _ _ _ _ _ _ _ Hf Hk) as (_ & Hst & _). rewrite <- !stored_in_map.
    destruct (decide (q ∈ retiring st)) as [Hr|Hr]; [|rewrite Hst by done; apply entry_after_consume].
    unfold find_matching_and_consume in Hf. rewrite bool_decide_true in Hf by done. injection Hf as <-. constructor.
  - destruct (stored_consume_use _ _ _ _ _ p id Hc) as (a & Hs & Hst). rewrite <- !stored_in_map, Hst.
    case_bool_decide as Hq; [|constructor]. destruct Hq as [-> ->]. rewrite Hs. constructor.
  - rewrite in_map_drop_empty. apply entry_retain.
  - rewrite <- !stored_in_map, stored_clear_session. case_bool_decide; [|constructor].
    destruct (stored st p id) as [a|]; simpl; [destruct (al_session_only a)|]; constructor.
  - rewrite in_map_delete. case_bool_decide; constructor.
  - rewrite in_map_drop_empty. apply entry_retain.
  - rewrite in_map_delete. case_bool_decide; constructor.
  - constructor.
  - apply in_map_import.
Qed.

Lemma step_keyed st ev st' : keyed st -> allowance_step st ev st' -> keyed st'.
Proof.
  intros Hk Hstep p id a Ha. pose proof (step_entry st ev st' p id Hk Hstep) as Hc. rewrite Ha in Hc.
  inversion Hc; subst; try done; [by apply Hk|]. by apply (Hk p id a0).
Qed.

Lemma run_keyed st evs st' : keyed st -> allowance_run st evs st' -> keyed st'.
Proof. intros Hk Hrun. induction Hrun; [done|]. eauto using step_keyed. Qed.

(** *** Uses are conserved *)

(** The uses left of an allowance, and those a step can have brought in. *)
Definition uses_left (old : option Allowance) : N := default 0%N (old ≫= al_uses_remaining).
Definition uses_of (p : PrincipalId) (id : Uuid) (a : Allowance) : N :=
  if bool_decide (al_principal a = p /\ al_id a = id) then default 0%N (al_uses_remaining a) else 0%N.
Definition uses_inserted (p : PrincipalId) (id : Uuid) (ev : allowance_event) : N :=
  match ev with Inserted l => List.fold_right (fun a n => uses_of p id a + n)%N 0%N l | _ => 0%N end.
Definition grants_in (p : PrincipalId) (id : Uuid) (ev : allowance_event) : N :=
  match ev with Granted q i => if bool_decide (q = p /\ i = id) then 1 else 0 | _ => 0 end.
Definition total (f : allowance_event -> N) (evs : list allowance_event) : N :=
  List.fold_right (fun ev n => f ev + n)%N 0%N evs.

(** The allowance, as stored and as inserted, has a limited number of uses. *)
Definition limited_entry (old : option Allowance) : Prop := forall a, old = Some a -> is_Some (al_uses_remaining a).
Definition limited_event (p : PrincipalId) (id : Uuid) (ev : allowance_event) : Prop :=
  forall l a, ev = Inserted l -> a ∈ l -> al_principal a = p -> al_id a = id -> is_Some (al_uses_remaining a).

Lemma uses_inserted_elem p id l a :
  a ∈ l -> al_principal a = p -> al_id a = id -> (default 0 (al_uses_remaining a) <= uses_inserted p id (Inserted l))%N.
Proof.
  intros Hin Hp Hid. simpl. induction l as [|b l IH]; [by inversion Hin|]. simpl.
  apply elem_of_cons in Hin as [<-|Hin]; [|specialize (IH Hin); lia].
  unfold uses_of. rewrite bool_decide_true by done. lia.
Qed.

Lemma entry_uses ev p id old new :
  entry_change ev p id old new -> limited_entry old -> limited_event p id ev ->
  limited_entry new /\ (uses_left new <= uses_left old + uses_inserted p id ev)%N.
Proof.
  intros Hc Hl Hev. destruct Hc as [| old|a|old l a -> Hin Hp Hid]; unfold uses_left; simpl.
  - split; [done|lia].
  - split; [done|lia].
  - split; [|destruct (al_uses_remaining a); simpl; unfold sat_sub; lia].
    intros b [= <-]. simpl. destruct (Hl a eq_refl) as [r ->]. by eexists.
  - split; [intros b [= <-]; by eapply Hev|]. pose proof (uses_inserted_elem p id l a Hin Hp Hid). simpl in *. lia.
Qed.

Lemma step_uses st ev st' p id :
  keyed st -> allowance_step st ev st' -> limited_entry (stored st p id) -> limited_event p id ev ->
  limited_entry (stored st' p id) /\
  (grants_in p id ev + uses_left (stored st' p id) <= uses_left (stored st p id) + uses_inserted p id ev)%N.
Proof.
  intros Hk Hstep Hl Hev. destruct (entry_uses _ _ _ _ _ (step_entry st ev st' p id Hk Hstep) Hl Hev) as [Hl' Hle].
  split; [done|]. unfold grants_in. destruct ev as [q i| | |]; try lia. case_bool_decide as Hq; [|lia].
  destruct Hq as [-> ->]. inversion Hstep as [|? now now' ? action ws a ? Hf| | | | | | | | |]; subst.
  destruct (find_consume_Some _ _ _ _ _ _ _ _ Hk Hf) as (_ & Hs & _ & He & Hm & Hst & _).
  apply allowance_matches_spec in Hm as (_ & Hu & _). unfold has_uses_remaining in Hu.
  rewrite Hst, Hs. unfold after_consume, uses_left. rewrite bool_decide_true by done. simpl. rewrite He, bool_decide_true by done.
  destruct (Hl a Hs) as [r Hr]. simpl. rewrite Hr in *. simpl. unfold sat_sub. apply N.ltb_lt in Hu. lia.
Qed.

(** C26: An allowance is used no more often than it was granted for: over any
    history of the store, the actions it allowed plus the uses it has left are
    at most the uses it had at the start plus those brought in by adding or
    importing it again, whatever is consumed, cleaned up, cleared or retired
    in between. *)
Theorem allowance_uses_conserved st history st' p id :
  keyed st -> allowance_run st history st' ->
  limited_entry (stored st p id) -> Forall (limited_event p id) history ->
  (total (grants_in p id) history + uses_left (stored st' p id)
   <= uses_left (stored st p id) + total (uses_inserted p id) history)%N.
Proof.
  intros Hk Hrun Hl Hall. induction Hrun as [st|st ev st1 evs st2 Hstep Hrun IH]; simpl; [lia|].
  apply Forall_cons in Hall as [Hev Hall].
  destruct (step_uses _ _ _ p id Hk Hstep Hl Hev) as [Hl1 Hle].
  specialize (IH (step_keyed _ _ _ Hk Hstep) Hl1 Hall). lia.
Qed.

(** *** Retirement *)

Lemma retiring_import now l st : retiring (import_allowances now l st) = retiring st.
Proof. done. Qed.

Lemma step_retiring st ev st' p :
  keyed st -> allowance_step st ev st' -> ev <> Released p -> p ∈ retiring st -> p ∈ retiring st'.
Proof.
  intros Hk Hstep Hne Hin. destruct Hstep as [st a st' Hadd|st now now' q action ws a st' Hf|st now now' q action ws st' Hf
    |st q i st' b Hc| | | | | | |]; simpl; try done.
  - unfold add_allowance in Hadd. case_bool_decide; [done|]. by injection Hadd as <-.
  - destruct (find_consume_Some _ _ _ _ _ _ _ _ Hk Hf) as (_ & _ & _ & _ & _ & _ & Hret). by rewrite Hret.
  - destruct (find_consume_None _ _ _ _ _ _ _ Hf Hk) as (_ & _ & Hret). by rewrite Hret.
  - unfold consume_use in Hc. repeat case_match; try done. by injection Hc as <- <-.
  - unfold clear_session_allowances. by case_match.
  - set_solver.
  - assert (p0 <> p) by congruence. set_solver.
Qed.

(** The principal is fenced and holds nothing, unless something was imported. *)
Lemma run_fenced st evs st' p :
  keyed st -> allowance_run st evs st' -> Released p ∉ evs -> p ∈ retiring st ->
  p ∈ retiring st' /\
  ((forall l a, Inserted l ∈ evs -> a ∈ l -> al_principal a <> p) -> (forall id, stored st p id = None) ->
   forall id, stored st' p id = None).
Proof.
  intros Hk Hrun. induction Hrun as [st|st ev st1 evs st2 Hstep Hrun IH]; intros Hrel Hin; [done|].
  assert (ev <> Released p) as Hne by set_solver.
  destruct (IH (step_keyed _ _ _ Hk Hstep) ltac:(set_solver) (step_retiring _ _ _ _ Hk Hstep Hne Hin)) as [Hr Hnone].
  split; [done|]. intros Hins Hst. apply Hnone; [intros l a Hl; apply Hins; set_solver|].
  intros id. pose proof (step_entry st ev st1 p id Hk Hstep) as Hc. rewrite Hst in Hc.
  inversion Hc as [| | |old l a Hev Ha Hp Hid Heq Heq']; try done. exfalso.
  apply (Hins l a); [subst ev; by left|done..].
Qed.

(** Retiring a principal ends its allowances: from the moment the
    retirement begins until it is finished no action of the principal is
    allowed and no allowance can be added for it, and unless one was imported
    meanwhile the principal holds none when the retirement is finished. *)
Theorem retirement_fence st history st' p :
  keyed st -> allowance_run (begin_allowance_retirement p st) history st' -> Released p ∉ history ->
  (forall now now' action ws, find_matching_and_consume now now' p action ws st' = (st', None)) /\
  (forall now action ws, find_matching now p action ws st' = None) /\
  (forall a, al_principal a = p -> add_allowance a st' = (st', Err (ApprovalStorage (PrincipalRetiring p)))) /\
  ((forall l a, Inserted l ∈ history -> a ∈ l -> al_principal a <> p) ->
   forall id, stored (finish_allowance_retirement p st') p id = None).
Proof.
  intros Hk Hrun Hrel.
  assert (keyed (begin_allowance_retirement p st)) as Hk1 by (eapply step_keyed; [exact Hk|constructor]).
  destruct (run_fenced _ _ _ p Hk1 Hrun Hrel) as [Hr Hnone]; [simpl; set_solver|].
  split_and!.
  - intros. unfold find_matching_and_consume. by rewrite bool_decide_true.
  - intros. unfold find_matching. by rewrite bool_decide_true.
  - intros a <-. unfold add_allowance. by rewrite bool_decide_true.
  - intros Hins. apply Hnone; [done|]. intros id. rewrite stored_in_map. simpl. rewrite in_map_delete.
    by rewrite bool_decide_true.
Qed.
End Machine.

(** ** Examples *)
Module AllowanceExamples.

#[local] Existing Instance TokenExamples.toy_globset.

Definition by_key : AllowanceIteration := {| iter_allowances := fun m => (map_to_list m).*2 |}.
#[local] Existing Instance by_key.

#[local] Instance by_key_laws : AllowanceIterationLaws.
Proof. split. intros m. reflexivity. Qed.

Definition alice : PrincipalId := MkPrincipalId "alice".
Definition noon : Timestamp := 1700000000000000000%Z.

(** A command allowance for [uses] uses in the workspace [/ws]. *)
Definition push_allowance (uses : option N) : Allowance :=
  MkAllowance (int_array 16 1) alice (CommandPattern "git push *") noon None uses uses true (Some "/ws") (zero_array 64).

Definition push : SensitiveAction := ExecuteCommand "git" ["push"; "origin"].
Definition holding (uses : option N) : AllowanceStore := (add_allowance (push_allowance uses) AllowanceStore_new).1.
Definition use (st : AllowanceStore) : AllowanceStore * option Allowance :=
  find_matching_and_consume noon noon alice push (Some "/ws/") st.

Lemma new_keyed : keyed AllowanceStore_new.
Proof. intros p id a Ha. unfold stored in Ha. simpl in Ha. by rewrite lookup_empty in Ha. Qed.

Lemma holding_add uses : add_allowance (push_allowance uses) AllowanceStore_new = (holding uses, Ok tt).
Proof. reflexivity. Qed.

Lemma holding_keyed uses : keyed (holding uses).
Proof. apply (step_keyed AllowanceStore_new (Inserted [push_allowance uses])); [apply new_keyed|]. constructor. apply holding_add. Qed.

Lemma allowance_confinement_witness :
  confined (CommandPattern "git push *") push (Some "/ws").
Proof. apply (allowance_confinement (CommandPattern "git push *") push (Some "/ws")). vm_compute. reflexivity. Defined.

Lemma use_holding : use (holding (Some 1%N)) = ((use (holding (Some 1%N))).1, Some (push_allowance (Some 1%N))).
Proof. vm_compute. reflexivity. Qed.

Lemma find_consume_exact_witness :
  allowance_matches noon push (Some "/ws/") (push_allowance (Some 1%N)) = true.
Proof.
  exact (proj2 (proj2 (proj2 (proj1 (find_consume_exact noon noon alice push (Some "/ws/") (holding (Some 1%N)) _ _
    (holding_keyed _) use_holding) _ eq_refl)))).
Defined.

Lemma allowance_uses_conserved_witness :
  (total (grants_in alice (int_array 16 1)) [Granted alice (int_array 16 1)]
   + uses_left (stored (use (holding (Some 1%N))).1 alice (int_array 16 1)) <= 1)%N.
Proof.
  apply (allowance_uses_conserved (holding (Some 1%N)) [Granted alice (int_array 16 1)] (use (holding (Some 1%N))).1
           alice (int_array 16 1)).
  - apply holding_keyed.
  - eapply ar_cons; [|constructor]. eapply (as_granted _ _ _ _ _ _ (push_allowance (Some 1%N))). apply use_holding.
  - intros a [= <-]. by eexists.
  - repeat constructor. intros l a [=].
Defined.

Definition fenced : AllowanceStore := begin_allowance_retirement alice (holding None).

Lemma retirement_fence_witness : use fenced = (fenced, None).
Proof.
  apply (proj1 (retirement_fence (holding None) [] fenced alice (holding_keyed _) (ar_nil _) ltac:(set_solver))).
Defined.

(** An import does not look at the fence: an allowance of the retired
    generation that is imported meanwhile is honoured after the retirement. *)
Lemma import_crosses_retirement :
  (use (finish_allowance_retirement alice (import_allowances noon [push_allowance None] fenced))).2
  = Some (push_allowance None).
Proof. vm_compute. reflexivity. Qed.

(** A variable expansion is not among the operators the code rejects. *)
Lemma expansion_is_allowed :
  AllowancePattern_matches (CommandPattern "git push *") (ExecuteCommand "git push $REMOTE" []) None = true.
Proof. vm_compute. reflexivity. Qed.
End AllowanceExamples.
