(* ===== verification/Consent.v ===== *)
(** * Consent: approval prompts and what they leave behind

    [astrid-capsule/src/engine/wasm/host/{approval, consent_egress,
    approval_audit}.rs], the accessors they use of
    [host_state_effective.rs], and [net_connect_pattern_matches] of
    [security/manifest_gate.rs]: a guest asks to run a command, or its request
    to a local endpoint is held up; the host consults what the principal has
    approved before, and otherwise prompts the user.

    The shared state is the allowance store and the profile world of
    [ProfileStore].  While a prompt is open other tasks run: [meanwhile] is
    whatever they do to the shared state.  [replies] are the events that
    arrive on the response topic before the deadline; a timeout or a
    cancellation is the end of that list.  What a check records and publishes
    is its list of [effect]s. *)

From stdpp Require Import pretty.
From S2P Require Import Prelude.
From S2P Require Import Profile.
From S2P Require Import ProfileStore.
From S2P Require Import Bytes.
From S2P Require Import Crypto.
From S2P Require Import CapTokens.
From S2P Require Import Allowances.
From Stdlib Require Import Ascii.
Local Open Scope string_scope.
Local Open Scope list_scope.

(** ** Events and the host state *)

Inductive MessageOrigin : Type := LocalSocket | RemoteGateway | System.

#[export] Instance MessageOrigin_eq_dec : EqDecision MessageOrigin.
Proof. solve_decision. Defined.

Inductive ReplyPayload : Type :=
| ApprovalResponsePayload (decision : string) (reason : option string)
| OtherPayload.

(** An event on the response topic. *)
Inductive ReplyEvent : Type :=
| ReplyIpc (principal : option string) (request_owner : option Uuid) (payload : ReplyPayload)
| ReplyOther.

(** The message a guest call is served for. *)
Record CallerContext : Type := MkCallerContext {
  cc_principal : option string;
  cc_request_owner : option Uuid;
  cc_origin : MessageOrigin;
}.

Inductive PrincipalMountLocation : Type := Native (root : string) | AstridFilesystem.

(** The fields of [HostState] the two checks read. *)
Record HostState : Type := MkHostState {
  hs_capsule_id : string;
  hs_principal : PrincipalId;
  hs_caller_context : option CallerContext;
  hs_profile_authorized : bool;
  hs_cancelled : bool;
  hs_workspace_root : string;
  hs_hosted_workspace_root : string;
  hs_workspace : option PrincipalMountLocation;
  hs_invocation_workspace : option PrincipalMountLocation;
  hs_allowance_store : bool;
  hs_profile_cache : bool;
  hs_audit_sink : bool;
}.

Record ConsentWorld : Type := MkConsentWorld {
  cw_allowances : AllowanceStore;
  cw_profiles : ProfileWorld;
}.

Definition with_store (w : ConsentWorld) (st : AllowanceStore) : ConsentWorld := MkConsentWorld st (cw_profiles w).
Definition with_profiles (w : ConsentWorld) (pw : ProfileWorld) : ConsentWorld := MkConsentWorld (cw_allowances w) pw.

Definition effective_workspace (hs : HostState) : option PrincipalMountLocation :=
  match hs_invocation_workspace hs with Some mount => Some mount | None => hs_workspace hs end.

Definition effective_principal (hs : HostState) : PrincipalId :=
  match cc ← hs_caller_context hs; name ← cc_principal cc; res_ok (PrincipalId_new name) with
  | Some p => p
  | None => hs_principal hs
  end.

Definition effective_origin (hs : HostState) : MessageOrigin :=
  match hs_caller_context hs with Some cc => cc_origin cc | None => System end.

Definition invocation_authority_active (hs : HostState) : bool :=
  hs_profile_authorized hs && negb (hs_cancelled hs).

Definition request_owner_of (hs : HostState) : option Uuid := hs_caller_context hs ≫= cc_request_owner.

(** ** The audit trail of a check ([approval_audit.rs]) *)

Inductive HostApprovalScope : Type := ScopeOnce | ScopeSession | ScopeAlways.

(** A decision names the prompt it answers, its scope if it is a grant, and
    how it was reached. *)
Inductive effect : Type :=
| AuditRequested (principal : PrincipalId) (request_id action resource : string)
| PromptPublished (principal : PrincipalId) (request_owner : Uuid) (request_id action resource : string)
| AuditDecided (principal : PrincipalId) (request_id : option string) (action resource : string)
    (scope : option HostApprovalScope) (via : string).

Record ApprovalAudit : Type := MkApprovalAudit {
  aa_sink : bool;
  aa_principal : PrincipalId;
  aa_action : string;
  aa_resource : string;
  aa_request_id : option string;
  aa_decided : bool;
  aa_effects : list effect;
}.

Definition ApprovalAudit_new (hs : HostState) (principal : PrincipalId) (action resource : string) : ApprovalAudit :=
  MkApprovalAudit (hs_audit_sink hs) principal action resource None false [].

Definition emit (aa : ApprovalAudit) (e : effect) : ApprovalAudit :=
  MkApprovalAudit (aa_sink aa) (aa_principal aa) (aa_action aa) (aa_resource aa) (aa_request_id aa) (aa_decided aa)
    (aa_effects aa ++ [e]).

Definition requested (request_id : string) (aa : ApprovalAudit) : ApprovalAudit :=
  let aa' := MkApprovalAudit (aa_sink aa) (aa_principal aa) (aa_action aa) (aa_resource aa) (Some request_id)
               (aa_decided aa) (aa_effects aa) in
  if aa_sink aa then emit aa' (AuditRequested (aa_principal aa) request_id (aa_action aa) (aa_resource aa)) else aa'.

Definition decide_audit (scope : option HostApprovalScope) (via : string) (aa : ApprovalAudit) : ApprovalAudit :=
  if aa_decided aa then aa
  else
    let aa' := MkApprovalAudit (aa_sink aa) (aa_principal aa) (aa_action aa) (aa_resource aa) (aa_request_id aa)
                 true (aa_effects aa) in
    if aa_sink aa
    then emit aa' (AuditDecided (aa_principal aa) (aa_request_id aa) (aa_action aa) (aa_resource aa) scope via)
    else aa'.

Definition granted (scope : HostApprovalScope) (via : string) : ApprovalAudit -> ApprovalAudit :=
  decide_audit (Some scope) via.
Definition denied (via : string) : ApprovalAudit -> ApprovalAudit := decide_audit None via.

(** [Drop for ApprovalAudit]. *)
Definition drop_audit (aa : ApprovalAudit) : list effect :=
  aa_effects (match aa_request_id aa with Some _ => decide_audit None "error" aa | None => aa end).

(** ** Replies *)

Definition event_principal (event : ReplyEvent) : option string :=
  match event with ReplyIpc principal _ _ => principal | ReplyOther => None end.
Definition event_request_owner (event : ReplyEvent) : option Uuid :=
  match event with ReplyIpc _ owner _ => owner | ReplyOther => None end.

Definition response_identity_matches (expected_principal : string) (expected_owner : Uuid) (event : ReplyEvent) : bool :=
  bool_decide (event_principal event = Some expected_principal)
  && bool_decide (event_request_owner event = Some expected_owner).

(** The first reply stamped with the principal and the owner of the request. *)
Definition await_matching_response (replies : list ReplyEvent) (expected_principal : string) (expected_owner : Uuid)
    : option ReplyEvent :=
  List.find (response_identity_matches expected_principal expected_owner) replies.

(** ** Endpoints ([manifest_gate.rs]) *)

Definition U16_MAX : N := 65535.

(** [str::parse::<u16>]: an optional [+] and at least one digit, in range. *)
Fixpoint parse_digits (acc : N) (s : string) : option N :=
  match s with
  | EmptyString => Some acc
  | String a r =>
      let x := N_of_ascii a in
      let acc' := (acc * 10 + (x - 48))%N in
      if is_ascii_digit x && (acc' <=? U16_MAX)%N then parse_digits acc' r else None
  end.

Definition parse_u16 (s : string) : option N :=
  let digits := match s with String a r => if Ascii.eqb a "+" then r else s | EmptyString => s end in
  if is_empty digits then None else parse_digits 0 digits.

Definition net_connect_pattern_matches (pattern host : string) (port : N) : bool :=
  match rsplit_once ":" pattern with
  | None => false
  | Some (pat_host, pat_port) =>
      if negb (eq_ignore_ascii_case pat_host host) then false
      else if String.eqb pat_port "*" then true
      else bool_decide (parse_u16 pat_port = Some port)
  end.

(** [format!("{host}:{port}")]. *)
Definition endpoint_of (host : string) (port : N) : string := host +:+ ":" +:+ pretty port.

Definition EGRESS_CONSENT_ACTION : string := "local-network-egress".

Inductive Decision : Type := Once | ForSession | Always | Deny.

Definition classify_decision (decision : string) : Decision :=
  if String.eqb decision "approve" then Once
  else if String.eqb decision "approve_session" then ForSession
  else if String.eqb decision "approve_always" then Always
  else Deny.

(** ** Command approvals ([approval.rs]) *)

Definition MAX_ACTION_LEN : nat := 256.
Definition MAX_RESOURCE_LEN : nat := 1024.

Inductive ErrorCode : Type :=
| InvalidInput
| StoreUnavailable
| Timeout
| Unknown (reason : string).

(** The decision returned to the guest. *)
Inductive ApprovalDecision : Type :=
| DecApproved
| DecApprovedSession
| DecApprovedAlways
| DecAllowance
| DecDenied.

#[export] Instance ApprovalDecision_eq_dec : EqDecision ApprovalDecision.
Proof. solve_decision. Defined.

Record ApprovalRequest : Type := MkApprovalRequest { req_action : string; req_target_resource : string }.

(** [char::is_control]. *)
Definition is_control (c : N) : bool := (c <? 32)%N || ((127 <=? c) && (c <=? 159))%N.

(** Trimmed, without control characters, at most [max_len] characters:
    [sanitize_guest_field] and [sanitize_action_for_pattern]. *)
Definition sanitize (max_len : nat) (s : string) : string :=
  of_chars (take max_len (List.filter (fun c => negb (is_control c)) (chars (trim s)))).

Definition is_glob_metacharacter (a : ascii) : bool :=
  bool_decide (a ∈ ["*"; "?"; "["; "]"; "{"; "}"; "\"]%char).

Fixpoint escape_glob_metacharacters (action : string) : string :=
  match action with
  | EmptyString => ""
  | String a r =>
      if is_glob_metacharacter a then String "\" (String a (escape_glob_metacharacters r))
      else String a (escape_glob_metacharacters r)
  end.

Definition decision_from_str (decision : string) : ApprovalDecision :=
  if String.eqb decision "approve" then DecApproved
  else if String.eqb decision "approve_session" then DecApprovedSession
  else if String.eqb decision "approve_always" then DecApprovedAlways
  else DecDenied.

(** Where the command runs, and the path a hosted grant is bound to. *)
Definition approval_location (hs : HostState) : CommandApprovalLocation :=
  match effective_workspace hs with Some AstridFilesystem => AstridWorkspace | _ => Hosted end.

Definition hosted_workspace_identity (hs : HostState) : result string ErrorCode :=
  let path := hs_hosted_workspace_root hs in
  if is_empty path then Err InvalidInput else if utf8_valid path then Ok path else Err InvalidInput.

(** The pattern a command is remembered by. *)
Definition command_family (command : string) : AllowancePattern :=
  CommandPattern (escape_glob_metacharacters command +:+ " *").

(** What a check draws: the prompt's id, the clock readings of the lookup,
    the identity of a new allowance, and whether the call was cancelled while
    the prompt was open. *)
Record ConsentDraw : Type := MkConsentDraw {
  cd_request_id : string;
  cd_now : Timestamp;
  cd_now' : Timestamp;
  cd_allowance_id : Uuid;
  cd_created_at : Timestamp;
  cd_signature : Signature;
  cd_cancelled : bool;
}.

Definition no_reply (draw : ConsentDraw) : string := if cd_cancelled draw then "cancelled" else "timeout".

Definition new_allowance (draw : ConsentDraw) (principal : PrincipalId) (pattern : AllowancePattern)
    (session_only : bool) (workspace_root : option string) : Allowance :=
  MkAllowance (cd_allowance_id draw) principal pattern (cd_created_at draw) None None None session_only
    workspace_root (cd_signature draw).

Section Consent.
  Context `{Globset} `{AllowanceIteration} `{Hashing} `{ProfileCodec}.

Definition check_allowance (now now' : Timestamp) (principal : PrincipalId) (resource : string)
    (workspace_root : option string) (st : AllowanceStore) : AllowanceStore * bool :=
  let '(st', found) :=
    find_matching_and_consume now now' principal (ExecuteCommand resource []) workspace_root st in
  (st', bool_decide (is_Some found)).

(** Does one saved grant cover the command? *)
Definition saved_grant_covers (location : CommandApprovalLocation) (hosted_identity resource : string)
    (grant : CommandAlwaysGrant) : bool :=
  if negb (bool_decide (cag_location grant = location)) then false
  else if negb match cag_workspace_root grant, location with
               | Some workspace, Hosted => path_eq workspace hosted_identity
               | None, AstridWorkspace => true
               | _, _ => false
               end then false
  else AllowancePattern_matches (command_family (cag_command grant)) (ExecuteCommand resource []) (Some hosted_identity).

Definition check_persisted_allowance (hs : HostState) (principal : PrincipalId) (resource : string)
    : eff ProfileWorld ErrorCode bool :=
  fun pw =>
  if negb (hs_profile_cache hs) then (pw, Ok false)
  else
    (resolve_world pw principal,
     let? profile := map_err (fun _ => StoreUnavailable) (resolve_value pw principal) in
     if negb (enabled profile) then Ok false
     else
       let location := approval_location hs in
       let hosted_identity := hs_hosted_workspace_root hs in
       if bool_decide (location = Hosted) && (is_empty hosted_identity || negb (utf8_valid hosted_identity))
       then Ok false
       else Ok (existsb (saved_grant_covers location hosted_identity resource)
                  (command_always (pp_approvals profile)))).

Definition persist_always (hs : HostState) (principal : PrincipalId) (action : string)
    : eff ProfileWorld ErrorCode unit :=
  if negb (hs_profile_cache hs) then eff_lift (Err StoreUnavailable)
  else match approval_location hs with
       | AstridWorkspace => fun pw =>
           let '(pw', r) := persist_astrid_command_always principal action pw in
           (pw', map_err (fun _ => StoreUnavailable) r)
       | Hosted =>
           do? workspace := eff_lift (hosted_workspace_identity hs) in
           fun pw =>
           let '(pw', r) := persist_command_always principal action (Some workspace) pw in
           (pw', map_err (fun _ => StoreUnavailable) r)
       end.

Definition create_allowance_from_decision (draw : ConsentDraw) (principal : PrincipalId) (action decision : string)
    (workspace_root : option string) (st : AllowanceStore) : AllowanceStore :=
  match (if String.eqb decision "approve_session" then Some true
         else if String.eqb decision "approve_always" then Some false else None) with
  | None => st
  | Some session_only =>
      let sanitized_action := sanitize MAX_ACTION_LEN action in
      if is_empty sanitized_action then st
      else (add_allowance (new_allowance draw principal (command_family sanitized_action) session_only
                             workspace_root) st).1
  end.

(** The reply to a prompt, once a matching event has arrived. *)
Definition apply_response (hs : HostState) (draw : ConsentDraw) (principal : PrincipalId) (action : string)
    (event : ReplyEvent) (aa : ApprovalAudit) (w : ConsentWorld)
    : ConsentWorld * ApprovalAudit * result ApprovalDecision ErrorCode :=
  match event with
  | ReplyIpc _ _ (ApprovalResponsePayload decision _) =>
      let '(pw, persisted) :=
        if String.eqb decision "approve_always" then persist_always hs principal action (cw_profiles w)
        else (cw_profiles w, Ok tt) in
      let w := with_profiles w pw in
      match persisted with
      | Err error => (w, denied "user" aa, Err error)
      | Ok _ =>
          let typed := decision_from_str decision in
          let aa := match typed with
                    | DecApproved => granted ScopeOnce "user" aa
                    | DecApprovedSession => granted ScopeSession "user" aa
                    | DecApprovedAlways => granted ScopeAlways "user" aa
                    | _ => denied "user" aa
                    end in
          let approved := bool_decide (typed ∈ [DecApproved; DecApprovedSession; DecApprovedAlways]) in
          let w :=
            if approved && negb (String.eqb decision "approve_always") && hs_allowance_store hs
            then with_store w (create_allowance_from_decision draw principal action decision
                                 (Some (hs_workspace_root hs)) (cw_allowances w))
            else w in
          (w, aa, Ok typed)
      end
  | ReplyIpc _ _ OtherPayload => (w, aa, Err (Unknown "unexpected IPC payload type in approval response"))
  | ReplyOther => (w, aa, Err (Unknown "unexpected event type in approval response"))
  end.

(** The prompt: recorded, published, answered or not. *)
Definition prompt_user (hs : HostState) (draw : ConsentDraw) (principal : PrincipalId) (action resource : string)
    (meanwhile : ConsentWorld -> ConsentWorld) (replies : list ReplyEvent) (aa : ApprovalAudit) (w : ConsentWorld)
    : ConsentWorld * ApprovalAudit * result ApprovalDecision ErrorCode :=
  match request_owner_of hs with
  | None => (w, denied "no_request_owner" aa, Ok DecDenied)
  | Some owner =>
      let aa := emit (requested (cd_request_id draw) aa)
                  (PromptPublished principal owner (cd_request_id draw) action resource) in
      let w := meanwhile w in
      match await_matching_response replies (pid_str principal) owner with
      | Some event => apply_response hs draw principal action event aa w
      | None => (w, denied (no_reply draw) aa, Err Timeout)
      end
  end.

Definition request_approval (hs : HostState) (draw : ConsentDraw) (meanwhile : ConsentWorld -> ConsentWorld)
    (replies : list ReplyEvent) (request : ApprovalRequest) (w : ConsentWorld)
    : ConsentWorld * list effect * result ApprovalDecision ErrorCode :=
  if negb (invocation_authority_active hs) then (w, [], Err StoreUnavailable)
  else
    let principal := effective_principal hs in
    if (MAX_ACTION_LEN <? length (chars (req_action request)))%nat then (w, [], Err InvalidInput)
    else
      let action := sanitize MAX_ACTION_LEN (req_action request) in
      let resource := sanitize MAX_RESOURCE_LEN (req_target_resource request) in
      let aa := ApprovalAudit_new hs principal action resource in
      let '(pw, saved) := check_persisted_allowance hs principal resource (cw_profiles w) in
      let w := with_profiles w pw in
      match saved with
      | Err e => (w, drop_audit aa, Err e)
      | Ok true => (w, drop_audit (granted ScopeAlways "remembered_consent" aa), Ok DecAllowance)
      | Ok false =>
          let '(st, allowed) :=
            if hs_allowance_store hs
            then check_allowance (cd_now draw) (cd_now' draw) principal resource (Some (hs_workspace_root hs))
                   (cw_allowances w)
            else (cw_allowances w, false) in
          let w := with_store w st in
          if allowed then (w, drop_audit (granted ScopeSession "session_allowance" aa), Ok DecAllowance)
          else
            let '(w, aa, r) := prompt_user hs draw principal action resource meanwhile replies aa w in
            (w, drop_audit aa, r)
      end.

(** ** Local egress ([consent_egress.rs]) *)

Definition egress_action (capsule_id host : string) (port : N) : SensitiveAction := NetworkRequest capsule_id host port.

Definition has_runtime_grant (now now' : Timestamp) (principal : PrincipalId) (capsule_id host : string) (port : N)
    (st : AllowanceStore) : AllowanceStore * bool :=
  let '(st', found) :=
    find_matching_and_consume now now' principal (egress_action capsule_id host port) None st in
  (st', bool_decide (is_Some found)).

Definition has_persisted_grant (principal : PrincipalId) (capsule_id host : string) (port : N) (pw : ProfileWorld)
    : ProfileWorld * bool :=
  (resolve_world pw principal,
   match resolve_value pw principal with
   | Err _ => false
   | Ok profile =>
       match net_capsule_egress (pp_network profile) !! capsule_id with
       | None => false
       | Some entries => existsb (fun entry => net_connect_pattern_matches entry host port) entries
       end
   end).

Definition add_runtime_grant (draw : ConsentDraw) (principal : PrincipalId) (capsule_id host : string) (port : N)
    (session_only : bool) (st : AllowanceStore) : AllowanceStore :=
  (add_allowance (new_allowance draw principal (NetworkHost capsule_id host (Some [port])) session_only None) st).1.

(** The decision string of the reply, empty when there is none. *)
Definition elicit_egress_consent (hs : HostState) (draw : ConsentDraw) (principal : PrincipalId) (endpoint : string)
    (meanwhile : ConsentWorld -> ConsentWorld) (replies : list ReplyEvent) (aa : ApprovalAudit) (w : ConsentWorld)
    : ConsentWorld * ApprovalAudit * string :=
  match request_owner_of hs with
  | None => (w, denied "no_request_owner" aa, "")
  | Some owner =>
      let aa := emit (requested (cd_request_id draw) aa)
                  (PromptPublished principal owner (cd_request_id draw) EGRESS_CONSENT_ACTION endpoint) in
      let w := meanwhile w in
      match await_matching_response replies (pid_str principal) owner with
      | Some (ReplyIpc _ _ (ApprovalResponsePayload decision _)) => (w, aa, decision)
      | Some _ => (w, denied "error" aa, "")
      | None => (w, denied (no_reply draw) aa, "")
      end
  end.

(** What each decision does; an approval lets the request through. *)
Definition apply_egress_decision (hs : HostState) (draw : ConsentDraw) (principal : PrincipalId) (host : string)
    (port : N) (decision : Decision) (aa : ApprovalAudit) (w : ConsentWorld) : ConsentWorld * ApprovalAudit * bool :=
  let capsule_id := hs_capsule_id hs in
  match decision with
  | Deny => (w, denied "user" aa, false)
  | Once => (w, granted ScopeOnce "user" aa, true)
  | ForSession =>
      (with_store w (add_runtime_grant draw principal capsule_id host port true (cw_allowances w)),
       granted ScopeSession "user" aa, true)
  | Always =>
      let w := with_store w (add_runtime_grant draw principal capsule_id host port false (cw_allowances w)) in
      let w := if hs_profile_cache hs
               then with_profiles w (persist_egress principal capsule_id (endpoint_of host port) (cw_profiles w)).1
               else w in
      (w, granted ScopeAlways "user" aa, true)
  end.

Definition consent_local_egress (hs : HostState) (draw : ConsentDraw) (meanwhile : ConsentWorld -> ConsentWorld)
    (replies : list ReplyEvent) (host : string) (port : N) (w : ConsentWorld)
    : ConsentWorld * list effect * bool :=
  if negb (bool_decide (effective_origin hs = LocalSocket)) then (w, [], false)
  else if negb (hs_allowance_store hs) then (w, [], false)
  else
    let principal := effective_principal hs in
    let capsule_id := hs_capsule_id hs in
    let endpoint := endpoint_of host port in
    let aa := ApprovalAudit_new hs principal EGRESS_CONSENT_ACTION endpoint in
    let '(st, runtime) :=
      has_runtime_grant (cd_now draw) (cd_now' draw) principal capsule_id host port (cw_allowances w) in
    let w := with_store w st in
    if runtime then (w, drop_audit (granted ScopeSession "session_grant" aa), true)
    else
      let '(pw, persisted) :=
        if hs_profile_cache hs then has_persisted_grant principal capsule_id host port (cw_profiles w)
        else (cw_profiles w, false) in
      let w := with_profiles w pw in
      if persisted then (w, drop_audit (granted ScopeAlways "remembered_consent" aa), true)
      else
        let '(w, aa, decision) := elicit_egress_consent hs draw principal endpoint meanwhile replies aa w in
        let '(w, aa, permitted) :=
          apply_egress_decision hs draw principal host port (classify_decision decision) aa w in
        (w, drop_audit aa, permitted).
End Consent.

(** ** Endpoints round-trip *)

Abbreviation all_digits := (str_all (fun a => is_ascii_digit (N_of_ascii a))).

Lemma pretty_char_digit d : (d < 10)%N ->
  is_ascii_digit (N_of_ascii (pretty_N_char d)) = true /\ N_of_ascii (pretty_N_char d) = (48 + d)%N.
Proof.
  intros Hd.
  assert (d = 0 \/ d = 1 \/ d = 2 \/ d = 3 \/ d = 4 \/ d = 5 \/ d = 6 \/ d = 7 \/ d = 8 \/ d = 9)%N as Hin by lia.
  destruct Hin as [->|[->|[->|[->|[->|[->|[->|[->|[->| ->]]]]]]]]]; done.
Qed.

Lemma pretty_go_digits n s : all_digits s = true -> all_digits (pretty_N_go n s) = true.
Proof.
  revert s. induction (N.lt_wf_0 n) as [n _ IH]. intros s Hs. destruct (decide (0 < n)%N) as [Hn|Hn].
  - rewrite pretty_N_go_step by done. apply IH; [by apply N.div_lt|]. cbn [str_all].
    rewrite (proj1 (pretty_char_digit (n mod 10) ltac:(apply N.mod_lt; lia))). done.
  - assert (n = 0%N) as -> by lia. by rewrite pretty_N_go_0.
Qed.

Lemma pretty_go_nonempty n s : (n <> 0%N \/ s <> "") -> pretty_N_go n s <> "".
Proof.
  revert s. induction (N.lt_wf_0 n) as [n _ IH]. intros s Hs. destruct (decide (0 < n)%N) as [Hn|Hn].
  - rewrite pretty_N_go_step by done. apply IH; [by apply N.div_lt|by right].
  - assert (n = 0%N) as -> by lia. rewrite pretty_N_go_0. by destruct Hs.
Qed.

Lemma parse_go n s : (n <= U16_MAX)%N -> parse_digits 0 (pretty_N_go n s) = parse_digits n s.
Proof.
  revert s. induction (N.lt_wf_0 n) as [n _ IH]. intros s Hle. destruct (decide (0 < n)%N) as [Hn|Hn].
  - rewrite pretty_N_go_step by done. pose proof (N.mod_lt n 10 ltac:(lia)) as Hr.
    pose proof (N.div_mod n 10 ltac:(lia)) as Hqr. pose proof (N.div_lt n 10 Hn ltac:(lia)) as Hlt.
    remember (n / 10)%N as q eqn:Hq. remember (n mod 10)%N as r eqn:Hr'. clear Hq Hr'.
    rewrite IH by lia. cbn [parse_digits]. destruct (pretty_char_digit r Hr) as [-> ->].
    replace (q * 10 + (48 + r - 48))%N with n by lia. by rewrite (proj2 (N.leb_le _ _)).
  - assert (n = 0%N) as -> by lia. by rewrite pretty_N_go_0.
Qed.

Lemma pretty_port_digits (n : N) : all_digits (pretty n) = true /\ pretty n <> "".
Proof.
  unfold pretty, pretty_N. case_decide; [done|]. split; [by apply pretty_go_digits|]. by apply pretty_go_nonempty; left.
Qed.

Lemma digits_no_char c s :
  is_ascii_digit (N_of_ascii c) = false -> all_digits s = true -> contains_char c s = false.
Proof.
  intros Hc. induction s as [|a s IH]; [done|]. simpl. intros [Ha Hs]%andb_true_iff. rewrite IH by done.
  rewrite orb_false_r. apply Ascii.eqb_neq. intros ->. congruence.
Qed.

Lemma parse_u16_pretty n : (n <= U16_MAX)%N -> parse_u16 (pretty n) = Some n.
Proof.
  intros Hn. destruct (pretty_port_digits n) as [Hd Hne]. pose proof (digits_no_char "+" _ eq_refl Hd) as Hplus.
  assert (parse_digits 0 (pretty n) = Some n) as Hp.
  { unfold pretty, pretty_N. case_decide; [by subst|]. by rewrite parse_go. }
  unfold parse_u16. destruct (pretty n) as [|a r] eqn:Hs; [done|]. cbn [contains_char] in Hplus.
  apply orb_false_iff in Hplus as [-> _]. done.
Qed.

Abbreviation lower := (fun a : ascii =>
  let x := N_of_ascii a in if is_ascii_uppercase x then ascii_of_N (x + 32)%N else a).

Lemma lower_keeps a : (lower a = ":"%char <-> a = ":"%char) /\
  (is_ascii_digit (N_of_ascii (lower a)) = true -> lower a = a).
Proof. destruct a as [[] [] [] [] [] [] [] []]; done. Qed.

Lemma rsplit_lower s :
  rsplit_once ":" (to_ascii_lowercase s)
  = (fun '(x, y) => (to_ascii_lowercase x, to_ascii_lowercase y)) <$> rsplit_once ":" s.
Proof.
  unfold to_ascii_lowercase. induction s as [|a s IH]; [done|]. cbn [str_map rsplit_once].
  rewrite IH. destruct (rsplit_once ":" s) as [[x y]|]; [done|]. cbn [fmap option_fmap option_map].
  destruct (lower_keeps a) as [Hc _]. destruct (Ascii.eqb_spec a ":") as [->|Hne]; [done|].
  by rewrite (proj2 (Ascii.eqb_neq _ _)) by (by intros ?%Hc).
Qed.

Lemma lower_digits s : all_digits (to_ascii_lowercase s) = true -> to_ascii_lowercase s = s.
Proof.
  unfold to_ascii_lowercase. induction s as [|a s IH]; [done|]. cbn [str_map str_all].
  intros [Ha Hs]%andb_true_iff. f_equal; [by apply lower_keeps|by apply IH].
Qed.

(** The endpoint that is remembered, in any letter case, covers the endpoint
    it was remembered for. *)
Lemma remembered_endpoint_matches e host port :
  (port <= U16_MAX)%N -> eq_ignore_ascii_case e (endpoint_of host port) = true ->
  net_connect_pattern_matches e host port = true.
Proof.
  intros Hport He%bool_decide_eq_true. destruct (pretty_port_digits port) as [Hd _].
  pose proof (rsplit_lower e) as Hs. rewrite He, rsplit_lower in Hs. unfold endpoint_of in Hs.
  change (":" +:+ pretty port) with (String ":" (pretty port)) in Hs.
  rewrite rsplit_once_app in Hs by (by apply digits_no_char). cbn [fmap option_fmap option_map] in Hs.
  unfold net_connect_pattern_matches. destruct (rsplit_once ":" e) as [[h p]|]; [|done].
  injection Hs as Hh Hp. unfold eq_ignore_ascii_case. rewrite bool_decide_true by done. simpl.
  assert (p = pretty port) as ->.
  { assert (to_ascii_lowercase (pretty port) = pretty port) as Hpp.
    { clear -Hd. unfold to_ascii_lowercase. induction (pretty port) as [|a s IH]; [done|]. cbn [str_map str_all] in *.
      apply andb_true_iff in Hd as [Ha Hs]. f_equal; [|by apply IH].
      clear -Ha. by destruct a as [[] [] [] [] [] [] [] []]. }
    rewrite Hpp in Hp. rewrite Hp. symmetry. apply lower_digits. by rewrite <- Hp. }
  destruct (String.eqb_spec (pretty port) "*") as [|_]; [done|]. by rewrite bool_decide_true by (by apply parse_u16_pretty).
Qed.

(** ** What persisting leaves on disk *)

Section Persisted.
  Context `{ProfileCodecLaws}.

Lemma loaded_keys_stable file profile :
  load_from_path file = Ok profile -> Forall device_key_stable (auth_public_keys (pp_auth profile)).
Proof.
  destruct file as [content|]; simpl; [|by intros [= <-]].
  unfold parse_profile. destruct (profile_from_toml content) as [q|] eqn:Hq; [|done]. simpl.
  intros Hl. inv_ok. exact (profile_keys_stable q content Hq).
Qed.

Lemma load_for_path principal file profile : load_for principal file = Ok profile -> load_from_path file = Ok profile.
Proof. unfold load_for. case_bool_decide; [done|]. by destruct file. Qed.

Lemma save_and_invalidate_Ok principal p pw pw' :
  save_and_invalidate principal p pw = (pw', Ok tt) -> Forall device_key_stable (auth_public_keys (pp_auth p)) ->
  load_for principal (pw_disk pw' !! principal) = Ok p.
Proof.
  unfold save_and_invalidate. destruct (save_to_path p) as [v|] eqn:Hs; [|done]. intros [= <-] Hk.
  simpl. rewrite lookup_insert_eq. by apply load_for_some.
Qed.

Lemma persist_egress_Ok principal capsule_id endpoint pw pw' :
  persist_egress principal capsule_id endpoint pw = (pw', Ok tt) ->
  exists profile entries e, load_for principal (pw_disk pw' !! principal) = Ok profile /\
    net_capsule_egress (pp_network profile) !! capsule_id = Some entries /\ e ∈ entries /\
    eq_ignore_ascii_case e endpoint = true.
Proof.
  unfold persist_egress. intros (pw1 & profile & [= <- Hl] & Hk)%eff_bind_Ok.
  destruct (existsb _ _) eqn:He.
  - apply existsb_exists in He as (e & Hin%list_elem_of_In & He). injection Hk as <-. simpl.
    destruct (net_capsule_egress (pp_network profile) !! capsule_id) as [entries|] eqn:Hc; [|by inversion Hin].
    exists profile, entries, e. split_and!; try done.
    unfold load_for. case_bool_decide; [done|]. destruct (pw_disk pw !! principal) as [content|]; [done|].
    injection Hl as <-. cbn [pp_network PrincipalProfile_default net_capsule_egress] in Hc. by rewrite lookup_empty in Hc.
  - apply save_and_invalidate_Ok in Hk; [|by apply loaded_keys_stable in Hl].
    eexists _, _, endpoint. split; [exact Hk|]. simpl. rewrite lookup_insert_eq. split; [done|].
    split; [set_solver|]. by apply bool_decide_eq_true.
Qed.

Lemma persist_command_Ok principal raw workspace_root location pw pw' :
  persist_command_at principal raw workspace_root location pw = (pw', Ok tt) ->
  exists profile, load_for principal (pw_disk pw' !! principal) = Ok profile /\ enabled profile = true /\
    MkCommandAlwaysGrant (trim raw) location workspace_root ∈ command_always (pp_approvals profile).
Proof.
  unfold persist_command_at. destruct (is_empty (trim raw)); [done|]. destruct (match workspace_root with Some _ => _ | None => _ end); [done|].
  intros (pw1 & profile & [= <- Hl] & Hk)%eff_bind_Ok. destruct (enabled profile) eqn:Hen; [|done]. simpl in Hk.
  destruct (existsb _ _) eqn:He.
  - apply existsb_exists in He as ([c l ws] & Hin%list_elem_of_In & Hg). injection Hk as <-. simpl in *.
    apply andb_true_iff in Hg as [[->%bool_decide_eq_true ->%bool_decide_eq_true]%andb_true_iff ->%bool_decide_eq_true].
    by exists profile.
  - apply save_and_invalidate_Ok in Hk; [|by apply load_for_path, loaded_keys_stable in Hl].
    eexists. split; [exact Hk|]. simpl. split; [done|]. set_solver.
Qed.
End Persisted.

(** ** Consent is the caller's *)

(** A reply stamped with the principal and the owner of the request. *)
Definition user_reply (hs : HostState) (p : PrincipalId) (replies : list ReplyEvent) (decision : string) : Prop :=
  exists owner reason, request_owner_of hs = Some owner /\
    ReplyIpc (Some (pid_str p)) (Some owner) (ApprovalResponsePayload decision reason) ∈ replies.

Section Sound.
  Context `{Globset} `{AllowanceIterationLaws} `{Hashing} `{ProfileCodec}.

(** The principal holds an allowance for the action. *)
Definition stored_consent (now now' : Timestamp) (p : PrincipalId) (action : SensitiveAction) (ws : option string)
    (st : AllowanceStore) : Prop :=
  (p ∉ retiring st) /\ exists a, stored st p (al_id a) = Some a /\ al_principal a = p /\
    allowance_is_expired now a = false /\ allowance_matches now' action ws a = true.

(** The enabled profile of the principal has a saved command that covers the
    resource where the command runs. *)
Definition saved_consent (hs : HostState) (p : PrincipalId) (resource : string) (pw : ProfileWorld) : Prop :=
  exists profile grant, resolve_value pw p = Ok profile /\ enabled profile = true /\
    grant ∈ command_always (pp_approvals profile) /\ cag_location grant = approval_location hs /\
    match approval_location hs with
    | Hosted => exists ws, cag_workspace_root grant = Some ws /\
        components ws = components (hs_hosted_workspace_root hs) /\ hs_hosted_workspace_root hs <> ""
    | AstridWorkspace => cag_workspace_root grant = None
    end /\
    AllowancePattern_matches (command_family (cag_command grant)) (ExecuteCommand resource [])
      (Some (hs_hosted_workspace_root hs)) = true.

(** The profile of the principal remembers the endpoint for the capsule. *)
Definition saved_egress (p : PrincipalId) (capsule_id host : string) (port : N) (pw : ProfileWorld) : Prop :=
  exists profile entries entry, resolve_value pw p = Ok profile /\
    net_capsule_egress (pp_network profile) !! capsule_id = Some entries /\ entry ∈ entries /\
    net_connect_pattern_matches entry host port = true.

Lemma await_Some replies p owner event :
  await_matching_response replies (pid_str p) owner = Some event ->
  event ∈ replies /\ exists payload, event = ReplyIpc (Some (pid_str p)) (Some owner) payload.
Proof.
  intros [Hin Hm]%find_some. split; [by apply list_elem_of_In|].
  apply andb_true_iff in Hm as [Hp%bool_decide_eq_true Ho%bool_decide_eq_true].
  destruct event as [q o payload|]; [|done]. simpl in *. subst. eauto.
Qed.

Lemma found_consent now now' p action ws st st' a :
  keyed st -> find_matching_and_consume now now' p action ws st = (st', Some a) -> stored_consent now now' p action ws st.
Proof.
  intros Hk Hf. destruct (find_consume_Some _ _ _ _ _ _ _ _ Hk Hf) as (Hr & Hs & Hp & He & Hm & _).
  split; [done|]. by exists a.
Qed.

Lemma saved_grant_covers_true location hosted resource grant :
  saved_grant_covers location hosted resource grant = true ->
  cag_location grant = location /\
  match location with
  | Hosted => exists ws, cag_workspace_root grant = Some ws /\ components ws = components hosted
  | AstridWorkspace => cag_workspace_root grant = None
  end /\
  AllowancePattern_matches (command_family (cag_command grant)) (ExecuteCommand resource []) (Some hosted) = true.
Proof.
  unfold saved_grant_covers, path_eq. case_bool_decide as Hl; [|done].
  destruct (cag_workspace_root grant) as [ws|], location; simpl; try done.
  case_bool_decide; simpl; [|done]. eauto.
Qed.

Lemma check_persisted_true hs p resource pw pw' :
  check_persisted_allowance hs p resource pw = (pw', Ok true) -> saved_consent hs p resource pw.
Proof.
  unfold check_persisted_allowance. destruct (hs_profile_cache hs); [|done]. simpl. intros [= <- Hr].
  apply rbind_Ok in Hr as (profile & Hv%map_err_Ok & Hr). destruct (enabled profile) eqn:Hen; [|done]. simpl in Hr.
  destruct (bool_decide (approval_location hs = Hosted) && _) eqn:Hid; [done|]. injection Hr as Hr.
  apply existsb_exists in Hr as (grant & Hin%list_elem_of_In & (Hl & Hws & Hm)%saved_grant_covers_true).
  exists profile, grant. split_and!; try done. destruct (approval_location hs); [|done].
  destruct Hws as (ws & ? & ?). exists ws. split_and!; try done.
  rewrite bool_decide_true in Hid by done. apply orb_false_iff in Hid as [Hne _]. by apply is_empty_false.
Qed.

Lemma apply_response_Ok hs draw p action event aa w w' aa' d :
  apply_response hs draw p action event aa w = (w', aa', Ok d) ->
  exists q o decision reason, event = ReplyIpc q o (ApprovalResponsePayload decision reason) /\
    decision_from_str decision = d.
Proof.
  unfold apply_response. destruct event as [q o [decision reason|]|]; try done.
  destruct (if String.eqb decision "approve_always" then _ else _) as [pw [[]|e]]; [|done].
  intros [= _ _ <-]. eauto 7.
Qed.

Lemma prompt_user_Ok hs draw p action resource meanwhile replies aa w w' aa' d :
  prompt_user hs draw p action resource meanwhile replies aa w = (w', aa', Ok d) -> d <> DecDenied ->
  exists decision, user_reply hs p replies decision /\ decision_from_str decision = d.
Proof.
  unfold prompt_user. destruct (request_owner_of hs) as [owner|] eqn:Ho; [|by intros [= _ _ <-]].
  destruct (await_matching_response _ _ _) as [event|] eqn:Ha; [|done]. intros Hr _.
  destruct (await_Some _ _ _ _ Ha) as [Hin [payload ->]].
  destruct (apply_response_Ok _ _ _ _ _ _ _ _ _ _ Hr) as (q & o & decision & reason & [= <- <- ->] & Hd).
  exists decision. split; [|done]. by exists owner, reason.
Qed.

(** C12: A command is approved only on the caller's own consent: a live
    invocation's principal has a saved command for the workspace that covers
    it, or holds an allowance that covers it, or a user answered the prompt
    with that very decision in a reply stamped with the principal and the
    owner of this request. *)
Theorem command_consent_sound hs draw meanwhile replies request w w' fx d :
  keyed (cw_allowances w) ->
  request_approval hs draw meanwhile replies request w = (w', fx, Ok d) -> d <> DecDenied ->
  let p := effective_principal hs in
  let resource := sanitize MAX_RESOURCE_LEN (req_target_resource request) in
  invocation_authority_active hs = true /\
  (d = DecAllowance /\
   (saved_consent hs p resource (cw_profiles w) \/
    stored_consent (cd_now draw) (cd_now' draw) p (ExecuteCommand resource []) (Some (hs_workspace_root hs)) (cw_allowances w))
   \/ exists decision, user_reply hs p replies decision /\ decision_from_str decision = d).
Proof.
  intros Hk. unfold request_approval. destruct (invocation_authority_active hs); [|done]. simpl.
  destruct (MAX_ACTION_LEN <? _)%nat; [done|].
  destruct (check_persisted_allowance _ _ _ _) as [pw [[]|e]] eqn:Hsaved; try done.
  { intros [= _ _ <-] _. split; [done|]. left. split; [done|]. left. by eapply check_persisted_true. }
  destruct (if hs_allowance_store hs then _ else _) as [st []] eqn:Hst.
  - intros [= _ _ <-] _. split; [done|]. left. split; [done|]. right.
    destruct (hs_allowance_store hs); [|done]. unfold check_allowance in Hst.
    destruct (find_matching_and_consume _ _ _ _ _ _) as [st' [a|]] eqn:Hf; [|done]. by eapply found_consent.
  - destruct (prompt_user _ _ _ _ _ _ _ _ _) as [[w1 aa1] r] eqn:Hp. intros [= _ _ ->] Hd.
    split; [done|]. right. by eapply prompt_user_Ok.
Qed.

Lemma elicit_reply hs draw p endpoint meanwhile replies aa w w' aa' decision :
  elicit_egress_consent hs draw p endpoint meanwhile replies aa w = (w', aa', decision) ->
  decision = "" \/ user_reply hs p replies decision.
Proof.
  unfold elicit_egress_consent. destruct (request_owner_of hs) as [owner|] eqn:Ho; [|intros [= _ _ <-]; by left].
  destruct (await_matching_response _ _ _) as [event|] eqn:Ha; [|intros [= _ _ <-]; by left].
  destruct (await_Some _ _ _ _ Ha) as [Hin [payload ->]].
  destruct payload as [d reason|]; intros [= _ _ <-]; [right|by left]. by exists owner, reason.
Qed.

Lemma has_persisted_true p capsule_id host port pw pw' :
  has_persisted_grant p capsule_id host port pw = (pw', true) -> saved_egress p capsule_id host port pw.
Proof.
  unfold has_persisted_grant. intros [= <- Hb]. destruct (resolve_value pw p) as [profile|] eqn:Hv; [|done].
  destruct (net_capsule_egress (pp_network profile) !! capsule_id) as [entries|] eqn:Hc; [|done].
  apply existsb_exists in Hb as (entry & Hin%list_elem_of_In & Hm). by exists profile, entries, entry.
Qed.

(** The allowance left by a consent covers this one endpoint of this one
    capsule. *)
Lemma egress_allowance_only now draw p capsule_id host port session_only action ws :
  allowance_matches now action ws (new_allowance draw p (NetworkHost capsule_id host (Some [port])) session_only None)
  = true -> action = egress_action capsule_id host port.
Proof.
  intros (_ & _ & _ & Hm)%allowance_matches_spec. destruct action; try done.
  apply andb_true_iff in Hm as [[->%String.eqb_eq ->%String.eqb_eq]%andb_true_iff Hp%bool_decide_eq_true].
  by apply list_elem_of_singleton in Hp as ->.
Qed.

Lemma stored_runtime_grant draw p capsule_id host port session_only st q id a :
  stored (add_runtime_grant draw p capsule_id host port session_only st) q id = Some a ->
  stored st q id = Some a \/
  (q = p /\ a = new_allowance draw p (NetworkHost capsule_id host (Some [port])) session_only None).
Proof.
  unfold add_runtime_grant. destruct (add_allowance _ st) as [st' [[]|e]] eqn:Ha; simpl.
  - rewrite (stored_add _ _ _ _ _ Ha). case_bool_decide as Hq; [|by left].
    destruct Hq as [-> ->]. intros [= <-]. by right.
  - unfold add_allowance in Ha. case_bool_decide; [|done]. injection Ha as <- _. by left.
Qed.

Lemma persist_egress_other p capsule_id endpoint pw q :
  q <> p -> pw_disk (persist_egress p capsule_id endpoint pw).1 !! q = pw_disk pw !! q.
Proof.
  intros Hq. unfold persist_egress, eff_bind, eff_read. destruct (load_from_path _) as [profile|e]; [|done].
  destruct (existsb _ _); [done|]. unfold save_and_invalidate. destruct (save_to_path _) as [v|]; [|done].
  simpl. by rewrite lookup_insert_ne.
Qed.

(** C13: A held-up request to a local endpoint is let through only for a local
    operator and only on consent for this principal, this capsule and this
    endpoint: an allowance, a remembered endpoint, or an approving reply
    stamped for this request.  Applying the reply adds no allowance that
    covers anything but this endpoint of this capsule for this principal, and
    writes no other principal's profile. *)
Theorem egress_consent_scoped hs draw meanwhile replies host port w :
  let p := effective_principal hs in
  let action := egress_action (hs_capsule_id hs) host port in
  (forall w' fx, keyed (cw_allowances w) ->
     consent_local_egress hs draw meanwhile replies host port w = (w', fx, true) ->
     effective_origin hs = LocalSocket /\
     (stored_consent (cd_now draw) (cd_now' draw) p action None (cw_allowances w) \/
      (hs_profile_cache hs = true /\ saved_egress p (hs_capsule_id hs) host port (cw_profiles w)) \/
      exists reply, user_reply hs p replies reply /\ classify_decision reply <> Deny)) /\
  (forall decision aa w' aa' permitted,
     apply_egress_decision hs draw p host port decision aa w = (w', aa', permitted) ->
     (permitted = true <-> decision <> Deny) /\
     (forall q a now ws covered, stored (cw_allowances w') q (al_id a) = Some a ->
        stored (cw_allowances w) q (al_id a) <> Some a -> allowance_matches now covered ws a = true ->
        q = p /\ covered = action) /\
     (forall q, q <> p -> pw_disk (cw_profiles w') !! q = pw_disk (cw_profiles w) !! q)).
Proof.
  intros p action. split.
  - intros w' fx Hk. unfold consent_local_egress. case_bool_decide as Ho; [|done].
    destruct (hs_allowance_store hs); [|done]. simpl.
    destruct (has_runtime_grant _ _ _ _ _ _ _) as [st []] eqn:Hr.
    { intros _. split; [done|]. left. unfold has_runtime_grant in Hr.
      destruct (find_matching_and_consume _ _ _ _ _ _) as [st' [a|]] eqn:Hf; [|done]. by eapply found_consent. }
    destruct (if hs_profile_cache hs then _ else _) as [pw []] eqn:Hpers.
    { intros _. split; [done|]. right. left. destruct (hs_profile_cache hs); [|done].
      split; [done|]. by eapply has_persisted_true. }
    destruct (elicit_egress_consent _ _ _ _ _ _ _ _) as [[w1 aa1] reply] eqn:He.
    destruct (apply_egress_decision _ _ _ _ _ _ _ _) as [[w2 aa2] b] eqn:Ha. intros [= _ _ ->].
    split; [done|]. right. right. assert (classify_decision reply <> Deny) as Hd.
    { intros Hd. rewrite Hd in Ha. by injection Ha. }
    exists reply. split; [|done]. destruct (elicit_reply _ _ _ _ _ _ _ _ _ _ _ He) as [->|]; [|done]. done.
  - intros decision aa w' aa' permitted. destruct decision; simpl; intros [= <- <- <-]; split_and!; try done.
    + intros q a now ws covered Hs Hn Hm. apply stored_runtime_grant in Hs as [|[-> ->]]; [done|].
      split; [done|]. by eapply egress_allowance_only.
    + intros q a now ws covered Hs Hn Hm.
      assert (stored (add_runtime_grant draw p (hs_capsule_id hs) host port false (cw_allowances w)) q (al_id a) = Some a) as Hs'
        by (by destruct (hs_profile_cache hs)).
      apply stored_runtime_grant in Hs' as [|[-> ->]]; [done|]. split; [done|]. by eapply egress_allowance_only.
    + intros q Hq. destruct (hs_profile_cache hs); [|done]. by apply persist_egress_other.
Qed.
End Sound.

(** ** Consent survives a restart *)

(** A daemon that starts on the profiles on disk. *)
Definition restarted (disk : gmap PrincipalId string) : ConsentWorld :=
  MkConsentWorld AllowanceStore_new (MkProfileWorld (MkProfileCacheState ∅ ∅) disk).

Definition no_prompt (fx : list effect) : Prop :=
  Forall (fun e => match e with PromptPublished _ _ _ _ _ => False | _ => True end) fx.

Lemma granted_no_prompt hs p action resource scope via :
  no_prompt (drop_audit (granted scope via (ApprovalAudit_new hs p action resource))).
Proof.
  unfold granted, decide_audit, ApprovalAudit_new. simpl. destruct (hs_audit_sink hs); simpl; by repeat constructor.
Qed.

Section Restart.
  Context `{Globset} `{AllowanceIterationLaws} `{ProfileCodecLaws}.

Lemma new_store_finds_nothing now now' p action ws :
  find_matching_and_consume now now' p action ws AllowanceStore_new = (AllowanceStore_new, None).
Proof. unfold find_matching_and_consume. simpl. rewrite bool_decide_false by set_solver. by rewrite lookup_empty. Qed.

Lemma restarted_resolve disk p : resolve_value (cw_profiles (restarted disk)) p = load_for p (disk !! p).
Proof. unfold resolve_value. simpl. by rewrite lookup_empty. Qed.

Lemma saved_always hs p action pw pw' :
  persist_always hs p action pw = (pw', Ok tt) ->
  exists profile grant, load_for p (pw_disk pw' !! p) = Ok profile /\ enabled profile = true /\
    grant ∈ command_always (pp_approvals profile) /\ cag_command grant = trim action /\
    cag_location grant = approval_location hs /\
    match approval_location hs with
    | Hosted => cag_workspace_root grant = Some (hs_hosted_workspace_root hs) /\
        is_empty (hs_hosted_workspace_root hs) = false /\ utf8_valid (hs_hosted_workspace_root hs) = true
    | AstridWorkspace => cag_workspace_root grant = None
    end.
Proof.
  unfold persist_always. destruct (hs_profile_cache hs); [|done]. simpl. destruct (approval_location hs) eqn:Hloc.
  - intros (pw1 & ws & [= <- Hid] & Hp)%eff_bind_Ok. unfold hosted_workspace_identity in Hid.
    destruct (is_empty _) eqn:He; [done|]. destruct (utf8_valid _) eqn:Hu; [|done]. injection Hid as <-.
    destruct (persist_command_always _ _ _ _) as [pw2 r] eqn:Hpers. injection Hp as -> Hr%map_err_Ok. subst r.
    apply persist_command_Ok in Hpers as (profile & Hl & Hen & Hin). eexists profile, _.
    split; [exact Hl|]. split; [exact Hen|]. split; [exact Hin|]. done.
  - destruct (persist_astrid_command_always _ _ _) as [pw2 r] eqn:Hpers. intros [= -> Hr%map_err_Ok]. subst r.
    apply persist_command_Ok in Hpers as (profile & Hl & Hen & Hin). eexists profile, _.
    split; [exact Hl|]. split; [exact Hen|]. split; [exact Hin|]. done.
Qed.

(** Where the saved commands of the profile on disk cover the resource, the
    check finds them. *)
Lemma check_persisted_saved hs p resource disk profile grant :
  hs_profile_cache hs = true -> load_for p (disk !! p) = Ok profile -> enabled profile = true ->
  grant ∈ command_always (pp_approvals profile) -> cag_location grant = approval_location hs ->
  match approval_location hs with
  | Hosted => cag_workspace_root grant = Some (hs_hosted_workspace_root hs) /\
      is_empty (hs_hosted_workspace_root hs) = false /\ utf8_valid (hs_hosted_workspace_root hs) = true
  | AstridWorkspace => cag_workspace_root grant = None
  end ->
  AllowancePattern_matches (command_family (cag_command grant)) (ExecuteCommand resource [])
    (Some (hs_hosted_workspace_root hs)) = true ->
  (check_persisted_allowance hs p resource (cw_profiles (restarted disk))).2 = Ok true.
Proof.
  intros Hc Hl Hen Hin Hloc Hws Hm. unfold check_persisted_allowance. rewrite Hc, restarted_resolve, Hl. simpl.
  rewrite Hen. simpl.
  assert (saved_grant_covers (approval_location hs) (hs_hosted_workspace_root hs) resource grant = true) as Hcov.
  { unfold saved_grant_covers. rewrite Hloc, bool_decide_true by done. simpl.
    destruct (approval_location hs); [destruct Hws as [-> _]|rewrite Hws]; simpl; [|done].
    unfold path_eq. by rewrite bool_decide_true. }
  assert (existsb (saved_grant_covers (approval_location hs) (hs_hosted_workspace_root hs) resource)
            (command_always (pp_approvals profile)) = true) as ->.
  { apply existsb_exists. exists grant. split; [by apply list_elem_of_In|done]. }
  destruct (approval_location hs); simpl; [|done]. destruct Hws as (_ & -> & ->). done.
Qed.

(** What a user approved for always stays approved across a restart.  A
    command answered with [approve_always] is from then on allowed without a
    prompt, in the same place, for every command line the remembered family
    covers; and an endpoint whose remembering reached the disk is let through
    without a prompt for the same capsule and principal. *)
Theorem always_survives_restart hs later draw draw' meanwhile replies aa w p :
  effective_principal later = p -> approval_location later = approval_location hs ->
  hs_hosted_workspace_root later = hs_hosted_workspace_root hs -> hs_capsule_id later = hs_capsule_id hs ->
  invocation_authority_active later = true -> effective_origin later = LocalSocket ->
  hs_allowance_store later = true -> hs_profile_cache later = true ->
  (forall q o action reason w' aa' request,
     apply_response hs draw p action (ReplyIpc q o (ApprovalResponsePayload "approve_always" reason)) aa w
     = (w', aa', Ok DecApprovedAlways) ->
     length (chars (req_action request)) <= MAX_ACTION_LEN ->
     AllowancePattern_matches (command_family (trim action))
       (ExecuteCommand (sanitize MAX_RESOURCE_LEN (req_target_resource request)) [])
       (Some (hs_hosted_workspace_root hs)) = true ->
     exists w2 fx, request_approval later draw' meanwhile replies request (restarted (pw_disk (cw_profiles w')))
       = (w2, fx, Ok DecAllowance) /\ no_prompt fx) /\
  (forall host port pw', (port <= U16_MAX)%N ->
     persist_egress p (hs_capsule_id hs) (endpoint_of host port) (cw_profiles w) = (pw', Ok tt) ->
     exists w2 fx, consent_local_egress later draw' meanwhile replies host port (restarted (pw_disk pw'))
       = (w2, fx, true) /\ no_prompt fx).
Proof.
  intros Hp Hloc Hroot Hcap Hact Horig Hstore Hcache. split.
  - intros q o action reason w' aa' request. unfold apply_response. cbn [String.eqb Ascii.eqb Bool.eqb].
    destruct (persist_always hs p action (cw_profiles w)) as [pw [[]|e]] eqn:Hpers; [|done].
    intros [= <- _] Hlen Hm. destruct (saved_always _ _ _ _ _ Hpers) as (profile & grant & Hl & Hen & Hin & Hcmd & Hgl & Hws).
    rewrite <- Hcmd, <- Hroot in Hm. rewrite <- Hloc in Hgl, Hws. rewrite <- Hroot in Hws.
    pose proof (check_persisted_saved later p _ _ profile grant Hcache Hl Hen Hin Hgl Hws Hm) as Hck.
    unfold request_approval. rewrite Hact, Hp. cbn [negb]. rewrite (proj2 (Nat.ltb_ge _ _)) by done.
    destruct (check_persisted_allowance _ _ _ _) as [pw2 r] eqn:Hc. simpl in Hck. subst r.
    do 2 eexists. split; [reflexivity|]. apply granted_no_prompt.
  - intros host port pw' Hport Hpers. destruct (persist_egress_Ok _ _ _ _ _ Hpers) as (profile & entries & e & Hl & He & Hin & Heq).
    unfold consent_local_egress. rewrite Horig, Hstore, Hcache, Hp, Hcap. rewrite bool_decide_true by done. cbn [negb].
    unfold has_runtime_grant. rewrite new_store_finds_nothing. rewrite bool_decide_false by (by intros [? [=]]).
    unfold has_persisted_grant. cbn [cw_profiles with_store restarted].
    pose proof (restarted_resolve (pw_disk pw') p) as Hres. cbn [cw_profiles restarted] in Hres. rewrite Hres, Hl, He.
    rewrite (proj2 (existsb_exists _ _)).
    2: { exists e. split; [by apply list_elem_of_In|]. by apply remembered_endpoint_matches. }
    do 2 eexists. split; [reflexivity|]. apply granted_no_prompt.
Qed.
End Restart.

(** ** Every decision is on record *)

Definition prompt_effects (p : PrincipalId) (owner : Uuid) (request_id action resource : string) : list effect :=
  [AuditRequested p request_id action resource; PromptPublished p owner request_id action resource].

(** The trail of a check that came to a decision, a grant or not: the prompt
    if there was one, and one decision that names it. *)
Definition decided_trail (hs : HostState) (draw : ConsentDraw) (p : PrincipalId) (action resource : string)
    (grant : Prop) (fx : list effect) : Prop :=
  exists prompt request_id scope via, fx = prompt ++ [AuditDecided p request_id action resource scope via] /\
    (is_Some scope <-> grant) /\
    ((prompt = [] /\ request_id = None) \/
     exists owner, request_owner_of hs = Some owner /\ request_id = Some (cd_request_id draw) /\
       prompt = prompt_effects p owner (cd_request_id draw) action resource).

(** A trail with a sink and no decision yet. *)
Abbreviation open_trail p action resource request_id fx :=
  (MkApprovalAudit true p action resource request_id false fx).

Lemma drop_decide p action resource request_id fx scope via :
  drop_audit (decide_audit scope via (open_trail p action resource request_id fx))
  = fx ++ [AuditDecided p request_id action resource scope via].
Proof. unfold drop_audit. simpl. by destruct request_id. Qed.

Lemma drop_open p action resource request_id fx :
  drop_audit (open_trail p action resource (Some request_id) fx)
  = fx ++ [AuditDecided p (Some request_id) action resource None "error"].
Proof. done. Qed.

Lemma decided_without_prompt hs draw p action resource grant scope via :
  hs_audit_sink hs = true -> (is_Some scope <-> grant) ->
  decided_trail hs draw p action resource grant (drop_audit (decide_audit scope via (ApprovalAudit_new hs p action resource))).
Proof.
  intros Hs Hg. unfold ApprovalAudit_new. rewrite Hs, drop_decide. exists [], None, scope, via.
  split_and!; [done..|by left].
Qed.

Section Trail.
  Context `{Globset} `{AllowanceIteration} `{Hashing} `{ProfileCodec}.

(** A decision after a prompt closes the trail. *)
Lemma decided_after_prompt hs draw p owner action resource grant scope via :
  request_owner_of hs = Some owner -> (is_Some scope <-> grant) ->
  decided_trail hs draw p action resource grant
    (prompt_effects p owner (cd_request_id draw) action resource
     ++ [AuditDecided p (Some (cd_request_id draw)) action resource scope via]).
Proof. intros Ho Hg. do 4 eexists. split; [reflexivity|]. split; [done|]. right. by exists owner. Qed.

Lemma apply_response_trail hs draw p action' action resource rid fx event w w' aa' r :
  apply_response hs draw p action' event (open_trail p action resource (Some rid) fx) w = (w', aa', r) ->
  exists scope via, drop_audit aa' = fx ++ [AuditDecided p (Some rid) action resource scope via] /\
    (is_Some scope <-> exists d, r = Ok d /\ d <> DecDenied).
Proof.
  unfold apply_response. destruct event as [q o [decision reason|]|].
  - destruct (if String.eqb decision "approve_always" then _ else _) as [pw [[]|e]].
    + intros [= _ <- <-]. unfold decision_from_str.
      destruct (String.eqb decision "approve"); [|destruct (String.eqb decision "approve_session");
        [|destruct (String.eqb decision "approve_always")]]; do 2 eexists;
        (split; [apply drop_decide|]); split; try (by intros [? [=]]); try naive_solver; by eauto.
    + intros [= _ <- <-]. do 2 eexists. split; [apply drop_decide|]. split; [by intros [? [=]]|naive_solver].
  - intros [= _ <- <-]. do 2 eexists. split; [apply drop_open|]. split; [by intros [? [=]]|naive_solver].
  - intros [= _ <- <-]. do 2 eexists. split; [apply drop_open|]. split; [by intros [? [=]]|naive_solver].
Qed.

Lemma prompt_user_trail hs draw p action resource meanwhile replies w w' aa' r :
  hs_audit_sink hs = true ->
  prompt_user hs draw p action resource meanwhile replies (ApprovalAudit_new hs p action resource) w = (w', aa', r) ->
  decided_trail hs draw p action resource (exists d, r = Ok d /\ d <> DecDenied) (drop_audit aa').
Proof.
  intros Hs. unfold prompt_user. destruct (request_owner_of hs) as [owner|] eqn:Ho.
  2: { intros [= _ <- <-]. apply decided_without_prompt; [done|]. split; [by intros [? [=]]|naive_solver]. }
  unfold ApprovalAudit_new. rewrite Hs.
  change (emit (requested _ _) _) with (open_trail p action resource (Some (cd_request_id draw))
    (prompt_effects p owner (cd_request_id draw) action resource)).
  destruct (await_matching_response _ _ _) as [event|].
  - intros (scope & via & -> & Hg)%apply_response_trail. by apply decided_after_prompt.
  - intros [= _ <- <-]. unfold denied. rewrite drop_decide. apply decided_after_prompt; [done|].
    split; [by intros [? [=]]|naive_solver].
Qed.

Lemma elicit_trail hs draw p endpoint meanwhile replies w w' aa' decision :
  hs_audit_sink hs = true ->
  elicit_egress_consent hs draw p endpoint meanwhile replies (ApprovalAudit_new hs p EGRESS_CONSENT_ACTION endpoint) w
  = (w', aa', decision) ->
  (decision = "" /\ aa_decided aa' = true /\
   decided_trail hs draw p EGRESS_CONSENT_ACTION endpoint False (drop_audit aa')) \/
  exists owner, request_owner_of hs = Some owner /\
    aa' = open_trail p EGRESS_CONSENT_ACTION endpoint (Some (cd_request_id draw))
            (prompt_effects p owner (cd_request_id draw) EGRESS_CONSENT_ACTION endpoint).
Proof.
  intros Hs. unfold elicit_egress_consent. destruct (request_owner_of hs) as [owner|] eqn:Ho.
  2: { intros [= _ <- <-]. left. unfold denied, ApprovalAudit_new. rewrite Hs. split_and!; [done..|].
       pose proof (decided_without_prompt hs draw p EGRESS_CONSENT_ACTION endpoint False None "no_request_owner" Hs) as Hd.
       unfold ApprovalAudit_new in Hd. rewrite Hs in Hd. apply Hd. split; [by intros [? [=]]|done]. }
  unfold ApprovalAudit_new. rewrite Hs.
  change (emit (requested _ _) _) with (open_trail p EGRESS_CONSENT_ACTION endpoint (Some (cd_request_id draw))
    (prompt_effects p owner (cd_request_id draw) EGRESS_CONSENT_ACTION endpoint)).
  assert (forall via, decided_trail hs draw p EGRESS_CONSENT_ACTION endpoint False
    (drop_audit (denied via (open_trail p EGRESS_CONSENT_ACTION endpoint (Some (cd_request_id draw))
       (prompt_effects p owner (cd_request_id draw) EGRESS_CONSENT_ACTION endpoint))))) as Hden.
  { intros via. unfold denied. rewrite drop_decide. apply decided_after_prompt; [done|]. split; [by intros [? [=]]|done]. }
  destruct (await_matching_response _ _ _) as [[q o [d reason|]|]|]; intros [= _ <- <-]; [right; eauto|left; eauto..].
Qed.

(** The audit trail tells what happened.  With an audit sink, a check that
    answers the guest records exactly one decision, a grant exactly when the
    answer permits the action; a prompt is recorded before it is published and
    the decision names it.  A check that records nothing permits nothing. *)
Theorem consent_audited hs draw meanwhile replies :
  hs_audit_sink hs = true ->
  (forall request w w' fx r, request_approval hs draw meanwhile replies request w = (w', fx, r) ->
     (fx = [] /\ exists e, r = Err e) \/
     decided_trail hs draw (effective_principal hs) (sanitize MAX_ACTION_LEN (req_action request))
       (sanitize MAX_RESOURCE_LEN (req_target_resource request)) (exists d, r = Ok d /\ d <> DecDenied) fx) /\
  (forall host port w w' fx permitted, consent_local_egress hs draw meanwhile replies host port w = (w', fx, permitted) ->
     (fx = [] /\ permitted = false) \/
     decided_trail hs draw (effective_principal hs) EGRESS_CONSENT_ACTION (endpoint_of host port) (permitted = true) fx).
Proof.
  intros Hs. split.
  - intros request w w' fx r. unfold request_approval. destruct (invocation_authority_active hs); simpl.
    2: { intros [= _ <- <-]. left. eauto. }
    destruct (MAX_ACTION_LEN <? _)%nat; [intros [= _ <- <-]; left; eauto|].
    destruct (check_persisted_allowance _ _ _ _) as [pw [[]|e]].
    { intros [= _ <- <-]. right. apply decided_without_prompt; [done|]. split; [intros _; by eexists|by eexists]. }
    2: { intros [= _ <- <-]. left. eauto. }
    destruct (if hs_allowance_store hs then _ else _) as [st []].
    { intros [= _ <- <-]. right. apply decided_without_prompt; [done|]. split; [intros _; by eexists|by eexists]. }
    destruct (prompt_user _ _ _ _ _ _ _ _ _) as [[w1 aa1] r1] eqn:Hp. intros [= _ <- <-]. right.
    by eapply prompt_user_trail.
  - intros host port w w' fx permitted. unfold consent_local_egress. destruct (negb _); [intros [= _ <- <-]; by left|].
    destruct (negb _); [intros [= _ <- <-]; by left|]. intros Hc. right. revert Hc.
    destruct (has_runtime_grant _ _ _ _ _ _ _) as [st []].
    { intros [= _ <- <-]. apply decided_without_prompt; [done|]. split; [done|by eexists]. }
    destruct (if hs_profile_cache hs then _ else _) as [pw []].
    { intros [= _ <- <-]. apply decided_without_prompt; [done|]. split; [done|by eexists]. }
    destruct (elicit_egress_consent _ _ _ _ _ _ _ _) as [[w1 aa1] reply] eqn:He.
    destruct (apply_egress_decision _ _ _ _ _ _ _ _) as [[w2 aa2] b] eqn:Ha. intros [= _ <- <-].
    destruct (elicit_trail _ _ _ _ _ _ _ _ _ _ Hs He) as [(-> & Hdec & Ht)|(owner & Ho & ->)].
    + simpl in Ha. injection Ha as _ <- <-. unfold denied, decide_audit. rewrite Hdec. 
      destruct Ht as (prompt & rid & scope & via & ? & Hsc & ?). exists prompt, rid, scope, via. split_and!; [done|naive_solver|done].
    + destruct (classify_decision reply); simpl in Ha; injection Ha as _ <- <-; unfold granted, denied; rewrite drop_decide;
        apply decided_after_prompt; try done; (split; [try done; by intros [? [=]]|try done; by eexists]).
Qed.
End Trail.

(** ** Examples *)
Module ConsentExamples.

Import AllowanceExamples.
#[local] Existing Instance TokenExamples.toy_globset.
#[local] Existing Instance by_key.
#[local] Existing Instance by_key_laws.
#[local] Existing Instance constant_hashing.
#[local] Existing Instance profile_table.
#[local] Existing Instance profile_table_laws.

Definition owner : Uuid := int_array 16 9.
Definition host_state (capsule_id : string) : HostState :=
  MkHostState capsule_id PrincipalId_default (Some (MkCallerContext (Some "alice") (Some owner) LocalSocket))
    true false "/ws" "/ws" None None true true true.
Definition draw : ConsentDraw := MkConsentDraw "req" noon noon (int_array 16 5) noon (zero_array 64) false.

(** A reply of another principal, then the user's. *)
Definition replies (decision : string) : list ReplyEvent :=
  [ReplyIpc (Some "mallory") (Some owner) (ApprovalResponsePayload "approve" None);
   ReplyIpc (Some "alice") (Some owner) (ApprovalResponsePayload decision None)].

(** Alice's profile is on disk, nothing is allowed. *)
Definition fresh : ConsentWorld := restarted {[alice := "default"]}.
Definition request : ApprovalRequest := MkApprovalRequest "git push" "git push origin".
Definition ask (decision : string) (w : ConsentWorld) : ConsentWorld * list effect * result ApprovalDecision ErrorCode :=
  request_approval (host_state "capsule") draw id (replies decision) request w.

Lemma answer_eta {A B C} (x : A * B * C) c : x.2 = c -> x = (x.1.1, x.1.2, c).
Proof. destruct x as [[a b] c']. simpl. by intros ->. Qed.

Lemma fresh_keyed : keyed (cw_allowances fresh).
Proof. apply new_keyed. Qed.

Lemma ask_session : (ask "approve_session" fresh).2 = Ok DecApprovedSession.
Proof. vm_compute. reflexivity. Qed.

Lemma command_consent_sound_witness :
  exists decision, user_reply (host_state "capsule") alice (replies "approve_session") decision /\
    decision_from_str decision = DecApprovedSession.
Proof.
  destruct (command_consent_sound (host_state "capsule") draw id (replies "approve_session") request fresh _ _
              DecApprovedSession fresh_keyed (answer_eta _ _ ask_session) ltac:(discriminate)) as [_ [[Hd _]|Hr]].
  - discriminate Hd.
  - exact Hr.
Defined.

(** The answer is remembered: the next command of the family is not asked. *)
Lemma session_remembered : (ask "deny" (ask "approve_session" fresh).1.1).2 = Ok DecAllowance.
Proof. vm_compute. reflexivity. Qed.

Lemma consent_audited_witness :
  (ask "deny" fresh).1.2 = [] /\ (exists e, (ask "deny" fresh).2 = Err e) \/
  decided_trail (host_state "capsule") draw alice "git push" "git push origin"
    (exists d, (ask "deny" fresh).2 = Ok d /\ d <> DecDenied) (ask "deny" fresh).1.2.
Proof.
  exact (proj1 (consent_audited (host_state "capsule") draw id (replies "deny") eq_refl) request fresh _ _ _
           (answer_eta _ _ eq_refl)).
Defined.

Definition reach (decision : string) (w : ConsentWorld) : ConsentWorld * list effect * bool :=
  consent_local_egress (host_state "capsule") draw id (replies decision) "127.0.0.1" 80 w.

Lemma reach_always : (reach "approve_always" (restarted ∅)).2 = true.
Proof. vm_compute. reflexivity. Qed.

Lemma egress_consent_scoped_witness : effective_origin (host_state "capsule") = LocalSocket.
Proof.
  exact (proj1 (proj1 (egress_consent_scoped (host_state "capsule") draw id (replies "approve_always") "127.0.0.1" 80
           (restarted ∅)) _ _ new_keyed (answer_eta _ _ reach_always))).
Defined.

Lemma saved_endpoint :
  persist_egress alice "capsule" (endpoint_of "127.0.0.1" 80) (cw_profiles (restarted ∅))
  = ((persist_egress alice "capsule" (endpoint_of "127.0.0.1" 80) (cw_profiles (restarted ∅))).1, Ok tt).
Proof. vm_compute. reflexivity. Qed.

Lemma always_survives_restart_witness :
  exists w2 fx, consent_local_egress (host_state "capsule") draw id [] "127.0.0.1" 80
    (restarted (pw_disk (persist_egress alice "capsule" (endpoint_of "127.0.0.1" 80) (cw_profiles (restarted ∅))).1))
  = (w2, fx, true) /\ no_prompt fx.
Proof.
  refine (proj2 (always_survives_restart (host_state "capsule") (host_state "capsule") draw draw id []
    (ApprovalAudit_new (host_state "capsule") alice "" "") (restarted ∅) alice _ _ _ _ _ _ _ _) "127.0.0.1" 80%N _ _ saved_endpoint).
  all: first [reflexivity|vm_compute; discriminate].
Defined.

(** An action with a glob character is remembered in escaped form, and the
    form without arguments is compared with the escaped text: the very
    command that was approved for the session is asked for again. *)
Definition bracket_request : ApprovalRequest := MkApprovalRequest "ls [ab]" "ls [ab]".
Lemma escaped_command_asked_again :
  let ask decision := request_approval (host_state "capsule") draw id (replies decision) bracket_request in
  (ask "approve_session" fresh).2 = Ok DecApprovedSession /\
  (ask "deny" (ask "approve_session" fresh).1.1).2 = Ok DecDenied.
Proof. vm_compute. done. Qed.
End ConsentExamples.
